(* ===== verification/_CoqProject ===== *)
-Q . S2P
Prelude.v
Platform.v
GoStrings.v
GoNet.v
GoUrl.v
LoTypes.v
LoProc.v
LoFrame.v
LoWatcher.v
GoPath.v
FS.v
FSFacts.v
Rootfs.v
RootfsLayers.v
RootfsSafety.v
Config.v
Entrypoint.v
Network.v
Supervisor.v
SupervisorStart.v
LoPeer.v
LoShare.v
LoUdp.v
LoUdpPipe.v
LoUdpChain.v
LoConnect.v
LoPipe.v
ClientWatcher.v
Client.v
ClientSystem.v
ClientSystemFacts.v
LoTcp.v
LoTunnel.v
GoJSON.v
GoJSONFacts.v
GoTime.v
LoWire.v
LoListens.v
LoServer.v
LoStream.v
ClientServers.v
State.v
ConfigLoad.v
Pull.v
NetLinks.v
LoRun.v
Main.v
MainFlags.v
