(* ===== verification/Prelude.v ===== *)
(** * peel: a verification library for an init that unpeels OCI images

    peel is PID 1 of an LXD container.  At every boot it reads its
    configuration, brings the network up, unpacks the configured image onto the
    root file system unless that image is recorded as unpacked, deletes the
    configuration, starts the image's command, optionally shares its loopback
    listeners with other containers through sockets in /peel/lo, and then reaps
    processes until it calls reboot.  A client library follows the listeners of
    all containers.  This library models the Go sources under src/ and proves
    what makes each part correct.

    ** The parts and their files

    Boot.  [Main] is [run] and [ensureUnpacked] of cmd/peel/main.go, [MainFlags]
    the [main] around them, from the command line to PID 1's loop.  They call, in
    the code's order, [ConfigLoad] (internal/config; the records are in [Config]),
    [Network] and [NetLinks] (internal/network), [State] (internal/state),
    [Pull] (internal/pull, internal/certs), [Rootfs] (internal/rootfs) and
    [Entrypoint] (internal/entrypoint), and end in [LoRun] (internal/lo/run.go),
    [SupervisorStart] (internal/supervisor/start.go) and [Supervisor]
    (internal/supervisor/supervisor.go).  These share one model of the file
    system, [FS], an error and state monad [io E A := fs -> res E A * fs] with
    one definition per call of package os; [FSFacts] has its lemmas.

    Loopback sharing, internal/lo.  [LoTypes] (types.go, addr.go), [LoProc]
    (proc.go), [LoWatcher] (watcher.go, and the subscriber side of server.go),
    [LoWire] (the JSON of /watch in server.go), [LoListens] (the type of what is
    listed there), [LoServer] (handleWatch as a process per connection, with the
    watcher and the readers of its bytes), [LoStream] (what of a stream has
    arrived, and what its reader sees), [LoConnect] (the /connect handshake of
    server.go and client.go), [LoFrame] (frame.go and the datagram loops of
    pipe.go), [LoPipe] (pipeTCP), [LoUdpPipe] (pipeUDPServer), [LoTunnel]
    (bufferedConn, and the two pipes a connection runs through), [LoPeer]
    (peer.go, and StartProxy and Close of proxy.go over the host's open sockets
    and live contexts),
    [LoTcp] and [LoUdp] (the loops of proxy.go), [LoUdpChain] (a UDP proxy with
    its tunnels and the owner's ends of them), [LoShare] and [LoRun]
    (discovery.go, run.go).  The managers of the peers see the watcher through
    the class [LoWatcher.Registry] only: what they promise is proved against its
    laws, which the watcher's operations discharge.

    Client library, client/.  [ClientWatcher] (watcher.go), [Client] (client.go),
    [ClientSystem] (both together, from New to Wait, with an interpreter of
    schedules), [ClientSystemFacts], and [ClientServers]: the client with the
    servers of all containers and the connections between them.

    Go itself.  [Platform] (the architectures of the releases, with the width of
    [int] and the byte order), [GoStrings] (strings, strconv, bufio.ScanLines), [GoPath] (path,
    path/filepath), [GoNet] (net.IP), [GoUrl] (net/url queries), [GoJSON] and
    [GoJSONFacts] (encoding/json), [GoTime] (RFC 3339 times) model the standard
    library where the code's behaviour depends on it, byte for byte.

    ** How code becomes definitions

    A function that returns an error is a function into [res E A], [E] being the
    inductive type of the component's error sites.  Code that changes shared
    state under a lock is one atomic step on a record; goroutines are the
    interleavings of such steps ([LoPipe], [LoUdpPipe], [LoTunnel], [LoUdp],
    [LoUdpChain], [LoServer], [Supervisor], [Client], [ClientSystem], [ClientServers]) or an
    explicit order of their effects ([NetLinks]).  The order in which Go ranges
    over a map is always an argument.  Ports, sizes and ids are integers with the
    width's conversion written out, the width being the architecture's for an
    [int]; where the architecture matters it is an implicit argument ([readFrame],
    the kernel's addresses in [LoProc]) or part of the root ([fs_arch]), and the
    theorems hold for all six; bytes are [Byte.byte], strings byte strings.
    What packages outside the repository answer (registry, netlink, DHCP, the
    dialler, archive/tar, the certificate parser) is an argument.  Log lines,
    contexts and time-outs appear only through what they cause.

    ** What is proved

    Unpacking.  [RootfsSafety]: a layer without links to peel and without
    degenerate whiteouts cannot touch /sbin/init or /peel, whatever else it
    holds and wherever it fails.  [RootfsLayers]: what extraction, whiteouts and
    opaque whiteouts do to every name of the root, and the ways a layer gets
    around the protection.

    Booting.  [Main]: for images whose layers hold no links to peel and no
    degenerate whiteouts, any sequence of boots refines a specification of four
    rules over the record and the files: a boot skips a recorded image, applies
    every layer of another one and records it, stops at the layer that fails, or
    has no image to unpack.  A failing layer is the one reported; the
    configuration is gone when the command starts; and two things that do go
    wrong, a record that outlives the files it describes (after any failed switch
    of images) and a resolv.conf that is a link to peel.  [State]: saving is atomic under a kill
    at any point, and loading gives back what was saved.  [ConfigLoad],
    [Pull], [Entrypoint], [Network], [NetLinks]: what the configuration, the
    image and the network's answers become, on every branch.  [SupervisorStart]:
    the process started is the executable that the image's command names in the
    image's PATH, with the image's arguments, directory, user and environment, and
    inherits nothing else of peel's than its console.  [MainFlags]: all of this put together, for
    [main] without arguments.

    Supervision.  [Supervisor]: reboot is called only when no process is left
    and a shutdown was asked for, no zombie is forgotten (a signal that makes PID 1
    reap is queued or pending), and a shutdown can always complete.

    Sharing.  [LoProc]: parsing inverts the kernel's rendering, on the little-endian
    architectures; on s390x it reads addresses with the bytes of each word reversed.  [LoWatcher]: the
    queue of every subscriber leads from its view to the present set of
    listeners.  [LoWire] with [ClientWatcher] and [LoPeer]: what a subscriber is
    sent is what the other side acts on, and a peer's proxies follow it.
    [LoServer] composes these over the bytes that were flushed: everything served
    is well typed, and a peer and a client that have read it mirror the watcher,
    which every handler can always bring about.
    [LoConnect]: the handshake dials the very listener asked for, and never
    anything but loopback; its header loop ends on every stream.  [LoFrame],
    [LoPipe], [LoUdpPipe], [LoUdp], [LoTcp]: what passes a tunnel is an exact
    prefix of what was sent, sessions do not mix, and a wildcard proxy is no open
    relay.  [LoTunnel]: the two pipes of a forwarded connection are one reliable
    stream each way.  [LoUdpChain]: from a client of a proxy to the service in
    the other container and back, datagrams stay whole, in order and within their
    session, and can be delivered.  (On 386 a tunnel that announces 2 GiB or more
    makes [readFrame] panic.)
    [LoShare], [LoRun]: proxies are never advertised, and every manager that is
    started is cancelled; [LoPeer]: a manager that has stopped has closed every
    socket and ended every context it opened.  [Client]: the first report is the snapshot, then all
    changes in order.  [ClientSystemFacts]: the changes of all containers together
    are consistent and mirror what their watchers count, and a killed client
    always can end.  [ClientServers]: its assumption on what a container sends is
    true of the servers of [LoServer], read over connections that break off
    anywhere; so the consumer of a client, from the tables of /proc/net of all
    containers to its channel of changes, knows what they listen on, or can
    always catch up with them.  These last theorems are about a client that runs,
    that heard from every container before the startup deadline, and that never
    started a watcher while the last one of its container was still ending; what
    happens otherwise are the lemmas [late_startup_lost] and [restart_confuses].

    ** Bounds and fuel

    Recursion follows the data wherever it can: the JSON scanner is structural
    on the text with an explicit stack, as Go's is, and stops at Go's nesting
    limit [GoJSON.maxNestingDepth].  [FS.walk] has the kernel's budget of forty
    symbolic links ([MAXSYMLINKS]), which is part of what it models.
    [GoStrings.strconv_Itoa] has fuel for twenty digits, enough for every 64-bit
    integer.  [LoConnect.skip_headers] has one turn more than the stream has
    bytes; [LoConnect.headers_terminate] proves that it never runs out.
    [LoFrame.pipe_from_tunnel] has fuel for the length of the stream, of which
    every frame takes four bytes or more.  [subscriberBuffer], the scanner's line
    limit, [maxDatagram] and the intervals are the code's constants.

    ** Not modelled

    Log lines; the kernel's creation of a process (an argument of
    [SupervisorStart.start]); net/http beyond the request line, the status, the
    header loop and the flush of a response; the contents of the certificate
    bundle; what a panic of one goroutine does to the others (it ends peel: a
    pipeline is modelled up to the goroutine's deferred calls); package documentation and the LXD templates, which hold no code.  Of the file
    system: I/O errors of the medium, durability (a kill is modelled, a power
    failure is not), mount points and limits.  A timestamp written with JSON
    escapes, which Go refuses, is accepted by [GoTime]; peel never writes one. *)

From stdpp Require Export base tactics option list gmap fin_maps sets strings relations.
From Stdlib Require Export ZArith Lia.
From Stdlib Require Export Strings.Byte Strings.Ascii.

#[global] Open Scope string_scope.
#[global] Open Scope list_scope.
#[global] Open Scope Z_scope.
#[global] Set Default Goal Selector "!".

(** ** Results of fallible Go functions

    A Go function returning [(T, error)] is a function into [res E T]: the
    errors of a component are the constructors of its own inductive type [E],
    one per [fmt.Errorf] site. *)

Inductive res (E A : Type) : Type :=
  | Ok (a : A)
  | Err (e : E).
Arguments Ok {E A} a.
Arguments Err {E A} e.

Definition res_bind {E A B} (r : res E A) (k : A → res E B) : res E B :=
  match r with
  | Ok a => k a
  | Err e => Err e
  end.

Definition res_map_err {E F A} (f : E → F) (r : res E A) : res F A :=
  match r with
  | Ok a => Ok a
  | Err e => Err (f e)
  end.

Definition is_Ok {E A} (r : res E A) : bool :=
  match r with Ok _ => true | Err _ => false end.

Declare Scope peel_scope.
Delimit Scope peel_scope with peel.
Notation "'let?' x := r 'in' k" := (res_bind r (λ x, k))
  (at level 10, x pattern, r at level 100, k at level 200) : peel_scope.
#[global] Open Scope peel_scope.

Lemma res_bind_Ok {E A B} (r : res E A) (k : A → res E B) b :
  res_bind r k = Ok b ↔ ∃ a, r = Ok a ∧ k a = Ok b.
Proof. destruct r; simpl; split; [eauto|by intros (?&[=->]&?)|done|by intros (?&?&?)]. Qed.

Lemma res_bind_assoc {E A B C} (r : res E A) (f : A → res E B) (g : B → res E C) :
  res_bind (res_bind r f) g = res_bind r (λ a, res_bind (f a) g).
Proof. by destruct r. Qed.

(** ** Tactics *)

(** Split on the innermost [match]/[if] of the goal or of a hypothesis,
    keeping the equation, and simplify. *)
Ltac split_match :=
  match goal with
  | |- context [match ?x with _ => _ end] => destruct x eqn:?; simplify_eq/=
  | H : context [match ?x with _ => _ end] |- _ => destruct x eqn:?; simplify_eq/=
  end.
Ltac split_matches := repeat (split_match; try done).

(** Turn boolean tests in the context into propositions. *)
Ltac bool_to_prop :=
  repeat match goal with
  | H : andb _ _ = true |- _ => apply andb_true_iff in H as [? ?]
  | H : orb _ _ = false |- _ => apply orb_false_iff in H as [? ?]
  | H : negb _ = true |- _ => apply negb_true_iff in H
  | H : negb _ = false |- _ => apply negb_false_iff in H
  | H : Z.eqb _ _ = true |- _ => apply Z.eqb_eq in H
  | H : Z.eqb _ _ = false |- _ => apply Z.eqb_neq in H
  | H : Z.ltb _ _ = true |- _ => apply Z.ltb_lt in H
  | H : Z.ltb _ _ = false |- _ => apply Z.ltb_ge in H
  | H : Z.leb _ _ = true |- _ => apply Z.leb_le in H
  | H : Z.leb _ _ = false |- _ => apply Z.leb_gt in H
  | H : Nat.eqb _ _ = true |- _ => apply Nat.eqb_eq in H
  | H : Nat.ltb _ _ = true |- _ => apply Nat.ltb_lt in H
  | H : Nat.ltb _ _ = false |- _ => apply Nat.ltb_ge in H
  | H : bool_decide _ = true |- _ => apply bool_decide_eq_true in H
  | H : bool_decide _ = false |- _ => apply bool_decide_eq_false in H
  end.

Create HintDb peel discriminated.
Create Rewrite HintDb peel.

(** ** Bytes

    A Go [byte] is a [Byte.byte]: its range is in its type. *)

#[export] Instance byte_eq_dec : EqDecision byte := Byte.byte_eq_dec.

(** What a connection carries. *)
Notation payload := (list byte).

Definition byte_Z (b : byte) : Z := Z.of_N (Byte.to_N b).

(** [byte(z)]: conversion to [uint8] keeps the low eight bits. *)
Definition Z_byte (z : Z) : byte :=
  default x00 (Byte.of_N (Z.to_N (z `mod` 256))).

Lemma byte_Z_range b : 0 ≤ byte_Z b < 256.
Proof. unfold byte_Z. pose proof (Byte.to_N_bounded b). lia. Qed.

Lemma byte_Z_byte b : Z_byte (byte_Z b) = b.
Proof. by destruct b. Qed.

Lemma Z_byte_Z z : byte_Z (Z_byte z) = z `mod` 256.
Proof.
  unfold byte_Z, Z_byte. pose proof (Z.mod_pos_bound z 256 ltac:(lia)).
  destruct (Byte.of_N _) as [b|] eqn:E; simpl.
  - apply Byte.to_of_N in E. rewrite E. lia.
  - apply Byte.of_N_None_iff in E. lia.
Qed.

#[export] Instance byte_Z_inj : Inj (=) (=) byte_Z.
Proof. intros x y H. rewrite <-(byte_Z_byte x), <-(byte_Z_byte y). by rewrite H. Qed.

#[export] Hint Resolve byte_Z_range : peel.
#[export] Hint Rewrite byte_Z_byte Z_byte_Z : peel.

(** ** Lists *)

(** [l[:n]] and [l[n:]] when [n] is within bounds, [None] where Go panics. *)
Definition split_at {A} (n : nat) (l : list A) : option (list A * list A) :=
  if decide (n ≤ length l)%nat then Some (take n l, drop n l) else None.

Lemma split_at_app {A} (l k : list A) : split_at (length l) (l ++ k) = Some (l, k).
Proof.
  unfold split_at. rewrite decide_True by (rewrite length_app; lia).
  by rewrite take_app_length, drop_app_length.
Qed.

Lemma split_at_Some {A} n (l a b : list A) :
  split_at n l = Some (a, b) ↔ l = a ++ b ∧ length a = n.
Proof.
  split.
  - unfold split_at. case_decide; [|done]. intros [= <- <-].
    by rewrite take_drop, length_take_le.
  - intros [-> <-]. apply split_at_app.
Qed.

Lemma split_at_None {A} n (l : list A) : split_at n l = None ↔ (length l < n)%nat.
Proof. unfold split_at. case_decide; naive_solver lia. Qed.

Lemma Permutation_filter_elements {A} `{Countable A} (P : A → Prop) `{∀ x, Decision (P x)}
    (s : gset A) : elements (filter P s) ≡ₚ filter P (elements s).
Proof.
  apply NoDup_Permutation.
  - apply NoDup_elements.
  - apply NoDup_filter, NoDup_elements.
  - intros x. rewrite elem_of_elements, elem_of_filter, list_elem_of_filter, elem_of_elements. done.
Qed.

(** ** Reachable states *)

(** A list around one of its elements, and the list with the element replaced. *)
Lemma update_split {A} (l : list A) i x :
  l !! i = Some x → ∃ l1 l2, l = l1 ++ x :: l2 ∧ length l1 = i ∧ ∀ y, <[i := y]> l = l1 ++ y :: l2.
Proof.
  intros H. pose proof (lookup_lt_Some _ _ _ H). exists (take i l), (drop (S i) l). split_and!.
  - symmetry. by apply take_drop_middle.
  - rewrite length_take. lia.
  - intros y. by apply insert_take_drop.
Qed.

(** An invariant of the steps holds of what they reach. *)
Lemma rtc_invariant {A} (R : relation A) (Inv : A → Prop) a b :
  (∀ x y, R x y → Inv x → Inv y) → rtc R a b → Inv a → Inv b.
Proof. intros Hstep. induction 1; eauto. Qed.
