(* ===== verification/Platform.v ===== *)
(** * The machines peel runs on

    What Go leaves to the architecture and the code depends on: the width of
    [int] and of the seconds in a [Timespec], and the byte order in which the
    kernel prints the words of an address. *)

From S2P Require Import Prelude.

(** The architectures that [ARCHES] of .github/workflows/release.yml builds
    images for. *)
Inductive GOARCH := Amd64 | Arm64 | I386 | Ppc64le | Riscv64 | S390x.
Existing Class GOARCH.

#[export] Instance GOARCH_eq_dec : EqDecision GOARCH.
Proof. solve_decision. Defined.

(** The width of [int], and of [Timespec.Sec]. *)
Definition int_bits {a : GOARCH} : Z := match a with I386 => 32 | _ => 64 end.
Definition big_endian {a : GOARCH} : bool := match a with S390x => true | _ => false end.

(** A number of [bits] bits, read as a two's complement. *)
Definition wrap_signed (bits z : Z) : Z := (z + 2 ^ (bits - 1)) `mod` 2 ^ bits - 2 ^ (bits - 1).

(** The conversion [int(z)]. *)
Definition to_int {a : GOARCH} (z : Z) : Z := wrap_signed int_bits z.

Lemma wrap_signed_small bits z : 0 < bits → - 2 ^ (bits - 1) ≤ z < 2 ^ (bits - 1) → wrap_signed bits z = z.
Proof.
  intros Hb Hz. unfold wrap_signed. rewrite Z.mod_small; [lia|].
  assert (2 ^ bits = 2 * 2 ^ (bits - 1)) as ->; [|lia]. rewrite <-Z.pow_succ_r by lia. f_equal. lia.
Qed.

Lemma wrap_signed_range bits z : 0 < bits → - 2 ^ (bits - 1) ≤ wrap_signed bits z < 2 ^ (bits - 1).
Proof.
  intros Hb. unfold wrap_signed. assert (2 ^ bits = 2 * 2 ^ (bits - 1)) as ->.
  { rewrite <-Z.pow_succ_r by lia. f_equal. lia. }
  pose proof (Z.mod_pos_bound (z + 2 ^ (bits - 1)) (2 * 2 ^ (bits - 1))). pose proof (Z.pow_pos_nonneg 2 (bits - 1)). lia.
Qed.

(** What fits in 31 bits is the same number on every machine. *)
Lemma to_int_small {a : GOARCH} z : 0 ≤ z < 2 ^ 31 → to_int z = z.
Proof. intros Hz. unfold to_int, int_bits. destruct a; apply wrap_signed_small; lia. Qed.

(** An unsigned 32-bit number is what it is, or on 386 negative from [2 ^ 31] on. *)
Lemma to_int_uint32 {a : GOARCH} z : 0 ≤ z < 2 ^ 32 → to_int z = if decide (a = I386 ∧ 2 ^ 31 ≤ z) then z - 2 ^ 32 else z.
Proof.
  intros Hz. case_decide as H.
  - destruct H as [-> H]. unfold to_int, int_bits, wrap_signed. change (32 - 1) with 31.
    rewrite <-(Z.mod_unique (z + 2 ^ 31) (2 ^ 32) 1 (z + 2 ^ 31 - 2 ^ 32)); lia.
  - destruct (decide (z < 2 ^ 31)); [apply to_int_small; lia|].
    unfold to_int, int_bits. destruct a; try (apply wrap_signed_small; lia). exfalso. apply H. split; [done|lia].
Qed.
