(* ===== verification/GoStrings.v ===== *)
(** * Go's [strings] and [strconv] packages

    A Go string is a sequence of bytes: Rocq's [string].  This file models the
    functions of package [strings], [strconv] and [bufio.ScanLines] the source
    calls, byte for byte.  The separators the source passes to [Cut] and
    [Split] are all one byte long, so the separator is an [ascii]. *)

From S2P Require Import Prelude.

(** ** [strings] *)

(** [strings.Cut(s, sep)]: before, after, found. *)
Fixpoint strings_Cut (s : string) (sep : ascii) : string * string * bool :=
  match s with
  | "" => ("", "", false)
  | String c s' =>
      if decide (c = sep) then ("", s', true)
      else let '(b, a, ok) := strings_Cut s' sep in (String c b, a, ok)
  end.

(** [strings.Split(s, sep)]: never the empty list. *)
Fixpoint strings_Split (s : string) (sep : ascii) : list string :=
  match s with
  | "" => [""]
  | String c s' =>
      if decide (c = sep) then "" :: strings_Split s' sep
      else match strings_Split s' sep with
           | [] => [String c ""]
           | w :: ws => String c w :: ws
           end
  end.

(** [strings.Join(l, sep)]. *)
Fixpoint strings_Join (l : list string) (sep : string) : string :=
  match l with
  | [] => ""
  | [w] => w
  | w :: ws => w +:+ sep +:+ strings_Join ws sep
  end.

Definition strings_HasPrefix (s p : string) : bool := String.prefix p s.

(** The suffix of [s] after its first [n] bytes. *)
Fixpoint sdrop (n : nat) (s : string) : string :=
  match n, s with
  | O, _ => s
  | S n', String _ s' => sdrop n' s'
  | S _, "" => ""
  end.

Definition strings_TrimPrefix (s p : string) : string :=
  if strings_HasPrefix s p then sdrop (String.length p) s else s.

(** [strings.Contains(s, c)] for a one-byte [c]. *)
Fixpoint strings_ContainsByte (s : string) (c : ascii) : bool :=
  match s with
  | "" => false
  | String c' s' => bool_decide (c' = c) || strings_ContainsByte s' c
  end.

(** The bytes taken by a Unicode white-space code point at the head of [s] ([O]
    if there is none): U+0009..U+000D, U+0020, U+0085, U+00A0, U+1680,
    U+2000..U+200A, U+2028, U+2029, U+202F, U+205F and U+3000 in UTF-8.  The
    first byte of each encoding is never a UTF-8 continuation byte, so scanning
    byte by byte finds the same fields as scanning rune by rune. *)
Definition space_len (s : string) : nat :=
  match s with
  | "" => 0
  | String c s' =>
      let n := N_of_ascii c in
      if (bool_decide (9 ≤ n ≤ 13) || bool_decide (n = 32))%N then 1
      else match s' with
      | "" => 0
      | String d s'' =>
          let m := N_of_ascii d in
          if (bool_decide (n = 194) && (bool_decide (m = 133) || bool_decide (m = 160)))%N then 2
          else match s'' with
          | "" => 0
          | String e _ =>
              let k := N_of_ascii e in
              if ((bool_decide (n = 225 ∧ m = 154 ∧ k = 128)) ||
                  (bool_decide (n = 226 ∧ m = 128 ∧
                      (128 ≤ k ≤ 138 ∨ k = 168 ∨ k = 169 ∨ k = 175))) ||
                  (bool_decide (n = 226 ∧ m = 129 ∧ k = 159)) ||
                  (bool_decide (n = 227 ∧ m = 128 ∧ k = 128)))%N then 3
              else 0
          end
      end
  end%nat.

(** [strings.Fields(s)].  [skip] counts the bytes still to be consumed of the
    white-space code point being read; [w] is the current field, if any. *)
Fixpoint fields_from (s : string) (skip : nat) (w : string) : list string :=
  match s with
  | "" => if decide (w = "") then [] else [w]
  | String c s' =>
      match skip with
      | S k => fields_from s' k ""
      | O =>
          match space_len s with
          | O => fields_from s' 0 (w +:+ String c "")
          | S k => if decide (w = "") then fields_from s' k ""
                   else w :: fields_from s' k ""
          end
      end
  end.
Definition strings_Fields (s : string) : list string := fields_from s 0 "".

(** [strings.TrimSpace(s)]: strip leading white space, then trailing. *)
Fixpoint trim_left (s : string) (skip : nat) : string :=
  match s with
  | "" => ""
  | String _ s' =>
      match skip with
      | S k => trim_left s' k
      | O => match space_len s with
             | O => s
             | S k => trim_left s' k
             end
      end
  end.
(** Only white space remains. *)
Definition all_space (s : string) : bool := bool_decide (trim_left s 0 = "").
Fixpoint trim_right (s : string) : string :=
  match s with
  | "" => ""
  | String c s' => if all_space s then "" else String c (trim_right s')
  end.
Definition strings_TrimSpace (s : string) : string := trim_right (trim_left s 0).

(** [strings.ToLower] on the ASCII letters.  Of the code points outside ASCII
    only U+0130 and U+212A lower to ASCII (to [i] and [k]); every other one, and
    every invalid byte, lowers to bytes outside ASCII. *)
Definition lower (c : ascii) : ascii :=
  let n := N_of_ascii c in
  if decide (65 ≤ n ≤ 90)%N then ascii_of_N (n + 32) else c.
Fixpoint strings_ToLower (s : string) : string :=
  match s with
  | "" => ""
  | String c s' => String (lower c) (strings_ToLower s')
  end.

Lemma sapp_nil s : "" +:+ s = s.
Proof. done. Qed.
Lemma sapp_cons c s t : String c s +:+ t = String c (s +:+ t).
Proof. done. Qed.
Lemma sapp_nil_r s : s +:+ "" = s.
Proof. induction s as [|c s IH]; [done|]. by rewrite sapp_cons, IH. Qed.
Lemma sapp_assoc s t u : (s +:+ t) +:+ u = s +:+ t +:+ u.
Proof. induction s as [|c s IH]; [done|]. by rewrite !sapp_cons, IH. Qed.
Lemma sapp_length s t : String.length (s +:+ t) = (String.length s + String.length t)%nat.
Proof. induction s as [|c s IH]; [done|]. rewrite sapp_cons. cbn [String.length]. lia. Qed.
#[export] Hint Rewrite sapp_nil sapp_cons sapp_nil_r sapp_assoc : peel.

(** Byte-wise [s < t], the order of Go's [<] on strings. *)
Fixpoint string_ltb (s t : string) : bool :=
  match s, t with
  | _, "" => false
  | "", String _ _ => true
  | String c s', String d t' =>
      if decide (c = d) then string_ltb s' t'
      else (N_of_ascii c <? N_of_ascii d)%N
  end.

(** [s <= t], which sorts strings. *)
Definition string_le (s t : string) : Prop := string_ltb t s = false.
#[export] Instance string_le_dec : RelDecision string_le.
Proof. unfold RelDecision, string_le. intros; apply _. Defined.

Lemma string_ltb_irrefl s : string_ltb s s = false.
Proof. induction s as [|c s IH]; [done|]. simpl. by rewrite decide_True. Qed.

Lemma ascii_N_inj c d : N_of_ascii c = N_of_ascii d → c = d.
Proof. intros E. by rewrite <-(ascii_N_embedding c), E, ascii_N_embedding. Qed.

Lemma string_ltb_trans s t u : string_ltb s t = true → string_ltb t u = true → string_ltb s u = true.
Proof.
  revert t u. induction s as [|c s IH]; intros [|d t] [|e u]; simpl; try done.
  destruct (decide (c = d)) as [->|H1].
  - case_decide; [apply IH|done].
  - destruct (decide (d = e)) as [->|H2]; [by rewrite decide_False|].
    rewrite !N.ltb_lt. intros. case_decide as Hce; [subst; lia|]. apply N.ltb_lt. lia.
Qed.

Lemma string_ltb_total s t : string_ltb s t = true ∨ s = t ∨ string_ltb t s = true.
Proof.
  revert t. induction s as [|c s IH]; intros [|d t]; simpl; auto.
  destruct (decide (c = d)) as [->|Hne].
  - rewrite !decide_True by done. destruct (IH t) as [?|[->|?]]; auto.
  - rewrite (decide_False (P := d = c)) by congruence. rewrite !N.ltb_lt.
    assert (N_of_ascii c ≠ N_of_ascii d) by (intros E; by apply Hne, ascii_N_inj). lia.
Qed.

Lemma string_le_or s t : string_le s t ↔ string_ltb s t = true ∨ s = t.
Proof.
  unfold string_le. split.
  - intros H. destruct (string_ltb_total s t) as [?|[?|?]]; auto. congruence.
  - intros [H| ->]; [|apply string_ltb_irrefl]. destruct (string_ltb t s) eqn:E; [|done].
    pose proof (string_ltb_trans _ _ _ H E) as H'. by rewrite string_ltb_irrefl in H'.
Qed.

#[export] Instance string_le_total : Total string_le.
Proof. intros s t. rewrite !string_le_or. destruct (string_ltb_total s t) as [?|[?|?]]; auto. Qed.
#[export] Instance string_le_trans : Transitive string_le.
Proof.
  intros s t u. rewrite !string_le_or. intros [H1| ->] [H2| ->]; auto. left. by eapply string_ltb_trans.
Qed.
#[export] Instance string_le_antisymm : AntiSymm (=) string_le.
Proof.
  intros s t. rewrite !string_le_or. intros [H1| ->] [H2|H2]; auto.
  pose proof (string_ltb_trans _ _ _ H1 H2) as H. by rewrite string_ltb_irrefl in H.
Qed.

(** ** [strconv] *)

Inductive num_error := ErrSyntax | ErrRange.
#[export] Instance num_error_eq_dec : EqDecision num_error.
Proof. solve_decision. Defined.

Definition max_uint64 : Z := 2 ^ 64 - 1.

(** The value of a digit of [strconv.ParseUint]: [0-9], then letters from 10 on,
    in either case. *)
Definition digit_val (c : ascii) : option Z :=
  let n := Z.of_N (N_of_ascii c) in
  if (48 <=? n) && (n <=? 57) then Some (n - 48)
  else let m := Z.lor n 32 in
       if (97 <=? m) && (m <=? 122) then Some (m - 97 + 10) else None.

(** The loop of [strconv.ParseUint], on [uint64] arithmetic. *)
Fixpoint ParseUint_loop (s : string) (base maxVal n : Z) : res num_error Z :=
  match s with
  | "" => Ok n
  | String c s' =>
      match digit_val c with
      | None => Err ErrSyntax
      | Some d =>
          if base <=? d then Err ErrSyntax
          else if max_uint64 `div` base + 1 <=? n then Err ErrRange
          else let n := n * base in
               let n1 := (n + d) `mod` 2 ^ 64 in
               if (n1 <? n) || (maxVal <? n1) then Err ErrRange
               else ParseUint_loop s' base maxVal n1
      end
  end.

(** [strconv.ParseUint(s, base, bitSize)] for an explicit base, 2 to 36. *)
Definition strconv_ParseUint (s : string) (base bitSize : Z) : res num_error Z :=
  match s with
  | "" => Err ErrSyntax
  | _ => ParseUint_loop s base (2 ^ bitSize - 1) 0
  end.

(** What the digits of [s] denote in [base], without any width. *)
Fixpoint digits_from (s : string) (base n : Z) : option Z :=
  match s with
  | "" => Some n
  | String c s' =>
      match digit_val c with
      | None => None
      | Some d => if base <=? d then None else digits_from s' base (n * base + d)
      end
  end.

(** The character of the digit [d < 16], in lower case. *)
Definition digit_char (d : Z) : ascii :=
  ascii_of_N (Z.to_N (if d <? 10 then 48 + d else 87 + d)).

(** [strconv.Itoa(n)] ([fmt]'s [%d]) for [0 <= n < 10^20]: twenty digits hold
    every 64-bit integer. *)
Fixpoint itoa_from (fuel : nat) (n : Z) (acc : string) : string :=
  match fuel with
  | O => acc
  | S fuel =>
      let acc := String (digit_char (n `mod` 10)) acc in
      if n <? 10 then acc else itoa_from fuel (n `div` 10) acc
  end.
Definition strconv_Itoa (n : Z) : string := itoa_from 20 n "".

Lemma digit_val_range c d : digit_val c = Some d → 0 ≤ d < 36.
Proof.
  unfold digit_val. repeat case_match; intros; simplify_eq; bool_to_prop; lia.
Qed.

Lemma digit_val_char d : 0 ≤ d < 16 → digit_val (digit_char d) = Some d.
Proof.
  intros. assert (d ∈ seqZ 0 16) as Hd by (apply elem_of_seqZ; lia). clear H.
  revert d Hd. apply Forall_forall. repeat constructor.
Qed.

Lemma digits_from_ge s base n v :
  digits_from s base n = Some v → 0 ≤ n → 1 ≤ base → n ≤ v.
Proof.
  revert n. induction s as [|c s IH]; simpl; intros n Hv Hn Hb; [naive_solver lia|].
  destruct (digit_val c) as [d|] eqn:E; [|done].
  apply digit_val_range in E. case_match; [done|].
  pose proof (IH _ Hv). nia.
Qed.

(** The loop succeeds exactly when the digits are valid and the value fits. *)
Lemma ParseUint_loop_spec s base bits n v :
  2 ≤ base → 0 ≤ bits ≤ 64 → 0 ≤ n ≤ 2 ^ bits - 1 →
  ParseUint_loop s base (2 ^ bits - 1) n = Ok v ↔
  digits_from s base n = Some v ∧ v ≤ 2 ^ bits - 1.
Proof.
  intros Hb Hbits. revert n.
  assert (2 ^ bits ≤ 2 ^ 64) by (apply Z.pow_le_mono_r; lia).
  induction s as [|c s IH]; simpl; intros n Hn.
  { split; [intros [= ->]; split; [done|lia]|by intros [[= ->] ?]]. }
  destruct (digit_val c) as [d|] eqn:E; [|by split; [|intros []]].
  apply digit_val_range in E. destruct (Z.leb_spec base d); [by split; [|intros []]|].
  destruct (Z.leb_spec (max_uint64 `div` base + 1) n) as [Hc|Hc].
  - split; [done|]. intros [Hv ?]. pose proof (digits_from_ge _ _ _ _ Hv).
    pose proof (Z.mul_succ_div_gt max_uint64 base ltac:(lia)).
    unfold max_uint64 in *. nia.
  - pose proof (Z.mul_div_le max_uint64 base ltac:(lia)).
    assert (n * base ≤ max_uint64) by nia. unfold max_uint64 in *.
    destruct (decide (n * base + d < 2 ^ 64)).
    + rewrite (Z.mod_small (n * base + d)) by nia.
      destruct (Z.ltb_spec (n * base + d) (n * base)); [lia|].
      destruct (Z.ltb_spec (2 ^ bits - 1) (n * base + d)); simpl.
      * split; [done|]. intros [Hv ?]. pose proof (digits_from_ge _ _ _ _ Hv). nia.
      * apply IH. nia.
    + replace ((n * base + d) `mod` 2 ^ 64) with (n * base + d - 2 ^ 64)
        by (apply (Z.mod_unique _ _ 1); lia).
      destruct (Z.ltb_spec (n * base + d - 2 ^ 64) (n * base)); [|lia].
      split; [done|]. intros [Hv ?]. pose proof (digits_from_ge _ _ _ _ Hv). nia.
Qed.

(** [ParseUint] is exact: it returns the value of the digits when it fits. *)
Lemma ParseUint_spec s base bits v :
  2 ≤ base → 0 ≤ bits ≤ 64 →
  strconv_ParseUint s base bits = Ok v ↔
  s ≠ "" ∧ digits_from s base 0 = Some v ∧ v ≤ 2 ^ bits - 1.
Proof.
  intros. pose proof (Z.pow_pos_nonneg 2 bits).
  destruct s as [|c s]; [by split; [|intros []]|].
  unfold strconv_ParseUint. rewrite ParseUint_loop_spec by lia.
  split; [by intros []; split_and!|by intros (?&?&?)].
Qed.

Lemma ParseUint_range s base bits v :
  2 ≤ base → 0 ≤ bits ≤ 64 → strconv_ParseUint s base bits = Ok v → 0 ≤ v < 2 ^ bits.
Proof.
  intros ?? (?&Hd&?)%ParseUint_spec; [|done..]. pose proof (digits_from_ge _ _ _ _ Hd). lia.
Qed.

Lemma digits_from_app s t base n :
  digits_from (s +:+ t) base n = digits_from s base n ≫= digits_from t base.
Proof.
  revert n. induction s as [|c s IH]; intros n; simpl; [done|].
  repeat case_match; simpl; auto.
Qed.

Lemma itoa_from_digits fuel n acc m :
  0 ≤ n < 10 ^ Z.of_nat fuel →
  digits_from (itoa_from fuel n acc) 10 0 = Some m ↔
  digits_from acc 10 n = Some m.
Proof.
  revert n acc. induction fuel as [|fuel IH]; intros n acc Hn.
  { simpl in *. by replace n with 0 by lia. }
  rewrite Nat2Z.inj_succ, Z.pow_succ_r in Hn by lia.
  pose proof (Z.mod_pos_bound n 10 ltac:(lia)).
  pose proof (Z.div_mod n 10 ltac:(lia)).
  cbn [itoa_from]. destruct (Z.ltb_spec n 10).
  - cbn [digits_from]. rewrite digit_val_char by lia.
    rewrite (Z.mod_small n 10) by lia. destruct (Z.leb_spec 10 n); [lia|]. done.
  - rewrite IH by (split; [apply Z.div_pos|apply Z.div_lt_upper_bound]; lia).
    cbn [digits_from]. rewrite digit_val_char by lia.
    destruct (Z.leb_spec 10 (n `mod` 10)); [lia|].
    by replace (n `div` 10 * 10 + n `mod` 10) with n by lia.
Qed.

Lemma itoa_from_nonempty fuel n acc : fuel ≠ O ∨ acc ≠ "" → itoa_from fuel n acc ≠ "".
Proof.
  revert n acc. induction fuel as [|fuel IH]; intros n acc [?|?]; simpl; try done.
  all: case_match; [done|]; apply IH; by right.
Qed.

(** Printing then parsing a number that fits gives it back. *)
Lemma ParseUint_Itoa n bits :
  0 ≤ bits ≤ 64 → 0 ≤ n < 2 ^ bits → strconv_ParseUint (strconv_Itoa n) 10 bits = Ok n.
Proof.
  intros Hb Hn. assert (2 ^ bits ≤ 2 ^ 64) by (apply Z.pow_le_mono_r; lia).
  apply ParseUint_spec; [lia..|]. split_and!; [|apply itoa_from_digits|lia].
  - apply itoa_from_nonempty. by left.
  - change (10 ^ Z.of_nat 20) with 100000000000000000000. lia.
  - done.
Qed.

(** ** [encoding/hex] *)

Definition hex_digit (c : ascii) : option Z :=
  match digit_val c with
  | Some d => if d <? 16 then Some d else None
  | None => None
  end.

(** [hex.DecodeString]: [None] for a byte that is no digit or an odd length. *)
Fixpoint hex_DecodeString (s : string) : option (list byte) :=
  match s with
  | "" => Some []
  | String a (String b s') =>
      match hex_digit a, hex_digit b with
      | Some h, Some l => (λ r, Z_byte (h * 16 + l) :: r) <$> hex_DecodeString s'
      | _, _ => None
      end
  | String _ "" => None
  end.

(** ** [bufio.Scanner] with [ScanLines] *)

(** [bufio.MaxScanTokenSize]: a token, its newline included, must fit a buffer of
    this many bytes. *)
Definition MaxScanTokenSize : Z := 64 * 1024.

Definition CR : ascii := "013".
Definition LF : ascii := "010".

(** A line without one trailing carriage return. *)
Fixpoint dropCR (s : string) : string :=
  match s with
  | "" => ""
  | String c s' => if decide (c = CR ∧ s' = "") then "" else String c (dropCR s')
  end.

(** The lines of [s], and whether the scan stopped at one that does not fit.
    [cur] is the line read so far, of [n] bytes. *)
Fixpoint scan_from (s cur : string) (n : Z) : list string * bool :=
  match s with
  | "" => (if decide (cur = "") then [] else [dropCR cur], false)
  | String c s' =>
      if decide (c = LF) then
        let '(ls, e) := scan_from s' "" 0 in (dropCR cur :: ls, e)
      else if MaxScanTokenSize <=? n + 1 then ([], true)
      else scan_from s' (cur +:+ String c "") (n + 1)
  end.
Definition ScanLines (s : string) : list string * bool := scan_from s "" 0.

(** ** Files as a reader sees them *)

(** What opening and reading a file yields: it does not exist, opening it fails
    otherwise, or its contents, after which reading may fail. *)
Inductive file :=
  | FileNotExist
  | FileOpenErr
  | FileData (data : string) (read_err : bool).

(** ** Facts about [Cut] *)

(** No byte of [s] is [c]. *)
Definition lacks (c : ascii) (s : string) : Prop := strings_ContainsByte s c = false.

Lemma lacks_nil c : lacks c "".
Proof. done. Qed.
Lemma lacks_cons c d s : lacks c (String d s) ↔ d ≠ c ∧ lacks c s.
Proof.
  unfold lacks. simpl. rewrite orb_false_iff, bool_decide_eq_false. done.
Qed.
Lemma lacks_app c s t : lacks c (s +:+ t) ↔ lacks c s ∧ lacks c t.
Proof.
  induction s as [|d s IH]; [by rewrite sapp_nil; split; [split|intros []]|].
  rewrite sapp_cons, !lacks_cons, IH. tauto.
Qed.

Definition is_decimal (c : ascii) : bool := (48 <=? N_of_ascii c)%N && (N_of_ascii c <=? 57)%N.

(** Decimal numbers hold nothing but digits. *)
Lemma digit_char_lacks d c : 0 ≤ d < 10 → is_decimal c = false → digit_char d ≠ c.
Proof.
  intros Hd Hc. assert (d = 0 ∨ d = 1 ∨ d = 2 ∨ d = 3 ∨ d = 4 ∨ d = 5 ∨ d = 6 ∨ d = 7 ∨ d = 8 ∨ d = 9) by lia.
  intros <-. destruct_or!; subst; done.
Qed.

Lemma itoa_from_lacks fuel n acc c :
  is_decimal c = false → 0 ≤ n → lacks c acc → lacks c (itoa_from fuel n acc).
Proof.
  intros Hc. revert n acc. induction fuel as [|fuel IH]; intros n acc Hn Hacc; [done|]. cbn [itoa_from].
  assert (lacks c (String (digit_char (n `mod` 10)) acc)) as H.
  { apply lacks_cons. split; [|done]. apply digit_char_lacks; [|done]. apply Z.mod_pos_bound. lia. }
  case_match; [done|]. apply IH; [|done]. apply Z.div_pos; lia.
Qed.

Lemma Itoa_lacks n c : is_decimal c = false → 0 ≤ n → lacks c (strconv_Itoa n).
Proof. intros. by apply itoa_from_lacks. Qed.

Lemma Cut_app s sep t : lacks sep s → strings_Cut (s +:+ String sep t) sep = (s, t, true).
Proof.
  induction s as [|c s IH]; intros H.
  - rewrite sapp_nil. simpl. by rewrite decide_True.
  - apply lacks_cons in H as [? ?]. rewrite sapp_cons. cbn [strings_Cut].
    rewrite decide_False, IH by done. done.
Qed.

Lemma Cut_lacks s sep : lacks sep s → strings_Cut s sep = (s, "", false).
Proof.
  induction s as [|c s IH]; intros H; [done|].
  apply lacks_cons in H as [? ?]. cbn [strings_Cut]. by rewrite decide_False, IH by done.
Qed.

(** [Cut] splits at the first separator. *)
Lemma Cut_spec s sep b a ok :
  strings_Cut s sep = (b, a, ok) →
  lacks sep b ∧ (if ok then s = b +:+ String sep a else s = b ∧ a = "").
Proof.
  revert b a ok. induction s as [|c s IH]; intros b a ok; simpl.
  { intros [= <- <- <-]. done. }
  case_decide as Hc.
  - intros [= <- <- <-]. subst. done.
  - destruct (strings_Cut s sep) as [[b' a'] ok'] eqn:E. intros [= <- <- <-].
    specialize (IH _ _ _ eq_refl) as [? IH]. split; [by apply lacks_cons|].
    destruct ok'; [by rewrite sapp_cons, <-IH|]. by destruct IH as [-> ->].
Qed.

(** ** Facts about [Split] and [Join] *)

Lemma Split_lacks s c : Forall (lacks c) (strings_Split s c).
Proof.
  induction s as [|d s IH]; simpl; [by repeat constructor|].
  case_decide; [by constructor|].
  destruct (strings_Split s c) as [|w ws]; [by repeat constructor; apply lacks_cons|].
  inversion_clear IH. constructor; [by apply lacks_cons|done].
Qed.

Lemma Split_nonempty s c : strings_Split s c ≠ [].
Proof. destruct s; simpl; [done|]. case_decide; [done|]. by case_match. Qed.

Lemma Split_lacks_app s c t :
  lacks c s → strings_Split (s +:+ String c t) c = s :: strings_Split t c.
Proof.
  induction s as [|d s IH]; intros H.
  - rewrite sapp_nil. simpl. by rewrite decide_True.
  - apply lacks_cons in H as [Hd H]. rewrite sapp_cons. cbn [strings_Split].
    by rewrite decide_False, IH by done.
Qed.

Lemma Split_single s c : lacks c s → strings_Split s c = [s].
Proof.
  induction s as [|d s IH]; intros H; [done|].
  apply lacks_cons in H as [Hd H]. cbn [strings_Split]. by rewrite decide_False, IH by done.
Qed.

Lemma Join_cons w ws sep :
  ws ≠ [] → strings_Join (w :: ws) sep = w +:+ sep +:+ strings_Join ws sep.
Proof. by destruct ws. Qed.

(** Splitting undoes joining with a separator the parts lack. *)
Lemma Split_Join cs c : cs ≠ [] → Forall (lacks c) cs → strings_Split (strings_Join cs (String c "")) c = cs.
Proof.
  induction cs as [|w ws IH]; [done|]. intros _ H.
  inversion_clear H as [|? ? Hw Hws].
  destruct (decide (ws = [])) as [->|Hne]; [by apply Split_single|].
  rewrite Join_cons by done. change (String c "" +:+ ?s) with (String c s).
  rewrite Split_lacks_app by done. by rewrite IH.
Qed.

Lemma Join_Split s c : strings_Join (strings_Split s c) (String c "") = s.
Proof.
  induction s as [|d s IH]; [done|]. simpl. pose proof (Split_nonempty s c) as Hne. case_decide as Hd.
  - subst d. rewrite Join_cons by done. rewrite IH. done.
  - destruct (strings_Split s c) as [|w ws]; [done|].
    destruct (decide (ws = [])) as [->|]; [by rewrite <-IH|].
    rewrite Join_cons in * by done. rewrite <-IH. done.
Qed.

(** ** Facts about [ScanLines] *)

Definition file_of_lines (ls : list string) : string :=
  foldr (λ l acc, l +:+ String LF acc) "" ls.

(** A line [bufio.Scanner] returns as it is. *)
Definition plain_line (l : string) : Prop :=
  lacks LF l ∧ dropCR l = l ∧ Z.of_nat (String.length l) < MaxScanTokenSize.

Lemma scan_from_line l cur n t :
  lacks LF l → n + Z.of_nat (String.length l) < MaxScanTokenSize →
  scan_from (l +:+ String LF t) cur n =
    (let '(ls, e) := scan_from t "" 0 in (dropCR (cur +:+ l) :: ls, e)).
Proof.
  revert cur n. induction l as [|c l IH]; intros cur n Hl Hn.
  - rewrite sapp_nil, sapp_nil_r. cbn [scan_from]. by rewrite decide_True.
  - apply lacks_cons in Hl as [Hc Hl]. rewrite sapp_cons. cbn [scan_from String.length] in *.
    rewrite decide_False by done. destruct (Z.leb_spec MaxScanTokenSize (n + 1)); [lia|].
    rewrite IH by (done || lia). by rewrite sapp_assoc.
Qed.

Lemma ScanLines_file ls : Forall plain_line ls → ScanLines (file_of_lines ls) = (ls, false).
Proof.
  induction 1 as [|l ls (Hl & Hcr & Hn) Hls IH]; [done|]. unfold ScanLines in *. cbn [file_of_lines foldr].
  rewrite scan_from_line by (done || lia). fold (file_of_lines ls). rewrite IH. by rewrite sapp_nil, Hcr.
Qed.
