(* ===== verification/GoNet.v ===== *)
(** * Go's [net.IP]

    [net.IP] is a byte slice: 4 bytes for IPv4, 16 for IPv6, other lengths being
    invalid.  This file models the functions of [net] and [net/netip] the source
    calls on addresses: [To4], [Equal], [IsLoopback], [IsUnspecified], [String]
    and [ParseIP]. *)

From S2P Require Import Prelude GoStrings.

Definition IP := list byte.

Definition v4InV6Prefix : list byte :=
  [x00;x00;x00;x00;x00;x00;x00;x00;x00;x00;xff;xff].

Definition IPv4zero : IP := v4InV6Prefix ++ [x00;x00;x00;x00].
Definition IPv6unspecified : IP := replicate 16 x00.
Definition IPv6loopback : IP := replicate 15 x00 ++ [x01].

Definition IP_To4 (ip : IP) : option IP :=
  if decide (length ip = 4%nat) then Some ip
  else if decide (length ip = 16%nat ∧ take 12 ip = v4InV6Prefix) then Some (drop 12 ip)
  else None.

Definition IP_Equal (ip x : IP) : bool :=
  if decide (length ip = length x) then bool_decide (ip = x)
  else if decide (length ip = 4%nat ∧ length x = 16%nat)
       then bool_decide (take 12 x = v4InV6Prefix ∧ ip = drop 12 x)
  else if decide (length ip = 16%nat ∧ length x = 4%nat)
       then bool_decide (take 12 ip = v4InV6Prefix ∧ drop 12 ip = x)
  else false.

Definition IP_IsUnspecified (ip : IP) : bool :=
  IP_Equal ip IPv4zero || IP_Equal ip IPv6unspecified.

Definition IP_IsLoopback (ip : IP) : bool :=
  match IP_To4 ip with
  | Some ip4 => bool_decide (head ip4 = Some x7f)
  | None => IP_Equal ip IPv6loopback
  end.

(** ** [IP.String] *)

Definition dotted (ip4 : IP) : string :=
  strings_Join (map (λ b, strconv_Itoa (byte_Z b)) ip4) ".".

(** The eight 16-bit fields of a 16-byte address. *)
Fixpoint fields16 (ip : list byte) : list Z :=
  match ip with
  | hi :: lo :: ip => (byte_Z hi * 256 + byte_Z lo) :: fields16 ip
  | _ => []
  end.

(** The length of the run of zero fields at the head. *)
Fixpoint zero_run (fs : list Z) : nat :=
  match fs with
  | f :: fs => if decide (f = 0) then S (zero_run fs) else O
  | [] => O
  end.

(** The first longest run of at least two zero fields: its start and end, as
    [appendTo6] looks for it; (255, 255) if there is none. *)
Fixpoint longest_zeros (fs : list Z) (i : nat) (best : nat * nat) : nat * nat :=
  match fs with
  | [] => best
  | _ :: fs' =>
      let l := zero_run fs in
      longest_zeros fs' (S i)
        (if decide (2 ≤ l ∧ best.2 - best.1 < l)%nat then (i, i + l)%nat else best)
  end.

(** Lower-case hexadecimal without leading zeros of a 16-bit field. *)
Definition appendHex (x : Z) : string :=
  let d k := digit_char (Z.land (Z.shiftr x k) 15) in
  if 4096 <=? x then String (d 12) (String (d 8) (String (d 4) (String (d 0) "")))
  else if 256 <=? x then String (d 8) (String (d 4) (String (d 0) ""))
  else if 16 <=? x then String (d 4) (String (d 0) "")
  else String (d 0) "".

(** The second loop of [appendTo6].  [skip] counts the fields of the compressed
    run still to pass over. *)
Fixpoint append6 (fs : list Z) (i skip : nat) (zs ze : nat) : string :=
  match fs with
  | [] => ""
  | f :: fs' =>
      match skip with
      | S k => match k with
               | O => (* the field at [zeroEnd]'s predecessor: the run ends here *)
                   match fs' with
                   | [] => ""
                   | g :: fs'' => appendHex g +:+ append6 fs'' (i + 2) 0 zs ze
                   end
               | S _ => append6 fs' (S i) k zs ze
               end
      | O => if decide (i = zs) then
               "::" +:+ (match (ze - zs)%nat with
                         | S (S k) => append6 fs' (S i) (S k) zs ze
                         | _ => "" (* a run has at least two fields *)
                         end)
             else (if decide (0 < i)%nat then ":" else "") +:+ appendHex f +:+
                  append6 fs' (S i) 0 zs ze
      end
  end.

Definition string6 (ip : IP) : string :=
  let fs := fields16 ip in
  let '(zs, ze) := longest_zeros fs 0 (255, 255)%nat in
  append6 fs 0 0 zs ze.

Definition hexString (ip : IP) : string :=
  String.concat "" (map (λ b, String (digit_char (byte_Z b `div` 16))
                      (String (digit_char (byte_Z b `mod` 16)) "")) ip).

Definition IP_String (ip : IP) : string :=
  if decide (ip = []) then "<nil>"
  else if decide (length ip ≠ 4%nat ∧ length ip ≠ 16%nat) then "?" +:+ hexString ip
  else match IP_To4 ip with
       | Some ip4 => dotted ip4
       | None => string6 ip
       end.

(** ** [net.ParseIP], by [netip.ParseAddr] *)

(** [parseIPv4Fields]: [prev] is [s[i-1]] ([None] at the start). *)
Fixpoint parseIPv4Fields (s : string) (prev : option ascii) (val digLen : Z)
    (fields : list byte) : option (list byte) :=
  match s with
  | "" => if decide (length fields < 3)%nat then None else Some (fields ++ [Z_byte val])
  | String c s' =>
      let n := Z.of_N (N_of_ascii c) in
      if (48 <=? n) && (n <=? 57) then
        if (digLen =? 1) && (val =? 0) then None
        else let val := val * 10 + n - 48 in
             if 255 <? val then None
             else parseIPv4Fields s' (Some c) val (digLen + 1) fields
      else if decide (c = "."%char) then
        if decide (prev = None ∨ s' = "" ∨ prev = Some "."%char) then None
        else if decide (length fields = 3%nat) then None
        else parseIPv4Fields s' (Some c) 0 0 (fields ++ [Z_byte val])
      else None
  end.

(** The hexadecimal group at the head of [s]: its value, its number of digits and
    what follows. *)
Fixpoint hex_group (s : string) (off : nat) (acc : Z) : option (Z * nat * string) :=
  match s with
  | "" => Some (acc, off, "")
  | String c s' =>
      match hex_digit c with
      | None => Some (acc, off, s)
      | Some d =>
          let acc := acc * 16 + d in
          if decide (3 < off)%nat then None
          else if 65535 <? acc then None
          else hex_group s' (S off) acc
      end
  end.

(** The loop of [parseIPv6].  [n] is the number of groups there is still room
    for ([i = 16 - 2n]), [ip] the bytes written, [ell] the ellipsis position. *)
Fixpoint parseIPv6_loop (n : nat) (s : string) (ip : list byte) (ell : option nat)
    : option (string * list byte * option nat) :=
  match n with
  | O => Some (s, ip, ell)
  | S n' =>
      match hex_group s 0 0 with
      | None => None
      | Some (acc, off, rest) =>
          if decide (off = O) then None
          else match rest with
          | String "." _ =>
              if decide (ell = None ∧ length ip ≠ 12%nat) then None
              else if decide (16 < length ip + 4)%nat then None
              else match parseIPv4Fields s None 0 0 [] with
                   | None => None
                   | Some v4 => Some ("", ip ++ v4, ell)
                   end
          | _ =>
              let ip := ip ++ [Z_byte (Z.shiftr acc 8); Z_byte acc] in
              match rest with
              | "" => Some ("", ip, ell)
              | String ":" "" => None
              | String ":" (String ":" rest'') =>
                  match ell with
                  | Some _ => None
                  | None => if decide (rest'' = "") then Some ("", ip, Some (length ip))
                            else parseIPv6_loop n' rest'' ip (Some (length ip))
                  end
              | String ":" rest' => parseIPv6_loop n' rest' ip ell
              | _ => None
              end
          end
      end
  end.

(** [parseIPv6] of a string without a zone. *)
Definition parseIPv6 (s : string) : option IP :=
  let finish (r : option (string * list byte * option nat)) :=
    match r with
    | None => None
    | Some (s, ip, ell) =>
        if decide (s ≠ "") then None
        else if decide (length ip < 16)%nat then
          match ell with
          | None => None
          | Some e => Some (take e ip ++ replicate (16 - length ip) x00 ++ drop e ip)
          end
        else match ell with Some _ => None | None => Some ip end
    end in
  match s with
  | String ":" (String ":" "") => Some IPv6unspecified
  | String ":" (String ":" s') => finish (parseIPv6_loop 8 s' [] (Some O))
  | _ => finish (parseIPv6_loop 8 s [] None)
  end.

(** The first of ['.'], [':'] and ['%'] in [s] decides how it is parsed.  An
    address with a zone is not an IP. *)
Fixpoint parse_kind (s : string) : option ascii :=
  match s with
  | "" => None
  | String c s' => if decide (c = "." ∨ c = ":" ∨ c = "%")%char then Some c else parse_kind s'
  end.

Definition net_ParseIP (s : string) : option IP :=
  match parse_kind s with
  | Some "."%char => (λ v4, v4InV6Prefix ++ v4) <$> parseIPv4Fields s None 0 0 []
  | Some ":"%char => if strings_ContainsByte s "%" then None else parseIPv6 s
  | _ => None
  end.

(** ** Examples *)

Example string_v4 : IP_String [x7f;x00;x00;x02] = "127.0.0.2". Proof. reflexivity. Qed.
Example string_v6lo : IP_String IPv6loopback = "::1". Proof. reflexivity. Qed.
Example string_v6 : IP_String [x20;x01;x0d;xb8;x00;x00;x00;x00;x00;x00;x00;x01;x00;x00;x00;x00]
  = "2001:db8::1:0:0". Proof. reflexivity. Qed.
Example string_v6_mid : IP_String [x20;x01;x00;x00;x00;x00;x00;x00;x00;x00;x00;x01;x00;x00;x00;x05]
  = "2001::1:0:5". Proof. reflexivity. Qed.
Example string_unspec : IP_String IPv6unspecified = "::". Proof. reflexivity. Qed.
Example parse_v6 : net_ParseIP "2001:db8::1:0:0" =
  Some [x20;x01;x0d;xb8;x00;x00;x00;x00;x00;x00;x00;x01;x00;x00;x00;x00]. Proof. reflexivity. Qed.
Example parse_mapped : net_ParseIP "::ffff:127.0.0.1" =
  Some (v4InV6Prefix ++ [x7f;x00;x00;x01]). Proof. reflexivity. Qed.
Example parse_bad : map net_ParseIP ["1.2.3"; "1.2.3.256"; "01.2.3.4"; "1..2.3"; "::1%lo"; "1:2"; ""; "1::2::3"; ":1:2:3:4:5:6:7:8"]
  = replicate 9 None. Proof. reflexivity. Qed.

(** ** Printing and parsing IPv4 addresses *)

Lemma parse_digit d s prev val dl fs :
  0 ≤ d < 10 → dl ≠ 1 ∨ val ≠ 0 → val * 10 + d ≤ 255 →
  parseIPv4Fields (String (digit_char d) s) prev val dl fs =
  parseIPv4Fields s (Some (digit_char d)) (val * 10 + d) (dl + 1) fs.
Proof.
  intros Hd Hz Hv.
  assert (Z.of_N (N_of_ascii (digit_char d)) = 48 + d) as E.
  { assert (d ∈ seqZ 0 10) as Hs by (apply elem_of_seqZ; lia). clear -Hs.
    revert d Hs. apply Forall_forall. repeat constructor. }
  assert ((dl =? 1) && (val =? 0) = false) as Hb.
  { apply andb_false_iff. rewrite !Z.eqb_neq. done. }
  cbn [parseIPv4Fields]. rewrite E, Hb.
  rewrite !(proj2 (Z.leb_le _ _)) by lia. cbn [andb].
  rewrite (proj2 (Z.ltb_ge _ _)) by lia. f_equal. lia.
Qed.

Lemma digit_char_dot d : 0 ≤ d < 10 → digit_char d ≠ "."%char.
Proof.
  intros. assert (d ∈ seqZ 0 10) as Hd by (apply elem_of_seqZ; lia). clear H.
  revert d Hd. apply Forall_forall. repeat constructor; vm_compute; discriminate.
Qed.

Lemma Itoa_3 n : 0 ≤ n < 1000 → strconv_Itoa n =
  if n <? 10 then String (digit_char n) ""
  else if n <? 100 then String (digit_char (n `div` 10)) (String (digit_char (n `mod` 10)) "")
  else String (digit_char (n `div` 100)) (String (digit_char (n `div` 10 `mod` 10))
         (String (digit_char (n `mod` 10)) "")).
Proof.
  intros Hn. unfold strconv_Itoa. do 3 (cbn [itoa_from]).
  pose proof (Z.div_div n 10 10 ltac:(lia) ltac:(lia)) as Hd. change (10 * 10) with 100 in Hd.
  destruct (Z.ltb_spec n 10); [by rewrite Z.mod_small by lia|].
  destruct (Z.ltb_spec n 100); destruct (Z.ltb_spec (n `div` 10) 10).
  all: try (exfalso; Z.to_euclidean_division_equations; lia).
  - by rewrite (Z.mod_small (n `div` 10)) by (Z.to_euclidean_division_equations; lia).
  - rewrite (proj2 (Z.ltb_lt _ _)) by (Z.to_euclidean_division_equations; lia).
    by rewrite Hd, (Z.mod_small (n `div` 100)) by (Z.to_euclidean_division_equations; lia).
Qed.

(** An octet is read whole, and its last byte is no dot. *)
Lemma parse_octet b s prev fs :
  ∃ c dl, c ≠ "."%char ∧
  parseIPv4Fields (strconv_Itoa (byte_Z b) +:+ s) prev 0 0 fs =
  parseIPv4Fields s (Some c) (byte_Z b) dl fs.
Proof.
  pose proof (byte_Z_range b). set (n := byte_Z b) in *. clearbody n.
  rewrite Itoa_3 by lia.
  destruct (Z.ltb_spec n 10); [|destruct (Z.ltb_spec n 100)]; rewrite !sapp_cons, sapp_nil.
  - rewrite parse_digit by lia. eexists (digit_char n), _; split; [apply digit_char_dot; lia|done].
  - pose proof (Z.div_mod n 10 ltac:(lia)). pose proof (Z.mod_pos_bound n 10 ltac:(lia)).
    rewrite !parse_digit by lia. eexists (digit_char (n `mod` 10)), _.
    split; [apply digit_char_dot; lia|]. f_equal. lia.
  - pose proof (Z.div_mod n 10 ltac:(lia)). pose proof (Z.mod_pos_bound n 10 ltac:(lia)).
    pose proof (Z.div_mod (n `div` 10) 10 ltac:(lia)) as Hq.
    pose proof (Z.mod_pos_bound (n `div` 10) 10 ltac:(lia)).
    rewrite (Z.div_div n 10 10) in Hq by lia. change (10 * 10) with 100 in Hq.
    rewrite !parse_digit by lia. eexists (digit_char (n `mod` 10)), _.
    split; [apply digit_char_dot; lia|]. f_equal. lia.
Qed.

Lemma parse_octet_dot b s prev fs :
  s ≠ "" → (length fs < 3)%nat →
  parseIPv4Fields (strconv_Itoa (byte_Z b) +:+ String "." s) prev 0 0 fs =
  parseIPv4Fields s (Some "."%char) 0 0 (fs ++ [b]).
Proof.
  intros Hs Hfs. destruct (parse_octet b (String "." s) prev fs) as (c&dl&Hc&->).
  cbn [parseIPv4Fields]. rewrite (decide_True (P := "."%char = "."%char)) by done.
  rewrite (decide_False (P := _ ∨ _)) by (intros [|[|]]; simplify_eq; done).
  rewrite decide_False by lia. by rewrite byte_Z_byte.
Qed.

Lemma parse_octet_end b prev fs :
  (3 ≤ length fs)%nat →
  parseIPv4Fields (strconv_Itoa (byte_Z b)) prev 0 0 fs = Some (fs ++ [b]).
Proof.
  intros Hfs. destruct (parse_octet b "" prev fs) as (c&dl&_&H). rewrite sapp_nil_r in H.
  rewrite H. cbn [parseIPv4Fields]. rewrite decide_False by lia. by rewrite byte_Z_byte.
Qed.

Lemma Itoa_app_nonempty n s : strconv_Itoa n +:+ s ≠ "".
Proof.
  unfold strconv_Itoa. pose proof (itoa_from_nonempty 20 n "" ltac:(by left)).
  by destruct (itoa_from 20 n "").
Qed.

Lemma parseIPv4_dotted a b c d : parseIPv4Fields (dotted [a;b;c;d]) None 0 0 [] = Some [a;b;c;d].
Proof.
  unfold dotted. cbn [map strings_Join].
  rewrite !sapp_cons, !sapp_nil, !parse_octet_dot by (simpl; first [apply Itoa_app_nonempty | lia |
    apply (itoa_from_nonempty 20); by left]).
  by apply parse_octet_end.
Qed.

Lemma parse_kind_octet b s : parse_kind (strconv_Itoa (byte_Z b) +:+ String "." s) = Some "."%char.
Proof. by destruct b. Qed.

(** An IPv4 address printed by [IP.String] is parsed back, to its 16-byte form. *)
Lemma ParseIP_dotted ip4 :
  length ip4 = 4%nat → net_ParseIP (dotted ip4) = Some (v4InV6Prefix ++ ip4).
Proof.
  intros. destruct ip4 as [|a [|b [|c [|d [|]]]]]; try done.
  unfold net_ParseIP. unfold dotted at 1. cbn [map strings_Join].
  rewrite sapp_cons, parse_kind_octet. by rewrite parseIPv4_dotted.
Qed.

Lemma IP_To4_length ip ip4 : IP_To4 ip = Some ip4 → length ip4 = 4%nat.
Proof.
  unfold IP_To4. repeat case_decide; intros; simplify_eq; [done|].
  rewrite length_drop. lia.
Qed.

Lemma IP_To4_mapped ip4 : length ip4 = 4%nat → IP_To4 (v4InV6Prefix ++ ip4) = Some ip4.
Proof.
  intros H. unfold IP_To4. rewrite decide_False by (rewrite length_app; simpl; lia).
  rewrite decide_True; [done|]. by rewrite length_app, H.
Qed.

Lemma IP_String_To4 ip ip4 : IP_To4 ip = Some ip4 → IP_String ip = dotted ip4.
Proof.
  intros H. unfold IP_String. rewrite H.
  rewrite decide_False; [|by intros ->].
  rewrite decide_False; [done|].
  revert H. unfold IP_To4. repeat case_decide; intros; simplify_eq; lia.
Qed.

(** The two kinds of address loopback sharing deals in. *)
Definition lo_or_unspec (ip : IP) : bool := IP_IsLoopback ip || IP_IsUnspecified ip.

Lemma IP_Equal_16 ip x : length ip = 16%nat → length x = 16%nat → IP_Equal ip x = bool_decide (ip = x).
Proof. intros. unfold IP_Equal. by rewrite decide_True by congruence. Qed.

Lemma IP_Equal_4 ip x :
  length ip = 4%nat → length x = 16%nat →
  IP_Equal ip x = bool_decide (take 12 x = v4InV6Prefix ∧ ip = drop 12 x).
Proof. intros. unfold IP_Equal. by rewrite decide_False, decide_True by lia. Qed.

Lemma IP_Equal_odd ip x :
  length ip ≠ 4%nat → length ip ≠ 16%nat → length x = 16%nat → IP_Equal ip x = false.
Proof. intros. unfold IP_Equal. by rewrite !decide_False by lia. Qed.

(** An address that is loopback or unspecified is an IPv4 address, possibly mapped
    into IPv6, in [127.0.0.0/8] or equal to [0.0.0.0]; or [::1]; or [::]. *)
Lemma lo_or_unspec_inv ip :
  lo_or_unspec ip = true ↔
  (∃ ip4, IP_To4 ip = Some ip4 ∧ (head ip4 = Some x7f ∨ ip4 = replicate 4 x00)) ∨
  ip = IPv6loopback ∨ ip = IPv6unspecified.
Proof.
  unfold lo_or_unspec, IP_IsLoopback, IP_IsUnspecified.
  destruct (decide (length ip = 4%nat)) as [H4|H4].
  { rewrite !IP_Equal_4 by done. unfold IP_To4. rewrite decide_True by done.
    rewrite !orb_true_iff, !bool_decide_eq_true. split.
    - intros [H|[[_ ->]|[H _]]]; [by eauto|left; eexists; split; [done|by right]|done].
    - intros [(?&[= <-]&[?| ->])|[->| ->]]; [by eauto|by eauto|done..]. }
  destruct (decide (length ip = 16%nat)) as [H16|H16].
  - rewrite !IP_Equal_16 by done. destruct (IP_To4 ip) as [ip4|] eqn:E.
    + rewrite !orb_true_iff, !bool_decide_eq_true.
      split; [intros [H|[->| ->]]; [by eauto|left|by eauto]|].
      { vm_compute in E. simplify_eq. eauto. }
      intros [(?&[= <-]&[?| ->])|[->| ->]]; [by eauto| |done|by eauto].
      right; left. unfold IP_To4 in E. rewrite decide_False in E by done.
      case_decide as Ht; simplify_eq. by rewrite <-(take_drop 12 ip), E, (proj2 Ht).
    + rewrite !orb_true_iff, !bool_decide_eq_true.
      split; [intros [H|[->| ->]]; [by eauto|done|by eauto]|].
      intros [(?&?&?)|[->| ->]]; [done|by eauto|by eauto].
  - rewrite !IP_Equal_odd by done.
    assert (IP_To4 ip = None) as -> by (unfold IP_To4; rewrite !decide_False by tauto; done).
    split; [done|]. intros [(?&?&?)|[->| ->]]; done.
Qed.
