(* ===== verification/GoUrl.v ===== *)
(** * Go's [net/url]: query strings

    [url.Values] with [Set], [Get] and [Encode], and [ParseQuery] as
    [URL.Query] uses it (pairs that do not parse are dropped).  [/connect]
    passes its parameters through these. *)

From stdpp Require Import sorting.
From S2P Require Import Prelude GoStrings.

(** ** Escaping *)

(** [shouldEscape(c, encodeQueryComponent)] is the negation of this. *)
Definition unreserved (c : ascii) : bool :=
  let n := N_of_ascii c in
  (bool_decide (97 ≤ n ≤ 122) || bool_decide (65 ≤ n ≤ 90) || bool_decide (48 ≤ n ≤ 57))%N
  || bool_decide (c ∈ ["-"; "_"; "."; "~"]%char).

(** ["0123456789ABCDEF"[d]]. *)
Definition upper_hex (d : N) : ascii :=
  ascii_of_N (if decide (d < 10)%N then 48 + d else 55 + d).

Fixpoint url_QueryEscape (s : string) : string :=
  match s with
  | "" => ""
  | String c s' =>
      let rest := url_QueryEscape s' in
      if decide (c = " "%char) then String "+" rest
      else if unreserved c then String c rest
      else String "%" (String (upper_hex (N_of_ascii c / 16)) (String (upper_hex (N_of_ascii c mod 16)) rest))
  end.

(** [unescape(s, encodeQueryComponent)]: [None] for an [EscapeError]. *)
Fixpoint url_QueryUnescape (s : string) : option string :=
  match s with
  | "" => Some ""
  | String c s' =>
      if decide (c = "%"%char) then
        match s' with
        | String x (String y s'') =>
            a ← hex_digit x; b ← hex_digit y;
            String (ascii_of_N (Z.to_N (16 * a + b))) <$> url_QueryUnescape s''
        | _ => None
        end
      else if decide (c = "+"%char) then String " " <$> url_QueryUnescape s'
      else String c <$> url_QueryUnescape s'
  end.

(** ** Values *)

Notation Values := (gmap string (list string)).

Definition Values_Set (k v : string) (q : Values) : Values := <[k := [v]]> q.

(** [Get]: the first value, or the empty string. *)
Definition Values_Get (q : Values) (k : string) : string :=
  match q !! k with
  | Some (v :: _) => v
  | _ => ""
  end.

(** [Encode]: the pairs in the order of their keys. *)
Definition Values_Encode (q : Values) : string :=
  strings_Join
    (k ← merge_sort string_le (elements (dom q));
     v ← default [] (q !! k);
     [url_QueryEscape k +:+ "=" +:+ url_QueryEscape v]) "&".

(** One turn of the loop of [parseQuery], on the text up to the next [&]. *)
Definition query_pair (q : Values) (pair : string) : Values :=
  if strings_ContainsByte pair ";" then q
  else if decide (pair = "") then q
  else
    let '(k, v, _) := strings_Cut pair "=" in
    match url_QueryUnescape k, url_QueryUnescape v with
    | Some k', Some v' => <[k' := default [] (q !! k') ++ [v']]> q
    | _, _ => q
    end.

(** [URL.Query]. *)
Definition url_Query (rawQuery : string) : Values :=
  foldl query_pair ∅ (strings_Split rawQuery "&").

(** ** Facts *)

Lemma hex_digit_upper d : (d < 16)%N → hex_digit (upper_hex d) = Some (Z.of_N d).
Proof.
  intros H. assert (d ∈ (N.of_nat <$> seq 0 16)) as Hin.
  { apply list_elem_of_fmap. exists (N.to_nat d). split; [lia|]. apply elem_of_seq. lia. }
  revert d H Hin. assert (Forall (λ d, hex_digit (upper_hex d) = Some (Z.of_N d)) (N.of_nat <$> seq 0 16)) as F
    by (repeat constructor).
  intros d _ Hin. rewrite Forall_forall in F. by apply F.
Qed.

Lemma unreserved_plain c : unreserved c = true → c ∉ [" "; "%"; "+"; "&"; ";"; "="]%char.
Proof.
  intros H Hin. assert (Forall (λ c, unreserved c = false) [" "; "%"; "+"; "&"; ";"; "="]%char) as F by (repeat constructor).
  rewrite Forall_forall in F. by rewrite F in H.
Qed.

(** Unescaping undoes escaping, whatever the bytes. *)
Lemma QueryUnescape_Escape s : url_QueryUnescape (url_QueryEscape s) = Some s.
Proof.
  induction s as [|c s IH]; [done|]. cbn [url_QueryEscape].
  destruct (decide (c = " "%char)) as [->|Hs]; [|destruct (unreserved c) eqn:Hu].
  - cbn. by rewrite IH.
  - pose proof (unreserved_plain c Hu) as Hp. cbn [url_QueryUnescape].
    rewrite !decide_False by (intros ->; apply Hp; set_solver). by rewrite IH.
  - cbn [url_QueryUnescape]. rewrite decide_True by done.
    pose proof (N_ascii_bounded c).
    rewrite !hex_digit_upper by (apply N.Div0.div_lt_upper_bound || apply N.mod_lt; lia).
    cbn [mbind option_bind]. rewrite IH. cbn [fmap option_fmap option_map]. do 2 f_equal.
    rewrite <-(ascii_N_embedding c) at 3. f_equal.
    rewrite N2Z.inj_div, N2Z.inj_mod. rewrite <-Z.div_mod by lia. apply N2Z.id.
Qed.

(** What an escaped string is made of. *)
Definition query_char (c : ascii) : bool := unreserved c || bool_decide (c = "+"%char ∨ c = "%"%char).

Lemma upper_hex_unreserved d : (d < 16)%N → unreserved (upper_hex d) = true.
Proof.
  intros H. assert (d ∈ (N.of_nat <$> seq 0 16)) as Hin.
  { apply list_elem_of_fmap. exists (N.to_nat d). split; [lia|]. apply elem_of_seq. lia. }
  clear H. assert (Forall (λ d, unreserved (upper_hex d) = true) (N.of_nat <$> seq 0 16)) as F
    by (repeat constructor).
  rewrite Forall_forall in F. by apply F.
Qed.

Lemma QueryEscape_lacks s c : query_char c = false → lacks c (url_QueryEscape s).
Proof.
  intros Hc. unfold query_char in Hc. apply orb_false_iff in Hc as [Hu Hp%bool_decide_eq_false].
  induction s as [|d s IH]; [apply lacks_nil|]. cbn [url_QueryEscape].
  pose proof (N_ascii_bounded d).
  destruct (decide (d = " "%char)) as [->|Hs]; [|destruct (unreserved d) eqn:Hd].
  - apply lacks_cons. split; [naive_solver|done].
  - apply lacks_cons. split; [congruence|done].
  - rewrite !lacks_cons. split_and!; [naive_solver|..|done]; intros <-;
      rewrite upper_hex_unreserved in Hu by (apply N.Div0.div_lt_upper_bound || apply N.mod_lt; lia); done.
Qed.

(** A pair as [Encode] writes it is read back. *)
Lemma query_pair_escaped q k v :
  query_pair q (url_QueryEscape k +:+ "=" +:+ url_QueryEscape v) = <[k := default [] (q !! k) ++ [v]]> q.
Proof.
  unfold query_pair.
  assert (lacks ";" (url_QueryEscape k +:+ "=" +:+ url_QueryEscape v)) as Hs.
  { rewrite !lacks_app. split_and!; [by apply QueryEscape_lacks|done|by apply QueryEscape_lacks]. }
  unfold lacks in Hs. rewrite Hs, decide_False by (by destruct (url_QueryEscape k)).
  change ("=" +:+ ?t) with (String "=" t). rewrite Cut_app by by apply QueryEscape_lacks.
  by rewrite !QueryUnescape_Escape.
Qed.

Lemma escaped_pair_lacks k v c :
  query_char c = false → c ≠ "="%char → lacks c (url_QueryEscape k +:+ "=" +:+ url_QueryEscape v).
Proof.
  intros Hc Hne. rewrite !lacks_app. split_and!; [by apply QueryEscape_lacks| |by apply QueryEscape_lacks].
  apply lacks_cons. split; [done|apply lacks_nil].
Qed.

(** The pairs an encoded query is made of, read back one after the other. *)
Lemma Query_pairs kvs :
  url_Query (strings_Join ((λ kv, url_QueryEscape kv.1 +:+ "=" +:+ url_QueryEscape kv.2) <$> kvs) "&") =
  foldl (λ q kv, <[kv.1 := default [] (q !! kv.1) ++ [kv.2]]> q) ∅ kvs.
Proof.
  unfold url_Query. destruct kvs as [|kv kvs]; [done|].
  change "&" with (String "&" "") at 1. rewrite Split_Join; [|done|].
  - generalize (∅ : Values). generalize (kv :: kvs). clear kv kvs. intros kvs.
    induction kvs as [|kv kvs IH]; intros q; [done|].
    rewrite fmap_cons. cbn [foldl]. by rewrite query_pair_escaped, IH.
  - rewrite Forall_fmap. apply Forall_true. intros ?. by apply escaped_pair_lacks.
Qed.

Definition add_pair (q : Values) (kv : string * string) : Values := <[kv.1 := default [] (q !! kv.1) ++ [kv.2]]> q.

Lemma add_pairs_key k vs q :
  vs ≠ [] → foldl add_pair q (pair k <$> vs) = <[k := default [] (q !! k) ++ vs]> q.
Proof.
  revert q. induction vs as [|v vs IH]; [done|]. intros q _. rewrite fmap_cons. cbn [foldl].
  destruct (decide (vs = [])) as [->|Hne]; [done|].
  rewrite IH by done. unfold add_pair. cbn [fst snd].
  rewrite lookup_insert_eq, insert_insert_eq. cbn. by rewrite <-app_assoc.
Qed.

Lemma add_pairs_lookup (q : Values) ks m k :
  NoDup ks → (∀ k', q !! k' ≠ Some []) → (∀ k', k' ∈ ks → m !! k' = None ∧ is_Some (q !! k')) →
  foldl add_pair m (k' ← ks; pair k' <$> default [] (q !! k')) !! k =
  if decide (k ∈ ks) then q !! k else m !! k.
Proof.
  intros Hnd Hq. revert m. induction Hnd as [|k1 ks Hk1 _ IH]; intros m Hm; [done|].
  rewrite bind_cons, foldl_app. destruct (Hm k1 ltac:(left)) as [Hm1 [vs Hvs]].
  rewrite Hvs. change (default [] (Some vs)) with vs. rewrite add_pairs_key by (intros ->; by apply (Hq k1)).
  rewrite Hm1. change (default [] None ++ vs) with vs. rewrite IH.
  - destruct (decide (k = k1)) as [->|Hne].
    + rewrite decide_False by done. rewrite decide_True by left. by rewrite lookup_insert_eq, Hvs.
    + rewrite lookup_insert_ne by done. destruct (decide (k ∈ ks)).
      * by rewrite decide_True by by right.
      * rewrite decide_False; [done|]. by intros [?|?]%elem_of_cons.
  - intros k' Hk'. destruct (Hm k' ltac:(by right)) as [? ?]. split; [|done].
    by rewrite lookup_insert_ne by congruence.
Qed.

(** [Query] reads back what [Encode] wrote. *)
Lemma Query_Encode q : (∀ k, q !! k ≠ Some []) → url_Query (Values_Encode q) = q.
Proof.
  intros Hq. unfold Values_Encode. set (ks := merge_sort string_le _).
  assert (ks ≡ₚ elements (dom q)) as Hks by apply merge_sort_Permutation.
  assert ((k ← ks; v ← default [] (q !! k); [url_QueryEscape k +:+ "=" +:+ url_QueryEscape v]) =
    (λ kv, url_QueryEscape kv.1 +:+ "=" +:+ url_QueryEscape kv.2) <$>
      (k ← ks; pair k <$> default [] (q !! k))) as ->.
  { clear Hks. induction ks as [|k ks IH]; [done|]. rewrite !bind_cons, fmap_app, IH. f_equal. clear.
    rewrite <-list_fmap_compose. induction (default [] (q !! k)); [done|]. by cbn; f_equal. }
  rewrite Query_pairs. apply map_eq. intros k.
  rewrite add_pairs_lookup.
  - destruct (decide (k ∈ ks)) as [|Hn]; [done|]. rewrite lookup_empty. symmetry. apply not_elem_of_dom.
    by rewrite <-elem_of_elements, <-Hks.
  - rewrite Hks. apply NoDup_elements.
  - done.
  - intros k'. rewrite Hks, elem_of_elements, elem_of_dom. intros H. split; [apply lookup_empty|done].
Qed.
