(* ===== verification/LoTypes.v ===== *)
(** * internal/lo: listens and addresses

    [types.go] and [addr.go]: the identity of a shared listener, and how its
    address is bound, dialled and classified. *)

From S2P Require Import Prelude GoStrings GoNet.

(** ** types.go *)

(** [type Stack string] and [type Proto string]: any string may arrive from a
    peer, so neither is an enumeration. *)
Definition Stack := string.
Definition V4 : Stack := "v4".
Definition V6 : Stack := "v6".
Definition Proto := string.
Definition TCP : Proto := "tcp".
Definition UDP : Proto := "udp".

(** [l_port] is a [uint16]. *)
Record Listen := mkListen {
  l_stack : Stack;
  l_proto : Proto;
  l_addr : string;
  l_port : Z;
}.

#[export] Instance Listen_eq_dec : EqDecision Listen.
Proof. solve_decision. Defined.
#[export] Instance Listen_countable : Countable Listen.
Proof.
  refine (inj_countable' (λ l, (l_stack l, l_proto l, l_addr l, l_port l))
            (λ '(s, p, a, n), mkListen s p a n) _).
  by intros [].
Defined.

(** [Listen.String]: ["%s/%s/%s:%d"]. *)
Definition Listen_String (l : Listen) : string :=
  l_stack l +:+ "/" +:+ l_proto l +:+ "/" +:+ l_addr l +:+ ":" +:+ strconv_Itoa (l_port l).

(** The zero value [Listen{}]. *)
Definition Listen_zero : Listen := mkListen "" "" "" 0.

Record Event := mkEvent {
  ev_op : string;
  ev_listen : Listen;
}.

#[export] Instance Event_eq_dec : EqDecision Event.
Proof. solve_decision. Defined.

Definition ev_add (l : Listen) : Event := mkEvent "add" l.
Definition ev_remove (l : Listen) : Event := mkEvent "remove" l.
Definition ev_sync : Event := mkEvent "sync" Listen_zero.

(** ** addr.go *)

Definition dialNetwork (stack : Stack) (proto : Proto) : string :=
  let suffix := if decide (stack = V6) then "6" else "4" in
  proto +:+ suffix.

Definition hostPort (stack : Stack) (addr : string) (port : Z) : string :=
  if decide (stack = V6) then "[" +:+ addr +:+ "]:" +:+ strconv_Itoa port
  else addr +:+ ":" +:+ strconv_Itoa port.

Definition bindAddr (l : Listen) : string := hostPort (l_stack l) (l_addr l) (l_port l).

Definition isUnspecified (addr : string) : bool :=
  match net_ParseIP addr with
  | Some ip => IP_IsUnspecified ip
  | None => false
  end.

Definition isLoopbackOrUnspecified (addr : string) : bool :=
  match net_ParseIP addr with
  | Some ip => IP_IsLoopback ip || IP_IsUnspecified ip
  | None => false
  end.

Definition dialTarget (l : Listen) : string :=
  let addr :=
    if isUnspecified (l_addr l) then
      if decide (l_stack l = V6) then "::1" else "127.0.0.1"
    else l_addr l in
  hostPort (l_stack l) addr (l_port l).

Definition addrMatchesStack (stack : Stack) (addr : string) : bool :=
  match net_ParseIP addr with
  | None => false
  | Some ip =>
      let is4 := bool_decide (is_Some (IP_To4 ip)) in
      if decide (stack = V4) then is4 else negb is4
  end.

(** [net.SplitHostPort(remote.String())]: [None] when it fails, in which case
    [isLocalPeer] takes the whole string as the host. *)
Fixpoint last_colon (s : string) : option (string * string) :=
  match s with
  | "" => None
  | String c s' =>
      match last_colon s' with
      | Some (h, p) => Some (String c h, p)
      | None => if decide (c = ":"%char) then Some ("", s') else None
      end
  end.

(** [SplitHostPort]: the port follows the last colon; a bracketed host ends at the
    first [']'], which that colon must follow; a bare host holds no colon; no
    bracket may be left over. *)
Definition net_SplitHostPort (hostport : string) : option (string * string) :=
  match last_colon hostport with
  | None => None
  | Some (before, port) =>
      match hostport with
      | String "[" rest =>
          let '(host, after, ok) := strings_Cut rest "]" in
          if negb ok then None
          else if decide (after ≠ ":" +:+ port) then None
          else if strings_ContainsByte host "[" || strings_ContainsByte port "[" ||
                  strings_ContainsByte port "]" then None
          else Some (host, port)
      | _ =>
          if strings_ContainsByte before ":" then None
          else if strings_ContainsByte hostport "[" || strings_ContainsByte hostport "]" then None
          else Some (before, port)
      end
  end.

(** [remote] is [remote.String()]. *)
Definition isLocalPeer (remote : string) : bool :=
  let host := match net_SplitHostPort remote with
              | Some (host, _) => host
              | None => remote
              end in
  match net_ParseIP host with
  | Some ip => IP_IsLoopback ip || IP_IsUnspecified ip
  | None => false
  end.

Example bind1 : bindAddr (mkListen V6 TCP "::1" 80) = "[::1]:80". Proof. reflexivity. Qed.
Example dial1 : map dialTarget [mkListen V4 TCP "0.0.0.0" 80; mkListen V6 TCP "::" 80;
    mkListen V4 TCP "127.0.0.2" 80; mkListen V6 TCP "::1" 80]
  = ["127.0.0.1:80"; "[::1]:80"; "127.0.0.2:80"; "[::1]:80"]. Proof. reflexivity. Qed.
Example match1 : (addrMatchesStack V4 "127.0.0.1", addrMatchesStack V4 "::1",
    addrMatchesStack V6 "::1", addrMatchesStack V6 "127.0.0.1", addrMatchesStack V4 "not-an-ip")
  = (true, false, true, false, false). Proof. reflexivity. Qed.
Example lou1 : map isLoopbackOrUnspecified ["127.0.0.1"; "127.0.0.2"; "0.0.0.0"; "::1"; "::";
    "10.0.0.1"; "8.8.8.8"; "2001:db8::1"; "not-an-ip"; ""]
  = [true; true; true; true; true; false; false; false; false; false]. Proof. reflexivity. Qed.
Example local1 : map isLocalPeer ["127.0.0.1:1234"; "[::1]:1234"; "10.0.0.5:1234"; "203.0.113.1:1"; "::1"]
  = [true; true; false; false; true]. Proof. reflexivity. Qed.

(** ** Lemmas *)

(** A listen [/connect] may reach: what [parseListenParams] accepts. *)
Definition connectable (l : Listen) : Prop :=
  (l_stack l = V4 ∨ l_stack l = V6) ∧ (l_proto l = TCP ∨ l_proto l = UDP) ∧
  0 ≤ l_port l < 2 ^ 16 ∧
  isLoopbackOrUnspecified (l_addr l) = true ∧ addrMatchesStack (l_stack l) (l_addr l) = true.

#[export] Instance connectable_dec l : Decision (connectable l).
Proof. unfold connectable. apply _. Defined.

(** Printing an IPv4 address and classifying the text agrees with classifying the
    address. *)
Lemma isLoopbackOrUnspecified_v4 ip ip4 :
  IP_To4 ip = Some ip4 → isLoopbackOrUnspecified (IP_String ip) = lo_or_unspec ip4.
Proof.
  intros H. pose proof (IP_To4_length _ _ H) as Hl.
  unfold isLoopbackOrUnspecified. rewrite (IP_String_To4 _ _ H), ParseIP_dotted by done.
  fold (lo_or_unspec (v4InV6Prefix ++ ip4)).
  apply Bool.eq_true_iff_eq. rewrite !lo_or_unspec_inv.
  rewrite IP_To4_mapped by done.
  assert (IP_To4 ip4 = Some ip4) as E by (unfold IP_To4; by rewrite decide_True).
  rewrite E. split.
  - intros [?|[?|?]]; [by left|done..].
  - intros [?|[-> | ->]]; [by left|done..].
Qed.

Lemma addrMatchesStack_v4 stack ip ip4 :
  IP_To4 ip = Some ip4 →
  addrMatchesStack stack (IP_String ip) = bool_decide (stack = V4).
Proof.
  intros H. pose proof (IP_To4_length _ _ H) as Hl.
  unfold addrMatchesStack. rewrite (IP_String_To4 _ _ H), ParseIP_dotted, IP_To4_mapped by done.
  rewrite bool_decide_true by eauto. case_decide; by case_bool_decide.
Qed.

(** [dialTarget] never yields an unspecified address. *)
Lemma dialTarget_specified l :
  ∃ addr, dialTarget l = hostPort (l_stack l) addr (l_port l) ∧ isUnspecified addr = false ∧
    (isUnspecified (l_addr l) = false → addr = l_addr l).
Proof.
  unfold dialTarget. destruct (isUnspecified (l_addr l)) eqn:E.
  - case_decide; eexists; (split_and!; [done|done|done]).
  - eexists. by split_and!.
Qed.
