(* ===== verification/LoProc.v ===== *)
(** * internal/lo: the kernel's socket tables

    [proc.go]: which sockets of [/proc/net/{tcp,tcp6,udp,udp6}] are listeners to
    share. *)

From S2P Require Import Prelude Platform GoStrings GoNet LoTypes.

(** ** Data *)

Definition procNetFiles : list (string * Proto * Stack) :=
  [("/proc/net/tcp", TCP, V4); ("/proc/net/tcp6", TCP, V6);
   ("/proc/net/udp", UDP, V4); ("/proc/net/udp6", UDP, V6)].

Definition tcpStateListen : string := "0A".
Definition udpStateUnconnected : string := "07".

Inductive proc_error :=
  | TooFewFields (line : string)
  | MalformedLocalAddress (field : string)
  | MalformedAddress (s : string)
  | AddressLength (s : string) (n : nat)
  | MalformedPort (s : string).

(** ** parseHexIP *)

(** The loop over 32-bit words: each word's four bytes, reversed. *)
Fixpoint swap_words (raw : list byte) : list byte :=
  match raw with
  | a :: b :: c :: d :: raw => d :: c :: b :: a :: swap_words raw
  | _ => []
  end.

Definition parseHexIP (s : string) : res proc_error IP :=
  match hex_DecodeString s with
  | None => Err (MalformedAddress s)
  | Some raw =>
      if decide (length raw `mod` 4 ≠ 0)%nat then Err (AddressLength s (length raw))
      else Ok (swap_words raw)
  end.

(** ** parseProcNetLine *)

(** [st] is the state of a listening socket of [proto].  (The switch has no
    default: a protocol other than the two would pass.) *)
Definition state_ok (proto : Proto) (st : string) : bool :=
  if decide (proto = TCP) then bool_decide (st = tcpStateListen)
  else if decide (proto = UDP) then bool_decide (st = udpStateUnconnected)
  else true.

(** [Ok None] is [(Listen{}, false, nil)]. *)
Definition parseProcNetLine (line : string) (proto : Proto) (stack : Stack)
    : res proc_error (option Listen) :=
  match strings_Fields line with
  | _ :: local :: _ :: st :: _ =>
      if negb (state_ok proto st) then Ok None
      else
        let '(ipHex, portHex, ok) := strings_Cut local ":" in
        if negb ok then Err (MalformedLocalAddress local)
        else
          let? ip := parseHexIP ipHex in
          if negb (IP_IsLoopback ip) && negb (IP_IsUnspecified ip) then Ok None
          else
            match strconv_ParseUint portHex 16 16 with
            | Err _ => Err (MalformedPort portHex)
            | Ok port => Ok (Some (mkListen stack proto (IP_String ip) port))
            end
  | _ => Err (TooFewFields line)
  end.

(** ** scanProcFile and scanProcNet *)

(** The loop of [scanProcFile]: a malformed line is skipped. *)
Fixpoint scan_lines (ls : list string) (proto : Proto) (stack : Stack) (out : gset Listen)
    : gset Listen :=
  match ls with
  | [] => out
  | l :: ls =>
      match parseProcNetLine l proto stack with
      | Err _ => scan_lines ls proto stack out
      | Ok None => scan_lines ls proto stack out
      | Ok (Some x) => scan_lines ls proto stack ({[x]} ∪ out)
      end
  end.

(** [None] is an error.  A missing file yields the nil map, which ranges like the
    empty one. *)
Definition scanProcFile (f : file) (proto : Proto) (stack : Stack) : option (gset Listen) :=
  match f with
  | FileNotExist => Some ∅
  | FileOpenErr => None
  | FileData data read_err =>
      let '(lines, too_long) := ScanLines data in
      let out := scan_lines (tail lines) proto stack ∅ in (* the header is discarded *)
      if too_long || read_err then None else Some out
  end.

(** The four tables are read in turn; [fs] is what each path holds when it is. *)
Fixpoint scan_files (files : list (string * Proto * Stack)) (fs : string → file)
    (out : gset Listen) : option (gset Listen) :=
  match files with
  | [] => Some out
  | (path, proto, stack) :: files =>
      match scanProcFile (fs path) proto stack with
      | None => None
      | Some m => scan_files files fs (m ∪ out)
      end
  end.
Definition scanProcNet (fs : string → file) : option (gset Listen) :=
  scan_files procNetFiles fs ∅.

(** ** The kernel's rendering

    What [/proc/net] prints, to state what the parser makes of it: each 32-bit word
    of an address as eight upper-case hexadecimal digits, of the number the word
    is on the machine, and a port as four. *)

Definition upper_digit (d : Z) : ascii :=
  ascii_of_N (Z.to_N (if d <? 10 then 48 + d else 55 + d)).
Definition upper_byte (b : byte) (s : string) : string :=
  String (upper_digit (byte_Z b `div` 16)) (String (upper_digit (byte_Z b `mod` 16)) s).
Definition kernel_hex {a : GOARCH} (ip : IP) : string := foldr upper_byte "" (if big_endian then ip else swap_words ip).
Definition kernel_port (port : Z) : string :=
  upper_byte (Z_byte (port `div` 256)) (upper_byte (Z_byte port) "").
Definition kernel_addr {a : GOARCH} (ip : IP) (port : Z) : string := kernel_hex ip +:+ ":" +:+ kernel_port port.

(** The address that [parseHexIP] reads where the kernel has printed [ip]. *)
Definition address_read {a : GOARCH} (ip : IP) : IP := if big_endian then swap_words ip else ip.

(** ** Lemmas *)

Lemma upper_digit_val d : 0 ≤ d < 16 → digit_val (upper_digit d) = Some d.
Proof.
  intros. assert (d ∈ seqZ 0 16) as Hd by (apply elem_of_seqZ; lia). clear H.
  revert d Hd. apply Forall_forall. repeat constructor.
Qed.

Lemma upper_digit_colon d : 0 ≤ d < 16 → upper_digit d ≠ ":"%char.
Proof.
  intros. assert (d ∈ seqZ 0 16) as Hd by (apply elem_of_seqZ; lia). clear H.
  revert d Hd. apply Forall_forall. repeat constructor; vm_compute; discriminate.
Qed.

Lemma byte_nibbles b : 0 ≤ byte_Z b `div` 16 < 16 ∧ 0 ≤ byte_Z b `mod` 16 < 16.
Proof.
  pose proof (byte_Z_range b). split; [|by apply Z.mod_pos_bound].
  split; [apply Z.div_pos; lia|apply Z.div_lt_upper_bound; lia].
Qed.

Lemma hex_decode_upper bs : hex_DecodeString (foldr upper_byte "" bs) = Some bs.
Proof.
  induction bs as [|b bs IH]; [done|]. pose proof (byte_nibbles b) as [? ?].
  cbn [foldr]. unfold upper_byte at 1. cbn [hex_DecodeString]. unfold hex_digit. rewrite !upper_digit_val by done.
  rewrite !(proj2 (Z.ltb_lt _ _)) by lia. rewrite IH. simpl. do 2 f_equal.
  rewrite (Z.mul_comm _ 16), <-Z.div_mod by done. apply byte_Z_byte.
Qed.

Lemma swap_words_length raw : (length raw `mod` 4 = 0)%nat → length (swap_words raw) = length raw.
Proof.
  induction raw as [raw IH] using (induction_ltof1 _ (@length _)). unfold ltof in IH.
  destruct raw as [|a [|b [|c [|d raw]]]]; try done. intros H.
  cbn [swap_words length]. rewrite IH; [done|simpl; lia|].
  change (length (a :: b :: c :: d :: raw)) with (4 + length raw)%nat in H.
  by rewrite <-(Nat.Div0.add_mod_idemp_l 4), Nat.Div0.mod_same in H.
Qed.

Lemma swap_words_involutive raw : (length raw `mod` 4 = 0)%nat → swap_words (swap_words raw) = raw.
Proof.
  induction raw as [raw IH] using (induction_ltof1 _ (@length _)). unfold ltof in IH.
  destruct raw as [|a [|b [|c [|d raw]]]]; try done. intros H.
  cbn [swap_words]. rewrite IH; [done|simpl; lia|].
  change (length (a :: b :: c :: d :: raw)) with (4 + length raw)%nat in H.
  by rewrite <-(Nat.Div0.add_mod_idemp_l 4), Nat.Div0.mod_same in H.
Qed.

Lemma parseHexIP_kernel {a : GOARCH} ip :
  (length ip `mod` 4 = 0)%nat → parseHexIP (kernel_hex ip) = Ok (address_read ip).
Proof.
  intros H. unfold parseHexIP, kernel_hex, address_read. rewrite hex_decode_upper. destruct big_endian.
  - by rewrite decide_False by lia.
  - rewrite decide_False by (rewrite swap_words_length; lia). by rewrite swap_words_involutive.
Qed.

Lemma address_read_length {a : GOARCH} ip : (length ip `mod` 4 = 0)%nat → length (address_read ip) = length ip.
Proof. unfold address_read. destruct big_endian; [by apply swap_words_length|done]. Qed.

Lemma mod4 (n : nat) : n = 4%nat ∨ n = 16%nat → (n `mod` 4 = 0)%nat.
Proof. by intros [-> | ->]. Qed.

Lemma upper_bytes_lack_colon bs s : lacks ":" s → lacks ":" (foldr upper_byte s bs).
Proof.
  intros Hs. induction bs as [|b bs IH]; [done|]. pose proof (byte_nibbles b) as [? ?].
  cbn [foldr]. unfold upper_byte at 1. rewrite !lacks_cons.
  split_and!; [by apply upper_digit_colon..|done].
Qed.

Lemma ParseUint_kernel_port port :
  0 ≤ port < 65536 → strconv_ParseUint (kernel_port port) 16 16 = Ok port.
Proof.
  intros Hp. pose proof (byte_nibbles (Z_byte (port `div` 256))) as [? ?].
  pose proof (byte_nibbles (Z_byte port)) as [? ?].
  apply ParseUint_spec; [lia..|]. split_and!; [done| |lia].
  unfold kernel_port, upper_byte. cbn [digits_from].
  rewrite !upper_digit_val by done. rewrite !(proj2 (Z.leb_gt _ _)) by lia.
  f_equal. rewrite !Z_byte_Z in *. Z.to_euclidean_division_equations. lia.
Qed.

Lemma Cut_kernel_addr {a : GOARCH} ip port :
  strings_Cut (kernel_addr ip port) ":" = (kernel_hex ip, kernel_port port, true).
Proof.
  unfold kernel_addr. rewrite sapp_cons, sapp_nil. apply Cut_app.
  by apply upper_bytes_lack_colon.
Qed.

(** What [parseProcNetLine] accepts, read backwards. *)
Lemma parseProcNetLine_Some line proto stack l :
  parseProcNetLine line proto stack = Ok (Some l) →
  ∃ ip, l_stack l = stack ∧ l_proto l = proto ∧ l_addr l = IP_String ip ∧
    lo_or_unspec ip = true ∧ 0 ≤ l_port l < 2 ^ 16.
Proof.
  unfold parseProcNetLine.
  destruct (strings_Fields line) as [|f0 [|local [|f2 [|st rest]]]]; try done.
  destruct (state_ok proto st); [|done]. simpl.
  destruct (strings_Cut local ":") as [[ipHex portHex] ok]. destruct ok; [|done]. simpl.
  intros (ip&Hip&Hp)%res_bind_Ok. destruct (negb _ && negb _) eqn:Hlo; [done|].
  destruct (strconv_ParseUint portHex 16 16) as [port|] eqn:E; [|done]. simplify_eq/=.
  apply ParseUint_range in E; [|lia..].
  exists ip. split_and!; [done..| |lia|lia].
  unfold lo_or_unspec. by destruct (IP_IsLoopback ip), (IP_IsUnspecified ip).
Qed.

Lemma elem_of_scan_lines ls proto stack out l :
  l ∈ scan_lines ls proto stack out ↔
  l ∈ out ∨ ∃ line, line ∈ ls ∧ parseProcNetLine line proto stack = Ok (Some l).
Proof.
  revert out. induction ls as [|x ls IH]; intros out; cbn [scan_lines].
  { split; [by left|]. intros [?|(?&H&?)]; [done|]. by apply not_elem_of_nil in H. }
  destruct (parseProcNetLine x proto stack) as [[y|]|e] eqn:E; rewrite IH.
  - rewrite elem_of_union, elem_of_singleton. split.
    + intros [[->|?]|(line&?&?)]; [right; exists x|by left|right; exists line]; by rewrite elem_of_cons; eauto.
    + intros [?|(line&[->|?]%elem_of_cons&?)]; [by left; right|left; left; congruence|by right; eauto].
  - split; [intros [?|(line&?&?)]; [by left|right; exists line; rewrite elem_of_cons; eauto]|].
    intros [?|(line&[->|?]%elem_of_cons&?)]; [by left|congruence|by right; eauto].
  - split; [intros [?|(line&?&?)]; [by left|right; exists line; rewrite elem_of_cons; eauto]|].
    intros [?|(line&[->|?]%elem_of_cons&?)]; [by left|congruence|by right; eauto].
Qed.

Lemma lo_or_unspec_negb ip :
  negb (IP_IsLoopback ip) && negb (IP_IsUnspecified ip) = negb (lo_or_unspec ip).
Proof. unfold lo_or_unspec. by rewrite negb_orb. Qed.

(** The lines of a table, its header aside, when the table could be read. *)
Definition table_lines (f : file) : option (list string) :=
  match f with
  | FileNotExist => Some []
  | FileOpenErr => None
  | FileData data read_err =>
      let '(lines, too_long) := ScanLines data in
      if too_long || read_err then None else Some (tail lines)
  end.

Lemma scanProcFile_lines f proto stack :
  scanProcFile f proto stack = (λ ls, scan_lines ls proto stack ∅) <$> table_lines f.
Proof.
  destruct f as [| |data e]; [done..|]. simpl. destruct (ScanLines data) as [ls b].
  by destruct (b || e).
Qed.

Lemma elem_of_scan_files files fs out all :
  scan_files files fs out = Some all →
  ∀ l, l ∈ all ↔ l ∈ out ∨ ∃ path proto stack ls line,
    (path, proto, stack) ∈ files ∧ table_lines (fs path) = Some ls ∧ line ∈ ls ∧
    parseProcNetLine line proto stack = Ok (Some l).
Proof.
  revert out. induction files as [|[[path proto] stack] files IH]; intros out; cbn [scan_files].
  { intros [= ->] l. split; [by left|]. intros [?|(?&?&?&?&?&[]%not_elem_of_nil&?)]; done. }
  rewrite scanProcFile_lines. destruct (table_lines (fs path)) as [ls|] eqn:E; [|done].
  cbn [fmap option_fmap option_map]. intros Hall l. rewrite (IH _ Hall).
  rewrite elem_of_union, elem_of_scan_lines. split.
  - intros [[[?|(line&?&?)]|?]|(p&pr&st&ls'&line&?&?&?&?)].
    + by left.
    + right. exists path, proto, stack, ls, line. by rewrite elem_of_cons; eauto.
    + by left.
    + right. exists p, pr, st, ls', line. by rewrite elem_of_cons; eauto.
  - intros [?|(p&pr&st&ls'&line&[?|?]%elem_of_cons&?&?&?)]; [by eauto| |by right; eauto 10].
    simplify_eq. left; left; right; eauto.
Qed.

(** ** Properties *)

(** C24. What the parser makes of the kernel's rendering of a socket, on every
    architecture peel is released for.  From a line whose second field is an IPv4
    or IPv6 address and a port as the kernel prints them, it reports a listener
    if the socket is listening (state [0A] for TCP, [07] for UDP) and the address
    it reads is loopback or unspecified, and nothing otherwise; it never fails,
    and the port is the socket's.  On the little-endian architectures the address
    it reads is the socket's; on s390x it is the socket's with the bytes of each
    32-bit word reversed. *)
Theorem parseProcNetLine_kernel {a : GOARCH} line proto stack f0 ip port f2 st rest :
  (proto = TCP ∨ proto = UDP) →
  (length ip = 4 ∨ length ip = 16)%nat → 0 ≤ port < 2 ^ 16 →
  strings_Fields line = f0 :: kernel_addr ip port :: f2 :: st :: rest →
  (a ≠ S390x → address_read ip = ip) ∧ (a = S390x → address_read ip = swap_words ip) ∧
  parseProcNetLine line proto stack =
    Ok (if bool_decide (st = (if decide (proto = TCP) then "0A" else "07")) && lo_or_unspec (address_read ip)
        then Some (mkListen stack proto (IP_String (address_read ip)) port) else None).
Proof.
  intros Hproto Hip%mod4 Hport Hf. split_and!; [by destruct a|by intros ->|].
  unfold parseProcNetLine. rewrite Hf.
  assert (state_ok proto st = bool_decide (st = (if decide (proto = TCP) then "0A" else "07"))) as ->.
  { unfold state_ok. destruct Hproto as [-> | ->]; reflexivity. }
  destruct (bool_decide _); [|done]. cbn [negb andb].
  rewrite Cut_kernel_addr. cbn [negb]. rewrite parseHexIP_kernel by done. cbn [res_bind].
  rewrite lo_or_unspec_negb. destruct (lo_or_unspec (address_read ip)); [|done]. cbn [negb].
  by rewrite ParseUint_kernel_port.
Qed.

Lemma parseProcNetLine_kernel_witness :
  strings_Fields "   0: 0100007F:1F90 00000000:0000 0A 00000000:00000000" =
    "0:" :: kernel_addr (a := Amd64) [x7f;x00;x00;x01] 8080 :: "00000000:0000" :: "0A" :: ["00000000:00000000"] ∧
  parseProcNetLine "   0: 0100007F:1F90 00000000:0000 0A 00000000:00000000" TCP V4 =
    Ok (Some (mkListen V4 TCP "127.0.0.1" 8080)).
Proof.
  split; [reflexivity|].
  apply (parseProcNetLine_kernel (a := Amd64) _ TCP V4 "0:" [x7f;x00;x00;x01] 8080 "00000000:0000" "0A"
    ["00000000:00000000"]); [by left|by left|lia|reflexivity].
Defined.

(** So on s390x a listener on 127.0.0.1 is not shared, nor is one on ::1, and one on
    the public address 1.0.0.127 is, as one on 127.0.0.1. *)
Lemma s390x_misses_loopback :
  let line ip := "0: " +:+ kernel_addr (a := S390x) ip 8080 +:+ " 0:0 0A 0" in
  parseProcNetLine (line [x7f;x00;x00;x01]) TCP V4 = Ok None ∧
  parseProcNetLine (line (replicate 15 x00 ++ [x01])) TCP V6 = Ok None ∧
  parseProcNetLine (line [x01;x00;x00;x7f]) TCP V4 = Ok (Some (mkListen V4 TCP "127.0.0.1" 8080)).
Proof. split_and!; reflexivity. Qed.

(** C27. A scan of the four tables reports a listener exactly when some line of some
    table, its header aside, describes it: no malformed line hides another one,
    and a missing table (IPv6 disabled) counts as empty. *)
Theorem scanProcNet_complete fs all :
  scanProcNet fs = Some all →
  ∀ l, l ∈ all ↔ ∃ path proto stack ls line,
    (path, proto, stack) ∈ procNetFiles ∧ table_lines (fs path) = Some ls ∧ line ∈ ls ∧
    parseProcNetLine line proto stack = Ok (Some l).
Proof.
  intros H l. rewrite (elem_of_scan_files _ _ _ _ H).
  split; [by intros [[]%not_elem_of_empty|?]|by right].
Qed.

Definition sample_tables (path : string) : file :=
  if decide (path = "/proc/net/tcp") then
    FileData ("header" +:+ String LF ("garbage" +:+ String LF
      "0: 00000000:1F90 00000000:0000 0A 0")) false
  else FileNotExist.

Definition wildcard_8080 : Listen := mkListen V4 TCP "0.0.0.0" 8080.

Lemma sample_scan :
  match scanProcNet sample_tables with
  | Some all => bool_decide (wildcard_8080 ∈ all)
  | None => false
  end = true.
Proof. vm_compute. reflexivity. Qed.

Lemma scanProcNet_complete_witness :
  ∃ all, scanProcNet sample_tables = Some all ∧ ∃ path proto stack ls line,
    (path, proto, stack) ∈ procNetFiles ∧ table_lines (sample_tables path) = Some ls ∧ line ∈ ls ∧
    parseProcNetLine line proto stack = Ok (Some wildcard_8080).
Proof.
  pose proof sample_scan as H. destruct (scanProcNet sample_tables) as [all|] eqn:E; [|done].
  exists all. split; [done|]. apply bool_decide_eq_true in H.
  by apply (scanProcNet_complete sample_tables all E).
Defined.

Lemma connectable_scanned proto stack ip port :
  (proto = TCP ∨ proto = UDP) → 0 ≤ port < 2 ^ 16 → lo_or_unspec ip = true →
  (stack = V4 ∧ length ip = 4%nat) ∨ (stack = V6 ∧ length ip = 16%nat) →
  connectable (mkListen stack proto (IP_String ip) port) ↔ (stack = V4 ∨ IP_To4 ip = None).
Proof.
  intros Hproto Hport Hlo Hip. unfold connectable; cbn [l_stack l_proto l_addr l_port].
  destruct (IP_To4 ip) as [ip4|] eqn:E.
  - rewrite (isLoopbackOrUnspecified_v4 _ _ E), (addrMatchesStack_v4 _ _ _ E), bool_decide_eq_true.
    assert (lo_or_unspec ip4 = true) as ->.
    { rewrite lo_or_unspec_inv in Hlo |- *. left. exists ip4.
      split; [unfold IP_To4; by rewrite decide_True by eauto using IP_To4_length|].
      destruct Hlo as [(?&?&?)|[-> | ->]]; [congruence|done..]. }
    split; [by intros (?&?&?&?&?); left|]. intros [-> |?]; [|done]. by split_and!; auto; lia.
  - assert (stack = V6) as ->.
    { destruct Hip as [[-> Hl]|[-> _]]; [|done]. unfold IP_To4 in E. by rewrite decide_True in E. }
    apply lo_or_unspec_inv in Hlo as [(?&?&_)|Hlo]; [congruence|].
    split; [by right|]. intros _.
    destruct Hlo as [-> | ->]; split_and!; auto; lia.
Qed.

(** C25. What a scan of a table advertises, a peer's [/connect] accepts back --- the
    validation of [parseListenParams] holds of it --- if and only if the address it
    read is not an IPv4-mapped IPv6 address.  (A socket of the IPv6 tables bound to
    [::ffff:127.0.0.1] is advertised as a v6 listener on [127.0.0.1], which no
    peer can bind as tcp6 and which the owner's [/connect] refuses.) *)
Theorem scanned_connectable {a : GOARCH} line proto stack f0 ip port f2 st rest l :
  (proto = TCP ∨ proto = UDP) →
  (stack = V4 ∧ length ip = 4%nat) ∨ (stack = V6 ∧ length ip = 16%nat) →
  0 ≤ port < 2 ^ 16 →
  strings_Fields line = f0 :: kernel_addr ip port :: f2 :: st :: rest →
  parseProcNetLine line proto stack = Ok (Some l) →
  connectable l ↔ (stack = V4 ∨ IP_To4 (address_read ip) = None).
Proof.
  intros Hproto Hip Hport Hf. unfold parseProcNetLine. rewrite Hf.
  assert (length ip `mod` 4 = 0)%nat as Hmod by (apply mod4; destruct Hip as [[_ ->]|[_ ->]]; auto).
  destruct (state_ok proto st); [|done]. rewrite Cut_kernel_addr. cbn [negb].
  rewrite parseHexIP_kernel by done. cbn [res_bind].
  rewrite lo_or_unspec_negb. destruct (lo_or_unspec (address_read ip)) eqn:Hlo; [|done]. cbn [negb].
  rewrite ParseUint_kernel_port by done. intros [= <-].
  apply connectable_scanned; [done..|]. by rewrite address_read_length.
Qed.

Definition mapped_loopback : IP := v4InV6Prefix ++ [x7f;x00;x00;x01].
Definition mapped_line : string := "0: " +:+ kernel_addr (a := Amd64) mapped_loopback 8080 +:+ " 0:0 0A 0".

Lemma scanned_connectable_witness :
  parseProcNetLine mapped_line TCP V6 = Ok (Some (mkListen V6 TCP "127.0.0.1" 8080)) ∧
  ¬ connectable (mkListen V6 TCP "127.0.0.1" 8080).
Proof.
  split; [reflexivity|]. intros H.
  apply (scanned_connectable (a := Amd64) mapped_line TCP V6 "0:" mapped_loopback 8080 "0:0" "0A" ["0"]) in H;
    [|by left|by right|lia|reflexivity|reflexivity].
  by destruct H.
Defined.
