(* ===== verification/LoFrame.v ===== *)
(** * internal/lo: datagrams over a byte stream

    [frame.go] and the datagram loops of [pipe.go]: UDP datagrams cross a tunnel
    connection as length-prefixed frames. *)

From S2P Require Import Prelude Platform.

(** ** The streams

    An [io.Writer] that has taken [w_out] and will take [w_room] more bytes before
    it fails ([None]: it never fails), and an [io.Reader] that will yield [r_data],
    then [io.EOF] or another error. *)

Record writer := mkWriter { w_out : list byte; w_room : option nat }.
Record reader := mkReader { r_data : list byte; r_eof : bool }.

(** [w.Write(p)]; [true] is an error, after a short write. *)
Definition Write (w : writer) (p : list byte) : writer * bool :=
  match w_room w with
  | None => (mkWriter (w_out w ++ p) None, false)
  | Some k =>
      if decide (length p ≤ k)%nat then (mkWriter (w_out w ++ p) (Some (k - length p)%nat), false)
      else (mkWriter (w_out w ++ take k p) (Some O), true)
  end.

(** How a call does not return a frame: with one of its errors, or by a panic. *)
Inductive frame_error :=
  | SlicePanic (* slice bounds out of range *)
  | ReadEOF
  | ReadUnexpectedEOF
  | ReadOther
  | FrameTooLarge (n : Z) (buf : nat).
#[export] Instance frame_error_eq_dec : EqDecision frame_error.
Proof. solve_decision. Defined.

(** [io.ReadFull(r, buf)] with [n = len(buf)]. *)
Definition ReadFull (r : reader) (n : nat) : res frame_error (list byte) * reader :=
  match split_at n (r_data r) with
  | Some (a, b) => (Ok a, mkReader b (r_eof r))
  | None =>
      (Err (if r_eof r then if decide (r_data r = []) then ReadEOF else ReadUnexpectedEOF
            else ReadOther), mkReader [] (r_eof r))
  end.

(** ** frame.go *)

Definition maxDatagram : nat := Z.to_nat 65535.

Lemma maxDatagram_31 : Z.of_nat maxDatagram < 2 ^ 31.
Proof. unfold maxDatagram. lia. Qed.
Lemma maxDatagram_32 : Z.of_nat maxDatagram < 2 ^ 32.
Proof. unfold maxDatagram. lia. Qed.

(** [binary.BigEndian.PutUint32] and [Uint32]. *)
Definition PutUint32 (v : Z) : list byte :=
  [Z_byte (Z.shiftr v 24); Z_byte (Z.shiftr v 16); Z_byte (Z.shiftr v 8); Z_byte v].
Definition Uint32 (b : list byte) : Z :=
  match b with
  | [b0; b1; b2; b3] =>
      Z.lor (byte_Z b3) (Z.lor (Z.shiftl (byte_Z b2) 8)
        (Z.lor (Z.shiftl (byte_Z b1) 16) (Z.shiftl (byte_Z b0) 24)))
  | _ => 0
  end.

(** [uint32(len(b))] wraps. *)
Definition len32 (b : list byte) : Z := Z.of_nat (length b) `mod` 2 ^ 32.

Definition writeFrame (w : writer) (b : list byte) : writer * bool :=
  let '(w, err) := Write w (PutUint32 (len32 b)) in
  if err then (w, true)
  else if decide (length b = O) then (w, false)
  else Write w b.

(** [int(n)] wraps where [int] has 32 bits; [buf[:n]] panics beyond the buffer. *)
Definition readFrame {a : GOARCH} (r : reader) (buf : nat) : res frame_error (list byte) * reader :=
  let '(h, r) := ReadFull r 4 in
  match h with
  | Err e => (Err e, r)
  | Ok hdr =>
      let n := Uint32 hdr in
      if Z.of_nat buf <? to_int n then (Err (FrameTooLarge n buf), r)
      else if n =? 0 then (Ok [], r)
      else if Z.of_nat buf <? n then (Err SlicePanic, r)
      else ReadFull r (Z.to_nat n)
  end.

(** ** The datagram loops of pipeUDPServer *)

(** The first goroutine: every datagram read from [target] ([ms], then a read
    error) is framed onto the tunnel until a write fails. *)
Fixpoint pipe_to_tunnel (ms : list (list byte)) (tunnel : writer) : writer :=
  match ms with
  | [] => tunnel
  | m :: ms =>
      let '(tunnel, err) := writeFrame tunnel (take maxDatagram m) in
      if err then tunnel else pipe_to_tunnel ms tunnel
  end.

(** The second: every frame read from the tunnel is sent to [target] until a read
    fails, or the [room]-th write does.  A frame takes at least four bytes off the
    tunnel, so a fuel of its length is never exhausted. *)
Fixpoint pipe_from_tunnel {a : GOARCH} (fuel : nat) (tunnel : reader) (room : option nat)
    (sent : list (list byte)) : list (list byte) :=
  match fuel with
  | O => sent
  | S fuel =>
      let '(f, tunnel) := readFrame tunnel maxDatagram in
      match f with
      | Err _ => sent
      | Ok frame =>
          match room with
          | Some O => sent
          | Some (S k) => pipe_from_tunnel fuel tunnel (Some k) (sent ++ [frame])
          | None => pipe_from_tunnel fuel tunnel None (sent ++ [frame])
          end
      end
  end.

Example write1 : w_out (fst (writeFrame (mkWriter [] None) [x61; x62])) = [x00;x00;x00;x02;x61;x62].
Proof. reflexivity. Qed.
Example read_too_large : fst (readFrame (a := Amd64) (mkReader ([x00;x00;x00;x10] ++ replicate 16 x00) true) 4) =
  Err (FrameTooLarge 16 4). Proof. reflexivity. Qed.

(** ** Lemmas *)

Definition frame_bytes (b : list byte) : list byte := PutUint32 (len32 b) ++ b.

#[global] Arguments frame_bytes : simpl never.

Lemma Uint32_Put v : 0 ≤ v < 2 ^ 32 → Uint32 (PutUint32 v) = v.
Proof.
  intros Hv. unfold Uint32, PutUint32. rewrite !Z_byte_Z.
  change 256 with (2 ^ 8). rewrite <-!Z.land_ones by lia.
  apply Z.bits_inj'. intros n Hn.
  rewrite !Z.lor_spec, !Z.land_spec.
  destruct (decide (n < 32)).
  2:{ rewrite !Z.shiftl_spec by lia. rewrite !Z.land_spec, !Z.ones_spec_high by lia.
      rewrite !andb_false_r. rewrite <-(Z.mod_small v (2 ^ 32)), Z.mod_pow2_bits_high by lia. done. }
  assert (∀ k, 0 ≤ k → Z.testbit (Z.shiftl (Z.land (Z.shiftr v k) (Z.ones 8)) k) n =
    Z.testbit v n && bool_decide (k ≤ n < k + 8)) as Hb.
  { intros k Hk. rewrite Z.shiftl_spec by lia. case_bool_decide.
    - rewrite Z.land_spec, Z.ones_spec_low, Z.shiftr_spec, andb_true_r by lia.
      by rewrite Z.sub_add, andb_true_r.
    - rewrite andb_false_r. destruct (decide (n < k)); [by apply Z.testbit_neg_r; lia|].
      by rewrite Z.land_spec, Z.ones_spec_high, andb_false_r by lia. }
  rewrite !Hb by lia.
  assert (Z.testbit (Z.ones 8) n = bool_decide (n < 8)) as ->.
  { case_bool_decide; [apply Z.ones_spec_low|apply Z.ones_spec_high]; lia. }
  destruct (Z.testbit v n); [|done]. cbn [andb].
  repeat case_bool_decide; try done; lia.
Qed.

Lemma PutUint32_length v : length (PutUint32 v) = 4%nat.
Proof. done. Qed.

Lemma len32_small b : (Z.of_nat (length b) < 2 ^ 32) → len32 b = Z.of_nat (length b).
Proof. intros. apply Z.mod_small. lia. Qed.

Lemma ReadFull_app a b e n :
  length a = n → ReadFull (mkReader (a ++ b) e) n = (Ok a, mkReader b e).
Proof. intros <-. unfold ReadFull. simpl. by rewrite split_at_app. Qed.

Lemma ReadFull_short d e n : (length d < n)%nat → ∃ er, ReadFull (mkReader d e) n = (Err er, mkReader [] e).
Proof. intros H. unfold ReadFull. simpl. rewrite (proj2 (split_at_None _ _)) by done. eauto. Qed.

(** A frame at the head of the stream that fits the buffer is read whole. *)
Lemma readFrame_frame {a : GOARCH} b rest e buf :
  (length b ≤ buf)%nat → Z.of_nat buf < 2 ^ 31 →
  readFrame (mkReader (frame_bytes b ++ rest) e) buf = (Ok b, mkReader rest e).
Proof.
  intros Hb H31. unfold readFrame, frame_bytes. rewrite <-app_assoc.
  rewrite ReadFull_app by done.
  rewrite len32_small, Uint32_Put, to_int_small by lia.
  rewrite (proj2 (Z.ltb_ge _ _)) by lia.
  destruct (Z.eqb_spec (Z.of_nat (length b)) 0) as [H0|H0].
  - destruct b; [done|simpl in H0; lia].
  - rewrite Nat2Z.id. by apply ReadFull_app.
Qed.

(** Cut anywhere inside a frame, the stream yields an error and no frame. *)
Lemma readFrame_cut {a : GOARCH} b k e buf :
  (length b ≤ buf)%nat → Z.of_nat buf < 2 ^ 31 → (k < length (frame_bytes b))%nat →
  ∃ er r, readFrame (mkReader (take k (frame_bytes b)) e) buf = (Err er, r).
Proof.
  intros Hb H31 Hk. unfold readFrame, frame_bytes in *. rewrite length_app, PutUint32_length in Hk.
  destruct (decide (k < 4)%nat).
  - destruct (ReadFull_short (take k (PutUint32 (len32 b) ++ b)) e 4) as [er ->]; [|by eauto].
    rewrite length_take. lia.
  - rewrite take_app_ge by (rewrite PutUint32_length; lia).
    rewrite PutUint32_length, ReadFull_app by done.
    rewrite len32_small, Uint32_Put, to_int_small by lia. rewrite (proj2 (Z.ltb_ge _ _)) by lia.
    rewrite (proj2 (Z.eqb_neq _ _)) by lia. rewrite Nat2Z.id.
    destruct (ReadFull_short (take (k - 4) b) e (length b)) as [er Her];
      [rewrite length_take; lia|]. rewrite Her. by eauto.
Qed.

Lemma readFrame_shrinks {a : GOARCH} r buf b r' :
  readFrame r buf = (Ok b, r') → (length (r_data r') < length (r_data r))%nat.
Proof.
  unfold readFrame, ReadFull. destruct (split_at 4 (r_data r)) as [[h d]|] eqn:E; [|by repeat case_decide; case_match].
  apply split_at_Some in E as [-> Hh]. rewrite length_app. cbn [r_data r_eof].
  repeat case_match; intros; simplify_eq/=; try lia.
  apply split_at_Some in H2 as [-> ?]. rewrite length_app. lia.
Qed.

(** Writing to a stream with enough room appends the frame. *)
Lemma writeFrame_room w b :
  (∀ k, w_room w = Some k → (length (frame_bytes b) ≤ k)%nat) →
  writeFrame w b = (mkWriter (w_out w ++ frame_bytes b)
    ((λ k, k - length (frame_bytes b))%nat <$> w_room w), false).
Proof.
  intros Hk. unfold writeFrame, Write, frame_bytes in *. rewrite length_app in *.
  rewrite PutUint32_length in *. destruct w as [out [k|]]; cbn [w_room w_out] in *.
  - specialize (Hk k eq_refl). rewrite decide_True by lia. cbn [w_room w_out].
    case_decide as Hl.
    + apply nil_length_inv in Hl as ->. by rewrite app_nil_r.
    + rewrite decide_True by lia.
      rewrite <-app_assoc. cbn. do 3 f_equal. lia.
  - case_decide as Hl; [apply nil_length_inv in Hl as ->; by rewrite app_nil_r|].
    by rewrite <-app_assoc.
Qed.

(** With too little room it writes a proper prefix of the frame and fails. *)
Lemma writeFrame_full w b k :
  w_room w = Some k → (k < length (frame_bytes b))%nat →
  writeFrame w b = (mkWriter (w_out w ++ take k (frame_bytes b)) (Some O), true).
Proof.
  intros Hr Hk. unfold writeFrame, Write, frame_bytes in *. rewrite Hr.
  rewrite length_app in Hk. rewrite PutUint32_length in *.
  case_decide as H4.
  - rewrite take_app_ge by done. rewrite PutUint32_length. simpl.
    rewrite !decide_False by lia. by rewrite <-app_assoc.
  - rewrite take_app_le by (rewrite PutUint32_length; lia). done.
Qed.

(** The bytes of a sequence of frames. *)
Definition stream (ms : list (list byte)) : list byte := concat (map frame_bytes ms).

(** A datagram a UDP socket can hold. *)
Definition fits (m : list byte) : Prop := (length m ≤ maxDatagram)%nat.

Lemma fits_32 m : fits m → Z.of_nat (length m) < 2 ^ 32.
Proof. unfold fits, maxDatagram. lia. Qed.
#[export] Hint Resolve fits_32 : peel.

(** What of the stream a tunnel with some room takes. *)
Definition accepted (room : option nat) (s : list byte) : list byte :=
  match room with None => s | Some k => take k s end.

Lemma pipe_to_tunnel_out ms w :
  Forall fits ms → w_out (pipe_to_tunnel ms w) = w_out w ++ accepted (w_room w) (stream ms).
Proof.
  intros Hms. revert w. induction Hms as [|m ms Hm _ IH]; intros w; cbn [pipe_to_tunnel].
  { destruct (w_room w) as [k|]; unfold stream; simpl; by rewrite ?take_nil, app_nil_r. }
  rewrite firstn_all2 by exact Hm. change (stream (m :: ms)) with (frame_bytes m ++ stream ms).
  destruct (w_room w) as [k|] eqn:Er.
  - destruct (decide (k < length (frame_bytes m))%nat).
    + rewrite (writeFrame_full _ _ _ Er) by done. cbn [w_out accepted].
      by rewrite take_app_le by lia.
    + rewrite writeFrame_room by (intros; simplify_eq; lia).
      rewrite IH, Er. cbn [w_out w_room accepted fmap option_fmap option_map].
      rewrite <-app_assoc. f_equal. by rewrite take_app_ge by lia.
  - rewrite writeFrame_room by (intros; simplify_eq). rewrite IH, Er.
    cbn [w_out w_room accepted fmap option_fmap option_map].
    by rewrite <-app_assoc.
Qed.

(** [n] whole frames of [ms] fit in [k] bytes, and no more. *)
Definition whole_frames (ms : list (list byte)) (room : option nat) (n : nat) : Prop :=
  (n ≤ length ms)%nat ∧
  match room with
  | None => n = length ms
  | Some k => (length (stream (take n ms)) ≤ k)%nat ∧
              ((n < length ms)%nat → (k < length (stream (take (S n) ms)))%nat)
  end.

Lemma whole_frames_cons m ms room n :
  (match room with None => True | Some k => length (frame_bytes m) ≤ k end)%nat →
  whole_frames ms ((λ k, k - length (frame_bytes m))%nat <$> room) n →
  whole_frames (m :: ms) room (S n).
Proof.
  unfold whole_frames, stream. intros Hk [Hn H]. split; [simpl; lia|].
  destruct room as [k|]; cbn [fmap option_fmap option_map length take map concat] in *; [|lia].
  rewrite !length_app in *. destruct H as [H1 H2]. split; [lia|]. intros.
  specialize (H2 ltac:(lia)). cbn [take] in *.
  destruct ms as [|m' ms]; cbn [length take map concat] in *; [lia|]. lia.
Qed.

Lemma frame_bytes_pos m : (4 ≤ length (frame_bytes m))%nat.
Proof. unfold frame_bytes. rewrite length_app, PutUint32_length. lia. Qed.

Lemma pipe_from_stream {a : GOARCH} ms room e fuel sent :
  Forall fits ms → (length (accepted room (stream ms)) < fuel)%nat →
  ∃ n, whole_frames ms room n ∧
    pipe_from_tunnel fuel (mkReader (accepted room (stream ms)) e) None sent = sent ++ take n ms.
Proof.
  intros Hms. revert room fuel sent. induction Hms as [|m ms Hm _ IH]; intros room fuel sent Hfuel.
  { exists O. split; [unfold whole_frames; destruct room; simpl; split_and?; lia|].
    destruct fuel as [|fuel]; [lia|]. rewrite app_nil_r.
    replace (accepted room (stream [])) with (@nil byte) by (destruct room; unfold stream; simpl; by rewrite ?take_nil).
    by destruct e. }
  destruct fuel as [|fuel]; [lia|]. cbn [pipe_from_tunnel].
  change (stream (m :: ms)) with (frame_bytes m ++ stream ms) in *.
  pose proof (frame_bytes_pos m).
  assert (Decision (match room with None => True | Some k => length (frame_bytes m) ≤ k end)%nat) as [Hk|Hk]
    by (destruct room; apply _).
  2:{ destruct room as [k|]; [|done]. exists O. cbn [accepted]. rewrite take_app_le by lia.
      destruct (readFrame_cut m k e maxDatagram) as (er&r&->); [done|apply maxDatagram_31|lia|].
      split; [|by rewrite app_nil_r]. unfold whole_frames, stream. cbn [take map concat length]. rewrite app_nil_r. split_and!; lia. }
  assert (accepted room (frame_bytes m ++ stream ms) = frame_bytes m ++
    accepted ((λ k, k - length (frame_bytes m))%nat <$> room) (stream ms)) as E.
  { destruct room as [k|]; [|done]. cbn [accepted fmap option_fmap option_map]. by rewrite take_app_ge by done. }
  rewrite E, length_app in *. rewrite readFrame_frame by (exact Hm || exact maxDatagram_31).
  destruct (IH ((λ k, k - length (frame_bytes m))%nat <$> room) fuel (sent ++ [m])) as (n&Hn&->); [lia|].
  exists (S n). split; [by apply whole_frames_cons|]. by rewrite <-app_assoc.
Qed.

(** ** Properties *)

(** A tunnel preserves datagrams, their boundaries and their order.  If one end
    of a tunnel frames the datagrams [ms] onto it and the connection carries only
    [room] bytes ([None]: no limit), the far end sends exactly the datagrams whose
    frames arrived whole: all of them when nothing is lost, and otherwise a prefix
    of [ms], never a truncated, merged or reordered datagram. *)
Theorem tunnel_preserves_datagrams {a : GOARCH} ms room e :
  Forall fits ms →
  let tunnel := w_out (pipe_to_tunnel ms (mkWriter [] room)) in
  ∃ n, whole_frames ms room n ∧
    pipe_from_tunnel (S (length tunnel)) (mkReader tunnel e) None [] = take n ms.
Proof.
  intros Hms. cbn zeta. rewrite pipe_to_tunnel_out by done. cbn [w_out w_room app].
  apply (pipe_from_stream ms room e); [done|lia].
Qed.

Definition sample_datagrams : list (list byte) := [[x01]; []; [x02; x03]].

Lemma tunnel_preserves_datagrams_witness :
  let tunnel := w_out (pipe_to_tunnel sample_datagrams (mkWriter [] (Some 14%nat))) in
  ∃ n, whole_frames sample_datagrams (Some 14%nat) n ∧
    pipe_from_tunnel (a := Amd64) (S (length tunnel)) (mkReader tunnel true) None [] = take n sample_datagrams.
Proof.
  apply (tunnel_preserves_datagrams (a := Amd64) sample_datagrams (Some 14%nat) true).
  unfold sample_datagrams, fits, maxDatagram. rewrite !Forall_cons. cbn [length].
  split_and!; [lia..|by apply Forall_nil].
Defined.

(** ** Frames are read as they were written *)

Lemma byte_high b n : 8 ≤ n → Z.testbit (byte_Z b) n = false.
Proof.
  intros Hn. pose proof (byte_Z_range b). rewrite <-(Z.mod_small (byte_Z b) (2 ^ 8)) by lia.
  by apply Z.mod_pow2_bits_high; lia.
Qed.

(** One byte of a word that is put together from bytes. *)
Lemma shifted_bit b j k n :
  0 ≤ n < 8 → 0 ≤ k → j = k ∨ j + 8 ≤ k ∨ k + 8 ≤ j → 0 ≤ j →
  Z.testbit (Z.shiftl (byte_Z b) j) (n + k) = if decide (j = k) then Z.testbit (byte_Z b) n else false.
Proof.
  intros Hn Hk Hjk Hj. rewrite Z.shiftl_spec by lia. case_decide; [f_equal; lia|].
  destruct (decide (n + k - j < 0)); [by apply Z.testbit_neg_r|]. apply byte_high. lia.
Qed.

Lemma byte_of_word v k b : 0 ≤ k → (∀ n, 0 ≤ n < 8 → Z.testbit v (n + k) = Z.testbit (byte_Z b) n) → Z_byte (Z.shiftr v k) = b.
Proof.
  intros Hk Hb. apply byte_Z_inj. rewrite Z_byte_Z. change 256 with (2 ^ 8). rewrite <-Z.land_ones by lia.
  apply Z.bits_inj'. intros n Hn. rewrite Z.land_spec. destruct (decide (n < 8)).
  - rewrite Z.ones_spec_low, andb_true_r, Z.shiftr_spec by lia. apply Hb. lia.
  - rewrite Z.ones_spec_high, andb_false_r by lia. by rewrite byte_high by lia.
Qed.

Lemma Put_Uint32 h : length h = 4%nat → PutUint32 (Uint32 h) = h.
Proof.
  destruct h as [|b0 [|b1 [|b2 [|b3 [|]]]]]; try done. intros _. unfold PutUint32.
  set (v := Uint32 _). assert (∀ k n, 0 ≤ n < 8 → 0 ≤ k → Z.testbit v (n + k) =
    Z.testbit (Z.shiftl (byte_Z b3) 0) (n + k) || (Z.testbit (Z.shiftl (byte_Z b2) 8) (n + k) ||
      (Z.testbit (Z.shiftl (byte_Z b1) 16) (n + k) || Z.testbit (Z.shiftl (byte_Z b0) 24) (n + k)))) as Hv.
  { intros k n Hn Hk. unfold v, Uint32. by rewrite !Z.lor_spec, Z.shiftl_0_r. }
  assert (Z_byte (Z.shiftr v 24) = b0 ∧ Z_byte (Z.shiftr v 16) = b1 ∧ Z_byte (Z.shiftr v 8) = b2 ∧ Z_byte (Z.shiftr v 0) = b3) as (-> & -> & -> & H).
  { split_and!; (apply byte_of_word; [lia|]; intros n Hn; rewrite Hv, !shifted_bit by lia);
      repeat (rewrite decide_True by lia || rewrite decide_False by lia); by rewrite ?orb_false_r. }
  rewrite Z.shiftr_0_r in H. by rewrite H.
Qed.

(** A frame that was read was at the head of the stream, whole. *)
Lemma readFrame_Ok {a : GOARCH} d e buf m r :
  Z.of_nat buf < 2 ^ 32 → readFrame (mkReader d e) buf = (Ok m, r) → d = frame_bytes m ++ r_data r ∧ r_eof r = e ∧ (length m ≤ buf)%nat.
Proof.
  intros Hbuf. unfold readFrame, ReadFull. cbn [r_data r_eof]. destruct (split_at 4 d) as [[h rest]|] eqn:E; [|by repeat case_decide].
  apply split_at_Some in E as [-> Hh]. cbn [r_data r_eof].
  assert (0 ≤ Uint32 h) as Hpos.
  { destruct h as [|b0 [|b1 [|b2 [|b3 [|]]]]]; try done. unfold Uint32. rewrite !Z.lor_nonneg, !Z.shiftl_nonneg.
    pose proof (byte_Z_range b0). pose proof (byte_Z_range b1). pose proof (byte_Z_range b2). pose proof (byte_Z_range b3). lia. }
  assert (∀ m, Z.of_nat (length m) = Uint32 h → Uint32 h ≤ Z.of_nat buf → frame_bytes m = h ++ m) as Hf.
  { intros m' Hm Hle. unfold frame_bytes, len32. by rewrite Hm, Z.mod_small, Put_Uint32 by (done || lia). }
  destruct (Z.of_nat buf <? to_int (Uint32 h)); [done|].
  destruct (Z.eqb_spec (Uint32 h) 0) as [H0|H0].
  - intros [= <- <-]. cbn [r_data r_eof length]. rewrite Hf by (cbn; lia). rewrite app_nil_r. split_and!; [done|done|lia].
  - destruct (Z.ltb_spec (Z.of_nat buf) (Uint32 h)); [done|].
    destruct (split_at (Z.to_nat (Uint32 h)) rest) as [[x y]|] eqn:E2; [|by repeat case_decide].
    apply split_at_Some in E2 as [-> Hx]. intros [= <- <-]. cbn [r_data r_eof].
    rewrite Hf, <-app_assoc by lia. split_and!; [done|done|lia].
Qed.

Lemma Uint32_range h : length h = 4%nat → 0 ≤ Uint32 h < 2 ^ 32.
Proof.
  destruct h as [|b0 [|b1 [|b2 [|b3 [|]]]]]; try done. intros _. set (v := Uint32 _).
  assert (v = v `mod` 2 ^ 32) as ->; [|by apply Z.mod_pos_bound]. rewrite <-Z.land_ones by lia.
  apply Z.bits_inj'. intros n Hn. rewrite Z.land_spec. destruct (decide (n < 32)).
  - by rewrite Z.ones_spec_low, andb_true_r by lia.
  - rewrite Z.ones_spec_high, andb_false_r by lia. unfold v, Uint32. rewrite !Z.lor_spec, !Z.shiftl_spec by lia.
    by rewrite !byte_high by lia.
Qed.

Lemma ReadFull_cases d e n :
  (∃ a b, d = a ++ b ∧ length a = n ∧ ReadFull (mkReader d e) n = (Ok a, mkReader b e)) ∨
  ((length d < n)%nat ∧ ReadFull (mkReader d e) n =
    (Err (if e then if decide (d = []) then ReadEOF else ReadUnexpectedEOF else ReadOther), mkReader [] e)).
Proof.
  unfold ReadFull. cbn [r_data r_eof]. destruct (split_at n d) as [[a b]|] eqn:E.
  - apply split_at_Some in E as [-> Hn]. left. eauto.
  - apply split_at_None in E. by right.
Qed.

(** C30. Every stream of bytes is dealt with in exactly one of four ways, on every
    architecture peel is released for.  It begins with a whole frame that fits
    the buffer, and [readFrame] returns that frame and leaves what follows it; or
    its first four bytes announce more than the buffer holds, and it is refused
    with nothing but the header taken; or, on 386 alone, they announce [2 ^ 31]
    bytes or more, and the call panics; or it ends inside a frame that would fit,
    and the error tells whether it ended between two calls ([io.EOF]), inside
    one, or failed.  So with a 64-bit [int] no length of a frame makes it panic. *)
Theorem readFrame_bounds {a : GOARCH} d e buf :
  Z.of_nat buf < 2 ^ 32 → (a = I386 → Z.of_nat buf < 2 ^ 31) →
  match readFrame (mkReader d e) buf with
  | (Ok m, r) => d = frame_bytes m ++ r_data r ∧ (length m ≤ buf)%nat
  | (Err (FrameTooLarge n k), r) =>
      k = buf ∧ Z.of_nat buf < n < (if decide (a = I386) then 2 ^ 31 else 2 ^ 32) ∧ d = PutUint32 n ++ r_data r
  | (Err SlicePanic, r) => a = I386 ∧ ∃ n, 2 ^ 31 ≤ n < 2 ^ 32 ∧ d = PutUint32 n ++ r_data r
  | (Err err, r) =>
      r_data r = [] ∧
      ∃ h, err = (if e then if decide (h = []) then ReadEOF else ReadUnexpectedEOF else ReadOther) ∧
        (d = h ∧ (length h < 4)%nat ∨
         ∃ n, 0 < n ≤ Z.of_nat buf ∧ d = PutUint32 n ++ h ∧ Z.of_nat (length h) < n)
  end.
Proof.
  intros Hbuf Hint. unfold readFrame. destruct (ReadFull_cases d e 4) as [(hdr & rest & -> & Hh & ->)|[Hd ->]].
  2:{ destruct e; [case_decide|]; (split; [done|]); exists d; (split; [|by left]); [by rewrite decide_True|by rewrite decide_False|done]. }
  pose proof (Uint32_range hdr Hh) as Hr. pose proof (Put_Uint32 hdr Hh) as Hp.
  rewrite (to_int_uint32 (Uint32 hdr)) by done.
  destruct (decide (a = I386 ∧ 2 ^ 31 ≤ Uint32 hdr)) as [[Ha H31]|Hsmall].
  { rewrite (proj2 (Z.ltb_ge _ _)), (proj2 (Z.eqb_neq _ _)), (proj2 (Z.ltb_lt _ _)) by (specialize (Hint Ha); lia).
    split; [done|]. exists (Uint32 hdr). rewrite Hp. split; [lia|done]. }
  destruct (Z.ltb_spec (Z.of_nat buf) (Uint32 hdr)).
  { split_and!; [done|done| |by rewrite Hp]. case_decide; [|lia]. destruct (decide (2 ^ 31 ≤ Uint32 hdr)); [tauto|lia]. }
  assert (∀ m, Z.of_nat (length m) = Uint32 hdr → frame_bytes m = hdr ++ m) as Hf.
  { intros m Hm. unfold frame_bytes, len32. by rewrite Hm, Z.mod_small, Hp by lia. }
  destruct (Z.eqb_spec (Uint32 hdr) 0) as [H0|H0].
  { cbn [r_data length]. rewrite Hf by (cbn; lia). rewrite app_nil_r. split; [done|lia]. }
  destruct (ReadFull_cases rest e (Z.to_nat (Uint32 hdr))) as [(m & b & -> & Ha & ->)|[Hd ->]].
  - rewrite Hf by lia. rewrite <-app_assoc. split; [done|lia].
  - assert (∃ n, 0 < n ≤ Z.of_nat buf ∧ hdr ++ rest = PutUint32 n ++ rest ∧ Z.of_nat (length rest) < n) as Hcut.
    { exists (Uint32 hdr). rewrite Hp. split_and!; [lia..|done|lia]. }
    destruct e; [case_decide|]; (split; [done|]); exists rest; (split; [|by right]); [by rewrite decide_True|by rewrite decide_False|done].
Qed.

(** The length 4294967295: refused on amd64, a panic on 386. *)
Definition longest_frame : reader := mkReader [xff; xff; xff; xff; x41] false.

Lemma readFrame_386 : readFrame (a := I386) longest_frame maxDatagram = (Err SlicePanic, mkReader [x41] false).
Proof. unfold readFrame, ReadFull. cbn. reflexivity. Qed.

Lemma readFrame_bounds_witness :
  readFrame (a := Amd64) longest_frame maxDatagram = (Err (FrameTooLarge 4294967295 maxDatagram), mkReader [x41] false) ∧
  Z.of_nat maxDatagram < 4294967295 < 2 ^ 32.
Proof.
  assert (readFrame (a := Amd64) longest_frame maxDatagram =
    (Err (FrameTooLarge 4294967295 maxDatagram), mkReader [x41] false)) as H.
  { unfold readFrame, ReadFull. cbn. reflexivity. }
  pose proof (readFrame_bounds (a := Amd64) [xff; xff; xff; xff; x41] false maxDatagram maxDatagram_32 (λ _, maxDatagram_31)) as Hb.
  unfold longest_frame in H. rewrite H in Hb. split; [exact H|]. exact (proj1 (proj2 Hb)).
Defined.

(** [readFrame] never returns more than the buffer holds. *)
Lemma readFrame_bounded {a : GOARCH} r buf b r' :
  readFrame r buf = (Ok b, r') → (length b ≤ buf)%nat.
Proof.
  unfold readFrame, ReadFull. destruct (split_at 4 (r_data r)) as [[h d]|] eqn:E.
  2:{ by repeat case_match. }
  apply split_at_Some in E as [_ Hh]. cbn [r_data r_eof].
  destruct (Z.of_nat buf <? to_int (Uint32 h)); [by intros [=]|].
  destruct (Z.eqb_spec (Uint32 h) 0); [intros [= <- _]; simpl; lia|].
  destruct (Z.ltb_spec (Z.of_nat buf) (Uint32 h)); [by intros [=]|].
  destruct (split_at (Z.to_nat (Uint32 h)) d) as [[x y]|] eqn:E2; [|by intros [=]].
  apply split_at_Some in E2 as [-> Hx]. intros [= <- _].
  pose proof (Uint32_range h Hh). lia.
Qed.
