(* ===== verification/LoWatcher.v ===== *)
(** * internal/lo: the watcher

    [watcher.go]: the set of listeners a container advertises, the channels of the
    subscribers that follow it, and the registry of listeners excluded because
    they are proxies.  Every operation holds the mutex, so it is one atomic step;
    the order in which Go ranges over a map is arbitrary, so it is an argument. *)

From stdpp Require Import sorting.
From S2P Require Import Prelude GoStrings LoTypes.

(** ** State *)

Definition subscriberBuffer : nat := 256.

(** Durations are in nanoseconds. *)
Definition Second : Z := 1000000000.
Definition Minute : Z := 60 * Second.
Definition ProcScanFastInterval : Z := 1 * Second.
Definition ProcScanFastWindow : Z := 1 * Minute.
Definition ProcScanSlowInterval : Z := 5 * Second.

Definition scanInterval (elapsed : Z) : Z :=
  if elapsed <? ProcScanFastWindow then ProcScanFastInterval else ProcScanSlowInterval.

(** When [Run] scans, with timers that fire on time and scans that take none: the
    [n]th scan, counted from zero, in nanoseconds after the first. *)
Fixpoint Run_scan (n : nat) : Z :=
  match n with
  | O => 0
  | S n => Run_scan n + scanInterval (Run_scan n)
  end.

(** Every second for the first minute, then every five seconds. *)
Lemma Run_schedule n :
  Run_scan n = if decide (n ≤ 60)%nat then Z.of_nat n * Second else Minute + (Z.of_nat n - 60) * (5 * Second).
Proof.
  induction n as [|n IH]; [done|]. cbn [Run_scan]. rewrite IH. unfold scanInterval, ProcScanFastWindow, ProcScanFastInterval, ProcScanSlowInterval, Minute, Second.
  destruct (decide (n ≤ 60)%nat) as [Hn|Hn], (decide (S n ≤ 60)%nat) as [Hs|Hs]; try lia.
  - destruct (Z.ltb_spec (Z.of_nat n * 1000000000) (1 * (60 * 1000000000))); lia.
  - assert (n = 60%nat) as -> by lia. reflexivity.
  - destruct (Z.ltb_spec (60 * 1000000000 + (Z.of_nat n - 60) * (5 * 1000000000)) (1 * (60 * 1000000000))); lia.
Qed.

(** A buffered channel: what is queued, and whether it is closed.  A closed channel
    still delivers what is queued. *)
Record chan := mkChan { ch_buf : list Event; ch_closed : bool }.

(** [w_chans] is the heap of the channels made by [Subscribe]; [w_subs] holds the
    identities of those still in the [subs] map.  [current] only ever holds [true],
    so it is a set. *)
Record Watcher := mkWatcher {
  w_current : gset Listen;
  w_excluded : gmap Listen Z;
  w_subs : gset nat;
  w_chans : gmap nat chan;
}.

Definition NewWatcher : Watcher := mkWatcher ∅ ∅ ∅ ∅.

(** [w.excluded[l]]: the zero value when absent. *)
Definition excluded_count (w : Watcher) (l : Listen) : Z := default 0 (w_excluded w !! l).

(** ** publish *)

(** The body of [publish]'s loop: send without blocking, or close and drop. *)
Definition publish_to (ev : Event) (w : Watcher) (ch : nat) : Watcher :=
  match w_chans w !! ch with
  | None => w
  | Some c =>
      if decide (length (ch_buf c) < subscriberBuffer)%nat then
        mkWatcher (w_current w) (w_excluded w) (w_subs w)
          (<[ch := mkChan (ch_buf c ++ [ev]) (ch_closed c)]> (w_chans w))
      else
        mkWatcher (w_current w) (w_excluded w) (w_subs w ∖ {[ch]})
          (<[ch := mkChan (ch_buf c) true]> (w_chans w))
  end.

(** [publish], ranging over the subscribers in [order]. *)
Definition publish_in (order : list nat) (ev : Event) (w : Watcher) : Watcher :=
  foldl (publish_to ev) w order.
Definition publish (ev : Event) (w : Watcher) : Watcher :=
  publish_in (elements (w_subs w)) ev w.

(** ** scanOnce *)

Definition scan_next (w : Watcher) (raw : gset Listen) : gset Listen :=
  filter (λ l, ¬ (0 < excluded_count w l)) raw.

(** The two loops of [scanOnce], ranging over [next] and over [w.current]. *)
Definition publish_added (next_order : list Listen) (w : Watcher) : Watcher :=
  foldl (λ w l, if decide (l ∈ w_current w) then w else publish (ev_add l) w) w next_order.
Definition publish_removed (next : gset Listen) (current_order : list Listen) (w : Watcher) : Watcher :=
  foldl (λ w l, if decide (l ∈ next) then w else publish (ev_remove l) w) w current_order.

(** [raw] is what [scanProcNet] returned; on an error nothing happens. *)
Definition scanOnce_in (next_order current_order : list Listen) (raw : option (gset Listen))
    (w : Watcher) : Watcher :=
  match raw with
  | None => w
  | Some raw =>
      let next := scan_next w raw in
      let w := publish_added next_order w in
      let w := publish_removed next current_order w in
      mkWatcher next (w_excluded w) (w_subs w) (w_chans w)
  end.

(** ** Subscribe, cancel, Exclude, Unexclude *)

(** A strict sort by [Listen.String]; listens that print alike come in some order. *)
Definition listen_le (a b : Listen) : Prop :=
  string_ltb (Listen_String b) (Listen_String a) = false.
#[export] Instance listen_le_dec : RelDecision listen_le.
Proof. unfold RelDecision, listen_le. intros; apply _. Defined.

(** The new channel's identity, the snapshot and the new state. *)
Definition Subscribe (w : Watcher) : nat * list Listen * Watcher :=
  let snapshot := merge_sort listen_le (elements (w_current w)) in
  let ch := fresh (dom (w_chans w)) in
  (ch, snapshot,
   mkWatcher (w_current w) (w_excluded w) ({[ch]} ∪ w_subs w)
     (<[ch := mkChan [] false]> (w_chans w))).

Definition cancel (ch : nat) (w : Watcher) : Watcher :=
  if decide (ch ∈ w_subs w) then
    mkWatcher (w_current w) (w_excluded w) (w_subs w ∖ {[ch]})
      (alter (λ c, mkChan (ch_buf c) true) ch (w_chans w))
  else w.

Definition Exclude (l : Listen) (w : Watcher) : Watcher :=
  mkWatcher (w_current w) (<[l := excluded_count w l + 1]> (w_excluded w)) (w_subs w) (w_chans w).

Definition Unexclude (l : Listen) (w : Watcher) : Watcher :=
  if excluded_count w l <=? 1 then
    mkWatcher (w_current w) (delete l (w_excluded w)) (w_subs w) (w_chans w)
  else
    mkWatcher (w_current w) (<[l := excluded_count w l - 1]> (w_excluded w)) (w_subs w) (w_chans w).

(** [<-events]: the head of the queue, if any. *)
Definition receive (ch : nat) (w : Watcher) : option (Event * Watcher) :=
  match w_chans w !! ch with
  | Some (mkChan (ev :: buf) closed) =>
      Some (ev, mkWatcher (w_current w) (w_excluded w) (w_subs w)
                  (<[ch := mkChan buf closed]> (w_chans w)))
  | _ => None
  end.

(** ** The exclusion registry

    What the watcher promises to the code that proxies on a peer's behalf: a
    counter per listener.  The peer managers are verified against this interface. *)

Class Registry (W : Type) := {
  reg_exclude : Listen → W → W;
  reg_unexclude : Listen → W → W;
  reg_count : W → Listen → Z;
  reg_count_exclude l w l' :
    reg_count (reg_exclude l w) l' = reg_count w l' + (if decide (l = l') then 1 else 0);
  reg_count_unexclude l w l' :
    reg_count (reg_unexclude l w) l' =
      if decide (l = l') then Z.max 0 (reg_count w l' - 1) else reg_count w l';
}.

Lemma excluded_count_Exclude l w l' :
  excluded_count (Exclude l w) l' = excluded_count w l' + (if decide (l = l') then 1 else 0).
Proof.
  unfold excluded_count at 1. cbn [Exclude w_excluded]. rewrite lookup_insert.
  case_decide; subst; simpl; [done|]. unfold excluded_count. lia.
Qed.

Lemma excluded_count_Unexclude l w l' :
  excluded_count (Unexclude l w) l' =
    if decide (l = l') then Z.max 0 (excluded_count w l' - 1) else excluded_count w l'.
Proof.
  unfold Unexclude. destruct (Z.leb_spec (excluded_count w l) 1) as [H|H];
    unfold excluded_count at 1; cbn [w_excluded].
  - rewrite lookup_delete. case_decide; subst; simpl; [lia|done].
  - rewrite lookup_insert. case_decide; subst; simpl; [lia|done].
Qed.

#[export] Instance Watcher_Registry : Registry Watcher := {|
  reg_exclude := Exclude;
  reg_unexclude := Unexclude;
  reg_count := excluded_count;
  reg_count_exclude := excluded_count_Exclude;
  reg_count_unexclude := excluded_count_Unexclude;
|}.

(** ** Lemmas on publish *)

Definition full (c : chan) : Prop := (subscriberBuffer ≤ length (ch_buf c))%nat.
#[export] Instance full_dec c : Decision (full c).
Proof. unfold full. apply _. Defined.

(** What one send does to one channel. *)
Definition deliver (ev : Event) (c : chan) : chan :=
  if decide (full c) then mkChan (ch_buf c) true else mkChan (ch_buf c ++ [ev]) (ch_closed c).

Lemma publish_to_chans ev w ch ch' :
  w_chans (publish_to ev w ch) !! ch' =
    if decide (ch = ch') then deliver ev <$> w_chans w !! ch' else w_chans w !! ch'.
Proof.
  unfold publish_to, deliver. destruct (w_chans w !! ch) as [c|] eqn:E.
  - case_decide as Hl; cbn [w_chans]; rewrite lookup_insert; case_decide; subst; try done;
      rewrite E; simpl; [rewrite decide_False|rewrite decide_True]; unfold full; (done || lia).
  - case_decide; subst; by rewrite ?E.
Qed.

Lemma publish_to_subs ev w ch ch' :
  ch' ∈ w_subs (publish_to ev w ch) ↔
  ch' ∈ w_subs w ∧ ¬ (ch = ch' ∧ ∃ c, w_chans w !! ch' = Some c ∧ full c).
Proof.
  unfold publish_to. destruct (w_chans w !! ch) as [c|] eqn:E.
  - case_decide as Hl; cbn [w_subs].
    + split; [|by intros []]. intros ?. split; [done|]. intros [-> (?&?&Hf)].
      simplify_eq. unfold full in Hf. lia.
    + rewrite elem_of_difference, elem_of_singleton. split.
      * intros [? Hne]. split; [done|]. by intros [-> _].
      * intros [? Hn]. split; [done|]. intros ->. apply Hn. split; [done|].
        exists c. split; [done|]. unfold full. lia.
  - split; [|by intros []]. intros ?. split; [done|]. intros [-> (?&?&_)]. congruence.
Qed.

Lemma publish_in_static order ev w :
  w_current (publish_in order ev w) = w_current w ∧ w_excluded (publish_in order ev w) = w_excluded w.
Proof.
  revert w. induction order as [|ch order IH]; intros w; [done|].
  change (publish_in (ch :: order) ev w) with (publish_in order ev (publish_to ev w ch)).
  destruct (IH (publish_to ev w ch)) as [-> ->]. unfold publish_to.
  destruct (w_chans w !! ch); [|done]. by case_decide.
Qed.

Lemma publish_in_chans order ev w ch :
  NoDup order →
  w_chans (publish_in order ev w) !! ch =
    if decide (ch ∈ order) then deliver ev <$> w_chans w !! ch else w_chans w !! ch.
Proof.
  intros Hnd. revert w. induction Hnd as [|x order Hx _ IH]; intros w; [done|].
  change (publish_in (x :: order) ev w) with (publish_in order ev (publish_to ev w x)).
  rewrite IH, publish_to_chans. destruct (decide (x = ch)) as [->|].
  - rewrite decide_False by done. by rewrite decide_True by (by left).
  - destruct (decide (ch ∈ order)) as [Hi|Hi].
    + by rewrite decide_True by (by right).
    + by rewrite decide_False by (rewrite not_elem_of_cons; auto).
Qed.

Lemma publish_in_subs order ev w ch :
  NoDup order →
  ch ∈ w_subs (publish_in order ev w) ↔
  ch ∈ w_subs w ∧ ¬ (ch ∈ order ∧ ∃ c, w_chans w !! ch = Some c ∧ full c).
Proof.
  intros Hnd. revert w. induction Hnd as [|x order Hx _ IH]; intros w.
  { split; [|by intros []]. intros. split; [done|]. by intros [[]%not_elem_of_nil _]. }
  change (publish_in (x :: order) ev w) with (publish_in order ev (publish_to ev w x)).
  rewrite IH, publish_to_subs, publish_to_chans, elem_of_cons. destruct (decide (x = ch)) as [->|Hne].
  - tauto.
  - assert (ch ≠ x) by done. tauto.
Qed.

Lemma Watcher_eq w1 w2 :
  w_current w1 = w_current w2 → w_excluded w1 = w_excluded w2 →
  w_subs w1 = w_subs w2 → w_chans w1 = w_chans w2 → w1 = w2.
Proof. destruct w1, w2; simpl. by intros -> -> -> ->. Qed.

(** ** Subscribers' views

    A subscriber starts from its snapshot and applies the events it receives. *)

Definition apply_event (view : gset Listen) (ev : Event) : gset Listen :=
  if decide (ev_op ev = "add") then {[ev_listen ev]} ∪ view
  else if decide (ev_op ev = "remove") then view ∖ {[ev_listen ev]}
  else view.
Definition apply_events : gset Listen → list Event → gset Listen := foldl apply_event.

(** A watcher and the views of its subscribers. *)
Record world := mkWorld { wd_watcher : Watcher; wd_views : gmap nat (gset Listen) }.

Inductive step : world → world → Prop :=
  | step_scan w vs raw next_order current_order :
      (∀ r, raw = Some r → next_order ≡ₚ elements (scan_next w r)) →
      current_order ≡ₚ elements (w_current w) →
      step (mkWorld w vs) (mkWorld (scanOnce_in next_order current_order raw w) vs)
  | step_subscribe w vs ch snapshot w' :
      Subscribe w = (ch, snapshot, w') →
      step (mkWorld w vs) (mkWorld w' (<[ch := list_to_set snapshot]> vs))
  | step_cancel w vs ch :
      step (mkWorld w vs) (mkWorld (cancel ch w) vs)
  | step_exclude w vs l :
      step (mkWorld w vs) (mkWorld (Exclude l w) vs)
  | step_unexclude w vs l :
      step (mkWorld w vs) (mkWorld (Unexclude l w) vs)
  | step_receive w vs ch ev w' v :
      receive ch w = Some (ev, w') → vs !! ch = Some v →
      step (mkWorld w vs) (mkWorld w' (<[ch := apply_event v ev]> vs)).

Definition reachable : world → Prop := rtc step (mkWorld NewWatcher ∅).

(** Every subscriber's queue leads from its view to [S]; channels are open exactly
    for subscribers; no queue overflows. *)
Definition tracks (S : gset Listen) (w : Watcher) (vs : gmap nat (gset Listen)) : Prop :=
  (∀ ch, ch ∈ w_subs w → ∃ c v, w_chans w !! ch = Some c ∧ vs !! ch = Some v ∧
     apply_events v (ch_buf c) = S) ∧
  (∀ ch c, w_chans w !! ch = Some c →
     (length (ch_buf c) ≤ subscriberBuffer)%nat ∧ (ch_closed c = false ↔ ch ∈ w_subs w)).

Definition world_inv (wd : world) : Prop :=
  tracks (w_current (wd_watcher wd)) (wd_watcher wd) (wd_views wd).

Lemma tracks_publish S w vs ev :
  tracks S w vs → tracks (apply_event S ev) (publish ev w) vs.
Proof.
  intros [Hs Hc]. unfold publish. pose proof (NoDup_elements (w_subs w)) as Hnd. split.
  - intros ch [Hin Hnf]%publish_in_subs; [|done].
    destruct (Hs ch Hin) as (c&v&Ec&Ev&Hv).
    rewrite publish_in_chans, decide_True, Ec by (done || by apply elem_of_elements).
    exists (deliver ev c), v. split_and!; [done..|]. unfold deliver. rewrite decide_False.
    + cbn. unfold apply_events in *. by rewrite foldl_snoc, Hv.
    + intros Hf. apply Hnf. split; [by apply elem_of_elements|by exists c].
  - intros ch c'. rewrite publish_in_chans, publish_in_subs by done.
    case_decide as Hin; rewrite elem_of_elements in *.
    + intros (c&Ec&->)%fmap_Some. destruct (Hc _ _ Ec) as [Hl Hcl]. unfold deliver.
      case_decide as Hf; cbn [ch_buf ch_closed]; (split; [|]).
      * done.
      * split; [done|]. intros [_ Hn]. exfalso. apply Hn. eauto.
      * rewrite length_app. simpl. unfold full in Hf. lia.
      * rewrite Hcl. split; [|by intros []]. intros _. split; [done|].
        intros [_ (?&?&?)]. by simplify_eq.
    + intros Ec. destruct (Hc _ _ Ec) as [Hl Hcl]. split; [done|]. rewrite Hcl. tauto.
Qed.

Lemma publish_static ev w :
  w_current (publish ev w) = w_current w ∧ w_excluded (publish ev w) = w_excluded w.
Proof. apply publish_in_static. Qed.

Lemma publish_added_static order w :
  w_current (publish_added order w) = w_current w ∧ w_excluded (publish_added order w) = w_excluded w.
Proof.
  unfold publish_added. revert w. induction order as [|l order IH]; intros w; [done|]. cbn.
  case_decide; [apply IH|]. destruct (IH (publish (ev_add l) w)) as [-> ->]. apply publish_static.
Qed.
Lemma publish_removed_static next order w :
  w_current (publish_removed next order w) = w_current w ∧
  w_excluded (publish_removed next order w) = w_excluded w.
Proof.
  unfold publish_removed. revert w. induction order as [|l order IH]; intros w; [done|]. cbn.
  case_decide; [apply IH|]. destruct (IH (publish (ev_remove l) w)) as [-> ->]. apply publish_static.
Qed.

Lemma tracks_added order w vs S :
  w_current w ⊆ S → tracks S w vs →
  tracks (S ∪ list_to_set order) (publish_added order w) vs.
Proof.
  unfold publish_added. revert w S. induction order as [|l order IH]; intros w S Hsub H; cbn.
  { by rewrite union_empty_r_L. }
  case_decide as Hl.
  - replace (S ∪ ({[l]} ∪ list_to_set order)) with (S ∪ list_to_set order) by set_solver. by apply IH.
  - replace (S ∪ ({[l]} ∪ list_to_set order)) with (apply_event S (ev_add l) ∪ list_to_set order)
      by (unfold apply_event; simpl; set_solver).
    apply IH; [|by apply tracks_publish].
    destruct (publish_static (ev_add l) w) as [-> _]. unfold apply_event; simpl. set_solver.
Qed.

Lemma tracks_removed next order w vs S :
  tracks S w vs →
  tracks (S ∖ (list_to_set order ∖ next)) (publish_removed next order w) vs.
Proof.
  unfold publish_removed. revert w S. induction order as [|l order IH]; intros w S H; cbn.
  { replace (S ∖ (∅ ∖ next)) with S by set_solver. done. }
  case_decide as Hl.
  - replace (S ∖ (({[l]} ∪ list_to_set order) ∖ next)) with (S ∖ (list_to_set order ∖ next))
      by set_solver. by apply IH.
  - replace (S ∖ (({[l]} ∪ list_to_set order) ∖ next))
      with (apply_event S (ev_remove l) ∖ (list_to_set order ∖ next))
      by (unfold apply_event; simpl; set_solver).
    apply IH. by apply tracks_publish.
Qed.

(** ** The invariant is preserved *)

Lemma tracks_ext S w w' vs :
  w_subs w = w_subs w' → w_chans w = w_chans w' → tracks S w vs → tracks S w' vs.
Proof. unfold tracks. by intros -> ->. Qed.

Lemma list_to_set_order {s : gset Listen} {order} : order ≡ₚ elements s → list_to_set order = s.
Proof. intros H. apply set_eq. intros x. rewrite elem_of_list_to_set, H. apply elem_of_elements. Qed.

Lemma tracks_scan next_order current_order r w vs :
  next_order ≡ₚ elements (scan_next w r) → current_order ≡ₚ elements (w_current w) →
  tracks (w_current w) w vs →
  tracks (scan_next w r) (scanOnce_in next_order current_order (Some r) w) vs.
Proof.
  intros Hn Hc H. apply (tracks_added next_order) in H; [|done].
  apply (tracks_removed (scan_next w r) current_order) in H.
  rewrite !list_to_set_order in H by done.
  replace (scan_next w r) with
    ((w_current w ∪ scan_next w r) ∖ (w_current w ∖ scan_next w r)) at 1.
  { eapply tracks_ext; [..|exact H]; done. }
  clear. apply set_eq. intros x. rewrite elem_of_difference, elem_of_union, elem_of_difference.
  destruct (decide (x ∈ scan_next w r)); tauto.
Qed.

Lemma tracks_subscribe w vs ch snapshot w' :
  Subscribe w = (ch, snapshot, w') → tracks (w_current w) w vs →
  tracks (w_current w') w' (<[ch := list_to_set snapshot]> vs).
Proof.
  unfold Subscribe. intros [= <- <- <-] [Hs Hc]. cbn [w_current].
  set (new := fresh (dom (w_chans w))).
  assert (w_chans w !! new = None) as Hnew by (apply not_elem_of_dom, is_fresh).
  split; cbn [w_subs w_chans].
  - intros ch [->%elem_of_singleton|Hin]%elem_of_union.
    + exists (mkChan [] false). eexists. rewrite !lookup_insert_eq. split_and!; [done..|].
      apply list_to_set_order, merge_sort_Permutation.
    + destruct (Hs ch Hin) as (c&v&?&?&?). exists c, v.
      rewrite !lookup_insert_ne by congruence. done.
  - intros ch c. rewrite lookup_insert, elem_of_union, elem_of_singleton. case_decide as Hd.
    + intros [= <-]. simpl. unfold subscriberBuffer. split; [lia|]. split; [by left|done].
    + intros Ec. destruct (Hc _ _ Ec) as [? ->]. split; [done|]. split; [by right|].
      by intros [->|?].
Qed.

Lemma tracks_cancel w vs ch : tracks (w_current w) w vs → tracks (w_current w) (cancel ch w) vs.
Proof.
  unfold cancel. intros [Hs Hc]. case_decide as Hin; [|done]. split; cbn [w_subs w_chans].
  - intros ch' [Hin' Hne]%elem_of_difference. destruct (Hs ch' Hin') as (c&v&?&?&?).
    exists c, v. rewrite lookup_alter_ne by set_solver. done.
  - intros ch' c. rewrite lookup_alter, elem_of_difference, elem_of_singleton. case_decide as Hd.
    + intros (c0&Ec&->)%fmap_Some. subst. simpl. destruct (Hc _ _ Ec). split; [done|].
      split; [done|]. by intros [_ []].
    + intros Ec. destruct (Hc _ _ Ec) as [? ->]. split; [done|]. split; [by split|by intros []].
Qed.

Lemma tracks_receive S w vs ch ev w' v :
  receive ch w = Some (ev, w') → vs !! ch = Some v → tracks S w vs →
  tracks S w' (<[ch := apply_event v ev]> vs).
Proof.
  unfold receive. destruct (w_chans w !! ch) as [[[|e buf] closed]|] eqn:E; [done| |done].
  intros [= -> <-] Hv [Hs Hc]. split; cbn [w_subs w_chans].
  - intros ch' Hin. destruct (Hs ch' Hin) as (c&v'&Ec&Ev&HS). destruct (decide (ch = ch')) as [->|].
    + simplify_eq. rewrite !lookup_insert_eq. eexists _, _. by split_and!.
    + rewrite !lookup_insert_ne by done. eauto.
  - intros ch' c. rewrite lookup_insert. case_decide as Hd; [|by apply Hc].
    intros [= <-]. subst. destruct (Hc _ _ E) as [Hl Hcl]. simpl in *. split; [lia|done].
Qed.

Lemma step_inv wd wd' : step wd wd' → world_inv wd → world_inv wd'.
Proof.
  unfold world_inv. destruct 1 as [w vs [r|] no co Hn Hc|w vs ch sn w' Hsub|w vs ch|w vs l|w vs l|w vs ch ev w' v Hr Hv];
    cbn [wd_watcher wd_views]; intros H.
  - by apply tracks_scan; [apply Hn| |].
  - done.
  - by eapply tracks_subscribe.
  - replace (w_current (cancel ch w)) with (w_current w) by (unfold cancel; by case_decide).
    by apply tracks_cancel.
  - done.
  - unfold Unexclude. by case_match.
  - assert (w_current w' = w_current w) as ->.
    { unfold receive in Hr. by repeat case_match; simplify_eq. }
    by eapply tracks_receive.
Qed.

Lemma reachable_inv wd : reachable wd → world_inv wd.
Proof.
  intros H. eapply rtc_invariant; [exact step_inv|exact H|].
  split; cbn; [set_solver|done].
Qed.

(** ** What a scan delivers *)

Lemma publish_room ev w ch buf :
  ch ∈ w_subs w → w_chans w !! ch = Some (mkChan buf false) → (length buf < subscriberBuffer)%nat →
  ch ∈ w_subs (publish ev w) ∧ w_chans (publish ev w) !! ch = Some (mkChan (buf ++ [ev]) false).
Proof.
  intros Hin Ec Hl. pose proof (NoDup_elements (w_subs w)). unfold publish.
  rewrite publish_in_subs, publish_in_chans, decide_True, Ec by (done || by apply elem_of_elements).
  split; [split; [done|]|].
  - intros [_ (?&[= <-]&Hf)]. unfold full in Hf. simpl in Hf. lia.
  - simpl. unfold deliver. rewrite decide_False; [done|]. unfold full. simpl. lia.
Qed.

(** A loop that publishes an event for some of the elements it ranges over. *)
Lemma publish_loop {A} (skip : Watcher → A → bool) (ev : A → Event) (order : list A) w ch buf :
  (∀ e w x, skip (publish e w) x = skip w x) →
  ch ∈ w_subs w → w_chans w !! ch = Some (mkChan buf false) →
  (length buf + length (filter (λ x, skip w x = false) order) ≤ subscriberBuffer)%nat →
  let w' := foldl (λ w x, if skip w x then w else publish (ev x) w) w order in
  ch ∈ w_subs w' ∧
  w_chans w' !! ch = Some (mkChan (buf ++ map ev (filter (λ x, skip w x = false) order)) false).
Proof.
  intros Hskip. cbn zeta. revert w buf. induction order as [|x order IH]; intros w buf Hin Ec Hl.
  { simpl. by rewrite app_nil_r. }
  rewrite filter_cons in *. destruct (skip w x) eqn:E; cbn [foldl]; rewrite E in *.
  - rewrite decide_False in * by done. by apply IH.
  - rewrite decide_True in * by done. cbn [length map] in *.
    destruct (publish_room (ev x) w ch buf Hin Ec) as [Hin' Ec']; [lia|].
    assert (∀ l : list A, filter (λ y, skip (publish (ev x) w) y = false) l = filter (λ y, skip w y = false) l) as Hf.
    { intros l. apply list_filter_iff. intros y. by rewrite Hskip. }
    specialize (IH _ _ Hin' Ec'). rewrite Hf, length_app in IH. simpl in IH.
    destruct IH as [? ->]; [lia|]. by rewrite <-app_assoc.
Qed.

Definition scan_added (w : Watcher) (order : list Listen) : list Event :=
  map ev_add (filter (λ l, l ∉ w_current w) order).
Definition scan_removed (next : gset Listen) (order : list Listen) : list Event :=
  map ev_remove (filter (λ l, l ∉ next) order).

Lemma filter_bool_decide {A} (P : A → Prop) `{∀ x, Decision (P x)} (l : list A) :
  filter (λ x, bool_decide (P x) = false) l = filter (λ x, ¬ P x) l.
Proof. apply list_filter_iff. intros x. apply bool_decide_eq_false. Qed.

Lemma foldl_ext_decide {A} (P : Watcher → A → Prop) `{∀ w x, Decision (P w x)} (f : Watcher → A → Watcher) w l :
  foldl (λ w x, if decide (P w x) then w else f w x) w l =
  foldl (λ w x, if bool_decide (P w x) then w else f w x) w l.
Proof.
  revert w. induction l as [|x l IH]; intros w; [done|]. simpl. rewrite IH.
  rewrite decide_bool_decide. done.
Qed.

Lemma scan_queue no co r w ch buf :
  ch ∈ w_subs w → w_chans w !! ch = Some (mkChan buf false) →
  (length buf + length (scan_added w no) + length (scan_removed (scan_next w r) co)
     ≤ subscriberBuffer)%nat →
  let w' := scanOnce_in no co (Some r) w in
  ch ∈ w_subs w' ∧
  w_chans w' !! ch =
    Some (mkChan (buf ++ scan_added w no ++ scan_removed (scan_next w r) co) false).
Proof.
  intros Hin Ec Hl. unfold scan_added, scan_removed in *. rewrite !length_map in Hl.
  cbn [scanOnce_in w_subs w_chans].
  destruct (publish_loop (λ w x, bool_decide (x ∈ w_current w)) ev_add no w ch buf) as [Hin1 Ec1];
    [|done|done|rewrite filter_bool_decide; lia|].
  { intros e w0 x. by destruct (publish_static e w0) as [-> _]. }
  rewrite filter_bool_decide in Ec1.
  unfold publish_added. rewrite (foldl_ext_decide (λ w l, l ∈ w_current w)).
  set (w1 := foldl _ w no) in *. unfold publish_removed.
  rewrite (foldl_ext_decide (λ _ l, l ∈ scan_next w r)).
  destruct (publish_loop (λ _ x, bool_decide (x ∈ scan_next w r)) ev_remove co w1 ch
    (buf ++ map ev_add (filter (λ l, l ∉ w_current w) no))) as [Hin2 Ec2]; [done|done|done| |].
  { rewrite filter_bool_decide, length_app, length_map. lia. }
  rewrite filter_bool_decide in Ec2. split; [exact Hin2|]. by rewrite Ec2, <-app_assoc.
Qed.

(** ** Exclusion counts *)

Inductive registry_call := CallExclude (l : Listen) | CallUnexclude (l : Listen).
Definition run_call (w : Watcher) (c : registry_call) : Watcher :=
  match c with CallExclude l => Exclude l w | CallUnexclude l => Unexclude l w end.
Definition run_calls : Watcher → list registry_call → Watcher := foldl run_call.

(** The calls on [l] that are outstanding, [None] if some [Unexclude] had no
    [Exclude] to match. *)
Definition outstanding_call (l : Listen) (n : option nat) (c : registry_call) : option nat :=
  match n with
  | None => None
  | Some n =>
      match c with
      | CallExclude l' => if decide (l' = l) then Some (S n) else Some n
      | CallUnexclude l' =>
          if decide (l' = l) then match n with O => None | S n => Some n end else Some n
      end
  end.
Definition outstanding (l : Listen) : option nat → list registry_call → option nat :=
  foldl (outstanding_call l).

Lemma outstanding_None l calls : outstanding l None calls = None.
Proof. by induction calls. Qed.

Lemma run_calls_count w calls l n m :
  w_excluded w !! l = (if decide (n = O) then None else Some (Z.of_nat n)) →
  outstanding l (Some n) calls = Some m →
  w_excluded (run_calls w calls) !! l = (if decide (m = O) then None else Some (Z.of_nat m)).
Proof.
  revert w n. induction calls as [|[l'|l'] calls IH]; intros w n Hw; cbn.
  { by intros [= <-]. }
  - assert (excluded_count w l = Z.of_nat n) as En by (unfold excluded_count; rewrite Hw; by case_decide; subst).
    destruct (decide (l' = l)) as [Hd|Hd]; intros Hm; (eapply IH; [|exact Hm]); cbn [Exclude w_excluded]; rewrite lookup_insert.
    + subst l'. rewrite !decide_True, decide_False by done. rewrite En. f_equal. lia.
    + by rewrite decide_False.
  - assert (excluded_count w l = Z.of_nat n) as En by (unfold excluded_count; rewrite Hw; by case_decide; subst).
    destruct (decide (l' = l)) as [Hd|Hd].
    + subst l'. destruct n as [|n]; [by rewrite outstanding_None|]. intros Hm.
      eapply IH; [|exact Hm]. unfold Unexclude. rewrite En.
      destruct (Z.leb_spec (Z.of_nat (S n)) 1); cbn [w_excluded].
      * rewrite lookup_delete_eq, decide_True by lia. done.
      * rewrite lookup_insert_eq, decide_False by lia. f_equal. lia.
    + intros Hm. eapply IH; [|exact Hm]. unfold Unexclude.
      destruct (_ <=? _); cbn [w_excluded]; [by rewrite lookup_delete_ne|by rewrite lookup_insert_ne].
Qed.

(** ** Properties *)

(** C23. Subscribers never diverge from the watcher.  Whatever the interleaving of
    scans, subscriptions, cancellations, exclusions and receptions, and whatever
    order Go ranges over its maps in, a subscriber that has not been dropped has an
    open channel whose queue, applied to the view it has built from its snapshot
    and the events received so far, yields exactly the listens currently
    advertised; and no queue exceeds its buffer. *)
Theorem subscriber_view wd ch :
  reachable wd → ch ∈ w_subs (wd_watcher wd) →
  ∃ buf view, w_chans (wd_watcher wd) !! ch = Some (mkChan buf false) ∧
    wd_views wd !! ch = Some view ∧ (length buf ≤ subscriberBuffer)%nat ∧
    apply_events view buf = w_current (wd_watcher wd).
Proof.
  intros [Hs Hc]%reachable_inv Hin. destruct (Hs ch Hin) as ([buf closed]&v&Ec&Ev&H).
  destruct (Hc _ _ Ec) as [Hl Hcl]. simpl in *. exists buf, v.
  split_and!; [|done..]. rewrite Ec. do 2 f_equal. by apply Hcl.
Qed.

Definition l80 : Listen := mkListen V4 TCP "127.0.0.1" 80.
Definition sample_world : world :=
  mkWorld (scanOnce_in [l80] [] (Some {[l80]}) (Subscribe NewWatcher).2)
    (<[fresh (dom (w_chans NewWatcher)) := list_to_set []]> ∅).

Lemma sample_next : [l80] ≡ₚ elements (scan_next (Subscribe NewWatcher).2 {[l80]}).
Proof.
  replace (scan_next (Subscribe NewWatcher).2 {[l80]}) with ({[l80]} : gset Listen).
  - by rewrite elements_singleton.
  - apply (bool_decide_unpack _). vm_compute. exact I.
Qed.

Lemma sample_reachable : reachable sample_world.
Proof.
  eapply rtc_l; [eapply (step_subscribe NewWatcher ∅); reflexivity|].
  apply rtc_once. apply (step_scan _ _ (Some {[l80]}) [l80] []).
  - intros r [= <-]. exact sample_next.
  - by cbn; rewrite elements_empty.
Qed.

Lemma subscriber_view_witness :
  ∃ ch, ch ∈ w_subs (wd_watcher sample_world) ∧
  ∃ buf view, w_chans (wd_watcher sample_world) !! ch = Some (mkChan buf false) ∧
    wd_views sample_world !! ch = Some view ∧ (length buf ≤ subscriberBuffer)%nat ∧
    apply_events view buf = w_current (wd_watcher sample_world).
Proof.
  assert (O ∈ w_subs (wd_watcher sample_world)) as H by (apply (bool_decide_unpack _); vm_compute; exact I).
  exists O. split; [exact H|]. exact (subscriber_view sample_world O sample_reachable H).
Defined.

(** C29. The order in which [publish] ranges over the subscribers is irrelevant:
    any two enumerations of them leave the same watcher and the same channels. *)
Theorem publish_order_irrelevant order order' ev w :
  NoDup order → order ≡ₚ order' → publish_in order ev w = publish_in order' ev w.
Proof.
  intros Hnd Hp. assert (NoDup order') as Hnd' by by rewrite <-Hp.
  apply Watcher_eq.
  - by rewrite !(proj1 (publish_in_static _ _ _)).
  - by rewrite !(proj2 (publish_in_static _ _ _)).
  - apply set_eq. intros ch. rewrite !publish_in_subs by done. by rewrite Hp.
  - apply map_eq. intros ch. rewrite !publish_in_chans by done.
    by rewrite (decide_ext _ (ch ∈ order')) by by rewrite Hp.
Qed.

Lemma publish_order_irrelevant_witness :
  publish_in [0; 1]%nat (ev_add l80) (Subscribe (Subscribe NewWatcher).2).2 =
  publish_in [1; 0]%nat (ev_add l80) (Subscribe (Subscribe NewWatcher).2).2.
Proof.
  apply publish_order_irrelevant; [|apply Permutation_swap].
  apply (bool_decide_unpack _). vm_compute. exact I.
Defined.

(** A subscriber with room for the changes of a scan receives exactly them, each
    once, after what was already queued: an [add] for every listen that appeared
    and then a [remove] for every listen that went away. *)
Theorem scan_delivers next_order current_order raw w ch buf :
  next_order ≡ₚ elements (scan_next w raw) → current_order ≡ₚ elements (w_current w) →
  ch ∈ w_subs w → w_chans w !! ch = Some (mkChan buf false) →
  (length buf + size (scan_next w raw ∖ w_current w) + size (w_current w ∖ scan_next w raw)
     ≤ subscriberBuffer)%nat →
  let w' := scanOnce_in next_order current_order (Some raw) w in
  ch ∈ w_subs w' ∧
  ∃ added removed, added ≡ₚ elements (scan_next w raw ∖ w_current w) ∧
    removed ≡ₚ elements (w_current w ∖ scan_next w raw) ∧
    w_chans w' !! ch = Some (mkChan (buf ++ map ev_add added ++ map ev_remove removed) false).
Proof.
  intros Hn Hc Hin Ec Hl. cbn zeta.
  assert (∀ (s t : gset Listen) o, o ≡ₚ elements s → filter (λ l, l ∉ t) o ≡ₚ elements (s ∖ t)) as Hf.
  { intros s t o Ho. apply NoDup_Permutation.
    - apply NoDup_filter. rewrite Ho. apply NoDup_elements.
    - apply NoDup_elements.
    - intros x. rewrite list_elem_of_filter, Ho, !elem_of_elements, elem_of_difference. tauto. }
  destruct (scan_queue next_order current_order raw w ch buf) as [? ->]; [done|done| |].
  { unfold scan_added, scan_removed. by rewrite !length_map, (Hf _ _ _ Hn), (Hf _ _ _ Hc). }
  split; [done|]. eexists _, _. split_and!; [by apply Hf..|done].
Qed.

Definition scan_witness_watcher : Watcher := (Subscribe NewWatcher).2.
Lemma scan_delivers_witness :
  let w' := scanOnce_in [l80] [] (Some {[l80]}) scan_witness_watcher in
  O ∈ w_subs w' ∧
  ∃ added removed, added ≡ₚ elements (scan_next scan_witness_watcher {[l80]} ∖ ∅) ∧
    removed ≡ₚ elements (∅ ∖ scan_next scan_witness_watcher {[l80]}) ∧
    w_chans w' !! O = Some (mkChan ([] ++ map ev_add added ++ map ev_remove removed) false).
Proof.
  apply (scan_delivers [l80] [] {[l80]} scan_witness_watcher O []).
  - exact sample_next.
  - cbn. by rewrite elements_empty.
  - apply (bool_decide_unpack _). vm_compute. exact I.
  - vm_compute. reflexivity.
  - apply (bool_decide_unpack _). vm_compute. exact I.
Defined.

(** Exclusions are reference-counted exactly: after any sequence of calls in
    which no [Unexclude] of [l] comes without an [Exclude] to match, the count of
    [l] is the number of calls outstanding, and [l] is a key of the map only while
    that number is positive. *)
Theorem exclusions_balanced calls l n :
  outstanding l (Some O) calls = Some n →
  w_excluded (run_calls NewWatcher calls) !! l = if decide (n = O) then None else Some (Z.of_nat n).
Proof. intros H. apply (run_calls_count _ _ _ O); [apply lookup_empty|done]. Qed.

Lemma exclusions_balanced_witness :
  w_excluded (run_calls NewWatcher [CallExclude l80; CallExclude l80; CallUnexclude l80]) !! l80 = Some 1.
Proof. apply (exclusions_balanced _ l80 1). reflexivity. Defined.

(** Excluding a listen does not hide it at once: until the next scan, a new
    subscriber's snapshot still contains it.  (The comment on [Exclude] says it
    "will never appear in a snapshot or event again".) *)
Theorem exclude_keeps_snapshot wd l ch snapshot w' :
  reachable wd → l ∈ w_current (wd_watcher wd) →
  Subscribe (Exclude l (wd_watcher wd)) = (ch, snapshot, w') →
  l ∈ snapshot ∧ 0 < excluded_count w' l.
Proof.
  intros Hr Hl [= <- <- <-]. split.
  - rewrite merge_sort_Permutation. by apply elem_of_elements.
  - change (0 < excluded_count (Exclude l (wd_watcher wd)) l).
    rewrite excluded_count_Exclude, decide_True by done.
    assert (0 ≤ excluded_count (wd_watcher wd) l); [|lia]. clear Hl. revert Hr l.
    intros Hr. eapply (rtc_invariant step (λ wd, ∀ l, 0 ≤ excluded_count (wd_watcher wd) l)); [|exact Hr|done].
    clear. intros x y Hs H. destruct Hs as [w vs [r|] no co _ _|w vs ch sn w' [= <- <- <-]|w vs ch|w vs l|w vs l|w vs ch ev w' v Hrc _];
      cbn [wd_watcher] in *; intros l'.
    + unfold excluded_count. cbn [scanOnce_in w_excluded].
      rewrite (proj2 (publish_removed_static _ _ _)), (proj2 (publish_added_static _ _)). apply H.
    + apply H.
    + apply H.
    + unfold cancel. case_decide; apply H.
    + rewrite excluded_count_Exclude. specialize (H l'). case_decide; lia.
    + rewrite excluded_count_Unexclude. specialize (H l'). case_decide; lia.
    + unfold receive in Hrc. specialize (H l'). by repeat case_match; simplify_eq.
Qed.

Lemma exclude_keeps_snapshot_witness :
  l80 ∈ (Subscribe (Exclude l80 (wd_watcher sample_world))).1.2 ∧
  0 < excluded_count (Subscribe (Exclude l80 (wd_watcher sample_world))).2 l80.
Proof.
  apply (exclude_keeps_snapshot sample_world l80
    (Subscribe (Exclude l80 (wd_watcher sample_world))).1.1).
  - exact sample_reachable.
  - apply (bool_decide_unpack _). vm_compute. exact I.
  - reflexivity.
Defined.
