(* ===== verification/GoPath.v ===== *)
(** * Go's [path] package (and [path/filepath] on Linux, which is the same)

    [Clean], [Join], [Dir] and [Base] work on the components between the
    slashes; the lemmas relate the string functions to lists of components. *)

From S2P Require Import Prelude GoStrings.

Definition slash : ascii := "/".

(** The components [s] is made of, empty ones included. *)
Definition path_split (s : string) : list string := strings_Split s slash.

(** One step of [path.Clean]'s loop: empty components and [.] are dropped,
    [..] removes the component before it, at the root of a rooted path it
    disappears, and at the start of a relative path it stays. *)
Definition clean_step (rooted : bool) (acc : list string) (c : string) : list string :=
  if decide (c = "" ∨ c = ".") then acc
  else if decide (c = "..") then
    match last acc with
    | Some d => if decide (d = "..") then acc ++ [".."] else removelast acc
    | None => if rooted then acc else [".."]
    end
  else acc ++ [c].

Definition clean_comps (rooted : bool) (cs : list string) : list string :=
  foldl (clean_step rooted) [] cs.

Definition path_Clean (p : string) : string :=
  if strings_HasPrefix p "/" then "/" +:+ strings_Join (clean_comps true (path_split p)) "/"
  else match clean_comps false (path_split p) with
       | [] => "."
       | cs => strings_Join cs "/"
       end.

(** [path.Join(elem...)]: empty elements are ignored. *)
Definition path_Join (elems : list string) : string :=
  match filter (λ e, e ≠ "") elems with
  | [] => ""
  | es => path_Clean (strings_Join es "/")
  end.

(** [path.Dir]: all but the last component, cleaned. *)
Definition path_Dir (p : string) : string :=
  match removelast (path_split p) with
  | [] => "."
  | ds => path_Clean (strings_Join (ds ++ [""]) "/")
  end.

(** [path.Base]: the last component, trailing slashes ignored. *)
Definition path_Base (p : string) : string :=
  if decide (p = "") then "."
  else default "/" (last (filter (λ c, c ≠ "") (path_split p))).

Example Clean1 : path_Clean "/a//b/../c/." = "/a/c". Proof. reflexivity. Qed.
Example Clean2 : path_Clean "../a/.." = "..". Proof. reflexivity. Qed.
Example Clean3 : path_Clean "/../.." = "/". Proof. reflexivity. Qed.
Example Dir1 : path_Dir "a/b" = "a". Proof. reflexivity. Qed.
Example Dir2 : path_Dir "a" = ".". Proof. reflexivity. Qed.
Example Dir3 : path_Dir "/a" = "/". Proof. reflexivity. Qed.
Example Base1 : path_Base "a/b//" = "b". Proof. reflexivity. Qed.
Example Base2 : path_Base "//" = "/". Proof. reflexivity. Qed.
Example Join1 : path_Join ["/"; "a/b"] = "/a/b". Proof. reflexivity. Qed.
Example Join2 : path_Join [""; ".."] = "..". Proof. reflexivity. Qed.

(** ** Components *)

(** A name a cleaned rooted path is made of. *)
Definition comp (c : string) : Prop := c ≠ "" ∧ c ≠ "." ∧ c ≠ ".." ∧ lacks slash c.
#[export] Instance comp_dec c : Decision (comp c).
Proof. unfold comp, lacks. apply _. Defined.

Lemma path_Split_Join cs : cs ≠ [] → Forall (lacks slash) cs → path_split (strings_Join cs "/") = cs.
Proof. apply (Split_Join cs slash). Qed.

Lemma split_rooted s : path_split ("/" +:+ s) = "" :: path_split s.
Proof. reflexivity. Qed.

Lemma comps_lacks cs : Forall comp cs → Forall (lacks slash) cs.
Proof. intros H. eapply Forall_impl; [exact H|]. intros c Hc. apply Hc. Qed.

(** The result of cleaning a rooted path is made of proper components. *)
Lemma clean_step_comps acc c :
  Forall comp acc → lacks slash c → Forall comp (clean_step true acc c).
Proof.
  intros Hacc Hc. unfold clean_step. case_decide as H1; [done|].
  case_decide as H2.
  - destruct (last acc) as [d|] eqn:E; [|done].
    apply last_Some in E as [acc' ->]. apply Forall_app in Hacc as [? [(?&?&?&?) _]%Forall_cons].
    rewrite decide_False by done. by rewrite removelast_last.
  - apply Forall_app; split; [done|]. repeat constructor; naive_solver.
Qed.

Lemma clean_comps_comps cs :
  Forall (lacks slash) cs → Forall comp (clean_comps true cs).
Proof.
  unfold clean_comps. assert (Forall comp []) as H by constructor. revert H.
  generalize (@nil string) as acc.
  induction cs as [|c cs IH]; intros acc Hacc; [done|]. intros [? ?]%Forall_cons.
  simpl. apply IH; [|done]. by apply clean_step_comps.
Qed.

Lemma clean_step_comp rooted acc c : comp c → clean_step rooted acc c = acc ++ [c].
Proof. intros (?&?&?&?). unfold clean_step. by rewrite !decide_False by naive_solver. Qed.

Lemma clean_comps_app rooted acc cs :
  Forall comp cs → foldl (clean_step rooted) acc cs = acc ++ cs.
Proof.
  revert acc. induction cs as [|c cs IH]; intros acc H; [by rewrite app_nil_r|].
  apply Forall_cons in H as [? ?]. simpl. rewrite clean_step_comp, IH by done. by rewrite <-app_assoc.
Qed.

Lemma clean_comps_id rooted cs : Forall comp cs → clean_comps rooted cs = cs.
Proof. intros. unfold clean_comps. by rewrite clean_comps_app. Qed.

Lemma clean_comps_empty rooted cs : clean_comps rooted ("" :: cs) = clean_comps rooted cs.
Proof. reflexivity. Qed.

(** The components of the cleaned rooted path ["/" + name]. *)
Definition rooted_comps (name : string) : list string := clean_comps true (path_split name).

Lemma rooted_comps_comps name : Forall comp (rooted_comps name).
Proof. apply clean_comps_comps, Split_lacks. Qed.

Lemma Clean_rooted name :
  path_Clean ("/" +:+ name) = "/" +:+ strings_Join (rooted_comps name) "/".
Proof.
  unfold path_Clean. assert (strings_HasPrefix ("/" +:+ name) "/" = true) as -> by (by destruct name).
  by rewrite split_rooted, clean_comps_empty.
Qed.

Lemma HasPrefix_slash a s : strings_HasPrefix (String a s) "/" = bool_decide (a = slash).
Proof.
  change (strings_HasPrefix (String a s) "/") with (if ascii_dec slash a then String.prefix "" s else false).
  destruct (ascii_dec slash a) as [<-|]; [by rewrite bool_decide_eq_true_2; destruct s|].
  by rewrite bool_decide_eq_false_2.
Qed.

Lemma TrimPrefix_rooted s : strings_TrimPrefix ("/" +:+ s) "/" = s.
Proof. unfold strings_TrimPrefix, strings_HasPrefix. simpl. by destruct s. Qed.

Lemma Join_prefix_slash cs : cs ≠ [] → Forall comp cs → strings_HasPrefix (strings_Join cs "/") "/" = false.
Proof.
  destruct cs as [|c cs]; [done|]. intros _ [(Hne&_&_&Hl) _]%Forall_cons.
  destruct c as [|a c]; [done|]. apply lacks_cons in Hl as [Ha _].
  assert (∃ t, strings_Join (String a c :: cs) "/" = String a t) as [t ->].
  { destruct cs; simpl; eauto. }
  rewrite HasPrefix_slash. by apply bool_decide_eq_false.
Qed.

Lemma Join_nonempty cs : cs ≠ [] → Forall comp cs → strings_Join cs "/" ≠ "".
Proof.
  destruct cs as [|c cs]; [done|]. intros _ [(Hne&_) _]%Forall_cons.
  destruct c; [done|]. by destruct cs.
Qed.

Lemma last_comp cs c : Forall comp cs → last cs = Some c → comp c.
Proof. intros H [l ->]%last_Some. apply Forall_app in H as [_ H]. by inversion H. Qed.

Lemma filter_all {A} (P : A → Prop) `{∀ x, Decision (P x)} l : Forall P l → filter P l = l.
Proof. induction 1; [done|]. rewrite filter_cons_True by done. by f_equal. Qed.

Lemma comps_nonempty cs : Forall comp cs → Forall (λ c, c ≠ "") cs.
Proof. intros H. eapply Forall_impl; [exact H|]. intros c Hc. apply Hc. Qed.

(** [path.Base] and [path.Dir] of a cleaned relative path. *)
Lemma Base_Join cs c : Forall comp (cs ++ [c]) → path_Base (strings_Join (cs ++ [c]) "/") = c.
Proof.
  intros H. unfold path_Base.
  rewrite decide_False by (apply Join_nonempty; [by destruct cs|done]).
  rewrite path_Split_Join by (first [by destruct cs|by apply comps_lacks]).
  rewrite filter_all by (by apply comps_nonempty). by rewrite last_snoc.
Qed.

Lemma Join_snoc_empty cs : cs ≠ [] → strings_Join (cs ++ [""]) "/" = strings_Join cs "/" +:+ "/".
Proof.
  induction cs as [|c cs IH]; [done|]. intros _. destruct cs as [|d cs]; [done|].
  change ((c :: d :: cs) ++ [""]) with (c :: (d :: cs) ++ [""]).
  rewrite !Join_cons by done. rewrite IH by done. by rewrite !sapp_assoc.
Qed.

Lemma Dir_Join cs c :
  Forall comp (cs ++ [c]) →
  path_Dir (strings_Join (cs ++ [c]) "/") = match cs with [] => "." | _ => strings_Join cs "/" end.
Proof.
  intros H. unfold path_Dir. rewrite path_Split_Join by (first [by destruct cs|by apply comps_lacks]).
  rewrite removelast_last. apply Forall_app in H as [H _].
  destruct (decide (cs = [])) as [->|Hne]; [done|].
  assert (path_Clean (strings_Join (cs ++ [""]) "/") = strings_Join cs "/") as Hc.
  { unfold path_Clean. rewrite path_Split_Join; [|by destruct cs|].
    2:{ apply Forall_app; split; [by apply comps_lacks|by repeat constructor]. }
    assert (clean_comps false (cs ++ [""]) = cs) as ->.
    { unfold clean_comps. rewrite foldl_app, (clean_comps_app _ _ cs) by done. simpl. unfold clean_step. by rewrite decide_True by (by left). }
    assert (strings_HasPrefix (strings_Join (cs ++ [""]) "/") "/" = false) as ->; [|by destruct cs].
    rewrite Join_snoc_empty by done.
    pose proof (Join_prefix_slash cs Hne H) as Hp. pose proof (Join_nonempty cs Hne H) as Hn.
    destruct (strings_Join cs "/") as [|a s]; [done|].
    rewrite sapp_cons. by rewrite HasPrefix_slash in *. }
  destruct cs; [done|exact Hc].
Qed.

(** [filepath.Join("/", rel)]: the absolute path of a cleaned relative one. *)
Lemma Join_root cs : cs ≠ [] → Forall comp cs →
  path_Join ["/"; strings_Join cs "/"] = "/" +:+ strings_Join cs "/".
Proof.
  intros Hne H. unfold path_Join.
  assert (filter (λ e : string, e ≠ "") ["/"; strings_Join cs "/"] = ["/"; strings_Join cs "/"]) as ->.
  { apply filter_all. repeat constructor; [done|]. by apply Join_nonempty. }
  change (strings_Join ["/"; strings_Join cs "/"] "/") with ("/" +:+ ("/" +:+ strings_Join cs "/")).
  rewrite Clean_rooted. unfold rooted_comps. rewrite split_rooted, clean_comps_empty.
  by rewrite path_Split_Join, clean_comps_id by (done || by apply comps_lacks).
Qed.

(** [path.Join(dir, name)] of cleaned relative paths. *)
Lemma Join_dir cs c : Forall comp (cs ++ [c]) →
  path_Join [strings_Join cs "/"; c] = strings_Join (cs ++ [c]) "/".
Proof.
  intros H. pose proof H as [Hcs [Hc _]%Forall_cons]%Forall_app.
  unfold path_Join. destruct (decide (cs = [])) as [->|Hne].
  - rewrite filter_cons_False by (simpl; tauto). rewrite filter_cons_True by apply Hc.
    change (filter _ []) with (@nil string). change (strings_Join [c] "/") with c.
    unfold path_Clean. pose proof (Join_prefix_slash [c] ltac:(done) H) as Hp.
    change (strings_Join [c] "/") with c in Hp. rewrite Hp.
    unfold path_split. rewrite Split_single by apply Hc.
    by rewrite clean_comps_id.
  - assert (filter (λ e : string, e ≠ "") [strings_Join cs "/"; c] = [strings_Join cs "/"; c]) as ->.
    { apply filter_all. repeat constructor; [by apply Join_nonempty|apply Hc]. }
    assert (strings_Join [strings_Join cs "/"; c] "/" = strings_Join (cs ++ [c]) "/") as ->.
    { clear Hc H Hcs. induction cs as [|d cs IH]; [done|]. destruct cs as [|e cs]; [done|].
      change ((d :: e :: cs) ++ [c]) with (d :: (e :: cs) ++ [c]).
      rewrite (Join_cons d ((e :: cs) ++ [c])) by done. rewrite <-IH by done.
      rewrite (Join_cons d (e :: cs)) by done.
      change (strings_Join [?a; c] "/") with (a +:+ "/" +:+ c). by rewrite !sapp_assoc. }
    unfold path_Clean. rewrite Join_prefix_slash by (first [by destruct cs|done]).
    rewrite path_Split_Join by (first [by destruct cs|by apply comps_lacks]).
    rewrite clean_comps_id by done. by destruct cs.
Qed.
