(* ===== verification/FS.v ===== *)
(** * The file system under the source's calls to package [os]

    The documented behaviour of the Linux system calls the source makes
    (through [os] and [golang.org/x/sys/unix]), for a process with every
    capability, as PID 1 of the container has: a table of names (canonical
    paths, as lists of components) leading to inodes, path resolution with its
    limit of forty symbolic links, and one definition per call.

    Not in the model: I/O errors of the medium, limits on sizes, mount points,
    and the times the kernel sets by itself (only [utimensat]'s are kept). *)

From stdpp Require Import sorting.
From S2P Require Import Prelude Platform GoStrings GoPath.

Inductive errno :=
  | ENOENT | EEXIST | ENOTDIR | EISDIR | EBUSY | ELOOP | EPERM | ENOTEMPTY | EINVAL | EOPNOTSUPP | ENXIO | EADDRINUSE.

#[export] Instance errno_eq_dec : EqDecision errno.
Proof. solve_decision. Defined.

(** Go's octal literals [0o777], [0o7777], [0o755], [0o644], [0o600], [0o4000] and [0o2000]. *)
Definition o777 : Z := 0x1ff.
Definition o7777 : Z := 0xfff.
Definition o755 : Z := 0x1ed.
Definition o644 : Z := 0x1a4.
Definition o600 : Z := 0x180.
Definition o4000 : Z := 0x800.
Definition o2000 : Z := 0x400.

(** ** Effects

    A computation over the file system that may fail: it returns the value or
    the error together with the file system it leaves, errors included. *)

Notation path := (list string).

Inductive node :=
  | Dir
  | File (data : string)
  | Symlink (target : string)
  | CharDev (dev : Z * Z) (* major and minor number *)
  | BlockDev (dev : Z * Z)
  | Fifo
  | Socket.

Record inode := mkInode {
  i_node : node;
  i_mode : Z; (* the low twelve bits of [st_mode] *)
  i_uid : Z;
  i_gid : Z;
  i_xattrs : gmap string string;
  i_mtime : option Z; (* nanoseconds, once set by [utimensat] *)
}.

Record fs := mkFs {
  fs_names : gmap path nat;
  fs_inodes : gmap nat inode;
  fs_umask : Z;
  fs_xattr_err : node → string → option errno; (* what the mounted file system answers [lsetxattr] *)
  fs_arch : GOARCH; (* of the machine that mounts it *)
}.

Definition io (E A : Type) : Type := fs → res E A * fs.

Definition io_ret {E A} (a : A) : io E A := λ s, (Ok a, s).
Definition io_err {E A} (e : E) : io E A := λ s, (Err e, s).
Definition io_bind {E A B} (m : io E A) (k : A → io E B) : io E B := λ s,
  match m s with
  | (Ok a, s') => k a s'
  | (Err e, s') => (Err e, s')
  end.
(** [if err := m; err != nil { ... }] where the caller looks at the error. *)
Definition io_try {E F A} (m : io E A) : io F (res E A) := λ s, let '(r, s') := m s in (Ok r, s').
(** [return fmt.Errorf("...: %w", err)]. *)
Definition io_wrap {E F A} (f : E → F) (m : io E A) : io F A := λ s,
  let '(r, s') := m s in (res_map_err f r, s').
Definition io_read {E A} (f : fs → res E A) : io E A := λ s, (f s, s).
(** [for _, x := range l { if err := f(x); err != nil { return err } }] *)
Fixpoint io_iter {E X} (f : X → io E unit) (l : list X) : io E unit :=
  match l with
  | [] => io_ret tt
  | x :: l' => io_bind (f x) (λ _, io_iter f l')
  end.

Notation "'let!' x := m 'in' k" := (io_bind m (λ x, k))
  (at level 10, x pattern, m at level 100, k at level 200) : peel_scope.
Notation "m ;! k" := (io_bind m (λ _, k)) (at level 100, right associativity) : peel_scope.

(** ** Path resolution *)

Definition lookup_path (s : fs) (p : path) : option inode :=
  fs_names s !! p ≫= λ i, fs_inodes s !! i.

Definition is_dir (s : fs) (p : path) : bool :=
  match lookup_path s p with
  | Some i => match i_node i with Dir => true | _ => false end
  | None => false
  end.

(** Follow the components [cs] from the directory [cur], through at most
    [links] symbolic links; [follow] says what to do with one at the very end.
    The result is the canonical path, of which only the last component may be
    missing. *)
Fixpoint walk (links : nat) (s : fs) (follow : bool) : path → path → res errno path :=
  fix go (cur cs : path) : res errno path :=
    match cs with
    | [] => Ok cur
    | c :: rest =>
        if is_dir s cur then
          if decide (c = "" ∨ c = ".") then go cur rest
          else if decide (c = "..") then go (removelast cur) rest
          else
            let p := cur ++ [c] in
            match i_node <$> lookup_path s p with
            | None => match rest with [] => Ok p | _ => Err ENOENT end
            | Some (Symlink target) =>
                if (match rest with [] => negb follow | _ => false end) then Ok p
                else match links with
                     | O => Err ELOOP
                     | S links' =>
                         walk links' s follow
                           (if strings_HasPrefix target "/" then [] else cur)
                           (path_split target ++ rest)
                     end
            | Some _ => go p rest
            end
        else Err ENOTDIR
    end.

(** [MAXSYMLINKS] of [include/linux/namei.h]. *)
Definition MAXSYMLINKS : nat := 40.

(** Every path is resolved from the root: peel's working directory is [/]. *)
Definition namei (follow : bool) (p : string) (s : fs) : res errno path :=
  if decide (p = "") then Err ENOENT
  else walk MAXSYMLINKS s follow [] (path_split p).

(** ** Reading *)

Definition stat (follow : bool) (p : string) (s : fs) : res errno inode :=
  let? q := namei follow p s in
  match lookup_path s q with Some i => Ok i | None => Err ENOENT end.

Definition os_Lstat (p : string) : io errno inode := io_read (stat false p).
Definition os_Stat (p : string) : io errno inode := io_read (stat true p).

Definition IsDir (i : inode) : bool := match i_node i with Dir => true | _ => false end.

(** The name of [p] in the directory [q], if it is one of its entries. *)
Definition child_of (q p : path) : option string :=
  match last p with
  | Some c => if decide (removelast p = q) then Some c else None
  | None => None
  end.

Definition children (s : fs) (q : path) : list string :=
  omap (child_of q) (map_to_list (fs_names s)).*1.

(** [os.ReadDir]: the entries sorted by file name. *)
Definition os_ReadDir (p : string) : io errno (list string) := io_read (λ s,
  let? q := namei true p s in
  match lookup_path s q with
  | None => Err ENOENT
  | Some i => if IsDir i then Ok (merge_sort string_le (children s q)) else Err ENOTDIR
  end).

Definition os_ReadFile (p : string) : io errno string := io_read (λ s,
  let? i := stat true p s in
  match i_node i with
  | File data => Ok data
  | Dir => Err EISDIR
  | Socket => Err ENXIO
  | _ => Err EINVAL
  end).

(** ** Changing *)

Definition set_names (f : gmap path nat → gmap path nat) (s : fs) : fs :=
  mkFs (f (fs_names s)) (fs_inodes s) (fs_umask s) (fs_xattr_err s) (fs_arch s).
Definition set_inodes (f : gmap nat inode → gmap nat inode) (s : fs) : fs :=
  mkFs (fs_names s) (f (fs_inodes s)) (fs_umask s) (fs_xattr_err s) (fs_arch s).

(** A new inode, under the name [q]. *)
Definition create (q : path) (i : inode) (s : fs) : fs :=
  let n := fresh (dom (fs_inodes s)) in
  set_names <[q := n]> (set_inodes <[n := i]> s).

Definition new_inode (nd : node) (mode : Z) (s : fs) : inode :=
  mkInode nd (Z.land mode (Z.lnot (fs_umask s))) 0 0 ∅ None.

(** Create at [p], which must not exist. *)
Definition create_excl (p : string) (mk : fs → inode) : io errno unit := λ s,
  match namei false p s with
  | Err e => (Err e, s)
  | Ok q => match fs_names s !! q with
            | Some _ => (Err EEXIST, s)
            | None => (Ok tt, create q (mk s) s)
            end
  end.

(** [perm.Perm()]: the nine permission bits are all that the source's
    [fs.FileMode] values carry ([os] passes the other bits of [fs.FileMode] to
    the kernel only under Go's own constants). *)
Definition Perm (mode : Z) : Z := Z.land mode o777.

Definition os_Mkdir (p : string) (perm : Z) : io errno unit :=
  create_excl p (new_inode Dir (Perm perm)).

Definition os_Symlink (old new : string) : io errno unit :=
  if decide (old = "") then io_err ENOENT
  else create_excl new (λ s, mkInode (Symlink old) o777 0 0 ∅ None).

Definition unix_Mknod (p : string) (nd : node) (mode : Z) : io errno unit :=
  create_excl p (new_inode nd (Z.land mode o7777)).

(** [net.Listen] on a unix socket: [bind] makes the socket, whose path has to fit
    [sun_path] with its final zero, and then [listen] succeeds. *)
Definition net_ListenUnix (p : string) : io errno unit := λ s,
  if decide (107 < String.length p)%nat then (Err EINVAL, s)
  else match create_excl p (new_inode Socket o777) s with
       | (Err EEXIST, s') => (Err EADDRINUSE, s')
       | r => r
       end.

(** The device [mknod] makes of the number [unix.Mkdev] packs: the kernel
    keeps twelve bits of the major and twenty of the minor number. *)
Definition mkdev (major minor : Z) : Z * Z := (major `mod` 2 ^ 12, minor `mod` 2 ^ 20).

(** [os.MkdirAll] on the components [rev rcs] under the root. *)
Fixpoint MkdirAll_rev (rcs : path) (perm : Z) : io errno unit :=
  let p := "/" +:+ strings_Join (rev rcs) "/" in
  let! dir := io_try (os_Stat p) in
  match dir with
  | Ok i => if IsDir i then io_ret tt else io_err ENOTDIR
  | Err _ =>
      match rcs with
      | [] => io_ret tt
      | _ :: parent => MkdirAll_rev parent perm
      end ;!
      let! err := io_try (os_Mkdir p perm) in
      match err with
      | Ok _ => io_ret tt
      | Err e =>
          let! dir := io_try (os_Lstat p) in
          match dir with
          | Ok i => if IsDir i then io_ret tt else io_err e
          | Err _ => io_err e
          end
      end
  end.

(** [os.MkdirAll(path, perm)] for a cleaned rooted path. *)
Definition os_MkdirAll (p : string) (perm : Z) : io errno unit :=
  MkdirAll_rev (rev (rooted_comps p)) perm.

(** [open(path, O_CREAT|O_WRONLY|O_TRUNC, perm)]: the inode behind the
    descriptor. *)
Definition os_OpenFile (p : string) (perm : Z) : io errno nat := λ s,
  match namei true p s with
  | Err e => (Err e, s)
  | Ok q =>
      match fs_names s !! q with
      | None => (Ok (fresh (dom (fs_inodes s))), create q (new_inode (File "") (Perm perm) s) s)
      | Some n =>
          match i_node <$> fs_inodes s !! n with
          | Some Dir => (Err EISDIR, s)
          | Some Socket => (Err ENXIO, s)
          | Some (File _) =>
              (Ok n, set_inodes (alter (λ i, mkInode (File "") (i_mode i) (i_uid i) (i_gid i) (i_xattrs i) (i_mtime i)) n) s)
          | _ => (Ok n, s)
          end
      end
  end.

(** Append to a regular file; what is written to a device leaves no trace here. *)
Definition write (n : nat) (data : string) : io errno unit := λ s,
  (Ok tt, set_inodes (alter (λ i,
     match i_node i with
     | File old => mkInode (File (old +:+ data)) (i_mode i) (i_uid i) (i_gid i) (i_xattrs i) (i_mtime i)
     | _ => i
     end) n) s).

(** [os.WriteFile]. *)
Definition os_WriteFile (p : string) (data : string) (perm : Z) : io errno unit :=
  let! n := os_OpenFile p perm in write n data.

Definition os_Link (old new : string) : io errno unit := λ s,
  match stat false old s, namei false old s with
  | Ok i, Ok q1 =>
      match namei false new s with
      | Err e => (Err e, s)
      | Ok q2 =>
          match fs_names s !! q2, fs_names s !! q1 with
          | None, Some n => if IsDir i then (Err EPERM, s) else (Ok tt, set_names <[q2 := n]> s)
          | _, _ => (Err EEXIST, s)
          end
      end
  | Err e, _ | _, Err e => (Err e, s)
  end.

(** Every name at or below [q]. *)
Definition remove_tree (q : path) (m : gmap path nat) : gmap path nat :=
  filter (λ kv, ¬ q `prefix_of` kv.1) m.

Definition endsWithDot (p : string) : bool :=
  bool_decide (last (path_split p) = Some ".").

(** [os.RemoveAll]: a missing path is no error, the last component is not
    followed, and the root itself cannot be removed but everything in it is. *)
Definition os_RemoveAll (p : string) : io errno unit := λ s,
  if decide (p = "") then (Ok tt, s)
  else if endsWithDot p then (Err EINVAL, s)
  else match namei false p s with
  | Err ENOENT => (Ok tt, s)
  | Err e => (Err e, s)
  | Ok [] => (Err EBUSY, set_names (filter (λ kv, kv.1 = [])) s)
  | Ok q => (Ok tt, set_names (remove_tree q) s)
  end.

(** [os.Remove]. *)
Definition os_Remove (p : string) : io errno unit := λ s,
  match namei false p s with
  | Err e => (Err e, s)
  | Ok q =>
      match fs_names s !! q with
      | None => (Err ENOENT, s)
      | Some _ =>
          if decide (q = []) then (Err EBUSY, s)
          else if decide (is_dir s q = true ∧ children s q ≠ []) then (Err ENOTEMPTY, s)
          else (Ok tt, set_names (delete q) s)
      end
  end.

(** [q1] and everything below it moves to [q2]. *)
Definition rename_tree (q1 q2 : path) (m : gmap path nat) : gmap path nat :=
  list_to_map ((λ kv, (if decide (q1 `prefix_of` kv.1) then q2 ++ drop (length q1) kv.1 else kv.1, kv.2))
    <$> map_to_list m).

(** [os.Rename]: an existing directory is never replaced. *)
Definition os_Rename (old new : string) : io errno unit := λ s,
  match namei false old s, namei false new s with
  | Ok q1, Ok q2 =>
      match fs_names s !! q1 with
      | None => (Err ENOENT, s)
      | Some n =>
          if decide (fs_names s !! q2 = Some n) then (Ok tt, s)
          else if is_dir s q2 then (Err EEXIST, s)
          else if is_dir s q1 then
            match fs_names s !! q2 with
            | Some _ => (Err ENOTDIR, s)
            | None => if decide (q1 `prefix_of` q2) then (Err EINVAL, s)
                      else (Ok tt, set_names (rename_tree q1 q2) s)
            end
          else (Ok tt, set_names (λ m, <[q2 := n]> (delete q1 m)) s)
      end
  | Err e, _ | _, Err e => (Err e, s)
  end.

(** Change the attributes of the inode [p] leads to. *)
Definition set_attr (follow : bool) (p : string) (f : inode → res errno inode) : io errno unit := λ s,
  match namei follow p s with
  | Err e => (Err e, s)
  | Ok q =>
      match fs_names s !! q with
      | None => (Err ENOENT, s)
      | Some n =>
          match fs_inodes s !! n with
          | None => (Err ENOENT, s)
          | Some i => match f i with
                      | Err e => (Err e, s)
                      | Ok i' => (Ok tt, set_inodes <[n := i']> s)
                      end
          end
      end
  end.

Definition set_mode (i : inode) (mode : Z) : inode :=
  mkInode (i_node i) mode (i_uid i) (i_gid i) (i_xattrs i) (i_mtime i).

(** [chown]'s arguments are [uid_t]: all ones leaves the id alone. *)
Definition chown_id (id old : Z) : Z :=
  let u := id `mod` 2 ^ 32 in if decide (u = 2 ^ 32 - 1) then old else u.

(** Changing the owner takes the set-user-id bit away from what is not a
    directory, and the set-group-id bit if the group may execute it. *)
Definition chown_mode (i : inode) : Z :=
  if IsDir i then i_mode i
  else let m := Z.land (i_mode i) (Z.lnot o4000) in
       if Z.testbit m 3 then Z.land m (Z.lnot o2000) else m.

Definition os_Lchown (p : string) (uid gid : Z) : io errno unit :=
  set_attr false p (λ i, Ok (mkInode (i_node i) (chown_mode i)
    (chown_id uid (i_uid i)) (chown_id gid (i_gid i)) (i_xattrs i) (i_mtime i))).

Definition os_Chmod (p : string) (perm : Z) : io errno unit :=
  set_attr true p (λ i, Ok (set_mode i (Perm perm))).

Definition unix_Lsetxattr (p name value : string) : io errno unit := λ s,
  set_attr false p (λ i,
    match fs_xattr_err s (i_node i) name with
    | Some e => Err e
    | None => Ok (mkInode (i_node i) (i_mode i) (i_uid i) (i_gid i) (<[name := value]> (i_xattrs i)) (i_mtime i))
    end) s.

Definition unix_UtimesNanoAt (p : string) (t : Z) : io errno unit :=
  set_attr false p (λ i, Ok (mkInode (i_node i) (i_mode i) (i_uid i) (i_gid i) (i_xattrs i) (Some t))).
