(* ===== verification/FSFacts.v ===== *)
(** * Facts about the file system model

    Path resolution where no symbolic link is in the way, the well-formedness
    of the table of names, and what each change does to a lookup. *)

From stdpp Require Import sorting.
From S2P Require Import Prelude GoStrings GoPath FS.

(** ** Effects *)

Lemma io_bind_ok {E A B} (m : io E A) (k : A → io E B) s a s' :
  m s = (Ok a, s') → io_bind m k s = k a s'.
Proof. intros H. unfold io_bind. by rewrite H. Qed.

Lemma io_bind_err {E A B} (m : io E A) (k : A → io E B) s e s' :
  m s = (Err e, s') → io_bind m k s = (Err e, s').
Proof. intros H. unfold io_bind. by rewrite H. Qed.

Lemma io_bind_assoc {E A B C} (m : io E A) (f : A → io E B) (g : B → io E C) s :
  io_bind (io_bind m f) g s = io_bind m (λ a, io_bind (f a) g) s.
Proof. unfold io_bind. by destruct (m s) as [[a|e] s']. Qed.

(** ** Paths *)

Definition abs (cs : path) : string := "/" +:+ strings_Join cs "/".

Lemma rooted_comps_abs cs : Forall comp cs → rooted_comps (abs cs) = cs.
Proof.
  intros H. unfold rooted_comps, abs. rewrite split_rooted, clean_comps_empty.
  destruct (decide (cs = [])) as [->|Hne]; [done|].
  by rewrite path_Split_Join, clean_comps_id by (done || by apply comps_lacks).
Qed.

Lemma split_abs cs : cs ≠ [] → Forall comp cs → path_split (abs cs) = "" :: cs.
Proof.
  intros Hne H. unfold abs. rewrite split_rooted. by rewrite path_Split_Join by (done || by apply comps_lacks).
Qed.

Lemma Dir_abs cs c : Forall comp (cs ++ [c]) → path_Dir (abs (cs ++ [c])) = abs cs.
Proof.
  intros H. assert (Forall comp cs) as Hcs by (by apply Forall_app in H as [? _]).
  unfold path_Dir. rewrite split_abs by (first [by destruct cs|done]).
  change ("" :: cs ++ [c]) with (("" :: cs) ++ [c]). rewrite removelast_last.
  destruct (decide (cs = [])) as [->|Hne]; [done|].
  change (("" :: cs) ++ [""]) with ("" :: (cs ++ [""])).
  rewrite Join_cons by (by destruct cs). rewrite sapp_nil. rewrite Clean_rooted.
  unfold rooted_comps. rewrite path_Split_Join.
  - unfold clean_comps. rewrite foldl_app, (clean_comps_app _ _ cs) by done. simpl.
    unfold clean_step. by rewrite decide_True by (by left).
  - by destruct cs.
  - apply Forall_app; split; [by apply comps_lacks|by repeat constructor].
Qed.

(** [filepath.Join] of an absolute directory and a name. *)
Lemma Join_abs cs c : Forall comp (cs ++ [c]) → path_Join [abs cs; c] = abs (cs ++ [c]).
Proof.
  intros H. pose proof H as [Hcs [Hc _]%Forall_cons]%Forall_app.
  unfold path_Join. rewrite filter_cons_True by done. rewrite filter_cons_True by apply Hc.
  change (filter _ []) with (@nil string).
  assert (strings_Join [abs cs; c] "/" = "/" +:+ (strings_Join cs "/" +:+ "/" +:+ c)) as ->.
  { change (strings_Join [abs cs; c] "/") with (abs cs +:+ "/" +:+ c). unfold abs. by rewrite sapp_assoc. }
  rewrite Clean_rooted. unfold abs, rooted_comps. do 2 f_equal.
  destruct (decide (cs = [])) as [->|Hne].
  { change (path_split (strings_Join [] "/" +:+ "/" +:+ c)) with ("" :: path_split c).
    rewrite clean_comps_empty. unfold path_split. rewrite Split_single by apply Hc. by apply clean_comps_id. }
  assert (strings_Join cs "/" +:+ "/" +:+ c = strings_Join (cs ++ [c]) "/") as ->.
  { clear H Hcs. induction cs as [|d cs IH]; [done|]. destruct cs as [|e cs]; [done|].
    change ((d :: e :: cs) ++ [c]) with (d :: (e :: cs) ++ [c]).
    rewrite (Join_cons d ((e :: cs) ++ [c])), (Join_cons d (e :: cs)), <-IH by done. by rewrite !sapp_assoc. }
  rewrite path_Split_Join by (first [by destruct cs|by apply comps_lacks]). by apply clean_comps_id.
Qed.

(** ** Resolution *)

Lemma walk_nil n s f cur : walk n s f cur [] = Ok cur.
Proof. by destruct n. Qed.

Lemma walk_cons n s f cur c rest :
  walk n s f cur (c :: rest) =
    if is_dir s cur then
      if decide (c = "" ∨ c = ".") then walk n s f cur rest
      else if decide (c = "..") then walk n s f (removelast cur) rest
      else
        match i_node <$> lookup_path s (cur ++ [c]) with
        | None => match rest with [] => Ok (cur ++ [c]) | _ => Err ENOENT end
        | Some (Symlink target) =>
            if (match rest with [] => negb f | _ => false end) then Ok (cur ++ [c])
            else match n with
                 | O => Err ELOOP
                 | S n' => walk n' s f (if strings_HasPrefix target "/" then [] else cur) (path_split target ++ rest)
                 end
        | Some _ => walk n s f (cur ++ [c]) rest
        end
    else Err ENOTDIR.
Proof. by destruct n. Qed.

(** Every proper prefix of [p] is a directory. *)
Definition real (s : fs) (p : path) : Prop :=
  ∀ q c r, p = q ++ c :: r → is_dir s q = true.

Definition is_symlink (s : fs) (p : path) : bool :=
  match lookup_path s p with
  | Some i => match i_node i with Symlink _ => true | _ => false end
  | None => false
  end.

Lemma real_snoc s p c : real s (p ++ [c]) ↔ real s p ∧ is_dir s p = true.
Proof.
  split.
  - intros H. split; [|by apply (H p c [])].
    intros q d r ->. apply (H q d (r ++ [c])). by rewrite <-app_assoc.
  - intros [H Hd] q d r E. destruct r as [|e r _] using rev_ind.
    + apply app_inj_tail in E as [-> _]. done.
    + rewrite app_comm_cons, app_assoc in E. apply app_inj_tail in E as [-> _].
      by apply (H q d r).
Qed.

Lemma is_dir_lookup s p : is_dir s p = true ↔ ∃ i, lookup_path s p = Some i ∧ i_node i = Dir.
Proof.
  unfold is_dir. split.
  - destruct (lookup_path s p) as [i|]; [|done]. destruct (i_node i) eqn:?; try done. eauto.
  - by intros (i & -> & ->).
Qed.

Lemma walk_real n s f cur cs :
  Forall comp cs → (∀ q c r, cs = q ++ c :: r → is_dir s (cur ++ q) = true) →
  (f = true → is_symlink s (cur ++ cs) = false) →
  walk n s f cur cs = Ok (cur ++ cs).
Proof.
  revert cur. induction cs as [|c cs IH]; intros cur Hcs Hd Hl.
  { by rewrite walk_nil, app_nil_r. }
  apply Forall_cons in Hcs as [Hc Hcs]. destruct Hc as (H1&H2&H3&_).
  rewrite walk_cons.
  assert (is_dir s cur = true) as -> by (specialize (Hd [] c cs eq_refl); by rewrite app_nil_r in Hd).
  rewrite decide_False by tauto. rewrite decide_False by done.
  assert (cur ++ c :: cs = (cur ++ [c]) ++ cs) as E by (by rewrite <-app_assoc).
  rewrite E in *.
  assert (walk n s f (cur ++ [c]) cs = Ok ((cur ++ [c]) ++ cs)) as IH'.
  { apply IH; [done| |done]. intros q d r ->. rewrite <-app_assoc.
    by apply (Hd (c :: q) d r). }
  destruct (lookup_path s (cur ++ [c])) as [i|] eqn:El; simpl.
  - assert (∀ t, i_node i = Symlink t → f = false ∧ cs = []) as Hs.
    { intros t Ht. destruct cs as [|d cs].
      - destruct f; [|done]. exfalso. specialize (Hl eq_refl). rewrite app_nil_r in Hl.
        unfold is_symlink in Hl. by rewrite El, Ht in Hl.
      - specialize (Hd [c] d cs eq_refl). apply is_dir_lookup in Hd as (j & Hj & Hn). congruence. }
    destruct (i_node i) eqn:En; try done.
    destruct (Hs _ eq_refl) as [-> ->]. simpl. by rewrite app_nil_r.
  - destruct cs as [|d cs]; [by rewrite app_nil_r|].
    specialize (Hd [c] d cs eq_refl). apply is_dir_lookup in Hd as (j & Hj & Hn). congruence.
Qed.

Lemma namei_real f s cs :
  Forall comp cs → real s cs → is_dir s [] = true →
  (f = true → is_symlink s cs = false) → namei f (abs cs) s = Ok cs.
Proof.
  intros Hcs Hr H0 Hl. unfold namei. rewrite decide_False by done.
  destruct (decide (cs = [])) as [->|Hne].
  { change (path_split (abs [])) with ["";""]. by rewrite !walk_cons, H0, walk_nil. }
  rewrite split_abs by done. rewrite walk_cons, H0, decide_True by (by left).
  by rewrite walk_real.
Qed.

(** ** Well-formedness *)

(** The root is a directory, so is the parent of every name, every name is made
    of proper components and leads to an inode. *)
Record wf (s : fs) : Prop := {
  wf_root : is_dir s [] = true;
  wf_parent : ∀ p c, is_Some (fs_names s !! (p ++ [c])) → is_dir s p = true;
  wf_comps : ∀ p, is_Some (fs_names s !! p) → Forall comp p;
  wf_inode : ∀ p n, fs_names s !! p = Some n → is_Some (fs_inodes s !! n);
}.

Lemma is_dir_name s p : is_dir s p = true → is_Some (fs_names s !! p).
Proof.
  intros (i & H & _)%is_dir_lookup. unfold lookup_path in H.
  apply bind_Some in H as (n & -> & _). eauto.
Qed.

Lemma wf_prefix s p q : wf s → is_Some (fs_names s !! (p ++ q)) → q ≠ [] → is_dir s p = true.
Proof.
  intros Hwf. induction q as [|c q IH] using rev_ind; [done|]. intros H _.
  rewrite app_assoc in H. apply wf_parent in H; [|done].
  destruct (decide (q = [])) as [->|Hne]; [by rewrite app_nil_r in H|].
  apply IH; [by apply is_dir_name|done].
Qed.

Lemma wf_real s p : wf s → is_Some (fs_names s !! p) → real s p.
Proof. intros Hwf H q c r ->. by apply (wf_prefix s q (c :: r)). Qed.

Lemma wf_real_dir s p c : wf s → is_dir s p = true → real s (p ++ [c]).
Proof. intros Hwf H. apply real_snoc. split; [|done]. apply wf_real; [done|]. by apply is_dir_name. Qed.

Lemma lookup_path_name s p i : lookup_path s p = Some i → is_Some (fs_names s !! p).
Proof. intros (n & -> & _)%bind_Some. eauto. Qed.

Lemma wf_lookup s p : wf s → is_Some (fs_names s !! p) → is_Some (lookup_path s p).
Proof.
  intros Hwf [n Hn]. unfold lookup_path. rewrite Hn. simpl. by apply (wf_inode s Hwf p).
Qed.

(** ** Lookups after a change *)

Lemma lookup_path_create s q i p :
  (∀ p n, fs_names s !! p = Some n → is_Some (fs_inodes s !! n)) →
  lookup_path (create q i s) p = if decide (p = q) then Some i else lookup_path s p.
Proof.
  intros Hin. unfold lookup_path, create. simpl. case_decide as Hp.
  - subst. by rewrite lookup_insert_eq; simpl; rewrite lookup_insert_eq.
  - rewrite lookup_insert_ne by done. destruct (fs_names s !! p) as [n|] eqn:En; [|done]. simpl.
    rewrite lookup_insert_ne; [done|]. intros <-.
    apply Hin in En. apply elem_of_dom in En. by apply is_fresh in En.
Qed.

Lemma lookup_path_set_inode s n i p :
  lookup_path (set_inodes <[n := i]> s) p =
    if decide (fs_names s !! p = Some n) then Some i else lookup_path s p.
Proof.
  unfold lookup_path. simpl. destruct (fs_names s !! p) as [m|] eqn:E; simpl.
  - case_decide as H; [simplify_eq; by rewrite lookup_insert_eq|].
    rewrite lookup_insert_ne; [done|congruence].
  - done.
Qed.

(** An inode that keeps its kind changes no directory. *)
Lemma is_dir_set_inode s n i i' p :
  fs_inodes s !! n = Some i → i_node i' = i_node i →
  is_dir (set_inodes <[n := i']> s) p = is_dir s p.
Proof.
  intros Hi Hn. unfold is_dir. rewrite lookup_path_set_inode. case_decide as H; [|done].
  unfold lookup_path. rewrite H. simpl. by rewrite Hi, Hn.
Qed.

Lemma is_symlink_set_inode s n i i' p :
  fs_inodes s !! n = Some i → i_node i' = i_node i →
  is_symlink (set_inodes <[n := i']> s) p = is_symlink s p.
Proof.
  intros Hi Hn. unfold is_symlink. rewrite lookup_path_set_inode. case_decide as H; [|done].
  unfold lookup_path. rewrite H. simpl. by rewrite Hi, Hn.
Qed.

Lemma lookup_path_remove_tree s q p :
  lookup_path (set_names (remove_tree q) s) p =
    if decide (q `prefix_of` p) then None else lookup_path s p.
Proof.
  unfold lookup_path, remove_tree. simpl. case_decide as H.
  - rewrite map_lookup_filter_None_2; [done|]. right. intros n _ Hn. by apply Hn.
  - destruct (fs_names s !! p) as [n|] eqn:E; simpl.
    + by rewrite (map_lookup_filter_Some_2 (λ kv : path * nat, ¬ q `prefix_of` kv.1) _ p n).
    + by rewrite map_lookup_filter_None_2 by (by left).
Qed.

Lemma remove_tree_absent s q :
  wf s → fs_names s !! q = None → set_names (remove_tree q) s = s.
Proof.
  intros Hwf Hq. destruct s as [names inodes u x a]. unfold set_names, remove_tree. simpl in *. f_equal.
  apply map_filter_id. intros p n Hp Hpre. simpl in Hpre. destruct Hpre as [r ->].
  destruct (decide (r = [])) as [->|Hne]; [by rewrite app_nil_r, Hq in Hp|].
  assert (is_dir (mkFs names inodes u x a) q = true) as Hd%is_dir_name.
  { apply (wf_prefix _ q r Hwf); [by eexists|done]. }
  destruct Hd as [m Hm]. simpl in Hm. congruence.
Qed.

(** ** Well-formedness is kept *)

Lemma wf_create s q i :
  wf s → (∃ d c, q = d ++ [c] ∧ comp c ∧ is_dir s d = true) → fs_names s !! q = None →
  wf (create q i s).
Proof.
  intros [H0 Hp Hc Hi] (d & c & -> & Hcc & Hd) Hq.
  assert (∀ p, is_dir s p = true → is_dir (create (d ++ [c]) i s) p = true) as Hdirs.
  { intros p Hdp. unfold is_dir. rewrite lookup_path_create by done.
    rewrite decide_False; [done|]. intros ->. apply is_dir_name in Hdp as [? ?]. congruence. }
  split; [by apply Hdirs| | |].
  - intros p e. simpl. destruct (decide (d ++ [c] = p ++ [e])) as [E|Hne].
    + apply app_inj_tail in E as [<- <-]. intros _. by apply Hdirs.
    + rewrite lookup_insert_ne by done. intros. apply Hdirs. by apply Hp in H.
  - intros p [n Hn]. simpl in Hn. apply lookup_insert_Some in Hn as [[<- _]|[_ Hn]]; [|by apply Hc].
    apply Forall_app; split; [by apply Hc, is_dir_name|by constructor].
  - intros p n. simpl. destruct (decide (d ++ [c] = p)) as [<-|Hne].
    + rewrite lookup_insert_eq. intros [= <-]. rewrite lookup_insert_eq. eauto.
    + rewrite lookup_insert_ne by done. intros H%Hi.
      rewrite lookup_insert_is_Some'. by right.
Qed.

Lemma wf_set_inode s n i i' :
  wf s → fs_inodes s !! n = Some i → i_node i' = i_node i → wf (set_inodes <[n := i']> s).
Proof.
  intros [H0 Hp Hc Hi] Hn Hk. split.
  - by rewrite (is_dir_set_inode s n i i').
  - intros p c H. rewrite (is_dir_set_inode s n i i') by done. by apply (Hp p c).
  - apply Hc.
  - intros p m H%Hi. simpl. rewrite lookup_insert_is_Some'. by right.
Qed.

Lemma wf_remove_tree s q : wf s → q ≠ [] → wf (set_names (remove_tree q) s).
Proof.
  intros [H0 Hp Hc Hi] Hq.
  assert (∀ p, is_dir s p = true → ¬ q `prefix_of` p → is_dir (set_names (remove_tree q) s) p = true) as Hdirs.
  { intros p Hd Hn. unfold is_dir. by rewrite lookup_path_remove_tree, decide_False. }
  split.
  - apply Hdirs; [done|]. by intros ?%prefix_nil_inv.
  - intros p c [n Hn]. simpl in Hn. apply map_lookup_filter_Some in Hn as [Hn Hq']. simpl in Hq'.
    apply Hdirs; [by apply (Hp p c)|]. intros Hpre. apply Hq'. by apply prefix_app_r.
  - intros p [n Hn]. simpl in Hn. apply map_lookup_filter_Some in Hn as [Hn _]. by apply Hc.
  - intros p n Hn. simpl in *. apply map_lookup_filter_Some in Hn as [Hn _]. by apply (Hi p).
Qed.

(** ** Operations at a real path *)

(** The name [p], reached without a symbolic link on the way, leads to the inode
    [n], which is [i]. *)
Definition at_inode (s : fs) (p : path) (n : nat) (i : inode) : Prop :=
  Forall comp p ∧ real s p ∧ is_dir s [] = true ∧ fs_names s !! p = Some n ∧ fs_inodes s !! n = Some i.

Lemma at_lookup s p n i : at_inode s p n i → lookup_path s p = Some i.
Proof. intros (_&_&_&Hn&Hi). unfold lookup_path. by rewrite Hn. Qed.

Lemma at_namei f s p n i :
  at_inode s p n i → (f = true → ∀ t, i_node i ≠ Symlink t) → namei f (abs p) s = Ok p.
Proof.
  intros Hat Hf. pose proof (at_lookup _ _ _ _ Hat) as Hl. destruct Hat as (Hp&Hr&H0&_).
  apply namei_real; [done..|]. intros Ht. unfold is_symlink. rewrite Hl.
  specialize (Hf Ht). destruct (i_node i) eqn:?; try done. by destruct (Hf target).
Qed.

Lemma at_set s p n i i' :
  at_inode s p n i → i_node i' = i_node i → at_inode (set_inodes <[n := i']> s) p n i'.
Proof.
  intros (Hp&Hr&H0&Hn&Hi) Hk. repeat split; try done.
  - intros q c r E. rewrite (is_dir_set_inode s n i i') by done. by apply (Hr q c r).
  - by rewrite (is_dir_set_inode s n i i').
  - simpl. by rewrite lookup_insert_eq.
Qed.

Lemma set_attr_at f s p n i g :
  at_inode s p n i → (f = true → ∀ t, i_node i ≠ Symlink t) →
  set_attr f (abs p) g s =
    match g i with
    | Ok i' => (Ok tt, set_inodes <[n := i']> s)
    | Err e => (Err e, s)
    end.
Proof.
  intros Hat Hf. unfold set_attr. rewrite (at_namei f s p n i) by done.
  destruct Hat as (Hp&Hr&H0&Hn&Hi). rewrite Hn, Hi. by destruct (g i).
Qed.

Lemma create_at s p i :
  Forall comp p → real s p → is_dir s [] = true → fs_names s !! p = None →
  (∀ p n, fs_names s !! p = Some n → is_Some (fs_inodes s !! n)) →
  at_inode (create p i s) p (fresh (dom (fs_inodes s))) i.
Proof.
  intros Hp Hr H0 Hn Hin.
  assert (∀ q, is_dir s q = true → is_dir (create p i s) q = true) as Hd.
  { intros q Hq. unfold is_dir. rewrite lookup_path_create by done.
    rewrite decide_False; [done|]. intros ->. apply is_dir_name in Hq as [? ?]. congruence. }
  repeat split; [done| |by apply Hd|..].
  - intros q c r E. by apply Hd, (Hr q c r).
  - simpl. by rewrite lookup_insert_eq.
  - simpl. by rewrite lookup_insert_eq.
Qed.

Lemma set_inodes_set_inodes n i i' s :
  set_inodes <[n := i']> (set_inodes <[n := i]> s) = set_inodes <[n := i']> s.
Proof. destruct s. unfold set_inodes. simpl. by rewrite insert_insert_eq. Qed.

(** [os.Stat] of a directory reached without links. *)
Lemma Stat_dir s p :
  Forall comp p → real s p → is_dir s [] = true → is_dir s p = true →
  ∃ i, os_Stat (abs p) s = (Ok i, s) ∧ IsDir i = true.
Proof.
  intros Hp Hr H0 Hd. pose proof (proj1 (is_dir_lookup s p) Hd) as (i & Hl & Hn).
  exists i. split; [|by unfold IsDir; rewrite Hn].
  unfold os_Stat, io_read, stat. rewrite namei_real; [|done..|].
  - simpl. by rewrite Hl.
  - intros _. unfold is_symlink. by rewrite Hl, Hn.
Qed.

Lemma MkdirAll_rev_eq rcs perm :
  MkdirAll_rev rcs perm =
    let! dir := io_try (os_Stat (abs (rev rcs))) in
    match dir with
    | Ok i => if IsDir i then io_ret tt else io_err ENOTDIR
    | Err _ =>
        match rcs with
        | [] => io_ret tt
        | _ :: parent => MkdirAll_rev parent perm
        end ;!
        let! err := io_try (os_Mkdir (abs (rev rcs)) perm) in
        match err with
        | Ok _ => io_ret tt
        | Err e =>
            let! dir := io_try (os_Lstat (abs (rev rcs))) in
            match dir with
            | Ok i => if IsDir i then io_ret tt else io_err e
            | Err _ => io_err e
            end
        end
    end.
Proof. by destruct rcs. Qed.

Lemma MkdirAll_dir s p perm :
  Forall comp p → wf s → is_dir s p = true → os_MkdirAll (abs p) perm s = (Ok tt, s).
Proof.
  intros Hp Hwf Hd. unfold os_MkdirAll. rewrite rooted_comps_abs by done.
  destruct (Stat_dir s p) as (i & Hs & Hi); [done|by apply wf_real, is_dir_name|by apply wf_root|done|].
  rewrite MkdirAll_rev_eq, rev_involutive. unfold io_bind, io_try. by rewrite Hs, Hi.
Qed.

(** [os.RemoveAll] of a name in a directory reached without links. *)
Lemma RemoveAll_entry s p c :
  Forall comp (p ++ [c]) → wf s → is_dir s p = true →
  os_RemoveAll (abs (p ++ [c])) s = (Ok tt, set_names (remove_tree (p ++ [c])) s).
Proof.
  intros Hp Hwf Hd. unfold os_RemoveAll. rewrite decide_False by done.
  assert (endsWithDot (abs (p ++ [c])) = false) as ->.
  { unfold endsWithDot. rewrite split_abs by (first [by destruct p|done]).
    rewrite app_comm_cons, last_snoc. apply bool_decide_eq_false. intros [= ->].
    apply Forall_app in Hp as [_ [(_&?&_) _]%Forall_cons]. done. }
  rewrite namei_real; [|done|by apply wf_real_dir|by apply wf_root|done].
  destruct (p ++ [c]) eqn:E; [by destruct p|done].
Qed.

Lemma child_of_Some q p d : child_of q p = Some d ↔ p = q ++ [d].
Proof.
  unfold child_of. destruct p as [|c p _] using rev_ind; simpl.
  - split; [done|]. by destruct q.
  - rewrite last_snoc, removelast_last. case_decide as H; subst; split.
    + by intros [= ->].
    + by intros [_ ->]%app_inj_tail.
    + done.
    + by intros [? _]%app_inj_tail.
Qed.

Lemma elem_of_children s q d : d ∈ children s q ↔ is_Some (fs_names s !! (q ++ [d])).
Proof.
  unfold children. rewrite list_elem_of_omap. split.
  - intros (p & Hp & E). apply child_of_Some in E as ->.
    apply list_elem_of_fmap in Hp as ([p n] & -> & Hp). apply elem_of_map_to_list in Hp. by exists n.
  - intros [n Hn]. exists (q ++ [d]). split; [|by apply child_of_Some].
    apply list_elem_of_fmap. exists (q ++ [d], n). split; [done|]. by apply elem_of_map_to_list.
Qed.

Lemma ReadDir_dir s q :
  Forall comp q → wf s → is_dir s q = true →
  os_ReadDir (abs q) s = (Ok (merge_sort string_le (children s q)), s).
Proof.
  intros Hq Hwf Hd. unfold os_ReadDir, io_read.
  pose proof (proj1 (is_dir_lookup s q) Hd) as (i & Hl & Hn).
  rewrite namei_real; [|done|by apply wf_real, is_dir_name|by apply wf_root|].
  - simpl. rewrite Hl. unfold IsDir. by rewrite Hn.
  - intros _. unfold is_symlink. by rewrite Hl, Hn.
Qed.

(** ** Concrete file systems *)

(** A test for well-formedness. *)
Definition wf_name (s : fs) (kv : path * nat) : bool :=
  bool_decide (Forall comp kv.1) && bool_decide (is_Some (fs_inodes s !! kv.2)) &&
  match kv.1 with [] => true | _ => is_dir s (removelast kv.1) end.
Definition wf_b (s : fs) : bool := is_dir s [] && forallb (wf_name s) (map_to_list (fs_names s)).

Lemma wf_b_sound s : wf_b s = true → wf s.
Proof.
  unfold wf_b. intros [H0 H]%andb_true_iff. rewrite forallb_forall in H.
  assert (∀ p n, fs_names s !! p = Some n → wf_name s (p, n) = true) as Hn.
  { intros p n E. apply H, list_elem_of_In, elem_of_map_to_list. done. }
  split; [done|..].
  - intros p c [n E]. apply Hn in E. unfold wf_name in E. cbn [fst snd] in E.
    apply andb_true_iff in E as [_ E]. rewrite removelast_last in E. by destruct p.
  - intros p [n E]. apply Hn in E. unfold wf_name in E. bool_to_prop. done.
  - intros p n E. apply Hn in E. unfold wf_name in E. bool_to_prop. done.
Qed.
