(* ===== verification/Rootfs.v ===== *)
(** * Unpacking image layers: [internal/rootfs/extract.go]

    [ApplyLayer] over the entries [archive/tar] reads from a layer, on the
    file system of FS.v.  Log lines are not modelled. *)

From S2P Require Import Prelude Platform GoStrings GoPath FS FSFacts.

Definition whiteoutPrefix : string := ".wh.".
Definition whiteoutOpaque : string := ".wh..wh..opq".

Definition protectedFiles (rel : string) : bool := bool_decide (rel = "sbin/init").
Definition mustRemainDirs (rel : string) : bool := bool_decide (rel = "sbin" ∨ rel = "peel").
Definition protectedDirs : list string := ["peel"].

Definition isProtected (rel : string) : bool :=
  let rel := strings_TrimPrefix rel "/" in
  if decide (rel = "") then false
  else if protectedFiles rel then true
  else existsb (λ d, bool_decide (rel = d) || strings_HasPrefix rel (d +:+ "/")) protectedDirs.

(** ** The tar stream *)

(** The fields of [tar.Header] the code reads.  [hdr_PAXRecords] lists the
    records in the order the code ranges over the map; [hdr_ModTime] is in
    nanoseconds since the epoch, [None] for the zero [time.Time]. *)
Record Header := mkHeader {
  hdr_Typeflag : ascii;
  hdr_Name : string;
  hdr_Linkname : string;
  hdr_Mode : Z;
  hdr_Uid : Z;
  hdr_Gid : Z;
  hdr_Devmajor : Z;
  hdr_Devminor : Z;
  hdr_PAXRecords : list (string * string);
  hdr_ModTime : option Z;
}.

Definition TypeReg : ascii := "0".
Definition TypeRegA : ascii := "000".
Definition TypeLink : ascii := "1".
Definition TypeSymlink : ascii := "2".
Definition TypeChar : ascii := "3".
Definition TypeBlock : ascii := "4".
Definition TypeDir : ascii := "5".
Definition TypeFifo : ascii := "6".
Definition TypeXHeader : ascii := "x".
Definition TypeXGlobalHeader : ascii := "g".
Definition TypeGNULongName : ascii := "L".
Definition TypeGNULongLink : ascii := "K".

(** What [tr.Next] answers: a header, with the content [tr] then reads (and
    whether reading it ends in an error), or an error other than [io.EOF]. *)
Inductive tar_item :=
  | TarEntry (hdr : Header) (content : string) (read_err : bool)
  | TarError.

Inductive extract_error := SysErr (e : errno) | CopyErr.

Inductive rootfs_error :=
  | ErrReading
  | ErrOpaque (dir : string) (e : errno)
  | ErrWhiteout (deleted : string) (e : errno)
  | ErrExtracting (name : string) (e : extract_error).

(** ** Extraction of one entry *)

(** [hdr.Mode & 0o7777]. *)
Definition hdr_perm (hdr : Header) : Z := Z.land (hdr_Mode hdr) o7777.

Definition xattr_prefix : string := "SCHILY.xattr.".

Definition applyXattrs (target : string) (hdr : Header) : io extract_error unit :=
  io_iter (λ kv,
    if strings_HasPrefix kv.1 xattr_prefix then
      io_try (unix_Lsetxattr target (strings_TrimPrefix kv.1 xattr_prefix) kv.2) ;! io_ret tt
    else io_ret tt) (hdr_PAXRecords hdr).

(** [time.Time.UnixNano] is an [int64]. *)
Definition int64 (z : Z) : Z := wrap_signed 64 z.

(** [unix.NsecToTimespec], as nanoseconds: the seconds are an [int] wide. *)
Definition NsecToTimespec {a : GOARCH} (ns : Z) : Z := to_int (ns `div` 1000000000) * 1000000000 + ns `mod` 1000000000.

(** On 386 a time after January 2038 is set to one of the last century. *)
Lemma mtime_386 : NsecToTimespec (a := I386) (2 ^ 31 * 1000000000) = - 2 ^ 31 * 1000000000.
Proof. reflexivity. Qed.

Definition setTimes (target : string) (t : option Z) : io extract_error unit :=
  match t with
  | None => io_ret tt
  | Some ns => λ s, (io_try (unix_UtimesNanoAt target (NsecToTimespec (a := fs_arch s) (int64 ns))) ;! io_ret tt) s
  end.

(** The [if] around [os.Lstat]: an entry of another kind makes room first. *)
Definition make_room (target : string) (typeflag : ascii) : io extract_error unit :=
  let! fi := io_try (os_Lstat target) in
  match fi with
  | Ok i => if negb (bool_decide (typeflag = TypeDir) && IsDir i)
            then io_wrap SysErr (os_RemoveAll target) else io_ret tt
  | Err _ => io_ret tt
  end.

(** What the [switch] on the type of the entry does: it says whether the
    attributes are to be set, or the entry was skipped. *)
Definition make_entry (root target : string) (hdr : Header) (content : string) (read_err : bool)
    : io extract_error bool :=
  let t := hdr_Typeflag hdr in
  if decide (t = TypeDir) then
    io_wrap SysErr (os_MkdirAll target (hdr_perm hdr)) ;! io_ret true
  else if decide (t = TypeReg ∨ t = TypeRegA) then
    let! f := io_wrap SysErr (os_OpenFile target (hdr_perm hdr)) in
    io_wrap SysErr (write f content) ;!
    if read_err then io_err CopyErr else io_ret true
  else if decide (t = TypeSymlink) then
    io_wrap SysErr (os_Symlink (hdr_Linkname hdr) target) ;! io_ret true
  else if decide (t = TypeLink) then
    let linkRel := strings_TrimPrefix (path_Clean ("/" +:+ hdr_Linkname hdr)) "/" in
    io_wrap SysErr (os_Link (path_Join [root; linkRel]) target) ;! io_ret true
  else if decide (t = TypeChar) then
    io_wrap SysErr (unix_Mknod target (CharDev (mkdev (hdr_Devmajor hdr) (hdr_Devminor hdr))) (hdr_perm hdr)) ;! io_ret true
  else if decide (t = TypeBlock) then
    io_wrap SysErr (unix_Mknod target (BlockDev (mkdev (hdr_Devmajor hdr) (hdr_Devminor hdr))) (hdr_perm hdr)) ;! io_ret true
  else if decide (t = TypeFifo) then
    io_wrap SysErr (unix_Mknod target Fifo (hdr_perm hdr)) ;! io_ret true
  else io_ret false.

(** The attributes; only logged when they cannot be set. *)
Definition set_attributes (target : string) (hdr : Header) : io extract_error unit :=
  io_try (os_Lchown target (hdr_Uid hdr) (hdr_Gid hdr)) ;!
  (if decide (hdr_Typeflag hdr = TypeSymlink) then io_ret tt
   else io_try (os_Chmod target (hdr_perm hdr)) ;! io_ret tt) ;!
  applyXattrs target hdr ;!
  setTimes target (hdr_ModTime hdr).

Definition extractEntry (root rel : string) (hdr : Header) (content : string) (read_err : bool)
    : io extract_error unit :=
  let target := path_Join [root; rel] in
  io_wrap SysErr (os_MkdirAll (path_Dir target) o755) ;!
  make_room target (hdr_Typeflag hdr) ;!
  let! made := make_entry root target hdr content read_err in
  if (made : bool) then set_attributes target hdr else io_ret tt.

(** ** A layer *)

Definition clearDir (dirPath relDir : string) : io errno unit :=
  let! entries := io_try (os_ReadDir dirPath) in
  match entries with
  | Err ENOENT => io_ret tt
  | Err e => io_err e
  | Ok names =>
      io_iter (λ name,
        if isProtected (path_Join [relDir; name]) then io_ret tt
        else os_RemoveAll (path_Join [dirPath; name])) names
  end.

(** The body of [ApplyLayer]'s loop, after [tr.Next] returned a header. *)
Definition applyEntry (root : string) (hdr : Header) (content : string) (read_err : bool)
    : io rootfs_error unit :=
  let rel := strings_TrimPrefix (path_Clean ("/" +:+ hdr_Name hdr)) "/" in
  if decide (rel = "" ∨ rel = ".") then io_ret tt
  else
    let dir := if decide (path_Dir rel = ".") then "" else path_Dir rel in
    let base := path_Base rel in
    if decide (base = whiteoutOpaque) then
      if isProtected dir then io_ret tt
      else io_wrap (ErrOpaque dir) (clearDir (path_Join [root; dir]) dir)
    else if strings_HasPrefix base whiteoutPrefix then
      let deleted := path_Join [dir; strings_TrimPrefix base whiteoutPrefix] in
      if isProtected deleted || mustRemainDirs deleted then io_ret tt
      else io_wrap (ErrWhiteout deleted) (os_RemoveAll (path_Join [root; deleted]))
    else if isProtected rel then io_ret tt
    else if mustRemainDirs rel && negb (bool_decide (hdr_Typeflag hdr = TypeDir)) then io_ret tt
    else io_wrap (ErrExtracting (hdr_Name hdr)) (extractEntry root rel hdr content read_err).

Fixpoint ApplyLayer (root : string) (r : list tar_item) : io rootfs_error unit :=
  match r with
  | [] => io_ret tt
  | TarError :: _ => io_err ErrReading
  | TarEntry hdr content read_err :: r' =>
      applyEntry root hdr content read_err ;! ApplyLayer root r'
  end.

(** ** Names as components *)

(** [isProtected] on the components of a path. *)
Definition prot (cs : path) : bool :=
  bool_decide (cs = ["sbin"; "init"]) || bool_decide (head cs = Some "peel").

Lemma prefix_app_slash p s : strings_HasPrefix s (p +:+ "/") = true ↔ ∃ t, s = p +:+ "/" +:+ t.
Proof.
  revert s. induction p as [|a p IH]; intros s.
  - destruct s as [|b s]; [split; [done|by intros [? ?]]|].
    rewrite sapp_nil, HasPrefix_slash, bool_decide_eq_true. split.
    + intros ->. by exists s.
    + by intros [t [= -> ->]].
  - rewrite sapp_cons. destruct s as [|b s]; [split; [done|by intros [? ?]]|].
    change (strings_HasPrefix (String b s) (String a (p +:+ "/")))
      with (if ascii_dec a b then strings_HasPrefix s (p +:+ "/") else false).
    destruct (ascii_dec a b) as [->|Hne].
    + rewrite IH. split; intros [t E]; exists t; [by rewrite E|]. rewrite sapp_cons in E. by simplify_eq.
    + split; [done|]. intros [t E]. rewrite sapp_cons in E. by simplify_eq.
Qed.

Lemma Join_inj cs ds : Forall comp cs → Forall comp ds → strings_Join cs "/" = strings_Join ds "/" → cs = ds.
Proof.
  intros Hc Hd E. destruct (decide (cs = [])) as [->|Hcs], (decide (ds = [])) as [->|Hds]; try done.
  - symmetry in E. by apply Join_nonempty in E.
  - by apply Join_nonempty in E.
  - rewrite <-(path_Split_Join cs), <-(path_Split_Join ds) by (done || by apply comps_lacks). by rewrite E.
Qed.

Lemma Join_single c cs : Forall comp cs → comp c → strings_Join cs "/" = c ↔ cs = [c].
Proof.
  intros Hcs Hc. split; [|by intros ->]. intros E. apply (Join_inj cs [c]); [done| |done].
  by constructor; [|constructor].
Qed.

Lemma TrimPrefix_Join cs : Forall comp cs → strings_TrimPrefix (strings_Join cs "/") "/" = strings_Join cs "/".
Proof.
  intros H. destruct (decide (cs = [])) as [->|Hne]; [done|].
  unfold strings_TrimPrefix. by rewrite Join_prefix_slash.
Qed.

Lemma comp_lit c : bool_decide (comp c) = true → comp c.
Proof. apply bool_decide_eq_true. Qed.

Lemma isProtected_Join cs : Forall comp cs → isProtected (strings_Join cs "/") = prot cs.
Proof.
  intros H. unfold isProtected. rewrite TrimPrefix_Join by done. case_decide as E.
  { destruct (decide (cs = [])) as [->|Hne]; [done|]. by apply Join_nonempty in E. }
  unfold protectedFiles, protectedDirs, prot. simpl. rewrite orb_false_r.
  rewrite (bool_decide_ext _ (cs = ["sbin"; "init"])).
  2:{ split; [|by intros ->]. intros E'. apply (Join_inj cs ["sbin"; "init"]); [done| |done].
      repeat (apply Forall_cons; split; [by apply comp_lit|]). constructor. }
  rewrite (bool_decide_ext (strings_Join cs "/" = "peel") (cs = ["peel"])) by (apply Join_single; [done|by apply comp_lit]).
  destruct (bool_decide (cs = _)) eqn:E1; [done|]. simpl. apply eq_true_iff_eq.
  rewrite orb_true_iff, !bool_decide_eq_true, (prefix_app_slash "peel"). split.
  - intros [->|[t Ht]]; [done|].
    assert (path_split (strings_Join cs "/") = "peel" :: path_split t) as Hs by (by rewrite Ht).
    rewrite path_Split_Join in Hs; [by rewrite Hs|by intros ->|by apply comps_lacks].
  - destruct cs as [|c cs]; [done|]. intros [= ->]. destruct cs as [|d cs]; [by left|].
    right. by exists (strings_Join (d :: cs) "/").
Qed.

Lemma mustRemainDirs_Join cs :
  Forall comp cs → mustRemainDirs (strings_Join cs "/") = bool_decide (cs = ["sbin"] ∨ cs = ["peel"]).
Proof.
  intros H. unfold mustRemainDirs. apply bool_decide_ext.
  by rewrite !Join_single by (done || by apply comp_lit).
Qed.

(** [applyEntry] on the root, in terms of the components of the name. *)
Lemma applyEntry_root hdr content read_err :
  rooted_comps (hdr_Name hdr) = [] → applyEntry "/" hdr content read_err = io_ret tt.
Proof.
  intros E. unfold applyEntry. by rewrite Clean_rooted, TrimPrefix_rooted, E.
Qed.

Lemma applyEntry_comps hdr content read_err cs c :
  rooted_comps (hdr_Name hdr) = cs ++ [c] →
  applyEntry "/" hdr content read_err =
    if decide (c = whiteoutOpaque) then
      if prot cs then io_ret tt
      else io_wrap (ErrOpaque (strings_Join cs "/")) (clearDir (abs cs) (strings_Join cs "/"))
    else if strings_HasPrefix c whiteoutPrefix then
      let deleted := path_Join [strings_Join cs "/"; strings_TrimPrefix c whiteoutPrefix] in
      if isProtected deleted || mustRemainDirs deleted then io_ret tt
      else io_wrap (ErrWhiteout deleted) (os_RemoveAll (path_Join ["/"; deleted]))
    else if prot (cs ++ [c]) then io_ret tt
    else if bool_decide (cs ++ [c] = ["sbin"] ∨ cs ++ [c] = ["peel"]) && negb (bool_decide (hdr_Typeflag hdr = TypeDir)) then io_ret tt
    else io_wrap (ErrExtracting (hdr_Name hdr)) (extractEntry "/" (strings_Join (cs ++ [c]) "/") hdr content read_err).
Proof.
  intros E. pose proof (rooted_comps_comps (hdr_Name hdr)) as H. rewrite E in H.
  assert (Forall comp cs) as Hcs by (by apply Forall_app in H as [? _]).
  unfold applyEntry. rewrite Clean_rooted, TrimPrefix_rooted, E.
  rewrite decide_False.
  2:{ intros [E'|E']; [by apply Join_nonempty in E'; [|destruct cs|]|].
      assert (path_split (strings_Join (cs ++ [c]) "/") = ["."]) as Hs by (by rewrite E').
      rewrite path_Split_Join in Hs by (first [by destruct cs|by apply comps_lacks]).
      rewrite Hs in H. apply Forall_cons in H as [(_&?&_) _]. done. }
  rewrite Base_Join, Dir_Join by done.
  assert ((if decide (match cs with [] => "." | _ :: _ => strings_Join cs "/" end = ".") then ""
    else match cs with [] => "." | _ :: _ => strings_Join cs "/" end) = strings_Join cs "/") as ->.
  { destruct cs as [|d cs]; [done|]. case_decide as E'; [|done].
    apply (f_equal path_split) in E'. rewrite path_Split_Join in E' by (first [done|by apply comps_lacks]).
    change (path_split ".") with ["."] in E'. rewrite E' in Hcs. apply Forall_cons in Hcs as [(_&?&_) _]. done. }
  assert (path_Join ["/"; strings_Join cs "/"] = abs cs) as ->.
  { destruct (decide (cs = [])) as [->|Hne]; [done|]. by apply Join_root. }
  cbv zeta. by rewrite !isProtected_Join, mustRemainDirs_Join by done.
Qed.
