(* ===== verification/RootfsLayers.v ===== *)
(** * What a layer does to the file system

    Whiteouts, opaque whiteouts and the extraction of an entry, where the
    directory that holds it is reached without symbolic links. *)

From stdpp Require Import sorting.
From S2P Require Import Prelude Platform GoStrings GoPath FS FSFacts Rootfs.

(** ** Whiteouts *)

Lemma TrimPrefix_app p s : strings_TrimPrefix (p +:+ s) p = s.
Proof.
  unfold strings_TrimPrefix.
  assert (strings_HasPrefix (p +:+ s) p = true) as ->.
  { induction p as [|a p IH]; [by destruct s|]. rewrite sapp_cons.
    change (strings_HasPrefix (String a (p +:+ s)) (String a p))
      with (if ascii_dec a a then strings_HasPrefix (p +:+ s) p else false).
    by destruct (ascii_dec a a). }
  induction p as [|a p IH]; [done|]. exact IH.
Qed.

Lemma whiteout_name c : strings_HasPrefix (whiteoutPrefix +:+ c) whiteoutPrefix = true.
Proof. by destruct c. Qed.

(** [s'] is [s] without the names [gone] holds of. *)
Definition without (gone : path → bool) (s s' : fs) : Prop :=
  ∀ p, lookup_path s' p = if gone p then None else lookup_path s p.

(** The effect of a whiteout of [p]. *)
Definition whiteout_gone (p q : path) : bool :=
  negb (prot p || bool_decide (p = ["sbin"])) && bool_decide (p `prefix_of` q).

Lemma whiteout_effect s hdr content read_err cs c :
  wf s → rooted_comps (hdr_Name hdr) = cs ++ [whiteoutPrefix +:+ c] →
  comp c → c ≠ ".wh..opq" → is_dir s cs = true →
  ∃ s', applyEntry "/" hdr content read_err s = (Ok tt, s') ∧ wf s' ∧ without (whiteout_gone (cs ++ [c])) s s'.
Proof.
  intros Hwf E Hc Hopq Hd. rewrite (applyEntry_comps _ _ _ _ _ E).
  assert (Forall comp (cs ++ [c])) as Hcomps.
  { apply Forall_app; split; [|by constructor]. by apply (wf_comps s Hwf), is_dir_name. }
  rewrite decide_False by (by intros [= E']).
  rewrite whiteout_name, TrimPrefix_app, Join_dir by done. cbv zeta.
  rewrite isProtected_Join, mustRemainDirs_Join by done.
  assert (prot (cs ++ [c]) || bool_decide (cs ++ [c] = ["sbin"] ∨ cs ++ [c] = ["peel"])
    = prot (cs ++ [c]) || bool_decide (cs ++ [c] = ["sbin"])) as ->.
  { destruct (decide (cs ++ [c] = ["peel"])) as [->|Hne]; [done|]. f_equal. apply bool_decide_ext. tauto. }
  unfold whiteout_gone, without. destruct (prot _ || _); simpl.
  { by exists s. }
  rewrite Join_root by (first [by destruct cs|done]). fold (abs (cs ++ [c])).
  unfold io_wrap. rewrite RemoveAll_entry by done. simpl. eexists; split; [done|]. split.
  - apply wf_remove_tree; [done|by destruct cs].
  - intros p. rewrite lookup_path_remove_tree. by repeat case_decide; repeat case_bool_decide.
Qed.

(** ** Opaque whiteouts *)

(** The entry of [cs] that [p] is, or is below. *)
Definition below (cs p : path) : option string :=
  if decide (cs `prefix_of` p) then head (drop (length cs) p) else None.

Lemma below_Some cs p d : below cs p = Some d ↔ ∃ r, p = cs ++ d :: r.
Proof.
  unfold below. split.
  - case_decide as H; [|done]. destruct H as [r ->]. rewrite drop_app_length.
    destruct r as [|e r]; [done|]. intros [= ->]. eauto.
  - intros [r ->]. rewrite decide_True by (by exists (d :: r)). by rewrite drop_app_length.
Qed.

Lemma below_app cs d r : below cs (cs ++ d :: r) = Some d.
Proof. apply below_Some. eauto. Qed.

(** The names an opaque whiteout in [cs] removes: all below it, but what is
    below a protected entry of it. *)
Definition opaque_gone (cs p : path) : bool :=
  match below cs p with
  | Some d => negb (prot (cs ++ [d]))
  | None => false
  end.

(** What clearing the entries [names] of [cs] removes. *)
Definition cleared (cs : path) (names : list string) (p : path) : bool :=
  match below cs p with
  | Some d => bool_decide (d ∈ names) && negb (prot (cs ++ [d]))
  | None => false
  end.

(** The loop of [clearDir] over the entries [names]. *)
Lemma clear_loop s cs names :
  wf s → is_dir s cs = true → Forall (λ d, is_Some (fs_names s !! (cs ++ [d]))) names →
  NoDup names →
  ∃ s', io_iter (λ name,
          if isProtected (path_Join [strings_Join cs "/"; name]) then io_ret tt
          else os_RemoveAll (path_Join [abs cs; name])) names s = (Ok tt, s') ∧
        wf s' ∧ is_dir s' cs = true ∧
        without (cleared cs names) s s'.
Proof.
  intros Hwf Hd Hnames Hnd.
  assert (Forall comp cs) as Hcs by (by apply (wf_comps s Hwf), is_dir_name).
  revert s Hwf Hd Hnames. induction Hnd as [|d names Hd' Hnd IH]; intros s Hwf Hd Hnames.
  { exists s. split_and!; [done..|]. intros p. unfold cleared. by destruct (below cs p). }
  apply Forall_cons in Hnames as [Hdn Hnames].
  assert (Forall comp (cs ++ [d])) as Hc by (by apply (wf_comps s Hwf)).
  cbn [io_iter]. unfold io_bind at 1. rewrite Join_dir, isProtected_Join, Join_abs by done.
  destruct (prot (cs ++ [d])) eqn:Hp.
  - destruct (IH s Hwf Hd Hnames) as (s' & Hrun & Hwf' & Hd2 & Hl). exists s'. split_and!; [done..|].
    intros p. rewrite Hl. unfold cleared. destruct (below cs p) as [e|]; [|done].
    destruct (decide (e = d)) as [->|Hne]; [by rewrite Hp, !andb_false_r|].
    by rewrite (bool_decide_ext (e ∈ d :: names) (e ∈ names)) by (rewrite elem_of_cons; tauto).
  - rewrite RemoveAll_entry by done.
    set (s1 := set_names (remove_tree (cs ++ [d])) s).
    assert (∀ p, lookup_path s1 p = if decide (cs ++ [d] `prefix_of` p) then None else lookup_path s p) as Hl1
      by apply lookup_path_remove_tree.
    destruct (IH s1) as (s' & Hrun & Hwf' & Hd2 & Hl).
    + apply wf_remove_tree; [done|by destruct cs].
    + unfold is_dir. rewrite Hl1, decide_False; [done|]. intros [r E].
      apply (f_equal length) in E. rewrite !length_app in E. simpl in E. lia.
    + apply Forall_forall. intros e He. rewrite Forall_forall in Hnames. specialize (Hnames e He).
      apply wf_lookup in Hnames; [|done]. destruct Hnames as [i Hi].
      apply (lookup_path_name _ _ i). rewrite Hl1, decide_False; [done|]. intros [r E].
      rewrite <-app_assoc in E. simplify_list_eq. done.
    + exists s'. split_and!; [done..|]. intros p. rewrite Hl, Hl1. unfold cleared.
      destruct (below cs p) as [e|] eqn:Eb.
      * apply below_Some in Eb as [r ->]. destruct (decide (e = d)) as [->|Hne].
        -- rewrite Hp, (bool_decide_eq_true_2 (d ∈ d :: names)) by (by left). simpl.
           rewrite decide_True by (exists r; by rewrite <-app_assoc). by destruct (bool_decide _).
        -- rewrite (bool_decide_ext (e ∈ d :: names) (e ∈ names)) by (rewrite elem_of_cons; tauto).
           rewrite decide_False; [done|]. intros [r' E]. rewrite <-app_assoc in E. by simplify_list_eq.
      * rewrite decide_False; [done|]. intros [r ->]. rewrite <-app_assoc in Eb. simpl in Eb.
        by rewrite below_app in Eb.
Qed.

Lemma NoDup_children s q : NoDup (children s q).
Proof.
  unfold children. pose proof (NoDup_fst_map_to_list (fs_names s)) as H. revert H.
  generalize (map_to_list (fs_names s)).*1 as l. induction 1 as [|p l Hp Hl IH]; simpl; [constructor|].
  destruct (child_of q p) as [c|] eqn:E; [|done]. constructor; [|done].
  apply child_of_Some in E as ->. rewrite list_elem_of_omap. intros (p & Hp' & ->%child_of_Some). done.
Qed.

Lemma opaque_effect s hdr content read_err cs :
  wf s → rooted_comps (hdr_Name hdr) = cs ++ [whiteoutOpaque] → is_dir s cs = true → prot cs = false →
  ∃ s', applyEntry "/" hdr content read_err s = (Ok tt, s') ∧ wf s' ∧ without (opaque_gone cs) s s'.
Proof.
  intros Hwf E Hd Hp. rewrite (applyEntry_comps _ _ _ _ _ E), decide_True, Hp by done.
  assert (Forall comp cs) as Hcs by (by apply (wf_comps s Hwf), is_dir_name).
  unfold clearDir, io_wrap, io_bind, io_try. rewrite ReadDir_dir by done.
  destruct (clear_loop s cs (merge_sort string_le (children s cs))) as (s' & -> & Hwf' & _ & Hl); [done..| | |].
  { apply Forall_forall. intros d. rewrite merge_sort_Permutation. by intros ?%elem_of_children. }
  { rewrite merge_sort_Permutation. apply NoDup_children. }
  exists s'. split; [done|]. split; [done|]. intros p. rewrite Hl.
  unfold cleared, opaque_gone. destruct (below cs p) as [d|] eqn:Eb; [|done].
  apply below_Some in Eb as [r ->].
  case_bool_decide as Hd'; [done|]. simpl. destruct (prot (cs ++ [d])); [done|]. simpl.
  destruct (lookup_path s (cs ++ d :: r)) as [i|] eqn:Hi; [|done]. exfalso. apply Hd'.
  rewrite merge_sort_Permutation. apply elem_of_children.
  apply lookup_path_name in Hi. destruct (decide (r = [])) as [->|Hne]; [done|].
  apply is_dir_name, (wf_prefix s _ r Hwf); [|done]. by rewrite <-app_assoc.
Qed.

(** ** Extraction *)

(** The kind of file an entry of a layer makes, where it makes one that is not
    a directory or a hard link. *)
Definition entry_node (hdr : Header) (content : string) : option node :=
  let t := hdr_Typeflag hdr in
  if decide (t = TypeReg ∨ t = TypeRegA) then Some (File content)
  else if decide (t = TypeSymlink) then
    if decide (hdr_Linkname hdr = "") then None else Some (Symlink (hdr_Linkname hdr))
  else if decide (t = TypeChar) then Some (CharDev (mkdev (hdr_Devmajor hdr) (hdr_Devminor hdr)))
  else if decide (t = TypeBlock) then Some (BlockDev (mkdev (hdr_Devmajor hdr) (hdr_Devminor hdr)))
  else if decide (t = TypeFifo) then Some Fifo
  else None.

(** The extended attributes of the header that the file system accepts. *)
Definition add_xattr (ok : string → option errno) (m : gmap string string) (kv : string * string) :
    gmap string string :=
  let name := strings_TrimPrefix kv.1 xattr_prefix in
  if strings_HasPrefix kv.1 xattr_prefix && bool_decide (ok name = None) then <[name := kv.2]> m else m.
Definition pax_xattrs (ok : string → option errno) (hdr : Header) : gmap string string :=
  foldl (add_xattr ok) ∅ (hdr_PAXRecords hdr).

(** The inode of the extracted entry. *)
Definition extracted (s : fs) (hdr : Header) (nd : node) : inode :=
  mkInode nd (match nd with Symlink _ => o777 | _ => Perm (hdr_perm hdr) end)
    (chown_id (hdr_Uid hdr) 0) (chown_id (hdr_Gid hdr) 0)
    (pax_xattrs (fs_xattr_err s nd) hdr) ((λ ns, NsecToTimespec (a := fs_arch s) (int64 ns)) <$> hdr_ModTime hdr).

(** A file fresh from the kernel. *)
Definition fresh_inode (i : inode) (nd : node) : Prop :=
  i_node i = nd ∧ i_uid i = 0 ∧ i_gid i = 0 ∧ i_xattrs i = ∅ ∧ i_mtime i = None ∧
  ∀ t, nd = Symlink t → i_mode i = o777.

Lemma create_excl_entry s p c mk :
  Forall comp (p ++ [c]) → wf s → is_dir s p = true → fs_names s !! (p ++ [c]) = None →
  create_excl (abs (p ++ [c])) mk s = (Ok tt, create (p ++ [c]) (mk s) s).
Proof.
  intros Hp Hwf Hd Hn. unfold create_excl.
  rewrite namei_real by (first [done|by apply wf_real_dir|by apply wf_root]). by rewrite Hn.
Qed.

Lemma OpenFile_entry s p c perm data :
  Forall comp (p ++ [c]) → wf s → is_dir s p = true → fs_names s !! (p ++ [c]) = None →
  ∃ n s1, os_OpenFile (abs (p ++ [c])) perm s = (Ok n, s1) ∧
    write n data s1 = (Ok tt, create (p ++ [c]) (new_inode (File data) (Perm perm) s) s).
Proof.
  intros Hp Hwf Hd Hn. unfold os_OpenFile.
  rewrite namei_real; [|done|by apply wf_real_dir|by apply wf_root|].
  - rewrite Hn. do 2 eexists. split; [done|]. unfold write. f_equal.
    destruct s as [names inodes u x]. unfold create, set_names, set_inodes. simpl. f_equal.
    by rewrite alter_insert_eq.
  - intros _. unfold is_symlink, lookup_path. by rewrite Hn.
Qed.

Lemma make_entry_fresh s p c hdr content nd :
  Forall comp (p ++ [c]) → wf s → is_dir s p = true → fs_names s !! (p ++ [c]) = None →
  entry_node hdr content = Some nd →
  ∃ i, make_entry "/" (abs (p ++ [c])) hdr content false s = (Ok true, create (p ++ [c]) i s) ∧ fresh_inode i nd.
Proof.
  intros Hp Hwf Hd Hn. unfold entry_node, make_entry. cbv zeta.
  assert (∀ mk, io_bind (io_wrap SysErr (create_excl (abs (p ++ [c])) mk)) (λ _ : unit, io_ret true) s
    = (Ok (E := extract_error) true, create (p ++ [c]) (mk s) s)) as Hexcl.
  { intros mk. unfold io_bind, io_wrap. by rewrite create_excl_entry. }
  destruct (decide (hdr_Typeflag hdr = TypeReg ∨ hdr_Typeflag hdr = TypeRegA)) as [Ht|Ht].
  { intros [= <-]. rewrite decide_False by (intros E; rewrite E in Ht; by destruct Ht).
    destruct (OpenFile_entry s p c (hdr_perm hdr) content) as (n & s1 & Ho & Hw); [done..|].
    unfold io_bind, io_wrap. rewrite Ho. cbn [res_map_err]. rewrite Hw. eexists. split; [done|]. repeat split. done. }
  destruct (decide (hdr_Typeflag hdr = TypeSymlink)) as [E|_].
  { rewrite E. case_decide as Hl; [done|]. intros [= <-]. rewrite decide_False by done.
    unfold os_Symlink. rewrite decide_False by done. rewrite Hexcl. eexists. split; [done|]. by repeat split. }
  unfold unix_Mknod.
  destruct (decide (hdr_Typeflag hdr = TypeChar)) as [E|_].
  { rewrite E. intros [= <-]. rewrite !decide_False by done. rewrite Hexcl. eexists. split; [done|]. by repeat split. }
  destruct (decide (hdr_Typeflag hdr = TypeBlock)) as [E|_].
  { rewrite E. intros [= <-]. rewrite !decide_False by done. rewrite Hexcl. eexists. split; [done|]. by repeat split. }
  destruct (decide (hdr_Typeflag hdr = TypeFifo)) as [E|_]; [|done].
  rewrite E. intros [= <-]. rewrite !decide_False by done. rewrite Hexcl. eexists. split; [done|]. by repeat split.
Qed.

(** Setting the attributes of the inode [n], at [p], one after the other. *)
Definition with_xattrs (i : inode) (m : gmap string string) : inode :=
  mkInode (i_node i) (i_mode i) (i_uid i) (i_gid i) m (i_mtime i).

Lemma set_inode_id s n i : fs_inodes s !! n = Some i → set_inodes <[n := i]> s = s.
Proof. intros H. destruct s. unfold set_inodes. simpl in *. by rewrite insert_id. Qed.

Lemma try_attr {F} f s p n i g :
  at_inode s p n i → (f = true → ∀ t, i_node i ≠ Symlink t) →
  ∃ r, io_try (F := F) (set_attr f (abs p) g) s =
    (Ok r, match g i with Ok i' => set_inodes <[n := i']> s | Err _ => s end).
Proof.
  intros Hat Hf. unfold io_try. rewrite (set_attr_at _ _ _ n i) by done. destruct (g i); eauto.
Qed.

Lemma applyXattrs_at s p n i hdr :
  at_inode s p n i →
  applyXattrs (abs p) hdr s =
    (Ok tt, set_inodes <[n := with_xattrs i (foldl (add_xattr (fs_xattr_err s (i_node i))) (i_xattrs i) (hdr_PAXRecords hdr))]> s).
Proof.
  unfold applyXattrs. generalize (hdr_PAXRecords hdr) as l. intros l. revert s i.
  induction l as [|[k v] l IH]; intros s i Hat.
  - simpl. rewrite set_inode_id; [done|]. destruct Hat as (_&_&_&_&Hi). by destruct i.
  - cbn [io_iter foldl]. unfold add_xattr at 2. cbn [fst snd].
    destruct (strings_HasPrefix k xattr_prefix); [|by rewrite (io_bind_ok _ _ s tt s), (IH s i)].
    cbn [andb]. set (name := strings_TrimPrefix k xattr_prefix).
    assert ((io_try (unix_Lsetxattr (abs p) name v) ;! io_ret tt) s
      = (Ok (E := extract_error) tt, match fs_xattr_err s (i_node i) name with
                | Some _ => s
                | None => set_inodes <[n := with_xattrs i (<[name := v]> (i_xattrs i))]> s
                end)) as Hset.
    { unfold unix_Lsetxattr, io_bind, io_try. rewrite (set_attr_at _ _ _ n i) by done.
      by destruct (fs_xattr_err s (i_node i) name). }
    rewrite (io_bind_ok _ _ _ _ _ Hset).
    destruct (fs_xattr_err s (i_node i) name) as [e|] eqn:Ee; simpl; [by apply IH|].
    rewrite (IH _ (with_xattrs i (<[name := v]> (i_xattrs i)))) by (by apply (at_set s p n i)).
    by rewrite set_inodes_set_inodes.
Qed.

Lemma chown_mode_symlink i t : i_node i = Symlink t → i_mode i = o777 → chown_mode i = o777.
Proof. intros H1 H2. unfold chown_mode, IsDir. by rewrite H1, H2. Qed.

Lemma entry_node_symlink hdr content nd :
  entry_node hdr content = Some nd →
  hdr_Typeflag hdr = TypeSymlink ↔ ∃ t, nd = Symlink t.
Proof.
  unfold entry_node. cbv zeta.
  repeat case_decide; intros [= <-]; split; (done || (by intros [? ?]) || eauto).
  all: intros E; rewrite E in *; destruct_or?; done.
Qed.

Lemma set_attributes_at s p n i hdr content nd :
  at_inode s p n i → entry_node hdr content = Some nd → fresh_inode i nd →
  set_attributes (abs p) hdr s = (Ok tt, set_inodes <[n := extracted s hdr nd]> s).
Proof.
  intros Hat He (Hnd & Hu & Hg & Hx & Ht & Hm). unfold set_attributes, os_Lchown.
  unfold io_bind at 1. destruct (try_attr (F := extract_error) false s p n i (λ i, Ok (mkInode (i_node i) (chown_mode i)
    (chown_id (hdr_Uid hdr) (i_uid i)) (chown_id (hdr_Gid hdr) (i_gid i)) (i_xattrs i) (i_mtime i)))) as [r ->]; [done..|].
  match goal with |- context [set_inodes <[n := ?j]> s] => set (i1 := j) end.
  assert (at_inode (set_inodes <[n := i1]> s) p n i1) as Hat1 by (by apply (at_set s p n i)).
  set (i2 := set_mode i1 (i_mode (extracted s hdr nd))).
  assert ((if decide (hdr_Typeflag hdr = TypeSymlink) then io_ret tt
    else io_try (os_Chmod (abs p) (hdr_perm hdr)) ;! io_ret tt) (set_inodes <[n := i1]> s)
    = (Ok (E := extract_error) tt, set_inodes <[n := i2]> s)) as Hchmod.
  { pose proof (entry_node_symlink _ _ _ He) as Hsl. case_decide as Hc.
    - destruct (proj1 Hsl Hc) as [t ->]. unfold io_ret. do 2 f_equal.
      unfold i2, set_mode, i1. simpl. by rewrite (chown_mode_symlink i t) by (done || by eapply Hm).
    - unfold io_bind at 1, os_Chmod.
      destruct (try_attr (F := extract_error) true _ p n i1 (λ i, Ok (set_mode i (Perm (hdr_perm hdr)))) Hat1) as [r' ->].
      { intros _ t. simpl. rewrite Hnd. intros ->. apply Hc, Hsl. eauto. }
      rewrite set_inodes_set_inodes. unfold io_ret. do 4 f_equal. unfold i2, extracted. simpl.
      destruct nd; try done. exfalso. apply Hc, Hsl. eauto. }
  unfold io_bind at 1. rewrite Hchmod.
  assert (at_inode (set_inodes <[n := i2]> s) p n i2) as Hat2 by (by apply (at_set s p n i)).
  unfold io_bind. rewrite (applyXattrs_at _ p n i2) by done. rewrite set_inodes_set_inodes.
  match goal with |- context [set_inodes <[n := ?j]> s] => set (i3 := j) end.
  assert (at_inode (set_inodes <[n := i3]> s) p n i3) as Hat3 by (by apply (at_set s p n i)).
  assert (i3 = mkInode nd (i_mode (extracted s hdr nd)) (chown_id (hdr_Uid hdr) 0) (chown_id (hdr_Gid hdr) 0)
    (pax_xattrs (fs_xattr_err s nd) hdr) None) as E3.
  { unfold i3, with_xattrs, i2, set_mode, i1. simpl. by rewrite Hnd, Hu, Hg, Hx, Ht. }
  unfold setTimes. destruct (hdr_ModTime hdr) as [ns|] eqn:Et.
  - unfold io_bind, unix_UtimesNanoAt. cbn [set_inodes fs_arch].
    destruct (try_attr (F := extract_error) false _ p n i3
      (λ i, Ok (mkInode (i_node i) (i_mode i) (i_uid i) (i_gid i) (i_xattrs i) (Some (NsecToTimespec (a := fs_arch s) (int64 ns))))) Hat3) as [r' ->]; [done|].
    rewrite set_inodes_set_inodes, E3. unfold extracted. by rewrite Et.
  - rewrite E3. unfold extracted. by rewrite Et.
Qed.

(** Where an entry is extracted, everything there before makes room for it. *)
Lemma make_room_entry s p c t :
  Forall comp (p ++ [c]) → wf s → is_dir s p = true → t ≠ TypeDir →
  make_room (abs (p ++ [c])) t s = (Ok tt, set_names (remove_tree (p ++ [c])) s).
Proof.
  intros Hp Hwf Hd Ht. unfold make_room, os_Lstat, io_bind at 1, io_try, io_read, stat.
  rewrite namei_real by (first [done|by apply wf_real_dir|by apply wf_root]).
  rewrite (bool_decide_eq_false_2 (t = TypeDir)) by done. simpl.
  destruct (lookup_path s (p ++ [c])) as [i|] eqn:El; simpl.
  - unfold io_wrap. by rewrite RemoveAll_entry.
  - rewrite remove_tree_absent; [done|done|]. apply eq_None_not_Some. intros [i Hi]%wf_lookup; [|done]. congruence.
Qed.

Lemma entry_node_TypeDir hdr content nd : entry_node hdr content = Some nd → hdr_Typeflag hdr ≠ TypeDir.
Proof. intros H E. unfold entry_node in H. rewrite E in H. done. Qed.

(** The name [p] alone leads to what was put there. *)
Definition replaces (p : path) (i : inode) (s s' : fs) : Prop :=
  ∀ q, lookup_path s' q = if decide (q = p) then Some i else if decide (p `prefix_of` q) then None else lookup_path s q.

Lemma extract_effect s hdr content cs c nd :
  wf s → rooted_comps (hdr_Name hdr) = cs ++ [c] → is_dir s cs = true →
  strings_HasPrefix c whiteoutPrefix = false → prot (cs ++ [c]) = false → cs ++ [c] ≠ ["sbin"] →
  entry_node hdr content = Some nd →
  ∃ s', applyEntry "/" hdr content false s = (Ok tt, s') ∧ wf s' ∧ replaces (cs ++ [c]) (extracted s hdr nd) s s'.
Proof.
  intros Hwf E Hd Hw Hp Hsbin He. rewrite (applyEntry_comps _ _ _ _ _ E).
  pose proof (rooted_comps_comps (hdr_Name hdr)) as Hcs. rewrite E in Hcs.
  rewrite decide_False by (intros ->; done). rewrite Hw, Hp.
  rewrite bool_decide_eq_false_2 by (intros [?|E']; [done|]; by rewrite E' in Hp). cbn [andb].
  unfold extractEntry. cbv zeta. rewrite Join_root by (first [by destruct cs|done]).
  change ("/" +:+ strings_Join (cs ++ [c]) "/") with (abs (cs ++ [c])). rewrite Dir_abs by done.
  set (p := cs ++ [c]) in *. set (s1 := set_names (remove_tree p) s).
  assert (wf s1) as Hwf1 by (apply wf_remove_tree; [done|by destruct cs]).
  assert (∀ q, lookup_path s1 q = if decide (p `prefix_of` q) then None else lookup_path s q) as Hl1
    by apply lookup_path_remove_tree.
  assert (is_dir s1 cs = true) as Hd1.
  { unfold is_dir. rewrite Hl1, decide_False; [done|]. intros [r Er].
    apply (f_equal length) in Er. unfold p in Er. rewrite !length_app in Er. simpl in Er. lia. }
  assert (fs_names s1 !! p = None) as Hn1.
  { apply eq_None_not_Some. intros [i Hi]%wf_lookup; [|done]. rewrite Hl1, decide_True in Hi; done. }
  destruct (make_entry_fresh s1 cs c hdr content nd) as (i & Hmk & Hfr); [done..|].
  assert (at_inode (create p i s1) p (fresh (dom (fs_inodes s1))) i) as Hat.
  { apply create_at; [done|by apply wf_real_dir|by apply wf_root|done|by apply wf_inode]. }
  pose proof (set_attributes_at _ _ _ _ _ _ _ Hat He Hfr) as Hattr.
  unfold io_wrap at 1. rewrite (io_bind_ok _ _ s tt s).
  2:{ unfold io_wrap. rewrite MkdirAll_dir; [done|by apply Forall_app in Hcs as [? _]|done|done]. }
  rewrite (io_bind_ok _ _ s tt s1) by (apply make_room_entry; [done..|by eapply entry_node_TypeDir]).
  rewrite (io_bind_ok _ _ _ _ _ Hmk). cbv beta iota. fold p. rewrite Hattr. eexists. split; [done|].
  assert (fs_inodes (create p i s1) !! fresh (dom (fs_inodes s1)) = Some i) as Hi by apply Hat.
  split.
  - apply (wf_set_inode _ _ i); [|done|by destruct Hfr as [-> _]].
    apply wf_create; [done| |done]. exists cs, c. split_and!; [done| |done].
    apply Forall_app in Hcs as [_ Hc]. by inversion Hc.
  - intros q. rewrite lookup_path_set_inode. change (extracted (create p i s1)) with (extracted s).
    rewrite lookup_path_create by apply (wf_inode s1 Hwf1). rewrite Hl1. simpl.
    destruct (decide (q = p)) as [->|Hne].
    + rewrite lookup_insert_eq. by rewrite decide_True.
    + rewrite lookup_insert_ne by done. rewrite decide_False; [done|].
      intros Hq. apply map_lookup_filter_Some in Hq as [Hq _]. apply (wf_inode s Hwf) in Hq.
      apply elem_of_dom in Hq. by apply is_fresh in Hq.
Qed.

(** ** A container before its first layer *)

Definition dir_inode : inode := mkInode Dir o755 0 0 ∅ None.
Definition file_inode (data : string) : inode := mkInode (File data) o755 0 0 ∅ None.

Definition container : fs := mkFs
  (list_to_map [([], 0%nat); (["sbin"], 1%nat); (["sbin"; "init"], 2%nat); (["peel"], 3%nat); (["peel"; "config"], 4%nat);
                (["etc"], 5%nat); (["etc"; "motd"], 6%nat)])
  (list_to_map [(0%nat, dir_inode); (1%nat, dir_inode); (2%nat, file_inode "peel"); (3%nat, dir_inode); (4%nat, file_inode "{}");
                (5%nat, dir_inode); (6%nat, file_inode "hi")])
  0 (λ _ _, None) Amd64.

Lemma container_wf : wf container.
Proof. apply wf_b_sound. vm_compute. reflexivity. Qed.

Definition entry (t : ascii) (name link : string) : Header := mkHeader t name link o644 0 0 0 0 [] (Some 7).

(** ** Claims *)

(** C2. Extracting a regular file, symbolic link, device or fifo into a directory
    of the root filesystem succeeds and replaces whatever had its name, a whole
    directory included: afterwards the name leads to a file of the entry's
    kind with the entry's content, owner, accepted extended attributes and
    time, and with the nine permission bits of its mode (never the set-user-id,
    set-group-id or sticky bit); every name that is not below it is as before. *)
Theorem extract_replaces s hdr content cs c nd :
  wf s → rooted_comps (hdr_Name hdr) = cs ++ [c] → is_dir s cs = true →
  strings_HasPrefix c whiteoutPrefix = false → prot (cs ++ [c]) = false → cs ++ [c] ≠ ["sbin"] →
  entry_node hdr content = Some nd →
  ∃ s', applyEntry "/" hdr content false s = (Ok tt, s') ∧ wf s' ∧
    replaces (cs ++ [c]) (extracted s hdr nd) s s'.
Proof. apply extract_effect. Qed.

Lemma extract_replaces_witness :
  ∃ s', applyEntry "/" (entry TypeReg "etc//motd" "") "new" false container = (Ok tt, s') ∧ wf s' ∧
    replaces ["etc"; "motd"] (extracted container (entry TypeReg "etc//motd" "") (File "new")) container s'.
Proof. apply (extract_replaces container (entry TypeReg "etc//motd" "") "new" ["etc"] "motd"); first [apply container_wf|reflexivity|done]. Defined.

(** A whiteout entry deletes the name it stands for with everything below
    it and nothing else, and it deletes nothing when that name is protected. *)
Theorem whiteout_removes s hdr content read_err cs c :
  wf s → rooted_comps (hdr_Name hdr) = cs ++ [whiteoutPrefix +:+ c] →
  comp c → c ≠ ".wh..opq" → is_dir s cs = true →
  ∃ s', applyEntry "/" hdr content read_err s = (Ok tt, s') ∧ wf s' ∧
    without (whiteout_gone (cs ++ [c])) s s'.
Proof. apply whiteout_effect. Qed.

Lemma whiteout_removes_witness :
  ∃ s', applyEntry "/" (entry TypeReg "etc/.wh.motd" "") "" false container = (Ok tt, s') ∧ wf s' ∧
    without (whiteout_gone ["etc"; "motd"]) container s'.
Proof.
  apply (whiteout_removes container (entry TypeReg "etc/.wh.motd" "") "" false ["etc"] "motd");
    first [apply container_wf|reflexivity|by apply comp_lit|done].
Defined.

(** C28. An opaque whiteout in a directory empties it, sparing the entries that
    are themselves protected; the directory and every name outside it stay. *)
Theorem opaque_whiteout_clears s hdr content read_err cs :
  wf s → rooted_comps (hdr_Name hdr) = cs ++ [whiteoutOpaque] → is_dir s cs = true → prot cs = false →
  ∃ s', applyEntry "/" hdr content read_err s = (Ok tt, s') ∧ wf s' ∧ without (opaque_gone cs) s s'.
Proof. apply opaque_effect. Qed.

Lemma opaque_whiteout_clears_witness :
  ∃ s', applyEntry "/" (entry TypeReg "sbin/.wh..wh..opq" "") "" false container = (Ok tt, s') ∧ wf s' ∧
    without (opaque_gone ["sbin"]) container s'.
Proof.
  apply (opaque_whiteout_clears container (entry TypeReg "sbin/.wh..wh..opq" "") "" false ["sbin"]);
    first [apply container_wf|reflexivity].
Defined.

(** Where peel itself is installed. *)
Definition peel_binary : list string := ["sbin"; "init"].

(** An opaque whiteout at the top of a layer deletes [/sbin] and with it
    [/sbin/init], peel itself: only the entries of the cleared directory are
    tested for being protected, not what is below them. *)
Theorem opaque_root_deletes_peel s hdr content read_err r :
  wf s → rooted_comps (hdr_Name hdr) = [whiteoutOpaque] →
  ∃ s', ApplyLayer "/" (TarEntry hdr content read_err :: r) s = ApplyLayer "/" r s' ∧ wf s' ∧
    lookup_path s' ["sbin"] = None ∧ lookup_path s' peel_binary = None ∧
    lookup_path s' ["peel"] = lookup_path s ["peel"].
Proof.
  intros Hwf E. destruct (opaque_effect s hdr content read_err []) as (s' & Hrun & Hwf' & Hl); [done|done|apply Hwf|done|].
  exists s'. cbn [ApplyLayer]. rewrite (io_bind_ok _ _ _ _ _ Hrun). unfold peel_binary. split_and!; [done|done|by rewrite Hl..].
Qed.

Lemma opaque_root_deletes_peel_witness :
  is_Some (lookup_path container peel_binary) ∧
  ∃ s', ApplyLayer "/" [TarEntry (entry TypeReg ".wh..wh..opq" "") "" false] container = ApplyLayer "/" [] s' ∧ wf s' ∧
    lookup_path s' ["sbin"] = None ∧ lookup_path s' peel_binary = None ∧
    lookup_path s' ["peel"] = lookup_path container ["peel"].
Proof.
  split; [by eexists|].
  apply (opaque_root_deletes_peel container (entry TypeReg ".wh..wh..opq" "") "" false []); [apply container_wf|reflexivity].
Defined.

(** A whiteout is applied in the order of the tar stream, so it also deletes
    what its own layer created before it; the image specification applies a
    layer's whiteouts to the layers below it only. *)
Theorem opaque_hits_own_layer s file opq content read_err cs c nd :
  wf s → rooted_comps (hdr_Name file) = cs ++ [c] → rooted_comps (hdr_Name opq) = cs ++ [whiteoutOpaque] →
  is_dir s cs = true → prot cs = false →
  strings_HasPrefix c whiteoutPrefix = false → prot (cs ++ [c]) = false → cs ++ [c] ≠ ["sbin"] →
  entry_node file content = Some nd →
  ∃ s1 s2, ApplyLayer "/" [TarEntry file content false] s = (Ok tt, s1) ∧
    lookup_path s1 (cs ++ [c]) = Some (extracted s file nd) ∧
    ApplyLayer "/" [TarEntry file content false; TarEntry opq "" read_err] s = (Ok tt, s2) ∧
    lookup_path s2 (cs ++ [c]) = None.
Proof.
  intros Hwf E1 E2 Hd Hp Hw Hp' Hs He.
  destruct (extract_effect s file content cs c nd) as (s1 & Hrun1 & Hwf1 & Hl1); [done..|].
  assert (lookup_path s1 (cs ++ [c]) = Some (extracted s file nd)) as Hc by (by rewrite Hl1, decide_True).
  destruct (opaque_effect s1 opq "" read_err cs) as (s2 & Hrun2 & Hwf2 & Hl2); [done..| |done|].
  { apply (wf_parent s1 Hwf1 cs c). by apply (lookup_path_name _ _ (extracted s file nd)). }
  exists s1, s2. cbn [ApplyLayer]. rewrite !(io_bind_ok _ _ _ _ _ Hrun1), (io_bind_ok _ _ _ _ _ Hrun2).
  split_and!; [done|done|done|]. rewrite Hl2. unfold opaque_gone. by rewrite below_app, Hp'.
Qed.

Lemma opaque_hits_own_layer_witness :
  let file := entry TypeReg "etc/x" "" in
  ∃ s1 s2, ApplyLayer "/" [TarEntry file "v" false] container = (Ok tt, s1) ∧
    lookup_path s1 ["etc"; "x"] = Some (extracted container file (File "v")) ∧
    ApplyLayer "/" [TarEntry file "v" false; TarEntry (entry TypeReg "etc/.wh..wh..opq" "") "" false] container = (Ok tt, s2) ∧
    lookup_path s2 ["etc"; "x"] = None.
Proof.
  apply (opaque_hits_own_layer container (entry TypeReg "etc/x" "") (entry TypeReg "etc/.wh..wh..opq" "") "v" false ["etc"] "x");
    first [apply container_wf|reflexivity|done].
Defined.
