(* ===== verification/RootfsSafety.v ===== *)
(** * Layers cannot take peel over

    Whatever a layer contains, peel's binary and its directory [/peel] come out
    of [ApplyLayer] untouched, provided that the layer's symbolic links do not
    lead to them, that it has no hard link to them, and that its whiteouts
    name something (the entries [tame_entry] holds of). *)

From stdpp Require Import sorting.
From S2P Require Import Prelude GoStrings GoPath FS FSFacts Rootfs RootfsLayers.

(** ** Where resolution can lead *)

(** The names peel keeps: [/peel], [/sbin/init] and what is below them. *)
Definition guarded (p : path) : bool :=
  bool_decide (head p = Some "peel") || bool_decide (["sbin"; "init"] `prefix_of` p).

(** A path whose removal or creation touches no guarded name. *)
Definition free (p : path) : Prop := p ≠ [] ∧ p ≠ ["sbin"] ∧ guarded p = false.

(** The components resolution does not skip. *)
Definition proper (cs : path) : path := filter (λ c, c ≠ "" ∧ c ≠ ".") cs.

Fixpoint drop_dots (cs : path) : path :=
  match cs with
  | c :: cs' => if decide (c = "..") then drop_dots cs' else cs
  | [] => []
  end.

(** After its leading [..]s, the path goes through a name other than peel's, and
    never up again. *)
Definition tame_comps (cs : path) : bool :=
  match drop_dots cs with
  | c :: r => bool_decide (c ∉ ["peel"; "sbin"; "init"]) && bool_decide (".." ∉ c :: r)
  | [] => false
  end.
Definition tame_target (t : string) : bool := tame_comps (proper (path_split t)).

(** Resolution of [cs] from [cur] ends, if it does, at a free path. *)
Inductive heading : path → path → Prop :=
  | heading_dots cur cs :
      guarded cur = false → tame_comps (".." :: cs) = true → heading cur (".." :: cs)
  | heading_root c r :
      ".." ∉ c :: r → c ≠ "peel" → c ≠ "sbin" → heading [] (c :: r)
  | heading_root_sbin d r :
      ".." ∉ d :: r → (d = "init" → r ≠ []) → heading [] ("sbin" :: d :: r)
  | heading_sbin d r :
      ".." ∉ d :: r → (d = "init" → r ≠ []) → heading ["sbin"] (d :: r)
  | heading_in cur cs :
      ".." ∉ cs → free cur → heading cur cs
  | heading_init cs :
      ".." ∉ cs → cs ≠ [] → heading ["sbin"; "init"] cs.

Lemma guarded_snoc cur c :
  cur ≠ [] → cur ≠ ["sbin"] → guarded cur = false → guarded (cur ++ [c]) = false.
Proof.
  unfold guarded. intros Hne Hsb [H1 H2]%orb_false_iff. apply orb_false_iff.
  destruct cur as [|d cur]; [done|]. split; [done|].
  apply bool_decide_eq_false in H2. apply bool_decide_eq_false. intros H. apply H2.
  destruct H as [r E]. destruct cur as [|e cur]; simplify_list_eq. by exists cur.
Qed.

Lemma guarded_removelast cur : guarded cur = false → guarded (removelast cur) = false.
Proof.
  destruct cur as [|c cur _] using rev_ind; [done|]. rewrite removelast_last.
  unfold guarded. intros [H1 H2]%orb_false_iff. bool_to_prop. apply orb_false_iff.
  split; apply bool_decide_eq_false.
  - intros H. apply H1. by destruct cur.
  - intros H. apply H2. by apply prefix_app_r.
Qed.

Lemma free_snoc cur c : free cur → free (cur ++ [c]).
Proof.
  intros (H1&H2&H3). split_and!; [by destruct cur| |by apply guarded_snoc].
  intros E. destruct cur as [|d [|e cur]]; simplify_list_eq.
Qed.

(** A tame path may be entered anywhere outside the guarded names. *)
Lemma heading_enter cur cs : guarded cur = false → tame_comps cs = true → heading cur cs.
Proof.
  intros Hg Ht. destruct cs as [|c cs]; [done|].
  destruct (decide (c = "..")) as [->|Hc]; [by constructor|].
  unfold tame_comps in Ht. simpl in Ht. rewrite decide_False in Ht by done. bool_to_prop.
  rewrite !not_elem_of_cons in H. destruct H as (?&?&?&_).
  destruct (decide (cur = [])) as [->|]; [by constructor|].
  destruct (decide (cur = ["sbin"])) as [->|]; [by constructor|]. by constructor.
Qed.

Lemma tame_comps_app cs r : tame_comps cs = true → ".." ∉ r → tame_comps (cs ++ r) = true.
Proof.
  unfold tame_comps. intros H Hr. assert (∃ c k, drop_dots cs = c :: k) as (c & k & E).
  { destruct (drop_dots cs); [done|eauto]. }
  assert (drop_dots (cs ++ r) = c :: k ++ r) as ->.
  { clear H. induction cs as [|d cs IH]; [done|]. simpl in *. case_decide; [by apply IH|]. by simplify_eq. }
  rewrite E in H. bool_to_prop. rewrite bool_decide_eq_true_2 by done. apply bool_decide_eq_true_2.
  rewrite app_comm_cons, not_elem_of_app. done.
Qed.

Lemma proper_cons c cs : c ≠ "" → c ≠ "." → proper (c :: cs) = c :: proper cs.
Proof. intros. unfold proper. by rewrite filter_cons_True. Qed.
Lemma proper_skip c cs : c = "" ∨ c = "." → proper (c :: cs) = proper cs.
Proof. intros. unfold proper. rewrite filter_cons_False; [done|]. tauto. Qed.
Lemma proper_app cs r : proper (cs ++ r) = proper cs ++ proper r.
Proof. apply filter_app. Qed.
Lemma proper_comps cs : Forall comp cs → proper cs = cs.
Proof. intros H. apply filter_all. eapply Forall_impl; [exact H|]. intros c (?&?&_). done. Qed.

(** ** The invariant *)

(** peel is installed in the container, and no name outside its own leads to
    its files, be it by a symbolic or by a hard link. *)
Record installed (s : fs) : Prop := {
  in_wf : wf s;
  in_sbin : is_dir s ["sbin"] = true;
  in_init : ∃ i data, lookup_path s ["sbin"; "init"] = Some i ∧ i_node i = File data;
  in_tame : ∀ p i t, guarded p = false → lookup_path s p = Some i → i_node i = Symlink t → tame_target t = true;
  in_alias : ∀ p q n, guarded p = true → fs_names s !! p = Some n → fs_names s !! q = Some n → guarded q = true;
}.

Lemma heading_nil cur : heading cur [] → free cur.
Proof. by inversion 1. Qed.

Lemma is_dir_file s p i data : lookup_path s p = Some i → i_node i = File data → is_dir s p = false.
Proof. unfold is_dir. by intros -> ->. Qed.

(** One step of resolution, to the component [c]. *)
Lemma heading_step s cur c r :
  installed s → is_dir s cur = true → c ≠ ".." → heading cur (c :: r) →
  ".." ∉ r ∧ guarded cur = false ∧
  ((free (cur ++ [c]) ∧ (∀ r', ".." ∉ r' → heading (cur ++ [c]) r')) ∨
   (∃ i, lookup_path s (cur ++ [c]) = Some i ∧ (∀ t, i_node i ≠ Symlink t) ∧ r ≠ [] ∧ heading (cur ++ [c]) r)).
Proof.
  intros Hin Hd Hc H. inversion H as [? ? _ _|? ? Hr Hp Hs|d r' Hr Hi|? ? Hr Hi|? ? Hr Hf|? Hr Hne]; subst; try done.
  - apply not_elem_of_cons in Hr as [_ Hr]. split; [done|]. split; [done|]. left.
    assert (free [c]) as Hf.
    { split_and!; [done|by intros [= ->]|]. unfold guarded. apply orb_false_iff. split; apply bool_decide_eq_false.
      - by intros [= ->].
      - intros [k E]. by simplify_list_eq. }
    split; [done|]. intros. by constructor.
  - split; [done|]. split; [done|]. right.
    pose proof (proj1 (is_dir_lookup _ _) (in_sbin s Hin)) as (i & Hl & Hn).
    exists i. split_and!; [done|by rewrite Hn|done|]. by constructor.
  - apply not_elem_of_cons in Hr as [_ Hr]. split; [done|]. split; [done|].
    destruct (decide (c = "init")) as [->|Hne].
    + right. destruct (in_init s Hin) as (i & data & Hl & Hn). exists i.
      split_and!; [done|by rewrite Hn|by apply Hi|]. constructor; [done|by apply Hi].
    + left. assert (free ["sbin"; c]) as Hf.
      { split_and!; [done|done|]. unfold guarded. apply orb_false_iff. split; apply bool_decide_eq_false; [done|].
        intros [k E]. by simplify_list_eq. }
      split; [done|]. intros. by constructor.
  - apply not_elem_of_cons in Hr as [_ Hr]. split; [done|]. split; [by apply Hf|]. left.
    split; [by apply free_snoc|]. intros. constructor; [done|by apply free_snoc].
  - exfalso. destruct (in_init s Hin) as (i & data & Hl & Hn). by rewrite (is_dir_file s _ i data) in Hd.
Qed.

Lemma walk_free n s f cur cs q :
  installed s → heading cur (proper cs) → walk n s f cur cs = Ok q → free q.
Proof.
  intros Hin. revert cur cs. induction n as [n IHn] using lt_wf_ind. intros cur cs. revert cur.
  induction cs as [|c rest IH]; intros cur Hh.
  { rewrite walk_nil. intros [= <-]. by apply heading_nil. }
  rewrite walk_cons. destruct (is_dir s cur) eqn:Hd; [|done].
  case_decide as H1; [rewrite proper_skip in Hh by done; by apply IH|].
  rewrite proper_cons in Hh by tauto. case_decide as H2.
  { subst. inversion Hh as [? ? Hg Ht|? ? Hr|? ? Hr|? ? Hr|? ? Hr|? Hr]; subst.
    1: { apply IH. apply heading_enter; [by apply guarded_removelast|done]. }
    all: exfalso; apply Hr; by left. }
  destruct (heading_step s cur c (proper rest)) as (Hr & Hg & Hcase); [done..|].
  destruct Hcase as [[Hf Hh']|(i & Hl & Hns & Hne & Hh')].
  - destruct (lookup_path s (cur ++ [c])) as [i|] eqn:El; simpl.
    2:{ destruct rest; [by intros [= <-]|done]. }
    destruct (i_node i) as [| |t| | | |] eqn:En; try (intros; eapply IH; [|done]; by apply Hh').
    destruct (match rest with [] => negb f | _ => false end); [by intros [= <-]|].
    destruct n as [|n]; [done|]. apply IHn; [lia|].
    rewrite proper_app. apply heading_enter; [by destruct (strings_HasPrefix t "/")|].
    apply tame_comps_app; [|done]. apply (in_tame s Hin (cur ++ [c]) i); [apply Hf|done|done].
  - rewrite Hl. simpl. destruct (i_node i) as [| |t| | | |] eqn:En; try (by apply IH). by destruct (Hns t).
Qed.

(** What resolution returns exists or can be created. *)
Definition creatable (s : fs) (q : path) : Prop := ∃ d c, q = d ++ [c] ∧ comp c ∧ is_dir s d = true.

Lemma walk_creatable n s f cur cs q :
  wf s → is_Some (fs_names s !! cur) → Forall (lacks slash) cs →
  walk n s f cur cs = Ok q → is_Some (fs_names s !! q) ∨ creatable s q.
Proof.
  intros Hwf. revert cur cs. induction n as [n IHn] using lt_wf_ind. intros cur cs. revert cur.
  induction cs as [|c rest IH]; intros cur Hcur Hcs.
  { rewrite walk_nil. intros [= <-]. by left. }
  apply Forall_cons in Hcs as [Hc Hrest]. rewrite walk_cons. destruct (is_dir s cur) eqn:Hd; [|done].
  case_decide as H1; [by apply IH|]. case_decide as H2.
  { apply IH; [|done]. destruct cur as [|e cur _] using rev_ind; [done|]. rewrite removelast_last.
    by apply is_dir_name, (wf_parent s Hwf cur e). }
  assert (creatable s (cur ++ [c])) as Hcr by (exists cur, c; split_and!; [done|unfold comp; tauto|done]).
  destruct (lookup_path s (cur ++ [c])) as [i|] eqn:El; simpl.
  2:{ destruct rest; [|done]. intros [= <-]. by right. }
  apply lookup_path_name in El.
  destruct (i_node i) as [| |t| | | |] eqn:En; try by apply IH.
  destruct (match rest with [] => negb f | _ => false end); [intros [= <-]; by right|].
  destruct n as [|n]; [done|]. apply IHn; [lia| |].
  - destruct (strings_HasPrefix t "/"); [by apply is_dir_name, wf_root|done].
  - apply Forall_app; split; [apply Split_lacks|done].
Qed.

(** ** Resolution from a layer's paths *)

Lemma heading_abs cs :
  Forall comp cs → prot cs = false → cs ≠ [] → cs ≠ ["sbin"] → head cs ≠ Some "peel" → heading [] cs.
Proof.
  intros Hcs Hp Hne Hsb Hpeel.
  assert (".." ∉ cs) as Hd.
  { intros H. rewrite Forall_forall in Hcs. by apply Hcs in H as (_&_&?&_). }
  destruct cs as [|c r]; [done|]. destruct (decide (c = "sbin")) as [->|Hc].
  - destruct r as [|d r]; [done|]. apply not_elem_of_cons in Hd as [_ Hd]. constructor; [done|].
    intros -> ->. done.
  - constructor; [done| |done]. by intros ->.
Qed.

Lemma prot_peel cs : prot cs = false → head cs ≠ Some "peel".
Proof. unfold prot. intros [_ H]%orb_false_iff. by apply bool_decide_eq_false in H. Qed.

Lemma namei_abs_walk f s cs : Forall comp cs → cs ≠ [] →
  namei f (abs cs) s = walk MAXSYMLINKS s f [] ("" :: cs).
Proof. intros H Hne. unfold namei. rewrite decide_False by done. by rewrite split_abs. Qed.

Lemma namei_free s f cs q :
  installed s → Forall comp cs → prot cs = false → cs ≠ [] → cs ≠ ["sbin"] →
  namei f (abs cs) s = Ok q → free q.
Proof.
  intros Hin Hcs Hp Hne Hsb. rewrite namei_abs_walk by done. apply walk_free; [done|].
  rewrite proper_skip by (by left). rewrite proper_comps by done.
  apply heading_abs; [done..|]. by apply prot_peel.
Qed.

Lemma namei_sbin s f : installed s → namei f (abs ["sbin"]) s = Ok ["sbin"].
Proof.
  intros Hin. pose proof (in_sbin s Hin) as Hd. apply namei_real.
  - constructor; [by apply comp_lit|constructor].
  - by apply wf_real; [apply Hin|apply is_dir_name].
  - apply Hin.
  - intros _. apply is_dir_lookup in Hd as (i & Hl & Hn). unfold is_symlink. by rewrite Hl, Hn.
Qed.

Lemma namei_root s f : wf s → namei f (abs []) s = Ok [].
Proof.
  intros Hwf. apply namei_real; [done| |by apply wf_root|].
  - intros q c r E. by destruct q.
  - intros _. pose proof (wf_root s Hwf) as (i & Hl & Hn)%is_dir_lookup. unfold is_symlink. by rewrite Hl, Hn.
Qed.

Lemma namei_init s f : installed s → namei f (abs ["sbin"; "init"]) s = Ok ["sbin"; "init"].
Proof.
  intros Hin. destruct (in_init s Hin) as (i & data & Hl & Hn). apply namei_real.
  - by repeat (apply Forall_cons; split; [by apply comp_lit|]).
  - apply wf_real; [apply Hin|]. by apply (lookup_path_name _ _ i).
  - apply Hin.
  - intros _. unfold is_symlink. by rewrite Hl, Hn.
Qed.

(** What a path that is not peel's resolves to is not peel's. *)
Lemma namei_unguarded s f cs q :
  installed s → Forall comp cs → prot cs = false → namei f (abs cs) s = Ok q → guarded q = false.
Proof.
  intros Hin Hcs Hp H. destruct (decide (cs = [])) as [->|Hne].
  { rewrite namei_root in H by apply Hin. by simplify_eq. }
  destruct (decide (cs = ["sbin"])) as [->|Hsb].
  { rewrite namei_sbin in H by done. by simplify_eq. }
  by eapply namei_free in H as (_&_&?).
Qed.

(** A new name outside [/peel] is free. *)
Lemma namei_new s f cs q :
  installed s → Forall comp cs → head cs ≠ Some "peel" →
  namei f (abs cs) s = Ok q → fs_names s !! q = None → free q ∧ creatable s q.
Proof.
  intros Hin Hcs Hp H Hn.
  assert (∀ p, namei f (abs cs) s = Ok p → is_Some (fs_names s !! p) → False) as Hex.
  { intros p Hp' [m Hm]. rewrite H in Hp'. simplify_eq. }
  destruct (decide (cs = [])) as [->|Hne].
  { exfalso. apply (Hex []); [by apply namei_root, Hin|]. apply is_dir_name, Hin. }
  destruct (decide (cs = ["sbin"])) as [->|Hsb].
  { exfalso. apply (Hex ["sbin"]); [by apply namei_sbin|]. apply is_dir_name, Hin. }
  destruct (decide (cs = ["sbin"; "init"])) as [->|Hsi].
  { exfalso. apply (Hex ["sbin"; "init"]); [by apply namei_init|].
    destruct (in_init s Hin) as (i & data & Hl & _). by apply (lookup_path_name _ _ i). }
  assert (prot cs = false) as Hpr.
  { unfold prot. apply orb_false_iff. by split; apply bool_decide_eq_false. }
  split; [by eapply namei_free|].
  rewrite namei_abs_walk in H by done. apply walk_creatable in H as [[m Hm]|?]; [congruence|done|apply Hin| |].
  - apply is_dir_name, Hin.
  - constructor; [done|]. by apply comps_lacks.
Qed.

(** ** Changes that keep peel *)

Section Keeps.
Context (s0 : fs).

(** peel is still installed, and its names and files are those of [s0]. *)
Definition guards (s : fs) : Prop :=
  installed s ∧ ∀ p, guarded p = true → fs_names s !! p = fs_names s0 !! p ∧ lookup_path s p = lookup_path s0 p.

Definition keeps {E A} (m : io E A) : Prop := ∀ s, guards s → guards (m s).2.

Lemma keeps_ret {E A} (a : A) : keeps (E := E) (io_ret a).
Proof. by intros s. Qed.
Lemma keeps_err {E A} (e : E) : keeps (A := A) (io_err e).
Proof. by intros s. Qed.
Lemma keeps_read {E A} (f : fs → res E A) : keeps (io_read f).
Proof. by intros s. Qed.
Lemma keeps_bind {E A B} (m : io E A) (k : A → io E B) :
  keeps m → (∀ a, keeps (k a)) → keeps (io_bind m k).
Proof.
  intros Hm Hk s Hs. specialize (Hm s Hs). unfold io_bind.
  destruct (m s) as [[a|e] s']; [|done]. by apply Hk.
Qed.
Lemma keeps_try {E F A} (m : io E A) : keeps m → keeps (io_try (F := F) m).
Proof. intros Hm s Hs. specialize (Hm s Hs). unfold io_try. by destruct (m s). Qed.
Lemma keeps_wrap {E F A} (f : E → F) (m : io E A) : keeps m → keeps (io_wrap f m).
Proof. intros Hm s Hs. specialize (Hm s Hs). unfold io_wrap. by destruct (m s). Qed.
Lemma keeps_if {E A} (P : Prop) `{Decision P} (m1 m2 : io E A) :
  (P → keeps m1) → (¬ P → keeps m2) → keeps (if decide P then m1 else m2).
Proof. intros. destruct (decide P); auto. Qed.
Lemma keeps_iter {E X} (f : X → io E unit) l : Forall (λ x, keeps (f x)) l → keeps (io_iter f l).
Proof. induction 1; simpl; [apply keeps_ret|]. apply keeps_bind; auto. Qed.

(** An inode no guarded name leads to. *)
Definition outside (s : fs) (n : nat) : Prop := ∀ p, fs_names s !! p = Some n → guarded p = false.

Lemma outside_name s q n : installed s → guarded q = false → fs_names s !! q = Some n → outside s n.
Proof.
  intros Hin Hq Hn p Hp. destruct (guarded p) eqn:Hg; [|done].
  rewrite (in_alias s Hin p q n) in Hq; done.
Qed.

Lemma guards_set_inode s n i i' :
  guards s → outside s n → fs_inodes s !! n = Some i →
  (i_node i' = i_node i ∨ (∃ d, i_node i = File d) ∧ ∃ d, i_node i' = File d) →
  guards (set_inodes <[n := i']> s).
Proof.
  intros [Hin Hsame] Hout Hi Hk.
  assert (∀ p, guarded p = true → lookup_path (set_inodes <[n := i']> s) p = lookup_path s p) as Hg.
  { intros p Hp. rewrite lookup_path_set_inode, decide_False; [done|]. intros H%Hout. congruence. }
  assert (∀ p, is_dir (set_inodes <[n := i']> s) p = is_dir s p) as Hd.
  { intros p. unfold is_dir. rewrite lookup_path_set_inode. case_decide as H; [|done].
    unfold lookup_path. rewrite H. simpl. rewrite Hi.
    by destruct Hk as [->|[[d ->] [d' ->]]]. }
  split; [|by intros p Hp; rewrite Hg by done; apply Hsame].
  pose proof (in_wf s Hin) as [H0 Hpar Hc Hino]. split.
  - split; [by rewrite Hd|intros p c; rewrite Hd; apply Hpar|done|].
    intros p m Hm%Hino. simpl. rewrite lookup_insert_is_Some'. by right.
  - rewrite Hd. apply Hin.
  - rewrite Hg by done. apply Hin.
  - intros p j t Hp. rewrite lookup_path_set_inode. case_decide as H; [|by apply (in_tame s Hin)].
    intros [= <-] Ht. destruct Hk as [Hk|[_ [d Hk]]]; [|congruence].
    apply (in_tame s Hin p i); [done| |congruence]. unfold lookup_path. by rewrite H.
  - apply (in_alias s Hin).
Qed.

Lemma guards_create s q i :
  guards s → free q → creatable s q → fs_names s !! q = None →
  (∀ t, i_node i = Symlink t → tame_target t = true) → guards (create q i s).
Proof.
  intros [Hin Hsame] Hf Hcr Hn Ht. pose proof (in_wf s Hin) as Hwf.
  assert (∀ p, lookup_path (create q i s) p = if decide (p = q) then Some i else lookup_path s p) as Hl
    by (intros; apply lookup_path_create, Hwf).
  assert (∀ p, guarded p = true → p ≠ q) as Hne.
  { intros p Hp ->. destruct Hf as (_&_&?). congruence. }
  assert (∀ p, p ≠ q → fs_names (create q i s) !! p = fs_names s !! p) as Hnm
    by (intros; by apply lookup_insert_ne).
  split.
  - split.
    + apply wf_create; [done| |done]. destruct Hcr as (d & c & -> & Hc & Hd). by exists d, c.
    + unfold is_dir. rewrite Hl, decide_False; [apply Hin|]. intros <-. by destruct Hf as (_&?&_).
    + rewrite Hl, decide_False by (by apply Hne). apply Hin.
    + intros p j t Hp. rewrite Hl. case_decide; [intros [= <-]; by apply Ht|by apply (in_tame s Hin)].
    + intros p p' n Hp. rewrite Hnm by (by apply Hne). intros Hpn.
      destruct (decide (p' = q)) as [->|Hq]; [|rewrite Hnm by done; by apply (in_alias s Hin p)].
      unfold create. simpl. rewrite lookup_insert_eq. intros [= <-]. exfalso.
      apply (wf_inode s Hwf), elem_of_dom in Hpn. by apply is_fresh in Hpn.
  - intros p Hp. rewrite Hl, Hnm, decide_False by (by apply Hne). by apply Hsame.
Qed.

Lemma free_not_prefix q p : free q → (guarded p = true ∨ p = ["sbin"]) → ¬ q `prefix_of` p.
Proof.
  intros (H1&H2&H3) Hp [r ->]. destruct q as [|c q]; [done|]. unfold guarded in *.
  apply orb_false_iff in H3 as [H3 H4]. destruct Hp as [Hp|Hp].
  - apply orb_true_iff in Hp as [Hp|Hp].
    + simpl in *. congruence.
    + apply bool_decide_eq_true in Hp as [k E]. apply bool_decide_eq_false in H4. apply H4.
      destruct q as [|d q]; simplify_list_eq. by exists q.
  - destruct q; simplify_list_eq.
Qed.

Lemma guards_remove_tree s q : guards s → free q → guards (set_names (remove_tree q) s).
Proof.
  intros [Hin Hsame] Hf.
  assert (∀ p, (guarded p = true ∨ p = ["sbin"]) → fs_names (set_names (remove_tree q) s) !! p = fs_names s !! p) as Hnm.
  { intros p Hp%(free_not_prefix q p Hf). simpl. destruct (fs_names s !! p) as [n|] eqn:E.
    - by apply (map_lookup_filter_Some_2 (λ kv : path * nat, ¬ q `prefix_of` kv.1)).
    - apply map_lookup_filter_None_2. by left. }
  assert (∀ p, (guarded p = true ∨ p = ["sbin"]) → lookup_path (set_names (remove_tree q) s) p = lookup_path s p) as Hl
    by (intros p Hp; unfold lookup_path; by rewrite Hnm).
  split.
  - split.
    + apply wf_remove_tree; [apply Hin|apply Hf].
    + unfold is_dir. rewrite Hl by (by right). apply Hin.
    + rewrite Hl by (by left). apply Hin.
    + intros p i t Hp. rewrite lookup_path_remove_tree. case_decide; [done|]. by apply (in_tame s Hin).
    + intros p p' n Hp. rewrite Hnm by (by left). intros Hpn Hp'. simpl in Hp'.
      apply map_lookup_filter_Some in Hp' as [Hp' _]. by apply (in_alias s Hin p p' n).
  - intros p Hp. rewrite Hl, Hnm by (by left). by apply Hsame.
Qed.

Lemma guards_link s q n :
  guards s → free q → creatable s q → fs_names s !! q = None → outside s n →
  (∃ q1, guarded q1 = false ∧ fs_names s !! q1 = Some n) → guards (set_names <[q := n]> s).
Proof.
  intros [Hin Hsame] Hf (d & c & -> & Hc & Hd) Hn Hout (q1 & Hq1 & Hn1).
  set (q := d ++ [c]) in *. pose proof (in_wf s Hin) as [H0 Hpar Hcs Hino].
  assert (∀ p, guarded p = true → p ≠ q) as Hne.
  { intros p Hp ->. destruct Hf as (_&_&?). congruence. }
  assert (∀ p, p ≠ q → fs_names (set_names <[q := n]> s) !! p = fs_names s !! p) as Hnm
    by (intros; by apply lookup_insert_ne).
  assert (∀ p, p ≠ q → lookup_path (set_names <[q := n]> s) p = lookup_path s p) as Hl
    by (intros p Hp; unfold lookup_path; by rewrite Hnm).
  assert (lookup_path (set_names <[q := n]> s) q = lookup_path s q1) as Hlq.
  { unfold lookup_path. simpl. by rewrite lookup_insert_eq, Hn1. }
  assert (∀ p, is_dir s p = true → is_dir (set_names <[q := n]> s) p = true) as Hdir.
  { intros p Hp. unfold is_dir. rewrite Hl; [done|]. intros ->. apply is_dir_name in Hp as [? ?]. congruence. }
  split.
  - split; [split|..].
    + by apply Hdir.
    + intros p e [m Hm]. simpl in Hm. apply lookup_insert_Some in Hm as [[E _]|[_ Hm]].
      * apply app_inj_tail in E as [<- _]. by apply Hdir.
      * apply Hdir, (Hpar p e). by exists m.
    + intros p [m Hm]. simpl in Hm. apply lookup_insert_Some in Hm as [[<- _]|[_ Hm]]; [|by apply Hcs].
      apply Forall_app; split; [by apply Hcs, is_dir_name|by constructor].
    + intros p m Hm. simpl in *. apply lookup_insert_Some in Hm as [[_ <-]|[_ Hm]]; [by apply (Hino q1)|by apply (Hino p)].
    + apply Hdir, Hin.
    + rewrite Hl by (by apply Hne). apply Hin.
    + intros p i t Hp. destruct (decide (p = q)) as [->|Hpq]; [|rewrite Hl by done; by apply (in_tame s Hin)].
      rewrite Hlq. by apply (in_tame s Hin).
    + intros p p' m Hp. rewrite Hnm by (by apply Hne). intros Hpm.
      destruct (decide (p' = q)) as [->|Hpq]; [|rewrite Hnm by done; by apply (in_alias s Hin p)].
      simpl. rewrite lookup_insert_eq. intros [= <-]. apply Hout in Hpm. congruence.
  - intros p Hp. rewrite Hl, Hnm by (by apply Hne). by apply Hsame.
Qed.

(** *** The calls *)

Hint Resolve keeps_ret keeps_err keeps_read keeps_try keeps_wrap : core.

Lemma keeps_create_excl cs mk :
  Forall comp cs → head cs ≠ Some "peel" → (∀ s t, i_node (mk s) = Symlink t → tame_target t = true) →
  keeps (create_excl (abs cs) mk).
Proof.
  intros Hcs Hp Ht s Hs. unfold create_excl. destruct (namei false (abs cs) s) as [q|e] eqn:E; [|done].
  destruct (fs_names s !! q) eqn:En; [done|].
  destruct (namei_new s false cs q) as [Hf Hcr]; [apply Hs|done..|]. by apply guards_create; [..|apply Ht].
Qed.

Lemma keeps_MkdirAll cs perm :
  Forall comp cs → head cs ≠ Some "peel" → keeps (os_MkdirAll (abs cs) perm).
Proof.
  intros Hcs Hp. unfold os_MkdirAll. rewrite rooted_comps_abs by done.
  rewrite <-(rev_involutive cs) in Hcs, Hp. revert Hcs Hp. generalize (rev cs) as rcs.
  induction rcs as [|c rcs IH]; intros Hcs Hp; rewrite MkdirAll_rev_eq.
  all: apply keeps_bind; [by apply keeps_try, keeps_read|intros [i|e]; [by case_match|]].
  all: assert (∀ p, keeps (E := errno) (os_Mkdir (abs (rev p)) perm) → keeps (E := errno)
    (let! err := io_try (os_Mkdir (abs (rev p)) perm) in
     match err with
     | Ok _ => io_ret tt
     | Err e => let! dir := io_try (os_Lstat (abs (rev p))) in
         match dir with Ok i => if IsDir i then io_ret tt else io_err e | Err _ => io_err e end
     end)) as Hk by (intros p Hm; apply keeps_bind; [auto|intros [[]|?]; [auto|]];
       apply keeps_bind; [by apply keeps_try, keeps_read|intros [?|?]; [by case_match|auto]]).
  - apply keeps_bind; [auto|intros _]. apply Hk. apply keeps_create_excl; done.
  - simpl in Hcs, Hp. apply keeps_bind.
    + apply IH; [by apply Forall_app in Hcs as [? _]|]. intros H. apply Hp. by destruct (rev rcs).
    + intros _. apply Hk. by apply keeps_create_excl.
Qed.

Lemma keeps_set_attr f cs g :
  Forall comp cs → prot cs = false → (∀ i i', g i = Ok i' → i_node i' = i_node i) →
  keeps (set_attr f (abs cs) g).
Proof.
  intros Hcs Hp Hg s Hs. unfold set_attr. destruct (namei f (abs cs) s) as [q|e] eqn:E; [|done].
  destruct (fs_names s !! q) as [n|] eqn:En; [|done]. destruct (fs_inodes s !! n) as [i|] eqn:Ei; [|done].
  destruct (g i) as [i'|e] eqn:Eg; [|done]. simpl. apply (guards_set_inode _ n i); [done| |done|left; by apply Hg].
  apply (outside_name s q); [apply Hs| |done]. apply (namei_unguarded s f cs); [apply Hs|done..].
Qed.

Lemma keeps_RemoveAll cs :
  Forall comp cs → prot cs = false → cs ≠ [] → cs ≠ ["sbin"] → keeps (os_RemoveAll (abs cs)).
Proof.
  intros Hcs Hp Hne Hsb s Hs. unfold os_RemoveAll. case_decide; [done|]. destruct (endsWithDot _); [done|].
  destruct (namei false (abs cs) s) as [q|e] eqn:E; [|by destruct e].
  assert (free q) as Hf by (eapply namei_free; [apply Hs|..]; done).
  destruct q as [|c q]; [by destruct Hf|]. by apply guards_remove_tree.
Qed.

Lemma alter_insert_id (m : gmap nat inode) n i f : m !! n = Some i → alter f n m = <[n := f i]> m.
Proof. intros H. rewrite <-(insert_id m n i H) at 1. apply alter_insert_eq. Qed.

(** Creating or truncating a file and writing to it. *)
Lemma keeps_write n data s : guards s → outside s n → guards (write n data s).2.
Proof.
  intros Hs Hout. unfold write. simpl. destruct (fs_inodes s !! n) as [i|] eqn:Ei.
  - assert (∀ f, set_inodes (alter f n) s = set_inodes <[n := f i]> s) as ->.
    { intros f. destruct s. unfold set_inodes. simpl in *. by rewrite (alter_insert_id _ _ i). }
    apply (guards_set_inode _ n i); [done..|]. destruct (i_node i) eqn:En; simpl; eauto.
  - assert (∀ f, set_inodes (alter f n) s = s) as ->; [|done].
    intros f. destruct s. unfold set_inodes. simpl in *. f_equal. apply alter_id. intros. congruence.
Qed.

Lemma keeps_OpenFile {A} cs perm data (k : io extract_error A) :
  Forall comp cs → prot cs = false → cs ≠ [] → keeps k →
  keeps (let! f := io_wrap SysErr (os_OpenFile (abs cs) perm) in io_wrap SysErr (write f data) ;! k).
Proof.
  intros Hcs Hp Hne Hk s Hs.
  assert (∀ n s1, guards s1 → outside s1 n → guards ((io_wrap SysErr (write n data) ;! k) s1).2) as Hw.
  { intros n s1 H1 H2. unfold io_bind, io_wrap. pose proof (keeps_write n data s1 H1 H2) as H3.
    simpl in *. by apply Hk. }
  unfold io_bind at 1, io_wrap at 1, os_OpenFile.
  destruct (namei true (abs cs) s) as [q|e] eqn:E; [|done].
  destruct (fs_names s !! q) as [n|] eqn:En.
  - assert (outside s n) as Hout.
    { apply (outside_name s q); [apply Hs| |done]. apply (namei_unguarded s true cs); [apply Hs|done..]. }
    destruct (fs_inodes s !! n) as [i|] eqn:Ei; simpl; [|by apply Hw].
    destruct (i_node i) eqn:Hn; simpl; try (by apply Hw); [done| |done].
    assert (∀ f, set_inodes (alter f n) s = set_inodes <[n := f i]> s) as ->.
    { intros f. destruct s. unfold set_inodes. simpl in *. by rewrite (alter_insert_id _ _ i). }
    apply Hw; [|done]. apply (guards_set_inode _ n i); simpl; eauto.
  - destruct (namei_new s true cs q) as [Hf Hcr]; [apply Hs|done|by apply prot_peel|done..|].
    simpl. assert (guards (create q (new_inode (File "") (Perm perm) s) s)) as Hg by (by apply guards_create).
    apply Hw; [done|]. apply (outside_name _ q); [apply Hg|apply Hf|]. simpl. by rewrite lookup_insert_eq.
Qed.

Lemma keeps_Link cs cs' :
  Forall comp cs → prot cs = false → Forall comp cs' → prot cs' = false →
  keeps (os_Link (abs cs) (abs cs')).
Proof.
  intros Hcs Hp Hcs' Hp' s Hs. unfold os_Link.
  destruct (stat false (abs cs) s) as [i|]; [|done]. destruct (namei false (abs cs) s) as [q1|] eqn:E1; [|done].
  destruct (namei false (abs cs') s) as [q2|] eqn:E2; [|done].
  destruct (fs_names s !! q2) eqn:En2; [by destruct (fs_names s !! q1)|].
  destruct (fs_names s !! q1) as [n|] eqn:En1; [|done]. destruct (IsDir i); [done|].
  destruct (namei_new s false cs' q2) as [Hf Hcr]; [apply Hs|done|by apply prot_peel|done..|].
  assert (guarded q1 = false) as Hg1 by (apply (namei_unguarded s false cs); [apply Hs|done..]).
  apply guards_link; [done..| |by exists q1]. apply (outside_name s q1); [apply Hs|done..].
Qed.
End Keeps.

(** ** The layer *)

(** The entries of a layer that cannot reach peel by a detour. *)
Definition tame_whiteout (cs : path) (c : string) : bool :=
  if decide (c = whiteoutOpaque) then bool_decide (cs ≠ [])
  else if strings_HasPrefix c whiteoutPrefix then bool_decide (comp (strings_TrimPrefix c whiteoutPrefix))
  else true.

Definition tame_entry (hdr : Header) : bool :=
  (if decide (hdr_Typeflag hdr = TypeSymlink) then tame_target (hdr_Linkname hdr) else true) &&
  (if decide (hdr_Typeflag hdr = TypeLink) then negb (prot (rooted_comps (hdr_Linkname hdr))) else true) &&
  (match last (rooted_comps (hdr_Name hdr)) with
   | Some c => tame_whiteout (removelast (rooted_comps (hdr_Name hdr))) c
   | None => true
   end).

Definition tame_item (it : tar_item) : bool :=
  match it with
  | TarEntry hdr _ _ => tame_entry hdr
  | TarError => true
  end.

Section Layer.
Context (s0 : fs).
Notation keeps := (keeps s0).
Hint Resolve keeps_ret keeps_err keeps_read keeps_try keeps_wrap : core.

Lemma keeps_make_room cs t :
  Forall comp cs → prot cs = false → cs ≠ [] → (cs = ["sbin"] → t = TypeDir) → keeps (make_room (abs cs) t).
Proof.
  intros Hcs Hp Hne Hsb. destruct (decide (cs = ["sbin"])) as [->|Hs].
  - intros s Hs. unfold make_room, io_bind at 1, io_try, os_Lstat, io_read, stat.
    rewrite namei_sbin by apply Hs. simpl.
    destruct Hs as [Hin Hsame]. pose proof (in_sbin s Hin) as (i & Hl & Hn)%is_dir_lookup.
    rewrite Hl, Hsb by done. unfold IsDir. by rewrite Hn.
  - unfold make_room. apply keeps_bind; [by apply keeps_try, keeps_read|].
    intros [i|]; [|auto]. destruct (negb _); [|auto]. apply keeps_wrap. by apply keeps_RemoveAll.
Qed.

Lemma keeps_applyXattrs cs hdr :
  Forall comp cs → prot cs = false → keeps (applyXattrs (abs cs) hdr).
Proof.
  intros Hcs Hp. apply keeps_iter, Forall_true. intros kv. destruct (strings_HasPrefix _ _); [|auto].
  apply keeps_bind; [|auto]. apply keeps_try. intros s Hs. unfold unix_Lsetxattr.
  apply keeps_set_attr; [done..| |done]. intros i i'. by case_match; intros [= <-].
Qed.

Lemma keeps_set_attributes cs hdr :
  Forall comp cs → prot cs = false → keeps (set_attributes (abs cs) hdr).
Proof.
  intros Hcs Hp. unfold set_attributes. apply keeps_bind; [|intros _].
  { apply keeps_try. apply keeps_set_attr; [done..|]. by intros i i' [= <-]. }
  apply keeps_bind; [|intros _].
  { case_decide; [auto|]. apply keeps_bind; [|auto]. apply keeps_try.
    apply keeps_set_attr; [done..|]. by intros i i' [= <-]. }
  apply keeps_bind; [by apply keeps_applyXattrs|intros _].
  unfold setTimes. case_match; [|auto]. intros s Hs. refine (keeps_bind _ _ _ (keeps_try _ _ _) _ s Hs); [|auto].
  apply keeps_set_attr; [done..|]. by intros i i' [= <-].
Qed.

Lemma path_Join_root cs : Forall comp cs → path_Join ["/"; strings_Join cs "/"] = abs cs.
Proof. intros H. destruct (decide (cs = [])) as [->|Hne]; [done|]. by apply Join_root. Qed.

Lemma keeps_make_entry cs hdr content read_err :
  Forall comp cs → prot cs = false → cs ≠ [] → tame_entry hdr = true →
  keeps (make_entry "/" (abs cs) hdr content read_err).
Proof.
  intros Hcs Hp Hne Ht. unfold tame_entry in Ht. apply andb_true_iff in Ht as [[Hsym Hlink]%andb_true_iff _].
  pose proof (prot_peel cs Hp) as Hpeel. unfold make_entry. cbv zeta.
  apply keeps_if; intros _; [apply keeps_bind; [by apply keeps_wrap, keeps_MkdirAll|auto]|].
  apply keeps_if; intros _; [apply keeps_OpenFile; [done..|by destruct read_err]|].
  apply keeps_if; intros Es.
  { rewrite decide_True in Hsym by done. apply keeps_bind; [|auto]. apply keeps_wrap. unfold os_Symlink.
    apply keeps_if; intros _; [auto|]. apply keeps_create_excl; [done..|]. by intros s t [= <-]. }
  apply keeps_if; intros El.
  { rewrite decide_True in Hlink by done. apply negb_true_iff in Hlink. apply keeps_bind; [|auto]. apply keeps_wrap.
    rewrite Clean_rooted, TrimPrefix_rooted, path_Join_root by apply rooted_comps_comps.
    apply keeps_Link; [apply rooted_comps_comps|done..]. }
  unfold unix_Mknod.
  do 3 (apply keeps_if; intros _; [apply keeps_bind; [apply keeps_wrap; by apply keeps_create_excl|auto]|]). auto.
Qed.

Lemma keeps_extractEntry cs hdr content read_err :
  Forall comp cs → prot cs = false → cs ≠ [] → (cs = ["sbin"] → hdr_Typeflag hdr = TypeDir) →
  tame_entry hdr = true → keeps (extractEntry "/" (strings_Join cs "/") hdr content read_err).
Proof.
  intros Hcs Hp Hne Hsb Ht. unfold extractEntry. rewrite path_Join_root by done.
  apply keeps_bind; [|intros _].
  { destruct cs as [|c cs _] using rev_ind; [done|]. rewrite Dir_abs by done. apply keeps_wrap, keeps_MkdirAll.
    - by apply Forall_app in Hcs as [? _].
    - intros H. apply prot_peel in Hp. apply Hp. by destruct cs. }
  apply keeps_bind; [by apply keeps_make_room|intros _].
  apply keeps_bind; [by apply keeps_make_entry|]. intros []; [by apply keeps_set_attributes|auto].
Qed.

Lemma keeps_clearDir cs :
  Forall comp cs → prot cs = false → cs ≠ [] → keeps (clearDir (abs cs) (strings_Join cs "/")).
Proof.
  intros Hcs Hp Hne s Hs. unfold clearDir, io_bind, io_try, os_ReadDir, io_read.
  destruct (namei true (abs cs) s) as [q|e]; simpl; [|by destruct e].
  destruct (lookup_path s q) as [i|] eqn:El; [|done]. destruct (IsDir i); [|done].
  apply keeps_iter; [|done]. apply Forall_forall. intros d Hd.
  rewrite merge_sort_Permutation in Hd. apply elem_of_children, (wf_comps s) in Hd; [|apply Hs].
  apply Forall_app in Hd as [_ [Hd _]%Forall_cons].
  assert (Forall comp (cs ++ [d])) as Hc by (apply Forall_app; split; [done|by constructor]).
  rewrite Join_dir, isProtected_Join, Join_abs by done. destruct (prot (cs ++ [d])) eqn:Hpd; [auto|].
  apply keeps_RemoveAll; [done|done|by destruct cs|]. intros E. apply (f_equal length) in E. rewrite length_app in E. destruct cs; [done|]. simpl in E. lia.
Qed.

Lemma keeps_applyEntry hdr content read_err :
  tame_entry hdr = true → keeps (applyEntry "/" hdr content read_err).
Proof.
  intros Ht. pose proof (rooted_comps_comps (hdr_Name hdr)) as Hcomps.
  pose proof Ht as [_ Hw]%andb_true_iff.
  destruct (rooted_comps (hdr_Name hdr)) as [|c cs _] eqn:E using rev_ind.
  { by rewrite applyEntry_root. }
  rewrite (applyEntry_comps _ _ _ _ _ E). rewrite last_snoc, removelast_last in Hw.
  unfold tame_whiteout in Hw. pose proof Hcomps as [Hcs _]%Forall_app.
  case_decide as Ho.
  { destruct (prot cs) eqn:Hp; [auto|]. apply keeps_wrap. apply keeps_clearDir; [done..|].
    by apply bool_decide_eq_true in Hw. }
  destruct (strings_HasPrefix c whiteoutPrefix).
  { apply bool_decide_eq_true in Hw. set (d := strings_TrimPrefix c whiteoutPrefix) in *.
    assert (Forall comp (cs ++ [d])) as Hc by (apply Forall_app; split; [done|by constructor]).
    cbv zeta. rewrite Join_dir, isProtected_Join, mustRemainDirs_Join by done.
    destruct (prot (cs ++ [d])) eqn:Hp; simpl; [auto|]. case_bool_decide as Hm; [auto|].
    rewrite path_Join_root by done. apply keeps_wrap, keeps_RemoveAll; [done|done|by destruct cs|tauto]. }
  destruct (prot (cs ++ [c])) eqn:Hp; [auto|]. destruct (_ && _) eqn:Hm; [auto|].
  apply keeps_wrap, keeps_extractEntry; [done|done|by destruct cs| |done].
  intros Es. rewrite bool_decide_eq_true_2 in Hm by tauto. simpl in Hm.
  apply negb_false_iff in Hm. by apply bool_decide_eq_true in Hm.
Qed.

Lemma keeps_ApplyLayer r : forallb tame_item r = true → keeps (ApplyLayer "/" r).
Proof.
  induction r as [|[hdr content e|] r IH]; simpl; [auto| |auto].
  intros [Hh Hr]%andb_true_iff. apply keeps_bind; [by apply keeps_applyEntry|intros _; by apply IH].
Qed.
End Layer.

(** ** A test for [installed] *)

Definition tame_inode (i : inode) : bool :=
  match i_node i with Symlink t => tame_target t | _ => true end.
Definition names_of (s : fs) : list (path * nat) := map_to_list (fs_names s).

Definition installed_b (s : fs) : bool :=
  wf_b s && is_dir s ["sbin"] &&
  match lookup_path s ["sbin"; "init"] with
  | Some i => match i_node i with File _ => true | _ => false end
  | None => false
  end &&
  forallb (λ kv, guarded kv.1 || match fs_inodes s !! kv.2 with Some i => tame_inode i | None => true end) (names_of s) &&
  forallb (λ kv, negb (guarded kv.1) ||
    forallb (λ kv', negb (bool_decide (kv.2 = kv'.2)) || guarded kv'.1) (names_of s)) (names_of s).

Lemma installed_b_sound s : installed_b s = true → installed s.
Proof.
  unfold installed_b, names_of. intros H. do 4 (apply andb_true_iff in H as [H ?]).
  assert (∀ p n, fs_names s !! p = Some n → (p, n) ∈ map_to_list (fs_names s)) as Hin
    by (intros; by apply elem_of_map_to_list).
  repeat match goal with H : forallb _ _ = true |- _ => rewrite forallb_forall in H end.
  setoid_rewrite <-list_elem_of_In in H0. setoid_rewrite <-list_elem_of_In in H1.
  split; [by apply wf_b_sound|done|..].
  - destruct (lookup_path s ["sbin"; "init"]) as [i|]; [|done]. destruct (i_node i) eqn:?; try done. eauto.
  - intros p i t Hg Hl Ht. apply bind_Some in Hl as (n & Hn & Hi). apply Hin, H1 in Hn. simpl in Hn.
    rewrite Hg, Hi in Hn. simpl in Hn. unfold tame_inode in Hn. by rewrite Ht in Hn.
  - intros p q n Hg Hp Hq. apply Hin, H0 in Hp. simpl in Hp. rewrite Hg in Hp. simpl in Hp.
    rewrite forallb_forall in Hp. setoid_rewrite <-list_elem_of_In in Hp.
    apply Hin, Hp in Hq. simpl in Hq. by rewrite bool_decide_eq_true_2 in Hq.
Qed.

(** ** Claims *)

(** C1. A layer whose symbolic links do not lead to peel, that has no hard link
    to peel's files and no whiteout of nothing or of the whole root, leaves
    [/sbin/init] and everything under [/peel] as they were, names, contents and
    attributes, and [/sbin] a real directory; this holds of every such stream,
    also one whose extraction fails half way, and peel can then take the next
    layer. *)
Theorem layer_spares_peel s r :
  installed s → forallb tame_item r = true →
  let s' := (ApplyLayer "/" r s).2 in
  installed s' ∧ ∀ p, guarded p = true → fs_names s' !! p = fs_names s !! p ∧ lookup_path s' p = lookup_path s p.
Proof. intros Hin Ht. by apply (keeps_ApplyLayer s). Qed.

Definition hostile_layer : list tar_item := [
  TarEntry (entry TypeSymlink "sbin" "usr/sbin") "" false;
  TarEntry (entry TypeReg "usr/lib/x" "") "x" false;
  TarEntry (entry TypeSymlink "lib" "./usr/lib") "" false;
  TarEntry (entry TypeReg "../sbin/init" "") "mine now" false;
  TarEntry (entry TypeReg ".wh.peel" "") "" false;
  TarEntry (entry TypeReg ".wh.sbin" "") "" false;
  TarEntry (entry TypeReg "sbin/.wh..wh..opq" "") "" false;
  TarEntry (entry TypeReg "lib/y" "") "y" false;
  TarEntry (entry TypeReg "peel/state.json" "") "{}" false].

Lemma layer_spares_peel_witness :
  installed container ∧ forallb tame_item hostile_layer = true ∧
  (installed (ApplyLayer "/" hostile_layer container).2 ∧
   ∀ p, guarded p = true →
     fs_names (ApplyLayer "/" hostile_layer container).2 !! p = fs_names container !! p ∧
     lookup_path (ApplyLayer "/" hostile_layer container).2 p = lookup_path container p).
Proof.
  split_and; [apply installed_b_sound; vm_compute; reflexivity|].
  split; [vm_compute; reflexivity|].
  apply (layer_spares_peel container hostile_layer); [apply installed_b_sound; vm_compute; reflexivity|vm_compute; reflexivity].
Defined.

(** ** What the hypothesis excludes *)

(** A symbolic link to [/peel] gives the layer another name for its files, and
    [isProtected] only looks at the name the entry has. *)
Lemma symlink_detour :
  let layer := [TarEntry (entry TypeSymlink "x" "peel") "" false;
                TarEntry (entry TypeReg "x/config" "") "mine" false] in
  i_node <$> lookup_path (ApplyLayer "/" layer container).2 ["peel"; "config"] = Some (File "mine").
Proof. vm_compute. reflexivity. Qed.

(** A hard link to [/sbin/init] lets the layer change the mode and the owner of
    peel's binary. *)
Lemma hardlink_detour :
  let layer := [TarEntry (entry TypeLink "x" "/sbin/init") "" false] in
  i_mode <$> lookup_path container ["sbin"; "init"] = Some o755 ∧
  i_mode <$> lookup_path (ApplyLayer "/" layer container).2 ["sbin"; "init"] = Some o644.
Proof. vm_compute. split; reflexivity. Qed.

(** A whiteout of nothing, [.wh.], at the top of a layer is a whiteout of the
    root: it removes everything, peel included, and fails. *)
Lemma bare_whiteout_detour :
  let '(r, s') := ApplyLayer "/" [TarEntry (entry TypeReg ".wh." "") "" false] container in
  r = Err (ErrWhiteout "" EBUSY) ∧ (map_to_list (fs_names s')).*1 = [[]].
Proof. vm_compute. split; reflexivity. Qed.
