(* ===== verification/Config.v ===== *)
(** * Configuration and runtime records: [internal/config], [internal/state]

    The records that travel from the configuration file and the image to the
    entrypoint.  A Go slice of strings whose nil and empty values the code
    tells apart is an [option (list string)]; elsewhere it is a list. *)

From S2P Require Import Prelude GoStrings.

(** [config.Config]. *)
Record Config := mkConfig {
  cfg_Image : string;
  cfg_Platform : string;
  cfg_Insecure : bool;
  cfg_Username : string;
  cfg_Password : string;
  cfg_Auth : string;
  cfg_IdentityToken : string;
  cfg_RegistryToken : string;
  cfg_Entrypoint : option (list string);
  cfg_Cmd : option (list string);
  cfg_Env : option (list string);
  cfg_WorkingDir : string;
  cfg_User : string;
}.

(** [config.wireConfig]: what [json.Unmarshal] fills. *)
Record wireConfig := mkWireConfig {
  w_Image : string;
  w_Platform : string;
  w_Insecure : string;
  w_Username : string;
  w_Password : string;
  w_Auth : string;
  w_IdentityToken : string;
  w_RegistryToken : string;
  w_WorkingDir : string;
  w_User : string;
  w_Entrypoint : option (list string);
  w_Cmd : option (list string);
  w_Env : option (list string);
}.

Definition parseBool (s : string) : bool :=
  let s := strings_ToLower (strings_TrimSpace s) in
  bool_decide (s = "true" ∨ s = "1" ∨ s = "yes").

Definition orNil (s : option (list string)) : option (list string) :=
  match s with
  | Some [] => None
  | _ => s
  end.

(** [len(s)] and ranging over [s] see the same list. *)
Definition elems (s : option (list string)) : list string := default [] s.

(** The second half of [config.Load]: the checks and the conversion. *)
Definition from_wire (w : wireConfig) : option Config :=
  if decide (w_Image w = "") then None
  else Some (mkConfig (w_Image w) (w_Platform w) (parseBool (w_Insecure w)) (w_Username w)
    (w_Password w) (w_Auth w) (w_IdentityToken w) (w_RegistryToken w)
    (orNil (w_Entrypoint w)) (orNil (w_Cmd w)) (orNil (w_Env w)) (w_WorkingDir w) (w_User w)).

(** [state.Runtime]. *)
Record Runtime := mkRuntime {
  rt_Entrypoint : list string;
  rt_Cmd : list string;
  rt_Env : list string;
  rt_WorkingDir : string;
  rt_User : string;
}.
