(* ===== verification/Entrypoint.v ===== *)
(** * Resolving the command to run: [internal/entrypoint/entrypoint.go] *)

From S2P Require Import Prelude Platform GoStrings GoPath FS Config.

(** [entrypoint.Spec]; its [Groups] are never set. *)
Record Spec := mkSpec {
  sp_Path : string;
  sp_Argv : list string;
  sp_Env : list string;
  sp_Dir : string;
  sp_UID : Z;
  sp_GID : Z;
  sp_Groups : list Z;
}.

Definition defaultPath : string := "/usr/local/sbin:/usr/local/bin:/usr/sbin:/usr/bin:/sbin:/bin".

Definition equals : ascii := "=".
Definition colon : ascii := ":".

(** ** Environment *)

(** [key] of [key, _, _ := strings.Cut(kv, "=")]. *)
Definition env_key (kv : string) : string := (strings_Cut kv equals).1.1.

(** The inner loop of [mergeEnv]: the first entry for the key of [kv] becomes
    [kv]; [None] if there is none. *)
Fixpoint replace_first (out : list string) (kv : string) : option (list string) :=
  match out with
  | [] => None
  | existing :: out' =>
      if decide (env_key existing = env_key kv) then Some (kv :: out')
      else cons existing <$> replace_first out' kv
  end.

Definition set_env (out : list string) (kv : string) : list string :=
  default (out ++ [kv]) (replace_first out kv).

Definition mergeEnv (base override : list string) : list string := foldl set_env base override.

Fixpoint lookupEnv (env : list string) (key : string) : string :=
  match env with
  | [] => ""
  | kv :: env' =>
      let '(k, v, ok) := strings_Cut kv equals in
      if (ok : bool) && bool_decide (k = key) then v else lookupEnv env' key
  end.

Definition Merge (rt : Runtime) (cfg : Config) : Runtime := mkRuntime
  (if decide (elems (cfg_Entrypoint cfg) = []) then rt_Entrypoint rt else elems (cfg_Entrypoint cfg))
  (if decide (elems (cfg_Cmd cfg) = []) then rt_Cmd rt else elems (cfg_Cmd cfg))
  (mergeEnv (rt_Env rt) (elems (cfg_Env cfg)))
  (if decide (cfg_WorkingDir cfg = "") then rt_WorkingDir rt else cfg_WorkingDir cfg)
  (if decide (cfg_User cfg = "") then rt_User rt else cfg_User cfg).

(** ** Users and groups *)

(** What [os.Open] and reading the file yield. *)
Definition open_file (s : fs) (p : string) : file :=
  match stat true p s with
  | Err ENOENT => FileNotExist
  | Err _ => FileOpenErr
  | Ok i => match i_node i with
            | File data => FileData data false
            | Socket => FileOpenErr
            | _ => FileData "" true (* reading a directory fails; devices are not modelled *)
            end
  end.

Inductive entry_error :=
  | ErrNoCommand
  | ErrOpenFile
  | ErrReadFile
  | ErrUserNotFound (name : string)
  | ErrGroupNotFound (name : string)
  | ErrNotExecutable
  | ErrIsDirectory
  | ErrStat (e : errno)
  | ErrNotInPath (file : string).

Definition skipped (line : string) : bool :=
  bool_decide (line = "") || strings_HasPrefix line "#".

Record passwdUser := mkPasswdUser { pu_uid : Z; pu_gid : Z }.

(** One line of [/etc/passwd]: the entry, if it is the one for [name]. *)
Definition passwd_line (name line : string) : option passwdUser :=
  if skipped line then None
  else match strings_Split line colon with
       | f0 :: _ :: f2 :: f3 :: _ =>
           if decide (f0 = name) then
             match strconv_ParseUint f2 10 32, strconv_ParseUint f3 10 32 with
             | Ok uid, Ok gid => Some (mkPasswdUser uid gid)
             | _, _ => None
             end
           else None
       | _ => None
       end.

(** One line of [/etc/group]. *)
Definition group_line (name line : string) : option Z :=
  if skipped line then None
  else match strings_Split line colon with
       | f0 :: _ :: f2 :: _ =>
           if decide (f0 = name) then
             match strconv_ParseUint f2 10 32 with Ok gid => Some gid | Err _ => None end
           else None
       | _ => None
       end.

Fixpoint first_line {A} (f : string → option A) (lines : list string) : option A :=
  match lines with
  | [] => None
  | l :: ls => match f l with Some a => Some a | None => first_line f ls end
  end.

(** The shape the two lookups share: open, scan for the first line that
    answers, and report the scanner's error only when none did. *)
Definition lookup_file {A} (f : file) (line : string → option A) : res entry_error (option A) :=
  match f with
  | FileNotExist => Ok None
  | FileOpenErr => Err ErrOpenFile
  | FileData data read_err =>
      let '(lines, too_long) := ScanLines data in
      match first_line line lines with
      | Some a => Ok (Some a)
      | None => if too_long || read_err then Err ErrReadFile else Ok None
      end
  end.

Definition lookupPasswd (s : fs) (root name : string) : res entry_error (option passwdUser) :=
  lookup_file (open_file s (path_Join [root; "etc"; "passwd"])) (passwd_line name).
Definition lookupGroup (s : fs) (root name : string) : res entry_error (option Z) :=
  lookup_file (open_file s (path_Join [root; "etc"; "group"])) (group_line name).

Definition resolveUser (s : fs) (root spec : string) : res entry_error (Z * Z) :=
  if decide (spec = "") then Ok (0, 0)
  else
    let '(userPart, groupPart, hasGroup) := strings_Cut spec colon in
    let numeric := match strconv_ParseUint userPart 10 32 with Ok n => Some (n, 0) | Err _ => None end in
    let? pu := lookupPasswd s root userPart in
    match (match pu with Some u => Some (pu_uid u, pu_gid u) | None => numeric end) with
    | None => Err (ErrUserNotFound userPart)
    | Some (uid, gid) =>
        if (hasGroup : bool) then
          match strconv_ParseUint groupPart 10 32 with
          | Ok n => Ok (uid, n)
          | Err _ =>
              let? g := lookupGroup s root groupPart in
              match g with
              | Some gid => Ok (uid, gid)
              | None => Err (ErrGroupNotFound groupPart)
              end
          end
        else Ok (uid, gid)
    end.

(** ** The executable *)

(** [0o111]. *)
Definition o111 : Z := 0x49.

Definition checkExecutable (s : fs) (p : string) : res entry_error unit :=
  match stat true p s with
  | Err e => Err (ErrStat e)
  | Ok i =>
      if IsDir i then Err ErrIsDirectory
      else if Z.land (i_mode i) o111 =? 0 then Err ErrNotExecutable
      else Ok tt
  end.

Fixpoint search_path (s : fs) (root file : string) (dirs : list string) : res entry_error string :=
  match dirs with
  | [] => Err (ErrNotInPath file)
  | dir :: dirs' =>
      if decide (dir = "") then search_path s root file dirs'
      else
        let p := path_Join [root; dir; file] in
        if is_Ok (checkExecutable s p) then Ok p else search_path s root file dirs'
  end.

Definition lookPath (s : fs) (root file pathEnv : string) : res entry_error string :=
  if strings_ContainsByte file slash then
    let p := path_Join [root; file] in
    let? _ := checkExecutable s p in Ok p
  else search_path s root file (strings_Split pathEnv colon).

Definition Resolve (s : fs) (root : string) (rt : Runtime) : res entry_error Spec :=
  match rt_Entrypoint rt ++ rt_Cmd rt with
  | [] => Err ErrNoCommand
  | (argv0 :: _) as argv =>
      let dir := if decide (rt_WorkingDir rt = "") then "/" else rt_WorkingDir rt in
      let env := if decide (lookupEnv (rt_Env rt) "PATH" = "") then rt_Env rt ++ ["PATH=" +:+ defaultPath]
                 else rt_Env rt in
      let? (uid, gid) := resolveUser s root (rt_User rt) in
      let? p := lookPath s root argv0 (lookupEnv env "PATH") in
      Ok (mkSpec p argv env dir uid gid [])
  end.

(** ** Facts about environments *)

(** The value of the first entry for [key]: what [lookupEnv] and the C library's
    [getenv] find. *)
Fixpoint env_get (env : list string) (key : string) : option string :=
  match env with
  | [] => None
  | kv :: env' =>
      let '(k, v, ok) := strings_Cut kv equals in
      if (ok : bool) && bool_decide (k = key) then Some v else env_get env' key
  end.

(** The value the started process gets: [os/exec] keeps the last of several
    entries for one key. *)
Definition exec_get (env : list string) (key : string) : option string := env_get (reverse env) key.

Definition has_equals (kv : string) : Prop := (strings_Cut kv equals).2 = true.
#[export] Instance has_equals_dec kv : Decision (has_equals kv).
Proof. unfold has_equals. apply _. Defined.

Lemma lookupEnv_get env key : lookupEnv env key = default "" (env_get env key).
Proof.
  induction env as [|kv env IH]; [done|]. simpl. destruct (strings_Cut kv equals) as [[k v] ok].
  by destruct (ok && bool_decide (k = key)).
Qed.

Lemma env_get_app e1 e2 key :
  env_get (e1 ++ e2) key = match env_get e1 key with Some v => Some v | None => env_get e2 key end.
Proof.
  induction e1 as [|kv e1 IH]; [done|]. simpl. destruct (strings_Cut kv equals) as [[k v] ok].
  by destruct (ok && bool_decide (k = key)).
Qed.

Lemma env_get_single kv key :
  env_get [kv] key = if decide (has_equals kv ∧ env_key kv = key) then Some (strings_Cut kv equals).1.2 else None.
Proof.
  destruct (decide _) as [H|H]; unfold has_equals, env_key in H; simpl;
    destruct (strings_Cut kv equals) as [[k v] ok]; simpl in *.
  - destruct H as [-> ->]. by rewrite bool_decide_eq_true_2.
  - destruct ok; [|done]. rewrite bool_decide_eq_false_2; [done|]. by intros ->; destruct H.
Qed.

Lemma replace_first_get out kv key out' :
  has_equals kv → replace_first out kv = Some out' →
  env_get out' key = match env_get [kv] key with Some v => Some v | None => env_get out key end.
Proof.
  intros Hkv. revert out'. induction out as [|e out IH]; intros out' E; [done|].
  cbn [replace_first] in E. case_decide as Hk.
  - injection E as <-. rewrite (env_get_app [kv] out), (env_get_app [e] out).
    rewrite !env_get_single. destruct (decide (env_key kv = key)) as [Heq|Hne].
    + by rewrite decide_True by done.
    + rewrite !decide_False by (intros [_ ?]; congruence). done.
  - apply fmap_Some in E as (out1 & E & ->). rewrite (env_get_app [e] out1), (env_get_app [e] out).
    rewrite (IH _ E), !env_get_single. case_decide as H1; case_decide as H2; try done.
    destruct H1, H2. congruence.
Qed.

Lemma set_env_get out kv key :
  has_equals kv → env_get (set_env out kv) key =
    match env_get [kv] key with Some v => Some v | None => env_get out key end.
Proof.
  intros Hkv. unfold set_env. destruct (replace_first out kv) as [out'|] eqn:E; cbn [from_option id].
  - by eapply replace_first_get.
  - assert (∀ kv', kv' ∈ out → env_key kv' ≠ env_key kv) as Hno.
    { revert E. induction out as [|e out IH]; cbn [replace_first]; [by intros _ ? ?%not_elem_of_nil|].
      case_decide as Hk; [done|]. intros E%fmap_None. intros kv' [->|Hin]%elem_of_cons; [done|by apply IH]. }
    rewrite env_get_app. destruct (env_get out key) as [v|] eqn:Eg; [|by destruct (env_get [kv] key)].
    rewrite env_get_single, decide_False; [done|]. intros [_ <-].
    clear E. induction out as [|e out IH]; [done|]. rewrite (env_get_app [e] out), env_get_single in Eg.
    rewrite decide_False in Eg by (intros [_ ?]; by apply (Hno e); [left|]).
    apply IH; [|done]. intros kv' Hin. apply Hno. by right.
Qed.

Lemma mergeEnv_get base override key :
  Forall has_equals override →
  env_get (mergeEnv base override) key =
    match exec_get override key with Some v => Some v | None => env_get base key end.
Proof.
  unfold exec_get. revert base. induction override as [|kv override IH]; intros base H; [done|].
  apply Forall_cons in H as [Hkv H]. unfold mergeEnv in *. simpl. rewrite IH by done.
  rewrite reverse_cons, env_get_app, set_env_get by done.
  by destruct (env_get (reverse override) key), (env_get [kv] key).
Qed.

(** One entry per key. *)
Definition distinct_keys (env : list string) : Prop := NoDup (env_key <$> env).

Lemma set_env_distinct out kv : distinct_keys out → distinct_keys (set_env out kv).
Proof.
  unfold distinct_keys, set_env. intros H. destruct (replace_first out kv) as [out'|] eqn:E; simpl.
  - assert (env_key <$> out' = env_key <$> out) as ->; [|done].
    clear H. revert out' E. induction out as [|e out IH]; intros out' E; [done|]. cbn [replace_first] in E.
    case_decide as Hk; [injection E as <-; by rewrite !fmap_cons, Hk|].
    apply fmap_Some in E as (out1 & E & ->). by rewrite !fmap_cons, (IH _ E).
  - rewrite fmap_app. apply NoDup_app. split_and!; [done| |by apply NoDup_singleton].
    intros k Hk Hin. simpl in Hin. apply list_elem_of_singleton in Hin as ->.
    clear H. induction out as [|e out IH]; [by apply not_elem_of_nil in Hk|]. cbn [replace_first] in E.
    case_decide as Hke; [done|]. apply fmap_None in E. rewrite fmap_cons in Hk.
    apply elem_of_cons in Hk as [Hk|Hk]; [by destruct Hke|by apply IH].
Qed.

Lemma mergeEnv_distinct base override : distinct_keys base → distinct_keys (mergeEnv base override).
Proof.
  revert base. induction override as [|kv override IH]; intros base H; [done|].
  unfold mergeEnv. simpl. apply IH. by apply set_env_distinct.
Qed.

Lemma env_get_None env key : key ∉ env_key <$> env → env_get env key = None.
Proof.
  induction env as [|kv env IH]; [done|]. rewrite fmap_cons, not_elem_of_cons. intros [Hne Hnot].
  rewrite (env_get_app [kv] env), env_get_single, decide_False by (intros [_ E]; by symmetry in E). by apply IH.
Qed.

Lemma exec_get_distinct env key : distinct_keys env → exec_get env key = env_get env key.
Proof.
  unfold exec_get, distinct_keys. induction env as [|kv env IH]; [done|].
  rewrite fmap_cons. intros [Hnot Hnd]%NoDup_cons. rewrite reverse_cons, env_get_app, IH by done.
  rewrite (env_get_app [kv] env), env_get_single. case_decide as Hk; [|by destruct (env_get env key)].
  destruct Hk as [_ Hk]. by rewrite env_get_None by (by rewrite <-Hk).
Qed.

(** ** Facts about the executable *)

(** [p] leads to something that is not a directory and that someone may execute. *)
Definition executable (s : fs) (p : string) : Prop :=
  ∃ i, stat true p s = Ok i ∧ IsDir i = false ∧ Z.land (i_mode i) o111 ≠ 0.

Lemma checkExecutable_Ok s p : is_Ok (checkExecutable s p) = true ↔ executable s p.
Proof.
  unfold checkExecutable, executable. destruct (stat true p s) as [i|e].
  - destruct (IsDir i) eqn:Hd; [by split; [|intros (?&[= <-]&?&?); congruence]|].
    destruct (Z.eqb_spec (Z.land (i_mode i) o111) 0); split; try done; [naive_solver|eauto].
  - split; [done|]. by intros (?&?&_).
Qed.

Lemma search_path_Ok s root file dirs p :
  search_path s root file dirs = Ok p ↔
  ∃ pre d post, dirs = pre ++ d :: post ∧ d ≠ "" ∧ p = path_Join [root; d; file] ∧ executable s p ∧
    Forall (λ e, e ≠ "" → ¬ executable s (path_Join [root; e; file])) pre.
Proof.
  induction dirs as [|e dirs IH]; simpl.
  { split; [done|]. intros (pre & d & post & E & _). by destruct pre. }
  assert ((∃ pre d post, dirs = pre ++ d :: post ∧ d ≠ "" ∧ p = path_Join [root; d; file] ∧ executable s p ∧
    Forall (λ e, e ≠ "" → ¬ executable s (path_Join [root; e; file])) pre) ↔
    (∃ pre d post, e :: dirs = (e :: pre) ++ d :: post ∧ d ≠ "" ∧ p = path_Join [root; d; file] ∧ executable s p ∧
    Forall (λ e, e ≠ "" → ¬ executable s (path_Join [root; e; file])) pre)) as Hcons.
  { split; intros (pre & d & post & E & H); exists pre, d, post; (split; [simpl in *; congruence|done]). }
  case_decide as He.
  - rewrite IH, Hcons. split; intros (pre & d & post & E & Hd & Hp & Hx & Hf).
    + exists (e :: pre), d, post. split_and!; [done..|]. by constructor.
    + destruct pre as [|e' pre]; simplify_list_eq. exists pre, d, post. split_and!; [done..|]. by inversion Hf.
  - destruct (is_Ok _) eqn:Hok.
    + apply checkExecutable_Ok in Hok. split.
      * intros [= <-]. exists [], e, dirs. by split_and!.
      * intros (pre & d & post & E & Hd & -> & Hx & Hf). destruct pre as [|e' pre]; simplify_list_eq; [done|].
        inversion Hf as [|? ? Hne]; subst. exfalso. by apply Hne.
    + assert (¬ executable s (path_Join [root; e; file])) as Hno.
      { intros H%checkExecutable_Ok. congruence. }
      rewrite IH, Hcons. split; intros (pre & d & post & E & Hd & Hp & Hx & Hf).
      * exists (e :: pre), d, post. split_and!; [done..|]. by constructor.
      * destruct pre as [|e' pre]; simplify_list_eq; try done. exists pre, d, post. split_and!; [done..|]. by inversion Hf.
Qed.

Lemma lookPath_executable s root file pathEnv p :
  lookPath s root file pathEnv = Ok p → executable s p.
Proof.
  unfold lookPath. case_match.
  - intros (u & Hc & [= <-])%res_bind_Ok. apply checkExecutable_Ok. by rewrite Hc.
  - intros (pre & d & post & _ & _ & _ & Hx & _)%search_path_Ok. done.
Qed.

(** ** Facts about [/etc/passwd] *)

Lemma first_line_app {A} (f : string → option A) l1 l2 :
  first_line f (l1 ++ l2) = match first_line f l1 with Some a => Some a | None => first_line f l2 end.
Proof. induction l1 as [|l l1 IH]; [done|]. simpl. by destruct (f l). Qed.

Lemma passwd_line_range name line u :
  passwd_line name line = Some u → 0 ≤ pu_uid u < 2 ^ 32 ∧ 0 ≤ pu_gid u < 2 ^ 32.
Proof.
  unfold passwd_line. destruct (skipped line); [done|].
  destruct (strings_Split line colon) as [|f0 [|f1 [|f2 [|f3 fs']]]]; try done. case_decide; [|done].
  destruct (strconv_ParseUint f2 10 32) as [uid|] eqn:E1; [|done].
  destruct (strconv_ParseUint f3 10 32) as [gid|] eqn:E2; [|done]. intros [= <-]. simpl.
  split; by eapply ParseUint_range; [..|eassumption].
Qed.

Lemma group_line_range name line g : group_line name line = Some g → 0 ≤ g < 2 ^ 32.
Proof.
  unfold group_line. destruct (skipped line); [done|].
  destruct (strings_Split line colon) as [|f0 [|f1 [|f2 fs']]]; try done. case_decide; [|done].
  destruct (strconv_ParseUint f2 10 32) as [gid|] eqn:E1; [|done]. intros [= <-].
  by eapply ParseUint_range; [..|eassumption].
Qed.

Lemma first_line_Some {A} (f : string → option A) lines a :
  first_line f lines = Some a → ∃ l, f l = Some a.
Proof. induction lines as [|l lines IH]; [done|]. simpl. destruct (f l) eqn:E; [|done]. intros [= ->]. eauto. Qed.

Lemma lookup_file_Some {A} f (line : string → option A) a :
  lookup_file f line = Ok (Some a) → ∃ l, line l = Some a.
Proof.
  unfold lookup_file. destruct f as [| |data e]; [done..|]. destruct (ScanLines data) as [lines t].
  destruct (first_line line lines) as [a'|] eqn:E; [|by case_match]. intros [= <-]. by eapply first_line_Some.
Qed.

Lemma resolveUser_range s root spec uid gid :
  resolveUser s root spec = Ok (uid, gid) → 0 ≤ uid < 2 ^ 32 ∧ 0 ≤ gid < 2 ^ 32.
Proof.
  unfold resolveUser. case_decide; [by intros [= <- <-]|].
  destruct (strings_Cut spec colon) as [[userPart groupPart] hasGroup].
  intros (pu & Hpu & H1)%res_bind_Ok. revert H1.
  destruct (match pu with Some u => _ | None => _ end) as [[u g]|] eqn:Eu; [|done].
  assert (0 ≤ u < 2 ^ 32 ∧ 0 ≤ g < 2 ^ 32) as [Hu Hg].
  { destruct pu as [pu|].
    - injection Eu as <- <-. apply lookup_file_Some in Hpu as [l Hl]. by eapply passwd_line_range.
    - destruct (strconv_ParseUint userPart 10 32) as [n|] eqn:En; [|done]. injection Eu as <- <-.
      split; [by eapply ParseUint_range; [..|eassumption]|lia]. }
  destruct hasGroup; [|by intros [= <- <-]].
  destruct (strconv_ParseUint groupPart 10 32) as [n|] eqn:En.
  - intros [= <- <-]. split; [done|]. by eapply ParseUint_range; [..|eassumption].
  - intros (og & Hg' & H2)%res_bind_Ok. destruct og as [g'|]; [|done]. injection H2 as <- <-.
    split; [done|]. apply lookup_file_Some in Hg' as [l Hl]. by eapply group_line_range.
Qed.

(** An entry of [/etc/passwd] as the file has it. *)
Record passwd_entry := mkPasswdEntry {
  pe_name : string; pe_password : string; pe_uid : Z; pe_gid : Z; pe_rest : string }.

Definition passwd_render (e : passwd_entry) : string :=
  pe_name e +:+ ":" +:+ pe_password e +:+ ":" +:+ strconv_Itoa (pe_uid e) +:+ ":" +:+
  strconv_Itoa (pe_gid e) +:+ ":" +:+ pe_rest e.

Definition plain_entry (e : passwd_entry) : Prop :=
  pe_name e ≠ "" ∧ strings_HasPrefix (pe_name e) "#" = false ∧ lacks colon (pe_name e) ∧
  lacks colon (pe_password e) ∧ 0 ≤ pe_uid e < 2 ^ 32 ∧ 0 ≤ pe_gid e < 2 ^ 32 ∧ plain_line (passwd_render e).

Lemma skipped_app n t :
  n ≠ "" → strings_HasPrefix n "#" = false → skipped (n +:+ t) = false.
Proof.
  intros Hne Hp. destruct n as [|a n]; [done|]. unfold skipped. rewrite sapp_cons.
  change (strings_HasPrefix (String a (n +:+ t)) "#") with (if ascii_dec "#" a then strings_HasPrefix (n +:+ t) "" else false).
  change (strings_HasPrefix (String a n) "#") with (if ascii_dec "#" a then strings_HasPrefix n "" else false) in Hp.
  destruct (ascii_dec "#" a); [by destruct n|done].
Qed.

(** Parsing an entry's line finds the entry's ids. *)
Lemma passwd_line_render name e :
  plain_entry e →
  passwd_line name (passwd_render e) =
    if decide (pe_name e = name) then Some (mkPasswdUser (pe_uid e) (pe_gid e)) else None.
Proof.
  intros (Hne & Hp & Hn & Hpw & Hu & Hg & _). unfold passwd_line, passwd_render.
  rewrite skipped_app by done.
  repeat change (":" +:+ ?t) with (String colon t).
  rewrite (Split_lacks_app (pe_name e)), (Split_lacks_app (pe_password e)) by done.
  rewrite !(Split_lacks_app (strconv_Itoa _)) by (apply Itoa_lacks; [done|lia]).
  cbv beta iota. case_decide; [|done]. by rewrite !ParseUint_Itoa by lia.
Qed.

Lemma first_line_entries name entries :
  Forall plain_entry entries →
  first_line (passwd_line name) (passwd_render <$> entries) =
    (λ e, mkPasswdUser (pe_uid e) (pe_gid e)) <$> find (λ e, bool_decide (pe_name e = name)) entries.
Proof.
  induction 1 as [|e entries He Hes IH]; [done|]. rewrite fmap_cons. cbn [first_line find].
  rewrite passwd_line_render by done. case_decide as Hn.
  - by rewrite bool_decide_eq_true_2.
  - by rewrite bool_decide_eq_false_2.
Qed.

Lemma lookupPasswd_entries s root name entries :
  Forall plain_entry entries →
  open_file s (path_Join [root; "etc"; "passwd"]) = FileData (file_of_lines (passwd_render <$> entries)) false →
  lookupPasswd s root name =
    Ok ((λ e, mkPasswdUser (pe_uid e) (pe_gid e)) <$> find (λ e, bool_decide (pe_name e = name)) entries).
Proof.
  intros He Hf. unfold lookupPasswd, lookup_file. rewrite Hf, ScanLines_file.
  - rewrite first_line_entries by done. by destruct (find _ entries).
  - apply Forall_fmap. eapply Forall_impl; [exact He|]. intros e (_&_&_&_&_&_&H). done.
Qed.

(** ** Claims *)

(** When every override has an [=], each variable of the merged environment
    has the value of its last override, or else the value it had in the image:
    both for [lookupEnv] and, if the image gives each variable once, for the
    process that is started. *)
Theorem mergeEnv_overrides base override key :
  Forall has_equals override →
  lookupEnv (mergeEnv base override) key =
    match exec_get override key with Some v => v | None => lookupEnv base key end ∧
  (distinct_keys base →
   exec_get (mergeEnv base override) key =
     match exec_get override key with Some v => Some v | None => exec_get base key end).
Proof.
  intros Ho. rewrite !lookupEnv_get, mergeEnv_get by done. split; [by destruct (exec_get override key)|].
  intros Hb. rewrite (exec_get_distinct (mergeEnv base override)), mergeEnv_get by (done || by apply mergeEnv_distinct).
  by rewrite (exec_get_distinct base).
Qed.

Lemma mergeEnv_overrides_witness :
  let base := ["PATH=/bin"; "A=1"] in
  let override := ["A=2"; "B="; "A=3=4"] in
  lookupEnv (mergeEnv base override) "A" =
    match exec_get override "A" with Some v => v | None => lookupEnv base "A" end ∧
  exec_get (mergeEnv base override) "A" = Some "3=4".
Proof.
  split; apply (mergeEnv_overrides ["PATH=/bin"; "A=1"] ["A=2"; "B="; "A=3=4"] "A").
  1, 2: by repeat (apply Forall_cons; split; [reflexivity|]).
  by apply (bool_decide_unpack _).
Defined.

(** If the image gives a variable twice, the override replaces its first entry
    and the process gets the second. *)
Lemma mergeEnv_duplicate :
  mergeEnv ["A=1"; "A=2"] ["A=3"] = ["A=3"; "A=2"] ∧
  exec_get (mergeEnv ["A=1"; "A=2"] ["A=3"]) "A" = Some "2".
Proof. vm_compute. split; reflexivity. Qed.

(** A command without a slash is found in the first directory of [PATH] that
    has an executable of this name, empty directories being skipped, and it is
    not found exactly if none has. *)
Theorem lookPath_first s root file pathEnv :
  strings_ContainsByte file slash = false →
  (∀ p, lookPath s root file pathEnv = Ok p ↔
    ∃ pre d post, strings_Split pathEnv colon = pre ++ d :: post ∧ d ≠ "" ∧
      p = path_Join [root; d; file] ∧ executable s p ∧
      Forall (λ e, e ≠ "" → ¬ executable s (path_Join [root; e; file])) pre) ∧
  (is_Ok (lookPath s root file pathEnv) = false ↔
    Forall (λ e, e ≠ "" → ¬ executable s (path_Join [root; e; file])) (strings_Split pathEnv colon)).
Proof.
  intros Hf. unfold lookPath. rewrite Hf. split; [intros p; apply search_path_Ok|].
  generalize (strings_Split pathEnv colon) as dirs.
  induction dirs as [|e dirs IH]; simpl; [by split|]. rewrite Forall_cons, <-IH. case_decide as He.
  { split; [intros; split; [done|done]|by intros [_ ?]]. }
  destruct (is_Ok (checkExecutable s _)) eqn:Hx.
  - split; [done|]. intros [Hno _]. exfalso. by apply Hno, checkExecutable_Ok.
  - split; [|by intros [_ ?]]. intros H. split; [|done]. intros _ Hx'%checkExecutable_Ok. congruence.
Qed.

Definition sample_root : fs := mkFs
  (list_to_map [([], 0%nat); (["bin"], 1%nat); (["bin"; "sh"], 2%nat); (["etc"], 3%nat); (["etc"; "passwd"], 4%nat)])
  (list_to_map [(0%nat, mkInode Dir o755 0 0 ∅ None); (1%nat, mkInode Dir o755 0 0 ∅ None);
    (2%nat, mkInode (File "#!") o755 0 0 ∅ None); (3%nat, mkInode Dir o755 0 0 ∅ None);
    (4%nat, mkInode (File (file_of_lines ["root:x:0:0:root:/root:/bin/sh"; "app:x:1000:1001::/:"])) o644 0 0 ∅ None)])
  0 (λ _ _, None) Amd64.

Lemma lookPath_first_witness :
  lookPath sample_root "/" "sh" "/usr/bin::/bin" = Ok "/bin/sh".
Proof.
  apply (proj2 (proj1 (lookPath_first sample_root "/" "sh" "/usr/bin::/bin" eq_refl) "/bin/sh")).
  exists ["/usr/bin"; ""], "/bin", []. split_and!; [reflexivity|done|reflexivity| |].
  - apply checkExecutable_Ok. vm_compute. reflexivity.
  - repeat constructor; intros _ H%checkExecutable_Ok; vm_compute in H; discriminate H.
Defined.

(** C36. A user is resolved through [/etc/passwd] as it is documented.  When the
    file holds well-formed entries, the first one of that name gives the ids, a
    number that is no user's name stands for itself with group 0, anything else is
    an error; and a numeric group after a colon replaces the group. *)
Theorem resolveUser_passwd s root name entries g :
  Forall plain_entry entries →
  open_file s (path_Join [root; "etc"; "passwd"]) = FileData (file_of_lines (passwd_render <$> entries)) false →
  name ≠ "" → lacks colon name → 0 ≤ g < 2 ^ 32 →
  let user := match find (λ e, bool_decide (pe_name e = name)) entries with
              | Some e => Ok (pe_uid e, pe_gid e)
              | None => match strconv_ParseUint name 10 32 with
                        | Ok n => Ok (n, 0)
                        | Err _ => Err (ErrUserNotFound name)
                        end
              end in
  resolveUser s root name = user ∧
  resolveUser s root (name +:+ ":" +:+ strconv_Itoa g) = (let? (uid, _) := user in Ok (uid, g)).
Proof.
  intros He Hf Hne Hc Hg. cbv zeta. unfold resolveUser.
  rewrite (decide_False (P := name = "")) by done.
  rewrite (decide_False (P := name +:+ _ = "")) by (by destruct name).
  rewrite Cut_lacks by done. change (":" +:+ ?t) with (String colon t). rewrite Cut_app by done.
  rewrite (lookupPasswd_entries s root name entries), ParseUint_Itoa by (done || lia). simpl.
  destruct (find _ entries) as [e|]; simpl; [done|]. by destruct (strconv_ParseUint name 10 32).
Qed.

Lemma resolveUser_passwd_witness :
  resolveUser sample_root "/" "app" = Ok (1000, 1001) ∧
  resolveUser sample_root "/" ("app" +:+ ":" +:+ strconv_Itoa 7) = Ok (1000, 7).
Proof.
  apply (resolveUser_passwd sample_root "/" "app"
    [mkPasswdEntry "root" "x" 0 0 "root:/root:/bin/sh"; mkPasswdEntry "app" "x" 1000 1001 ":/:"] 7).
  - repeat constructor; vm_compute; (done || congruence || (split; congruence)).
  - vm_compute. reflexivity.
  - done.
  - reflexivity.
  - lia.
Defined.

Lemma Resolve_executable s root rt spec :
  Resolve s root rt = Ok spec →
  executable s (sp_Path spec) ∧ sp_Argv spec = rt_Entrypoint rt ++ rt_Cmd rt ∧ sp_Dir spec ≠ "".
Proof.
  unfold Resolve. destruct (rt_Entrypoint rt ++ rt_Cmd rt) as [|a argv] eqn:Ea; [done|].
  intros ([uid gid] & Hu & H1)%res_bind_Ok. apply res_bind_Ok in H1 as (p & Hp & [= <-]).
  cbn [sp_Path sp_Argv sp_Dir]. split_and!; [by eapply lookPath_executable|done|by destruct (decide (rt_WorkingDir rt = ""))].
Qed.

(** What [Resolve] returns can be started: the path leads to an executable
    that is not a directory, the arguments are the entrypoint followed by the
    command and are not empty, there is a working directory, the environment is
    the image's, where [PATH] has a value unless it is set to the empty string,
    and the ids are 32-bit numbers. *)
Theorem Resolve_sound s root rt spec :
  Resolve s root rt = Ok spec →
  executable s (sp_Path spec) ∧
  sp_Argv spec = rt_Entrypoint rt ++ rt_Cmd rt ∧ sp_Argv spec ≠ [] ∧ sp_Dir spec ≠ "" ∧
  (env_get (rt_Env rt) "PATH" ≠ Some "" → lookupEnv (sp_Env spec) "PATH" ≠ "") ∧
  (∀ key, key ≠ "PATH" → lookupEnv (sp_Env spec) key = lookupEnv (rt_Env rt) key) ∧
  0 ≤ sp_UID spec < 2 ^ 32 ∧ 0 ≤ sp_GID spec < 2 ^ 32.
Proof.
  unfold Resolve. destruct (rt_Entrypoint rt ++ rt_Cmd rt) as [|a argv] eqn:Ea; [done|].
  intros ([uid gid] & Hu & H1)%res_bind_Ok. apply res_bind_Ok in H1 as (p & Hp & [= <-]).
  apply resolveUser_range in Hu. cbn [sp_Path sp_Argv sp_Dir sp_Env sp_UID sp_GID].
  split_and!; [by eapply lookPath_executable|done|done|by destruct (decide (rt_WorkingDir rt = ""))| | |apply Hu|apply Hu|apply Hu|apply Hu].
  - intros Hne. rewrite lookupEnv_get. clear Hp.
    destruct (decide (lookupEnv (rt_Env rt) "PATH" = "")) as [He|He]; rewrite lookupEnv_get in He.
    + rewrite env_get_app. destruct (env_get (rt_Env rt) "PATH") as [v|]; [by simpl in He; subst v|done].
    + done.
  - intros key Hk. clear Hp. destruct (decide (lookupEnv (rt_Env rt) "PATH" = "")); [|done]. rewrite !lookupEnv_get, env_get_app.
    destruct (env_get (rt_Env rt) key); [done|].
    rewrite env_get_single, decide_False; [done|]. intros [_ E]. by vm_compute in E.
Qed.

Lemma Resolve_sound_witness :
  let rt := mkRuntime ["sh"] ["-c"; "true"] ["A=1"] "" "app" in
  let spec := mkSpec "/bin/sh" ["sh"; "-c"; "true"] ["A=1"; "PATH=" +:+ defaultPath] "/" 1000 1001 [] in
  Resolve sample_root "/" rt = Ok spec ∧ executable sample_root (sp_Path spec).
Proof.
  split; [vm_compute; reflexivity|].
  apply (Resolve_sound sample_root "/" (mkRuntime ["sh"] ["-c"; "true"] ["A=1"] "" "app")
    (mkSpec "/bin/sh" ["sh"; "-c"; "true"] ["A=1"; "PATH=" +:+ defaultPath] "/" 1000 1001 [])).
  vm_compute. reflexivity.
Defined.

(** With [PATH] set to the empty string the default is appended, but the lookup
    still uses the first, empty, entry. *)
Lemma Resolve_empty_path :
  Resolve sample_root "/" (mkRuntime ["sh"] [] ["PATH="] "" "") = Err (ErrNotInPath "sh").
Proof. vm_compute. reflexivity. Qed.
