(* ===== verification/Network.v ===== *)
(** * Name servers: the pure parts of [internal/network/network.go]

    The order of the name servers and the [resolv.conf] made of them.  Here
    [Configure] is given what each interface's protocols answered, in the order
    they finished; NetLinks.v has where these answers come from. *)

From stdpp Require Import sorting.
From S2P Require Import Prelude GoStrings GoPath GoNet FS FSFacts.

(** The loop of [dedup]. *)
Fixpoint dedup_loop (ips : list IP) (seen : gset string) : list IP :=
  match ips with
  | [] => []
  | ip :: ips' =>
      if decide (IP_String ip ∈ seen) then dedup_loop ips' seen
      else ip :: dedup_loop ips' ({[IP_String ip]} ∪ seen)
  end.

Definition ip_le (a b : IP) : Prop := string_le (IP_String a) (IP_String b).
#[export] Instance ip_le_dec : RelDecision ip_le.
Proof. unfold RelDecision, ip_le. intros; apply _. Defined.

Definition dedup (ips : list IP) : list IP := merge_sort ip_le (dedup_loop ips ∅).

(** The contents [WriteResolvConf] builds. *)
Definition resolv_conf (nameservers : list IP) : string :=
  foldl (λ buf ns, buf +:+ "nameserver " +:+ IP_String ns +:+ String LF "")
    ("# written by peel" +:+ String LF "") nameservers.

Definition WriteResolvConf (root : string) (nameservers : list IP) : io errno unit :=
  match nameservers with
  | [] => io_ret tt
  | _ =>
      let p := path_Join [root; "etc"; "resolv.conf"] in
      os_MkdirAll (path_Dir p) o755 ;!
      os_WriteFile p (resolv_conf nameservers) o644
  end.

(** The end of [Configure]: [answers] are the name servers each interface
    yielded, in the order the goroutines appended them. *)
Definition Configure (root : string) (answers : list (list IP)) : io errno (list IP) :=
  let nameservers := dedup (concat answers) in
  io_try (F := errno) (WriteResolvConf root nameservers) ;! io_ret nameservers.

(** ** Facts *)

Lemma elem_of_dedup_loop ips seen x :
  x ∈ IP_String <$> dedup_loop ips seen ↔ x ∈ IP_String <$> ips ∧ x ∉ seen.
Proof.
  revert seen. induction ips as [|ip ips IH]; intros seen; simpl.
  { rewrite elem_of_nil. tauto. }
  case_decide as Hs.
  - rewrite IH, elem_of_cons. split; [tauto|]. intros [[->|?] ?]; [done|tauto].
  - rewrite fmap_cons, !elem_of_cons, IH, not_elem_of_union, not_elem_of_singleton.
    destruct (decide (x = IP_String ip)) as [->|]; tauto.
Qed.

Lemma NoDup_dedup_loop ips seen : NoDup (IP_String <$> dedup_loop ips seen).
Proof.
  revert seen. induction ips as [|ip ips IH]; intros seen; simpl; [constructor|].
  case_decide; [apply IH|]. rewrite fmap_cons. apply NoDup_cons. split; [|apply IH].
  rewrite elem_of_dedup_loop. intros [_ Hn]. apply Hn, elem_of_union. left. by apply elem_of_singleton.
Qed.

#[export] Instance ip_le_total : Total ip_le.
Proof. intros a b. apply string_le_total. Qed.

Lemma dedup_sorted ips : Sorted string_le (IP_String <$> dedup ips).
Proof.
  unfold dedup. pose proof (Sorted_merge_sort ip_le (dedup_loop ips ∅)) as H. revert H.
  generalize (merge_sort ip_le (dedup_loop ips ∅)) as l. induction 1 as [|a l Hl IH Hd]; [constructor|].
  rewrite fmap_cons. constructor; [done|]. destruct Hd; simpl; by constructor.
Qed.

Lemma elem_of_dedup ips x : x ∈ IP_String <$> dedup ips ↔ x ∈ IP_String <$> ips.
Proof. unfold dedup. rewrite merge_sort_Permutation, elem_of_dedup_loop. set_solver. Qed.

Lemma NoDup_dedup ips : NoDup (IP_String <$> dedup ips).
Proof. unfold dedup. rewrite merge_sort_Permutation. apply NoDup_dedup_loop. Qed.

(** The names depend on the set of addresses only. *)
Lemma dedup_set ips ips' :
  (∀ x, x ∈ IP_String <$> ips ↔ x ∈ IP_String <$> ips') → IP_String <$> dedup ips = IP_String <$> dedup ips'.
Proof.
  intros H. apply (Sorted_unique string_le); [apply dedup_sorted..|].
  apply NoDup_Permutation; [apply NoDup_dedup..|]. intros x. by rewrite !elem_of_dedup.
Qed.

Lemma resolv_conf_strings l l' : IP_String <$> l = IP_String <$> l' → resolv_conf l = resolv_conf l'.
Proof.
  unfold resolv_conf. generalize ("# written by peel" +:+ String LF "") as buf. revert l'.
  induction l as [|a l IH]; intros [|b l'] buf; try done. rewrite !fmap_cons. intros [= E1 E2].
  simpl. rewrite E1. by apply IH.
Qed.

(** ** Claims *)

(** The name servers are listed once each, sorted, and nothing else is; so
    [resolv.conf] does not depend on the order in which the interfaces and
    protocols, which are configured concurrently, answered. *)
Theorem resolv_conf_deterministic answers answers' :
  answers ≡ₚ answers' →
  resolv_conf (dedup (concat answers)) = resolv_conf (dedup (concat answers')) ∧
  Sorted string_le (IP_String <$> dedup (concat answers)) ∧ NoDup (IP_String <$> dedup (concat answers)) ∧
  ∀ x, x ∈ IP_String <$> dedup (concat answers) ↔ ∃ l ip, l ∈ answers ∧ ip ∈ l ∧ x = IP_String ip.
Proof.
  intros Hp.
  assert (∀ l x, x ∈ IP_String <$> concat l ↔ ∃ k ip, k ∈ l ∧ ip ∈ k ∧ x = IP_String ip) as Hel.
  { intros l x. rewrite list_elem_of_fmap. setoid_rewrite list_elem_of_In. setoid_rewrite in_concat.
    setoid_rewrite <-list_elem_of_In. naive_solver. }
  split_and!; [|apply dedup_sorted|apply NoDup_dedup|intros x; rewrite elem_of_dedup; apply Hel].
  apply resolv_conf_strings, dedup_set. intros x. rewrite !Hel. by setoid_rewrite Hp.
Qed.

Definition sample_answers : list (list IP) := [[[x0a; x00; x00; x01]; [x01; x01; x01; x01]]; [[x0a; x00; x00; x01]]].

Lemma resolv_conf_deterministic_witness :
  sample_answers ≡ₚ reverse sample_answers ∧
  resolv_conf (dedup (concat sample_answers)) = resolv_conf (dedup (concat (reverse sample_answers))) ∧
  IP_String <$> dedup (concat sample_answers) = ["1.1.1.1"; "10.0.0.1"].
Proof.
  split; [by rewrite reverse_Permutation|]. split; [|vm_compute; reflexivity].
  apply (resolv_conf_deterministic sample_answers (reverse sample_answers)). by rewrite reverse_Permutation.
Defined.
