(* ===== verification/Supervisor.v ===== *)
(** * PID 1: [internal/supervisor/supervisor.go]

    The loop of [Run] as a step relation, one step per signal it takes from
    its channel and per [wait4], interleaved with the processes of the
    container, which fork, exit, wait for their children and are re-parented
    to PID 1, and with the signals LXD sends.  Log lines are not modelled. *)

From S2P Require Import Prelude GoStrings.

Inductive signal := SIGCHLD | SIGINT | SIGTERM | SIGPWR | RTMIN3 | SIGKILL.
#[export] Instance signal_eq_dec : EqDecision signal.
Proof. solve_decision. Defined.
#[export] Instance signal_countable : Countable signal.
Proof.
  refine (inj_countable'
    (λ s, match s with SIGCHLD => 0 | SIGINT => 1 | SIGTERM => 2 | SIGPWR => 3 | RTMIN3 => 4 | SIGKILL => 5 end%nat)
    (λ n, match n with O => SIGCHLD | 1 => SIGINT | 2 => SIGTERM | 3 => SIGPWR | 4 => RTMIN3 | _ => SIGKILL end%nat) _).
  by intros [].
Defined.

Inductive reboot_cmd := CMD_RESTART | CMD_POWER_OFF.

(** [ShutdownGrace], in nanoseconds. *)
Definition ShutdownGrace : Z := 20 * 1000000000.

(** ** reapAll *)

(** What [wait4(-1, WNOHANG)] answers. *)
Inductive wait_result :=
  | WaitEINTR
  | WaitECHILD
  | WaitErr
  | WaitNone (* pid 0: there are children, none has exited *)
  | WaitPid (pid : positive).

(** One turn of the loop: go on, or return [sawMain, empty]. *)
Definition reap_turn (mainPID : positive) (sawMain : bool) (w : wait_result) : bool + bool * bool :=
  match w with
  | WaitEINTR => inl sawMain
  | WaitECHILD => inr (sawMain, true)
  | WaitErr => inr (sawMain, false)
  | WaitNone => inr (sawMain, false)
  | WaitPid pid => inl (sawMain || bool_decide (pid = mainPID))
  end.

(** ** Run *)

(** The variables of [Run]; [killed] lists the signals it sent to every process. *)
Record sup := mkSup {
  shuttingDown : bool;
  rebootCmd : reboot_cmd;
  killed : list signal;
}.

Definition sup_init : sup := mkSup false CMD_POWER_OFF [].

Definition beginShutdown (cmd : reboot_cmd) (s : sup) : sup :=
  if shuttingDown s then s else mkSup true cmd (killed s ++ [SIGTERM]).

(** Where the loop is: waiting for a signal, in the [reapAll] of the [SIGCHLD]
    case ([first]) or of the [if] after the switch, or past the loop. *)
Inductive pc :=
  | PWait
  | PReap (first : bool) (sawMain : bool)
  | PDone.
#[export] Instance pc_eq_dec : EqDecision pc.
Proof. solve_decision. Defined.

(** The [if shuttingDown] after the switch. *)
Definition after_switch (s : sup) : pc := if shuttingDown s then PReap false false else PWait.

(** Taking [sig] from the channel. *)
Definition take_signal (sig : signal) (s : sup) : pc * sup :=
  match sig with
  | SIGCHLD => (PReap true false, s)
  | SIGINT => let s' := beginShutdown CMD_RESTART s in (after_switch s', s')
  | SIGTERM | SIGPWR | RTMIN3 => let s' := beginShutdown CMD_POWER_OFF s in (after_switch s', s')
  | SIGKILL => (PWait, s) (* never delivered *)
  end.

(** [reapAll] returned [sawMain, empty]. *)
Definition reaped (first sawMain empty : bool) (s : sup) : pc * sup :=
  if first then
    let s' := if sawMain && negb (shuttingDown s) then beginShutdown CMD_POWER_OFF s else s in
    if shuttingDown s' && empty then (PDone, s') else (after_switch s', s')
  else if empty then (PDone, s) else (PWait, s).

(** ** The container *)

(** A process below PID 1. *)
Record proc := mkProc { p_parent : positive; p_zombie : bool }.

Definition init_pid : positive := 1%positive.
(** [make(chan os.Signal, 64)]. *)
Definition sigChanSize : nat := 64.

Record world := mkWorld {
  wd_procs : gmap positive proc;
  wd_pending : gset signal; (* raised, not yet passed on by the runtime *)
  wd_queue : list signal; (* sigCh *)
  wd_pc : pc;
  wd_sup : sup;
}.

(** [signal.Notify] does not block: a signal that finds the channel full is lost. *)
Definition notify (sig : signal) (q : list signal) : list signal :=
  if decide (length q < sigChanSize)%nat then q ++ [sig] else q.

Definition zombies_of (pid : positive) (ps : gmap positive proc) : gmap positive proc :=
  filter (λ kv, p_parent kv.2 = pid ∧ p_zombie kv.2 = true) ps.
Definition children_of (pid : positive) (ps : gmap positive proc) : gmap positive proc :=
  filter (λ kv, p_parent kv.2 = pid) ps.

(** The children of [pid] get PID 1 as their parent. *)
Definition reparent (pid : positive) (ps : gmap positive proc) : gmap positive proc :=
  (λ p, if decide (p_parent p = pid) then mkProc init_pid (p_zombie p) else p) <$> ps.

(** [pid], whose entry is [p], exits: it becomes a zombie and its children are
    re-parented. *)
Definition exit_procs (pid : positive) (p : proc) (ps : gmap positive proc) : gmap positive proc :=
  <[pid := mkProc (p_parent p) true]> (reparent pid ps).

(** PID 1 is told when a child of it becomes a zombie, or a zombie its child;
    raising a signal that is pending already changes nothing. *)
Definition exit_pending (pid : positive) (p : proc) (ps : gmap positive proc) (pend : gset signal) : gset signal :=
  if decide (p_parent p = init_pid ∨ zombies_of pid ps ≠ ∅) then {[SIGCHLD]} ∪ pend else pend.

(** Everything is killed: all that is left are zombies of PID 1. *)
Definition kill_all (ps : gmap positive proc) : gmap positive proc :=
  (λ _, mkProc init_pid true) <$> ps.

(** What the kernel may answer to PID 1's [wait4]. *)
Inductive wait4 (ps : gmap positive proc) : wait_result → gmap positive proc → Prop :=
  | wait4_eintr : wait4 ps WaitEINTR ps
  | wait4_echild : children_of init_pid ps = ∅ → wait4 ps WaitECHILD ps
  | wait4_none : children_of init_pid ps ≠ ∅ → zombies_of init_pid ps = ∅ → wait4 ps WaitNone ps
  | wait4_pid pid : is_Some (zombies_of init_pid ps !! pid) → wait4 ps (WaitPid pid) (delete pid ps).

Section Run.
Context (mainPID : positive).

(** [start] has made the entrypoint PID 1's only child. *)
Definition world_init : world :=
  mkWorld {[mainPID := mkProc init_pid false]} ∅ [] PWait sup_init.

Inductive step : world → world → Prop :=
  | step_take sig ps pe q s pc' s' :
      take_signal sig s = (pc', s') →
      step (mkWorld ps pe (sig :: q) PWait s) (mkWorld ps pe q pc' s')
  | step_reap_more first saw saw' w ps ps' pe q s :
      wait4 ps w ps' → reap_turn mainPID saw w = inl saw' →
      step (mkWorld ps pe q (PReap first saw) s) (mkWorld ps' pe q (PReap first saw') s)
  | step_reap_return first saw saw' empty w ps ps' pe q s pc' s' :
      wait4 ps w ps' → reap_turn mainPID saw w = inr (saw', empty) →
      reaped first saw' empty s = (pc', s') →
      step (mkWorld ps pe q (PReap first saw) s) (mkWorld ps' pe q pc' s')
  | step_fork pid p child ps pe q c s :
      ps !! pid = Some p → p_zombie p = false → ps !! child = None → child ≠ init_pid →
      step (mkWorld ps pe q c s) (mkWorld (<[child := mkProc pid false]> ps) pe q c s)
  | step_exit pid p ps pe q c s :
      ps !! pid = Some p → p_zombie p = false →
      step (mkWorld ps pe q c s) (mkWorld (exit_procs pid p ps) (exit_pending pid p ps pe) q c s)
  | step_wait pid p child ps pe q c s :
      ps !! pid = Some p → p_zombie p = false → is_Some (zombies_of pid ps !! child) →
      step (mkWorld ps pe q c s) (mkWorld (delete child ps) pe q c s)
  | step_raise sig ps pe q c s :
      sig ∈ [SIGCHLD; SIGINT; SIGTERM; SIGPWR; RTMIN3] →
      step (mkWorld ps pe q c s) (mkWorld ps ({[sig]} ∪ pe) q c s)
  | step_deliver sig ps pe q c s :
      sig ∈ pe →
      step (mkWorld ps pe q c s) (mkWorld ps (pe ∖ {[sig]}) (notify sig q) c s)
  | step_grace ps pe q c s :
      (* the goroutine of beginShutdown, ShutdownGrace after it *)
      shuttingDown s = true → SIGKILL ∉ killed s → c ≠ PDone →
      step (mkWorld ps pe q c s)
        (mkWorld (kill_all ps) (if decide (ps = ∅) then pe else {[SIGCHLD]} ∪ pe) q c
          (mkSup (shuttingDown s) (rebootCmd s) (killed s ++ [SIGKILL]))).

Definition reachable : world → Prop := rtc step world_init.

(** ** The invariant *)

(** Every process descends from PID 1: its parent is PID 1 or a live process
    of smaller rank. *)
Definition tree (ps : gmap positive proc) : Prop :=
  ps !! init_pid = None ∧
  ∃ rank : positive → nat, ∀ pid p, ps !! pid = Some p → p_parent p ≠ init_pid →
    (rank (p_parent p) < rank pid)%nat ∧ ∃ q, ps !! p_parent p = Some q ∧ p_zombie q = false.

Definition is_child (ps : gmap positive proc) (pid : positive) : Prop :=
  ∃ p, ps !! pid = Some p ∧ p_parent p = init_pid.
Definition is_zombie (ps : gmap positive proc) (pid : positive) : Prop :=
  ∃ p, ps !! pid = Some p ∧ p_parent p = init_pid ∧ p_zombie p = true.

Record inv (w : world) : Prop := {
  inv_tree : tree (wd_procs w);
  inv_signals : SIGKILL ∉ wd_queue w ∧ SIGKILL ∉ wd_pending w;
  inv_killed : killed (wd_sup w) = [] ∧ shuttingDown (wd_sup w) = false ∨
               shuttingDown (wd_sup w) = true ∧ (killed (wd_sup w) = [SIGTERM] ∨ killed (wd_sup w) = [SIGTERM; SIGKILL]);
  inv_dead : SIGKILL ∈ killed (wd_sup w) → ∀ pid, is_Some (wd_procs w !! pid) → is_zombie (wd_procs w) pid;
  inv_pc : match wd_pc w with
           | PWait =>
               (∃ pid, is_child (wd_procs w) pid) ∧
               (∀ pid, is_zombie (wd_procs w) pid → wd_queue w ≠ [] ∨ SIGCHLD ∈ wd_pending w) ∧
               (shuttingDown (wd_sup w) = false → is_child (wd_procs w) mainPID)
           | PReap first saw =>
               (shuttingDown (wd_sup w) = false → first = true ∧ (saw = true ∨ is_child (wd_procs w) mainPID))
           | PDone => wd_procs w = ∅ ∧ shuttingDown (wd_sup w) = true
           end;
}.

Lemma children_empty ps : children_of init_pid ps = ∅ ↔ ∀ pid, ¬ is_child ps pid.
Proof.
  unfold children_of, is_child. split.
  - intros E pid (p & Hp & Hpar). assert (children_of init_pid ps !! pid = Some p) as H.
    { by apply (map_lookup_filter_Some_2 (λ kv : positive * proc, p_parent kv.2 = init_pid)). }
    unfold children_of in H. by rewrite E in H.
  - intros H. apply map_empty. intros pid. apply map_lookup_filter_None_2.
    destruct (ps !! pid) as [p|] eqn:E; [|by left]. right. intros p' [= <-] Hp. apply (H pid). by exists p.
Qed.

Lemma zombies_lookup par ps pid p :
  zombies_of par ps !! pid = Some p ↔ ps !! pid = Some p ∧ p_parent p = par ∧ p_zombie p = true.
Proof. unfold zombies_of. by rewrite map_lookup_filter_Some. Qed.

Lemma zombies_empty ps : zombies_of init_pid ps = ∅ ↔ ∀ pid, ¬ is_zombie ps pid.
Proof.
  split.
  - intros E pid (p & H). apply zombies_lookup in H. by rewrite E in H.
  - intros H. apply map_empty. intros pid. apply eq_None_not_Some. intros [p Hp%zombies_lookup].
    apply (H pid). by exists p.
Qed.

(** A container without a child of PID 1 has no process. *)
Lemma tree_empty ps : tree ps → (∀ pid, ¬ is_child ps pid) → ps = ∅.
Proof.
  intros [Hi [rank Hrank]] Hno. apply map_empty. intros pid. apply eq_None_not_Some. intros [p Hp].
  remember (rank pid) as n eqn:En. revert pid p Hp En.
  induction n as [n IH] using lt_wf_ind. intros pid p Hp ->.
  destruct (decide (p_parent p = init_pid)) as [E|E].
  - apply (Hno pid). by exists p.
  - destruct (Hrank pid p Hp E) as [Hlt (q & Hq & _)]. by apply (IH _ Hlt (p_parent p) q Hq).
Qed.

(** *** What happens to the processes *)

Lemma exit_lookup pid p ps x r :
  ps !! pid = Some p →
  exit_procs pid p ps !! x = Some r →
  (x = pid ∧ r = mkProc (p_parent p) true) ∨
  (x ≠ pid ∧ ∃ r0, ps !! x = Some r0 ∧ p_zombie r = p_zombie r0 ∧
    (p_parent r0 = pid ∧ p_parent r = init_pid ∨ p_parent r0 ≠ pid ∧ p_parent r = p_parent r0)).
Proof.
  intros Hp H. unfold exit_procs in H. apply lookup_insert_Some in H as [[<- <-]|[Hne H]]; [by left|].
  right. split; [done|]. unfold reparent in H. apply lookup_fmap_Some in H as (r0 & <- & H).
  exists r0. split; [done|]. case_decide; simpl; auto.
Qed.

Lemma exit_child pid p ps x : ps !! pid = Some p → is_child ps x → is_child (exit_procs pid p ps) x.
Proof.
  intros Hp (r & Hr & Hpar). unfold is_child, exit_procs. destruct (decide (x = pid)) as [->|Hne].
  - rewrite lookup_insert_eq. eexists; split; [done|]. simpl. by rewrite Hp in Hr; simplify_eq.
  - rewrite lookup_insert_ne by done. unfold reparent. rewrite lookup_fmap, Hr. simpl.
    eexists; split; [done|]. by case_decide.
Qed.

Lemma exit_zombie pid p ps pe x :
  ps !! pid = Some p → is_zombie (exit_procs pid p ps) x →
  is_zombie ps x ∨ SIGCHLD ∈ exit_pending pid p ps pe.
Proof.
  intros Hp (r & Hr & Hpar & Hz). unfold exit_pending.
  destruct (exit_lookup _ _ _ _ _ Hp Hr) as [[-> ->]|(Hne & r0 & Hr0 & Hz0 & Hcase)].
  - simpl in Hpar. right. rewrite decide_True by (by left). set_solver.
  - destruct Hcase as [[Hc _]|[_ Hc]].
    + right. rewrite decide_True; [set_solver|]. right. intros E.
      assert (zombies_of pid ps !! x = Some r0) as H by (apply zombies_lookup; split_and!; [done|done|congruence]).
      by rewrite E in H.
    + left. exists r0. split_and!; [done|congruence|congruence].
Qed.

Lemma tree_exit pid p ps : tree ps → ps !! pid = Some p → tree (exit_procs pid p ps).
Proof.
  intros [Hi [rank Hrank]] Hp. split.
  { unfold exit_procs. rewrite lookup_insert_ne by congruence. unfold reparent. by rewrite lookup_fmap, Hi. }
  exists rank. intros x r Hr Hpar.
  destruct (exit_lookup _ _ _ _ _ Hp Hr) as [[-> ->]|(Hne & r0 & Hr0 & Hz0 & Hcase)]; simpl in *.
  - destruct (Hrank pid p Hp Hpar) as [Hlt (q & Hq & Hqz)]. split; [done|].
    assert (p_parent p ≠ pid) as Hpp by (intros E; rewrite E in Hlt; lia).
    unfold exit_procs. rewrite lookup_insert_ne by done. unfold reparent. rewrite lookup_fmap, Hq. simpl.
    eexists; split; [done|]. by case_decide.
  - destruct Hcase as [[_ Hc]|[Hnp Hc]]; [done|]. rewrite Hc in Hpar |- *.
    destruct (Hrank x r0 Hr0 Hpar) as [Hlt (q & Hq & Hqz)]. split; [done|].
    unfold exit_procs. rewrite lookup_insert_ne by done. unfold reparent. rewrite lookup_fmap, Hq. simpl.
    eexists; split; [done|]. by case_decide.
Qed.

Lemma tree_delete pid p ps : tree ps → ps !! pid = Some p → p_zombie p = true → tree (delete pid ps).
Proof.
  intros [Hi [rank Hrank]] Hp Hz. split; [by rewrite lookup_delete_None; right|].
  exists rank. intros x r Hr Hpar. apply lookup_delete_Some in Hr as [Hne Hr].
  destruct (Hrank x r Hr Hpar) as [Hlt (q & Hq & Hqz)]. split; [done|]. exists q. split; [|done].
  rewrite lookup_delete_ne; [done|]. intros ->. congruence.
Qed.

Lemma tree_fork pid p child ps :
  tree ps → ps !! pid = Some p → p_zombie p = false → ps !! child = None → child ≠ init_pid →
  tree (<[child := mkProc pid false]> ps).
Proof.
  intros [Hi [rank Hrank]] Hp Hz Hc Hci. split; [by rewrite lookup_insert_ne|].
  exists (λ x, if decide (x = child) then S (rank pid) else rank x). intros x r Hr Hpar.
  assert (pid ≠ child) as Hpc by congruence.
  apply lookup_insert_Some in Hr as [[<- <-]|[Hne Hr]]; simpl in *.
  - rewrite (decide_False (P := pid = child)), (decide_True (P := child = child)) by done.
    split; [lia|]. exists p. by rewrite lookup_insert_ne.
  - destruct (Hrank x r Hr Hpar) as [Hlt (q & Hq & Hqz)].
    assert (p_parent r ≠ child) by (intros E; congruence).
    rewrite !decide_False by done. split; [done|]. exists q. by rewrite lookup_insert_ne.
Qed.

Lemma tree_kill_all ps : tree ps → tree (kill_all ps).
Proof.
  intros [Hi _]. unfold kill_all. split; [by rewrite lookup_fmap, Hi|].
  exists (λ _, O). intros x r Hr. apply lookup_fmap_Some in Hr as (? & <- & _). done.
Qed.

Lemma kill_all_zombie ps x : is_Some (kill_all ps !! x) → is_zombie (kill_all ps) x.
Proof.
  unfold kill_all, is_zombie. rewrite lookup_fmap. intros [r Hr%fmap_Some].
  destruct Hr as (r0 & Hr0 & ->). rewrite Hr0. eexists. split_and!; done.
Qed.

Lemma zombie_child ps x : is_zombie ps x → is_child ps x.
Proof. intros (p & ? & ? & _). by exists p. Qed.

(** *** The steps *)

Lemma begin_killed cmd s :
  (killed s = [] ∧ shuttingDown s = false ∨
   shuttingDown s = true ∧ (killed s = [SIGTERM] ∨ killed s = [SIGTERM; SIGKILL])) →
  shuttingDown (beginShutdown cmd s) = true ∧
  (killed (beginShutdown cmd s) = [SIGTERM] ∨ killed (beginShutdown cmd s) = [SIGTERM; SIGKILL]) ∧
  (SIGKILL ∈ killed (beginShutdown cmd s) ↔ SIGKILL ∈ killed s).
Proof.
  unfold beginShutdown. intros [[Hk Hs]|[Hs Hk]]; rewrite Hs; simpl.
  - rewrite Hk. simpl. split_and!; [done|by left|]. rewrite elem_of_nil, list_elem_of_singleton. done.
  - done.
Qed.

Lemma notify_nonempty sig q : notify sig q ≠ [].
Proof.
  unfold notify. case_decide; [by destruct q|]. intros ->. unfold sigChanSize in *. simpl in *. lia.
Qed.

Lemma notify_elem sig sig' q : sig' ∈ notify sig q → sig' = sig ∨ sig' ∈ q.
Proof. unfold notify. case_decide; [|auto]. rewrite elem_of_app, list_elem_of_singleton. tauto. Qed.

Lemma inv_init : mainPID ≠ init_pid → inv world_init.
Proof.
  intros Hm. split; simpl.
  - split; [by rewrite lookup_singleton_ne|]. exists (λ _, O). intros x r Hr.
    apply lookup_singleton_Some in Hr as [<- <-]. done.
  - split; [apply not_elem_of_nil|set_solver].
  - by left.
  - by intros ?%not_elem_of_nil.
  - assert (is_child {[mainPID := mkProc init_pid false]} mainPID) as Hc.
    { eexists. by rewrite lookup_singleton_eq. }
    split_and!; [by exists mainPID| |done].
    intros x (r & Hr & _ & Hz). apply lookup_singleton_Some in Hr as [<- <-]. done.
Qed.

Lemma wait4_more ps r ps' saw saw' :
  wait4 ps r ps' → reap_turn mainPID saw r = inl saw' →
  (ps' = ps ∧ saw' = saw) ∨
  ∃ pid p, zombies_of init_pid ps !! pid = Some p ∧ ps' = delete pid ps ∧ saw' = saw || bool_decide (pid = mainPID).
Proof.
  destruct 1 as [| | |pid [p Hp]]; simpl; intros [= <-]; [by left|]. right. by exists pid, p.
Qed.

Lemma wait4_return ps r ps' saw saw' empty :
  wait4 ps r ps' → reap_turn mainPID saw r = inr (saw', empty) →
  ps' = ps ∧ saw' = saw ∧ zombies_of init_pid ps = ∅ ∧
  (empty = true ∧ children_of init_pid ps = ∅ ∨ empty = false ∧ ∃ pid, is_child ps pid).
Proof.
  destruct 1 as [|Hc|Hc Hz|]; simpl; intros [= <- <-]; split_and!; try done.
  - apply zombies_empty. intros pid Hz%zombie_child. rewrite children_empty in Hc. by apply (Hc pid).
  - by left.
  - right. split; [done|]. apply map_choose in Hc as (pid & p & Hp).
    apply map_lookup_filter_Some in Hp as [Hp Hpar]. by exists pid, p.
Qed.

(** Returning from [reapAll] with no zombie left. *)
Lemma inv_reaped ps pe q first saw empty s pc' s' :
  inv (mkWorld ps pe q (PReap first saw) s) → zombies_of init_pid ps = ∅ →
  (empty = true ∧ children_of init_pid ps = ∅ ∨ empty = false ∧ ∃ pid, is_child ps pid) →
  reaped first saw empty s = (pc', s') → inv (mkWorld ps pe q pc' s').
Proof.
  intros [Ht Hs Hk Hd Hp] Hz He Hr. simpl in *. rewrite zombies_empty in Hz.
  assert (empty = true → ps = ∅) as Hempty.
  { intros ->. destruct He as [[_ Hc]|[? _]]; [|done]. rewrite children_empty in Hc. by apply tree_empty. }
  assert (empty = true → ∀ x, ¬ is_child ps x) as Hnoc.
  { intros E x. rewrite (Hempty E). intros (? & Hx & _). by rewrite lookup_empty in Hx. }
  assert (empty = false → ∃ pid, is_child ps pid) as Hchild by (intros ->; destruct He as [[? _]|[_ ?]]; done).
  unfold reaped in Hr. destruct first.
  - set (s1 := if saw && negb (shuttingDown s) then beginShutdown CMD_POWER_OFF s else s) in *.
    assert ((killed s1 = [] ∧ shuttingDown s1 = false ∨
      shuttingDown s1 = true ∧ (killed s1 = [SIGTERM] ∨ killed s1 = [SIGTERM; SIGKILL])) ∧
      (SIGKILL ∈ killed s1 ↔ SIGKILL ∈ killed s) ∧ (shuttingDown s1 = false → saw = false ∧ shuttingDown s = false)) as (Hk1 & Hd1 & Hs1).
    { unfold s1. destruct (saw && negb (shuttingDown s)) eqn:Eb.
      - destruct (begin_killed CMD_POWER_OFF s Hk) as (H1 & H2 & H3). split_and!; [by right|apply H3|by rewrite H1].
      - split_and!; [exact Hk|done|]. intros Hsd. rewrite Hsd in Eb. by destruct saw. }
    destruct (shuttingDown s1) eqn:E1; simpl in Hr.
    + destruct empty; injection Hr as <- <-.
      * split; simpl; [done|done|by rewrite E1|by rewrite Hd1; apply Hd|]. split; [by apply Hempty|done].
      * unfold after_switch. rewrite E1. split; simpl; [done|done|by rewrite E1|by rewrite Hd1; apply Hd|]. by rewrite E1.
    + injection Hr as <- <-. destruct (Hs1 eq_refl) as [-> Hsd].
      destruct (Hp Hsd) as [_ [?|Hm]]; [done|]. unfold after_switch. rewrite E1.
      destruct empty; [exfalso; by apply (Hnoc eq_refl mainPID)|].
      split; simpl; [done|done|by rewrite E1|by rewrite Hd1; apply Hd|]. split_and!; [by apply Hchild| |done].
      intros x Hx. by apply Hz in Hx.
  - assert (shuttingDown s = true) as Hsd.
    { destruct (shuttingDown s); [done|]. by destruct (Hp eq_refl). }
    destruct empty; injection Hr as <- <-; (split; simpl; [done..|]).
    + split; [by apply Hempty|done].
    + split_and!; [by apply Hchild| |by rewrite Hsd]. intros x Hx. by apply Hz in Hx.
Qed.

Lemma inv_take ps pe q sig s pc' s' :
  inv (mkWorld ps pe (sig :: q) PWait s) → take_signal sig s = (pc', s') → inv (mkWorld ps pe q pc' s').
Proof.
  intros [Ht [Hs1 Hs2] Hk Hd (Hc & Hz & Hm)] Hr. simpl in *.
  apply not_elem_of_cons in Hs1 as [Hsig Hs1].
  assert (∀ cmd, inv (mkWorld ps pe q (after_switch (beginShutdown cmd s)) (beginShutdown cmd s))) as Hb.
  { intros cmd. destruct (begin_killed cmd s Hk) as (H1 & H2 & H3).
    unfold after_switch. rewrite H1. split; simpl; [done|done|by right|by rewrite H3|by rewrite H1]. }
  destruct sig; simpl in Hr; injection Hr as <- <-; try apply Hb; [|done].
  split; simpl; [done..|]. intros Hsd. split; [done|]. right. by apply Hm.
Qed.

Lemma inv_deliver ps pe q c s sig :
  sig ∈ pe → inv (mkWorld ps pe q c s) → inv (mkWorld ps (pe ∖ {[sig]}) (notify sig q) c s).
Proof.
  intros Hsig [Ht [Hs1 Hs2] Hk Hd Hp]. simpl in *. split; simpl; [done| |done|done|].
  - split; [|set_solver]. intros [E|?]%notify_elem; [by subst sig|done].
  - destruct c; [|done|done]. destruct Hp as (Hc & Hz & Hm). split_and!; [done| |done].
    intros x Hx. left. apply notify_nonempty.
Qed.

(** A step of the other processes that keeps PID 1's children and tells it of
    its new zombies. *)
Lemma inv_procs ps ps' pe pe' q c s :
  inv (mkWorld ps pe q c s) → tree ps' → SIGKILL ∉ pe' →
  (∀ x, is_child ps x → is_child ps' x) →
  (∀ x, is_zombie ps' x → is_zombie ps x ∨ SIGCHLD ∈ pe') → (SIGCHLD ∈ pe → SIGCHLD ∈ pe') →
  (ps = ∅ → ps' = ∅) →
  (SIGKILL ∈ killed s → ∀ x, is_Some (ps' !! x) → is_zombie ps' x) →
  inv (mkWorld ps' pe' q c s).
Proof.
  intros [Ht [Hs1 Hs2] Hk Hd Hp] Ht' Hs' Hc Hz Hpe He Hd'. simpl in *. split; simpl; [done..|].
  destruct c as [|first saw|].
  - destruct Hp as ([y Hy] & Hz' & Hm). split_and!; [exists y; by apply Hc| |by intros ?; apply Hc, Hm].
    intros x [Hx|?]%Hz; [|by right]. apply Hz' in Hx as [?|?]; [by left|right; by apply Hpe].
  - intros Hsd. destruct (Hp Hsd) as [? [?|Hm]]; (split; [done|]); [by left|right; by apply Hc].
  - destruct Hp as [Hps ?]. split; [by apply He|done].
Qed.

(** A turn of the reaping loop that finds a zombie. *)
Lemma inv_more first saw saw' r ps ps' pe q s :
  wait4 ps r ps' → reap_turn mainPID saw r = inl saw' →
  inv (mkWorld ps pe q (PReap first saw) s) → inv (mkWorld ps' pe q (PReap first saw') s).
Proof.
  intros Hw Hr Hinv. destruct (wait4_more _ _ _ _ _ Hw Hr) as [[-> ->]|(pid & p & Hzp & -> & ->)]; [done|].
  apply zombies_lookup in Hzp as (Hp & Hpar & Hz). destruct Hinv as [Ht Hs Hk Hd Hpc]. simpl in *.
  split; simpl; [by eapply tree_delete|done|done| |].
  - intros Hkill x [r' Hr']. apply lookup_delete_Some in Hr' as [Hne Hr'].
    destruct (Hd Hkill x) as (z & Hz1 & Hz2); [by exists r'|]. exists z. by rewrite lookup_delete_ne.
  - intros Hsd. destruct (Hpc Hsd) as [-> [->|Hm]]; (split; [done|]); [by left|].
    destruct (decide (pid = mainPID)) as [->|Hne].
    + left. rewrite bool_decide_eq_true_2 by done. apply orb_true_r.
    + right. destruct Hm as (m & Hm & Hmp). exists m. by rewrite lookup_delete_ne.
Qed.

(** After SIGKILL nothing lives: a live process says it was not sent. *)
Lemma inv_alive ps pe q c s pid p :
  inv (mkWorld ps pe q c s) → ps !! pid = Some p → p_zombie p = false → SIGKILL ∉ killed s.
Proof. intros [_ _ _ Hd _] Hp Hz Hkill. simpl in Hd. destruct (Hd Hkill pid) as (r & Hr & _ & Hzr); [by exists p|]. congruence. Qed.

Lemma inv_fork ps pe q c s pid p child :
  ps !! pid = Some p → p_zombie p = false → ps !! child = None → child ≠ init_pid →
  inv (mkWorld ps pe q c s) → inv (mkWorld (<[child := mkProc pid false]> ps) pe q c s).
Proof.
  intros Hp Hz Hc Hci Hinv. pose proof Hinv as [Ht [Hs1 Hs2] _ _ _]. simpl in *. eapply inv_procs; [done|by eapply tree_fork|done| | |done| |].
  - intros x (r & Hr & Hpar). exists r. rewrite lookup_insert_ne; [done|congruence].
  - intros x (r & Hr & Hpar & Hzr). left. apply lookup_insert_Some in Hr as [[_ <-]|[_ Hr]]; [done|]. by exists r.
  - intros ->. by rewrite lookup_empty in Hp.
  - intros Hkill. by destruct (inv_alive _ _ _ _ _ _ _ Hinv Hp Hz).
Qed.

Lemma inv_exit ps pe q c s pid p :
  ps !! pid = Some p → p_zombie p = false →
  inv (mkWorld ps pe q c s) → inv (mkWorld (exit_procs pid p ps) (exit_pending pid p ps pe) q c s).
Proof.
  intros Hp Hz Hinv. pose proof Hinv as [Ht [Hs1 Hs2] _ _ _]. simpl in *. eapply inv_procs; [done|by apply tree_exit| | | | | |].
  - unfold exit_pending. case_decide; set_solver.
  - intros x. by apply exit_child.
  - intros x. by apply exit_zombie.
  - unfold exit_pending. case_decide; set_solver.
  - intros ->. by rewrite lookup_empty in Hp.
  - intros Hkill. by destruct (inv_alive _ _ _ _ _ _ _ Hinv Hp Hz).
Qed.

Lemma inv_wait ps pe q c s pid p child :
  ps !! pid = Some p → p_zombie p = false → is_Some (zombies_of pid ps !! child) →
  inv (mkWorld ps pe q c s) → inv (mkWorld (delete child ps) pe q c s).
Proof.
  intros Hp Hz [z Hzc] Hinv. pose proof Hinv as [Ht [Hs1 Hs2] _ _ _]. simpl in *. apply zombies_lookup in Hzc as (Hc & Hpar & Hzz).
  eapply inv_procs; [done|by eapply tree_delete|done| | |done| |].
  - intros x (r & Hr & Hrp). exists r. rewrite lookup_delete_ne; [done|]. intros ->.
    rewrite Hc in Hr. simplify_eq. destruct Ht as [Hi _]. congruence.
  - intros x (r & Hr & H). left. apply lookup_delete_Some in Hr as [_ Hr]. by exists r.
  - intros ->. by rewrite lookup_empty in Hp.
  - intros Hkill. by destruct (inv_alive _ _ _ _ _ _ _ Hinv Hp Hz).
Qed.

Lemma inv_raise ps pe q c s sig :
  sig ∈ [SIGCHLD; SIGINT; SIGTERM; SIGPWR; RTMIN3] → inv (mkWorld ps pe q c s) → inv (mkWorld ps ({[sig]} ∪ pe) q c s).
Proof.
  intros Hsig Hinv. pose proof Hinv as [Ht [Hs1 Hs2] Hk Hd _]. simpl in *.
  eapply inv_procs; [done|done| |done|by left|set_solver|done|done].
  intros [H%elem_of_singleton|?]%elem_of_union; [|done]. subst sig. repeat (apply elem_of_cons in Hsig as [?|Hsig]; [done|]).
  by apply not_elem_of_nil in Hsig.
Qed.

(** The grace period ends. *)
Lemma inv_grace ps pe q c s :
  shuttingDown s = true → SIGKILL ∉ killed s → c ≠ PDone → inv (mkWorld ps pe q c s) →
  inv (mkWorld (kill_all ps) (if decide (ps = ∅) then pe else {[SIGCHLD]} ∪ pe) q c
    (mkSup (shuttingDown s) (rebootCmd s) (killed s ++ [SIGKILL]))).
Proof.
  intros Hsd Hk Hpc [Ht [Hs1 Hs2] Hkl Hd Hp]. simpl in *.
  assert (killed s = [SIGTERM]) as Ek.
  { destruct Hkl as [[_ ?]|[_ [?|Ek]]]; [congruence|done|]. exfalso. apply Hk. rewrite Ek. right. by left. }
  split; simpl; [by apply tree_kill_all| |by rewrite Ek; right; split; [|right]| |].
  - split; [done|]. case_decide; set_solver.
  - intros _ x. apply kill_all_zombie.
  - destruct c; [|by rewrite Hsd|done]. destruct Hp as ([y (r & Hr & Hy)] & Hz & Hm).
    split_and!; [exists y; apply zombie_child, kill_all_zombie; unfold kill_all; rewrite lookup_fmap, Hr; eauto| |by rewrite Hsd].
    intros x _. right. rewrite decide_False; [set_solver|]. intros ->. by rewrite lookup_empty in Hr.
Qed.

Lemma sup_step_inv w w' : step w w' → inv w → inv w'.
Proof.
  destruct 1 as [| |first saw saw' empty r ps ps' pe q s pc' s' Hw Hr Hre| | | | | |].
  - intros Hinv. by eapply inv_take.
  - by eapply inv_more.
  - intros Hinv. destruct (wait4_return _ _ _ _ _ _ Hw Hr) as (-> & -> & Hz & He). by eapply inv_reaped.
  - by eapply inv_fork.
  - by apply inv_exit.
  - by eapply inv_wait.
  - by apply inv_raise.
  - by apply inv_deliver.
  - by apply inv_grace.
Qed.

Lemma sup_reachable_inv w : mainPID ≠ init_pid → reachable w → inv w.
Proof.
  intros Hm Hr. apply (rtc_invariant step inv _ _ (λ x y H, sup_step_inv x y H) Hr). by apply inv_init.
Qed.

(** *** Shutting down *)

Lemma begin_shutting cmd s : shuttingDown s = true → beginShutdown cmd s = s.
Proof. unfold beginShutdown. by intros ->. Qed.

Lemma step_latched w w' :
  step w w' → shuttingDown (wd_sup w) = true →
  shuttingDown (wd_sup w') = true ∧ rebootCmd (wd_sup w') = rebootCmd (wd_sup w).
Proof.
  destruct 1 as [sig ps pe q s pc' s' Ht| |first saw saw' empty r ps ps' pe q s pc' s' Hw Hr Hre| | | | | |]; simpl; intros Hsd; try done.
  - destruct sig; simpl in Ht; rewrite ?begin_shutting in Ht by done; by injection Ht as <- <-.
  - unfold reaped in Hre. rewrite Hsd, andb_false_r, Hsd in Hre. by destruct first, empty; injection Hre as <- <-.
Qed.

Lemma steps_latched w w' :
  rtc step w w' → shuttingDown (wd_sup w) = true →
  shuttingDown (wd_sup w') = true ∧ rebootCmd (wd_sup w') = rebootCmd (wd_sup w).
Proof.
  induction 1 as [|w1 w2 w3 Hs _ IH]; [done|]. intros Hsd.
  destruct (step_latched _ _ Hs Hsd) as [Hsd2 E]. destruct (IH Hsd2) as [? E']. by rewrite E', E.
Qed.

(** Once everything was killed, PID 1 reaps it all and leaves the loop. *)
Lemma reap_finishes ps pe q first saw s :
  inv (mkWorld ps pe q (PReap first saw) s) → SIGKILL ∈ killed s → shuttingDown s = true →
  ∃ w', rtc step (mkWorld ps pe q (PReap first saw) s) w' ∧ wd_pc w' = PDone.
Proof.
  remember (size ps) as n eqn:En. revert ps saw En. induction n as [n IH] using lt_wf_ind.
  intros ps saw -> Hinv Hk Hsd. pose proof (inv_dead _ Hinv Hk) as Hd. simpl in Hd.
  destruct (decide (ps = ∅)) as [->|Hne].
  - exists (mkWorld ∅ pe q PDone s). split; [|done]. apply rtc_once.
    apply (step_reap_return first saw saw true WaitECHILD _ ∅ _ _ _ PDone s); [|done|].
    + constructor. apply children_empty. intros x (? & Hx & _). by rewrite lookup_empty in Hx.
    + unfold reaped. rewrite Hsd, andb_false_r, Hsd. by destruct first.
  - apply map_choose in Hne as (pid & p & Hp).
    destruct (Hd pid) as (z & Hz & Hpar & Hzz); [by exists p|]. rewrite Hp in Hz. injection Hz as <-.
    assert (step (mkWorld ps pe q (PReap first saw) s)
      (mkWorld (delete pid ps) pe q (PReap first (saw || bool_decide (pid = mainPID))) s)) as Hstep.
    { apply (step_reap_more first saw _ (WaitPid pid)); [|done]. constructor. exists p. by apply zombies_lookup. }
    destruct (IH (size (delete pid ps))) with (ps := delete pid ps) (saw := saw || bool_decide (pid = mainPID)) as (w' & Hrun & Hpc).
    + rewrite map_size_delete_Some by (by eexists). apply Nat.lt_pred_l.
      intros E%map_size_empty_inv. by rewrite E in Hp.
    + done.
    + by eapply sup_step_inv.
    + done.
    + done.
    + exists w'. split; [by eapply rtc_l|done].
Qed.

Lemma kill_finishes w :
  inv w → SIGKILL ∈ killed (wd_sup w) → shuttingDown (wd_sup w) = true →
  ∃ w', rtc step w w' ∧ wd_pc w' = PDone.
Proof.
  intros Hinv Hk Hsd. destruct w as [ps pe q c s]. simpl in *. destruct c as [|first saw|].
  2:{ by apply reap_finishes. }
  2:{ by exists (mkWorld ps pe q PDone s). }
  assert (∀ sig q pe, inv (mkWorld ps pe (sig :: q) PWait s) →
    ∃ w', rtc step (mkWorld ps pe (sig :: q) PWait s) w' ∧ wd_pc w' = PDone) as Htake.
  { intros sig q' pe' Hinv'. assert (∃ first, take_signal sig s = (PReap first false, s)) as [first Ht].
    { pose proof (inv_signals _ Hinv') as [Hs _]. simpl in Hs. apply not_elem_of_cons in Hs as [Hs _].
      destruct sig; simpl; rewrite ?begin_shutting, ?Hsd by done; unfold after_switch; rewrite ?Hsd; eauto. by destruct Hs. }
    assert (step (mkWorld ps pe' (sig :: q') PWait s) (mkWorld ps pe' q' (PReap first false) s)) as Hstep by (by constructor).
    destruct (reap_finishes ps pe' q' first false s) as (w' & Hrun & Hpc); [by eapply sup_step_inv|done|done|].
    exists w'. split; [by eapply rtc_l|done]. }
  destruct q as [|sig q]; [|by apply Htake].
  pose proof Hinv as [_ _ _ Hd ([x Hx] & Hz & _)]. simpl in *.
  destruct (Hz x) as [?|Hch]; [|done|].
  { apply Hd; [done|]. destruct Hx as (r & Hr & _). eauto. }
  assert (step (mkWorld ps pe [] PWait s) (mkWorld ps (pe ∖ {[SIGCHLD]}) [SIGCHLD] PWait s)) as Hstep
    by (by apply (step_deliver SIGCHLD)).
  destruct (Htake SIGCHLD [] (pe ∖ {[SIGCHLD]})) as (w' & Hrun & Hpc); [by eapply sup_step_inv|].
  exists w'. split; [by eapply rtc_l|done].
Qed.

(** Every signal that can be in the channel makes PID 1 reap. *)
Lemma take_reaps sig s : sig ≠ SIGKILL → ∃ first s', take_signal sig s = (PReap first false, s').
Proof.
  intros Hs. assert (∀ cmd, after_switch (beginShutdown cmd s) = PReap false false) as Ha.
  { intros cmd. unfold after_switch, beginShutdown. by destruct (shuttingDown s) eqn:E; rewrite ?E. }
  destruct sig; simpl; rewrite ?Ha; eauto. done.
Qed.

Lemma wakes_and_reaps ps pe q s pid :
  inv (mkWorld ps pe q PWait s) → is_zombie ps pid →
  ∃ w', rtc step (mkWorld ps pe q PWait s) w' ∧ wd_procs w' !! pid = None.
Proof.
  intros Hinv Hz. assert (∀ pe' sig q', sig ≠ SIGKILL →
    ∃ w', rtc step (mkWorld ps pe' (sig :: q') PWait s) w' ∧ wd_procs w' !! pid = None) as Htake.
  { intros pe' sig q' Hs. destruct (take_reaps sig s Hs) as (first & s' & Ht). destruct Hz as (p & Hp & Hpar & Hzz).
    eexists. split; [eapply rtc_l; [by apply step_take|]; apply rtc_once|].
    - apply (step_reap_more first false (bool_decide (pid = mainPID)) (WaitPid pid) ps (delete pid ps)); [|done].
      constructor. exists p. by apply zombies_lookup.
    - apply lookup_delete_eq. }
  destruct Hinv as [_ [Hs1 Hs2] _ _ (_ & Hzs & _)]. simpl in *. destruct q as [|sig q].
  - destruct (Hzs pid Hz) as [?|Hch]; [done|]. destruct (Htake (pe ∖ {[SIGCHLD]}) SIGCHLD []) as (w' & Hrun & Hw); [done|].
    exists w'. split; [|done]. eapply rtc_l; [by apply (step_deliver SIGCHLD)|exact Hrun].
  - apply Htake. intros ->. apply Hs1. by left.
Qed.

Lemma can_grace w :
  shuttingDown (wd_sup w) = true → SIGKILL ∉ killed (wd_sup w) → wd_pc w ≠ PDone →
  ∃ w', step w w' ∧ SIGKILL ∈ killed (wd_sup w').
Proof.
  destruct w as [ps pe q c s]. simpl. intros Hsd Hk Hpc. eexists. split; [by apply step_grace|].
  simpl. apply elem_of_app. right. by left.
Qed.
End Run.

(** ** Claims *)

(** C32. [reboot(2)] is only called when the whole process tree is empty and a
    shutdown was begun, with exactly one [SIGTERM] to all processes sent, and
    at most one [SIGKILL], after it. *)
Theorem reboot_when_empty mainPID w :
  mainPID ≠ init_pid → reachable mainPID w → wd_pc w = PDone →
  wd_procs w = ∅ ∧ shuttingDown (wd_sup w) = true ∧
  (killed (wd_sup w) = [SIGTERM] ∨ killed (wd_sup w) = [SIGTERM; SIGKILL]).
Proof.
  intros Hm Hr Hpc. destruct (sup_reachable_inv mainPID w Hm Hr) as [_ _ Hk _ Hp]. rewrite Hpc in Hp.
  destruct Hp as [? Hsd]. destruct Hk as [[_ ?]|[_ ?]]; [congruence|]. done.
Qed.

(** A run: the entrypoint, pid 2, exits, and PID 1 shuts down. *)
Definition sample_done : world := mkWorld ∅ ∅ [] PDone (mkSup true CMD_POWER_OFF [SIGTERM]).
Lemma sample_done_reachable : reachable 2 sample_done.
Proof.
  unfold reachable, world_init. eapply rtc_l.
  { eapply (step_exit _ 2%positive); [apply lookup_singleton_eq|done]. }
  assert (exit_procs 2 (mkProc init_pid false) {[2%positive := mkProc init_pid false]} = {[2%positive := mkProc init_pid true]}) as ->
    by (vm_compute; reflexivity).
  assert (exit_pending 2 (mkProc init_pid false) {[2%positive := mkProc init_pid false]} ∅ = {[SIGCHLD]}) as ->
    by (unfold exit_pending; rewrite decide_True by (by left); set_solver).
  eapply rtc_l; [apply (step_deliver _ SIGCHLD); set_solver|].
  assert ({[SIGCHLD]} ∖ {[SIGCHLD]} = (∅ : gset signal)) as -> by set_solver.
  eapply rtc_l; [by apply step_take|].
  eapply rtc_l; [apply (step_reap_more _ true false true (WaitPid 2)); [|done]|].
  { constructor. eexists. apply zombies_lookup. split; [apply lookup_singleton_eq|done]. }
  rewrite delete_singleton_eq.
  eapply rtc_l; [|reflexivity].
  apply (step_reap_return _ true true true true WaitECHILD ∅ ∅); [by constructor|done|done].
Qed.

Lemma reboot_when_empty_witness :
  wd_procs sample_done = ∅ ∧ shuttingDown (wd_sup sample_done) = true ∧
  (killed (wd_sup sample_done) = [SIGTERM] ∨ killed (wd_sup sample_done) = [SIGTERM; SIGKILL]).
Proof. apply (reboot_when_empty 2 sample_done); [done|apply sample_done_reachable|reflexivity]. Defined.

(** C33. No exited child is forgotten, although signals coalesce and are lost when
    the channel is full.  While PID 1 waits for a signal: if it has an exited
    child, there is a signal in its channel or a [SIGCHLD] pending; whatever
    signal it takes from the channel, a shutdown signal too, makes it reap next;
    so the child can always be reaped by steps of PID 1 and the runtime.  And as
    long as no shutdown was begun, the entrypoint is a child of PID 1, alive unless
    there is such a signal. *)
Theorem no_zombie_forgotten mainPID w :
  mainPID ≠ init_pid → reachable mainPID w → wd_pc w = PWait →
  (∀ pid, is_zombie (wd_procs w) pid →
    (wd_queue w ≠ [] ∨ SIGCHLD ∈ wd_pending w) ∧ ∃ w', rtc (step mainPID) w w' ∧ wd_procs w' !! pid = None) ∧
  (∀ sig, sig ∈ wd_queue w → ∃ first s', take_signal sig (wd_sup w) = (PReap first false, s')) ∧
  (shuttingDown (wd_sup w) = false → ∃ p, wd_procs w !! mainPID = Some p ∧ p_parent p = init_pid ∧
    (wd_queue w = [] → SIGCHLD ∉ wd_pending w → p_zombie p = false)).
Proof.
  intros Hm Hr Hpc. pose proof (sup_reachable_inv mainPID w Hm Hr) as Hinv. destruct w as [ps pe q c s]. cbn in Hpc. subst c.
  pose proof Hinv as [_ [Hs1 _] _ _ (_ & Hz & Hmain)]. simpl in *. split_and!.
  - intros pid Hp. split; [by apply Hz with pid|by eapply wakes_and_reaps].
  - intros sig Hsig. apply take_reaps. by intros ->.
  - intros Hsd. destruct (Hmain Hsd) as (p & Hp & Hpar). exists p. split_and!; [done|done|]. intros Hq Hpe.
    destruct (p_zombie p) eqn:E; [|done]. by destruct (Hz mainPID) as [?|?]; [exists p| |].
Qed.

(** The entrypoint, pid 2, has exited and its [SIGCHLD] is pending. *)
Definition sample_exited : world := mkWorld {[2%positive := mkProc init_pid true]} {[SIGCHLD]} [] PWait sup_init.
Lemma sample_exited_reachable : reachable 2 sample_exited.
Proof.
  apply rtc_once. unfold world_init, sample_exited.
  assert ({[2%positive := mkProc init_pid true]} = exit_procs 2 (mkProc init_pid false) {[2%positive := mkProc init_pid false]}) as ->
    by (vm_compute; reflexivity).
  assert ({[SIGCHLD]} = exit_pending 2 (mkProc init_pid false) {[2%positive := mkProc init_pid false]} ∅) as ->
    by (unfold exit_pending; rewrite decide_True by (by left); set_solver).
  eapply (step_exit _ 2%positive); [apply lookup_singleton_eq|done].
Qed.

Lemma no_zombie_forgotten_witness :
  is_zombie (wd_procs sample_exited) 2 ∧ ∃ w', rtc (step 2) sample_exited w' ∧ wd_procs w' !! 2%positive = None.
Proof.
  assert (is_zombie (wd_procs sample_exited) 2) as Hz by (exists (mkProc init_pid true); split; [apply lookup_singleton_eq|split; reflexivity]).
  split; [exact Hz|]. destruct (no_zombie_forgotten 2 sample_exited) as (H & _); [done|apply sample_exited_reachable|reflexivity|].
  exact (proj2 (H 2%positive Hz)).
Defined.

(** C31. A shutdown once begun always can be completed, whatever the processes
    do: the loop can be left with every process gone, and it is the first
    cause of the shutdown that decides between reboot and power-off. *)
Theorem shutdown_completes mainPID w :
  mainPID ≠ init_pid → reachable mainPID w → shuttingDown (wd_sup w) = true →
  (∀ w', rtc (step mainPID) w w' → rebootCmd (wd_sup w') = rebootCmd (wd_sup w)) ∧
  ∃ w', rtc (step mainPID) w w' ∧ wd_pc w' = PDone ∧ wd_procs w' = ∅ ∧ rebootCmd (wd_sup w') = rebootCmd (wd_sup w).
Proof.
  intros Hm Hr Hsd. pose proof (sup_reachable_inv mainPID w Hm Hr) as Hinv.
  assert (∀ w', rtc (step mainPID) w w' → rebootCmd (wd_sup w') = rebootCmd (wd_sup w)) as Hcmd
    by (intros w' H; by apply (steps_latched mainPID w w' H)).
  split; [done|].
  assert (∃ w', rtc (step mainPID) w w' ∧ wd_pc w' = PDone) as (w' & Hrun & Hpc).
  { destruct (decide (SIGKILL ∈ killed (wd_sup w))) as [Hk|Hk]; [by apply kill_finishes|].
    destruct (decide (wd_pc w = PDone)) as [Epc|Epc]; [by exists w|].
    destruct (can_grace mainPID w Hsd Hk Epc) as (w1 & Hstep & Hk1).
    destruct (kill_finishes mainPID w1) as (w' & Hrun & Hpc); [by eapply sup_step_inv|done| |].
    - by apply (step_latched mainPID w w1 Hstep).
    - exists w'. split; [by eapply rtc_l|done]. }
  exists w'. split_and!; [done|done| |by apply Hcmd].
  assert (inv mainPID w') as [_ _ _ _ Hp].
  { apply (rtc_invariant (step mainPID) (inv mainPID) w w' (λ x y H, sup_step_inv mainPID x y H) Hrun Hinv). }
  rewrite Hpc in Hp. by destruct Hp.
Qed.

(** LXD asks for a reboot. *)
Definition sample_shutting : world :=
  mkWorld {[2%positive := mkProc init_pid false]} ∅ [] (PReap false false) (mkSup true CMD_RESTART [SIGTERM]).
Lemma sample_shutting_reachable : reachable 2 sample_shutting.
Proof.
  eapply rtc_l; [apply (step_raise _ SIGINT); set_solver|].
  eapply rtc_l; [apply (step_deliver _ SIGINT); set_solver|].
  assert (({[SIGINT]} ∪ ∅) ∖ {[SIGINT]} = (∅ : gset signal)) as -> by set_solver.
  apply rtc_once. by apply step_take.
Qed.

Lemma shutdown_completes_witness :
  ∃ w', rtc (step 2) sample_shutting w' ∧ wd_pc w' = PDone ∧ wd_procs w' = ∅ ∧ rebootCmd (wd_sup w') = CMD_RESTART.
Proof. apply (shutdown_completes 2 sample_shutting); [done|apply sample_shutting_reachable|reflexivity]. Defined.
