(* ===== verification/SupervisorStart.v ===== *)
(** * PID 1: starting the entrypoint

    [start] of [internal/supervisor/start.go], the beginning of [Run] and
    [describe] of [supervisor.go].  Of [os/exec] the model has what [Start] does
    to the environment; creating the process is the kernel's, and an argument. *)

From S2P Require Import Prelude GoStrings FS Config Entrypoint Supervisor.

(** ** os/exec *)

(** Where a standard stream of the child leads. *)
Inductive stream := OsStdin | OsStdout | OsStderr.

Record Credential := mkCredential { cr_Uid : Z; cr_Gid : Z; cr_Groups : list Z }.

(** [exec.Cmd], as far as [start] fills it in. *)
Record Cmd := mkCmd {
  cmd_Path : string;
  cmd_Args : list string;
  cmd_Env : list string;
  cmd_Dir : string;
  cmd_Stdin : stream;
  cmd_Stdout : stream;
  cmd_Stderr : stream;
  cmd_Credential : Credential;
}.

(** The name of an entry, up to its first [=] that is not its first character;
    [None] when there is no [=]. *)
Definition entry_name (kv : string) : option string :=
  let '(k, rest, ok) := strings_Cut kv equals in
  if negb ok then None
  else if decide (k = "") then
    let '(k', _, ok') := strings_Cut rest equals in Some (if (ok' : bool) then "=" +:+ k' else "")
  else Some k.

(** [dedupEnv] works from the end, so that the last entry of a name is kept; an
    entry that is no assignment is kept if it is not empty. *)
Fixpoint dedup_rev (saw : gset string) (rev_env : list string) : list string :=
  match rev_env with
  | [] => []
  | kv :: env =>
      match entry_name kv with
      | None => if decide (kv = "") then dedup_rev saw env else kv :: dedup_rev saw env
      | Some k => if decide (k ∈ saw) then dedup_rev saw env else kv :: dedup_rev ({[k]} ∪ saw) env
      end
  end.

Definition NUL : ascii := "000".
(** [None]: an entry contains a NUL. *)
Definition dedupEnv (env : list string) : option (list string) :=
  if existsb (λ kv, strings_ContainsByte kv NUL) env then None else Some (reverse (dedup_rev ∅ (reverse env))).

(** What is asked of the kernel: [setgroups], [setgid] and [setuid], [chdir], then
    [execve]. *)
Record process := mkProcess {
  pr_path : string;
  pr_argv : list string;
  pr_env : list string;
  pr_dir : string;
  pr_streams : list stream;
  pr_credential : Credential;
}.

Inductive start_error (E : Type) :=
  | EnvNul
  | EFork (e : E).
Arguments EnvNul {_}.
Arguments EFork {_} e.

Section Start.
(** The environment of peel itself, and the kernel's answer: a process id. *)
Context {E : Type} (parent_env : list string) (forkExec : process → res E positive).

(** [cmd.Start].  Without an environment of its own (a nil slice) a command gets
    its parent's. *)
Definition Cmd_Start (cmd : Cmd) : res (start_error E) positive :=
  match dedupEnv (match cmd_Env cmd with [] => parent_env | env => env end) with
  | None => Err EnvNul
  | Some env =>
      let argv := match cmd_Args cmd with [] => [cmd_Path cmd] | argv => argv end in
      match forkExec (mkProcess (cmd_Path cmd) argv env (cmd_Dir cmd)
          [cmd_Stdin cmd; cmd_Stdout cmd; cmd_Stderr cmd] (cmd_Credential cmd)) with
      | Err e => Err (EFork e)
      | Ok pid => Ok pid
      end
  end.

(** ** start.go *)

Definition start (spec : Spec) : res (start_error E) (Cmd * positive) :=
  let cmd := mkCmd (sp_Path spec) (sp_Argv spec) (sp_Env spec) (sp_Dir spec) OsStdin OsStdout OsStderr
    (mkCredential (sp_UID spec) (sp_GID spec) (sp_Groups spec)) in
  let? pid := Cmd_Start cmd in
  Ok (cmd, pid).

(** ** supervisor.go *)

(** [Run] up to its loop: an error, or the loop begins in the world in which the
    entrypoint is the only process below PID 1. *)
Definition Run_start (spec : Spec) : res (start_error E) (positive * Supervisor.world) :=
  let? (cmd, mainPID) := start spec in
  Ok (mainPID, world_init mainPID).
End Start.

(** [describe]: what the log says of a wait status; [name] is [syscall.Signal.String]. *)
Definition describe (name : Z → string) (ws : Z) : string :=
  if Z.land ws 0x7f =? 0 then "exited(" +:+ strconv_Itoa (Z.land (Z.shiftr ws 8) 0xff) +:+ ")"
  else if negb (Z.land ws 0x7f =? 0x7f) then "killed(" +:+ name (Z.land ws 0x7f) +:+ ")"
  else "status=" +:+ strconv_Itoa ws.

Example describe_exit : describe (λ _, "") 256 = "exited(1)". Proof. reflexivity. Qed.
Example describe_kill : describe (λ n, if n =? 9 then "killed" else "?") 137 = "killed(killed)". Proof. reflexivity. Qed.

(** ** Facts about environments *)

(** An ordinary name. *)
Definition plain_name (key : string) : Prop := key ≠ "" ∧ lacks equals key.

Lemma entry_name_get kv env key :
  plain_name key → env_get (kv :: env) key = if decide (entry_name kv = Some key) then Some (strings_Cut kv equals).1.2 else env_get env key.
Proof.
  intros [Hne Hl]. cbn [env_get]. unfold entry_name. destruct (strings_Cut kv equals) as [[k v] ok]. destruct ok; cbn [negb andb fst snd].
  - destruct (decide (k = "")) as [->|Hk].
    + rewrite bool_decide_false by done. destruct (strings_Cut v equals) as [[k' v'] []]; [|by rewrite decide_False by congruence].
      rewrite decide_False; [done|]. intros [= <-]. by apply lacks_cons in Hl as [[] _].
    + case_bool_decide as E; [subst; by rewrite decide_True|]. rewrite decide_False by congruence. done.
  - by rewrite decide_False.
Qed.

Lemma env_get_name env key : plain_name key → env_get env key ≠ None ↔ key ∈ omap entry_name env.
Proof.
  intros Hp. induction env as [|kv env IH]; [cbn; split; [done|by intros ?%elem_of_nil]|].
  rewrite entry_name_get by done. cbn [omap list_omap]. destruct (entry_name kv) as [k|].
  - rewrite elem_of_cons. case_decide as E; [injection E as ->; split; [by left|done]|].
    rewrite IH. split; [by right|]. intros [->|?]; done.
  - by rewrite decide_False.
Qed.

Lemma dedup_get saw r key :
  plain_name key → env_get (dedup_rev saw r) key = if decide (key ∈ saw) then None else env_get r key.
Proof.
  intros Hp. revert saw. induction r as [|kv r IH]; intros saw; [by case_decide|].
  rewrite entry_name_get by done. cbn [dedup_rev]. destruct (entry_name kv) as [k|] eqn:Ek.
  - destruct (decide (k ∈ saw)) as [Hk|Hk].
    + rewrite IH. repeat case_decide; simplify_eq; done.
    + rewrite entry_name_get, Ek, IH by done. destruct (decide (Some k = Some key)) as [E|E].
      * injection E as ->. by rewrite decide_False by done.
      * assert (k ≠ key) by congruence.
        destruct (decide (key ∈ saw)); [rewrite decide_True by (by apply elem_of_union_r); done|].
        rewrite decide_False; [done|]. rewrite elem_of_union, elem_of_singleton. intros [?|?]; congruence.
  - rewrite (decide_False (P := None = Some key)) by done.
    case_decide; [apply IH|]. rewrite entry_name_get, Ek, decide_False, IH by done. done.
Qed.

Lemma dedup_names saw r : NoDup (omap entry_name (dedup_rev saw r)) ∧ ∀ k, k ∈ omap entry_name (dedup_rev saw r) → k ∉ saw.
Proof.
  revert saw. induction r as [|kv r IH]; intros saw; [cbn; split; [constructor|by intros k ?%elem_of_nil]|].
  cbn [dedup_rev]. destruct (entry_name kv) as [k|] eqn:Ek.
  - case_decide as Hk; [apply IH|]. cbn [omap list_omap]. rewrite Ek. destruct (IH ({[k]} ∪ saw)) as [H1 H2]. split.
    + constructor; [|done]. intros Hin%H2. apply Hin, elem_of_union_l. by apply elem_of_singleton.
    + intros k' [->|Hin%H2]%elem_of_cons; [done|]. intros ?. by apply Hin, elem_of_union_r.
  - case_decide; [apply IH|]. cbn [omap list_omap]. rewrite Ek. apply IH.
Qed.

Lemma env_get_reverse env key : plain_name key → NoDup (omap entry_name env) → env_get (reverse env) key = env_get env key.
Proof.
  intros Hp. induction env as [|kv env IH]; intros Hnd; [done|].
  rewrite reverse_cons, env_get_app. rewrite entry_name_get by done. cbn [omap list_omap] in Hnd.
  destruct (entry_name kv) as [k|] eqn:Ek.
  - apply NoDup_cons in Hnd as [Hk Hnd]. rewrite IH by done. rewrite entry_name_get, Ek by done.
    destruct (decide (Some k = Some key)) as [[= ->]|Hne]; [|by destruct (env_get env key)].
    destruct (env_get env key) eqn:Eg; [|done]. exfalso. apply Hk, env_get_name; [done|]. by rewrite Eg.
  - rewrite IH by done. rewrite entry_name_get, Ek, decide_False by done. by destruct (env_get env key).
Qed.

(** What the child finds under a name is the last entry for it. *)
Lemma dedupEnv_get env env' key : plain_name key → dedupEnv env = Some env' → env_get env' key = exec_get env key.
Proof.
  intros Hp. unfold dedupEnv. destruct (existsb _ env); [done|]. intros [= <-].
  rewrite env_get_reverse by (done || apply dedup_names). by rewrite dedup_get.
Qed.

Lemma dedupEnv_NoDup env env' : dedupEnv env = Some env' → NoDup (omap entry_name env').
Proof.
  unfold dedupEnv. destruct (existsb _ env); [done|]. intros [= <-].
  assert (∀ l, omap entry_name (reverse l) = reverse (omap entry_name l)) as ->.
  { induction l as [|x l IH]; [done|]. rewrite reverse_cons, omap_app, IH. cbn [omap list_omap]. destruct (entry_name x); [by rewrite reverse_cons|by rewrite app_nil_r]. }
  rewrite reverse_Permutation. apply dedup_names.
Qed.

Lemma dedup_rev_sub saw r kv : kv ∈ dedup_rev saw r → kv ∈ r.
Proof.
  revert saw. induction r as [|x r IH]; intros saw; [done|]. cbn [dedup_rev]. rewrite elem_of_cons.
  destruct (entry_name x) as [k|]; case_decide; rewrite ?elem_of_cons; naive_solver.
Qed.

Lemma dedupEnv_sub env env' kv : dedupEnv env = Some env' → kv ∈ env' → kv ∈ env.
Proof. unfold dedupEnv. destruct (existsb _ env); [done|]. intros [= <-]. rewrite elem_of_reverse. intros H%dedup_rev_sub. by rewrite elem_of_reverse in H. Qed.

(** The environment of the command, with a [PATH]. *)
Definition path_entry : string := "PATH=" +:+ defaultPath.
Definition with_path (env : list string) : list string :=
  if decide (lookupEnv env "PATH" = "") then env ++ [path_entry] else env.

Lemma with_path_get env key : key ≠ "PATH" → plain_name key → exec_get (with_path env) key = exec_get env key.
Proof.
  intros Hk Hp. unfold with_path. case_decide; [|done]. unfold exec_get. rewrite reverse_app, env_get_app.
  change (reverse [path_entry]) with [path_entry]. rewrite entry_name_get by done. rewrite decide_False; [done|]. vm_compute. congruence.
Qed.

Lemma with_path_PATH env :
  exec_get (with_path env) "PATH" = if decide (lookupEnv env "PATH" = "") then Some defaultPath else exec_get env "PATH".
Proof.
  unfold with_path. case_decide; [|done]. unfold exec_get. rewrite reverse_app, env_get_app. done.
Qed.

(** Where the command is looked for. *)
Lemma with_path_lookup env : lookupEnv (with_path env) "PATH" = default defaultPath (env_get env "PATH").
Proof.
  unfold with_path. rewrite !lookupEnv_get. destruct (env_get env "PATH") as [v|] eqn:E; cbn [default from_option id].
  - case_decide; by rewrite ?env_get_app, E.
  - rewrite decide_True by done. by rewrite env_get_app, E.
Qed.

Lemma Resolve_fields s root rt spec :
  Resolve s root rt = Ok spec →
  ∃ argv0 args p uid gid, rt_Entrypoint rt ++ rt_Cmd rt = argv0 :: args ∧
    lookPath s root argv0 (default defaultPath (env_get (rt_Env rt) "PATH")) = Ok p ∧ resolveUser s root (rt_User rt) = Ok (uid, gid) ∧
    spec = mkSpec p (argv0 :: args) (with_path (rt_Env rt)) (if decide (rt_WorkingDir rt = "") then "/" else rt_WorkingDir rt) uid gid [].
Proof.
  unfold Resolve. destruct (rt_Entrypoint rt ++ rt_Cmd rt) as [|a argv]; [done|].
  intros ([uid gid] & Hu & H1)%res_bind_Ok. apply res_bind_Ok in H1 as (p & Hp & [= <-]).
  exists a, argv, p, uid, gid. rewrite <-with_path_lookup. by split_and!.
Qed.

(** The process that a runtime configuration describes, on a root. *)
Definition describes (s : fs) (root : string) (rt : Runtime) (pr : process) : Prop :=
  executable s (pr_path pr) ∧
  (∃ argv0 args, rt_Entrypoint rt ++ rt_Cmd rt = argv0 :: args ∧ pr_argv pr = argv0 :: args ∧
    lookPath s root argv0 (default defaultPath (env_get (rt_Env rt) "PATH")) = Ok (pr_path pr)) ∧
  pr_dir pr = (if decide (rt_WorkingDir rt = "") then "/" else rt_WorkingDir rt) ∧
  pr_streams pr = [OsStdin; OsStdout; OsStderr] ∧
  resolveUser s root (rt_User rt) = Ok (cr_Uid (pr_credential pr), cr_Gid (pr_credential pr)) ∧
  cr_Groups (pr_credential pr) = [] ∧
  NoDup (omap entry_name (pr_env pr)) ∧
  (∀ kv, kv ∈ pr_env pr → kv ∈ rt_Env rt ∨ kv = path_entry) ∧
  (∀ key, plain_name key → key ≠ "PATH" → env_get (pr_env pr) key = exec_get (rt_Env rt) key) ∧
  env_get (pr_env pr) "PATH" =
    if decide (lookupEnv (rt_Env rt) "PATH" = "") then Some defaultPath else exec_get (rt_Env rt) "PATH".

Lemma started {E} parent_env (forkExec : process → res E positive) s root rt spec cmd mainPID :
  Resolve s root rt = Ok spec → start parent_env forkExec spec = Ok (cmd, mainPID) →
  ∃ pr, forkExec pr = Ok mainPID ∧ describes s root rt pr.
Proof.
  intros HR Hs. destruct (Resolve_executable s root rt spec HR) as (Hex & _).
  destruct (Resolve_fields s root rt spec HR) as (argv0 & args & p & uid & gid & Hargv & Hp & Hu & ->). cbn [sp_Path] in *.
  unfold start in Hs. apply res_bind_Ok in Hs as (pid & Hs & [= _ <-]). unfold Cmd_Start in Hs. cbn [cmd_Env cmd_Args sp_Env sp_Argv] in Hs.
  assert (with_path (rt_Env rt) ≠ []) as Hne.
  { unfold with_path. destruct (decide (lookupEnv (rt_Env rt) "PATH" = "")) as [|E0]; [by intros [_ ?]%app_nil|].
    intros En. by rewrite En in E0. }
  destruct (with_path (rt_Env rt)) as [|e env] eqn:Ee; [done|]. destruct (dedupEnv (e :: env)) as [env'|] eqn:Ed; [|done].
  destruct (forkExec _) as [pid'|] eqn:Ef; [|done]. injection Hs as ->. rewrite <-Ee in Ed.
  assert (∀ key, plain_name key → env_get env' key = exec_get (with_path (rt_Env rt)) key) as Hget by (intros; by apply dedupEnv_get).
  eexists. split; [exact Ef|]. unfold describes. cbn. split_and!; try done; [by eauto|by eapply dedupEnv_NoDup| | |].
  - intros kv Hkv%(dedupEnv_sub _ _ _ Ed). unfold with_path in Hkv.
    destruct (decide (lookupEnv (rt_Env rt) "PATH" = "")); [|by left]. apply elem_of_app in Hkv as [?|Hkv%list_elem_of_singleton]; auto.
  - intros key Hkp Hk. rewrite Hget by done. by apply with_path_get.
  - rewrite Hget by done. apply with_path_PATH.
Qed.

(** ** Theorem *)

(** C12. The process that runs is the one the image describes.  If [Resolve]
    succeeds and [start] does, then exactly one process was asked of the kernel,
    which gave it the id the supervisor waits for: the executable file that looking
    up the first word of the entrypoint and the command finds (in the image's
    [PATH], or the default one if it has none), with these words as arguments, in
    the image's working directory or else the root, as the resolved user and group
    and in no supplementary group, on peel's own console.  Its environment names
    nothing twice; every entry is one of the image's or the default [PATH]; every
    name but [PATH] has the last value the image gives it, and so has [PATH]
    unless the image's is missing or empty. *)
Theorem entrypoint_started {E} parent_env (forkExec : process → res E positive) s root rt spec cmd mainPID :
  Resolve s root rt = Ok spec → start parent_env forkExec spec = Ok (cmd, mainPID) →
  Run_start parent_env forkExec spec = Ok (mainPID, world_init mainPID) ∧
  ∃ pr, forkExec pr = Ok mainPID ∧ describes s root rt pr.
Proof.
  intros HR Hs. split; [unfold Run_start; by rewrite Hs|]. by eapply started.
Qed.

Definition sample_rt : Runtime := mkRuntime ["sh"] ["-c"; "true"] ["A=1"; "B"; "A=2"] "" "app".
Definition sample_fork (pr : process) : res unit positive :=
  if decide (pr_env pr = ["B"; "A=2"; "PATH=" +:+ defaultPath]) then Ok 17%positive else Err tt.

Lemma entrypoint_started_witness :
  ∃ spec cmd, Resolve sample_root "/" sample_rt = Ok spec ∧ start ["PATH=/peel"; "SECRET=1"] sample_fork spec = Ok (cmd, 17%positive) ∧
  ∃ pr, sample_fork pr = Ok 17%positive ∧ executable sample_root (pr_path pr) ∧ pr_dir pr = "/" ∧
    resolveUser sample_root "/" "app" = Ok (cr_Uid (pr_credential pr), cr_Gid (pr_credential pr)) ∧
    env_get (pr_env pr) "A" = Some "2" ∧ env_get (pr_env pr) "PATH" = Some defaultPath ∧ "SECRET=1" ∉ pr_env pr.
Proof.
  set (spec := mkSpec "/bin/sh" ["sh"; "-c"; "true"] ["A=1"; "B"; "A=2"; "PATH=" +:+ defaultPath] "/" 1000 1001 []).
  set (cmd := mkCmd "/bin/sh" ["sh"; "-c"; "true"] ["A=1"; "B"; "A=2"; "PATH=" +:+ defaultPath] "/" OsStdin OsStdout OsStderr
    (mkCredential 1000 1001 [])).
  assert (Resolve sample_root "/" sample_rt = Ok spec) as H1 by (vm_compute; reflexivity).
  assert (start ["PATH=/peel"; "SECRET=1"] sample_fork spec = Ok (cmd, 17%positive)) as H2 by (vm_compute; reflexivity).
  exists spec, cmd. split_and!; [exact H1|exact H2|].
  destruct (entrypoint_started ["PATH=/peel"; "SECRET=1"] sample_fork sample_root "/" sample_rt spec cmd 17%positive H1 H2)
    as (_ & pr & Hf & Hx & _ & Hdir & _ & Hu & _ & _ & Hfrom & Hg & Hpath).
  exists pr. split_and!; [exact Hf|exact Hx|exact Hdir|exact Hu| |exact Hpath|].
  - apply (Hg "A"); [split|]; done.
  - intros Hs. by destruct (Hfrom _ Hs) as [?%(bool_decide_pack _)|?].
Defined.

(** Nothing runs when [start] fails. *)
Lemma start_fails {E} parent_env (forkExec : process → res E positive) spec e :
  start parent_env forkExec spec = Err e → Run_start parent_env forkExec spec = Err e.
Proof. intros H. unfold Run_start. by rewrite H. Qed.
