(* ===== verification/LoPeer.v ===== *)
(** * Proxying a peer's listens: [internal/lo/peer.go], [discovery.go] and
    [StartProxy]/[Close] of [proxy.go]

    The managers of all peers share one watcher, of which they only use the
    exclusion registry, and open their listeners on one host.  Whether binding a
    local listener succeeds is an argument of each attempt. *)

From S2P Require Import Prelude GoStrings GoPath LoTypes LoWatcher.

(** [Proxy]: [px_ln] is set for TCP and [px_pc] for UDP, each a socket by its
    number; [px_cancel] cancels the context of that number. *)
Record Proxy := mkProxy {
  px_listen : Listen;
  px_ln : option nat;
  px_pc : option nat;
  px_cancel : nat;
}.

(** [rejectsRemote]. *)
Definition rejectsRemote (p : Proxy) (remote : string) : bool :=
  isUnspecified (l_addr (px_listen p)) && negb (isLocalPeer remote).

(** The lines of a [/watch] stream: an event that was decoded, with the outcome of
    the bind it may lead to, or something malformed. *)
Inductive watch_line :=
  | Malformed
  | Decoded (ev : Event) (bind_ok : bool).

(** ** The host

    The watcher, the listening sockets that are open, and the contexts of
    [context.WithCancel] that were not cancelled, with the listen each was made
    for. *)

Record host (W : Type) := mkHost {
  h_watcher : W;
  h_sockets : gmap nat Listen;
  h_contexts : gmap nat Listen;
}.
Arguments mkHost {W} _ _ _.
Arguments h_watcher {W} _.
Arguments h_sockets {W} _.
Arguments h_contexts {W} _.

Section Peer.
Context {W : Type} `{Registry W}.
Notation host := (host W).

Definition on_watcher (f : W → W) (h : host) : host := mkHost (f (h_watcher h)) (h_sockets h) (h_contexts h).

(** [net.Listen] and [net.ListenPacket] where they succeed, and [Close]. *)
Definition open_socket (l : Listen) (h : host) : nat * host :=
  let n := fresh (dom (h_sockets h)) in (n, mkHost (h_watcher h) (<[n := l]> (h_sockets h)) (h_contexts h)).
Definition close_socket (n : nat) (h : host) : host := mkHost (h_watcher h) (delete n (h_sockets h)) (h_contexts h).

(** [context.WithCancel], and calling [cancel]. *)
Definition WithCancel (l : Listen) (h : host) : nat * host :=
  let n := fresh (dom (h_contexts h)) in (n, mkHost (h_watcher h) (h_sockets h) (<[n := l]> (h_contexts h))).
Definition cancel_context (n : nat) (h : host) : host := mkHost (h_watcher h) (h_sockets h) (delete n (h_contexts h)).

(** ** Proxies *)

Definition StartProxy (bind_ok : bool) (l : Listen) (h : host) : option Proxy * host :=
  let h := on_watcher (reg_exclude l) h in
  let '(pctx, h) := WithCancel l h in
  let fail := (None, on_watcher (reg_unexclude l) (cancel_context pctx h)) in
  if decide (l_proto l = TCP) then
    if bind_ok then let '(ln, h) := open_socket l h in (Some (mkProxy l (Some ln) None pctx), h) else fail
  else if decide (l_proto l = UDP) then
    if bind_ok then let '(pc, h) := open_socket l h in (Some (mkProxy l None (Some pc) pctx), h) else fail
  else fail.

Definition Close (p : Proxy) (h : host) : host :=
  let h := cancel_context (px_cancel p) h in
  let h := match px_ln p with Some ln => close_socket ln h | None => h end in
  let h := match px_pc p with Some pc => close_socket pc h | None => h end in
  on_watcher (reg_unexclude (px_listen p)) h.

(** ** The manager of one peer *)

(** The host and the field [proxies] of a [peerManager]. *)
Notation proxies := (gmap Listen Proxy).

Definition add (bind_ok : bool) (l : Listen) (st : host * proxies) : host * proxies :=
  let '(h, ps) := st in
  match ps !! l with
  | Some _ => (h, ps)
  | None =>
      match StartProxy bind_ok l h with
      | (Some p, h') => (h', <[l := p]> ps)
      | (None, h') => (h', ps)
      end
  end.

Definition remove (l : Listen) (st : host * proxies) : host * proxies :=
  let '(h, ps) := st in
  match ps !! l with
  | Some p => (Close p h, delete l ps)
  | None => (h, ps)
  end.

(** Ranging over [p.proxies] comes in some order. *)
Definition reconcile_in (order : list Listen) (seen : gset Listen) (st : host * proxies) : host * proxies :=
  foldl (λ st l, remove l st) st (filter (λ l, l ∉ seen) order).
Definition reconcile (seen : gset Listen) (st : host * proxies) : host * proxies :=
  reconcile_in (elements (dom st.2)) seen st.

Definition stopAll_in (order : list Proxy) (h : host) : host * proxies :=
  (foldl (λ h p, Close p h) h order, ∅).
Definition stopAll (st : host * proxies) : host * proxies :=
  stopAll_in (map_to_list st.2).*2 st.1.

(** The variables of [watchOnce] and the manager. *)
Record watching := mkWatching {
  wt_seen : gset Listen;
  wt_synced : bool;
  wt_state : host * proxies;
}.

Definition watch_step (t : watching) (line : watch_line) : watching :=
  match line with
  | Malformed => t
  | Decoded ev bind_ok =>
      if decide (ev_op ev = "sync") then
        mkWatching (wt_seen t) true (reconcile (wt_seen t) (wt_state t))
      else if decide (ev_op ev = "add") then
        mkWatching (if wt_synced t then wt_seen t else {[ev_listen ev]} ∪ wt_seen t) (wt_synced t)
          (add bind_ok (ev_listen ev) (wt_state t))
      else if decide (ev_op ev = "remove") then
        mkWatching (wt_seen t) (wt_synced t) (remove (ev_listen ev) (wt_state t))
      else t
  end.

(** One connection, over the lines the peer sends before it ends. *)
Definition watchOnce (lines : list watch_line) (st : host * proxies) : host * proxies :=
  wt_state (foldl watch_step (mkWatching ∅ false st) lines).

(** [run]: connections one after the other until the context is done. *)
Definition run (connections : list (list watch_line)) (st : host * proxies) : host * proxies :=
  stopAll (foldl (λ st lines, watchOnce lines st) st connections).

(** ** Counting *)

(** 1 if the manager proxies [l]. *)
Definition proxying (ps : proxies) (l : Listen) : Z := if decide (l ∈ dom ps) then 1 else 0.

Definition own_keys (ps : proxies) : Prop := ∀ l p, ps !! l = Some p → px_listen p = l.

Notation excluded h l := (reg_count (h_watcher h) l).

(** Of what is open, [base] is not the manager's, and the rest is what its proxies
    hold, each for its own listen. *)
Definition accounts (f : Proxy → list nat) (base m : gmap nat Listen) (ps : proxies) : Prop :=
  (∀ n l, m !! n = Some l ↔ base !! n = Some l ∨ ∃ p, ps !! l = Some p ∧ n ∈ f p) ∧
  (∀ n l p, ps !! l = Some p → n ∈ f p → base !! n = None).

Definition px_sockets (p : Proxy) : list nat := option_list (px_ln p) ++ option_list (px_pc p).
Definition px_contexts (p : Proxy) : list nat := [px_cancel p].

Definition holds (sockets contexts : gmap nat Listen) (st : host * proxies) : Prop :=
  accounts px_sockets sockets (h_sockets st.1) st.2 ∧ accounts px_contexts contexts (h_contexts st.1) st.2.

(** From [st] to [st'] the exclusions changed as the proxies did, and the sockets and
    contexts that are open are still those of others and of the proxies. *)
Definition balanced (st st' : host * proxies) : Prop :=
  own_keys st.2 → (∀ l, proxying st.2 l ≤ excluded st.1 l) →
  own_keys st'.2 ∧ (∀ l, excluded st'.1 l - proxying st'.2 l = excluded st.1 l - proxying st.2 l) ∧
  ∀ sockets contexts, holds sockets contexts st → holds sockets contexts st'.

Lemma balanced_refl st : balanced st st.
Proof. by intros ? ?. Qed.

Lemma balanced_trans st1 st2 st3 : balanced st1 st2 → balanced st2 st3 → balanced st1 st3.
Proof.
  intros H12 H23 Hk Hc. destruct (H12 Hk Hc) as (Hk2 & He2 & Ht2).
  destruct (H23 Hk2) as (Hk3 & He3 & Ht3); [intros l; specialize (He2 l); specialize (Hc l); lia|].
  split_and!; [done| |auto]. intros l. by rewrite He3, He2.
Qed.

(** *** What is open *)

Lemma accounts_empty f base : accounts f base base ∅.
Proof. split; [|by intros n l p]. intros n l. split; [by left|]. by intros [?|(p & ? & _)]. Qed.

Lemma accounts_none f base m : accounts f base m ∅ → m = base.
Proof.
  intros [Hm _]. apply map_eq. intros n. apply option_eq. intros l. rewrite Hm. split; [|by left].
  by intros [?|(p & ? & _)].
Qed.

Lemma accounts_insert f base m ps n l p :
  f p = [n] → m !! n = None → ps !! l = None → accounts f base m ps → accounts f base (<[n := l]> m) (<[l := p]> ps).
Proof.
  intros Hf Hn Hl [Hm Hb].
  assert (base !! n = None) as Hbn by (apply eq_None_not_Some; intros [x Hx]; by rewrite (proj2 (Hm n x) (or_introl Hx)) in Hn).
  split.
  - intros x l'. rewrite lookup_insert_Some. split.
    + intros [[<- <-]|[Hne [?|(p' & Hp' & Hx)]%Hm]]; [|by left|].
      * right. exists p. rewrite lookup_insert_eq, Hf. split; [done|by left].
      * right. exists p'. rewrite lookup_insert_ne; [done|congruence].
    + intros [Hx|(p' & [[<- <-]|[Hne Hp']]%lookup_insert_Some & Hx)].
      * right. split; [congruence|]. apply Hm. by left.
      * left. rewrite Hf in Hx. by apply list_elem_of_singleton in Hx as ->.
      * right. assert (m !! x = Some l') as E by (apply Hm; eauto). split; [congruence|done].
  - intros x l' p' [[<- <-]|[_ Hp']]%lookup_insert_Some Hx; [|by eapply Hb].
    rewrite Hf in Hx. by apply list_elem_of_singleton in Hx as ->.
Qed.

Lemma accounts_delete f base m m' ps l p :
  ps !! l = Some p → (∀ n, m' !! n = if decide (n ∈ f p) then None else m !! n) → accounts f base m ps →
  accounts f base m' (delete l ps).
Proof.
  intros Hl Hm' [Hm Hb]. split; [|by intros n l' p' [_ ?]%lookup_delete_Some; apply (Hb n l')].
  intros n l'. rewrite Hm'. case_decide as Hn.
  - split; [done|]. intros [Hx|(p' & [Hne Hp']%lookup_delete_Some & Hx)].
    + by rewrite (Hb n l p Hl Hn) in Hx.
    + assert (m !! n = Some l) as E1 by (apply Hm; eauto). assert (m !! n = Some l') as E2 by (apply Hm; eauto). congruence.
  - rewrite Hm. split; intros [?|(p' & Hp' & Hx)]; [by left| |by left|].
    + right. exists p'. rewrite lookup_delete_ne; [done|]. intros ->. simplify_eq. done.
    + right. apply lookup_delete_Some in Hp' as [_ Hp']. eauto.
Qed.

Lemma StartProxy_spec b l h :
  (∃ p h' n c, StartProxy b l h = (Some p, h') ∧ b = true ∧ (l_proto l = TCP ∨ l_proto l = UDP) ∧ px_listen p = l ∧
     px_sockets p = [n] ∧ px_contexts p = [c] ∧ h_sockets h !! n = None ∧ h_contexts h !! c = None ∧
     h_sockets h' = <[n := l]> (h_sockets h) ∧ h_contexts h' = <[c := l]> (h_contexts h) ∧
     ∀ l', excluded h' l' = excluded h l' + if decide (l = l') then 1 else 0) ∨
  (∃ h', StartProxy b l h = (None, h') ∧ ¬ (b = true ∧ (l_proto l = TCP ∨ l_proto l = UDP)) ∧
     h_sockets h' = h_sockets h ∧ h_contexts h' = h_contexts h ∧
     ∀ l', 0 ≤ excluded h l' → excluded h' l' = excluded h l').
Proof.
  assert (∀ l', 0 ≤ excluded h l' → reg_count (reg_unexclude l (reg_exclude l (h_watcher h))) l' = excluded h l') as Hun.
  { intros l' Hl. rewrite reg_count_unexclude, reg_count_exclude. case_decide; lia. }
  pose proof (is_fresh (dom (h_sockets h))) as Hs%not_elem_of_dom. pose proof (is_fresh (dom (h_contexts h))) as Hc%not_elem_of_dom.
  assert (∀ c, h_contexts h !! c = None → delete c (<[c := l]> (h_contexts h)) = h_contexts h) as Hdel
    by (intros; by apply delete_insert_id).
  unfold StartProxy, WithCancel, on_watcher. cbn [h_watcher h_sockets h_contexts].
  destruct (decide (l_proto l = TCP)) as [Ht|Ht]; [|destruct (decide (l_proto l = UDP)) as [Hu|Hu]].
  1, 2: destruct b; [left; do 4 eexists; split_and!; [done|done|auto|done|done|done|done|done|done|done|intros; apply reg_count_exclude]|
                     right; eexists; split_and!; [done|by intros [? _]|done|by apply Hdel|done]].
  right. eexists. split_and!; [done|by intros [_ [?|?]]|done|by apply Hdel|done].
Qed.

Lemma Close_sockets p h n : h_sockets (Close p h) !! n = if decide (n ∈ px_sockets p) then None else h_sockets h !! n.
Proof.
  unfold Close, px_sockets. destruct p as [l [ln|] [pc|] c]; cbn [px_ln px_pc option_list app]; unfold on_watcher, close_socket, cancel_context;
    cbn [h_sockets]; rewrite ?lookup_delete; repeat case_decide; set_solver.
Qed.

Lemma Close_contexts p h n : h_contexts (Close p h) !! n = if decide (n ∈ px_contexts p) then None else h_contexts h !! n.
Proof.
  assert (h_contexts (Close p h) = delete (px_cancel p) (h_contexts h)) as ->.
  { unfold Close. by destruct (px_ln p), (px_pc p). }
  unfold px_contexts. rewrite lookup_delete. repeat case_decide; set_solver.
Qed.

Lemma Close_excluded p h l :
  excluded (Close p h) l = if decide (px_listen p = l) then Z.max 0 (excluded h l - 1) else excluded h l.
Proof.
  unfold Close. destruct (px_ln p), (px_pc p); cbn [on_watcher close_socket cancel_context h_watcher]; apply reg_count_unexclude.
Qed.

Lemma proxying_insert ps l p l' :
  ps !! l = None → proxying (<[l := p]> ps) l' = proxying ps l' + if decide (l = l') then 1 else 0.
Proof.
  intros Hl. unfold proxying. rewrite dom_insert_L. apply not_elem_of_dom in Hl.
  destruct (decide (l = l')) as [->|Hne].
  - rewrite decide_True by set_solver. by rewrite decide_False.
  - destruct (decide (l' ∈ dom ps)); [rewrite decide_True by set_solver|rewrite decide_False by set_solver]; lia.
Qed.

Lemma proxying_delete ps l l' :
  l ∈ dom ps → proxying (delete l ps) l' = proxying ps l' - if decide (l = l') then 1 else 0.
Proof.
  intros Hl. unfold proxying. rewrite dom_delete_L. destruct (decide (l = l')) as [->|Hne].
  - rewrite decide_False by set_solver. by rewrite decide_True.
  - destruct (decide (l' ∈ dom ps)); [rewrite decide_True by set_solver|rewrite decide_False by set_solver]; lia.
Qed.

Lemma proxying_range ps l : 0 ≤ proxying ps l ≤ 1.
Proof. unfold proxying. case_decide; lia. Qed.

Lemma balanced_add b l st : balanced st (add b l st).
Proof.
  destruct st as [h ps]. intros Hk Hc. simpl in *. unfold add. destruct (ps !! l) as [p|] eqn:El; [done|].
  destruct (StartProxy_spec b l h) as [(p & h' & n & c & -> & _ & _ & Hp & Hs & Hx & Hn & Hnc & Es & Ec & Hw)|(h' & -> & _ & Es & Ec & Hw)]; simpl.
  - split_and!.
    + intros l' p'. rewrite lookup_insert_Some. intros [[<- <-]|[_ ?]]; [done|by apply Hk].
    + intros l'. rewrite Hw, proxying_insert by done. lia.
    + intros sockets contexts [H1 H2]. cbn [fst snd] in *. split; cbn [fst snd]; [rewrite Es|rewrite Ec]; by apply accounts_insert.
  - split_and!; [done| |].
    + intros l'. rewrite Hw; [done|]. specialize (Hc l'). pose proof (proxying_range ps l'). lia.
    + unfold holds. cbn [fst snd]. by rewrite Es, Ec.
Qed.

Lemma balanced_remove l st : balanced st (remove l st).
Proof.
  destruct st as [h ps]. intros Hk Hc. simpl in *. unfold remove. destruct (ps !! l) as [p|] eqn:El; [|done]. cbn [fst snd].
  assert (l ∈ dom ps) as Hd by (apply elem_of_dom; by eexists). split_and!.
  - intros l' p'. rewrite lookup_delete_Some. intros [_ ?]. by apply Hk.
  - intros l'. rewrite Close_excluded, (Hk _ _ El), proxying_delete by done.
    specialize (Hc l'). case_decide as E; [subst l'|lia].
    unfold proxying in *. rewrite decide_True in * by done. lia.
  - intros sockets contexts [H1 H2]. split; cbn [fst snd] in *; eapply accounts_delete; try done;
      intros n; [apply Close_sockets|apply Close_contexts].
Qed.

Lemma balanced_foldl {X} (f : host * proxies → X → host * proxies) l st :
  (∀ st x, balanced st (f st x)) → balanced st (foldl f st l).
Proof.
  intros Hf. revert st. induction l as [|x l IH]; intros st; [apply balanced_refl|].
  simpl. eapply balanced_trans; [apply Hf|apply IH].
Qed.

Lemma balanced_reconcile order seen st : balanced st (reconcile_in order seen st).
Proof. apply balanced_foldl. intros. apply balanced_remove. Qed.

Lemma balanced_watchOnce lines st : balanced st (watchOnce lines st).
Proof.
  unfold watchOnce. change st with (wt_state (mkWatching ∅ false st)) at 1. generalize (mkWatching ∅ false st) as t.
  induction lines as [|line lines IH]; intros t; [apply balanced_refl|]. simpl.
  eapply balanced_trans; [|apply IH]. destruct line as [|ev b]; [apply balanced_refl|]. simpl.
  repeat case_decide; simpl; [apply balanced_reconcile|apply balanced_add|apply balanced_remove|apply balanced_refl].
Qed.

Lemma balanced_connections connections st : balanced st (foldl (λ st lines, watchOnce lines st) st connections).
Proof. apply balanced_foldl. intros. apply balanced_watchOnce. Qed.

(** [stopAll] is to remove every proxy. *)
Lemma stopAll_removes order h ps :
  own_keys ps → order ≡ₚ (map_to_list ps).*2 →
  stopAll_in order h = foldl (λ st l, remove l st) (h, ps) (px_listen <$> order).
Proof.
  revert h ps. induction order as [|p order IH]; intros h ps Hk Ho.
  { apply Permutation_nil_l, eq_sym, fmap_nil_inv, map_to_list_empty_iff in Ho as ->. done. }
  assert (ps !! px_listen p = Some p) as Hp.
  { assert (p ∈ (map_to_list ps).*2) as ([l p'] & -> & E%elem_of_map_to_list)%list_elem_of_fmap by (rewrite <-Ho; left).
    simpl. by rewrite (Hk _ _ E). }
  rewrite fmap_cons. cbn [foldl]. unfold remove at 2. rewrite Hp.
  rewrite <-IH; [done|by intros l p' [_ ?]%lookup_delete_Some; apply Hk|].
  rewrite <-(insert_delete_id ps _ _ Hp), map_to_list_insert in Ho by apply lookup_delete_eq.
  rewrite fmap_cons in Ho. by apply Permutation_cons_inv in Ho.
Qed.

Lemma balanced_stopAll order st :
  order ≡ₚ (map_to_list st.2).*2 → balanced st (stopAll_in order st.1).
Proof.
  destruct st as [h ps]. intros Ho Hk. cbn [fst snd] in *. rewrite (stopAll_removes order h ps Hk Ho). revert Hk.
  apply (balanced_foldl (λ st l, remove l st) _ (h, ps)). intros. apply balanced_remove.
Qed.

Lemma balanced_stopAll_default st : balanced st (stopAll st).
Proof. by apply balanced_stopAll. Qed.

Lemma balanced_run connections st : balanced st (run connections st).
Proof. unfold run. eapply balanced_trans; [apply balanced_connections|apply balanced_stopAll_default]. Qed.

(** ** Following a peer *)

Definition startable (b : bool) (l : Listen) : Prop := b = true ∧ (l_proto l = TCP ∨ l_proto l = UDP).

Lemma dom_add b l st :
  dom st.2 ⊆ dom (add b l st).2 ∧ dom (add b l st).2 ⊆ {[l]} ∪ dom st.2 ∧
  (startable b l → dom (add b l st).2 = {[l]} ∪ dom st.2).
Proof.
  destruct st as [h ps]. unfold add. simpl. destruct (ps !! l) as [p|] eqn:El; simpl.
  - assert (l ∈ dom ps) by (apply elem_of_dom; by eexists). set_solver.
  - destruct (StartProxy_spec b l h) as [(p & h' & n & c & -> & _)|(h' & -> & Hs & _)]; simpl.
    + rewrite dom_insert_L. clear. set_solver.
    + split_and!; [done|set_solver|by intros ?%Hs].
Qed.

Lemma dom_remove l st : dom (remove l st).2 = dom st.2 ∖ {[l]}.
Proof.
  destruct st as [h ps]. unfold remove. simpl. destruct (ps !! l) as [p|] eqn:El; simpl.
  - by rewrite dom_delete_L.
  - apply not_elem_of_dom in El. set_solver.
Qed.

Lemma dom_removes l st : dom (foldl (λ st l, remove l st) st l).2 = dom st.2 ∖ list_to_set l.
Proof.
  revert st. induction l as [|x l IH]; intros st; simpl; [set_solver|]. rewrite IH, dom_remove. set_solver.
Qed.

Lemma dom_reconcile order seen st :
  order ≡ₚ elements (dom st.2) → dom (reconcile_in order seen st).2 = dom st.2 ∩ seen.
Proof.
  intros Ho. unfold reconcile_in. rewrite dom_removes. apply set_eq. intros x.
  rewrite elem_of_difference, elem_of_list_to_set, list_elem_of_filter, Ho, elem_of_elements, elem_of_intersection.
  destruct (decide (x ∈ seen)); tauto.
Qed.

Definition decoded (line : watch_line) : option (Event * bool) :=
  match line with Malformed => None | Decoded ev b => Some (ev, b) end.
Definition decode_step (t : watching) (e : Event * bool) : watching := watch_step t (Decoded e.1 e.2).

Lemma watch_decoded lines t : foldl watch_step t lines = foldl decode_step t (omap decoded lines).
Proof. revert t. induction lines as [|[|ev b] lines IH]; intros t; simpl; [done|apply IH|apply IH]. Qed.

Definition wt_dom (t : watching) : gset Listen := dom (wt_state t).2.

(** The snapshot, before it is complete. *)
Lemma watch_snapshot evs t snapshot :
  wt_synced t = false → evs.*1 = ev_add <$> snapshot →
  let t' := foldl decode_step t evs in
  wt_synced t' = false ∧ wt_seen t' = list_to_set snapshot ∪ wt_seen t ∧ wt_dom t ⊆ wt_dom t' ∧
  (Forall (λ e, startable e.2 (ev_listen e.1)) evs → wt_dom t' = list_to_set snapshot ∪ wt_dom t).
Proof.
  revert t snapshot. induction evs as [|[ev b] evs IH]; intros t snapshot Hs He.
  { destruct snapshot; [|done]. simpl. split_and!; [done|set_solver|done|set_solver]. }
  destruct snapshot as [|l snapshot]; [done|]. rewrite !fmap_cons in He. injection He as -> He.
  set (t1 := decode_step t (ev_add l, b)).
  assert (wt_synced t1 = false ∧ wt_seen t1 = {[l]} ∪ wt_seen t ∧ wt_state t1 = add b l (wt_state t)) as (H1 & H2 & H3).
  { unfold t1, decode_step. simpl. by rewrite Hs. }
  destruct (IH t1 snapshot H1 He) as (H4 & H5 & H6 & H7). simpl. fold t1.
  pose proof (dom_add b l (wt_state t)) as (D1 & D2 & D3).
  assert (wt_dom t1 = dom (add b l (wt_state t)).2) as Ed by (unfold wt_dom; by rewrite H3).
  split_and!; [done| | |].
  - rewrite H5, H2. clear. simpl. set_solver.
  - etrans; [exact D1|]. by rewrite <-Ed.
  - intros [Hst Hf]%Forall_cons. rewrite H7, Ed, D3 by done. clear. unfold wt_dom. simpl. set_solver.
Qed.

(** The events after it. *)
Lemma watch_events evs t :
  wt_synced t = true → Forall (λ e, ev_op e.1 ≠ "sync") evs →
  let t' := foldl decode_step t evs in
  ∀ view, wt_dom t ⊆ view →
  wt_dom t' ⊆ apply_events view evs.*1 ∧
  (wt_dom t = view → Forall (λ e, ev_op e.1 = "add" → startable e.2 (ev_listen e.1)) evs →
   wt_dom t' = apply_events view evs.*1).
Proof.
  revert t. induction evs as [|[ev b] evs IH]; intros t Hs Hf; [done|].
  apply Forall_cons in Hf as [Hop Hf]. simpl in Hop. intros t' view Hv.
  set (t1 := decode_step t (ev, b)).
  assert (wt_synced t1 = true) as Hs1.
  { unfold t1, decode_step. simpl. repeat case_decide; done. }
  assert (wt_dom t1 ⊆ apply_event view ev ∧
    (wt_dom t = view → (ev_op ev = "add" → startable b (ev_listen ev)) → wt_dom t1 = apply_event view ev)) as [H1 H2].
  { unfold t1, decode_step, wt_dom, apply_event. simpl. rewrite decide_False by done.
    destruct (decide (ev_op ev = "add")) as [Ha|Ha]; simpl.
    - pose proof (dom_add b (ev_listen ev) (wt_state t)) as (D1 & D2 & D3). unfold wt_dom in Hv.
      split; [etrans; [exact D2|]; clear -Hv; set_solver|]. intros <- Hst. by apply D3, Hst.
    - destruct (decide (ev_op ev = "remove")) as [Hr|Hr]; simpl.
      + rewrite dom_remove. unfold wt_dom in Hv. split; [clear -Hv; set_solver|]. intros <-. done.
      + unfold wt_dom in Hv. by split. }
  destruct (IH t1 Hs1 Hf (apply_event view ev) H1) as [H3 H4].
  split; [exact H3|]. intros Hd [Hst Hf']%Forall_cons. apply H4; [by apply H2|done].
Qed.

Lemma watchOnce_follows lines st snapshot events :
  (omap decoded lines).*1 = (ev_add <$> snapshot) ++ ev_sync :: events →
  Forall (λ ev, ev_op ev ≠ "sync") events →
  dom (watchOnce lines st).2 ⊆ apply_events (list_to_set snapshot) events ∧
  (Forall (λ e, ev_op e.1 = "add" → startable e.2 (ev_listen e.1)) (omap decoded lines) →
   dom (watchOnce lines st).2 = apply_events (list_to_set snapshot) events).
Proof.
  intros El Hops. unfold watchOnce. rewrite watch_decoded. revert El. generalize (omap decoded lines) as evs.
  intros evs El. apply fmap_app_inv in El as (ev1 & ev2 & E1 & E2 & ->).
  destruct ev2 as [|[sync b] ev2]; [done|]. rewrite fmap_cons in E2. injection E2 as <- ->.
  rewrite foldl_app. cbn [foldl].
  set (t0 := mkWatching ∅ false st).
  destruct (watch_snapshot ev1 t0 snapshot) as (H1 & H2 & H3 & H4); [done|done|].
  set (t1 := foldl decode_step t0 ev1) in *.
  set (t2 := decode_step t1 (ev_sync, b)).
  assert (wt_synced t2 = true) as Hs2 by done.
  assert (wt_dom t2 = wt_dom t1 ∩ list_to_set snapshot) as Hd2.
  { unfold t2, decode_step, wt_dom. simpl. rewrite H2.
    unfold reconcile. rewrite dom_reconcile by done.
    change (wt_seen t0) with (∅ : gset Listen). by rewrite (right_id_L ∅ (∪)). }
  assert (Forall (λ e : Event * bool, ev_op e.1 ≠ "sync") ev2) as Hops2
    by exact (proj1 (Forall_fmap _ _ _) Hops).
  destruct (watch_events ev2 t2 Hs2 Hops2 (list_to_set snapshot)) as [H5 H6]; [rewrite Hd2; clear; set_solver|].
  split; [done|]. intros [Hf1 [_ Hf2]%Forall_cons]%Forall_app. apply H6; [|done].
  rewrite Hd2, H4; [clear; set_solver|].
  rewrite Forall_forall in Hf1. apply Forall_forall. intros e He. apply Hf1; [done|].
  assert (e.1 ∈ ev1.*1) as Hin by (apply list_elem_of_fmap; eauto).
  rewrite <-E1 in Hin. apply list_elem_of_fmap in Hin as (l & -> & _). done.
Qed.
End Peer.

(** ** Claims *)

(** After a connection has sent its snapshot, the sync marker and any adds
    and removes, the manager proxies nothing the peer does not listen on now,
    whatever it proxied before, and if every bind succeeded it proxies exactly
    what the peer listens on; malformed lines change nothing. *)
Theorem peer_follows {W} `{Registry W} (lines : list watch_line) (st : host W * gmap Listen Proxy) snapshot events :
  (omap decoded lines).*1 = (ev_add <$> snapshot) ++ ev_sync :: events →
  Forall (λ ev, ev_op ev ≠ "sync") events →
  dom (watchOnce lines st).2 ⊆ apply_events (list_to_set snapshot) events ∧
  (Forall (λ e, ev_op e.1 = "add" → startable e.2 (ev_listen e.1)) (omap decoded lines) →
   dom (watchOnce lines st).2 = apply_events (list_to_set snapshot) events).
Proof. apply watchOnce_follows. Qed.

Definition l443 : Listen := mkListen V4 TCP "127.0.0.1" 443.
Definition sample_lines : list watch_line :=
  [Decoded (ev_add l80) true; Malformed; Decoded ev_sync true; Decoded (ev_add l443) true; Decoded (ev_remove l80) true].

(** A host with a listener of its own and a proxy for a peer's DNS server. *)
Definition l53 : Listen := mkListen V4 UDP "127.0.0.1" 53.
Definition sample_host : host Watcher := mkHost (Exclude l53 NewWatcher) {[1%nat := l53]} {[1%nat := l53]}.
Definition sample_proxies : gmap Listen Proxy := {[l53 := mkProxy l53 None (Some 1%nat) 1]}.

Lemma peer_follows_witness :
  dom (watchOnce sample_lines (sample_host, sample_proxies)).2 = apply_events (list_to_set [l80]) [ev_add l443; ev_remove l80].
Proof.
  apply (peer_follows (W := Watcher) sample_lines _ [l80] [ev_add l443; ev_remove l80]); [reflexivity| |].
  - by repeat constructor.
  - repeat (apply Forall_cons; split; [intros _; split; [reflexivity|left; reflexivity]|] ||
      (apply Forall_cons; split; [intros E; discriminate E|])). apply Forall_nil. exact I.
Defined.

(** C34. A manager holds what its proxies need, and gives everything back.  However
    many connections it goes through and however they end, the listening sockets
    and the contexts it has added to those open before are those of its proxies,
    each opened for the listen of its proxy; and when the manager has stopped, the
    open sockets and the live contexts are exactly those from before it started,
    and every listen is excluded exactly as often. *)
Theorem manager_releases {W} `{Registry W} (connections : list (list watch_line)) (h : host W) :
  (∀ l, 0 ≤ reg_count (h_watcher h) l) →
  holds (h_sockets h) (h_contexts h) (foldl (λ st lines, watchOnce lines st) (h, ∅) connections) ∧
  let '(h', ps) := run connections (h, ∅) in
  ps = ∅ ∧ h_sockets h' = h_sockets h ∧ h_contexts h' = h_contexts h ∧
  ∀ l, reg_count (h_watcher h') l = reg_count (h_watcher h) l.
Proof.
  intros Hc. assert (holds (h_sockets h) (h_contexts h) (h, ∅)) as Hh by (split; apply accounts_empty).
  split.
  { destruct (balanced_connections connections (h, ∅)) as (_ & _ & Ht); [by intros k p|intros l; apply Hc|]. by apply Ht. }
  destruct (balanced_run connections (h, ∅)) as (_ & He & Ht); [by intros k p|intros l; apply Hc|].
  assert ((run connections (h, ∅)).2 = ∅) as E by done.
  destruct (run connections (h, ∅)) as [h' ps]. cbn [fst snd] in *. subst ps. destruct (Ht _ _ Hh) as [H1 H2].
  split_and!; [done|by eapply accounts_none|by eapply accounts_none|]. intros l. specialize (He l).
  assert (proxying ∅ l = 0) as E by done. rewrite E, !Z.sub_0_r in He. exact He.
Qed.

(** It opens two listeners over a connection and one over the next. *)
Lemma manager_releases_witness :
  let '(h', ps) := run [sample_lines; [Decoded (ev_add l80) true]] (sample_host, ∅) in
  ps = ∅ ∧ h_sockets h' = {[1%nat := l53]} ∧ h_contexts h' = {[1%nat := l53]}.
Proof.
  assert (∀ l, 0 ≤ reg_count (h_watcher sample_host) l) as Hc.
  { intros l. change (0 ≤ excluded_count (Exclude l53 NewWatcher) l). rewrite excluded_count_Exclude.
    assert (excluded_count NewWatcher l = 0) as -> by (unfold excluded_count; simpl; by rewrite lookup_empty).
    destruct (decide (l53 = l)); lia. }
  pose proof (manager_releases (W := Watcher) [sample_lines; [Decoded (ev_add l80) true]] sample_host Hc) as [_ Hr].
  destruct (run _ (sample_host, ∅)) as [h' ps]. destruct Hr as (H1 & H2 & H3 & _). split_and!; [exact H1|exact H2|exact H3].
Defined.
