(* ===== verification/LoShare.v ===== *)
(** * One container's share: the watcher, its peers' managers and discovery

    The managers run side by side on one watcher ([internal/lo/discovery.go],
    [run.go]): a step is one operation of the watcher or one of a manager, in
    any order. *)

From S2P Require Import Prelude GoStrings GoPath LoTypes LoWatcher LoPeer.

(** ** discovery.scan *)

(** The keys of the maps [peers] and [cancels]. *)
Record discovery := mkDiscovery {
  d_self : string;
  d_peers : gset string;
  d_cancels : gset string;
}.

(** What [scan] does besides: it starts a manager's [run] or cancels one. *)
Inductive action := StartPeer (name : string) | CancelPeer (name : string).

(** An entry of the directory: its name and [IsDir]. *)
Definition dir_entry : Type := string * bool.

Definition scan_entry (st : discovery * gset string * list action) (e : dir_entry)
    : discovery * gset string * list action :=
  let '(d, seen, acts) := st in
  if (e.2 || bool_decide (e.1 = d_self d)) then st
  else
    let seen := {[e.1]} ∪ seen in
    if decide (e.1 ∈ d_peers d) then (d, seen, acts)
    else (mkDiscovery (d_self d) ({[e.1]} ∪ d_peers d) ({[e.1]} ∪ d_cancels d), seen, acts ++ [StartPeer e.1]).

Definition cancel_gone (seen : gset string) (st : discovery * list action) (name : string)
    : discovery * list action :=
  let '(d, acts) := st in
  if decide (name ∈ seen) then st
  else (mkDiscovery (d_self d) (d_peers d ∖ {[name]}) (d_cancels d ∖ {[name]}), acts ++ [CancelPeer name]).

(** [entries] is what [os.ReadDir] returned, [order] that of ranging over
    [d.cancels] after the first loop. *)
Definition scan_dir (entries : option (list dir_entry)) (order : gset string → list string) (d : discovery)
    : discovery * list action :=
  match entries with
  | None => (d, [])
  | Some es =>
      let '(d, seen, acts) := foldl scan_entry (d, ∅, []) es in
      foldl (cancel_gone seen) (d, acts) (order (d_cancels d))
  end.

(** The peers a listing shows. *)
Definition listed (self : string) (es : list dir_entry) : gset string :=
  list_to_set (filter (λ e, e.2 = false ∧ e.1 ≠ self) es).*1.

Lemma listed_cons self e es :
  listed self (e :: es) = (if decide (e.2 = false ∧ e.1 ≠ self) then {[e.1]} else ∅) ∪ listed self es.
Proof.
  unfold listed. destruct (decide (e.2 = false ∧ e.1 ≠ self)).
  - by rewrite filter_cons_True.
  - rewrite filter_cons_False by done. by rewrite (left_id_L ∅ (∪)).
Qed.

Lemma scan_entries es d seen acts :
  d_peers d = d_cancels d →
  let '(d', seen', acts') := foldl scan_entry (d, seen, acts) es in
  d_self d' = d_self d ∧ d_peers d' = listed (d_self d) es ∪ d_peers d ∧ d_cancels d' = d_peers d' ∧
  seen' = listed (d_self d) es ∪ seen ∧
  ∃ started, acts' = acts ++ (StartPeer <$> started) ∧ NoDup started ∧
    ∀ x, x ∈ started ↔ x ∈ listed (d_self d) es ∧ x ∉ d_peers d.
Proof.
  revert d seen acts. induction es as [|e es IH]; intros d seen acts Hd.
  { cbn. split_and!; [done|set_solver|done|set_solver|]. exists [].
    split_and!; [by rewrite app_nil_r|constructor|]. unfold listed. set_solver. }
  cbn [foldl]. unfold scan_entry at 2. rewrite listed_cons.
  destruct (e.2 || bool_decide (e.1 = d_self d)) eqn:Eskip.
  { rewrite decide_False, (left_id_L ∅ (∪)); [by apply IH|]. intros [He Hne].
    rewrite He in Eskip. by apply bool_decide_eq_true in Eskip. }
  apply orb_false_iff in Eskip as [He Hne%bool_decide_eq_false]. rewrite (decide_True _ _ (conj He Hne)).
  destruct (decide (e.1 ∈ d_peers d)) as [Hin|Hin].
  - specialize (IH d ({[e.1]} ∪ seen) acts Hd). destruct (foldl _ _ es) as [[d' seen'] acts'].
    destruct IH as (H1 & H2 & H3 & H4 & started & H5 & H6 & H7).
    split_and!; [done|rewrite H2; clear -Hin; set_solver|done|rewrite H4; clear; set_solver|].
    exists started. split_and!; [done|done|]. intros x. rewrite H7. clear -Hin. set_solver.
  - specialize (IH (mkDiscovery (d_self d) ({[e.1]} ∪ d_peers d) ({[e.1]} ∪ d_cancels d)) ({[e.1]} ∪ seen)
      (acts ++ [StartPeer e.1])). simpl in IH. rewrite Hd in IH.
    rewrite Hd. destruct (foldl _ _ es) as [[d' seen'] acts'].
    destruct IH as (H1 & H2 & H3 & H4 & started & H5 & H6 & H7); [done|].
    rewrite Hd in Hin. split_and!; [done|rewrite H2; clear; set_solver|done|rewrite H4; clear; set_solver|].
    exists (e.1 :: started). split_and!; [by rewrite H5, <-app_assoc| |].
    + constructor; [|done]. rewrite H7. clear. set_solver.
    + intros x. rewrite elem_of_cons, H7. simpl. rewrite !elem_of_union, elem_of_singleton.
      destruct (decide (x = e.1)) as [->|]; tauto.
Qed.

Lemma cancel_loop seen names d acts :
  NoDup names →
  let '(d', acts') := foldl (cancel_gone seen) (d, acts) names in
  d_self d' = d_self d ∧
  d_peers d' = d_peers d ∖ list_to_set (filter (λ x, x ∉ seen) names) ∧
  d_cancels d' = d_cancels d ∖ list_to_set (filter (λ x, x ∉ seen) names) ∧
  acts' = acts ++ (CancelPeer <$> filter (λ x, x ∉ seen) names).
Proof.
  intros Hnd. revert d acts. induction Hnd as [|n names Hn Hnd IH]; intros d acts.
  { cbn. split_and!; [done|set_solver|set_solver|by rewrite app_nil_r]. }
  cbn [foldl]. unfold cancel_gone at 2. destruct (decide (n ∈ seen)) as [Hin|Hin].
  - rewrite filter_cons_False by tauto. apply IH.
  - rewrite filter_cons_True by done.
    specialize (IH (mkDiscovery (d_self d) (d_peers d ∖ {[n]}) (d_cancels d ∖ {[n]})) (acts ++ [CancelPeer n])).
    destruct (foldl _ _ names) as [d' acts']. simpl in IH. destruct IH as (H1 & H2 & H3 & H4).
    split_and!; [done|rewrite H2; clear; set_solver|rewrite H3; clear; set_solver|].
    by rewrite H4, fmap_cons, <-app_assoc.
Qed.

(** ** The managers of all peers *)

Section Share.
Context {W : Type} `{Registry W}.
Notation proxies := (gmap Listen Proxy).

(** What one manager does in a step. *)
Inductive peer_op :=
  | OpAdd (l : Listen) (bind_ok : bool)
  | OpRemove (l : Listen)
  | OpReconcile (seen : gset Listen)
  | OpStopAll.

Definition do_op (op : peer_op) (st : host W * proxies) : host W * proxies :=
  match op with
  | OpAdd l b => add b l st
  | OpRemove l => remove l st
  | OpReconcile seen => reconcile seen st
  | OpStopAll => stopAll st
  end.

(** The managers by peer name; one that has not proxied anything yet is absent. *)
Definition peer_step (name : string) (op : peer_op) (st : host W * gmap string proxies) : host W * gmap string proxies :=
  let '(w', ps') := do_op op (st.1, default ∅ (st.2 !! name)) in (w', <[name := ps']> st.2).

(** How many managers proxy [l]. *)
Definition proxied (m : gmap string proxies) (l : Listen) : Z :=
  map_fold (λ _ ps n, proxying ps l + n) 0 m.

Lemma proxied_insert m name ps l :
  proxied (<[name := ps]> m) l = proxied m l - proxying (default ∅ (m !! name)) l + proxying ps l.
Proof.
  assert (∀ (m' : gmap string proxies) x, m' !! name = None → proxied (<[name := x]> m') l = proxying x l + proxied m' l) as Hnew.
  { intros m' x Hx. unfold proxied. rewrite map_fold_insert_L; [done| |done]. intros. lia. }
  destruct (m !! name) as [old|] eqn:E.
  - rewrite <-(insert_id m name old E) at 2. rewrite <-!(insert_delete_eq m). rewrite !Hnew by apply lookup_delete_eq.
    simpl. lia.
  - rewrite Hnew by done. simpl. assert (proxying ∅ l = 0) as -> by done. lia.
Qed.

Lemma proxied_nonneg m l : 0 ≤ proxied m l.
Proof.
  unfold proxied. apply (map_fold_weak_ind (λ r _, 0 ≤ r)); [lia|]. intros name ps m' r _ Hr.
  pose proof (proxying_range ps l). lia.
Qed.

Lemma proxied_ge m name l : proxying (default ∅ (m !! name)) l ≤ proxied m l.
Proof.
  pose proof (proxied_insert m name ∅ l) as E. assert (proxying ∅ l = 0) as E0 by done.
  pose proof (proxied_nonneg (<[name := ∅]> m) l). lia.
Qed.

Lemma proxied_pos m l : 0 < proxied m l ↔ ∃ name ps, m !! name = Some ps ∧ l ∈ dom ps.
Proof.
  split.
  - unfold proxied. intros Hpos. revert Hpos.
    apply (map_fold_weak_ind (λ r m', 0 < r → ∃ name ps, m' !! name = Some ps ∧ l ∈ dom ps)); [lia|].
    intros name ps m' r Hn IH Hpos. destruct (decide (l ∈ dom ps)) as [Hl|Hl].
    + exists name, ps. by rewrite lookup_insert_eq.
    + destruct IH as (name' & ps' & Hm & Hin).
      { unfold proxying in Hpos. rewrite decide_False in Hpos by done. lia. }
      exists name', ps'. rewrite lookup_insert_ne; [done|congruence].
  - intros (name & ps & Hm & Hl). pose proof (proxied_ge m name l) as Hge. rewrite Hm in Hge.
    unfold proxying in Hge. simpl in Hge. rewrite decide_True in Hge by done. lia.
Qed.

(** The exclusions count the proxies. *)
Definition counted (st : host W * gmap string proxies) : Prop :=
  (∀ name ps, st.2 !! name = Some ps → own_keys ps) ∧ ∀ l, reg_count (h_watcher st.1) l = proxied st.2 l.

Lemma balanced_op op st : balanced st (do_op op st).
Proof.
  destruct op; simpl; [apply balanced_add|apply balanced_remove|apply balanced_reconcile|apply balanced_stopAll_default].
Qed.

Lemma counted_step name op st : counted st → counted (peer_step name op st).
Proof.
  intros [Hk Hc]. unfold peer_step. set (ps := default ∅ (st.2 !! name)).
  destruct (balanced_op op (st.1, ps)) as (Hk' & He & _).
  - simpl. unfold ps. destruct (st.2 !! name) as [ps0|] eqn:E; [by eapply Hk|by intros l p].
  - intros l. simpl. rewrite Hc. apply proxied_ge.
  - destruct (do_op op (st.1, ps)) as [w' ps']. simpl in *. split.
    + intros n ps0. simpl. rewrite lookup_insert_Some. intros [[_ <-]|[_ ?]]; [done|by eapply Hk].
    + intros l. simpl. rewrite proxied_insert. fold ps. specialize (He l). specialize (Hc l). lia.
Qed.
End Share.

(** ** The container *)

(** The host and the managers. *)
Definition share : Type := host Watcher * gmap string (gmap Listen Proxy).

Inductive share_step : share → share → Prop :=
  | share_scan h m raw next_order current_order :
      (∀ r, raw = Some r → next_order ≡ₚ elements (scan_next (h_watcher h) r)) →
      current_order ≡ₚ elements (w_current (h_watcher h)) →
      share_step (h, m) (on_watcher (scanOnce_in next_order current_order raw) h, m)
  | share_subscribe h m ch snapshot w' :
      Subscribe (h_watcher h) = (ch, snapshot, w') → share_step (h, m) (on_watcher (λ _, w') h, m)
  | share_cancel h m ch : share_step (h, m) (on_watcher (cancel ch) h, m)
  | share_receive h m ch ev w' : receive ch (h_watcher h) = Some (ev, w') → share_step (h, m) (on_watcher (λ _, w') h, m)
  | share_peer h m name op : share_step (h, m) (peer_step name op (h, m)).

Definition share_init : share := (mkHost NewWatcher ∅ ∅, ∅).
Definition share_reachable : share → Prop := rtc share_step share_init.

Lemma scanOnce_excluded no co raw w l :
  excluded_count (scanOnce_in no co raw w) l = excluded_count w l.
Proof.
  unfold scanOnce_in. destruct raw as [raw|]; [|done]. unfold excluded_count. cbn [w_excluded].
  by rewrite (proj2 (publish_removed_static _ _ _)), (proj2 (publish_added_static _ _)).
Qed.

Lemma cancel_excluded ch w l : excluded_count (cancel ch w) l = excluded_count w l.
Proof. unfold cancel. by case_decide. Qed.

Lemma receive_excluded ch w ev w' l : receive ch w = Some (ev, w') → excluded_count w' l = excluded_count w l.
Proof. unfold receive. destruct (w_chans w !! ch) as [[[|e buf] c]|]; [done| |done]. by intros [= <- <-]. Qed.

Lemma share_counted st : share_reachable st → counted (W := Watcher) st.
Proof.
  intros Hr. apply (rtc_invariant share_step (counted (W := Watcher)) _ _) with (2 := Hr).
  - destruct 1 as [h m raw no co _ _|h m ch snapshot w' Hs|h m ch|h m ch ev w' Hrc|h m name op]; intros [Hk Hc].
    5: { by apply counted_step. }
    all: split; [done|]; intros l; rewrite <-Hc; simpl.
    + apply scanOnce_excluded.
    + unfold Subscribe in Hs. by injection Hs as <- <- <-.
    + apply cancel_excluded.
    + by eapply receive_excluded.
  - split; [by intros ? ?|]. intros l. simpl. unfold excluded_count. simpl. by rewrite lookup_empty.
Qed.

(** ** Claims *)

(** C35. In every reachable state of a container, with any number of peers and
    any interleaving, a listen is excluded as often as managers proxy it; so
    after a scan no listen in the list, and hence in no snapshot, is one that a
    manager proxies. *)
Theorem scan_hides_proxied h m raw next_order current_order :
  share_reachable (h, m) →
  next_order ≡ₚ elements (scan_next (h_watcher h) raw) → current_order ≡ₚ elements (w_current (h_watcher h)) →
  let h' := on_watcher (scanOnce_in next_order current_order (Some raw)) h in
  share_reachable (h', m) ∧
  (∀ l, excluded_count (h_watcher h') l = proxied m l) ∧
  ∀ l name ps, l ∈ w_current (h_watcher h') → m !! name = Some ps → l ∉ dom ps.
Proof.
  intros Hr Hno Hco. cbv zeta. assert (share_reachable (on_watcher (scanOnce_in next_order current_order (Some raw)) h, m)) as Hr'.
  { eapply rtc_r; [done|]. apply share_scan; [by intros r [= <-]|done]. }
  split; [done|]. destruct (share_counted _ Hr) as [_ Hc].
  change (∀ l, excluded_count (h_watcher h) l = proxied m l) in Hc. split.
  - intros l. cbn [on_watcher h_watcher]. rewrite scanOnce_excluded. apply Hc.
  - intros l name ps Hl Hm Hin. cbn in Hl. apply elem_of_filter in Hl as [Hex _]. apply Hex.
    rewrite Hc. apply proxied_pos. by exists name, ps.
Qed.

(** A manager proxies a peer's listen; the kernel then lists the proxy's own socket. *)
Definition sample_share : share := peer_step "db" (OpAdd l80 true) share_init.

Lemma sample_share_peers : sample_share.2 = {["db" := {[l80 := mkProxy l80 (Some 0%nat) None 0]}]}.
Proof. reflexivity. Qed.
Lemma sample_share_current : w_current (h_watcher sample_share.1) = ∅.
Proof. reflexivity. Qed.

Lemma scan_hides_proxied_witness :
  let h' := on_watcher (scanOnce_in [] [] (Some {[l80]})) sample_share.1 in
  share_reachable (h', sample_share.2) ∧
  (∀ l, excluded_count (h_watcher h') l = proxied sample_share.2 l) ∧
  ∀ l name ps, l ∈ w_current (h_watcher h') → sample_share.2 !! name = Some ps → l ∉ dom ps.
Proof.
  apply (scan_hides_proxied sample_share.1 sample_share.2 {[l80]} [] []).
  - rewrite <-surjective_pairing. apply rtc_once. apply (share_peer (mkHost NewWatcher ∅ ∅) ∅ "db" (OpAdd l80 true)).
  - assert (scan_next (h_watcher sample_share.1) {[l80]} = ∅) as ->; [|by rewrite elements_empty].
    apply set_eq. intros l. unfold scan_next. rewrite elem_of_filter. split; [|set_solver].
    intros [Hn ->%elem_of_singleton]. exfalso. apply Hn. vm_compute. reflexivity.
  - by rewrite sample_share_current, elements_empty.
Defined.

(** A scan reads [/proc/net] before it takes the lock: if a manager closes
    its proxy in between, the exclusion is gone and the proxy's own listen, that
    the scan has read, is put into the list and advertised to the other peers. *)
Theorem stale_scan_advertises h m name ps l raw next_order current_order :
  share_reachable (h, m) → m !! name = Some ps → l ∈ dom ps → proxied m l = 1 → l ∈ raw →
  let st := peer_step name (OpRemove l) (h, m) in
  next_order ≡ₚ elements (scan_next (h_watcher st.1) raw) → current_order ≡ₚ elements (w_current (h_watcher st.1)) →
  let h' := on_watcher (scanOnce_in next_order current_order (Some raw)) st.1 in
  share_reachable (h', st.2) ∧ l ∈ w_current (h_watcher h').
Proof.
  intros Hr Hm Hl Hone Hraw st Hno Hco.
  assert (share_reachable st) as Hr' by (eapply rtc_r; [done|]; apply share_peer).
  split.
  - eapply rtc_r; [exact Hr'|]. destruct st as [h1 m1]. apply share_scan; [by intros r [= <-]|done].
  - cbn. apply elem_of_filter. split; [|done]. destruct (share_counted _ Hr') as [_ Hc].
    change (∀ l, excluded_count (h_watcher st.1) l = proxied st.2 l) in Hc. rewrite Hc.
    assert (st.2 = <[name := (remove (W := Watcher) l (h, ps)).2]> m) as ->.
    { unfold st, peer_step. simpl. rewrite Hm. cbn [default from_option id]. by destruct (ps !! l). }
    rewrite proxied_insert, Hm, Hone. cbn [default from_option id]. unfold proxying.
    rewrite (decide_True (P := l ∈ dom ps)) by done.
    rewrite dom_remove, decide_False by (cbn [snd]; clear; set_solver). lia.
Qed.

Lemma stale_scan_advertises_witness :
  let st := peer_step "db" (OpRemove l80) sample_share in
  let h' := on_watcher (scanOnce_in [l80] [] (Some {[l80]})) st.1 in
  share_reachable (h', st.2) ∧ l80 ∈ w_current (h_watcher h').
Proof.
  apply (stale_scan_advertises sample_share.1 sample_share.2 "db" {[l80 := mkProxy l80 (Some 0%nat) None 0]} l80 {[l80]} [l80] []).
  - rewrite <-surjective_pairing. apply rtc_once. apply (share_peer (mkHost NewWatcher ∅ ∅) ∅ "db" (OpAdd l80 true)).
  - rewrite sample_share_peers. apply lookup_singleton_eq.
  - rewrite dom_singleton. by apply elem_of_singleton.
  - vm_compute. reflexivity.
  - by apply elem_of_singleton.
  - assert (scan_next (h_watcher (peer_step "db" (OpRemove l80) (sample_share.1, sample_share.2)).1) {[l80]} = {[l80]}) as ->;
      [|by rewrite elements_singleton].
    apply set_eq. intros l. unfold scan_next. rewrite elem_of_filter. split; [by intros [_ ?]|].
    intros Hl. split; [|done]. apply elem_of_singleton in Hl as ->. apply (bool_decide_unpack _). vm_compute. exact I.
  - assert (w_current (h_watcher (peer_step "db" (OpRemove l80) (sample_share.1, sample_share.2)).1) = ∅) as -> by reflexivity.
    by rewrite elements_empty.
Defined.

(** After a scan of the directory the managed peers are exactly the entries
    that are not directories and not the container itself; a manager was
    started, once, for each that is new, and the managers of those that are
    gone were cancelled, once each. *)
Theorem scan_dir_tracks es order d :
  d_peers d = d_cancels d → (∀ s, order s ≡ₚ elements s) →
  let '(d', acts) := scan_dir (Some es) order d in
  d_peers d' = listed (d_self d) es ∧ d_cancels d' = d_peers d' ∧ d_self d' = d_self d ∧
  ∃ started cancelled, acts = (StartPeer <$> started) ++ (CancelPeer <$> cancelled) ∧
    NoDup started ∧ NoDup cancelled ∧
    (∀ x, x ∈ started ↔ x ∈ listed (d_self d) es ∧ x ∉ d_peers d) ∧
    (∀ x, x ∈ cancelled ↔ x ∈ d_peers d ∧ x ∉ listed (d_self d) es).
Proof.
  intros Hd Ho. unfold scan_dir. pose proof (scan_entries es d ∅ [] Hd) as He.
  destruct (foldl scan_entry (d, ∅, []) es) as [[d1 seen] acts1].
  destruct He as (H1 & H2 & H3 & H4 & started & H5 & H6 & H7). rewrite (right_id_L ∅ (∪)) in H4.
  assert (NoDup (order (d_cancels d1))) as Hnd by (rewrite Ho; apply NoDup_elements).
  pose proof (cancel_loop seen (order (d_cancels d1)) d1 acts1 Hnd) as Hc.
  destruct (foldl (cancel_gone seen) (d1, acts1) _) as [d2 acts2]. destruct Hc as (C1 & C2 & C3 & C4).
  set (cancelled := filter (λ x, x ∉ seen) (order (d_cancels d1))) in *.
  assert (∀ x, x ∈ cancelled ↔ x ∈ d_peers d ∧ x ∉ listed (d_self d) es) as Hcan.
  { intros x. unfold cancelled. rewrite list_elem_of_filter, Ho, elem_of_elements, H3, H2, H4, elem_of_union.
    destruct (decide (x ∈ listed (d_self d) es)); tauto. }
  split_and!.
  - rewrite C2. apply set_eq. intros x. rewrite elem_of_difference, elem_of_list_to_set, Hcan, H2, elem_of_union.
    destruct (decide (x ∈ listed (d_self d) es)); tauto.
  - by rewrite C3, C2, H3.
  - by rewrite C1.
  - exists started, cancelled. split_and!; [by rewrite C4, H5|done|by apply NoDup_filter|done|done].
Qed.

Lemma scan_dir_tracks_witness :
  let d := mkDiscovery "web" {["db"]} {["db"]} in
  let '(d', acts) := scan_dir (Some [("cache", false); ("tmp", true); ("web", false)]) elements d in
  d_peers d' = listed "web" [("cache", false); ("tmp", true); ("web", false)] ∧ d_cancels d' = d_peers d' ∧ d_self d' = "web" ∧
  ∃ started cancelled, acts = (StartPeer <$> started) ++ (CancelPeer <$> cancelled) ∧
    NoDup started ∧ NoDup cancelled ∧
    (∀ x, x ∈ started ↔ x ∈ listed "web" [("cache", false); ("tmp", true); ("web", false)] ∧ x ∉ d_peers d) ∧
    (∀ x, x ∈ cancelled ↔ x ∈ d_peers d ∧ x ∉ listed "web" [("cache", false); ("tmp", true); ("web", false)]).
Proof.
  apply (scan_dir_tracks [("cache", false); ("tmp", true); ("web", false)] elements (mkDiscovery "web" {["db"]} {["db"]}));
    [reflexivity|done].
Defined.
