(* ===== verification/LoUdp.v ===== *)
(** * UDP sessions of a proxy: [udpLoop], [udpReturnLoop] and
    [reapIdleSessions] of [internal/lo/proxy.go]

    The three kinds of goroutines share the map of sessions; each step is what
    one of them does under the lock, or one of its I/O operations, in any
    order.  Time is in nanoseconds. *)

From S2P Require Import Prelude GoStrings LoTypes LoPeer.

Definition udpSessionIdle : Z := 120 * 1000000000.
Definition udpSessionSweep : Z := 30 * 1000000000.


(** [udpSession]: tunnels are numbered, so a session is known by its tunnel. *)
Record udpSession := mkSession {
  us_tunnel : nat;
  us_lastActive : Z;
}.

Record tunnel := mkTunnel {
  tn_key : string; (* the client it was dialled for *)
  tn_open : bool;
  tn_sent : list payload; (* frames written to it *)
}.

(** What [udpLoop] is doing: reading, writing a datagram to the tunnel of the
    session it looked up, or finished. *)
Inductive loop_pc :=
  | LRead
  | LWrite (key : string) (tid : nat) (data : payload)
  | LDone.

(** [u_log] records the datagrams accepted so far, with their source. *)
Record udp := mkUdp {
  u_sessions : gmap string udpSession;
  u_tunnels : gmap nat tunnel;
  u_pc : loop_pc;
  u_log : list (string * payload);
}.

Definition udp_init : udp := mkUdp ∅ ∅ LRead [].

Definition close_tunnel (tid : nat) (ts : gmap nat tunnel) : gmap nat tunnel :=
  alter (λ t, mkTunnel (tn_key t) false (tn_sent t)) tid ts.

(** Closing the tunnels of all of [ss], in whatever order they are ranged over. *)
Definition tunnel_ids (ss : gmap string udpSession) : gset nat :=
  list_to_set ((λ kv, us_tunnel kv.2) <$> map_to_list ss).
Definition close_tunnels (ss : gmap string udpSession) (ts : gmap nat tunnel) : gmap nat tunnel :=
  map_imap (λ tid t, Some (if decide (tid ∈ tunnel_ids ss) then mkTunnel (tn_key t) false (tn_sent t) else t)) ts.

(** [if sessions[key] == sess { delete(sessions, key) }]. *)
Definition forget (key : string) (tid : nat) (ss : gmap string udpSession) : gmap string udpSession :=
  match ss !! key with
  | Some s => if decide (us_tunnel s = tid) then delete key ss else ss
  | None => ss
  end.

(** [udpLoop] from [ReadFrom] to the unlock: [dialled] says whether
    [dialConnect] succeeds, if it is called. *)
Definition receive_datagram (p : Proxy) (key : string) (data : payload) (now : Z) (dialled : bool) (u : udp) : udp :=
  if rejectsRemote p key then u
  else
    match u_sessions u !! key with
    | Some s =>
        mkUdp (<[key := mkSession (us_tunnel s) now]> (u_sessions u)) (u_tunnels u)
          (LWrite key (us_tunnel s) data) (u_log u ++ [(key, data)])
    | None =>
        if dialled then
          let tid := fresh (dom (u_tunnels u)) in
          mkUdp (<[key := mkSession tid now]> (u_sessions u)) (<[tid := mkTunnel key true []]> (u_tunnels u))
            (LWrite key tid data) (u_log u ++ [(key, data)])
        else u
    end.

(** The rest of the turn: [writeFrame], which fails on a closed tunnel. *)
Definition write_datagram (key : string) (tid : nat) (data : payload) (ok : bool) (u : udp) : udp :=
  if ok then
    mkUdp (u_sessions u) (alter (λ t, mkTunnel (tn_key t) (tn_open t) (tn_sent t ++ [data])) tid (u_tunnels u)) LRead (u_log u)
  else mkUdp (forget key tid (u_sessions u)) (close_tunnel tid (u_tunnels u)) LRead (u_log u).

(** [ReadFrom] fails: every session's tunnel is closed and the loop ends. *)
Definition read_error (u : udp) : udp :=
  mkUdp (u_sessions u) (close_tunnels (u_sessions u) (u_tunnels u)) LDone (u_log u).

(** [udpReturnLoop]: a frame came back, or the tunnel or the socket failed. *)
Definition return_frame (key : string) (tid : nat) (now : Z) (u : udp) : udp :=
  match u_sessions u !! key with
  | Some s => if decide (us_tunnel s = tid)
              then mkUdp (<[key := mkSession tid now]> (u_sessions u)) (u_tunnels u) (u_pc u) (u_log u) else u
  | None => u
  end.
Definition return_end (key : string) (tid : nat) (u : udp) : udp :=
  mkUdp (forget key tid (u_sessions u)) (close_tunnel tid (u_tunnels u)) (u_pc u) (u_log u).

(** One tick of [reapIdleSessions]. *)
Definition idle (now : Z) (s : udpSession) : Prop := us_lastActive s < now - udpSessionIdle.
#[export] Instance idle_dec now s : Decision (idle now s).
Proof. unfold idle. apply _. Defined.

Definition reapIdle (now : Z) (u : udp) : udp :=
  mkUdp (filter (λ kv, ¬ idle now kv.2) (u_sessions u))
    (close_tunnels (filter (λ kv, idle now kv.2) (u_sessions u)) (u_tunnels u))
    (u_pc u) (u_log u).

Section Steps.
Context (p : Proxy).

Inductive udp_step : udp → udp → Prop :=
  | udp_receive key data now dialled u :
      u_pc u = LRead → udp_step u (receive_datagram p key data now dialled u)
  | udp_write key tid data ok u :
      u_pc u = LWrite key tid data →
      (ok = true → ∃ t, u_tunnels u !! tid = Some t ∧ tn_open t = true) →
      udp_step u (write_datagram key tid data ok u)
  | udp_read_error u : u_pc u = LRead → udp_step u (read_error u)
  | udp_return_frame t tid now u :
      u_tunnels u !! tid = Some t → udp_step u (return_frame (tn_key t) tid now u)
  | udp_return_end t tid u :
      (* there is a return loop for every tunnel dialled *)
      u_tunnels u !! tid = Some t → udp_step u (return_end (tn_key t) tid u)
  | udp_reap now u : udp_step u (reapIdle now u).

Definition udp_reachable : udp → Prop := rtc udp_step udp_init.

(** The payloads that came from [key]. *)
Definition from_client (key : string) (log : list (string * payload)) : list payload :=
  (filter (λ e, e.1 = key) log).*2.

(** The log without the datagram being written. *)
Definition written_log (u : udp) (old : list (string * payload)) : Prop :=
  match u_pc u with
  | LWrite key _ data => u_log u = old ++ [(key, data)]
  | _ => u_log u = old
  end.

Record udp_inv (u : udp) : Prop := {
  ui_session : ∀ key s, u_sessions u !! key = Some s →
    ∃ t, u_tunnels u !! us_tunnel s = Some t ∧ tn_key t = key ∧ (u_pc u ≠ LDone → tn_open t = true);
  ui_open : ∀ tid t, u_tunnels u !! tid = Some t → tn_open t = true →
    u_pc u ≠ LDone ∧ ∃ s, u_sessions u !! tn_key t = Some s ∧ us_tunnel s = tid;
  ui_write : ∀ key tid data, u_pc u = LWrite key tid data → ∃ t, u_tunnels u !! tid = Some t ∧ tn_key t = key;
  ui_sent : ∃ old, written_log u old ∧
    ∀ tid t, u_tunnels u !! tid = Some t → tn_sent t `sublist_of` from_client (tn_key t) old;
}.

(** *** Closing tunnels *)

Lemma close_lookup tid ts x t :
  close_tunnel tid ts !! x = Some t ↔
  ∃ t0, ts !! x = Some t0 ∧ t = (if decide (x = tid) then mkTunnel (tn_key t0) false (tn_sent t0) else t0).
Proof.
  unfold close_tunnel. destruct (decide (x = tid)) as [->|Hne].
  - rewrite lookup_alter_eq, fmap_Some. naive_solver.
  - rewrite lookup_alter_ne by done. naive_solver.
Qed.

Lemma elem_of_tunnel_ids ss x : x ∈ tunnel_ids ss ↔ ∃ key s, ss !! key = Some s ∧ us_tunnel s = x.
Proof.
  unfold tunnel_ids. rewrite elem_of_list_to_set, list_elem_of_fmap. split.
  - intros ([k s] & -> & H%elem_of_map_to_list). eauto.
  - intros (k & s & H & <-). exists (k, s). by rewrite elem_of_map_to_list.
Qed.

Lemma close_tunnels_lookup ss ts x t :
  close_tunnels ss ts !! x = Some t ↔
  ∃ t0, ts !! x = Some t0 ∧ t = (if decide (x ∈ tunnel_ids ss) then mkTunnel (tn_key t0) false (tn_sent t0) else t0).
Proof.
  unfold close_tunnels. rewrite map_lookup_imap. destruct (ts !! x) as [t0|]; simpl; split.
  - intros [= <-]. eauto.
  - by intros (t1 & [= <-] & ->).
  - done.
  - by intros (? & ? & _).
Qed.

Lemma forget_lookup key tid ss k s :
  forget key tid ss !! k = Some s ↔ ss !! k = Some s ∧ ¬ (k = key ∧ us_tunnel s = tid).
Proof.
  unfold forget. destruct (ss !! key) as [s0|] eqn:E; [destruct (decide (us_tunnel s0 = tid)) as [Ht|Ht]|].
  - rewrite lookup_delete_Some. split; [|intros [H Hn]]; [naive_solver|].
    split; [|done]. intros <-. apply Hn. by simplify_eq.
  - naive_solver.
  - naive_solver.
Qed.

Lemma from_client_snoc key log k data :
  from_client key (log ++ [(k, data)]) = from_client key log ++ (if decide (k = key) then [data] else []).
Proof.
  unfold from_client. rewrite filter_app, fmap_app. f_equal. destruct (decide (k = key)).
  - by rewrite filter_cons_True.
  - by rewrite filter_cons_False.
Qed.

Lemma sent_grows key old k data : from_client key old `sublist_of` from_client key (old ++ [(k, data)]).
Proof. rewrite from_client_snoc. by apply sublist_inserts_r. Qed.

(** *** The steps keep the invariant *)

Lemma udp_inv_init : udp_inv udp_init.
Proof.
  split.
  - intros key s H. unfold udp_init in H. cbn [u_sessions] in H. by rewrite lookup_empty in H.
  - intros tid t H. unfold udp_init in H. cbn [u_tunnels] in H. by rewrite lookup_empty in H.
  - done.
  - exists []. split; [done|]. intros tid t H. unfold udp_init in H. cbn [u_tunnels] in H. by rewrite lookup_empty in H.
Qed.

Lemma udp_inv_receive key data now dialled u :
  u_pc u = LRead → udp_inv u → udp_inv (receive_datagram p key data now dialled u).
Proof.
  intros Hpc Hinv. pose proof Hinv as [Hs Ho Hw (old & Hlog & Hsent)].
  unfold written_log in Hlog. rewrite Hpc in Hlog. unfold receive_datagram.
  destruct (rejectsRemote p key); [done|]. destruct (u_sessions u !! key) as [s|] eqn:Es.
  - destruct (Hs key s Es) as (t & Ht & Hk & Hopen). split; simpl.
    + intros k s'. rewrite lookup_insert_Some. intros [[<- <-]|[_ Hk']]; simpl.
      * exists t. split_and!; [done|done|]. intros _. apply Hopen. by rewrite Hpc.
      * destruct (Hs k s' Hk') as (t' & ? & ? & Ho'). exists t'. split_and!; [done..|]. intros _. apply Ho'. by rewrite Hpc.
    + intros tid t' Ht' Hop. split; [done|]. destruct (Ho tid t' Ht' Hop) as [_ (s' & Hs' & <-)].
      destruct (decide (tn_key t' = key)) as [E|Hne].
      * rewrite E in *. rewrite lookup_insert_eq. eexists; split; [done|]. simpl. congruence.
      * rewrite lookup_insert_ne by done. eauto.
    + intros k tid d [= <- <- <-]. eauto.
    + exists (u_log u). split; [done|]. by rewrite Hlog.
  - destruct dialled; [|done]. set (tid := fresh (dom (u_tunnels u))).
    assert (u_tunnels u !! tid = None) as Hfresh by (apply not_elem_of_dom, is_fresh).
    split; simpl.
    + intros k s'. rewrite lookup_insert_Some. intros [[<- <-]|[Hne Hk']]; simpl.
      * exists (mkTunnel key true []). by rewrite lookup_insert_eq.
      * destruct (Hs k s' Hk') as (t' & Ht' & ? & Ho'). exists t'. rewrite lookup_insert_ne by congruence.
        split_and!; [done..|]. intros _. apply Ho'. by rewrite Hpc.
    + intros x t'. rewrite lookup_insert_Some. intros [[<- <-]|[Hne Ht']] Hop; simpl; (split; [done|]).
      * rewrite lookup_insert_eq. eauto.
      * destruct (Ho x t' Ht' Hop) as [_ (s' & Hs' & <-)]. exists s'. rewrite lookup_insert_ne; [done|congruence].
    + intros k x d [= <- <- <-]. exists (mkTunnel key true []). by rewrite lookup_insert_eq.
    + exists (u_log u). split; [done|]. intros x t'. rewrite lookup_insert_Some.
      intros [[<- <-]|[_ Ht']]; [apply sublist_nil_l|]. rewrite Hlog. by apply (Hsent x).
Qed.

Lemma udp_inv_write key tid data ok u :
  u_pc u = LWrite key tid data →
  (ok = true → ∃ t, u_tunnels u !! tid = Some t ∧ tn_open t = true) →
  udp_inv u → udp_inv (write_datagram key tid data ok u).
Proof.
  intros Hpc Hok [Hs Ho Hw (old & Hlog & Hsent)]. destruct (Hw _ _ _ Hpc) as (t & Ht & Hk).
  unfold written_log in Hlog. rewrite Hpc in Hlog. unfold write_datagram. destruct ok.
  - assert (∀ x t', alter (λ t, mkTunnel (tn_key t) (tn_open t) (tn_sent t ++ [data])) tid (u_tunnels u) !! x = Some t' →
      ∃ t0, u_tunnels u !! x = Some t0 ∧ tn_key t' = tn_key t0 ∧ tn_open t' = tn_open t0 ∧
        (x = tid ∧ tn_sent t' = tn_sent t0 ++ [data] ∨ tn_sent t' = tn_sent t0)) as Halt.
    { intros x t'. rewrite lookup_alter_Some. intros [(<- & t0 & ? & ->)|[_ ?]]; [|by exists t'; auto].
      exists t0. simpl. split_and!; [done..|by left]. }
    split; simpl.
    + intros k s Hk'. destruct (Hs k s Hk') as (t0 & Ht0 & ? & Hop).
      destruct (decide (us_tunnel s = tid)) as [E|E].
      * rewrite E in *. rewrite lookup_alter_eq, Ht0. eexists; split; [done|]. simpl. split; [done|].
        intros _. apply Hop. by rewrite Hpc.
      * exists t0. rewrite lookup_alter_ne by done. split_and!; [done..|]. intros _. apply Hop. by rewrite Hpc.
    + intros x t' (t0 & Ht0 & -> & -> & _)%Halt Hop. split; [done|]. by apply (Ho x t0).
    + done.
    + exists (u_log u). split; [done|]. intros x t' (t0 & Ht0 & -> & _ & Hsn)%Halt. rewrite Hlog.
      destruct Hsn as [[-> ->]| ->].
      * rewrite Ht in Ht0. injection Ht0 as <-. rewrite from_client_snoc, decide_True by done.
        apply sublist_app; [by apply (Hsent tid)|done].
      * etrans; [by apply (Hsent x)|]. apply sent_grows.
  - split; simpl.
    + intros k s [Hk' Hn]%forget_lookup. destruct (Hs k s Hk') as (t0 & Ht0 & Hk0 & Hop).
      assert (us_tunnel s ≠ tid) as Hne.
      { intros E. apply Hn. split; [|done]. rewrite E, Ht in Ht0. injection Ht0 as <-. congruence. }
      exists t0. split_and!; [|done|intros _; apply Hop; by rewrite Hpc].
      apply close_lookup. exists t0. by rewrite decide_False.
    + intros x t' (t0 & Ht0 & ->)%close_lookup Hop. split; [done|].
      destruct (decide (x = tid)) as [->|Hne]; [done|]. destruct (Ho x t0 Ht0 Hop) as [_ (s & Hs' & <-)].
      exists s. split; [|done]. apply forget_lookup. split; [done|]. by intros [_ ?].
    + done.
    + exists (u_log u). split; [done|]. intros x t' (t0 & Ht0 & ->)%close_lookup. rewrite Hlog.
      etrans; [|apply sent_grows]. case_decide; by apply (Hsent x t0).
Qed.

(** Closing tunnels along with their sessions. *)
Lemma udp_inv_close u ss ts :
  udp_inv u →
  (∀ k s, ss !! k = Some s → u_sessions u !! k = Some s ∧ u_tunnels u !! us_tunnel s = ts !! us_tunnel s) →
  (∀ x t, ts !! x = Some t → ∃ t0, u_tunnels u !! x = Some t0 ∧ tn_key t = tn_key t0 ∧ tn_sent t = tn_sent t0 ∧
     (tn_open t = true → tn_open t0 = true ∧ ∀ s, u_sessions u !! tn_key t = Some s → us_tunnel s = x → ss !! tn_key t = Some s)) →
  (∀ x, is_Some (u_tunnels u !! x) → is_Some (ts !! x)) →
  udp_inv (mkUdp ss ts (u_pc u) (u_log u)).
Proof.
  intros [Hs Ho Hw (old & Hlog & Hsent)] Hss Hts Hdom. split; simpl.
  - intros k s [Hk Ht]%Hss. destruct (Hs k s Hk) as (t & Ht0 & ?). exists t. by rewrite <-Ht.
  - intros x t Ht Hop. destruct (Hts x t Ht) as (t0 & Ht0 & Hk & _ & Ho'). destruct (Ho' Hop) as [Hop0 Hkeep].
    destruct (Ho x t0 Ht0 Hop0) as [? (s & Hs' & Hx)]. split; [done|]. exists s. split; [|done].
    apply Hkeep; [by rewrite Hk|done].
  - intros k x d Hpc. destruct (Hw k x d Hpc) as (t0 & Ht0 & Hk). destruct (Hdom x) as [t Ht]; [by exists t0|].
    exists t. split; [done|]. destruct (Hts x t Ht) as (t1 & Ht1 & Hk1 & _). rewrite Hk1. congruence.
  - exists old. split; [done|]. intros x t Ht. destruct (Hts x t Ht) as (t0 & Ht0 & -> & -> & _). by apply (Hsent x).
Qed.

Lemma udp_step_inv u u' : udp_step u u' → udp_inv u → udp_inv u'.
Proof.
  destruct 1 as [key data now dialled u Hpc|key tid data ok u Hpc Hok|u Hpc|t tid now u Ht|t tid u Ht|now u]; intros Hinv.
  - by apply udp_inv_receive.
  - by apply udp_inv_write.
  - destruct Hinv as [Hs Ho Hw (old & Hlog & Hsent)]. unfold read_error. split; simpl.
    + intros k s Hk. destruct (Hs k s Hk) as (t & Ht & Hkey & _). exists (mkTunnel (tn_key t) false (tn_sent t)).
      split; [|by split]. apply close_tunnels_lookup. exists t. split; [done|].
      rewrite decide_True; [done|]. apply elem_of_tunnel_ids. eauto.
    + intros x t (t0 & Ht0 & ->)%close_tunnels_lookup. case_decide as Hin; [done|]. intros Hop.
      destruct (Ho x t0 Ht0 Hop) as [_ (s & Hs' & Hx)]. exfalso. apply Hin, elem_of_tunnel_ids. eauto.
    + done.
    + exists (u_log u). split; [done|]. unfold written_log in Hlog. rewrite Hpc in Hlog.
      intros x t (t0 & Ht0 & ->)%close_tunnels_lookup. rewrite Hlog. case_decide; by apply (Hsent x t0).
  - unfold return_frame. destruct (u_sessions u !! tn_key t) as [s|] eqn:Es; [|done].
    destruct (decide (us_tunnel s = tid)) as [<-|]; [|done].
    destruct Hinv as [Hs Ho Hw Hlog]. split; simpl; [| |done|done].
    + intros k s'. rewrite lookup_insert_Some. intros [[<- <-]|[_ Hk]]; [|by apply Hs]. simpl. by apply Hs.
    + intros x t' Ht' Hop. destruct (Ho x t' Ht' Hop) as [? (s' & Hs' & <-)]. split; [done|].
      destruct (decide (tn_key t' = tn_key t)) as [E|E].
      * rewrite E, lookup_insert_eq. eexists; split; [done|]. simpl. rewrite E in Hs'. congruence.
      * rewrite lookup_insert_ne by done. eauto.
  - unfold return_end. pose proof Hinv as [Hs _ _ _]. apply udp_inv_close; [done|..].
    + intros k s [Hk Hn]%forget_lookup. split; [done|]. unfold close_tunnel. rewrite lookup_alter_ne; [done|].
      intros E. destruct (Hs k s Hk) as (t0 & Ht0 & Hk0 & _). rewrite <-E, Ht in Ht0. apply Hn. split; congruence.
    + intros x t' (t0 & Ht0 & ->)%close_lookup. exists t0. case_decide as E; simpl; split_and!; try done.
      intros Hop. split; [done|]. intros s Hs' Hx. apply forget_lookup. split; [done|]. intros [_ ?]. congruence.
    + intros x. unfold close_tunnel. by rewrite lookup_alter_is_Some.
  - unfold reapIdle. pose proof Hinv as [Hs _ _ _]. apply udp_inv_close; [done|..].
    + intros k s Hk. apply map_lookup_filter_Some in Hk as [Hk Hid]. split; [done|].
      destruct (Hs k s Hk) as (t & Ht & Hkt & _). rewrite Ht. symmetry. apply close_tunnels_lookup. exists t. split; [done|].
      rewrite decide_False; [done|]. intros (k' & s' & Hf & E)%elem_of_tunnel_ids.
      apply map_lookup_filter_Some in Hf as [Hk' Hid']. destruct (Hs k' s' Hk') as (t' & Ht' & Hkt' & _).
      rewrite E in Ht'. simplify_eq. by apply Hid.
    + intros x t (t0 & Ht0 & ->)%close_tunnels_lookup. exists t0. case_decide as Hin; simpl; split_and!; try done.
      intros Hop. split; [done|]. intros s Hs' Hx. apply map_lookup_filter_Some. split; [done|]. intros Hid.
      apply Hin, elem_of_tunnel_ids. exists (tn_key t0), s. split; [|done]. by apply map_lookup_filter_Some.
    + intros x [t Ht]. eexists. apply close_tunnels_lookup. eauto.
Qed.

Lemma udp_reachable_inv u : udp_reachable u → udp_inv u.
Proof. intros Hr. apply (rtc_invariant udp_step udp_inv _ _ udp_step_inv Hr), udp_inv_init. Qed.
End Steps.

(** ** Claims *)

(** C37. Whatever the interleaving of the receiving loop, the return loops and
    the reaper: what is written to a tunnel are datagrams of the one client it
    was dialled for, each at most once and in the order they were received; an
    open tunnel is always the one of its client's session, so none is left
    behind; and once the receiving loop has ended every tunnel is closed. *)
Theorem udp_sessions_isolated p u :
  udp_reachable p u →
  (∀ tid t, u_tunnels u !! tid = Some t →
     tn_sent t `sublist_of` from_client (tn_key t) (u_log u) ∧
     (tn_open t = true → ∃ s, u_sessions u !! tn_key t = Some s ∧ us_tunnel s = tid)) ∧
  (∀ key s, u_sessions u !! key = Some s → ∃ t, u_tunnels u !! us_tunnel s = Some t ∧ tn_key t = key) ∧
  (u_pc u = LDone → ∀ tid t, u_tunnels u !! tid = Some t → tn_open t = false).
Proof.
  intros Hr. destruct (udp_reachable_inv p u Hr) as [Hs Ho Hw (old & Hlog & Hsent)]. split_and!.
  - intros tid t Ht. split; [|intros Hop; by apply (Ho tid t Ht Hop)].
    etrans; [by apply (Hsent tid)|]. unfold written_log in Hlog. destruct (u_pc u); rewrite Hlog; [done|apply sent_grows|done].
  - intros key s Hk. destruct (Hs key s Hk) as (t & ? & ? & _). eauto.
  - intros Hpc tid t Ht. destruct (tn_open t) eqn:Hop; [|done]. by destruct (Ho tid t Ht Hop) as [? _].
Qed.

Definition sample_proxy : Proxy := mkProxy (mkListen V4 UDP "127.0.0.1" 53) None (Some 0%nat) 0.
Definition sample_udp : udp :=
  write_datagram "127.0.0.1:9" 0 [x01] true (receive_datagram sample_proxy "127.0.0.1:9" [x01] 5 true udp_init).

Lemma sample_udp_reachable : udp_reachable sample_proxy sample_udp.
Proof.
  eapply rtc_l; [by apply (udp_receive sample_proxy "127.0.0.1:9" [x01] 5 true)|].
  apply rtc_once. apply udp_write; [vm_compute; reflexivity|]. intros _. exists (mkTunnel "127.0.0.1:9" true []). vm_compute. done.
Qed.

Lemma udp_sessions_isolated_witness :
  is_Some (u_tunnels sample_udp !! 0%nat) ∧
  ∀ tid t, u_tunnels sample_udp !! tid = Some t →
     tn_sent t `sublist_of` from_client (tn_key t) (u_log sample_udp) ∧
     (tn_open t = true → ∃ s, u_sessions sample_udp !! tn_key t = Some s ∧ us_tunnel s = tid).
Proof.
  split; [vm_compute; by eexists|].
  apply (udp_sessions_isolated sample_proxy sample_udp), sample_udp_reachable.
Defined.

(** A sweep closes and forgets exactly the sessions without traffic for two
    minutes: those are gone and their tunnels closed, all others stay as they
    were with their tunnels. *)
Theorem reap_only_idle p u now :
  udp_reachable p u →
  (∀ key s, u_sessions (reapIdle now u) !! key = Some s ↔
     u_sessions u !! key = Some s ∧ now - udpSessionIdle ≤ us_lastActive s) ∧
  (∀ key s, u_sessions u !! key = Some s →
     if decide (idle now s) then ∃ t, u_tunnels (reapIdle now u) !! us_tunnel s = Some t ∧ tn_open t = false
     else u_tunnels (reapIdle now u) !! us_tunnel s = u_tunnels u !! us_tunnel s).
Proof.
  intros Hr. destruct (udp_reachable_inv p u Hr) as [Hs _ _ _]. split.
  - intros key s. unfold reapIdle. simpl. rewrite map_lookup_filter_Some. unfold idle. simpl.
    split; intros [? ?]; (split; [done|lia]).
  - intros key s Hk. destruct (Hs key s Hk) as (t & Ht & Hkt & _). simpl. case_decide as Hid.
    + exists (mkTunnel (tn_key t) false (tn_sent t)). split; [|done]. apply close_tunnels_lookup. exists t.
      split; [done|]. rewrite decide_True; [done|]. apply elem_of_tunnel_ids. exists key, s. split; [|done].
      by apply map_lookup_filter_Some.
    + rewrite Ht. apply close_tunnels_lookup. exists t. split; [done|].
      rewrite decide_False; [done|]. intros (k' & s' & Hf & E)%elem_of_tunnel_ids.
      apply map_lookup_filter_Some in Hf as [Hk' Hid']. destruct (Hs k' s' Hk') as (t' & Ht' & Hkt' & _).
      rewrite E in Ht'. simplify_eq. by apply Hid.
Qed.

Lemma reap_only_idle_witness :
  is_Some (u_sessions sample_udp !! "127.0.0.1:9") ∧
  ∀ key s, u_sessions (reapIdle 10 sample_udp) !! key = Some s ↔
     u_sessions sample_udp !! key = Some s ∧ 10 - udpSessionIdle ≤ us_lastActive s.
Proof.
  split; [vm_compute; by eexists|].
  apply (reap_only_idle sample_proxy sample_udp 10), sample_udp_reachable.
Defined.
