(* ===== verification/LoUdpPipe.v ===== *)
(** * internal/lo: forwarding datagrams

    [pipeUDPServer] of [pipe.go]: two goroutines between a tunnel, which carries
    frames ([LoFrame]), and a connected UDP socket, as interleaved steps, and the
    [sync.Once] that closes both ends. *)

From S2P Require Import Prelude Platform LoFrame.

(** Where a goroutine is: reading, about to write what it read, or returned. *)
Inductive udp_pc :=
  | URead
  | UWrite (m : payload)
  | UDone.

(** The socket: datagrams that wait to be read, those read, and those sent on it.
    The tunnel: bytes that wait to be read (and whether more will come), those
    read, and those written to it.  [closeBoth] closes the two together. *)
Record udp_pipe := mkUdpPipe {
  up_waiting : list payload;
  up_read : list payload;
  up_sent : list payload;
  up_arrived : payload;
  up_eof : bool;
  up_taken : payload;
  up_written : payload;
  up_closed : bool;
  up_out : udp_pc; (* from the socket to the tunnel *)
  up_in : udp_pc; (* from the tunnel to the socket *)
}.

Definition udp_pipe_init : udp_pipe := mkUdpPipe [] [] [] [] false [] [] false URead URead.

(** A goroutine returns: [closeBoth]. *)
Definition out_returns (p : udp_pipe) : udp_pipe :=
  mkUdpPipe (up_waiting p) (up_read p) (up_sent p) (up_arrived p) (up_eof p) (up_taken p) (up_written p) true UDone (up_in p).
Definition in_returns (p : udp_pipe) : udp_pipe :=
  mkUdpPipe (up_waiting p) (up_read p) (up_sent p) (up_arrived p) (up_eof p) (up_taken p) (up_written p) true (up_out p) UDone.

(** [target.Read(buf)] yields a datagram, cut to the buffer. *)
Definition out_reads (m : payload) (waiting : list payload) (p : udp_pipe) : udp_pipe :=
  mkUdpPipe waiting (up_read p ++ [m]) (up_sent p) (up_arrived p) (up_eof p) (up_taken p) (up_written p) (up_closed p)
    (UWrite (take maxDatagram m)) (up_in p).

(** [writeFrame(tunnel, _)] on a tunnel that takes [room] more bytes. *)
Definition out_writes (room : option nat) (m : payload) (p : udp_pipe) : udp_pipe :=
  let '(w, err) := writeFrame (mkWriter (up_written p) room) m in
  let p' := mkUdpPipe (up_waiting p) (up_read p) (up_sent p) (up_arrived p) (up_eof p) (up_taken p) (w_out w) (up_closed p) URead (up_in p) in
  if err then out_returns p' else p'.

(** [readFrame(tunnel, buf)] once it can answer.  Should it panic, on 386, then
    [closeBoth] runs as the goroutine's deferred call all the same, before the
    panic ends peel. *)
Definition in_reads {a : GOARCH} (p : udp_pipe) : udp_pipe :=
  match readFrame (mkReader (up_arrived p) (up_eof p)) maxDatagram with
  | (Ok frame, r) =>
      mkUdpPipe (up_waiting p) (up_read p) (up_sent p) (r_data r) (up_eof p)
        (up_taken p ++ take (length (up_arrived p) - length (r_data r)) (up_arrived p)) (up_written p) (up_closed p)
        (up_out p) (UWrite frame)
  | (Err _, _) => in_returns p
  end.

(** [target.Write(frame)]. *)
Definition in_writes (m : payload) (p : udp_pipe) : udp_pipe :=
  mkUdpPipe (up_waiting p) (up_read p) (up_sent p ++ [m]) (up_arrived p) (up_eof p) (up_taken p) (up_written p) (up_closed p)
    (up_out p) URead.

(** What the network does. *)
Definition datagram_arrives (m : payload) (p : udp_pipe) : udp_pipe :=
  mkUdpPipe (up_waiting p ++ [m]) (up_read p) (up_sent p) (up_arrived p) (up_eof p) (up_taken p) (up_written p) (up_closed p) (up_out p) (up_in p).
Definition bytes_arrive (data : payload) (eof : bool) (p : udp_pipe) : udp_pipe :=
  mkUdpPipe (up_waiting p) (up_read p) (up_sent p) (up_arrived p ++ data) eof (up_taken p) (up_written p) (up_closed p) (up_out p) (up_in p).

(** [readFrame] waits for a whole frame as long as more may come; on a closed
    connection every call fails. *)
Inductive udp_pipe_step {a : GOARCH} : udp_pipe → udp_pipe → Prop :=
  | up_out_read p m waiting :
      up_out p = URead → up_closed p = false → up_waiting p = m :: waiting → udp_pipe_step p (out_reads m waiting p)
  | up_out_read_error p : up_out p = URead → udp_pipe_step p (out_returns p)
  | up_out_write p m room : up_out p = UWrite m → up_closed p = false → udp_pipe_step p (out_writes room m p)
  | up_out_write_error p m : up_out p = UWrite m → udp_pipe_step p (out_returns p)
  | up_in_read p :
      up_in p = URead → up_closed p = false →
      (up_eof p = true ∨ (readFrame (mkReader (up_arrived p) true) maxDatagram).1 ≠ Err ReadEOF ∧
                         (readFrame (mkReader (up_arrived p) true) maxDatagram).1 ≠ Err ReadUnexpectedEOF) →
      udp_pipe_step p (in_reads p)
  | up_in_read_error p : up_in p = URead → udp_pipe_step p (in_returns p)
  | up_in_write p m : up_in p = UWrite m → up_closed p = false → udp_pipe_step p (in_writes m p)
  | up_in_write_error p m : up_in p = UWrite m → udp_pipe_step p (in_returns p)
  | up_datagram p m : udp_pipe_step p (datagram_arrives m p)
  | up_bytes p data eof : up_eof p = false → udp_pipe_step p (bytes_arrive data eof p).

Definition udp_pipe_reachable {a : GOARCH} : udp_pipe → Prop := rtc udp_pipe_step udp_pipe_init.

(** [pipeUDPServer] returns. *)
Definition udp_pipe_returned (p : udp_pipe) : Prop := up_out p = UDone ∧ up_in p = UDone.

(** ** Frames are read as they were written *)

(** A stream of frames can be cut into frames in one way only. *)
Lemma stream_prefix ms ms' rest :
  Forall fits ms → Forall fits ms' → stream ms ++ rest = stream ms' → ms `prefix_of` ms'.
Proof.
  intros H. revert ms'. induction H as [|m ms Hm _ IH]; intros ms' H' E; [apply prefix_nil|].
  change (stream (m :: ms)) with (frame_bytes m ++ stream ms) in E. destruct H' as [|m' ms' Hm' H'].
  - apply (f_equal length) in E. rewrite <-app_assoc, length_app in E. pose proof (frame_bytes_pos m). cbn in E. lia.
  - change (stream (m' :: ms')) with (frame_bytes m' ++ stream ms') in E. rewrite <-app_assoc in E.
    pose proof (readFrame_frame (a := Amd64) m (stream ms ++ rest) true maxDatagram Hm maxDatagram_31) as E1.
    rewrite E, (readFrame_frame (a := Amd64) m' (stream ms') true maxDatagram Hm' maxDatagram_31) in E1. injection E1 as -> E1.
    apply prefix_cons. by apply IH.
Qed.

Lemma stream_app ms ms' : stream (ms ++ ms') = stream ms ++ stream ms'.
Proof. unfold stream. by rewrite map_app, concat_app. Qed.

#[local] Arguments stream : simpl never.

Lemma stream_one m : stream [m] = frame_bytes m.
Proof. unfold stream. cbn. by rewrite app_nil_r. Qed.

(** ** Invariant *)

Definition out_held (p : udp_pipe) : list payload := match up_out p with UWrite m => [m] | _ => [] end.
Definition in_held (p : udp_pipe) : list payload := match up_in p with UWrite m => [m] | _ => [] end.

Record udp_pipe_inv (p : udp_pipe) : Prop := {
  ui_out : up_out p ≠ UDone → ∃ done, take maxDatagram <$> up_read p = done ++ out_held p ∧ up_written p = stream done;
  ui_out_prefix : up_written p `prefix_of` stream (take maxDatagram <$> up_read p);
  ui_in : up_in p ≠ UDone → up_taken p = stream (up_sent p ++ in_held p);
  ui_in_prefix : stream (up_sent p) `prefix_of` up_taken p;
  ui_fits : Forall fits (up_sent p ++ in_held p);
  ui_closed : up_closed p = true ↔ up_out p = UDone ∨ up_in p = UDone;
}.

Lemma fits_take m : fits (take maxDatagram m).
Proof. unfold fits. rewrite length_take. lia. Qed.

(** What [writeFrame] puts on a tunnel, with or without an error. *)
Lemma writeFrame_outcome out room m :
  fits m → let '(w, err) := writeFrame (mkWriter out room) m in
  ∃ k, w_out w = out ++ take k (frame_bytes m) ∧ (err = false → w_out w = out ++ frame_bytes m).
Proof.
  intros Hm. assert (Decision (match room with None => True | Some k => length (frame_bytes m) ≤ k end)%nat) as [Hk|Hk]
    by (destruct room; apply _).
  - rewrite writeFrame_room by (intros k [= ->]; exact Hk). cbn [w_out].
    exists (length (frame_bytes m)). by rewrite firstn_all.
  - destruct room as [k|]; [|done]. rewrite (writeFrame_full (mkWriter out (Some k)) m k) by (done || lia).
    cbn [w_out]. by exists k.
Qed.

(** A goroutine fails or finds the other has: it returns, and closes both sockets. *)
Lemma out_returns_inv p out :
  udp_pipe_inv p → out `prefix_of` stream (take maxDatagram <$> up_read p) → ∀ q,
  up_read q = up_read p → up_sent q = up_sent p → up_taken q = up_taken p → up_in q = up_in p → up_written q = out →
  udp_pipe_inv (out_returns q).
Proof.
  intros [_ _ Hi Hip Hf _] Hw q E1 E2 E3 E4 E5. unfold out_returns. split; cbn; unfold in_held; cbn; rewrite ?E1, ?E2, ?E3, ?E4, ?E5; try done.
  split; [by left|done].
Qed.

Lemma in_returns_inv p : udp_pipe_inv p → udp_pipe_inv (in_returns p).
Proof.
  intros [Ho Hop Hi Hip Hf Hc]. split; cbn; try done; [|split; [by right|done]].
  unfold in_held. cbn. rewrite app_nil_r. by apply Forall_app in Hf as [? _].
Qed.

(** While neither goroutine has returned the sockets are open. *)
#[local] Ltac still_open Hc Hpc := rewrite Hc, Hpc; split; intros [?|?]; auto; done.

Lemma out_reads_inv p m waiting : up_out p = URead → udp_pipe_inv p → udp_pipe_inv (out_reads m waiting p).
Proof.
  intros Hpc [Ho Hop Hi Hip Hf Hc]. specialize (Ho ltac:(by rewrite Hpc)). destruct Ho as (ds & Ed & Ew).
  unfold out_held in Ed. rewrite Hpc, app_nil_r in Ed.
  unfold out_reads. split; cbn; unfold out_held, in_held in *; cbn; try done.
  - intros _. exists ds. by rewrite fmap_app, Ed.
  - rewrite fmap_app, stream_app. by apply prefix_app_r.
  - still_open Hc Hpc.
Qed.

Lemma out_writes_inv p m room : up_out p = UWrite m → udp_pipe_inv p → udp_pipe_inv (out_writes room m p).
Proof.
  intros Hpc Hinv. pose proof Hinv as [Ho Hop Hi Hip Hf Hc]. specialize (Ho ltac:(by rewrite Hpc)). destruct Ho as (ds & Ed & Ew).
  unfold out_held in Ed. rewrite Hpc in Ed.
  assert (fits m) as Hm.
  { assert (m ∈ take maxDatagram <$> up_read p) as (x & -> & _)%list_elem_of_fmap by (rewrite Ed; apply elem_of_app; right; by left).
    apply fits_take. }
  unfold out_writes. pose proof (writeFrame_outcome (up_written p) room m Hm) as Hout.
  destruct (writeFrame (mkWriter (up_written p) room) m) as [w err]. destruct Hout as (k & Ek & Eok).
  assert (w_out w `prefix_of` stream (take maxDatagram <$> up_read p)) as Hpre.
  { rewrite Ek, Ed, stream_app, Ew. apply prefix_app. rewrite stream_one. exists (drop k (frame_bytes m)). by rewrite take_drop. }
  destruct err; [by eapply out_returns_inv|].
  rewrite (Eok eq_refl) in Hpre. split; cbn; unfold out_held, in_held in *; cbn; rewrite ?(Eok eq_refl); try done.
  - intros _. exists (ds ++ [m]). rewrite app_nil_r, stream_app, Ew. split; [done|]. by rewrite stream_one.
  - still_open Hc Hpc.
Qed.

Lemma in_reads_inv {a : GOARCH} p : up_in p = URead → udp_pipe_inv p → udp_pipe_inv (in_reads p).
Proof.
  intros Hpc Hinv. pose proof Hinv as [Ho Hop Hi Hip Hf Hc]. specialize (Hi ltac:(by rewrite Hpc)).
  unfold in_held in Hi, Hf. rewrite Hpc, app_nil_r in Hi, Hf. unfold in_reads.
  destruct (readFrame (mkReader (up_arrived p) (up_eof p)) maxDatagram) as [[m|e] r] eqn:Er; [|by apply in_returns_inv].
  apply readFrame_Ok in Er as (Ea & _ & Hl); [|exact maxDatagram_32].
  split; cbn; unfold out_held, in_held in *; cbn; try done.
  - intros _. rewrite Ea, length_app, Nat.add_sub, take_app_length, Hi, stream_app. by rewrite stream_one.
  - by apply prefix_app_r.
  - apply Forall_app. split; [done|]. by constructor.
  - still_open Hc Hpc.
Qed.

Lemma in_writes_inv p m : up_in p = UWrite m → udp_pipe_inv p → udp_pipe_inv (in_writes m p).
Proof.
  intros Hpc [Ho Hop Hi Hip Hf Hc]. specialize (Hi ltac:(by rewrite Hpc)). unfold in_held in Hi, Hf. rewrite Hpc in Hi, Hf.
  split; cbn; unfold out_held, in_held in *; cbn; rewrite ?app_nil_r; try done.
  - by rewrite Hi.
  - still_open Hc Hpc.
Qed.

Lemma udp_pipe_step_inv {a : GOARCH} p p' : udp_pipe_step p p' → udp_pipe_inv p → udp_pipe_inv p'.
Proof.
  intros Hs Hinv. destruct Hs.
  - by apply out_reads_inv.
  - by eapply out_returns_inv, eq_refl; [|apply ui_out_prefix|..].
  - by apply out_writes_inv.
  - by eapply out_returns_inv, eq_refl; [|apply ui_out_prefix|..].
  - by apply in_reads_inv.
  - by apply in_returns_inv.
  - by apply in_writes_inv.
  - by apply in_returns_inv.
  - by destruct Hinv; split.
  - by destruct Hinv; split.
Qed.

Lemma udp_pipe_reachable_inv {a : GOARCH} p : udp_pipe_reachable p → udp_pipe_inv p.
Proof.
  intros H. apply (rtc_invariant udp_pipe_step udp_pipe_inv udp_pipe_init p); [exact udp_pipe_step_inv|exact H|].
  split; cbn; try done.
  - intros _. by exists [].
  - split; [done|]. by intros [?|?].
Qed.

(** ** Theorem *)

(** C15. Datagrams cross [pipeUDPServer] whole and in order, on every architecture
    peel is built for, however its two goroutines interleave and wherever they
    fail.  What is on the tunnel is a
    prefix of the frames of the datagrams read from the socket, and all of them
    but the one being written while that direction runs.  If the bytes that have
    come through the tunnel are the beginning of the frames of some datagrams,
    then what was sent on the socket is a prefix of these datagrams: none is cut,
    merged, reordered or made up, and none exceeds the buffer.  Once one
    goroutine has returned both ends are closed, and the other one can return in
    its next step.  (A [readFrame] that panics, as [readFrame_bounds] shows it can
    on 386, runs the deferred closeBoth and then ends peel: the goroutine's return
    is the last thing this model says of it.) *)
Theorem udp_pipe_faithful {a : GOARCH} p ms rest :
  udp_pipe_reachable p → Forall fits ms → up_taken p ++ up_arrived p ++ rest = stream ms →
  up_written p `prefix_of` stream (take maxDatagram <$> up_read p) ∧
  (up_out p ≠ UDone → ∃ done, take maxDatagram <$> up_read p = done ++ out_held p ∧ up_written p = stream done) ∧
  up_sent p `prefix_of` ms ∧ (up_in p ≠ UDone → up_sent p ++ in_held p `prefix_of` ms) ∧
  (up_out p = UDone ∨ up_in p = UDone →
    up_closed p = true ∧ (udp_pipe_returned p ∨ ∃ p', udp_pipe_step p p' ∧ udp_pipe_returned p')).
Proof.
  intros [Ho Hop Hi Hip Hf Hc]%udp_pipe_reachable_inv Hms Hst. pose proof Hf as [Hf1 _]%Forall_app. split_and!; [done|done| | |].
  - destruct Hip as [x Hx]. apply (stream_prefix _ _ (x ++ up_arrived p ++ rest)); [done|done|].
    by rewrite app_assoc, <-Hx.
  - intros Hne. apply (stream_prefix _ _ (up_arrived p ++ rest)); [done|done|]. by rewrite <-Hi.
  - intros Hd. split; [by apply Hc|]. destruct Hd as [Hd|Hd].
    + destruct (up_in p) as [|m|] eqn:Hin.
      * right. exists (in_returns p). split; [by apply up_in_read_error|done].
      * right. exists (in_returns p). split; [by eapply up_in_write_error|done].
      * by left.
    + destruct (up_out p) as [|m|] eqn:Hout.
      * right. exists (out_returns p). split; [by apply up_out_read_error|done].
      * right. exists (out_returns p). split; [by eapply up_out_write_error|done].
      * by left.
Qed.

(** The tunnel brings the frame of "A" and the first byte of another. *)
Definition sample_udp_arrived : udp_pipe := bytes_arrive [x00; x00; x00; x01; x41; x00] true udp_pipe_init.
Definition sample_udp_pipe : udp_pipe := in_writes [x41] (in_reads (a := Amd64) sample_udp_arrived).

Lemma sample_udp_pipe_reachable : udp_pipe_reachable (a := Amd64) sample_udp_pipe.
Proof.
  eapply rtc_l; [by apply (up_bytes udp_pipe_init [x00; x00; x00; x01; x41; x00] true)|].
  eapply rtc_l; [apply (up_in_read sample_udp_arrived); [done..|by left]|].
  apply rtc_once. by apply up_in_write.
Qed.

Lemma udp_pipe_faithful_witness :
  up_sent sample_udp_pipe = [[x41]] ∧ up_sent sample_udp_pipe `prefix_of` [[x41]; []].
Proof.
  assert (up_sent sample_udp_pipe = [[x41]]) as Hs by (vm_compute; reflexivity).
  assert (Forall fits [[x41]; []]) as Hf.
  { unfold fits, maxDatagram. rewrite !Forall_cons. cbn [length]. split_and!; [lia..|by apply Forall_nil]. }
  assert (up_taken sample_udp_pipe ++ up_arrived sample_udp_pipe ++ [x00; x00; x00] = stream [[x41]; []]) as He
    by (vm_compute; reflexivity).
  destruct (udp_pipe_faithful (a := Amd64) sample_udp_pipe [[x41]; []] [x00; x00; x00] sample_udp_pipe_reachable Hf He) as (_ & _ & H & _).
  split; [exact Hs|exact H].
Defined.
