(* ===== verification/LoUdpChain.v ===== *)
(** * internal/lo: datagrams from one container to another

    [udpLoop] and [udpReturnLoop] of [proxy.go] on the proxy's side and a
    [pipeUDPServer] of [pipe.go] per session on the owner's, with the tunnel of
    the session between them: what is framed onto one end arrives at the other
    little by little, and may break off anywhere. *)

From S2P Require Import Prelude Platform GoStrings LoTypes LoPeer LoFrame LoUdp LoUdpPipe.

(** A tunnel and the owner's end of it: the bytes [udpLoop] has written, those that
    have come back and wait to be read (and whether more will come), those
    [udpReturnLoop] has read, the datagrams it has sent to the client, and the
    owner's pipe. *)
Record link := mkLink {
  lk_wire : payload;
  lk_back : payload;
  lk_eof : bool;
  lk_taken : payload;
  lk_answers : list payload;
  lk_owner : udp_pipe;
}.

Definition link_init : link := mkLink [] [] false [] [] udp_pipe_init.

(** The proxy and the link of every tunnel it has dialled. *)
Record udp_chain := mkUdpChain { uc_udp : udp; uc_links : gmap nat link }.
Definition udp_chain_init : udp_chain := mkUdpChain udp_init ∅.

(** A link for every tunnel. *)
Definition link_tunnels (u : udp) (ls : gmap nat link) : gmap nat link :=
  map_imap (λ tid _, Some (default link_init (ls !! tid))) (u_tunnels u).

(** [writeFrame] on a tunnel that takes [room] more bytes. *)
Definition link_write (room : option nat) (data : payload) (l : link) : link * bool :=
  let '(w, err) := writeFrame (mkWriter (lk_wire l) room) data in
  (mkLink (w_out w) (lk_back l) (lk_eof l) (lk_taken l) (lk_answers l) (lk_owner l), err).

(** [readFrame] and [WriteTo]. *)
Definition link_answer {a : GOARCH} (l : link) : option link :=
  match readFrame (mkReader (lk_back l) (lk_eof l)) maxDatagram with
  | (Ok frame, r) =>
      Some (mkLink (lk_wire l) (r_data r) (lk_eof l)
        (lk_taken l ++ take (length (lk_back l) - length (r_data r)) (lk_back l)) (lk_answers l ++ [frame]) (lk_owner l))
  | (Err _, _) => None
  end.

Definition with_owner (o : udp_pipe) (l : link) : link :=
  mkLink (lk_wire l) (lk_back l) (lk_eof l) (lk_taken l) (lk_answers l) o.
Definition comes_back (data : payload) (eof : bool) (l : link) : link :=
  mkLink (lk_wire l) (lk_back l ++ data) eof (lk_taken l) (lk_answers l) (lk_owner l).

(** What a pipe does by itself: any step but the arrival of bytes. *)
Definition owner_step {a : GOARCH} (o o' : udp_pipe) : Prop :=
  udp_pipe_step o o' ∧ up_taken o' ++ up_arrived o' = up_taken o ++ up_arrived o ∧ up_eof o' = up_eof o.

Section Chain.
Context {a : GOARCH} (p : Proxy).

(** The proxy's goroutines, the owner's, and the bytes on their way: what arrives
    at an end is what comes next of what was written to the other. *)
Inductive udp_chain_step : udp_chain → udp_chain → Prop :=
  | uc_receive key data now dialled u ls :
      u_pc u = LRead →
      let u' := receive_datagram p key (take maxDatagram data) now dialled u in
      udp_chain_step (mkUdpChain u ls) (mkUdpChain u' (link_tunnels u' ls))
  | uc_write key tid data t l l' room err u ls :
      u_pc u = LWrite key tid data → u_tunnels u !! tid = Some t → ls !! tid = Some l →
      (tn_open t = false → room = Some O) → link_write room data l = (l', err) →
      udp_chain_step (mkUdpChain u ls) (mkUdpChain (write_datagram key tid data (negb err) u) (<[tid := l']> ls))
  | uc_read_error u ls :
      u_pc u = LRead → udp_chain_step (mkUdpChain u ls) (mkUdpChain (read_error u) ls)
  | uc_return t tid now l l' u ls :
      u_tunnels u !! tid = Some t → ls !! tid = Some l → link_answer l = Some l' →
      udp_chain_step (mkUdpChain u ls) (mkUdpChain (return_frame (tn_key t) tid now u) (<[tid := l']> ls))
  | uc_return_end t tid u ls :
      u_tunnels u !! tid = Some t → udp_chain_step (mkUdpChain u ls) (mkUdpChain (return_end (tn_key t) tid u) ls)
  | uc_reap now u ls : udp_chain_step (mkUdpChain u ls) (mkUdpChain (reapIdle now u) ls)
  | uc_owner tid l o' u ls :
      ls !! tid = Some l → owner_step (lk_owner l) o' →
      udp_chain_step (mkUdpChain u ls) (mkUdpChain u (<[tid := with_owner o' l]> ls))
  | uc_forth tid l data rest eof u ls :
      ls !! tid = Some l → up_eof (lk_owner l) = false →
      lk_wire l = up_taken (lk_owner l) ++ up_arrived (lk_owner l) ++ data ++ rest →
      udp_chain_step (mkUdpChain u ls) (mkUdpChain u (<[tid := with_owner (bytes_arrive data eof (lk_owner l)) l]> ls))
  | uc_back tid l data rest eof u ls :
      ls !! tid = Some l → lk_eof l = false →
      up_written (lk_owner l) = lk_taken l ++ lk_back l ++ data ++ rest →
      udp_chain_step (mkUdpChain u ls) (mkUdpChain u (<[tid := comes_back data eof l]> ls)).

Definition udp_chain_reachable : udp_chain → Prop := rtc udp_chain_step udp_chain_init.

(** ** The invariant of a link *)

(** Frames are whole on the wire, but perhaps for one at the end that a failed write
    has left there; what has arrived is the beginning of what was written, both
    ways; and what was sent to the client are the frames that came back. *)
Record link_inv (t : tunnel) (l : link) : Prop := {
  li_fits : Forall fits (tn_sent t);
  li_wire : ∃ m k, fits m ∧ (k < length (frame_bytes m))%nat ∧ (tn_open t = true → k = O) ∧
    lk_wire l = stream (tn_sent t) ++ take k (frame_bytes m);
  li_owner : udp_pipe_reachable (lk_owner l);
  li_forth : up_taken (lk_owner l) ++ up_arrived (lk_owner l) `prefix_of` lk_wire l;
  li_back : lk_taken l ++ lk_back l `prefix_of` up_written (lk_owner l);
  li_answers : lk_taken l = stream (lk_answers l) ∧ Forall fits (lk_answers l);
}.

Record udp_chain_inv (c : udp_chain) : Prop := {
  uci_udp : udp_reachable p (uc_udp c);
  uci_dom tid : is_Some (u_tunnels (uc_udp c) !! tid) ↔ is_Some (uc_links c !! tid);
  uci_links tid t l : u_tunnels (uc_udp c) !! tid = Some t → uc_links c !! tid = Some l → link_inv t l;
  uci_fits key tid data : u_pc (uc_udp c) = LWrite key tid data → fits data;
}.

(** Closing a tunnel is nothing to its link. *)
Definition closes (t t' : tunnel) : Prop := tn_key t' = tn_key t ∧ tn_sent t' = tn_sent t ∧ (tn_open t' = true → tn_open t = true).

Lemma link_inv_closes t t' l : closes t t' → link_inv t l → link_inv t' l.
Proof. intros (_ & Es & Ho) [H1 (m & k & Hm & Hk & Hop & Hw) H3 H4 H5 H6]. split; rewrite ?Es; try done. exists m, k. by split_and!; auto. Qed.

Definition only_closes (u u' : udp) : Prop :=
  (∀ tid t', u_tunnels u' !! tid = Some t' → ∃ t, u_tunnels u !! tid = Some t ∧ closes t t') ∧
  (∀ tid, is_Some (u_tunnels u !! tid) → is_Some (u_tunnels u' !! tid)).

Lemma only_closes_same u u' : u_tunnels u' = u_tunnels u → only_closes u u'.
Proof. intros E. split; rewrite E; [|done]. intros tid t Ht. by exists t. Qed.

Lemma only_closes_one tid u u' : u_tunnels u' = close_tunnel tid (u_tunnels u) → only_closes u u'.
Proof.
  intros E. split; rewrite E; intros x.
  - intros t' (t & Ht & ->)%close_lookup. exists t. split; [done|]. by case_decide.
  - unfold close_tunnel. by rewrite lookup_alter_is_Some.
Qed.

Lemma only_closes_many ss u u' : u_tunnels u' = close_tunnels ss (u_tunnels u) → only_closes u u'.
Proof.
  intros E. split; rewrite E; intros x.
  - intros t' (t & Ht & ->)%close_tunnels_lookup. exists t. split; [done|]. by case_decide.
  - intros [t Ht]. eexists. apply close_tunnels_lookup. eauto.
Qed.

(** A step of the proxy that writes to no tunnel. *)
Lemma inv_closes u u' ls :
  udp_step p u u' → only_closes u u' → (∀ key tid data, u_pc u' = LWrite key tid data → u_pc u = LWrite key tid data) →
  udp_chain_inv (mkUdpChain u ls) → udp_chain_inv (mkUdpChain u' ls).
Proof.
  intros Hst [Hc1 Hc2] Hpc [Hu Hd Hl Hf]. split; cbn [uc_udp uc_links] in *.
  - exact (rtc_r _ _ _ Hu Hst).
  - intros tid. rewrite <-Hd. split; [|apply Hc2]. intros [t' Ht']. destruct (Hc1 tid t' Ht') as (t & Ht & _). by exists t.
  - intros tid t' l Ht' Hl'. destruct (Hc1 tid t' Ht') as (t & Ht & Hcl). by eapply link_inv_closes, Hl.
  - intros key tid data H. by eapply Hf, Hpc.
Qed.

(** A step at one link. *)
Lemma inv_link u ls tid l l' :
  ls !! tid = Some l → (∀ t, link_inv t l → link_inv t l') →
  udp_chain_inv (mkUdpChain u ls) → udp_chain_inv (mkUdpChain u (<[tid := l']> ls)).
Proof.
  intros Hi Hll [Hu Hd Hl Hf]. split; cbn [uc_udp uc_links] in *; try done.
  - intros x. rewrite Hd, lookup_insert_is_Some'. split; [by right|]. intros [<-|?]; [by exists l|done].
  - intros x t l2 Ht [[<- <-]|[_ Hx]]%lookup_insert_Some; [|by eapply Hl]. eapply Hll, Hl; done.
Qed.

Lemma link_write_outcome room data l l' err :
  fits data → link_write room data l = (l', err) →
  l' = mkLink (lk_wire l') (lk_back l) (lk_eof l) (lk_taken l) (lk_answers l) (lk_owner l) ∧
  if err then ∃ k, (k < length (frame_bytes data))%nat ∧ lk_wire l' = lk_wire l ++ take k (frame_bytes data) ∧ (room = Some O → k = O)
  else lk_wire l' = lk_wire l ++ frame_bytes data ∧ room ≠ Some O.
Proof.
  intros Hm. unfold link_write.
  assert (Decision (match room with None => True | Some k => length (frame_bytes data) ≤ k end)%nat) as [Hk|Hk] by (destruct room; apply _).
  - rewrite writeFrame_room by (intros k [= ->]; exact Hk). cbn [w_out]. intros [= <- <-]. split_and!; [done|done|].
    intros ->. pose proof (frame_bytes_pos data). lia.
  - destruct room as [k|]; [|done]. rewrite (writeFrame_full (mkWriter (lk_wire l) (Some k)) data k) by (done || lia).
    cbn [w_out]. intros [= <- <-]. split; [done|]. exists k. split_and!; [lia|done|by intros [= ->]].
Qed.

Lemma written_grows o o' : udp_pipe_reachable o → udp_pipe_step o o' → up_written o `prefix_of` up_written o'.
Proof.
  intros Hr Hs. destruct Hs as [o m waiting Hpc Hcl Hw|o Hpc|o m room Hpc Hcl|o m Hpc|o Hpc Hcl Hready|o Hpc|o m Hpc Hcl|o m Hpc|o m|o data eof He]; try done.
  - assert (fits m) as Hm.
    { destruct (udp_pipe_reachable_inv o Hr) as [Ho _ _ _ _ _]. destruct Ho as (ds & Ed & _); [by rewrite Hpc|].
      unfold out_held in Ed. rewrite Hpc in Ed.
      assert (m ∈ take maxDatagram <$> up_read o) as (x & -> & _)%list_elem_of_fmap by (rewrite Ed; apply elem_of_app; right; by left).
      apply fits_take. }
    unfold out_writes. pose proof (writeFrame_outcome (up_written o) room m Hm) as Hout.
    destruct (writeFrame (mkWriter (up_written o) room) m) as [w err]. destruct Hout as (k & Ek & _).
    destruct err; cbn; rewrite Ek; by apply prefix_app_r.
  - unfold in_reads. destruct (readFrame (mkReader (up_arrived o) (up_eof o)) maxDatagram) as [[m|e] r]; done.
Qed.

Lemma link_inv_owner t l o' : owner_step (lk_owner l) o' → link_inv t l → link_inv t (with_owner o' l).
Proof.
  intros (Hst & Ea & _) [H1 H2 H3 H4 H5 H6]. split; cbn [with_owner lk_wire lk_back lk_taken lk_answers lk_owner]; try done.
  - exact (rtc_r _ _ _ H3 Hst).
  - by rewrite Ea.
  - etrans; [exact H5|]. by apply written_grows.
Qed.

Lemma link_inv_forth t l data rest eof :
  up_eof (lk_owner l) = false → lk_wire l = up_taken (lk_owner l) ++ up_arrived (lk_owner l) ++ data ++ rest →
  link_inv t l → link_inv t (with_owner (bytes_arrive data eof (lk_owner l)) l).
Proof.
  intros He Hw [H1 H2 H3 H4 H5 H6]. split; cbn [with_owner lk_wire lk_back lk_taken lk_answers lk_owner bytes_arrive up_taken up_arrived up_written]; try done.
  - exact (rtc_r _ _ _ H3 (up_bytes _ data eof He)).
  - rewrite Hw. rewrite !app_assoc. by apply prefix_app_r.
Qed.

Lemma link_inv_back t l data rest eof :
  up_written (lk_owner l) = lk_taken l ++ lk_back l ++ data ++ rest → link_inv t l → link_inv t (comes_back data eof l).
Proof.
  intros Hw [H1 H2 H3 H4 H5 H6]. split; cbn [comes_back lk_wire lk_back lk_taken lk_answers lk_owner]; try done.
  rewrite Hw, !app_assoc. by apply prefix_app_r.
Qed.

Lemma link_inv_answer t l l' : link_answer l = Some l' → link_inv t l → link_inv t l'.
Proof.
  unfold link_answer. destruct (readFrame _ _) as [[frame|] r] eqn:Er; [|done]. intros [= <-] [H1 H2 H3 H4 H5 [Ht Hf]].
  apply readFrame_Ok in Er as (Ea & _ & Hl); [|exact maxDatagram_32].
  split; cbn [lk_wire lk_back lk_taken lk_answers lk_owner]; try done.
  - rewrite Ea, length_app, Nat.add_sub, take_app_length, <-app_assoc, <-Ea. done.
  - rewrite Ea, length_app, Nat.add_sub, take_app_length, Ht, stream_app, stream_one. split; [done|].
    apply Forall_app. by split; [|constructor].
Qed.

(** All on the wire is whole. *)
Lemma whole_wire t (w : payload) :
  w = stream (tn_sent t) →
  ∃ m k, fits m ∧ (k < length (frame_bytes m))%nat ∧ (tn_open t = true → k = O) ∧ w = stream (tn_sent t) ++ take k (frame_bytes m).
Proof.
  intros ->. exists [], O. pose proof (frame_bytes_pos []). unfold fits. cbn [length take]. rewrite app_nil_r. split_and!; [lia|lia|done|done].
Qed.

Lemma link_inv_new key : link_inv (mkTunnel key true []) link_init.
Proof. split; try done; [by apply whole_wire|apply rtc_refl]. Qed.

Lemma inv_receive key data now dialled u ls :
  u_pc u = LRead → udp_chain_inv (mkUdpChain u ls) →
  let u' := receive_datagram p key (take maxDatagram data) now dialled u in
  udp_chain_inv (mkUdpChain u' (link_tunnels u' ls)).
Proof.
  intros Hpc [Hu Hd Hl Hf] u'. cbn [uc_udp uc_links] in *.
  assert (∀ tid t, u_tunnels u' !! tid = Some t → u_tunnels u !! tid = Some t ∨ (u_tunnels u !! tid = None ∧ t = mkTunnel key true [])) as Ht.
  { intros tid t. unfold u', receive_datagram. destruct (rejectsRemote p key); [by left|].
    destruct (u_sessions u !! key); [by left|]. destruct dialled; [|by left]. cbn [u_tunnels].
    rewrite lookup_insert_Some. intros [[<- <-]|[_ ?]]; [|by left]. right. split; [apply not_elem_of_dom, is_fresh|done]. }
  split; cbn [uc_udp uc_links].
  - exact (rtc_r _ _ _ Hu (udp_receive p key _ now dialled u Hpc)).
  - intros tid. unfold link_tunnels. rewrite map_lookup_imap. destruct (u_tunnels u' !! tid) as [t|]; cbn; split; try done; intros _; by eexists.
  - intros tid t l Htid. unfold link_tunnels. rewrite map_lookup_imap, Htid. cbn. intros [= <-].
    destruct (Ht tid t Htid) as [Hold|[Hnone ->]].
    + destruct (proj1 (Hd tid)) as [l Hl']; [by exists t|]. rewrite Hl'. by eapply Hl.
    + assert (ls !! tid = None) as ->; [|apply link_inv_new]. apply eq_None_not_Some. intros Hs%Hd. rewrite Hnone in Hs. by destruct Hs.
  - intros k tid d. unfold u', receive_datagram. destruct (rejectsRemote p key); [by rewrite Hpc|].
    destruct (u_sessions u !! key); [|destruct dialled; [|by rewrite Hpc]]; cbn [u_pc]; intros [= _ _ <-]; apply fits_take.
Qed.

Lemma inv_write key tid data t l l' room err u ls :
  u_pc u = LWrite key tid data → u_tunnels u !! tid = Some t → ls !! tid = Some l →
  (tn_open t = false → room = Some O) → link_write room data l = (l', err) →
  udp_chain_inv (mkUdpChain u ls) → udp_chain_inv (mkUdpChain (write_datagram key tid data (negb err) u) (<[tid := l']> ls)).
Proof.
  intros Hpc Ht Hi Hroom Hw [Hu Hd Hl Hf]. cbn [uc_udp uc_links] in *. pose proof (Hf _ _ _ Hpc) as Hm.
  destruct (link_write_outcome room data l l' err Hm Hw) as [El Hout]. destruct (Hl tid t l Ht Hi) as [H1 (m & k & Hfm & Hk & Hop & Hwire) H3 H4 H5 H6].
  assert (negb err = true → tn_open t = true) as Hopen.
  { destruct err; [done|]. intros _. destruct (tn_open t); [done|]. by destruct (proj2 Hout), Hroom. }
  assert (up_taken (lk_owner l) ++ up_arrived (lk_owner l) `prefix_of` lk_wire l') as H4'.
  { etrans; [exact H4|]. destruct err; [destruct Hout as (? & _ & -> & _)|destruct Hout as [-> _]]; by apply prefix_app_r. }
  split; cbn [uc_udp uc_links].
  - apply (rtc_r _ _ _ Hu), udp_write; [done|]. intros Hok. exists t. split; [done|by apply Hopen].
  - intros x. rewrite lookup_insert_is_Some'. rewrite <-Hd. destruct err; cbn [negb write_datagram u_tunnels].
    + unfold close_tunnel. rewrite lookup_alter_is_Some. split; [by right|]. intros [<-|?]; [by exists t|done].
    + rewrite lookup_alter_is_Some. split; [by right|]. intros [<-|?]; [by exists t|done].
  - intros x t' l2 Ht' Hl2. destruct err; cbn [negb write_datagram u_tunnels] in Ht'.
    + apply close_lookup in Ht' as (t0 & Ht0 & ->). apply lookup_insert_Some in Hl2 as [[<- <-]|[Hne Hl2]].
      2: { rewrite decide_False by done. by eapply Hl. }
      rewrite decide_True by done. assert (t0 = t) as -> by congruence. rewrite El. destruct Hout as (k' & Hk' & Ew & H0).
      split; cbn [tn_sent tn_open lk_wire lk_back lk_taken lk_answers lk_owner]; try done.
      destruct (tn_open t) eqn:Eop; [exists data, k'|exists m, k]; (split_and!; [done..|]); rewrite Ew, Hwire.
      * rewrite (Hop eq_refl). cbn. by rewrite app_nil_r.
      * rewrite (H0 (Hroom eq_refl)). cbn. by rewrite app_nil_r.
    + apply lookup_alter_Some in Ht' as [(<- & t0 & Ht0 & ->)|[Hne Ht']].
      2: { rewrite lookup_insert_ne in Hl2 by done. by eapply Hl. }
      assert (t0 = t) as -> by congruence. rewrite lookup_insert_eq in Hl2. injection Hl2 as <-. rewrite El. destruct Hout as [Ew _].
      split; cbn [tn_sent tn_open lk_wire lk_back lk_taken lk_answers lk_owner]; try done.
      * apply Forall_app. by split; [|constructor].
      * apply (whole_wire (mkTunnel (tn_key t) (tn_open t) (tn_sent t ++ [data]))). cbn [tn_sent]. rewrite Ew, Hwire, (Hop (Hopen eq_refl)), stream_app, stream_one. cbn [take]. by rewrite app_nil_r.
  - intros k2 x d. destruct err; done.
Qed.

Lemma udp_chain_step_inv c c' : udp_chain_step c c' → udp_chain_inv c → udp_chain_inv c'.
Proof.
  intros Hs Hinv.
  destruct Hs as [key data now dialled u ls Hpc|key tid data t l l' room err u ls Hpc Ht Hi Hroom Hw|u ls Hpc|t tid now l l' u ls Ht Hi Ha
    |t tid u ls Ht|now u ls|tid l o' u ls Hi Ho|tid l data rest eof u ls Hi He Hw|tid l data rest eof u ls Hi He Hw].
  - by apply inv_receive.
  - by eapply inv_write.
  - eapply inv_closes; [by apply udp_read_error|by eapply only_closes_many|done|done].
  - apply (inv_link _ _ tid l); [done|intros; by eapply link_inv_answer|].
    eapply inv_closes; [by apply udp_return_frame| | |done]; unfold return_frame; destruct (u_sessions u !! tn_key t); try done;
      try (by apply only_closes_same); destruct (decide _); try done; by apply only_closes_same.
  - eapply inv_closes; [by apply udp_return_end|by eapply only_closes_one|done|done].
  - eapply inv_closes; [apply udp_reap|by eapply only_closes_many|done|done].
  - apply (inv_link _ _ tid l); [done|intros; by apply link_inv_owner|done].
  - apply (inv_link _ _ tid l); [done|intros; by eapply link_inv_forth|done].
  - apply (inv_link _ _ tid l); [done|intros; by eapply link_inv_back|done].
Qed.

Lemma udp_chain_reachable_inv c : udp_chain_reachable c → udp_chain_inv c.
Proof.
  intros Hr. apply (rtc_invariant udp_chain_step udp_chain_inv udp_chain_init c); [exact udp_chain_step_inv|exact Hr|].
  split; cbn; try done; [apply rtc_refl|]. intros tid. by rewrite !lookup_empty.
Qed.

(** ** What a link carries *)

Lemma link_sent t l : link_inv t l → up_sent (lk_owner l) `prefix_of` tn_sent t.
Proof.
  intros [H1 (m & k & Hm & Hk & _ & Hw) H3 [y Hy] _ _]. destruct (udp_pipe_reachable_inv _ H3) as [_ _ _ [x Hx] Hf _].
  apply Forall_app in Hf as [Hf _].
  assert (lk_wire l = stream (up_sent (lk_owner l)) ++ x ++ up_arrived (lk_owner l) ++ y) as E by by rewrite Hy, Hx, <-!app_assoc.
  assert (up_sent (lk_owner l) `prefix_of` tn_sent t ++ [m]) as [z Hz].
  { apply (stream_prefix _ _ ((x ++ up_arrived (lk_owner l) ++ y) ++ drop k (frame_bytes m))); [done|apply Forall_app; by split; [|constructor]|].
    rewrite app_assoc, <-E, Hw, stream_app, stream_one, <-app_assoc. f_equal. apply take_drop. }
  destruct z as [|z0 z _] using rev_ind.
  - exfalso. rewrite app_nil_r in Hz. rewrite <-Hz, stream_app, stream_one in E. rewrite Hw, <-app_assoc in E. apply app_inv_head in E.
    apply (f_equal length) in E. rewrite length_take, !length_app in E. lia.
  - exists z. rewrite app_assoc in Hz. by apply app_inj_tail in Hz as [-> _].
Qed.

Lemma link_answered t l : link_inv t l → lk_answers l `prefix_of` take maxDatagram <$> up_read (lk_owner l).
Proof.
  intros [_ _ H3 _ [x Hx] [Ht Hf]]. destruct (udp_pipe_reachable_inv _ H3) as [_ [y Hy] _ _ _ _].
  apply (stream_prefix _ _ (lk_back l ++ x ++ y)); [done|apply Forall_fmap, Forall_true; intros; apply fits_take|].
  rewrite Hy, Hx, Ht, <-!app_assoc. done.
Qed.

(** ** Delivery *)

(** The owner's second goroutine, on whole frames. *)
Lemma owner_writes o m :
  up_in o = UWrite m → up_closed o = false → owner_step o (in_writes m o).
Proof. intros Hi Hc. split; [by apply up_in_write|done]. Qed.

Lemma owner_reads o m rest :
  fits m → up_in o = URead → up_closed o = false → up_arrived o = frame_bytes m ++ rest →
  owner_step o (in_reads o) ∧ up_in (in_reads o) = UWrite m ∧ up_closed (in_reads o) = false ∧ up_arrived (in_reads o) = rest ∧
  up_sent (in_reads o) = up_sent o.
Proof.
  intros Hm Hi Hc Ha. pose proof (λ e, readFrame_frame m rest e maxDatagram Hm maxDatagram_31) as Hr.
  assert (udp_pipe_step o (in_reads o)) as Hst.
  { apply up_in_read; [done..|]. right. by rewrite Ha, Hr. }
  unfold in_reads in *. rewrite Ha, Hr in *. cbn [r_data up_in up_closed up_arrived up_sent] in *. split_and!; try done.
  split; [done|]. cbn [up_taken up_arrived up_eof]. rewrite length_app, Nat.add_sub, take_app_length, Ha. by rewrite app_assoc.
Qed.

Lemma owner_delivers ms o :
  Forall fits ms → up_in o = URead → up_closed o = false → up_arrived o = stream ms →
  ∃ o', rtc owner_step o o' ∧ up_sent o' = up_sent o ++ ms.
Proof.
  intros Hms. revert o. induction Hms as [|m ms Hm _ IH]; intros o Hi Hc Ha; [exists o; by rewrite app_nil_r|].
  destruct (owner_reads o m (stream ms) Hm Hi Hc Ha) as (Hs1 & Hi1 & Hc1 & Ha1 & Es1).
  destruct (IH (in_writes m (in_reads o))) as (o' & Hs & Es); [done..|].
  exists o'. split; [eapply rtc_l; [exact Hs1|]; eapply rtc_l; [by apply owner_writes|done]|].
  rewrite Es. cbn [in_writes up_sent]. by rewrite Es1, <-app_assoc.
Qed.

Lemma owner_catches_up ms o :
  udp_pipe_reachable o → Forall fits ms → up_closed o = false → up_taken o ++ up_arrived o = stream ms →
  ∃ o', rtc owner_step o o' ∧ up_sent o' = ms.
Proof.
  intros Hr Hms Hc Hall. destruct (udp_pipe_reachable_inv o Hr) as [_ _ Hi _ Hf Hcl].
  assert (up_in o ≠ UDone) as Hnd by (intros E; rewrite (proj2 Hcl (or_intror E)) in Hc; done). specialize (Hi Hnd).
  assert (up_sent o ++ in_held o `prefix_of` ms) as [todo ->].
  { apply (stream_prefix _ _ (up_arrived o)); [done|done|]. by rewrite <-Hi. }
  rewrite Hi, (stream_app (up_sent o ++ in_held o)) in Hall. apply app_inv_head in Hall. apply Forall_app in Hms as [_ Htodo].
  unfold in_held in *. destruct (up_in o) as [|m|] eqn:Ein; [| |done].
  - rewrite app_nil_r. by apply owner_delivers.
  - destruct (owner_delivers todo (in_writes m o)) as (o' & Hs & Es); [done..|]. exists o'.
    split; [eapply rtc_l; [by apply owner_writes|done]|done].
Qed.

Lemma owner_chain tid l o' u ls :
  rtc owner_step (lk_owner l) o' → ls !! tid = Some l →
  rtc udp_chain_step (mkUdpChain u ls) (mkUdpChain u (<[tid := with_owner o' l]> ls)).
Proof.
  intros Hs. remember (lk_owner l) as o eqn:E. revert l ls E. induction Hs as [o|o o1 o' Hst _ IH]; intros l ls -> Hi.
  - rewrite insert_id; [done|]. rewrite Hi. by destruct l.
  - eapply rtc_l; [by apply (uc_owner tid l o1)|]. specialize (IH (with_owner o1 l) (<[tid := with_owner o1 l]> ls) eq_refl (lookup_insert_eq _ _ _)).
    rewrite insert_insert_eq in IH. exact IH.
Qed.

Lemma link_delivers t tid l u ls :
  u_tunnels u !! tid = Some t → ls !! tid = Some l → link_inv t l → tn_open t = true →
  up_closed (lk_owner l) = false → up_eof (lk_owner l) = false →
  ∃ l', rtc udp_chain_step (mkUdpChain u ls) (mkUdpChain u (<[tid := l']> ls)) ∧ up_sent (lk_owner l') = tn_sent t.
Proof.
  intros Ht Hi [H1 (m & k & _ & _ & Hop & Hw) H3 [y Hy] _ _] Ho Hc He. rewrite (Hop Ho) in Hw. cbn [take] in Hw. rewrite app_nil_r in Hw.
  set (o := bytes_arrive y false (lk_owner l)).
  assert (udp_chain_step (mkUdpChain u ls) (mkUdpChain u (<[tid := with_owner o l]> ls))) as Hs1.
  { apply (uc_forth tid l y []); [done..|]. by rewrite app_nil_r, app_assoc. }
  destruct (owner_catches_up (tn_sent t) o) as (o' & Hs & Es).
  - exact (rtc_r _ _ _ H3 (up_bytes _ y false He)).
  - done.
  - done.
  - unfold o. cbn [bytes_arrive up_taken up_arrived]. by rewrite app_assoc, <-Hy.
  - exists (with_owner o' l). split; [|done]. eapply rtc_l; [exact Hs1|].
    pose proof (owner_chain tid (with_owner o l) o' u (<[tid := with_owner o l]> ls) Hs (lookup_insert_eq _ _ _)) as H.
    rewrite insert_insert_eq in H. exact H.
Qed.

(** The return loop, on whole frames. *)
Lemma link_answers_all ms t tid l u ls :
  Forall fits ms → u_tunnels u !! tid = Some t → ls !! tid = Some l → lk_back l = stream ms →
  ∃ u' l', rtc udp_chain_step (mkUdpChain u ls) (mkUdpChain u' (<[tid := l']> ls)) ∧
    u_tunnels u' = u_tunnels u ∧ u_log u' = u_log u ∧ lk_owner l' = lk_owner l ∧ lk_answers l' = lk_answers l ++ ms.
Proof.
  intros Hms. revert l u ls. induction Hms as [|m ms Hm _ IH]; intros l u ls Ht Hi Hb.
  { exists u, l. rewrite insert_id, app_nil_r by done. done. }
  change (stream (m :: ms)) with (frame_bytes m ++ stream ms) in Hb.
  pose proof (readFrame_frame m (stream ms) (lk_eof l) maxDatagram Hm maxDatagram_31) as Hr.
  set (l1 := mkLink (lk_wire l) (stream ms) (lk_eof l) (lk_taken l ++ take (length (lk_back l) - length (stream ms)) (lk_back l))
    (lk_answers l ++ [m]) (lk_owner l)).
  assert (link_answer l = Some l1) as Ha by (unfold link_answer; by rewrite Hb, Hr, <-Hb).
  pose proof (uc_return t tid 0 l l1 u ls Ht Hi Ha) as Hs1. set (u1 := return_frame (tn_key t) tid 0 u) in *.
  assert (u_tunnels u1 = u_tunnels u ∧ u_log u1 = u_log u) as [E1 E2].
  { unfold u1, return_frame. destruct (u_sessions u !! tn_key t); [|done]. by destruct (decide _). }
  destruct (IH l1 u1 (<[tid := l1]> ls)) as (u' & l' & Hs & Et & El & Eo & Ea).
  - by rewrite E1.
  - apply lookup_insert_eq.
  - done.
  - rewrite insert_insert_eq in Hs. exists u', l'. split_and!; [by eapply rtc_l|congruence|congruence|by rewrite Eo|].
    rewrite Ea. cbn [lk_answers l1]. by rewrite <-app_assoc.
Qed.
End Chain.

(** ** Theorem *)

(** C14. A datagram's way to a service in another container and back.  However the
    proxy's loops, the owner's goroutines, closed sessions, failed writes and the
    bytes on their way interleave: what the owner has sent to the service over a
    session are datagrams of that session's client alone, whole, each at most once
    and in the order they came; and what the client was sent back are, in order,
    answers the service gave on that session's socket.  While the tunnel is open
    everything written to it can be delivered, and everything the owner has
    written back. *)
Theorem udp_end_to_end {a : GOARCH} p c tid t l :
  udp_chain_reachable p c → u_tunnels (uc_udp c) !! tid = Some t → uc_links c !! tid = Some l →
  up_sent (lk_owner l) `prefix_of` tn_sent t ∧
  tn_sent t `sublist_of` from_client (tn_key t) (u_log (uc_udp c)) ∧
  lk_answers l `prefix_of` take maxDatagram <$> up_read (lk_owner l) ∧
  (tn_open t = true → up_closed (lk_owner l) = false → up_eof (lk_owner l) = false →
   ∃ c' l', rtc (udp_chain_step p) c c' ∧ uc_links c' !! tid = Some l' ∧ up_sent (lk_owner l') = tn_sent t) ∧
  (up_out (lk_owner l) = URead → lk_eof l = false →
   ∃ c' l', rtc (udp_chain_step p) c c' ∧ uc_links c' !! tid = Some l' ∧ lk_owner l' = lk_owner l ∧
     lk_answers l' = take maxDatagram <$> up_read (lk_owner l)).
Proof.
  intros [Hu _ Hl _]%udp_chain_reachable_inv Ht Hi. specialize (Hl tid t l Ht Hi). destruct c as [u ls]. cbn [uc_udp uc_links] in *.
  split_and!.
  - by apply link_sent.
  - destruct (udp_reachable_inv p u Hu) as [_ _ _ (old & Hlog & Hsent)].
    etrans; [by apply (Hsent tid)|]. unfold written_log in Hlog. destruct (u_pc u); rewrite Hlog; [done|apply sent_grows|done].
  - by eapply link_answered.
  - intros Ho Hc He. destruct (link_delivers p t tid l u ls Ht Hi Hl Ho Hc He) as (l' & Hs & Es).
    eexists _, l'. split_and!; [exact Hs|apply lookup_insert_eq|done].
  - intros Hout He. destruct (link_answered t l Hl) as [todo Hread]. pose proof Hl as [_ _ H3 _ [y Hy] [Htk _]].
    destruct (udp_pipe_reachable_inv _ H3) as [Hw _ _ _ _ _]. destruct Hw as (ds & Ed & Ew); [by rewrite Hout|].
    unfold out_held in Ed. rewrite Hout, app_nil_r in Ed. rewrite <-Ed, Hread, stream_app, Hy, Htk, <-app_assoc in Ew. apply app_inv_head in Ew.
    assert (udp_chain_step p (mkUdpChain u ls) (mkUdpChain u (<[tid := comes_back y false l]> ls))) as Hs1.
    { apply (uc_back p tid l y []); [done..|]. by rewrite app_nil_r, app_assoc. }
    destruct (link_answers_all p todo t tid (comes_back y false l) u (<[tid := comes_back y false l]> ls)) as (u' & l' & Hs & _ & _ & Eo & Ea).
    + assert (Forall fits (take maxDatagram <$> up_read (lk_owner l))) as Hf by (apply Forall_fmap, Forall_true; intros; apply fits_take).
      rewrite Hread in Hf. by apply Forall_app in Hf as [_ ?].
    + done.
    + apply lookup_insert_eq.
    + done.
    + rewrite insert_insert_eq in Hs. eexists _, l'. split_and!; [by eapply rtc_l|apply lookup_insert_eq|done|]. by rewrite Ea, Hread.
Qed.

(** ** A run: one datagram from a client to the service. *)

Definition sample_link : link := (link_write None [x01] link_init).1.
Definition sample_forth : link := with_owner (bytes_arrive [x00; x00; x00; x01; x01] false (lk_owner sample_link)) sample_link.
Definition sample_in : link := with_owner (in_reads (a := Amd64) (lk_owner sample_forth)) sample_forth.
Definition sample_delivered : link := with_owner (in_writes [x01] (lk_owner sample_in)) sample_in.
Definition sample_udp_chain : udp_chain := mkUdpChain sample_udp {[0%nat := sample_delivered]}.

Lemma sample_udp_chain_reachable : udp_chain_reachable (a := Amd64) sample_proxy sample_udp_chain.
Proof.
  unfold sample_udp_chain, udp_chain_reachable.
  eapply rtc_l; [by apply (uc_receive (a := Amd64) sample_proxy "127.0.0.1:9" [x01] 5 true udp_init ∅)|].
  assert (take maxDatagram [x01] = [x01]) as Etk by (vm_compute; reflexivity). rewrite Etk.
  set (u1 := receive_datagram sample_proxy "127.0.0.1:9" [x01] 5 true udp_init).
  assert (link_tunnels u1 ∅ = {[0%nat := link_init]}) as -> by (apply map_eq; intros i; vm_compute; by destruct i).
  eapply rtc_l; [apply (uc_write (a := Amd64) sample_proxy "127.0.0.1:9" 0 [x01] (mkTunnel "127.0.0.1:9" true []) link_init sample_link None false u1);
    vm_compute; done|].
  cbn [negb]. fold sample_udp. rewrite insert_singleton_eq.
  eapply rtc_l; [apply (uc_forth (a := Amd64) sample_proxy 0 sample_link [x00; x00; x00; x01; x01] [] false); vm_compute; reflexivity|].
  rewrite insert_singleton_eq. fold sample_forth.
  eapply rtc_l; [apply (uc_owner (a := Amd64) sample_proxy 0 sample_forth (in_reads (a := Amd64) (lk_owner sample_forth))); [reflexivity|]|].
  { split; [|vm_compute; done]. apply up_in_read; [done..|]. right. vm_compute. done. }
  rewrite insert_singleton_eq. fold sample_in.
  apply rtc_once. rewrite <-(insert_singleton_eq 0%nat sample_in sample_delivered).
  apply (uc_owner (a := Amd64) sample_proxy 0 sample_in (in_writes [x01] (lk_owner sample_in))); [reflexivity|]. apply owner_writes; vm_compute; reflexivity.
Qed.

Lemma udp_end_to_end_witness :
  up_sent (lk_owner sample_delivered) = [[x01]] ∧ [[x01]] `sublist_of` from_client "127.0.0.1:9" (u_log sample_udp).
Proof.
  destruct (udp_end_to_end (a := Amd64) sample_proxy sample_udp_chain 0 (mkTunnel "127.0.0.1:9" true [[x01]]) sample_delivered sample_udp_chain_reachable)
    as (_ & H & _).
  - vm_compute; reflexivity.
  - reflexivity.
  - split; [vm_compute; reflexivity|exact H].
Defined.
