(* ===== verification/LoConnect.v ===== *)
(** * internal/lo: the /connect handshake

    [server.go] ([Handler], [handleConnect], [parseListenParams]) and
    [client.go] ([dialConnect]), down to the bytes they exchange: the request
    line with its escaped query and the response that is read from the same
    buffer as the tunnel's first bytes.  [net/http] is modelled as far as the
    request line goes. *)

From S2P Require Import Prelude GoStrings GoUrl GoNet LoTypes.

Definition CRLF : string := String CR (String LF "").

(** ** client.go *)

Definition connect_query (l : Listen) : Values :=
  Values_Set "port" (strconv_Itoa (l_port l))
    (Values_Set "addr" (l_addr l)
      (Values_Set "proto" (l_proto l)
        (Values_Set "stack" (l_stack l) ∅))).

Definition connect_request (l : Listen) : string :=
  "POST /connect?" +:+ Values_Encode (connect_query l) +:+ " HTTP/1.1" +:+ CRLF +:+ "Host: peel" +:+ CRLF +:+ CRLF.

(** [br.ReadString(delim)] on a reader that will yield [s]: the text up to and
    with the delimiter, and what is left; [None] when [s] ends before it. *)
Fixpoint bufio_ReadString (s : string) (delim : ascii) : option (string * string) :=
  match s with
  | "" => None
  | String c s' =>
      if decide (c = delim) then Some (String c "", s')
      else prod_map (String c) id <$> bufio_ReadString s' delim
  end.

Inductive connect_error :=
  | EDial
  | ESend
  | EReadStatus
  | ERefused (status : string)
  | EReadHeaders.

(** The loop over the response's headers.  Every turn consumes a line, so the
    length of the stream is fuel enough ([skip_headers_eq]). *)
Fixpoint skip_headers_in (fuel : nat) (s : string) : res connect_error string :=
  match fuel with
  | O => Err EReadHeaders
  | S fuel =>
      match bufio_ReadString s LF with
      | None => Err EReadHeaders
      | Some (line, rest) =>
          if decide (strings_TrimSpace line = "") then Ok rest else skip_headers_in fuel rest
      end
  end.
Definition skip_headers (s : string) : res connect_error string := skip_headers_in (S (String.length s)) s.

(** What [dialConnect] makes of a response: the bytes the returned connection
    reads first. *)
Definition read_response (s : string) : res connect_error string :=
  match bufio_ReadString s LF with
  | None => Err EReadStatus
  | Some (status, rest) =>
      match strings_Fields status with
      | _ :: code :: _ =>
          if decide (code = "200") then skip_headers rest else Err (ERefused (strings_TrimSpace status))
      | _ => Err (ERefused (strings_TrimSpace status))
      end
  end.

(** The connection to the peer's socket: what was written and whether it was closed. *)
Record peer_conn := mkPeerConn { pc_sent : string; pc_closed : bool }.

(** [dialled]: the socket could be dialled; [sent]: the request could be
    written; [answer]: the bytes that arrive. *)
Definition dialConnect (dialled sent : bool) (answer : string) (l : Listen) :
    res connect_error string * option peer_conn :=
  if negb dialled then (Err EDial, None)
  else if negb sent then (Err ESend, Some (mkPeerConn "" true))
  else
    let r := read_response answer in
    (r, Some (mkPeerConn (connect_request l) (negb (is_Ok r)))).

(** ** server.go *)

(** [stringContainsCTLByte] of [net/url]. *)
Fixpoint has_ctl (s : string) : bool :=
  match s with
  | "" => false
  | String c s' => bool_decide (N_of_ascii c < 32 ∨ N_of_ascii c = 127)%N || has_ctl s'
  end.

(** The request line as [net/http] reads it: method, path and raw query of
    the URL.  [None] where the server answers 400 itself. *)
Definition http_request_line (line : string) : option (string * string * string) :=
  let '(method, rest, ok1) := strings_Cut line " " in
  let '(uri, proto, ok2) := strings_Cut rest " " in
  if negb (ok1 && ok2) then None
  else if negb (bool_decide (proto = "HTTP/1.1")) then None
  else if has_ctl uri then None
  else let '(p, q, _) := strings_Cut uri "?" in Some (method, p, q).

Inductive handler := HandleWatch | HandleConnect | HandleOther.

(** The patterns [Handler] registers; other paths are redirected or not found. *)
Definition Handler (p : string) : handler :=
  if decide (p = "/watch") then HandleWatch
  else if decide (p = "/connect") then HandleConnect
  else HandleOther.

Inductive param_error :=
  | EStack (s : string)
  | EProto (s : string)
  | EPort (s : string)
  | EAddr (s : string)
  | EAddrStack (addr stack : string).

Definition parseListenParams (q : Values) : res param_error Listen :=
  let stack := Values_Get q "stack" in
  if decide (stack ≠ V4 ∧ stack ≠ V6) then Err (EStack stack)
  else
    let proto := Values_Get q "proto" in
    if decide (proto ≠ TCP ∧ proto ≠ UDP) then Err (EProto proto)
    else
      match strconv_ParseUint (Values_Get q "port") 10 16 with
      | Err _ => Err (EPort (Values_Get q "port"))
      | Ok port =>
          let addr := Values_Get q "addr" in
          if negb (isLoopbackOrUnspecified addr) then Err (EAddr addr)
          else if negb (addrMatchesStack stack addr) then Err (EAddrStack addr stack)
          else Ok (mkListen stack proto addr port)
      end.

(** What became of a request: an error answered by [http.Error], or the
    connection was taken over, [written] to, and closed ([Refused]) or left to
    the pipe between it and the dialled target ([Tunnelled]). *)
Inductive connect_outcome :=
  | HttpError (code : Z)
  | HijackFailed
  | Refused (written : string)
  | Tunnelled (l : Listen) (written : string).

Definition response_200 : string := "HTTP/1.1 200 OK" +:+ CRLF +:+ "Connection: close" +:+ CRLF +:+ CRLF.
Definition response_502 (err : string) : string :=
  "HTTP/1.1 502 Bad Gateway" +:+ CRLF +:+ "Connection: close" +:+ CRLF +:+ CRLF +:+ err +:+ String LF "".

Section Connect.
(** The outcome of [net.DialTimeout(network, address, _)]. *)
Context (dial : string → string → res string unit).

(** [hijacker]: the response writer is an [http.Hijacker]; [hijacked]: [Hijack]
    succeeds.  Also returned: the dials that were made. *)
Definition handleConnect (hijacker hijacked : bool) (rawQuery : string) : connect_outcome * list (string * string) :=
  match parseListenParams (url_Query rawQuery) with
  | Err _ => (HttpError 400, [])
  | Ok l =>
      if negb hijacker then (HttpError 500, [])
      else if negb hijacked then (HijackFailed, [])
      else
        let network := dialNetwork (l_stack l) (l_proto l) in
        let target := dialTarget l in
        match dial network target with
        | Err e => (Refused (response_502 e), [(network, target)])
        | Ok _ => (Tunnelled l response_200, [(network, target)])
        end
  end.
End Connect.

(** ** Facts: the client *)

Lemma ReadString_app s c t : lacks c s → bufio_ReadString (s +:+ String c t) c = Some (s +:+ String c "", t).
Proof.
  induction s as [|d s IH]; intros H.
  - rewrite !sapp_nil. cbn. by rewrite decide_True.
  - apply lacks_cons in H as [? ?]. rewrite !sapp_cons. cbn [bufio_ReadString].
    by rewrite decide_False, IH by done.
Qed.

Lemma ReadString_shrinks s c line rest :
  bufio_ReadString s c = Some (line, rest) → (String.length rest < String.length s)%nat.
Proof.
  revert line. induction s as [|d s IH]; intros line; [done|]. cbn [bufio_ReadString String.length].
  case_decide; [intros [= _ <-]; lia|].
  destruct (bufio_ReadString s c) as [[l r]|]; [|done]. cbn. intros [= _ ->]. specialize (IH _ eq_refl). lia.
Qed.

(** What is read is a line and its end. *)
Lemma ReadString_Some s c line rest :
  bufio_ReadString s c = Some (line, rest) ↔ ∃ l, lacks c l ∧ line = l +:+ String c "" ∧ s = l +:+ String c rest.
Proof.
  split; [|intros (l & Hl & -> & ->); by apply ReadString_app].
  revert line. induction s as [|d s IH]; intros line; [done|]. cbn [bufio_ReadString]. case_decide as Hd.
  - subst. intros [= <- <-]. by exists "".
  - destruct (bufio_ReadString s c) as [[l r]|]; [|done]. cbn. intros [= <- ->].
    destruct (IH _ eq_refl) as (l' & Hl & -> & ->). exists (String d l'). split; [by apply lacks_cons|done].
Qed.

Lemma skip_headers_fuel n m s :
  (String.length s < n)%nat → (String.length s < m)%nat → skip_headers_in n s = skip_headers_in m s.
Proof.
  revert m s. induction n as [|n IH]; intros [|m] s Hn Hm; [lia..|]. cbn [skip_headers_in].
  destruct (bufio_ReadString s LF) as [[line rest]|] eqn:E; [|done].
  apply ReadString_shrinks in E. case_decide; [done|]. apply IH; lia.
Qed.

(** The loop as the source has it. *)
Lemma skip_headers_eq s :
  skip_headers s =
  match bufio_ReadString s LF with
  | None => Err EReadHeaders
  | Some (line, rest) => if decide (strings_TrimSpace line = "") then Ok rest else skip_headers rest
  end.
Proof.
  unfold skip_headers at 1. cbn [skip_headers_in].
  destruct (bufio_ReadString s LF) as [[line rest]|] eqn:E; [|done].
  apply ReadString_shrinks in E. case_decide; [done|]. apply skip_headers_fuel; lia.
Qed.

Lemma read_200 data : read_response (response_200 +:+ data) = Ok data.
Proof.
  unfold read_response, response_200. rewrite !sapp_assoc.
  change ("HTTP/1.1 200 OK" +:+ CRLF +:+ ?t) with ("HTTP/1.1 200 OK" +:+ String CR "" +:+ String LF t).
  rewrite <-sapp_assoc, ReadString_app by done.
  change (strings_Fields _) with ["HTTP/1.1"; "200"; "OK"]. cbv beta iota. rewrite decide_True by done.
  rewrite skip_headers_eq.
  change ("Connection: close" +:+ CRLF +:+ ?t) with (("Connection: close" +:+ String CR "") +:+ String LF t).
  rewrite ReadString_app by done. rewrite decide_False by (by vm_compute).
  rewrite skip_headers_eq. change (CRLF +:+ data) with (String CR "" +:+ String LF data).
  rewrite ReadString_app by done. by rewrite decide_True by (by vm_compute).
Qed.

Lemma read_502 e : read_response (response_502 e) = Err (ERefused "HTTP/1.1 502 Bad Gateway").
Proof.
  unfold read_response, response_502.
  change ("HTTP/1.1 502 Bad Gateway" +:+ CRLF +:+ ?t) with (("HTTP/1.1 502 Bad Gateway" +:+ String CR "") +:+ String LF t).
  rewrite ReadString_app by done.
  change (strings_Fields _) with ["HTTP/1.1"; "502"; "Bad"; "Gateway"]. reflexivity.
Qed.

(** ** Facts: the parameters *)

Lemma Get_Set k v q : Values_Get (Values_Set k v q) k = v.
Proof. unfold Values_Get, Values_Set. by rewrite lookup_insert_eq. Qed.
Lemma Get_Set_ne k k' v q : k ≠ k' → Values_Get (Values_Set k' v q) k = Values_Get q k.
Proof. intros. unfold Values_Get, Values_Set. by rewrite lookup_insert_ne. Qed.

(** The parameters are accepted exactly when they describe a listen that may be
    reached. *)
Lemma parseListenParams_Ok q l :
  parseListenParams q = Ok l ↔
  l_stack l = Values_Get q "stack" ∧ l_proto l = Values_Get q "proto" ∧ l_addr l = Values_Get q "addr" ∧
  strconv_ParseUint (Values_Get q "port") 10 16 = Ok (l_port l) ∧ connectable l.
Proof.
  unfold parseListenParams, connectable. split.
  - case_decide as Hs; [done|]. case_decide as Hp; [done|].
    destruct (strconv_ParseUint _ _ _) as [port|] eqn:Hport; [|done].
    destruct (isLoopbackOrUnspecified _) eqn:Ha; [|done]. destruct (addrMatchesStack _ _) eqn:Hm; [|done].
    intros [= <-]. cbn. apply ParseUint_range in Hport as Hr; [|done..].
    split_and!; try done; [| |lia..].
    + destruct (decide (Values_Get q "stack" = V4)); [by left|]. right. by destruct (decide (Values_Get q "stack" = V6)); [|tauto].
    + destruct (decide (Values_Get q "proto" = TCP)); [by left|]. right. by destruct (decide (Values_Get q "proto" = UDP)); [|tauto].
  - intros (E1 & E2 & E3 & Hport & Hs & Hp & _ & Ha & Hm).
    rewrite <-E1, <-E2, <-E3, Hport, Ha, Hm.
    rewrite decide_False by naive_solver. rewrite decide_False by naive_solver.
    by destruct l.
Qed.

Lemma connect_query_nonempty l k : connect_query l !! k ≠ Some [].
Proof. unfold connect_query, Values_Set. rewrite !lookup_insert. repeat case_decide; by try rewrite lookup_empty. Qed.

(** The owner of a listen reads the request for it back. *)
Lemma parse_connect_query l :
  connectable l → parseListenParams (url_Query (Values_Encode (connect_query l))) = Ok l.
Proof.
  intros Hl. rewrite Query_Encode by apply connect_query_nonempty. apply parseListenParams_Ok.
  unfold connect_query. rewrite !Get_Set, !Get_Set_ne by done. rewrite !Get_Set.
  rewrite !Get_Set_ne by done. rewrite !Get_Set.
  split_and!; try done. apply ParseUint_Itoa; [lia|]. apply Hl.
Qed.

(** ** Facts: the request line *)

Lemma has_ctl_app s t : has_ctl (s +:+ t) = has_ctl s || has_ctl t.
Proof. induction s as [|c s IH]; [done|]. rewrite sapp_cons. cbn [has_ctl]. by rewrite IH, orb_assoc. Qed.

Lemma has_ctl_lacks s : (∀ c, (N_of_ascii c < 32 ∨ N_of_ascii c = 127)%N → lacks c s) → has_ctl s = false.
Proof.
  induction s as [|d s IH]; intros H; [done|]. cbn [has_ctl]. apply orb_false_iff. split.
  - apply bool_decide_eq_false. intros Hd. by apply H, lacks_cons in Hd as [? _].
  - apply IH. intros c Hc. by apply H, lacks_cons in Hc as [_ ?].
Qed.

Lemma ctl_not_query c : (N_of_ascii c < 32 ∨ N_of_ascii c = 127)%N → query_char c = false.
Proof.
  intros Hc. unfold query_char, unreserved. rewrite !orb_false_iff, !bool_decide_eq_false.
  rewrite !list_elem_of_In. cbn. split_and!; try lia; intros H; destruct_or?; subst; cbn in Hc; lia.
Qed.

Lemma Join_lacks ws sep c : Forall (lacks c) ws → lacks c sep → lacks c (strings_Join ws sep).
Proof.
  intros H Hs. induction H as [|w ws Hw _ IH]; [apply lacks_nil|].
  destruct (decide (ws = [])) as [->|]; [done|]. rewrite Join_cons by done.
  by rewrite !lacks_app.
Qed.

Lemma Encode_lacks q c : query_char c = false → c ≠ "="%char → c ≠ "&"%char → lacks c (Values_Encode q).
Proof.
  intros Hc He Ha. apply Join_lacks; [|apply lacks_cons; split; [done|apply lacks_nil]].
  apply Forall_forall. intros w (k & Hw & _)%list_elem_of_bind.
  apply list_elem_of_bind in Hw as (v & Hw & _). apply list_elem_of_singleton in Hw as ->.
  by apply escaped_pair_lacks.
Qed.

(** The first line of the client's request, without its CRLF. *)
Definition connect_line (l : Listen) : string :=
  "POST /connect?" +:+ Values_Encode (connect_query l) +:+ " HTTP/1.1".

Lemma connect_request_line l :
  bufio_ReadString (connect_request l) LF = Some (connect_line l +:+ CRLF, "Host: peel" +:+ CRLF +:+ CRLF).
Proof.
  unfold connect_request, connect_line. generalize (Encode_lacks (connect_query l) LF eq_refl).
  generalize (Values_Encode (connect_query l)). intros e He.
  specialize (He ltac:(done) ltac:(done)).
  pose proof (ReadString_app ("POST /connect?" +:+ e +:+ (" HTTP/1.1" +:+ String CR "")) LF
    ("Host: peel" +:+ CRLF +:+ CRLF)) as H.
  rewrite !sapp_assoc in H. rewrite (sapp_assoc _ (e +:+ _)), (sapp_assoc e).
  apply H. rewrite !lacks_app. split_and!; [done|apply He|done|done].
Qed.

Lemma connect_line_parses l :
  http_request_line (connect_line l) = Some ("POST", "/connect", Values_Encode (connect_query l)).
Proof.
  unfold http_request_line, connect_line. set (e := Values_Encode _).
  assert (∀ c, query_char c = false → c ≠ "="%char → c ≠ "&"%char → lacks c e) as He by (intros; by apply Encode_lacks).
  change ("POST /connect?" +:+ e +:+ " HTTP/1.1") with ("POST" +:+ String " " (("/connect?" +:+ e) +:+ String " " "HTTP/1.1")).
  rewrite Cut_app by done. rewrite Cut_app by (apply lacks_app; split; [done|by apply He]).
  cbn [andb negb]. rewrite bool_decide_true by done. cbn [negb].
  rewrite has_ctl_app, (has_ctl_lacks e).
  - change ("/connect?" +:+ e) with ("/connect" +:+ String "?" e). by rewrite Cut_app.
  - intros c Hc. apply He; [by apply ctl_not_query|intros ->; cbn in Hc; lia..].
Qed.

(** What is dialled for an accepted listen is a loopback address of its family. *)
Lemma dialTarget_loopback l :
  connectable l → ∃ addr ip,
    dialTarget l = hostPort (l_stack l) addr (l_port l) ∧ net_ParseIP addr = Some ip ∧
    IP_IsLoopback ip = true ∧ (is_Some (IP_To4 ip) ↔ l_stack l = V4).
Proof.
  intros (Hs & _ & _ & Ha & Hm). unfold dialTarget. destruct (isUnspecified (l_addr l)) eqn:Hu.
  - destruct Hs as [E|E]; rewrite E; cbn; eexists _, _; (split_and!; [done|reflexivity|done|]); split.
    + done.
    + intros _. by eexists.
    + by intros [? [=]].
    + intros [=].
  - exists (l_addr l). unfold isLoopbackOrUnspecified, isUnspecified, addrMatchesStack in *.
    destruct (net_ParseIP (l_addr l)) as [ip|]; [|done]. rewrite Hu, orb_false_r in Ha.
    exists ip. split_and!; [done..|]. destruct Hs as [E|E]; rewrite E in *; cbn in Hm.
    + by apply bool_decide_eq_true in Hm.
    + apply negb_true_iff, bool_decide_eq_false in Hm. split; [done|intros [=]].
Qed.

(** ** Theorems *)

(** C38. Whatever a peer puts in its request, [/connect] never reaches further than
    this container's loopback: it dials at most once, over tcp or udp of the
    family asked for, a loopback address of that family and a 16-bit port. *)
Theorem connect_only_loopback dial hijacker hijacked rawQuery network target :
  (network, target) ∈ (handleConnect dial hijacker hijacked rawQuery).2 →
  ∃ stack proto addr port ip,
    (handleConnect dial hijacker hijacked rawQuery).2 = [(network, target)] ∧
    (stack = V4 ∨ stack = V6) ∧ (proto = TCP ∨ proto = UDP) ∧ 0 ≤ port < 2 ^ 16 ∧
    network = dialNetwork stack proto ∧ target = hostPort stack addr port ∧
    net_ParseIP addr = Some ip ∧ IP_IsLoopback ip = true ∧ (is_Some (IP_To4 ip) ↔ stack = V4).
Proof.
  unfold handleConnect. destruct (parseListenParams _) as [l|] eqn:Hl; [|by intros ?%elem_of_nil].
  apply parseListenParams_Ok in Hl as (_ & _ & _ & _ & Hl).
  destruct hijacker, hijacked; cbn [negb snd]; try by intros ?%elem_of_nil.
  assert (∀ o : connect_outcome, (match dial (dialNetwork (l_stack l) (l_proto l)) (dialTarget l) with
    | Ok _ => (Tunnelled l response_200, [(dialNetwork (l_stack l) (l_proto l), dialTarget l)])
    | Err e => (Refused (response_502 e), [(dialNetwork (l_stack l) (l_proto l), dialTarget l)]) end).2 =
    [(dialNetwork (l_stack l) (l_proto l), dialTarget l)]) as E by (intros _; by destruct (dial _ _)).
  rewrite (E HijackFailed). intros [= -> ->]%list_elem_of_singleton.
  destruct (dialTarget_loopback l Hl) as (addr & ip & Ht & Hip & Hlo & H4).
  exists (l_stack l), (l_proto l), addr, (l_port l), ip.
  destruct Hl as (? & ? & ? & _). split_and!; try done; lia.
Qed.

Definition accept_all (network address : string) : res string unit := Ok tt.

Lemma connect_only_loopback_witness :
  ∃ stack proto addr port ip,
    (handleConnect accept_all true true "addr=0.0.0.0&port=80&proto=tcp&stack=v4").2 = [("tcp4", "127.0.0.1:80")] ∧
    (stack = V4 ∨ stack = V6) ∧ (proto = TCP ∨ proto = UDP) ∧ 0 ≤ port < 2 ^ 16 ∧
    "tcp4" = dialNetwork stack proto ∧ "127.0.0.1:80" = hostPort stack addr port ∧
    net_ParseIP addr = Some ip ∧ IP_IsLoopback ip = true ∧ (is_Some (IP_To4 ip) ↔ stack = V4).
Proof.
  apply (connect_only_loopback accept_all true true "addr=0.0.0.0&port=80&proto=tcp&stack=v4" "tcp4" "127.0.0.1:80").
  vm_compute. left.
Defined.

(** C39. Both ends of [/connect] agree: the request [dialConnect] writes for a
    listen that may be reached is routed to [handleConnect], which dials that
    very listen; if this succeeds the caller gets a connection that reads
    exactly what the target sends, from its first byte on even if it arrived
    together with the response; if it fails the caller gets an error and has
    closed its connection. *)
Theorem connect_handshake dial l data :
  connectable l →
  ∃ line rest rawQuery,
    bufio_ReadString (connect_request l) LF = Some (line +:+ CRLF, rest) ∧
    http_request_line line = Some ("POST", "/connect", rawQuery) ∧ Handler "/connect" = HandleConnect ∧
    match dial (dialNetwork (l_stack l) (l_proto l)) (dialTarget l) with
    | Ok _ =>
        (handleConnect dial true true rawQuery).1 = Tunnelled l response_200 ∧
        dialConnect true true (response_200 +:+ data) l = (Ok data, Some (mkPeerConn (connect_request l) false))
    | Err e =>
        (handleConnect dial true true rawQuery).1 = Refused (response_502 e) ∧
        dialConnect true true (response_502 e) l =
          (Err (ERefused "HTTP/1.1 502 Bad Gateway"), Some (mkPeerConn (connect_request l) true))
    end.
Proof.
  intros Hl. eexists (connect_line l), _, _.
  split_and!; [apply connect_request_line|apply connect_line_parses|done|].
  unfold handleConnect. rewrite parse_connect_query by done. cbn [negb].
  unfold dialConnect. cbn [negb].
  destruct (dial _ _) as [u|e]; (split; [done|]); by rewrite ?read_200, ?read_502.
Qed.

Lemma connect_handshake_witness :
  let l := mkListen V6 TCP "::1" 5432 in
  ∃ line rest rawQuery,
    bufio_ReadString (connect_request l) LF = Some (line +:+ CRLF, rest) ∧
    http_request_line line = Some ("POST", "/connect", rawQuery) ∧ Handler "/connect" = HandleConnect ∧
    (handleConnect accept_all true true rawQuery).1 = Tunnelled l response_200 ∧
    dialConnect true true (response_200 +:+ "hello") l = (Ok "hello", Some (mkPeerConn (connect_request l) false)).
Proof.
  apply (connect_handshake accept_all (mkListen V6 TCP "::1" 5432) "hello").
  unfold connectable. cbn. split_and!; by (left + right + idtac).
Defined.

Lemma cut_inj c l l' t t' : lacks c l → lacks c l' → l +:+ String c t = l' +:+ String c t' → l = l' ∧ t = t'.
Proof.
  revert l'. induction l as [|d l IH]; intros [|d' l'] H H' E; rewrite ?sapp_nil, ?sapp_cons in E.
  - by injection E.
  - injection E as <- _. by apply lacks_cons in H' as [? _].
  - injection E as -> _. by apply lacks_cons in H as [? _].
  - injection E as <- E. apply lacks_cons in H as [_ H], H' as [_ H']. by destruct (IH l' H H' E) as [<- <-].
Qed.

(** A header line, and the line that ends them. *)
Definition header_line (l : string) : Prop := lacks LF l ∧ strings_TrimSpace (l +:+ String LF "") ≠ "".
Definition blank_line (l : string) : Prop := lacks LF l ∧ strings_TrimSpace (l +:+ String LF "") = "".

(** C20. The loop of [dialConnect] over the headers of a response ends on every
    stream, within one turn more than the stream has bytes: it stops at the
    first blank line and hands over exactly what follows it, and it is an error
    precisely if there is no such line before the stream ends. *)
Theorem headers_terminate s :
  (∀ fuel, (String.length s < fuel)%nat → skip_headers_in fuel s = skip_headers s) ∧
  (∀ rest, skip_headers s = Ok rest ↔
    ∃ hs b, Forall header_line hs ∧ blank_line b ∧ s = file_of_lines hs +:+ b +:+ String LF rest) ∧
  ((∃ rest, skip_headers s = Ok rest) ∨ skip_headers s = Err EReadHeaders).
Proof.
  split; [intros; apply skip_headers_fuel; lia|].
  induction s as [s IH] using (induction_ltof1 _ String.length). unfold ltof in IH.
  rewrite skip_headers_eq. destruct (bufio_ReadString s LF) as [[line rest]|] eqn:Er.
  2: { split; [|by right]. intros rest. split; [done|]. intros (hs & b & Hhs & [Hb _] & ->). exfalso.
       destruct Hhs as [|h hs [Hh _] _]; unfold file_of_lines in Er; cbn [foldr] in Er; [rewrite sapp_nil in Er|rewrite sapp_assoc in Er];
         rewrite ?sapp_cons in Er; by rewrite ReadString_app in Er. }
  pose proof (ReadString_shrinks _ _ _ _ Er) as Hlt. apply ReadString_Some in Er as (l & Hl & -> & ->).
  destruct (IH rest Hlt) as [IH1 IH2]. clear IH.
  case_decide as Hb; (split; [|first [by left; eauto|done]]); intros rest'; split.
  - intros [= <-]. by exists [], l.
  - intros (hs & b & Hhs & [Hb' Hb''] & Es). destruct Hhs as [|h hs [Hh Hh'] _]; unfold file_of_lines in Es; cbn [foldr] in Es.
    + rewrite sapp_nil in Es. by apply cut_inj in Es as [_ ->].
    + rewrite sapp_assoc, sapp_cons in Es. apply cut_inj in Es as [-> _]; done.
  - intros (hs & b & Hhs & Hb' & ->)%IH1. exists (l :: hs), b. split_and!; [by constructor|done|].
    unfold file_of_lines. cbn [foldr]. by rewrite sapp_assoc, sapp_cons.
  - intros (hs & b & Hhs & [Hb' Hb''] & Es). apply IH1. destruct Hhs as [|h hs [Hh Hh'] Hhs]; unfold file_of_lines in Es; cbn [foldr] in Es.
    + rewrite sapp_nil in Es. by apply cut_inj in Es as [<- _].
    + rewrite sapp_assoc, sapp_cons in Es. apply cut_inj in Es as [_ ->]; [|done..]. by exists hs, b.
Qed.

Definition sample_headers : string := "Connection: close" +:+ CRLF +:+ CRLF +:+ "data".

Lemma headers_terminate_witness :
  skip_headers_in 100 sample_headers = skip_headers sample_headers ∧
  ∃ hs b, Forall header_line hs ∧ blank_line b ∧ sample_headers = file_of_lines hs +:+ b +:+ String LF "data".
Proof.
  assert (String.length sample_headers < 100)%nat as Hlen by (apply Nat.ltb_lt; by vm_compute).
  assert (skip_headers sample_headers = Ok "data") as H by (by vm_compute).
  destruct (headers_terminate sample_headers) as (Hf & Hr & _). split; [exact (Hf 100%nat Hlen)|exact (proj1 (Hr "data") H)].
Defined.
