(* ===== verification/LoPipe.v ===== *)
(** * internal/lo: forwarding bytes

    [pipeTCP] of [pipe.go]: two [io.Copy] goroutines between two connections
    and the [sync.Once] that closes both, as interleaved steps.  The two ends
    are numbered by a boolean; the goroutine [d] copies from end [d] to end
    [negb d]. *)

From stdpp Require Import functions.
From S2P Require Import Prelude.

(** One end: the bytes its peer has sent that were not read yet, those read,
    whether its peer has finished sending, the bytes written to it, and whether
    [Close] was called. *)
Record conn := mkConn {
  cn_arrived : payload;
  cn_read : payload;
  cn_eof : bool;
  cn_written : payload;
  cn_closed : bool;
}.

Definition conn_init : conn := mkConn [] [] false [] false.

(** Where a copying goroutine is: in [Read], about to [Write] a chunk, or returned. *)
Inductive copy_pc :=
  | CRead
  | CWrite (chunk : payload)
  | CDone.

Record pipe := mkPipe {
  pp_conn : bool → conn;
  pp_pc : bool → copy_pc;
}.

Definition pipe_init : pipe := mkPipe (λ _, conn_init) (λ _, CRead).

Definition on_read (chunk rest : payload) (c : conn) : conn :=
  mkConn rest (cn_read c ++ chunk) (cn_eof c) (cn_written c) (cn_closed c).
Definition on_write (chunk : payload) (c : conn) : conn :=
  mkConn (cn_arrived c) (cn_read c) (cn_eof c) (cn_written c ++ chunk) (cn_closed c).
Definition on_arrive (data : payload) (eof : bool) (c : conn) : conn :=
  mkConn (cn_arrived c ++ data) (cn_read c) eof (cn_written c) (cn_closed c).
Definition on_close (c : conn) : conn :=
  mkConn (cn_arrived c) (cn_read c) (cn_eof c) (cn_written c) true.

(** [closeBoth]; a second call does nothing, and would change nothing. *)
Definition closeBoth (cs : bool → conn) : bool → conn := λ d, on_close (cs d).

(** [io.Copy(to, from)] goes on with a non-empty chunk read, or returns at the
    end of the input or an error; a chunk is written whole, or in part with an
    error; when it returns, [closeBoth] is called. *)
Inductive pipe_step : pipe → pipe → Prop :=
  | pipe_read d p chunk rest :
      pp_pc p d = CRead → cn_closed (pp_conn p d) = false → chunk ≠ [] →
      cn_arrived (pp_conn p d) = chunk ++ rest →
      pipe_step p (mkPipe (<[d := on_read chunk rest (pp_conn p d)]> (pp_conn p)) (<[d := CWrite chunk]> (pp_pc p)))
  | pipe_read_eof d p :
      pp_pc p d = CRead → cn_eof (pp_conn p d) = true → cn_arrived (pp_conn p d) = [] →
      pipe_step p (mkPipe (closeBoth (pp_conn p)) (<[d := CDone]> (pp_pc p)))
  | pipe_read_error d p :
      pp_pc p d = CRead →
      pipe_step p (mkPipe (closeBoth (pp_conn p)) (<[d := CDone]> (pp_pc p)))
  | pipe_write d p chunk :
      pp_pc p d = CWrite chunk → cn_closed (pp_conn p (negb d)) = false →
      pipe_step p (mkPipe (<[negb d := on_write chunk (pp_conn p (negb d))]> (pp_conn p)) (<[d := CRead]> (pp_pc p)))
  | pipe_write_error d p part rest :
      pp_pc p d = CWrite (part ++ rest) →
      pipe_step p (mkPipe (closeBoth (<[negb d := on_write part (pp_conn p (negb d))]> (pp_conn p)))
        (<[d := CDone]> (pp_pc p)))
  | pipe_arrive d p data eof :
      cn_eof (pp_conn p d) = false →
      pipe_step p (mkPipe (<[d := on_arrive data eof (pp_conn p d)]> (pp_conn p)) (pp_pc p)).

Definition pipe_reachable : pipe → Prop := rtc pipe_step pipe_init.

(** [pipeTCP] returns when both goroutines have. *)
Definition pipe_returned (p : pipe) : Prop := ∀ d, pp_pc p d = CDone.

(** ** Invariant *)

(** The bytes end [d] was sent so far. *)
Definition received (p : pipe) (d : bool) : payload := cn_read (pp_conn p d) ++ cn_arrived (pp_conn p d).

(** What was read but not written yet. *)
Definition held (p : pipe) (d : bool) : payload := match pp_pc p d with CWrite chunk => chunk | _ => [] end.

Record pipe_inv (p : pipe) : Prop := {
  pi_copied d : pp_pc p d ≠ CDone → cn_read (pp_conn p d) = cn_written (pp_conn p (negb d)) ++ held p d;
  pi_prefix d : cn_written (pp_conn p (negb d)) `prefix_of` cn_read (pp_conn p d);
  pi_closed d : pp_pc p d = CDone → ∀ e, cn_closed (pp_conn p e) = true;
  pi_open : (∃ d, pp_pc p d = CDone) ∨ ∀ e, cn_closed (pp_conn p e) = false;
}.

Lemma pipe_inv_init : pipe_inv pipe_init.
Proof. split; [done..|by right]. Qed.

Lemma end_cases (d e : bool) : e = d ∨ e = negb d.
Proof. destruct d, e; auto. Qed.

(** What holds of both directions holds of [d] and of [negb d]. *)
Lemma both_ends (P : bool → bool → Prop) d : P d (negb d) → P (negb d) d → ∀ e, P e (negb e).
Proof. intros H1 H2 e. destruct (end_cases d e) as [-> | ->]; [done|by rewrite negb_involutive]. Qed.

Lemma insert_d {A} (d : bool) (x : A) (f : bool → A) : (<[d := x]> f) d = x.
Proof. apply fn_lookup_insert. Qed.
Lemma insert_other {A} (d : bool) (x : A) (f : bool → A) : (<[d := x]> f) (negb d) = f (negb d).
Proof. apply fn_lookup_insert_ne. by destruct d. Qed.
Lemma insert_negb {A} (d : bool) (x : A) (f : bool → A) : (<[negb d := x]> f) d = f d.
Proof. apply fn_lookup_insert_ne. by destruct d. Qed.
Create Rewrite HintDb ends.
#[local] Hint Rewrite @insert_d @insert_other @insert_negb negb_involutive : ends.

Section Step.
Context (p : pipe) (Hinv : pipe_inv p) (d : bool).

Lemma inv_other :
  (pp_pc p (negb d) ≠ CDone → cn_read (pp_conn p (negb d)) = cn_written (pp_conn p d) ++ held p (negb d)) ∧
  cn_written (pp_conn p d) `prefix_of` cn_read (pp_conn p (negb d)).
Proof.
  pose proof (pi_copied p Hinv (negb d)) as H1. pose proof (pi_prefix p Hinv (negb d)) as H2.
  rewrite negb_involutive in H1, H2. done.
Qed.

(** A step that leaves the direction from [negb d] to [d] alone. *)
Lemma pipe_inv_dir cs pcs :
  pcs (negb d) = pp_pc p (negb d) →
  cn_read (cs (negb d)) = cn_read (pp_conn p (negb d)) → cn_written (cs d) = cn_written (pp_conn p d) →
  (pcs d ≠ CDone → cn_read (cs d) = cn_written (cs (negb d)) ++ held (mkPipe cs pcs) d) →
  cn_written (cs (negb d)) `prefix_of` cn_read (cs d) →
  (pcs d = CDone ∧ (∀ e, cn_closed (cs e) = true) ∨
   (pcs d = CDone ↔ pp_pc p d = CDone) ∧ ∀ e, cn_closed (cs e) = cn_closed (pp_conn p e)) →
  pipe_inv (mkPipe cs pcs).
Proof.
  intros Hpc Hr Hw Hcopy Hpre Hclose. destruct inv_other as [Ho1 Ho2].
  split; cbn [pp_conn pp_pc].
  - apply (both_ends (λ e e', pcs e ≠ CDone → cn_read (cs e) = cn_written (cs e') ++ held (mkPipe cs pcs) e) d); [done|].
    unfold held in *. cbn [pp_pc]. by rewrite Hpc, Hr, Hw.
  - apply (both_ends (λ e e', cn_written (cs e') `prefix_of` cn_read (cs e)) d); [done|]. by rewrite Hr, Hw.
  - intros e He e'. destruct Hclose as [[_ H]|[Hd H]]; [done|]. rewrite H. eapply (pi_closed p Hinv e).
    destruct (end_cases d e) as [-> | ->]; [by apply Hd|by rewrite <-Hpc].
  - destruct Hclose as [[H _]|[Hd H]]; [left; by exists d|].
    destruct (pi_open p Hinv) as [[e He]|Hop]; [left; exists e|right; intros e; by rewrite H].
    destruct (end_cases d e) as [-> | ->]; [by apply Hd|by rewrite Hpc].
Qed.

(** A goroutine returns, and both ends are closed. *)
Lemma pipe_inv_done cs :
  cn_read (cs d) = cn_read (pp_conn p d) → cn_read (cs (negb d)) = cn_read (pp_conn p (negb d)) →
  cn_written (cs d) = cn_written (pp_conn p d) → cn_written (cs (negb d)) `prefix_of` cn_read (pp_conn p d) →
  pipe_inv (mkPipe (closeBoth cs) (<[d := CDone]> (pp_pc p))).
Proof.
  intros Hr Hr' Hw Hpre. apply pipe_inv_dir; unfold closeBoth; autorewrite with ends; try done.
  - cbn. by rewrite Hr.
  - by left.
Qed.
End Step.

Ltac solve_ends d :=
  autorewrite with ends; try done; intros e; destruct (end_cases d e) as [-> | ->]; by autorewrite with ends.

Lemma pipe_step_inv p p' : pipe_step p p' → pipe_inv p → pipe_inv p'.
Proof.
  intros Hstep Hinv.
  assert (∀ d h, pp_pc p d ≠ CDone → held p d = h →
    cn_read (pp_conn p d) = cn_written (pp_conn p (negb d)) ++ h) as Hc.
  { intros d h Hd <-. by apply pi_copied. }
  unfold held in Hc.
  destruct Hstep as [d p chunk rest Hpc Hop Hne Harr|d p Hpc Heof Harr|d p Hpc|d p chunk Hpc Hop|d p part rest Hpc|d p data eof Heof].
  - specialize (Hc d [] ltac:(by rewrite Hpc) ltac:(by rewrite Hpc)). rewrite app_nil_r in Hc.
    apply (pipe_inv_dir p Hinv d); unfold held; cbn; autorewrite with ends; try done; cbn.
    + by rewrite Hc.
    + rewrite Hc. by eexists.
    + right. rewrite Hpc. split; [done|]. solve_ends d.
  - apply (pipe_inv_done p Hinv d); [done..|]. by apply pi_prefix.
  - apply (pipe_inv_done p Hinv d); [done..|]. by apply pi_prefix.
  - specialize (Hc d chunk ltac:(by rewrite Hpc) ltac:(by rewrite Hpc)).
    apply (pipe_inv_dir p Hinv d); unfold held; cbn; autorewrite with ends; try done; cbn.
    + by rewrite Hc, app_nil_r.
    + by rewrite Hc.
    + right. rewrite Hpc. split; [done|]. solve_ends d.
  - specialize (Hc d (part ++ rest) ltac:(by rewrite Hpc) ltac:(by rewrite Hpc)).
    apply (pipe_inv_done p Hinv d); autorewrite with ends; [done..|]. cbn. rewrite Hc, app_assoc. by eexists.
  - apply (pipe_inv_dir p Hinv d); unfold held; cbn; autorewrite with ends; try done; cbn.
    + intros Hd. by apply Hc.
    + by apply pi_prefix.
    + right. split; [done|]. solve_ends d.
Qed.

Lemma pipe_reachable_inv p : pipe_reachable p → pipe_inv p.
Proof. intros H. eapply rtc_invariant; [apply pipe_step_inv|done|apply pipe_inv_init]. Qed.

(** ** Theorems *)

(** What comes out at one end of a TCP pipe is an exact prefix of what went in
    at the other, and of nothing else; while a direction is being copied the
    rest is what is held or still to be read, so none is lost.  Either both ends
    are open or both are closed; once one goroutine has returned they are
    closed, the other one's next step is its last, and it can always take it,
    so [pipeTCP] returns and leaves no connection open. *)
Theorem pipe_faithful p :
  pipe_reachable p →
  (∀ d, cn_written (pp_conn p (negb d)) `prefix_of` received p d) ∧
  (∀ d, pp_pc p d ≠ CDone → received p d = cn_written (pp_conn p (negb d)) ++ held p d ++ cn_arrived (pp_conn p d)) ∧
  (∀ d, pp_pc p d = CDone →
    (∀ e, cn_closed (pp_conn p e) = true) ∧
    (∀ p', pipe_step p p' → pp_pc p' = pp_pc p ∨ pipe_returned p') ∧
    (pipe_returned p ∨ ∃ p', pipe_step p p' ∧ pipe_returned p')).
Proof.
  intros Hr%pipe_reachable_inv. unfold received. split_and!.
  - intros d. apply prefix_app_r, pi_prefix, Hr.
  - intros d Hd. rewrite app_assoc. f_equal. by apply pi_copied.
  - intros d Hd. pose proof (pi_closed p Hr d Hd) as Hcl. split_and!; [done|..].
    + intros p' Hs. destruct Hs as [d' p chunk rest Hpc Hop|d' p Hpc|d' p Hpc|d' p chunk Hpc Hop|d' p part rest Hpc|d' p data eof Heof];
        try (by rewrite Hcl in Hop); try (by left); right; intros e; cbn;
        (destruct (end_cases d' d) as [-> | ->]; [congruence|]);
        destruct (end_cases d' e) as [-> | ->]; by autorewrite with ends.
    + destruct (pp_pc p (negb d)) as [|chunk|] eqn:Hpc.
      * right. eexists. split; [by apply (pipe_read_error (negb d))|].
        intros e. cbn. destruct (end_cases d e) as [-> | ->]; by autorewrite with ends.
      * right. eexists. split; [by apply (pipe_write_error (negb d) p [] chunk)|].
        intros e. cbn. destruct (end_cases d e) as [-> | ->]; by autorewrite with ends.
      * left. intros e. by destruct (end_cases d e) as [-> | ->].
Qed.

(** "A" was sent to one end, copied to the other, and then the sender finished. *)
Definition sample_pipe_data : pipe :=
  mkPipe (<[false := on_arrive [x41] true conn_init]> (λ _, conn_init)) (λ _, CRead).
Definition sample_pipe_read : pipe :=
  mkPipe (<[false := on_read [x41] [] (pp_conn sample_pipe_data false)]> (pp_conn sample_pipe_data))
    (<[false := CWrite [x41]]> (pp_pc sample_pipe_data)).
Definition sample_pipe_written : pipe :=
  mkPipe (<[true := on_write [x41] (pp_conn sample_pipe_read true)]> (pp_conn sample_pipe_read))
    (<[false := CRead]> (pp_pc sample_pipe_read)).
Definition sample_pipe_ended : pipe :=
  mkPipe (closeBoth (pp_conn sample_pipe_written)) (<[false := CDone]> (pp_pc sample_pipe_written)).

Lemma sample_pipe_reachable : pipe_reachable sample_pipe_ended.
Proof.
  eapply rtc_l; [by apply (pipe_arrive false pipe_init [x41] true)|].
  eapply rtc_l; [by apply (pipe_read false sample_pipe_data [x41] [])|].
  eapply rtc_l; [by apply (pipe_write false sample_pipe_read [x41])|].
  apply rtc_once. by apply (pipe_read_eof false sample_pipe_written).
Qed.

Lemma pipe_faithful_witness :
  cn_written (pp_conn sample_pipe_ended true) = [x41] ∧
  (∀ d, cn_written (pp_conn sample_pipe_ended (negb d)) `prefix_of` received sample_pipe_ended d) ∧
  (∀ e, cn_closed (pp_conn sample_pipe_ended e) = true).
Proof.
  destruct (pipe_faithful sample_pipe_ended sample_pipe_reachable) as (H1 & _ & H3).
  split_and!; [reflexivity|apply H1|by apply (H3 false)].
Defined.

(** A sender that only finishes its own direction, as a client that shuts down its
    writing side after the request, never gets the answer: nothing the other end
    sends from then on is delivered. *)
Lemma half_close_truncates p : rtc pipe_step sample_pipe_ended p → cn_written (pp_conn p false) = [].
Proof.
  intros Hr.
  set (stuck := λ p, (∀ e, cn_closed (pp_conn p e) = true) ∧ (∀ e chunk, pp_pc p e ≠ CWrite chunk) ∧ cn_written (pp_conn p false) = []).
  assert (stuck p) as H; [|apply H].
  apply (rtc_invariant pipe_step stuck sample_pipe_ended p); [|done|split_and!; [by intros []|by intros []|done]].
  intros x y Hs (Hc & Hw & He).
  assert (∀ d e chunk, (<[d := CDone]> (pp_pc x)) e ≠ CWrite chunk) as Hdone.
  { intros d e chunk. destruct (end_cases d e) as [-> | ->]; by autorewrite with ends. }
  destruct Hs as [d x chunk rest Hpc Hop|d x Hpc|d x Hpc|d x chunk Hpc Hop|d x part rest Hpc|d x data eof Heof];
    try (by rewrite Hc in Hop); try (by apply Hw in Hpc); unfold stuck; cbn [pp_conn pp_pc]; split_and!; try done.
  - intros e. destruct (end_cases d e) as [-> | ->]; autorewrite with ends; apply Hc.
  - by destruct d.
Qed.
