(* ===== verification/ClientWatcher.v ===== *)
(** * client: watching one container

    [client/watcher.go]: [watchOnce] turns the events of a container's /watch
    stream into changes of its open ports, counting the listens behind every
    (stack, port); [run] reconnects and finally closes what is open.  A line of
    the stream is what [json.Unmarshal] makes of it, [None] when it fails; log
    lines and delays are left out.  The order in which Go ranges over a map is
    an argument. *)

From S2P Require Import Prelude GoStrings LoTypes.

Definition portKey : Type := Stack * Z.
Definition key_of (l : Listen) : portKey := (l_stack l, l_port l).

Definition stackStr (stack : Stack) : string := if decide (stack = V6) then "ipv6" else "ipv4".

Definition makeChange (op : string) (stack : Stack) (name : string) (port : Z) : string :=
  op +:+ ":" +:+ stackStr stack +:+ ":" +:+ name +:+ ":" +:+ strconv_Itoa port.

Notation counts := (gmap portKey Z).

(** [m[k]] of a Go map of integers, and [m[k]++]. *)
Definition count (m : counts) (k : portKey) : Z := default 0 (m !! k).
Definition incr (m : counts) (k : portKey) : counts := <[k := count m k + 1]> m.

(** What leaves a watcher: the argument of the startup callback ([nil] is the
    empty list), or a batch given to [emit]. *)
Inductive output :=
  | Startup (ports : list string)
  | Emit (changes : list string).

(** The variables of [watchOnce] and the watcher's [portCounts]. *)
Record watch := mkWatch {
  ws_counts : counts;
  ws_incoming : gset Listen;
  ws_synced : bool;
  ws_cbFired : bool;
  ws_out : list output;
}.

Section Watcher.
Context (name : string) (range : counts → list portKey).

Definition change (op : string) (k : portKey) : string := makeChange op k.1 name k.2.

(** The counts the snapshot gives. *)
Definition new_counts (incoming : gset Listen) : counts := foldl incr ∅ (key_of <$> elements incoming).

Definition reconcile_changes (newCounts oldCounts : counts) : list string :=
  (change "open" <$> filter (λ k, count oldCounts k = 0) (range newCounts)) ++
  (change "close" <$> filter (λ k, count newCounts k = 0) (range oldCounts)).

Definition emit_if (changes : list string) (out : list output) : list output :=
  match changes with [] => out | _ => out ++ [Emit changes] end.

(** One turn of the loop over the lines; [cb]: [syncCallback] is not nil. *)
Definition watch_event (cb : bool) (w : watch) (ev : Event) : watch :=
  let l := ev_listen ev in
  let k := key_of l in
  let '(mkWatch cs incoming synced fired out) := w in
  if decide (ev_op ev = "add") then
    if synced then
      mkWatch (incr cs k) incoming synced fired
        (if decide (count cs k = 0) then out ++ [Emit [change "open" k]] else out)
    else mkWatch cs ({[l]} ∪ incoming) synced fired out
  else if decide (ev_op ev = "remove") then
    if synced then
      let n := count cs k - 1 in
      if decide (n ≤ 0) then mkWatch (delete k cs) incoming synced fired (out ++ [Emit [change "close" k]])
      else mkWatch (<[k := n]> cs) incoming synced fired out
    else mkWatch cs (incoming ∖ {[l]}) synced fired out
  else if decide (ev_op ev = "sync") then
    let newCounts := new_counts incoming in
    if cb then
      mkWatch newCounts incoming true true
        (if fired then out else out ++ [Startup (change "open" <$> range newCounts)])
    else mkWatch newCounts incoming true fired (emit_if (reconcile_changes newCounts cs) out)
  else w.

Definition watch_line (cb : bool) (w : watch) (line : option Event) : watch :=
  match line with
  | Some ev => watch_event cb w ev
  | None => w
  end.

(** [watchOnce]: [None] when the container cannot be reached or does not answer
    200, otherwise the lines up to the end of the stream; the counts it
    leaves and its outputs. *)
Definition watchOnce (cb : bool) (conn : option (list (option Event))) (cs : counts) : counts * list output :=
  match conn with
  | None => (cs, if cb then [Startup []] else [])
  | Some lines =>
      let w := foldl (watch_line cb) (mkWatch cs ∅ false false []) lines in
      (ws_counts w, ws_out w ++ if cb && negb (ws_cbFired w) then [Startup []] else [])
  end.

(** The loop of [run] over the connections it makes. *)
Fixpoint run_loop (cb : bool) (conns : list (option (list (option Event)))) (cs : counts) : counts * list output :=
  match conns with
  | [] => (cs, [])
  | conn :: conns =>
      let '(cs1, out1) := watchOnce cb conn cs in
      let '(cs2, out2) := run_loop false conns cs1 in
      (cs2, out1 ++ out2)
  end.

(** [run], its deferred function included. *)
Definition run (cb : bool) (conns : list (option (list (option Event)))) : list output :=
  let '(cs, out) := run_loop cb conns ∅ in
  out ++ if decide (cs = ∅) then [] else [Emit (change "close" <$> range cs)].
End Watcher.

(** ** What a consumer sees *)

(** A consumer keeps the set of open ports, each named by what follows the
    operation.  [None]: an open port is opened or a closed one closed. *)
Definition apply_change (v : gset string) (c : string) : option (gset string) :=
  let '(op, id, _) := strings_Cut c ":" in
  if decide (op = "open") then (if decide (id ∈ v) then None else Some ({[id]} ∪ v))
  else if decide (op = "close") then (if decide (id ∈ v) then Some (v ∖ {[id]}) else None)
  else None.

Fixpoint apply_changes (v : gset string) (cs : list string) : option (gset string) :=
  match cs with
  | [] => Some v
  | c :: cs => v' ← apply_change v c; apply_changes v' cs
  end.

Definition output_changes (o : output) : list string :=
  match o with Startup ports => ports | Emit changes => changes end.

Definition consume (v : gset string) (out : list output) : option (gset string) :=
  apply_changes v (out ≫= output_changes).

(** ** What a container sends *)

(** [lines] continues a stream that has announced [S]: once in sync, a listen
    is added only when it is not there and removed only when it is. *)
Fixpoint honest (synced : bool) (S : gset Listen) (lines : list (option Event)) : Prop :=
  match lines with
  | [] => True
  | None :: lines => honest synced S lines
  | Some ev :: lines =>
      let l := ev_listen ev in
      if decide (ev_op ev = "add") then
        (l_stack l = V4 ∨ l_stack l = V6) ∧ 0 ≤ l_port l < 2 ^ 16 ∧ (synced = true → l ∉ S) ∧
        honest synced ({[l]} ∪ S) lines
      else if decide (ev_op ev = "remove") then (synced = true → l ∈ S) ∧ honest synced (S ∖ {[l]}) lines
      else if decide (ev_op ev = "sync") then synced = false ∧ honest true S lines
      else honest synced S lines
  end.

(** The listens the lines leave announced. *)
Fixpoint announced (S : gset Listen) (lines : list (option Event)) : gset Listen :=
  match lines with
  | [] => S
  | None :: lines => announced S lines
  | Some ev :: lines =>
      if decide (ev_op ev = "add") then announced ({[ev_listen ev]} ∪ S) lines
      else if decide (ev_op ev = "remove") then announced (S ∖ {[ev_listen ev]}) lines
      else announced S lines
  end.

(** The line ["sync"] is among them. *)
Definition has_sync (lines : list (option Event)) : bool :=
  existsb (λ line, match line with Some ev => bool_decide (ev_op ev = "sync") | None => false end) lines.

Definition honest_conn (conn : option (list (option Event))) : Prop :=
  match conn with Some lines => honest false ∅ lines | None => True end.

(** ** Counting listens *)

(** How many of the listens are behind [k]. *)
Definition keycount (S : gset Listen) (k : portKey) : Z := Z.of_nat (size (filter (λ l, key_of l = k) S)).

(** The counts are those of [S], and only ports of [S] have one. *)
Definition tracks (S : gset Listen) (cs : counts) : Prop :=
  ∀ k, cs !! k = if decide (keycount S k = 0) then None else Some (keycount S k).

Lemma keycount_add S l k :
  l ∉ S → keycount ({[l]} ∪ S) k = keycount S k + if decide (key_of l = k) then 1 else 0.
Proof.
  intros Hl. unfold keycount. destruct (decide (key_of l = k)) as [Hk|Hk].
  - assert (filter (λ l, key_of l = k) ({[l]} ∪ S) = {[l]} ∪ filter (λ l, key_of l = k) S) as ->.
    { apply set_eq. intros x. rewrite elem_of_union, !elem_of_filter, elem_of_union, elem_of_singleton.
      split; [tauto|]. intros [->|?]; tauto. }
    rewrite size_union; [rewrite size_singleton; lia|].
    intros x. rewrite elem_of_singleton, elem_of_filter. intros -> [_ ?]. done.
  - assert (filter (λ l, key_of l = k) ({[l]} ∪ S) = filter (λ l, key_of l = k) S) as ->; [|lia].
    apply set_eq. intros x. rewrite !elem_of_filter, elem_of_union, elem_of_singleton.
    split; [|tauto]. intros [? [->|?]]; tauto.
Qed.

Lemma keycount_remove S l k :
  l ∈ S → keycount (S ∖ {[l]}) k = keycount S k - if decide (key_of l = k) then 1 else 0.
Proof.
  intros Hl. assert (S = {[l]} ∪ S ∖ {[l]}) as E.
  { apply set_eq. intros x. rewrite elem_of_union, elem_of_difference, elem_of_singleton.
    destruct (decide (x = l)) as [->|]; tauto. }
  rewrite E at 2. rewrite keycount_add; [lia|]. rewrite elem_of_difference, elem_of_singleton. tauto.
Qed.

Lemma keycount_zero S k : keycount S k = 0 ↔ k ∉ (set_map key_of S : gset portKey).
Proof.
  unfold keycount. rewrite elem_of_map.
  rewrite (inj_iff Z.of_nat _ 0%nat), size_empty_iff. split.
  - intros H (l & -> & Hl). apply (not_elem_of_empty (C := gset Listen) l), H. by apply elem_of_filter.
  - intros H. apply equiv_empty. intros l [Hk Hl]%elem_of_filter. destruct H. eauto.
Qed.

Lemma keycount_nonneg S k : 0 ≤ keycount S k.
Proof. unfold keycount. lia. Qed.

Lemma tracks_count S cs k : tracks S cs → count cs k = keycount S k.
Proof. intros H. unfold count. rewrite H. by case_decide. Qed.

Lemma tracks_dom S cs : tracks S cs → dom cs = set_map key_of S.
Proof.
  intros H. apply set_eq. intros k. rewrite elem_of_dom, H. pose proof (keycount_zero S k) as Hz.
  case_decide as Hk.
  - apply Hz in Hk. split; [by intros []|done].
  - split; [|by eexists]. intros _. destruct (decide (k ∈ (set_map key_of S : gset portKey))); [done|]. by apply Hz in n.
Qed.

Lemma tracks_add S cs l : tracks S cs → l ∉ S → tracks ({[l]} ∪ S) (incr cs (key_of l)).
Proof.
  intros H Hl k. rewrite keycount_add by done. unfold incr. rewrite (tracks_count S cs _ H).
  pose proof (keycount_nonneg S k). rewrite lookup_insert. destruct (decide (key_of l = k)) as [->|].
  - by rewrite decide_False by lia.
  - rewrite H. by rewrite Z.add_0_r.
Qed.

Lemma tracks_remove S cs l :
  tracks S cs → l ∈ S →
  tracks (S ∖ {[l]}) (if decide (keycount S (key_of l) - 1 ≤ 0) then delete (key_of l) cs
                      else <[key_of l := keycount S (key_of l) - 1]> cs).
Proof.
  intros H Hl k. rewrite keycount_remove by done. destruct (decide (key_of l = k)) as [<-|Hk].
  - assert (keycount S (key_of l) ≠ 0) by (rewrite keycount_zero, elem_of_map; eauto).
    pose proof (keycount_nonneg S (key_of l)).
    destruct (decide (_ - 1 ≤ 0)).
    + rewrite lookup_delete_eq. by rewrite decide_True by lia.
    + rewrite lookup_insert_eq. by rewrite decide_False by lia.
  - rewrite Z.sub_0_r, <-H. destruct (decide (_ - 1 ≤ 0)).
    + by rewrite lookup_delete_ne.
    + by rewrite lookup_insert_ne.
Qed.

Lemma incr_all_lookup ks m k :
  foldl incr m ks !! k =
  if decide (k ∈ ks) then Some (count m k + Z.of_nat (length (filter (λ k', k' = k) ks))) else m !! k.
Proof.
  revert m. induction ks as [|k1 ks IH]; intros m; [done|]. cbn [foldl]. rewrite IH, filter_cons.
  unfold incr, count. destruct (decide (k1 = k)) as [->|Hk].
  - rewrite lookup_insert_eq. rewrite (decide_True (P := k ∈ k :: ks)) by left. cbn [length default].
    destruct (decide (k ∈ ks)) as [Hin|Hin].
    + f_equal. cbn. lia.
    + assert (filter (λ k', k' = k) ks = []) as ->; [|cbn; f_equal; lia].
      destruct (filter _ ks) as [|x r] eqn:E; [done|]. exfalso. apply Hin.
      assert (x ∈ filter (λ k', k' = k) ks) as Hx by (rewrite E; left).
      by apply list_elem_of_filter in Hx as [-> ?].
  - rewrite lookup_insert_ne by done. destruct (decide (k ∈ ks)).
    + by rewrite decide_True by by right.
    + rewrite decide_False; [done|]. by intros [?|?]%elem_of_cons.
Qed.

Lemma filter_fmap_length {A B} (f : A → B) (P : B → Prop) `{∀ x, Decision (P x)} l :
  length (filter P (f <$> l)) = length (filter (λ x, P (f x)) l).
Proof. induction l as [|x l IH]; [done|]. rewrite fmap_cons, !filter_cons. case_decide; cbn; by rewrite IH. Qed.

(** The counts of a snapshot. *)
Lemma tracks_new S : tracks S (new_counts S).
Proof.
  intros k. unfold new_counts. rewrite incr_all_lookup.
  assert (Z.of_nat (length (filter (λ k', k' = k) (key_of <$> elements S))) = keycount S k) as E.
  { unfold keycount. f_equal. rewrite filter_fmap_length. symmetry.
    apply (Permutation_length (Permutation_filter_elements (λ l, key_of l = k) S)). }
  rewrite E. pose proof (keycount_zero S k) as Hz. rewrite elem_of_map in Hz.
  unfold count. rewrite lookup_empty. cbn.
  destruct (decide (k ∈ key_of <$> elements S)) as [Hin|Hin].
  - rewrite decide_False; [done|]. rewrite Hz. intros Hn. apply Hn.
    apply list_elem_of_fmap in Hin as (l & -> & Hl%elem_of_elements). eauto.
  - rewrite decide_True; [done|]. apply Hz. intros (l & -> & Hl). apply Hin, list_elem_of_fmap.
    exists l. by rewrite elem_of_elements.
Qed.

(** ** Changes *)

Section Changes.
Context (name : string).

Definition port_id (k : portKey) : string := stackStr k.1 +:+ ":" +:+ name +:+ ":" +:+ strconv_Itoa k.2.

(** A port a well-formed listen can have. *)
Definition valid_key (k : portKey) : Prop := (k.1 = V4 ∨ k.1 = V6) ∧ 0 ≤ k.2 < 2 ^ 16.
Definition valid_keys (ks : gset portKey) : Prop := ∀ k, k ∈ ks → valid_key k.

(** The open ports as a consumer knows them. *)
Definition ids (ks : gset portKey) : gset string := set_map port_id ks.

Lemma port_id_inj k k' : valid_key k → valid_key k' → port_id k = port_id k' → k = k'.
Proof.
  destruct k as [s p], k' as [s' p']. intros [Hs Hp] [Hs' Hp'] E. unfold port_id in E. cbn [fst snd] in *.
  assert (s = s' ∧ strconv_Itoa p = strconv_Itoa p') as [-> Ep].
  { revert E. generalize (strconv_Itoa p), (strconv_Itoa p'). intros t t' E.
    destruct Hs as [-> | ->], Hs' as [-> | ->]; cbn in E; by simplify_eq. }
  f_equal. apply (f_equal (λ t, strconv_ParseUint t 10 16)) in Ep.
  rewrite !ParseUint_Itoa in Ep by lia. congruence.
Qed.

Lemma ids_elem D k : valid_keys D → valid_key k → port_id k ∈ ids D ↔ k ∈ D.
Proof.
  intros HD Hk. unfold ids. rewrite elem_of_map. split; [|eauto].
  intros (k' & E & Hk'). apply port_id_inj in E as ->; [done..|by apply HD].
Qed.

Lemma apply_change_open D k :
  valid_keys D → valid_key k → k ∉ D → apply_change (ids D) (change name "open" k) = Some (ids ({[k]} ∪ D)).
Proof.
  intros HD Hk Hn. unfold apply_change.
  change (change name "open" k) with ("open" +:+ String ":" (port_id k)). rewrite Cut_app by done.
  rewrite decide_True by done. rewrite decide_False by by rewrite ids_elem.
  f_equal. unfold ids. by rewrite set_map_union_L, set_map_singleton_L.
Qed.

Lemma ids_remove D k : valid_keys D → k ∈ D → ids D ∖ {[port_id k]} = ids (D ∖ {[k]}).
Proof.
  intros HD Hk. apply set_eq. intros x. unfold ids.
  rewrite elem_of_difference, elem_of_singleton, !elem_of_map. split.
  - intros [(k' & -> & Hk') Hne]. exists k'. split; [done|]. rewrite elem_of_difference, elem_of_singleton.
    split; [done|]. by intros ->.
  - intros (k' & -> & [Hk' Hne]%elem_of_difference). split; [eauto|]. intros E. apply Hne, elem_of_singleton.
    apply port_id_inj; [by apply HD..|done].
Qed.

Lemma apply_change_close D k :
  valid_keys D → k ∈ D → apply_change (ids D) (change name "close" k) = Some (ids (D ∖ {[k]})).
Proof.
  intros HD Hk. unfold apply_change.
  change (change name "close" k) with ("close" +:+ String ":" (port_id k)). rewrite Cut_app by done.
  rewrite decide_False by done. rewrite decide_True by done.
  rewrite decide_True by (rewrite ids_elem; auto). by rewrite ids_remove.
Qed.

Lemma apply_opens D ks :
  NoDup ks → valid_keys D → (∀ k, k ∈ ks → valid_key k ∧ k ∉ D) →
  apply_changes (ids D) (change name "open" <$> ks) = Some (ids (list_to_set ks ∪ D)).
Proof.
  intros Hnd. revert D. induction Hnd as [|k ks Hk _ IH]; intros D HD Hks.
  { cbn. by rewrite union_empty_l_L. }
  rewrite fmap_cons. cbn [apply_changes]. destruct (Hks k) as [Hv Hn]; [left|].
  rewrite apply_change_open by done. cbn [mbind option_bind]. rewrite IH.
  - do 2 f_equal. cbn [list_to_set]. by rewrite (union_assoc_L), (union_comm_L (list_to_set ks)).
  - intros k' [->%elem_of_singleton|?]%elem_of_union; [done|by apply HD].
  - intros k' Hk'. destruct (Hks k') as [? ?]; [by right|]. split; [done|].
    intros [->%elem_of_singleton|?]%elem_of_union; done.
Qed.

Lemma apply_closes D ks :
  NoDup ks → valid_keys D → (∀ k, k ∈ ks → k ∈ D) →
  apply_changes (ids D) (change name "close" <$> ks) = Some (ids (D ∖ list_to_set ks)).
Proof.
  intros Hnd. revert D. induction Hnd as [|k ks Hk _ IH]; intros D HD Hks.
  { cbn. by rewrite difference_empty_L. }
  rewrite fmap_cons. cbn [apply_changes].
  rewrite apply_change_close by (first [done|apply Hks; left]). cbn [mbind option_bind]. rewrite IH.
  - do 2 f_equal. cbn [list_to_set]. by rewrite difference_difference_l_L.
  - intros k' [? _]%elem_of_difference. by apply HD.
  - intros k' Hk'. rewrite elem_of_difference, elem_of_singleton. split; [apply Hks; by right|]. by intros ->.
Qed.

Lemma apply_changes_app v cs cs' : apply_changes v (cs ++ cs') = apply_changes v cs ≫= λ v', apply_changes v' cs'.
Proof.
  revert v. induction cs as [|c cs IH]; intros v; [done|]. cbn [apply_changes app].
  destruct (apply_change v c) as [v'|]; [apply IH|done].
Qed.

Lemma consume_app v out out' : consume v (out ++ out') = consume v out ≫= λ v', consume v' out'.
Proof. unfold consume. by rewrite bind_app, apply_changes_app. Qed.

Lemma consume_one v o : consume v [o] = apply_changes v (output_changes o).
Proof. unfold consume. cbn. by rewrite app_nil_r. Qed.
End Changes.

(** ** The watcher's invariant *)

Section Follow.
Context (name : string) (range : counts → list portKey).
Context (range_spec : ∀ cs, range cs ≡ₚ elements (dom cs)).

(** Every listen has a port of the known stacks. *)
Definition valid_listens (S : gset Listen) : Prop := ∀ l, l ∈ S → valid_key (key_of l).

(** The counts are those of some set of listens. *)
Definition counting (cs : counts) : Prop := ∃ S, valid_listens S ∧ tracks S cs.

Lemma counting_empty : counting ∅.
Proof. exists ∅. split; [by intros l ?%elem_of_empty|]. intros k. by rewrite lookup_empty, decide_True by done. Qed.

Lemma tracks_valid S cs : valid_listens S → tracks S cs → valid_keys (dom cs).
Proof. intros HS H k. rewrite (tracks_dom S cs H), elem_of_map. intros (l & -> & Hl). by apply HS. Qed.

Lemma counting_valid cs : counting cs → valid_keys (dom cs).
Proof. intros (S & HS & H). by eapply tracks_valid. Qed.

Lemma counting_zero cs k : counting cs → count cs k = 0 ↔ k ∉ dom cs.
Proof.
  intros (S & _ & H). rewrite (tracks_count S cs k H), keycount_zero. by rewrite (tracks_dom S cs H).
Qed.

Lemma range_NoDup cs : NoDup (range cs).
Proof. rewrite range_spec. apply NoDup_elements. Qed.
Lemma elem_of_range cs k : k ∈ range cs ↔ k ∈ dom cs.
Proof. by rewrite range_spec, elem_of_elements. Qed.

(** What [watchOnce] has told so far is what its counts say. *)
Definition told (out : list output) (v : gset string) (cs : counts) : Prop :=
  consume v out = Some (ids name (dom cs)).

Lemma told_snoc v out cs cs' o :
  told out v cs → apply_changes (ids name (dom cs)) (output_changes o) = Some (ids name (dom cs')) →
  told (out ++ [o]) v cs'.
Proof. unfold told. intros H1 H2. by rewrite consume_app, H1, <-consume_one in *. Qed.

(** The startup ports of a snapshot. *)
Lemma apply_startup cs :
  counting cs → apply_changes (ids name (dom (∅ : counts))) (change name "open" <$> range cs) = Some (ids name (dom cs)).
Proof.
  intros Hcs. rewrite dom_empty_L, apply_opens.
  - do 2 f_equal. rewrite union_empty_r_L. apply set_eq. intros k. by rewrite elem_of_list_to_set, elem_of_range.
  - apply range_NoDup.
  - by intros k ?%elem_of_empty.
  - intros k Hk%elem_of_range. split; [by apply (counting_valid cs)|apply not_elem_of_empty].
Qed.

(** Going from one set of open ports to another. *)
Lemma apply_reconcile new old :
  counting new → counting old →
  apply_changes (ids name (dom old)) (reconcile_changes name range new old) = Some (ids name (dom new)).
Proof.
  intros Hn Ho. unfold reconcile_changes. rewrite apply_changes_app.
  set (opened := filter (λ k, count old k = 0) (range new)).
  set (closed := filter (λ k, count new k = 0) (range old)).
  assert (∀ k, k ∈ opened ↔ k ∈ dom new ∧ k ∉ dom old) as Hopen.
  { intros k. unfold opened. rewrite list_elem_of_filter, elem_of_range, counting_zero by done. tauto. }
  assert (∀ k, k ∈ closed ↔ k ∈ dom old ∧ k ∉ dom new) as Hclose.
  { intros k. unfold closed. rewrite list_elem_of_filter, elem_of_range, counting_zero by done. tauto. }
  assert (valid_keys (list_to_set opened ∪ dom old)) as Hv.
  { intros k. rewrite elem_of_union, elem_of_list_to_set, Hopen. intros [[? _]|?]; [by apply (counting_valid new)|by apply (counting_valid old)]. }
  rewrite apply_opens.
  - cbn [mbind option_bind]. rewrite apply_closes; [|apply NoDup_filter, range_NoDup|done|].
    + do 2 f_equal. apply set_eq. intros k. rewrite elem_of_difference, elem_of_union, !elem_of_list_to_set, Hopen, Hclose.
      destruct (decide (k ∈ dom new)), (decide (k ∈ dom old)); tauto.
    + intros k Hk%Hclose. apply elem_of_union. tauto.
  - apply NoDup_filter, range_NoDup.
  - by apply counting_valid.
  - intros k Hk%Hopen. split; [apply (counting_valid new); tauto|tauto].
Qed.

Lemma told_emit_if v out cs cs' changes :
  told out v cs → apply_changes (ids name (dom cs)) changes = Some (ids name (dom cs')) →
  told (emit_if changes out) v cs'.
Proof.
  intros H1 H2. destruct changes as [|c r]; [|by eapply told_snoc].
  cbn in H2. unfold told, emit_if in *. by rewrite H1, H2.
Qed.

(** The state of [watchOnce] after lines that leave [S] announced, started in a
    consumer's view [v]. *)
Record following (cb : bool) (v : gset string) (S : gset Listen) (w : watch) : Prop := {
  fo_valid : valid_listens S;
  fo_told : told (ws_out w) v (ws_counts w);
  fo_synced : if ws_synced w then tracks S (ws_counts w) ∧ (cb = true → ws_cbFired w = true)
              else ws_incoming w = S ∧ ws_cbFired w = false ∧ counting (ws_counts w) ∧
                   (cb = true → ws_counts w = ∅);
}.

Lemma watch_event_add cb cs incoming synced fired out l :
  watch_event name range cb (mkWatch cs incoming synced fired out) (ev_add l) =
  if synced then
    mkWatch (incr cs (key_of l)) incoming synced fired
      (if decide (count cs (key_of l) = 0) then out ++ [Emit [change name "open" (key_of l)]] else out)
  else mkWatch cs ({[l]} ∪ incoming) synced fired out.
Proof. reflexivity. Qed.

Lemma watch_event_remove cb cs incoming synced fired out l :
  watch_event name range cb (mkWatch cs incoming synced fired out) (ev_remove l) =
  if synced then
    if decide (count cs (key_of l) - 1 ≤ 0) then
      mkWatch (delete (key_of l) cs) incoming synced fired (out ++ [Emit [change name "close" (key_of l)]])
    else mkWatch (<[key_of l := count cs (key_of l) - 1]> cs) incoming synced fired out
  else mkWatch cs (incoming ∖ {[l]}) synced fired out.
Proof. reflexivity. Qed.

Lemma watch_event_sync cb cs incoming synced fired out :
  watch_event name range cb (mkWatch cs incoming synced fired out) ev_sync =
  if cb then
    mkWatch (new_counts incoming) incoming true true
      (if fired then out else out ++ [Startup (change name "open" <$> range (new_counts incoming))])
  else mkWatch (new_counts incoming) incoming true fired
    (emit_if (reconcile_changes name range (new_counts incoming) cs) out).
Proof. reflexivity. Qed.

Lemma valid_add S l : valid_key (key_of l) → valid_listens S → valid_listens ({[l]} ∪ S).
Proof. intros Hl HS l' [->%elem_of_singleton|?]%elem_of_union; [done|by apply HS]. Qed.

Lemma following_add cb v S w l :
  following cb v S w → valid_key (key_of l) → (ws_synced w = true → l ∉ S) →
  following cb v ({[l]} ∪ S) (watch_event name range cb w (ev_add l)).
Proof.
  intros [HS Ht Hs] Hl Hn. destruct w as [cs inc [|] fired out]; rewrite watch_event_add;
    cbn [ws_counts ws_incoming ws_synced ws_cbFired ws_out] in *.
  - destruct Hs as [Htr Hf]. split; cbn [ws_counts ws_incoming ws_synced ws_cbFired ws_out]; [by apply valid_add| |].
    2: { split; [apply tracks_add; auto|done]. }
    destruct (decide (count cs (key_of l) = 0)) as [Hz|Hz].
    + apply (told_snoc v out cs); [done|]. cbn [output_changes apply_changes]. rewrite apply_change_open.
      * unfold incr.  by rewrite dom_insert_L.
      * by apply (tracks_valid S).
      * done.
      * apply counting_zero; [by exists S|done].
    + unfold told, incr. rewrite Ht, dom_insert_L. do 2 f_equal.
      assert (key_of l ∈ dom cs) as Hin; [|by symmetry; apply subseteq_union_1_L, singleton_subseteq_l].
      rewrite counting_zero in Hz by by exists S. by apply dec_stable.
  - destruct Hs as (-> & Hf & Hc & He). split; cbn; [by apply valid_add|done|done].
Qed.

Lemma following_remove cb v S w l :
  following cb v S w → (ws_synced w = true → l ∈ S) →
  following cb v (S ∖ {[l]}) (watch_event name range cb w (ev_remove l)).
Proof.
  intros [HS Ht Hs] Hin.
  assert (valid_listens (S ∖ {[l]})) as HS' by (intros l' [? _]%elem_of_difference; by apply HS).
  destruct w as [cs inc [|] fired out]; rewrite watch_event_remove;
    cbn [ws_counts ws_incoming ws_synced ws_cbFired ws_out] in *; [|by destruct Hs as (-> & ?)].
  destruct Hs as [Htr Hf]. specialize (Hin eq_refl).
  pose proof (tracks_remove S cs l Htr Hin) as Htr'. rewrite (tracks_count S cs (key_of l) Htr).
  assert (key_of l ∈ dom cs) as Hk by (rewrite (tracks_dom S cs Htr), elem_of_map; eauto).
  destruct (decide (keycount S (key_of l) - 1 ≤ 0)) as [Hz|Hz]; (split; [done| |done]).
  - apply (told_snoc v out cs); [done|]. cbn [output_changes apply_changes].
    rewrite apply_change_close by (done || by apply (tracks_valid S)).
    cbn [ws_counts]. by rewrite dom_delete_L.
  - unfold told. cbn [ws_counts ws_incoming ws_synced ws_cbFired ws_out]. rewrite Ht, dom_insert_L. do 2 f_equal. symmetry.
    by apply subseteq_union_1_L, singleton_subseteq_l.
Qed.

Lemma following_sync cb v S w :
  following cb v S w → ws_synced w = false → following cb v S (watch_event name range cb w ev_sync).
Proof.
  intros [HS Ht Hs] Hn. destruct w as [cs inc synced fired out]. cbn in Hn. subst synced.
  rewrite watch_event_sync. cbn [ws_counts ws_incoming ws_synced ws_cbFired ws_out] in *.
  destruct Hs as (-> & -> & Hc & He).
  assert (counting (new_counts S)) as Hnew by (exists S; split; [done|apply tracks_new]).
  destruct cb; (split; cbn [ws_counts ws_incoming ws_synced ws_cbFired ws_out]; [done| |split; [apply tracks_new|done]]).
  - eapply told_snoc; [done|]. rewrite He by done. by apply apply_startup.
  - eapply told_emit_if; [done|]. by apply apply_reconcile.
Qed.
Lemma watch_event_other_sync cb w ev :
  ev_op ev = "sync" → watch_event name range cb w ev = watch_event name range cb w ev_sync.
Proof. destruct ev as [op l]. cbn [ev_op]. intros ->. by destruct w. Qed.

Lemma watch_event_ignored cb w ev :
  ev_op ev ≠ "add" → ev_op ev ≠ "remove" → ev_op ev ≠ "sync" → watch_event name range cb w ev = w.
Proof. intros H1 H2 H3. unfold watch_event. destruct w. by rewrite !decide_False. Qed.

Lemma watch_event_synced cb w ev :
  ws_synced (watch_event name range cb w ev) = ws_synced w || bool_decide (ev_op ev = "sync").
Proof.
  destruct w as [cs inc synced fired out], ev as [op l]. cbn [ws_synced ev_op]. unfold watch_event. cbn [ev_op].
  destruct (decide (op = "add")) as [->|]; [by destruct synced|].
  destruct (decide (op = "remove")) as [->|]; [destruct synced; [by case_decide|done]|].
  rewrite orb_comm. destruct (decide (op = "sync")) as [->|]; [by destruct cb|]. by rewrite bool_decide_false.
Qed.

(** An honest stream is followed. *)
Lemma following_lines cb v lines S w :
  honest (ws_synced w) S lines → following cb v S w →
  let w' := foldl (watch_line name range cb) w lines in
  following cb v (announced S lines) w' ∧ ws_synced w' = ws_synced w || has_sync lines.
Proof.
  revert S w. induction lines as [|[ev|] lines IH]; intros S w Hh Hf; cbn [foldl watch_line announced has_sync existsb].
  { by rewrite orb_false_r. }
  2: { by apply IH. }
  rewrite orb_assoc, <-(watch_event_synced cb). cbn [honest] in Hh.
  destruct ev as [op l]. cbn [ev_op ev_listen] in *.
  destruct (decide (op = "add")) as [->|Ha].
  { destruct Hh as (Hs & Hp & Hn & Hh). apply IH; [by rewrite watch_event_synced, orb_false_r|by apply following_add]. }
  destruct (decide (op = "remove")) as [->|Hr].
  { destruct Hh as (Hn & Hh). apply IH; [by rewrite watch_event_synced, orb_false_r|by apply following_remove]. }
  destruct (decide (op = "sync")) as [->|Hy].
  - destruct Hh as (Hn & Hh). apply IH; [by rewrite watch_event_synced, orb_true_r|].
    rewrite watch_event_other_sync by done. by apply following_sync.
  - rewrite watch_event_ignored by done. by apply IH.
Qed.

Lemma following_counting cb v S w : following cb v S w → counting (ws_counts w).
Proof. intros [HS _ Hs]. destruct (ws_synced w); [exists S; by split; [|apply Hs]|apply Hs]. Qed.

(** One connection leaves a consumer's view in step with the counts. *)
Lemma watchOnce_tells cb conn cs cs' out :
  honest_conn conn → counting cs → (cb = true → cs = ∅) →
  watchOnce name range cb conn cs = (cs', out) →
  counting cs' ∧ told out (ids name (dom cs)) cs' ∧
  (∀ lines, conn = Some lines → has_sync lines = true → dom cs' = set_map key_of (announced ∅ lines)).
Proof.
  intros Hh Hc Hcb. unfold watchOnce. destruct conn as [lines|].
  - intros [= <- <-]. destruct (following_lines cb (ids name (dom cs)) lines ∅ (mkWatch cs ∅ false false [])) as [Hf Hs].
    { done. }
    { split; cbn; [by intros l ?%elem_of_empty|done|done]. }
    set (w := foldl _ _ _) in *. split_and!.
    + by apply (following_counting cb (ids name (dom cs)) (announced ∅ lines)).
    + destruct Hf as [_ Ht _]. destruct (cb && negb _); [by eapply told_snoc|by rewrite app_nil_r].
    + intros ? [= <-] Hsync. rewrite Hsync in Hs. destruct Hf as [_ _ Hf]. cbn [orb ws_synced] in Hs.
      rewrite Hs in Hf. by apply tracks_dom, Hf.
  - intros [= <- <-]. split_and!; [done| |done]. by destruct cb.
Qed.

Lemma run_loop_tells cb conns cs cs' out :
  Forall honest_conn conns → counting cs → (cb = true → cs = ∅) →
  run_loop name range cb conns cs = (cs', out) →
  counting cs' ∧ told out (ids name (dom cs)) cs'.
Proof.
  intros Hh. revert cb cs cs' out. induction Hh as [|conn conns Hconn _ IH]; intros cb cs cs' out Hc Hcb; cbn [run_loop].
  { intros [= <- <-]. done. }
  destruct (watchOnce name range cb conn cs) as [cs1 out1] eqn:E1.
  destruct (run_loop name range false conns cs1) as [cs2 out2] eqn:E2. intros [= <- <-].
  apply watchOnce_tells in E1 as (Hc1 & Ht1 & _); [|done..].
  apply IH in E2 as (Hc2 & Ht2); [|done..]. split; [done|].
  unfold told in *. by rewrite consume_app, Ht1.
Qed.

Lemma run_loop_snoc cb conns conn cs :
  run_loop name range cb (conns ++ [conn]) cs =
  let '(cs1, out1) := run_loop name range cb conns cs in
  let '(cs2, out2) := watchOnce name range (match conns with [] => cb | _ => false end) conn cs1 in
  (cs2, out1 ++ out2).
Proof.
  revert cb cs. induction conns as [|c conns IH]; intros cb cs; cbn [run_loop app].
  { destruct (watchOnce _ _ _ _ _) as [cs1 out1]. by rewrite app_nil_r. }
  destruct (watchOnce name range cb c cs) as [cs1 out1]. rewrite IH.
  destruct (run_loop _ _ _ _ _) as [cs2 out2].
  replace (match conns with [] => false | _ => false end) with false by by destruct conns.
  destruct (watchOnce _ _ _ conn _) as [cs3 out3]. by rewrite app_assoc.
Qed.

(** The deferred closes of [run]. *)
Lemma apply_all_closes cs :
  counting cs → apply_changes (ids name (dom cs)) (change name "close" <$> range cs) = Some ∅.
Proof.
  intros Hc. rewrite apply_closes.
  - assert (dom cs ∖ list_to_set (range cs) = (∅ : gset portKey)) as ->; [|done].
    apply set_eq. intros k. rewrite elem_of_difference, elem_of_list_to_set, elem_of_range, elem_of_empty. tauto.
  - apply range_NoDup.
  - by apply counting_valid.
  - intros k. by rewrite elem_of_range.
Qed.
End Follow.

(** ** Theorems *)

(** Over any number of connections to a container, each breaking off
    anywhere, the batches a watcher emits open only ports that are closed and
    close only ports that are open, and a consumer who applies them knows
    exactly the ports the watcher counts; after a connection that got in sync
    these are the ports of the listens announced on it, however many listens
    share a port; and when the watcher ends, every port it had opened has been
    closed. *)
Theorem watcher_reports name range cb conns :
  (∀ cs, range cs ≡ₚ elements (dom cs)) → Forall honest_conn conns →
  consume ∅ (run_loop name range cb conns ∅).2 = Some (ids name (dom (run_loop name range cb conns ∅).1)) ∧
  (∀ conns' lines, conns = conns' ++ [Some lines] → has_sync lines = true →
    dom (run_loop name range cb conns ∅).1 = set_map key_of (announced ∅ lines)) ∧
  consume ∅ (run name range cb conns) = Some ∅.
Proof.
  intros Hr Hh. pose proof counting_empty as H0. unfold run.
  destruct (run_loop name range cb conns ∅) as [cs out] eqn:E. cbn [fst snd].
  destruct (run_loop_tells name range Hr cb conns ∅ cs out Hh H0 ltac:(done) E) as [Hc Ht].
  split_and!; [done| |].
  - intros conns' lines -> Hs. apply Forall_app in Hh as [Hh' [Hl _]%Forall_cons].
    rewrite run_loop_snoc in E. destruct (run_loop name range cb conns' ∅) as [cs1 out1] eqn:E1.
    destruct (watchOnce _ _ _ _ cs1) as [cs2 out2] eqn:E2. injection E as -> _.
    destruct (run_loop_tells name range Hr cb conns' ∅ cs1 out1 Hh' H0 ltac:(done) E1) as [Hc1 _].
    refine (proj2 (proj2 (watchOnce_tells name range Hr _ _ _ _ _ Hl Hc1 _ E2)) lines eq_refl Hs).
    destruct conns' as [|c r]; [|done]. cbn in E1. by injection E1 as <- _.
  - rewrite consume_app, Ht. cbn [mbind option_bind]. destruct (decide (cs = ∅)) as [->|_]; [done|].
    rewrite consume_one. by apply apply_all_closes.
Qed.

Definition by_keys (cs : counts) : list portKey := elements (dom cs).

(** Two listens share port 80; the first connection breaks off, the second gets
    in sync and loses one of them. *)
Definition sample_conns : list (option (list (option Event))) :=
  [ Some [Some (ev_add (mkListen V4 TCP "127.0.0.1" 80))];
    None;
    Some [Some (ev_add (mkListen V4 TCP "127.0.0.1" 80)); Some (ev_add (mkListen V4 UDP "0.0.0.0" 80)); Some ev_sync;
          None; Some (ev_remove (mkListen V4 TCP "127.0.0.1" 80)); Some (ev_add (mkListen V6 TCP "::1" 443))] ].

Lemma honest_add synced S l lines :
  honest synced S (Some (ev_add l) :: lines) =
  ((l_stack l = V4 ∨ l_stack l = V6) ∧ 0 ≤ l_port l < 2 ^ 16 ∧ (synced = true → l ∉ S) ∧ honest synced ({[l]} ∪ S) lines).
Proof. reflexivity. Qed.
Lemma honest_remove synced S l lines :
  honest synced S (Some (ev_remove l) :: lines) = ((synced = true → l ∈ S) ∧ honest synced (S ∖ {[l]}) lines).
Proof. reflexivity. Qed.
Lemma honest_sync synced S lines : honest synced S (Some ev_sync :: lines) = (synced = false ∧ honest true S lines).
Proof. reflexivity. Qed.
Lemma honest_skip synced S lines : honest synced S (None :: lines) = honest synced S lines.
Proof. reflexivity. Qed.

Lemma sample_conns_honest : Forall honest_conn sample_conns.
Proof.
  unfold sample_conns. rewrite !Forall_cons, Forall_nil. unfold honest_conn.
  rewrite ?honest_add, ?honest_sync, ?honest_skip, ?honest_remove, ?honest_add.
  split_and!; try done; try (by left); try (by right); by (cbn; lia).
Qed.

Lemma watcher_reports_witness :
  (run_loop "web" by_keys true sample_conns ∅).2 =
    [Startup []; Emit ["open:ipv4:web:80"]; Emit ["open:ipv6:web:443"]] ∧
  consume ∅ (run "web" by_keys true sample_conns) = Some ∅.
Proof.
  split; [vm_compute; reflexivity|].
  apply (watcher_reports "web" by_keys true sample_conns); [done|apply sample_conns_honest].
Defined.
