(* ===== verification/Client.v ===== *)
(** * client: the ports of all containers

    [client/client.go]: the directory scans, and [run] as a step relation
    between the watchers' goroutines ([ClientWatcher.v]), which call the
    startup callback and [emit], the timers, [Kill] and the consumer of
    [Changes].  Log lines are left out. *)

From S2P Require Import Prelude GoStrings.

(** ** Configuration *)

Definition DefaultDir : string := "/peel/lo".
(** Durations, in nanoseconds. *)
Definition second : Z := 1000000000.
Definition defaultReconnectDelay : Z := 5 * second.
Definition defaultStartupTimeout : Z := 5 * second.
Definition outBuf : nat := 128.

Record Config := mkConfig {
  cfg_Dir : string;
  cfg_ReconnectDelay : Z;
  cfg_StartupTimeout : Z;
}.

(** The defaults [NewWithConfig] fills in. *)
Definition with_defaults (cfg : Config) : Config := mkConfig
  (if decide (cfg_Dir cfg = "") then DefaultDir else cfg_Dir cfg)
  (if decide (cfg_ReconnectDelay cfg = 0) then defaultReconnectDelay else cfg_ReconnectDelay cfg)
  (if decide (cfg_StartupTimeout cfg = 0) then defaultStartupTimeout else cfg_StartupTimeout cfg).

Definition discoveryScanInterval (elapsed : Z) : Z :=
  if elapsed <? 60 * second then second else 5 * second.

(** ** Directory scans *)

(** An entry: its name and whether it is a directory. *)
Definition dir_entry : Type := string * bool.

(** [scanDir]; [None]: the directory cannot be read. *)
Definition scanDir (entries : option (list dir_entry)) : list string :=
  match entries with
  | None => []
  | Some es => (filter (λ e, e.2 = false) es).*1
  end.

(** [startContainer] and [stopContainer] on the set of known containers, with
    the watchers they start and cancel. *)
Inductive action := StartWatcher (name : string) | CancelWatcher (name : string).

Definition startContainer (name : string) (st : gset string * list action) : gset string * list action :=
  ({[name]} ∪ st.1, st.2 ++ [StartWatcher name]).
Definition stopContainer (name : string) (st : gset string * list action) : gset string * list action :=
  if decide (name ∈ st.1) then (st.1 ∖ {[name]}, st.2 ++ [CancelWatcher name]) else st.

(** One entry in the loop of [scan]. *)
Definition scan_entry (st : gset string * (gset string * list action)) (e : dir_entry) :=
  let '(seen, known) := st in
  let '(name, is_dir) := e in
  if is_dir : bool then st
  else ({[name]} ∪ seen, if decide (name ∈ known.1) then known else startContainer name known).

(** [scan]; [order] is the order of ranging over the known containers. *)
Definition scan (order : gset string → list string) (entries : option (list dir_entry)) (containers : gset string) :
    gset string * list action :=
  match entries with
  | None => (containers, [])
  | Some es =>
      let '(seen, known) := foldl scan_entry (∅, (containers, [])) es in
      let gone := filter (λ name, name ∉ seen) (order known.1) in
      foldl (λ st name, stopContainer name st) known gone
  end.

(** ** run *)

(** Where [run] is: collecting the startup ports, sending the snapshot, flushing
    the batches it buffered, in the [select] of the incremental phase,
    forwarding a batch, or past its loop, waiting for the watchers. *)
Inductive phase :=
  | PStart (remaining : nat) (snapshot : list string) (pendingOut : list (list string))
  | PSend (snapshot : list string) (pendingOut : list (list string))
  | PFlush (pendingOut : list (list string))
  | PRun
  | PForward (ev : list string)
  | PStopped.

(** [cl_waiting], [cl_reported], [cl_emitted] and [cl_timedOut] keep track of what
    happened: the watchers of the first scan that have not called back, the
    ports the others called back with, the batches posted on [outCh], and
    whether the deadline has passed while containers were missing. *)
Record client := mkClient {
  cl_phase : phase;
  cl_startupCh : list (list string);
  cl_outCh : list (list string);
  cl_changes : list (list string); (* sent on changes *)
  cl_killed : bool;
  cl_containers : gset string;
  cl_waiting : nat;
  cl_reported : list (list string);
  cl_emitted : list (list string);
  cl_timedOut : bool;
}.

(** [run] after the first scan. *)
Definition client_init (initial : list string) : client :=
  mkClient (PStart (length initial) [] []) [] [] [] false (list_to_set initial) (length initial) [] [] false.

Definition with_phase (p : phase) (c : client) : client :=
  mkClient p (cl_startupCh c) (cl_outCh c) (cl_changes c) (cl_killed c) (cl_containers c)
    (cl_waiting c) (cl_reported c) (cl_emitted c) (cl_timedOut c).
Definition with_outCh (q : list (list string)) (c : client) : client :=
  mkClient (cl_phase c) (cl_startupCh c) q (cl_changes c) (cl_killed c) (cl_containers c)
    (cl_waiting c) (cl_reported c) (cl_emitted c) (cl_timedOut c).
Definition with_startupCh (q : list (list string)) (c : client) : client :=
  mkClient (cl_phase c) q (cl_outCh c) (cl_changes c) (cl_killed c) (cl_containers c)
    (cl_waiting c) (cl_reported c) (cl_emitted c) (cl_timedOut c).
Definition send (ev : list string) (c : client) : client :=
  mkClient (cl_phase c) (cl_startupCh c) (cl_outCh c) (cl_changes c ++ [ev]) (cl_killed c) (cl_containers c)
    (cl_waiting c) (cl_reported c) (cl_emitted c) (cl_timedOut c).

(** The startup callback of a watcher: [startupCh] has room for all of them. *)
Definition call_back (ports : list string) (c : client) : client :=
  mkClient (cl_phase c) (cl_startupCh c ++ [ports]) (cl_outCh c) (cl_changes c) (cl_killed c) (cl_containers c)
    (pred (cl_waiting c)) (cl_reported c ++ [ports]) (cl_emitted c) (cl_timedOut c).
(** [emit], when it posts the batch. *)
Definition emit (changes : list string) (c : client) : client :=
  mkClient (cl_phase c) (cl_startupCh c) (cl_outCh c ++ [changes]) (cl_changes c) (cl_killed c) (cl_containers c)
    (cl_waiting c) (cl_reported c) (cl_emitted c ++ [changes]) (cl_timedOut c).
Definition deadline (snapshot : list string) (pendingOut : list (list string)) (c : client) : client :=
  mkClient (PStart 0 snapshot pendingOut) (cl_startupCh c) (cl_outCh c) (cl_changes c) (cl_killed c) (cl_containers c)
    (cl_waiting c) (cl_reported c) (cl_emitted c) true.
Definition Kill (c : client) : client :=
  mkClient (cl_phase c) (cl_startupCh c) (cl_outCh c) (cl_changes c) true (cl_containers c)
    (cl_waiting c) (cl_reported c) (cl_emitted c) (cl_timedOut c).
Definition do_scan (order : gset string → list string) (entries : option (list dir_entry)) (c : client) : client :=
  mkClient (cl_phase c) (cl_startupCh c) (cl_outCh c) (cl_changes c) (cl_killed c)
    (scan order entries (cl_containers c)).1
    (cl_waiting c) (cl_reported c) (cl_emitted c) (cl_timedOut c).

(** The selects of [run] that have [ctx.Done()] among their cases. *)
Definition may_stop (p : phase) : bool :=
  match p with
  | PStart (S _) _ _ | PSend _ _ | PFlush (_ :: _) | PRun | PForward _ => true
  | _ => false
  end.

(** A send on [changes] that finds its buffer full waits for the consumer: the
    step is not taken until then. *)
Inductive client_step : client → client → Prop :=
  | cs_call_back ports c :
      cl_waiting c ≠ 0%nat → client_step c (call_back ports c)
  | cs_emit changes c :
      (length (cl_outCh c) < outBuf)%nat → client_step c (emit changes c)
  | cs_startup r snapshot pend ports q c :
      cl_phase c = PStart (S r) snapshot pend → cl_startupCh c = ports :: q →
      client_step c (with_phase (PStart r (snapshot ++ ports) pend) (with_startupCh q c))
  | cs_buffer r snapshot pend ev q c :
      cl_phase c = PStart (S r) snapshot pend → cl_outCh c = ev :: q →
      client_step c (with_phase (PStart (S r) snapshot (pend ++ [ev])) (with_outCh q c))
  | cs_deadline r snapshot pend c :
      cl_phase c = PStart (S r) snapshot pend → client_step c (deadline snapshot pend c)
  | cs_collected snapshot pend c :
      cl_phase c = PStart 0 snapshot pend → client_step c (with_phase (PSend snapshot pend) c)
  | cs_send snapshot pend c :
      cl_phase c = PSend snapshot pend → client_step c (with_phase (PFlush pend) (send snapshot c))
  | cs_flush ev pend c :
      cl_phase c = PFlush (ev :: pend) → client_step c (with_phase (PFlush pend) (send ev c))
  | cs_flushed c :
      cl_phase c = PFlush [] → client_step c (with_phase PRun c)
  | cs_take ev q c :
      cl_phase c = PRun → cl_outCh c = ev :: q → client_step c (with_phase (PForward ev) (with_outCh q c))
  | cs_forward ev c :
      cl_phase c = PForward ev → client_step c (with_phase PRun (send ev c))
  | cs_scan order entries c :
      cl_phase c = PRun → client_step c (do_scan order entries c)
  | cs_kill c : client_step c (Kill c)
  | cs_stop c :
      cl_killed c = true → may_stop (cl_phase c) = true → client_step c (with_phase PStopped c).

Definition client_reachable (initial : list string) : client → Prop := rtc client_step (client_init initial).

(** ** Scans *)

(** The names of the entries that are no directories. *)
Definition sockets (es : list dir_entry) : gset string := list_to_set (scanDir (Some es)).

Lemma sockets_cons name is_dir es :
  sockets ((name, is_dir) :: es) = if is_dir : bool then sockets es else {[name]} ∪ sockets es.
Proof. by destruct is_dir. Qed.

Lemma scan_socket_entries es seen known acts :
  ∃ started, foldl scan_entry (seen, (known, acts)) es =
    (seen ∪ sockets es, (known ∪ sockets es, acts ++ (StartWatcher <$> started))) ∧
    NoDup started ∧ ∀ name, name ∈ started ↔ name ∈ sockets es ∧ name ∉ known.
Proof.
  revert seen known acts. induction es as [|[name is_dir] es IH]; intros seen known acts.
  { exists []. cbn. rewrite !union_empty_r_L, app_nil_r. split_and!; [done|constructor|].
    intros name. split; [by intros ?%elem_of_nil|by intros [?%elem_of_empty _]]. }
  rewrite sockets_cons. cbn [foldl scan_entry]. destruct is_dir; [apply IH|]. cbn [fst].
  destruct (decide (name ∈ known)) as [Hk|Hk].
  - destruct (IH ({[name]} ∪ seen) known acts) as (started & -> & Hnd & Hin). exists started. split_and!; [|done|].
    + assert (known ∪ ({[name]} ∪ sockets es) = known ∪ sockets es) as ->.
      { apply set_eq. intros x. rewrite !elem_of_union, elem_of_singleton. split; [intros [|[->|]]; tauto|tauto]. }
      by rewrite union_assoc_L, (union_comm_L seen).
    + intros x. rewrite Hin, elem_of_union, elem_of_singleton. split; [tauto|]. intros [[->|] ?]; [done|tauto].
  - unfold startContainer. cbn [fst snd].
    destruct (IH ({[name]} ∪ seen) ({[name]} ∪ known) (acts ++ [StartWatcher name])) as (started & -> & Hnd & Hin).
    exists (name :: started). split_and!.
    + by rewrite !union_assoc_L, (union_comm_L seen), (union_comm_L known), <-app_assoc.
    + constructor; [|done]. rewrite Hin, elem_of_union, elem_of_singleton. tauto.
    + intros x. rewrite elem_of_cons, Hin, !elem_of_union, !elem_of_singleton.
      destruct (decide (x = name)) as [->|]; tauto.
Qed.

Lemma stop_loop names known acts :
  NoDup names → (∀ name, name ∈ names → name ∈ known) →
  foldl (λ st name, stopContainer name st) (known, acts) names =
  (known ∖ list_to_set names, acts ++ (CancelWatcher <$> names)).
Proof.
  intros Hnd. revert known acts. induction Hnd as [|name names Hn _ IH]; intros known acts Hin.
  { cbn. by rewrite difference_empty_L, app_nil_r. }
  cbn [foldl]. unfold stopContainer at 2. cbn [fst snd]. rewrite decide_True by (apply Hin; left). rewrite IH.
  - rewrite <-app_assoc. f_equal. cbn [list_to_set]. by rewrite difference_difference_l_L.
  - intros x Hx. rewrite elem_of_difference, elem_of_singleton. split; [apply Hin; by right|]. by intros ->.
Qed.

(** After a scan the known containers are exactly the directory's entries that
    are no directories; the watchers started are those that were not known,
    each once, and the watchers cancelled those whose entry is gone. *)
Theorem scan_tracks order es containers :
  (∀ names, order names ≡ₚ elements names) →
  ∃ started gone,
    scan order (Some es) containers = (sockets es, (StartWatcher <$> started) ++ (CancelWatcher <$> gone)) ∧
    NoDup started ∧ NoDup gone ∧
    (∀ name, name ∈ started ↔ name ∈ sockets es ∧ name ∉ containers) ∧
    (∀ name, name ∈ gone ↔ name ∈ containers ∧ name ∉ sockets es).
Proof.
  intros Ho. unfold scan. destruct (scan_socket_entries es ∅ containers []) as (started & -> & Hnd & Hin).
  cbn [fst app]. rewrite union_empty_l_L.
  set (gone := filter (λ name, name ∉ sockets es) (order (containers ∪ sockets es))).
  assert (NoDup gone) as Hg by (apply NoDup_filter; rewrite Ho; apply NoDup_elements).
  assert (∀ x, x ∈ gone ↔ x ∈ containers ∧ x ∉ sockets es) as Hgone.
  { intros x. unfold gone. rewrite list_elem_of_filter, Ho, elem_of_elements, elem_of_union. tauto. }
  exists started, gone. split_and!; [|done..]. rewrite stop_loop; [|done|].
  - f_equal. apply set_eq. intros x. rewrite elem_of_difference, elem_of_union, elem_of_list_to_set, Hgone.
    destruct (decide (x ∈ sockets es)); tauto.
  - intros x Hx%Hgone. apply elem_of_union. tauto.
Qed.

Lemma scan_tracks_witness :
  ∃ started gone,
    scan elements (Some [("web", false); ("tmp", true); ("db", false)]) {["web"; "old"]} =
      (sockets [("web", false); ("tmp", true); ("db", false)], (StartWatcher <$> started) ++ (CancelWatcher <$> gone)) ∧
    NoDup started ∧ NoDup gone ∧
    (∀ name, name ∈ started ↔ name ∈ sockets [("web", false); ("tmp", true); ("db", false)] ∧ name ∉ ({["web"; "old"]} : gset string)) ∧
    (∀ name, name ∈ gone ↔ name ∈ ({["web"; "old"]} : gset string) ∧ name ∉ sockets [("web", false); ("tmp", true); ("db", false)]).
Proof. apply (scan_tracks elements [("web", false); ("tmp", true); ("db", false)] {["web"; "old"]}). done. Defined.

(** ** The invariant of run *)

(** Batches taken from [outCh] and not sent yet. *)
Definition flight (p : phase) : list (list string) :=
  match p with
  | PStart _ _ pend | PSend _ pend | PFlush pend => pend
  | PForward ev => [ev]
  | PRun | PStopped => []
  end.

(** What the snapshot is made of: all startup results, or, when the deadline has
    passed, some of them. *)
Definition snapshot_of (c : client) (n missing : nat) (taken : list (list string)) (snapshot : list string) : Prop :=
  snapshot = concat taken ∧ (cl_timedOut c = false → (missing + length taken)%nat = n).

Definition sent_snapshot (c : client) (n : nat) (taken : list (list string)) : Prop :=
  ∃ snapshot sent, cl_changes c = snapshot :: sent ∧ snapshot_of c n 0 taken snapshot.

Record client_inv (n : nat) (c : client) : Prop := {
  ci_waiting : (length (cl_reported c) + cl_waiting c)%nat = n;
  ci_batches : ∃ lost, cl_emitted c = tail (cl_changes c) ++ flight (cl_phase c) ++ lost ++ cl_outCh c ∧
    (cl_phase c ≠ PStopped → lost = []);
  ci_snapshot : ∃ taken, cl_reported c = taken ++ cl_startupCh c ∧
    match cl_phase c with
    | PStart r snapshot _ => cl_changes c = [] ∧ snapshot_of c n r taken snapshot
    | PSend snapshot _ => cl_changes c = [] ∧ snapshot_of c n 0 taken snapshot
    | PFlush _ | PRun | PForward _ => sent_snapshot c n taken
    | PStopped => cl_changes c = [] ∨ sent_snapshot c n taken
    end;
}.

Lemma client_inv_init initial : client_inv (length initial) (client_init initial).
Proof. split; cbn; [lia|by exists []|]. exists []. split_and!; try done; cbn; lia. Qed.

Lemma tail_snoc {A} (x : A) l : l ≠ [] → tail (l ++ [x]) = tail l ++ [x].
Proof. by destruct l. Qed.

Lemma sent_nonempty c n taken : sent_snapshot c n taken → cl_changes c ≠ [].
Proof. by intros (? & ? & -> & _). Qed.

(** Sending a batch that was in flight. *)
Lemma sent_snapshot_send c n taken ev p :
  sent_snapshot c n taken → sent_snapshot (with_phase p (send ev c)) n taken.
Proof. intros (snapshot & sent & E & Hs). exists snapshot, (sent ++ [ev]). cbn. by rewrite E. Qed.

Lemma client_inv_send n c ev p taken :
  client_inv n c → cl_reported c = taken ++ cl_startupCh c → sent_snapshot c n taken →
  cl_phase c ≠ PStopped → flight (cl_phase c) = ev :: flight p →
  match p with PFlush _ | PRun => True | _ => False end →
  client_inv n (with_phase p (send ev c)).
Proof.
  intros [Hw (lost & Hb & Hl) _] Hr Hs Hns Hf Hp. split; [done| |].
  - exists []. cbn. rewrite tail_snoc by by apply (sent_nonempty c n taken).
    rewrite Hl in Hb by done. rewrite Hb, Hf. cbn. by rewrite <-app_assoc.
  - exists taken. split; [done|]. cbn. destruct p; try done; by apply sent_snapshot_send.
Qed.

Lemma client_step_inv n c c' : client_step c c' → client_inv n c → client_inv n c'.
Proof.
  intros Hstep Hinv. pose proof Hinv as [Hw (lost & Hb & Hl) (taken & Hr & Hs)].
  destruct Hstep as [ports c Hwait|changes c Hlen|r snap pend ports q c Hp Hq|r snap pend ev q c Hp Hq|r snap pend c Hp
    |snap pend c Hp|snap pend c Hp|ev pend c Hp|c Hp|ev q c Hp Hq|ev c Hp|order entries c Hp|c|c Hk Hp].
  - split; cbn; [rewrite length_app; cbn; lia|by exists lost|]. exists taken. by rewrite Hr, app_assoc.
  - split; cbn; [done| |by exists taken]. exists lost. by rewrite Hb, <-!app_assoc.
  - rewrite Hp in *. destruct Hs as [Hc [-> Ht]]. rewrite Hl in Hb by done. split; cbn; [done|by exists []|]. exists (taken ++ [ports]).
    unfold snapshot_of. cbn. rewrite Hr, Hq, <-app_assoc, concat_app, length_app. cbn. rewrite app_nil_r.
    split_and!; [done..|]. intros H. specialize (Ht H). lia.
  - rewrite Hp in *. rewrite Hl in Hb by done. split; cbn; [done| |by exists taken]. exists [].
    rewrite Hb, Hq. cbn. by rewrite <-!app_assoc.
  - rewrite Hp in *. destruct Hs as [Hc [-> _]]. rewrite Hl in Hb by done. split; cbn; [done|by exists []|]. by exists taken.
  - rewrite Hp in *. rewrite Hl in Hb by done. split; cbn; [done|by exists []|by exists taken].
  - rewrite Hp in *. destruct Hs as [Hc Hs]. rewrite Hl in Hb by done. split; cbn; [done| |].
    + exists []. by rewrite Hb, Hc.
    + exists taken. split; [done|]. exists snap, []. cbn. by rewrite Hc.
  - rewrite Hp in Hs. apply (client_inv_send n c ev _ taken); rewrite ?Hp; done.
  - rewrite Hp in *. rewrite Hl in Hb by done. split; cbn; [done|by exists []|by exists taken].
  - rewrite Hp in *. rewrite Hl in Hb by done. split; cbn; [done| |by exists taken]. exists []. by rewrite Hb, Hq.
  - rewrite Hp in Hs. apply (client_inv_send n c ev _ taken); rewrite ?Hp; done.
  - split; cbn; [done|by exists lost|by exists taken].
  - split; cbn; [done|by exists lost|by exists taken].
  - split; cbn; [done| |].
    + exists (flight (cl_phase c) ++ lost). by rewrite Hb, <-app_assoc.
    + exists taken. split; [done|]. destruct (cl_phase c); [left; apply Hs|left; apply Hs|by right..|done].
Qed.

Lemma client_reachable_inv initial c : client_reachable initial c → client_inv (length initial) c.
Proof. intros H. eapply rtc_invariant; [apply client_step_inv|done|apply client_inv_init]. Qed.

(** Once the snapshot is sent, nothing is taken from [startupCh] any more. *)
Lemma late_step c c' :
  client_step c c' → (match cl_phase c with PStart _ _ _ | PSend _ _ => False | _ => True end) →
  (match cl_phase c' with PStart _ _ _ | PSend _ _ => False | _ => True end) ∧
  (∃ late, cl_startupCh c' = cl_startupCh c ++ late) ∧ ∃ more, cl_changes c' = cl_changes c ++ more.
Proof.
  intros Hs Hp. destruct Hs; cbn; try (match goal with H : cl_phase _ = _ |- _ => rewrite H in Hp; rewrite ?H end); try done;
    (split; [first [exact Hp|exact I]|]); split; try (by exists []; rewrite app_nil_r); by eexists.
Qed.

Lemma late_steps c c' :
  rtc client_step c c' → (match cl_phase c with PStart _ _ _ | PSend _ _ => False | _ => True end) →
  (∃ late, cl_startupCh c' = cl_startupCh c ++ late) ∧ ∃ more, cl_changes c' = cl_changes c ++ more.
Proof.
  induction 1 as [c|c c1 c' Hs _ IH]; intros Hp; [split; exists []; by rewrite app_nil_r|].
  destruct (late_step c c1 Hs Hp) as (Hp1 & (l1 & E1) & (m1 & F1)).
  destruct (IH Hp1) as ((l2 & E2) & (m2 & F2)).
  split; [exists (l1 ++ l2); by rewrite E2, E1, app_assoc|exists (m1 ++ m2); by rewrite F2, F1, app_assoc].
Qed.

Lemma stopped_step c c' :
  client_step c c' → cl_phase c = PStopped → cl_phase c' = PStopped ∧ cl_changes c' = cl_changes c.
Proof.
  intros Hs Hp. destruct Hs; cbn; try congruence; done.
Qed.

Lemma stopped_steps c c' : rtc client_step c c' → cl_phase c = PStopped → cl_changes c' = cl_changes c.
Proof.
  induction 1 as [|c c1 c' Hs _ IH]; intros Hp; [done|].
  destruct (stopped_step c c1 Hs Hp) as [Hp1 <-]. by apply IH.
Qed.

(** ** Theorems *)

(** C40. The first thing sent on [Changes] is the snapshot of the startup; unless the
    deadline passed it holds the ports of every container of the first scan.
    After it come the batches the watchers posted, all of them and in their
    order up to what is still in flight or in [outCh]; nothing follows once
    [run] has stopped. *)
Theorem client_reports initial c :
  client_reachable initial c →
  (cl_changes c = [] ∨ ∃ taken sent lost,
     cl_changes c = concat taken :: sent ∧
     cl_reported c = taken ++ cl_startupCh c ∧
     (cl_timedOut c = false → length taken = length initial ∧ cl_startupCh c = []) ∧
     cl_emitted c = sent ++ flight (cl_phase c) ++ lost ++ cl_outCh c ∧
     (cl_phase c ≠ PStopped → lost = [])) ∧
  (cl_phase c = PStopped → ∀ c', rtc client_step c c' → cl_changes c' = cl_changes c).
Proof.
  intros [Hw (lost & Hb & Hl) (taken & Hr & Hs)]%client_reachable_inv. split.
  - assert (cl_changes c = [] ∨ sent_snapshot c (length initial) taken) as [|(snapshot & sent & E & -> & Ht)].
    { destruct (cl_phase c); tauto. }
    { by left. }
    right. exists taken, sent, lost. rewrite E in Hb. split_and!; [done..| |done|done].
    intros H. specialize (Ht H). split; [done|]. rewrite Hr, length_app in Hw.
    destruct (cl_startupCh c); [done|]. cbn in Hw. lia.
  - intros Hp c' Hc'. by apply stopped_steps.
Qed.

Definition report80 : list string := ["open:ipv4:web:80"].

(** Two containers at startup; one reports port 80, the deadline passes, the other
    one reports port 53 too late. *)
Definition sample_collected : client :=
  with_phase (PStart 1 report80 []) (with_startupCh [] (call_back report80 (client_init ["web"; "db"]))).
Definition sample_snapshot : client :=
  with_phase (PFlush []) (send report80 (with_phase (PSend report80 []) (deadline report80 [] sample_collected))).
Definition sample_late : client := call_back ["open:ipv4:db:53"] (with_phase PRun sample_snapshot).

Lemma sample_snapshot_reachable : client_reachable ["web"; "db"] sample_snapshot.
Proof.
  eapply rtc_l; [by apply (cs_call_back report80)|].
  eapply rtc_l; [by apply (cs_startup 1 [] [] report80 [])|].
  eapply rtc_l; [by apply (cs_deadline 0 report80 [])|].
  eapply rtc_l; [by apply (cs_collected report80 [])|].
  apply rtc_once. by apply (cs_send report80 []).
Qed.

Lemma sample_late_steps : rtc client_step sample_snapshot sample_late.
Proof. eapply rtc_l; [by apply cs_flushed|]. apply rtc_once. by apply (cs_call_back ["open:ipv4:db:53"]). Qed.

Lemma client_reports_witness :
  (cl_changes sample_late = [] ∨ ∃ taken sent lost,
     cl_changes sample_late = concat taken :: sent ∧
     cl_reported sample_late = taken ++ cl_startupCh sample_late ∧
     (cl_timedOut sample_late = false → length taken = 2%nat ∧ cl_startupCh sample_late = []) ∧
     cl_emitted sample_late = sent ++ flight (cl_phase sample_late) ++ lost ++ cl_outCh sample_late ∧
     (cl_phase sample_late ≠ PStopped → lost = [])) ∧
  cl_changes sample_late = [report80].
Proof.
  split; [|reflexivity]. apply (client_reports ["web"; "db"] sample_late).
  unfold client_reachable. etrans; [apply sample_snapshot_reachable|apply sample_late_steps].
Defined.

(** A container that reports after the startup deadline is lost: what it gave
    to the startup callback stays in [startupCh], which nothing reads once the
    snapshot has been sent, and all that is sent afterwards are batches posted
    by [emit]; so its ports never appear as the later open events
    [StartupTimeout] promises. *)
Theorem late_startup_lost initial c c' :
  client_reachable initial c → cl_changes c ≠ [] → rtc client_step c c' →
  (∃ late, cl_startupCh c' = cl_startupCh c ++ late) ∧
  (∃ more, cl_changes c' = cl_changes c ++ more) ∧
  tail (cl_changes c') `prefix_of` cl_emitted c'.
Proof.
  intros Hc Hne Hsteps. pose proof (client_reachable_inv _ _ Hc) as [_ _ (taken & _ & Hs)].
  destruct (late_steps c c' Hsteps) as [H1 H2].
  { destruct (cl_phase c); try done; by destruct Hs. }
  split_and!; [done..|].
  assert (client_reachable initial c') as Hc' by (unfold client_reachable in *; by etrans).
  destruct (client_reachable_inv _ _ Hc') as [_ (lost & -> & _) _]. by eexists.
Qed.

Lemma late_startup_lost_witness :
  (∃ late, cl_startupCh sample_late = cl_startupCh sample_snapshot ++ late) ∧
  (∃ more, cl_changes sample_late = cl_changes sample_snapshot ++ more) ∧
  tail (cl_changes sample_late) `prefix_of` cl_emitted sample_late.
Proof.
  apply (late_startup_lost ["web"; "db"] sample_snapshot sample_late);
    [apply sample_snapshot_reachable|done|apply sample_late_steps].
Defined.
