(* ===== verification/ClientSystem.v ===== *)
(** * client: all containers together

    [NewWithConfig], [run] and the goroutine of every container's watcher as one
    system: [Client.v] has the steps of [run], [ClientWatcher.v] what a watcher
    makes of the lines of a stream.  Here a watcher is a process of its own, which
    connects, reads line by line, posts what it has to say on the client's
    channels when there is room, and ends; a scan starts and cancels watchers;
    and the channel of changes is closed when all of them have ended. *)

From S2P Require Import Prelude GoStrings LoTypes ClientWatcher Client.

(** ** A watcher's goroutine *)

(** At the head of the loop of [run] or in its delay; in [watchOnce], between two
    lines; in the deferred function; or ended. *)
Inductive watcher_pc :=
  | WLoop
  | WConn (w : watch)
  | WClosing
  | WEnded.

(** [wt_cb]: the callback has not been consumed.  [wt_queue]: what the statement
    that is being executed has left to post; [wt_posted]: what was posted (or,
    after [Kill], given up) so far.  [wt_listens]: what the lines of the
    connection announce. *)
Record watcher := mkWatcher {
  wt_name : string;
  wt_cb : bool;
  wt_pc : watcher_pc;
  wt_counts : counts;
  wt_queue : list output;
  wt_cancelled : bool;
  wt_posted : list output;
  wt_listens : gset Listen;
}.

Definition newContainerWatcher (cb : bool) (name : string) : watcher := mkWatcher name cb WLoop ∅ [] false [] ∅.

(** [watchOnce] with its outputs taken out. *)
Definition rest (x : watch) : watch := mkWatch (ws_counts x) (ws_incoming x) (ws_synced x) (ws_cbFired x) [].

Definition cancel_watcher (w : watcher) : watcher :=
  mkWatcher (wt_name w) (wt_cb w) (wt_pc w) (wt_counts w) (wt_queue w) true (wt_posted w) (wt_listens w).

(** A post is done. *)
Definition posted (w : watcher) (o : output) (q : list output) : watcher :=
  mkWatcher (wt_name w) (wt_cb w) (wt_pc w) (wt_counts w) q (wt_cancelled w) (wt_posted w ++ [o]) (wt_listens w).

Section Goroutine.
Context (range : counts → list portKey).

(** [stopped]: the context is done.  What a container sends on a connection is
    [honest]: an announced listen is not announced again. *)
Inductive watcher_step (stopped : bool) : watcher → watcher → Prop :=
  | wt_unreachable name cb cs cancelled done ls :
      stopped = false →
      watcher_step stopped (mkWatcher name cb WLoop cs [] cancelled done ls)
        (mkWatcher name false WLoop cs (if cb then [Startup []] else []) cancelled done ls)
  | wt_connected name cb cs cancelled done ls :
      stopped = false →
      watcher_step stopped (mkWatcher name cb WLoop cs [] cancelled done ls)
        (mkWatcher name cb (WConn (mkWatch cs ∅ false false [])) cs [] cancelled done ∅)
  | wt_line name cb x cs cancelled done ls line :
      honest (ws_synced x) ls [line] →
      watcher_step stopped (mkWatcher name cb (WConn x) cs [] cancelled done ls)
        (mkWatcher name cb (WConn (rest (watch_line name range cb x line))) cs
          (ws_out (watch_line name range cb x line)) cancelled done (announced ls [line]))
  | wt_eof name cb x cs cancelled done ls :
      watcher_step stopped (mkWatcher name cb (WConn x) cs [] cancelled done ls)
        (mkWatcher name false WLoop (ws_counts x) (if cb && negb (ws_cbFired x) then [Startup []] else []) cancelled done ls)
  | wt_return name cb cs cancelled done ls :
      stopped = true →
      watcher_step stopped (mkWatcher name cb WLoop cs [] cancelled done ls)
        (mkWatcher name cb WClosing ∅ (if decide (cs = ∅) then [] else [Emit (change name "close" <$> range cs)])
          cancelled done ls)
  | wt_end name cb cs cancelled done ls :
      watcher_step stopped (mkWatcher name cb WClosing cs [] cancelled done ls)
        (mkWatcher name cb WEnded cs [] cancelled done ls).
End Goroutine.

(** ** The system *)

(** [sy_room] is the capacity of [startupCh]; [sy_closed]: [changes] is closed. *)
Record system := mkSystem {
  sy_client : client;
  sy_watchers : list watcher;
  sy_room : nat;
  sy_closed : bool;
}.

(** The beginning of [run]. *)
Definition sys_init (entries : option (list dir_entry)) : system :=
  let initial := scanDir entries in
  mkSystem (client_init initial) (newContainerWatcher true <$> initial) (S (length initial)) false.

(** [readDir] is [os.ReadDir]. *)
Definition NewWithConfig (readDir : string → option (list dir_entry)) (cfg : Config) : Config * system :=
  let cfg := with_defaults cfg in (cfg, sys_init (readDir (cfg_Dir cfg))).
Definition New (readDir : string → option (list dir_entry)) (dir : string) : Config * system :=
  NewWithConfig readDir (mkConfig dir 0 0).

(** What [startContainer] and [stopContainer] do to the goroutines. *)
Definition run_action (ws : list watcher) (a : action) : list watcher :=
  match a with
  | StartWatcher name => ws ++ [newContainerWatcher false name]
  | CancelWatcher name => (λ w, if decide (wt_name w = name) then cancel_watcher w else w) <$> ws
  end.

(** A step of [run] but a scan: nothing is posted. *)
Definition run_step (c c' : client) : Prop :=
  client_step c c' ∧ cl_reported c' = cl_reported c ∧ cl_emitted c' = cl_emitted c ∧
  cl_containers c' = cl_containers c ∧ cl_killed c' = cl_killed c.

Inductive sys_step (range : counts → list portKey) : system → system → Prop :=
  | sys_watcher i w w' c ws room :
      ws !! i = Some w → watcher_step range (wt_cancelled w || cl_killed c) w w' →
      sys_step range (mkSystem c ws room false) (mkSystem c (<[i := w']> ws) room false)
  | sys_call_back i w ports q c ws room :
      ws !! i = Some w → wt_queue w = Startup ports :: q → (length (cl_startupCh c) < room)%nat →
      sys_step range (mkSystem c ws room false) (mkSystem (call_back ports c) (<[i := posted w (Startup ports) q]> ws) room false)
  | sys_emit i w changes q c ws room :
      ws !! i = Some w → wt_queue w = Emit changes :: q → (length (cl_outCh c) < outBuf)%nat →
      sys_step range (mkSystem c ws room false) (mkSystem (emit changes c) (<[i := posted w (Emit changes) q]> ws) room false)
  | sys_give_up i w changes q c ws room :
      ws !! i = Some w → wt_queue w = Emit changes :: q → cl_killed c = true →
      sys_step range (mkSystem c ws room false) (mkSystem c (<[i := posted w (Emit changes) q]> ws) room false)
  | sys_run c c' ws room :
      run_step c c' → sys_step range (mkSystem c ws room false) (mkSystem c' ws room false)
  | sys_scan order entries c ws room :
      (∀ names, order names ≡ₚ elements names) → cl_phase c = PRun →
      sys_step range (mkSystem c ws room false)
        (mkSystem (do_scan order entries c) (foldl run_action ws (scan order entries (cl_containers c)).2) room false)
  | sys_kill c ws room : sys_step range (mkSystem c ws room false) (mkSystem (Kill c) ws room false)
  | sys_close c ws room :
      cl_phase c = PStopped → Forall (λ w, wt_pc w = WEnded) ws →
      sys_step range (mkSystem c ws room false) (mkSystem c ws room true).

(** [Wait] returns when this is so. *)
Definition Wait (s : system) : bool := sy_closed s.

(** ** An interpreter of schedules *)

#[export] Instance honest_one_dec synced S line : Decision (honest synced S [line]).
Proof. destruct line as [ev|]; cbn; [|apply _]. repeat case_decide; apply _. Defined.

(** Whose turn it is: a watcher that fails to connect, connects, reads a line, loses
    its connection, returns, ends or posts; [run]; a scan; [Kill]; the close. *)
Inductive turn :=
  | TUnreachable (i : nat)
  | TConnect (i : nat)
  | TLine (i : nat) (line : option Event)
  | TEof (i : nat)
  | TReturn (i : nat)
  | TEnd (i : nat)
  | TPost (i : nat)
  | TRun
  | TScan (entries : option (list dir_entry))
  | TKill.

(** The next step of [run], which prefers [startupCh] to [outCh]. *)
Definition run_next (c : client) : option client :=
  match cl_phase c with
  | PStart (S r) snapshot pend =>
      match cl_startupCh c, cl_outCh c with
      | ports :: q, _ => Some (with_phase (PStart r (snapshot ++ ports) pend) (with_startupCh q c))
      | [], ev :: q => Some (with_phase (PStart (S r) snapshot (pend ++ [ev])) (with_outCh q c))
      | [], [] => None
      end
  | PStart 0 snapshot pend => Some (with_phase (PSend snapshot pend) c)
  | PSend snapshot pend => Some (with_phase (PFlush pend) (send snapshot c))
  | PFlush (ev :: pend) => Some (with_phase (PFlush pend) (send ev c))
  | PFlush [] => Some (with_phase PRun c)
  | PRun => match cl_outCh c with ev :: q => Some (with_phase (PForward ev) (with_outCh q c)) | [] => None end
  | PForward ev => Some (with_phase PRun (send ev c))
  | PStopped => None
  end.

Section Schedule.
Context (range : counts → list portKey) (order : gset string → list string).

Definition watcher_turn (stopped : bool) (t : turn) (w : watcher) : option watcher :=
  match w with
  | mkWatcher name cb pc cs [] can past ls =>
      match t, pc with
      | TUnreachable _, WLoop =>
          if stopped then None else Some (mkWatcher name false WLoop cs (if cb then [Startup []] else []) can past ls)
      | TConnect _, WLoop => if stopped then None else Some (mkWatcher name cb (WConn (mkWatch cs ∅ false false [])) cs [] can past ∅)
      | TLine _ line, WConn x =>
          if decide (honest (ws_synced x) ls [line]) then
            let x' := watch_line name range cb x line in
            Some (mkWatcher name cb (WConn (rest x')) cs (ws_out x') can past (announced ls [line]))
          else None
      | TEof _, WConn x =>
          Some (mkWatcher name false WLoop (ws_counts x) (if cb && negb (ws_cbFired x) then [Startup []] else []) can past ls)
      | TReturn _, WLoop =>
          if stopped then
            Some (mkWatcher name cb WClosing ∅ (if decide (cs = ∅) then [] else [Emit (change name "close" <$> range cs)]) can past ls)
          else None
      | TEnd _, WClosing => Some (mkWatcher name cb WEnded cs [] can past ls)
      | _, _ => None
      end
  | _ => None
  end.

Definition take_turn (t : turn) (s : system) : option system :=
  let '(mkSystem c ws room closed) := s in
  if closed : bool then None
  else
    match t with
    | TUnreachable i | TConnect i | TLine i _ | TEof i | TReturn i | TEnd i =>
        w ← ws !! i; w' ← watcher_turn (wt_cancelled w || cl_killed c) t w; Some (mkSystem c (<[i := w']> ws) room false)
    | TPost i =>
        w ← ws !! i;
        match wt_queue w with
        | Startup ports :: q =>
            if decide (length (cl_startupCh c) < room)%nat
            then Some (mkSystem (call_back ports c) (<[i := posted w (Startup ports) q]> ws) room false) else None
        | Emit chs :: q =>
            if decide (length (cl_outCh c) < outBuf)%nat
            then Some (mkSystem (emit chs c) (<[i := posted w (Emit chs) q]> ws) room false) else None
        | [] => None
        end
    | TRun => c' ← run_next c; Some (mkSystem c' ws room false)
    | TScan entries =>
        match cl_phase c with
        | PRun => Some (mkSystem (do_scan order entries c) (foldl run_action ws (scan order entries (cl_containers c)).2) room false)
        | _ => None
        end
    | TKill => Some (mkSystem (Kill c) ws room false)
    end.

Fixpoint take_turns (ts : list turn) (s : system) : option system :=
  match ts with
  | [] => Some s
  | t :: ts => s' ← take_turn t s; take_turns ts s'
  end.

Lemma run_next_step c c' : run_next c = Some c' → run_step c c'.
Proof.
  unfold run_next, run_step. destruct (cl_phase c) as [[|r] sn pend|sn pend|[|ev pend]| |ev|] eqn:Ep; try done.
  2: destruct (cl_startupCh c) as [|ports q] eqn:Es; [destruct (cl_outCh c) as [|ev q] eqn:Eo; [done|]|].
  7: destruct (cl_outCh c) as [|ev q] eqn:Eo; [done|].
  all: intros [= <-]; (split; [by econstructor|done]).
Qed.

Lemma watcher_turn_step stopped t w w' : watcher_turn stopped t w = Some w' → watcher_step range stopped w w'.
Proof.
  destruct w as [name cb pc cs [|o q] can past ls]; [|done]. cbn. destruct t, pc; try done.
  - destruct stopped; [done|]. intros [= <-]. by constructor.
  - destruct stopped; [done|]. intros [= <-]. by constructor.
  - case_decide; [|done]. intros [= <-]. by constructor.
  - intros [= <-]. constructor.
  - destruct stopped; [|done]. intros [= <-]. by constructor.
  - intros [= <-]. constructor.
Qed.

Context (order_spec : ∀ names, order names ≡ₚ elements names).

Lemma take_turn_step t s s' : take_turn t s = Some s' → sys_step range s s'.
Proof.
  destruct s as [c ws room []]; [done|]. cbn.
  assert (∀ i, (w ← ws !! i; w' ← watcher_turn (wt_cancelled w || cl_killed c) t w; Some (mkSystem c (<[i := w']> ws) room false)) = Some s' →
    sys_step range (mkSystem c ws room false) s') as Hw.
  { intros i. destruct (ws !! i) as [w|] eqn:Ei; [|done]. cbn. destruct (watcher_turn _ t w) as [w'|] eqn:Et; [|done].
    intros [= <-]. eapply sys_watcher; [done|]. by eapply watcher_turn_step. }
  destruct t as [i|i|i line|i|i|i|i| |entries|]; try (by apply Hw).
  - destruct (ws !! i) as [w|] eqn:Ei; [|done]. cbn. destruct (wt_queue w) as [|[ports|chs] q] eqn:Eq; [done|..]; (case_decide; [|done]);
      intros [= <-]; [by eapply sys_call_back|by eapply sys_emit].
  - destruct (run_next c) as [c'|] eqn:Ec; [|done]. intros [= <-]. by apply sys_run, run_next_step.
  - destruct (cl_phase c) eqn:Ep; try done. intros [= <-]. by apply sys_scan.
  - intros [= <-]. apply sys_kill.
Qed.

Lemma take_turns_steps ts s s' : take_turns ts s = Some s' → rtc (sys_step range) s s'.
Proof.
  revert s. induction ts as [|t ts IH]; intros s; cbn; [by intros [= ->]|].
  destruct (take_turn t s) as [s1|] eqn:E; [|done]. intros H. eapply rtc_l; [by eapply take_turn_step|by apply IH].
Qed.

End Schedule.

Example New_sample : (New (λ dir, if decide (dir = DefaultDir) then Some [("web", false)] else None) "").2 = sys_init (Some [("web", false)]).
Proof. reflexivity. Qed.
