(* ===== verification/ClientSystemFacts.v ===== *)
(** * client: what all containers together tell a consumer

    The invariant of a watcher and of the system of [ClientSystem.v], that
    everything posted reaches the consumer as changes of the ports the watchers
    count, and that the system comes to rest and, once killed, to its end. *)

From S2P Require Import Prelude GoStrings LoTypes ClientWatcher Client ClientSystem.

(** ** Reachable states *)

Definition sys_reachable (range : counts → list portKey) (entries : option (list dir_entry)) : system → Prop :=
  rtc (sys_step range) (sys_init entries).

(** What a watcher counts at the moment. *)
Definition current (w : watcher) : counts :=
  match wt_pc w with WLoop => wt_counts w | WConn x => ws_counts x | WClosing | WEnded => ∅ end.

(** The ports open on all containers together, as the watchers count them. *)
Definition open_ports (s : system) : gset string :=
  ⋃ ((λ w, ids (wt_name w) (dom (current w))) <$> sy_watchers s).

(** No change is on its way to the consumer. *)
Definition quiet (s : system) : Prop :=
  cl_phase (sy_client s) = PRun ∧ cl_outCh (sy_client s) = [] ∧ Forall (λ w, wt_queue w = []) (sy_watchers s).

(** No watcher is started while an earlier one of the same container has not
    ended. *)
Definition orderly (ws : list watcher) : Prop :=
  ∀ i j w w', (i < j)%nat → ws !! i = Some w → ws !! j = Some w' → wt_name w = wt_name w' → wt_pc w = WEnded.

Definition orderly_step (range : counts → list portKey) (s s' : system) : Prop :=
  sys_step range s s' ∧ orderly (sy_watchers s').
Definition orderly_reachable (range : counts → list portKey) (entries : option (list dir_entry)) : system → Prop :=
  rtc (orderly_step range) (sys_init entries).

(** ** Changes of several containers *)

Definition change_id (c : string) : string := (strings_Cut c ":").1.2.

(** [x] names a port of the container. *)
Definition is_id (name x : string) : Prop := ∃ k, 0 ≤ k.2 ∧ x = port_id name k.
(** [c] is a change of such a port. *)
Definition about (name c : string) : Prop := is_id name (change_id c).

Lemma last_colon s t s' t' :
  lacks ":" t → lacks ":" t' → s +:+ String ":" t = s' +:+ String ":" t' → s = s'.
Proof.
  intros Ht Ht'. revert s'. induction s as [|c s IH]; intros [|c' s'] E.
  - done.
  - rewrite sapp_cons in E. injection E as <- E. exfalso. revert Ht. rewrite E, lacks_app, lacks_cons. by intros (_ & [] & _).
  - rewrite sapp_cons in E. injection E as -> E. exfalso. revert Ht'. rewrite <-E, lacks_app, lacks_cons. by intros (_ & [] & _).
  - rewrite !sapp_cons in E. injection E as -> E. f_equal. by apply IH.
Qed.

Lemma is_id_inj name name' x : is_id name x → is_id name' x → name = name'.
Proof.
  intros ([st p] & Hp & ->) ([st' p'] & Hp' & E). cbn in Hp, Hp'. unfold port_id in E. cbn [fst snd] in E.
  assert (stackStr st +:+ ":" +:+ name = stackStr st' +:+ ":" +:+ name') as E'.
  { apply (last_colon _ (strconv_Itoa p) _ (strconv_Itoa p')); [by apply Itoa_lacks..|].
    rewrite !sapp_assoc. exact E. }
  unfold stackStr in E'. by repeat case_decide; cbn in E'; simplify_eq.
Qed.

Lemma about_change name op k : lacks ":" op → 0 ≤ k.2 → about name (change name op k).
Proof.
  intros Ho Hk. exists k. split; [done|]. unfold change_id.
  change (change name op k) with (op +:+ String ":" (port_id name k)). by rewrite Cut_app.
Qed.

Lemma apply_change_id v c v' x : apply_change v c = Some v' → x ∈ v' → x ∈ v ∨ x = change_id c.
Proof.
  unfold apply_change, change_id. destruct (strings_Cut c ":") as [[op id] ok]. cbn [fst snd].
  repeat case_decide; intros [= <-]; rewrite ?elem_of_union, ?elem_of_difference, ?elem_of_singleton; tauto.
Qed.

Lemma apply_changes_id v cs v' x :
  apply_changes v cs = Some v' → x ∈ v' → x ∈ v ∨ ∃ c, c ∈ cs ∧ change_id c = x.
Proof.
  revert v. induction cs as [|c cs IH]; intros v; cbn [apply_changes]; [intros [= <-]; tauto|].
  destruct (apply_change v c) as [v1|] eqn:E1; [|done]. cbn [mbind option_bind]. intros H Hx.
  destruct (IH v1 H Hx) as [Hx1|(c' & Hc & <-)]; [|right; exists c'; split; [by right|done]].
  destruct (apply_change_id v c v1 x E1 Hx1) as [Hv|Hc]; [by left|]. right. exists c. split; [left|done].
Qed.

(** Ports the changes are not about do not matter to them. *)
Lemma apply_change_frame v W c :
  change_id c ∉ W → apply_change (v ∪ W) c = (λ v', v' ∪ W) <$> apply_change v c.
Proof.
  unfold apply_change, change_id. destruct (strings_Cut c ":") as [[op id] ok]. cbn [fst snd]. intros Hid.
  assert (id ∈ v ∪ W ↔ id ∈ v) as Hin by (rewrite elem_of_union; tauto).
  destruct (decide (op = "open")); [|destruct (decide (op = "close")); [|done]].
  - destruct (decide (id ∈ v)); [by rewrite decide_True by tauto|]. rewrite decide_False by tauto. cbn. by rewrite union_assoc_L.
  - destruct (decide (id ∈ v)); [rewrite decide_True by tauto|by rewrite decide_False by tauto]. cbn. f_equal.
    apply set_eq. intros x. rewrite elem_of_difference, !elem_of_union, elem_of_difference, elem_of_singleton.
    destruct (decide (x = id)) as [->|]; tauto.
Qed.

Lemma apply_changes_frame v W cs :
  (∀ c, c ∈ cs → change_id c ∉ W) → apply_changes (v ∪ W) cs = (λ v', v' ∪ W) <$> apply_changes v cs.
Proof.
  revert v. induction cs as [|c cs IH]; intros v H; [done|]. cbn [apply_changes].
  rewrite apply_change_frame by (apply H; left). destruct (apply_change v c) as [v1|]; [|done].
  cbn [fmap option_fmap option_map mbind option_bind]. apply IH. intros c' Hc. apply H. by right.
Qed.

Lemma apply_changes_prefix v cs cs' v' :
  apply_changes v (cs ++ cs') = Some v' → ∃ v1, apply_changes v cs = Some v1 ∧ apply_changes v1 cs' = Some v'.
Proof. rewrite apply_changes_app. destruct (apply_changes v cs) as [v1|]; [by exists v1|done]. Qed.

(** ** The invariant of a watcher *)

Definition is_emit (o : output) : bool := match o with Emit _ => true | Startup _ => false end.

(** The callback will still be called by a statement to come; or by the one that is
    being executed. *)
Definition callback_left (w : watcher) : bool :=
  match wt_pc w with WLoop => wt_cb w | WConn x => wt_cb w && negb (ws_cbFired x) | WClosing | WEnded => false end.
Definition owes (w : watcher) : bool :=
  callback_left w || match wt_queue w with Startup _ :: _ => true | _ => false end.

Record wt_inv (w : watcher) : Prop := {
  wi_told : told (wt_name w) (wt_posted w ++ wt_queue w) ∅ (current w);
  wi_about : ∀ o c, o ∈ wt_posted w ++ wt_queue w → c ∈ output_changes o → about (wt_name w) c;
  wi_startup : Forall is_emit (tail (wt_posted w ++ wt_queue w));
  wi_left : callback_left w = true → wt_posted w ++ wt_queue w = [];
  wi_pc : match wt_pc w with
          | WLoop => counting (wt_counts w)
          | WConn x => following (wt_name w) (wt_cb w) (ids (wt_name w) (dom (ws_counts x))) (wt_listens w) x ∧ ws_out x = []
          | WClosing => True
          | WEnded => wt_queue w = []
          end;
}.

Lemma valid_about name op k : lacks ":" op → valid_key k → about name (change name op k).
Proof. intros Ho [_ [Hk _]]. by apply about_change. Qed.

Section Steps.
Context (range : counts → list portKey) (range_spec : ∀ cs, range cs ≡ₚ elements (dom cs)).

Lemma range_about name op cs c :
  lacks ":" op → counting cs → c ∈ change name op <$> range cs → about name c.
Proof.
  intros Ho Hc (k & -> & Hk)%list_elem_of_fmap. apply valid_about; [done|].
  apply (counting_valid cs Hc). by apply (elem_of_range range range_spec).
Qed.

(** What a line makes [watchOnce] say. *)
Lemma line_says name cb v S x line :
  following name cb v S x → ws_out x = [] → honest (ws_synced x) S [line] →
  let x' := watch_line name range cb x line in
  (∀ o c, o ∈ ws_out x' → c ∈ output_changes o → about name c) ∧
  ((ws_out x' = [] ∧ (ws_cbFired x' = false → ws_cbFired x = false)) ∨
   (∃ cs, ws_out x' = [Emit cs] ∧ cb && negb (ws_cbFired x') = false) ∨
   (∃ ps, ws_out x' = [Startup ps] ∧ cb && negb (ws_cbFired x) = true ∧ ws_cbFired x' = true)).
Proof.
  intros [HS _ Hsy] Hout Hh. destruct x as [cs inc synced fired out]. cbn in Hout, Hsy, Hh. subst out.
  assert (∀ o c, o ∈ ([] : list output) → c ∈ output_changes o → about name c) as Hnil by by intros ? ? ?%elem_of_nil.
  assert (∀ ch, about name ch → ∀ o c, o ∈ [Emit [ch]] → c ∈ output_changes o → about name c) as Hone.
  { intros ch Hch o c ->%list_elem_of_singleton. cbn. by intros ->%list_elem_of_singleton. }
  destruct line as [[op l]|]; [|cbn; split; [done|by left]]. cbn [watch_line]. unfold watch_event. cbn [ev_op ev_listen].
  cbn [ev_op ev_listen] in Hh.
  destruct (decide (op = "add")) as [->|Ha].
  { destruct Hh as (Hst & Hp & _ & _). destruct synced; cbn; [|split; [done|by left]].
    assert (cb && negb fired = false) as Hf by (destruct cb; [by rewrite (proj2 Hsy)|done]).
    case_decide; (split; [|first [by left|right; left; by eexists]]); [|done]. apply Hone, valid_about; done. }
  destruct (decide (op = "remove")) as [->|Hr].
  { destruct Hh as (Hin & _). destruct synced; cbn; [|split; [done|by left]].
    assert (cb && negb fired = false) as Hf by (destruct cb; [by rewrite (proj2 Hsy)|done]).
    case_decide; (split; [|first [by left|right; left; by eexists]]); [|done]. apply Hone, valid_about; [done|]. by apply HS, Hin. }
  destruct (decide (op = "sync")) as [->|Hy]; [|cbn; split; [done|by left]].
  destruct Hh as (-> & _). destruct Hsy as (-> & -> & Hc & _).
  assert (counting (new_counts S)) as Hn by (exists S; split; [done|apply tracks_new]).
  destruct cb; cbn.
  - split; [|right; right; by eexists]. intros o c ->%list_elem_of_singleton. cbn. by apply range_about.
  - assert (∀ c, c ∈ reconcile_changes name range (new_counts S) cs → about name c) as Hall.
    { unfold reconcile_changes. intros c [Hc'|Hc']%elem_of_app; apply list_elem_of_fmap in Hc' as (k & -> & [_ Hk]%list_elem_of_filter);
        [eapply (range_about name "open" (new_counts S))|eapply (range_about name "close" cs)]; try done; by apply list_elem_of_fmap_2. }
    unfold emit_if. destruct (reconcile_changes _ _ _ _) as [|ch chs]; (split; [|first [by left|right; left; by eexists]]); [done|].
    intros o c ->%list_elem_of_singleton. cbn [output_changes]. apply Hall.
Qed.

Lemma told_app name l out v cs cs' :
  told name l v cs → told name out (ids name (dom cs)) cs' → told name (l ++ out) v cs'.
Proof. unfold told. intros H1 H2. by rewrite consume_app, H1. Qed.

Lemma no_counts name cs : told name [] ∅ cs → cs = ∅.
Proof.
  unfold told, ids. cbn. intros [= H]. apply dom_empty_inv_L, set_eq. intros k. split; [|by intros ?%elem_of_empty].
  intros Hk. exfalso. apply (not_elem_of_empty (C := gset string) (port_id name k)). rewrite H. apply elem_of_map. eauto.
Qed.

Lemma startup_app l out :
  Forall is_emit (tail l) → (l = [] → Forall is_emit (tail out)) → (l ≠ [] → Forall is_emit out) →
  Forall is_emit (tail (l ++ out)).
Proof. destruct l as [|o l]; cbn; intros H1 H2 H3; [by apply H2|]. apply Forall_app. split; [done|by apply H3]. Qed.

(** A step keeps the invariant and what was posted, is taken with an empty queue, and
    does not bring the callback back. *)
Definition steps_well (w w' : watcher) : Prop :=
  wt_inv w' ∧ wt_name w' = wt_name w ∧ wt_posted w' = wt_posted w ∧ wt_queue w = [] ∧ wt_pc w ≠ WEnded ∧
  (owes w' = true → owes w = true).

#[local] Ltac open_watcher :=
  unfold steps_well, current, owes, callback_left in *;
  cbn [wt_pc wt_name wt_cb wt_counts wt_queue wt_posted wt_listens orb] in *; rewrite ?app_nil_r in *.

(** [watchOnce] handles a line. *)
Lemma line_steps name cb x cs can past ls line :
  let x' := watch_line name range cb x line in
  honest (ws_synced x) ls [line] → wt_inv (mkWatcher name cb (WConn x) cs [] can past ls) →
  steps_well (mkWatcher name cb (WConn x) cs [] can past ls)
    (mkWatcher name cb (WConn (rest x')) cs (ws_out x') can past (announced ls [line])).
Proof.
  cbv zeta. intros Hh [Ht Hab Hst Hl [Hf Ho]]. open_watcher.
  destruct (line_says name cb _ ls x line Hf Ho Hh) as [Hab' Hsh].
  destruct (following_lines name range range_spec cb _ [line] ls x Hh Hf) as [Hf' _]. cbn [foldl] in Hf'.
  set (x' := watch_line name range cb x line) in *. split; [|split_and!; try done].
  - split; unfold current, callback_left; cbn [wt_pc wt_name wt_cb wt_counts wt_queue wt_posted wt_listens rest ws_counts ws_cbFired ws_out].
    + eapply told_app; [exact Ht|apply Hf'].
    + intros o c [Hin|Hin]%elem_of_app; [by apply Hab|by apply Hab'].
    + apply startup_app; [done|..]; intros Hne; destruct Hsh as [[-> _]|[(chs & -> & _)|(ps & -> & Hleft & _)]];
        rewrite ?Forall_cons, ?Forall_nil; cbn; try done. by apply Hl in Hleft.
    + intros Hleft. destruct Hsh as [[-> Hfi]|[(chs & _ & Hne)|(ps & _ & _ & Hfi)]]; [|congruence|rewrite Hfi in Hleft; by destruct cb].
      rewrite app_nil_r. apply Hl. apply andb_true_iff in Hleft as [-> Hleft]. cbn. by rewrite Hfi; [|apply negb_true_iff].
    + split; [|done]. destruct Hf' as [H1 H2 H3]. split; cbn; [done..|]. exact H3.
  - cbn [rest ws_cbFired]. rewrite orb_false_r. destruct Hsh as [[-> Hfi]|[(chs & -> & Hne)|(ps & -> & Hleft & Hfi)]].
    + rewrite orb_false_r. intros [-> Hleft]%andb_true_iff. cbn. by rewrite Hfi; [|apply negb_true_iff].
    + by rewrite Hne.
    + done.
Qed.

(** [Run] returns: the ports that are open are told closed. *)
Lemma closing_steps name cb cs can past ls :
  wt_inv (mkWatcher name cb WLoop cs [] can past ls) →
  steps_well (mkWatcher name cb WLoop cs [] can past ls)
    (mkWatcher name cb WClosing ∅ (if decide (cs = ∅) then [] else [Emit (change name "close" <$> range cs)]) can past ls).
Proof.
  intros [Ht Hab Hst Hl Hpc]. open_watcher. split; [|split_and!; try done; by case_decide].
  assert (∀ c, c ∈ change name "close" <$> range cs → about name c) as Hcl by (intros c; by apply range_about).
  case_decide as Hcs; (split; unfold current, callback_left; cbn; rewrite ?app_nil_r; try done).
  - by subst.
  - eapply told_snoc; [exact Ht|]. cbn [output_changes]. rewrite dom_empty_L.
    rewrite (apply_all_closes name range range_spec) by done. done.
  - intros o c [Hin| ->%list_elem_of_singleton]%elem_of_app; [by apply Hab|apply Hcl].
  - apply startup_app; [done|..]; intros _; cbn; by repeat constructor.
Qed.

(** [watchOnce] is over: the callback it still owed is called. *)
Lemma over_steps name cb pc cs0 can past ls :
  let w := mkWatcher name cb pc cs0 [] can past ls in
  wt_inv w → pc ≠ WEnded → counting (current w) →
  steps_well w (mkWatcher name false WLoop (current w) (if callback_left w then [Startup []] else []) can past ls).
Proof.
  intros w [Ht Hab Hst Hl _] Hpc Hc. split; [|split_and!; try done; unfold owes; cbn; by destruct (callback_left w)].
  cbn [w wt_name wt_posted wt_queue] in *. rewrite ?app_nil_r in *. destruct (callback_left w) eqn:El.
  - assert (past = []) as E by by apply Hl. rewrite E in *. split; cbn; try done.
    intros o c ->%list_elem_of_singleton. by intros ?%elem_of_nil.
  - split; cbn; rewrite ?app_nil_r; done.
Qed.

Lemma watcher_step_inv stopped w w' : watcher_step range stopped w w' → wt_inv w → steps_well w w'.
Proof.
  destruct 1 as [name cb cs can past ls _|name cb cs can past ls _|name cb x cs can past ls line Hh|name cb x cs can past ls
    |name cb cs can past ls _|name cb cs can past ls]; intros Hinv.
  - by apply (over_steps name cb WLoop cs); [|done|apply Hinv].
  - destruct Hinv as [Ht Hab Hst Hl Hpc]. open_watcher. split; [|split_and!; try done; by rewrite andb_true_r, orb_false_r].
    split; unfold current, callback_left; cbn; rewrite ?app_nil_r, ?andb_true_r; try done.
    split; [|done]. split; cbn; [by intros l ?%elem_of_empty|done|]. split_and!; [done..|].
    intros Hcb. rewrite Hl in Ht by done. by eapply no_counts.
  - by apply line_steps.
  - apply (over_steps name cb (WConn x) cs); [done|done|]. destruct Hinv as [_ _ _ _ [Hf _]]. by eapply following_counting.
  - by apply closing_steps.
  - destruct Hinv as [Ht Hab Hst Hl Hpc]. open_watcher. split; [|done].
    split; unfold current, callback_left; cbn; rewrite ?app_nil_r; done.
Qed.
End Steps.

(** ** The invariant of the system *)

(** What a consumer has been told by a watcher. *)
Definition view (w : watcher) : gset string := default ∅ (consume ∅ (wt_posted w)).
Definition views (ws : list watcher) : gset string := ⋃ (view <$> ws).

Definition owing (ws : list watcher) : nat := length (filter (λ w, owes w) ws).

Lemma views_app ws ws' : views (ws ++ ws') = views ws ∪ views ws'.
Proof. unfold views. by rewrite fmap_app, union_list_app_L. Qed.
Lemma views_middle l1 w l2 : views (l1 ++ w :: l2) = view w ∪ views (l1 ++ l2).
Proof.
  rewrite !views_app. unfold views. rewrite fmap_cons. cbn [union_list foldr]. by rewrite !union_assoc_L, (union_comm_L (view w)).
Qed.
Lemma elem_of_views ws x : x ∈ views ws ↔ ∃ w, w ∈ ws ∧ x ∈ view w.
Proof.
  unfold views. rewrite elem_of_union_list. split.
  - intros (v & (w & -> & Hw)%list_elem_of_fmap & Hx). eauto.
  - intros (w & Hw & Hx). exists (view w). split; [by apply list_elem_of_fmap_2|done].
Qed.

Lemma owing_middle l1 w l2 : owing (l1 ++ w :: l2) = ((if owes w then 1 else 0) + owing (l1 ++ l2))%nat.
Proof.
  unfold owing. rewrite !filter_app, filter_cons, !length_app. destruct (owes w); cbn; [|done].
  rewrite decide_True by done. cbn. lia.
Qed.

Lemma consume_posted w : wt_inv w → consume ∅ (wt_posted w) = Some (view w).
Proof.
  intros [Ht _ _ _ _]. unfold told, view in *. rewrite consume_app in Ht. by destruct (consume ∅ (wt_posted w)).
Qed.

Lemma view_ids w x : wt_inv w → x ∈ view w → is_id (wt_name w) x.
Proof.
  intros Hw Hx. pose proof (consume_posted w Hw) as Hv. unfold consume in Hv.
  destruct (apply_changes_id _ _ _ x Hv Hx) as [?%elem_of_empty|(c & Hc & <-)]; [done|].
  apply list_elem_of_bind in Hc as (o & Hc & Ho). apply (wi_about w Hw o); [by apply elem_of_app; left|done].
Qed.

Lemma view_drained w : wt_inv w → wt_queue w = [] → view w = ids (wt_name w) (dom (current w)).
Proof. intros [Ht _ _ _ _] Hq. rewrite Hq, app_nil_r in Ht. unfold told in Ht. unfold view. by rewrite Ht. Qed.

Lemma view_ended w : wt_inv w → wt_pc w = WEnded → view w = ∅.
Proof.
  intros Hw Hpc. pose proof (wi_pc w Hw) as Hq. rewrite Hpc in Hq. rewrite view_drained by done.
  unfold current. by rewrite Hpc.
Qed.

Lemma current_posted w o q : current (posted w o q) = current w.
Proof. done. Qed.

(** A post. *)
Lemma posted_inv w o q :
  wt_inv w → wt_queue w = o :: q →
  wt_inv (posted w o q) ∧ wt_pc w ≠ WEnded ∧ owes (posted w o q) = false ∧ owes w = negb (is_emit o) ∧
  (is_emit o = false → wt_posted w = []) ∧ (∀ c, c ∈ output_changes o → about (wt_name w) c) ∧
  apply_changes (view w) (output_changes o) = Some (view (posted w o q)).
Proof.
  intros Hw Hq. pose proof Hw as [Ht Hab Hst Hl Hpc]. rewrite Hq in Ht, Hab, Hst, Hl, Hpc.
  assert (callback_left w = false) as Hcl.
  { destruct (callback_left w); [|done]. by destruct (app_cons_not_nil (wt_posted w) q o (eq_sym (Hl eq_refl))). }
  assert (wt_inv (posted w o q)) as Hw'.
  { unfold posted. split; cbn [wt_name wt_posted wt_queue wt_pc wt_cb wt_counts wt_listens]; rewrite <-?app_assoc; try done.
    destruct (wt_pc w); done. }
  assert (is_emit o = false → wt_posted w = []) as Hfirst.
  { intros Ho. destruct (wt_posted w) as [|o' l]; [done|]. cbn in Hst. apply Forall_app in Hst as [_ [Hst _]%Forall_cons].
    by rewrite Ho in Hst. }
  assert (match q with Startup _ :: _ => true | _ => false end = false) as Hq'.
  { destruct q as [|[ps|] q]; [done| |done]. destruct (wt_posted w) as [|o' l]; cbn in Hst.
    - apply Forall_cons in Hst as [[] _].
    - apply Forall_app in Hst as [_ [_ [[] _]%Forall_cons]%Forall_cons]. }
  split_and!; [done| | | |done| |].
  - intros E. by rewrite E in Hpc.
  - unfold owes. cbn [wt_queue posted]. rewrite Hq'. change (callback_left (posted w o q)) with (callback_left w). by rewrite Hcl.
  - unfold owes. rewrite Hcl, Hq. by destruct o.
  - intros c Hc. apply (Hab o c); [|done]. apply elem_of_app. right. left.
  - pose proof (consume_posted _ Hw') as H. cbn [wt_posted posted] in H. rewrite consume_app, (consume_posted w Hw) in H.
    cbn [mbind option_bind] in H. by rewrite consume_one in H.
Qed.

(** In an orderly system, watchers of the same container have ended but one. *)
Lemma orderly_others l1 w l2 w' :
  orderly (l1 ++ w :: l2) → w' ∈ l1 ++ l2 → wt_name w' = wt_name w → wt_pc w ≠ WEnded → wt_pc w' = WEnded.
Proof.
  intros Ho [Hw|Hw]%elem_of_app Hn Hne; apply list_elem_of_lookup in Hw as [j Hj].
  - apply (Ho j (length l1) w' w); [by eapply lookup_lt_Some| | |done].
    + rewrite lookup_app_l by by eapply lookup_lt_Some. done.
    + by rewrite list_lookup_middle.
  - destruct Hne. apply (Ho (length l1) (length l1 + S j)%nat w w'); [lia| | |done].
    + by rewrite list_lookup_middle.
    + rewrite lookup_app_r by lia. by replace (length l1 + S j - length l1)%nat with (S j) by lia.
Qed.

Lemma run_actions acts ws :
  Forall wt_inv ws →
  Forall wt_inv (foldl run_action ws acts) ∧ owing (foldl run_action ws acts) = owing ws ∧
  views (foldl run_action ws acts) = views ws ∧
  ∀ w, w ∈ foldl run_action ws acts → owes w = true → ∃ w', w' ∈ ws ∧ owes w' = true ∧ wt_name w' = wt_name w.
Proof.
  revert ws. induction acts as [|a acts IH]; intros ws Hws; cbn [foldl]; [split_and!; [done..|eauto]|].
  assert (Forall wt_inv (run_action ws a) ∧ owing (run_action ws a) = owing ws ∧ views (run_action ws a) = views ws ∧
    ∀ w, w ∈ run_action ws a → owes w = true → ∃ w', w' ∈ ws ∧ owes w' = true ∧ wt_name w' = wt_name w) as (H1 & H2 & H3 & H4).
  { destruct a as [name|name]; cbn [run_action].
    - split_and!.
      + apply Forall_app. split; [done|]. constructor; [|done]. split; cbn; try done; [by intros ? ? ?%elem_of_nil|apply counting_empty].
      + rewrite owing_middle, app_nil_r. done.
      + rewrite views_middle, app_nil_r. apply union_empty_l_L.
      + intros w [Hw| ->%list_elem_of_singleton]%elem_of_app Ho; [by exists w|done].
    - set (f := λ w : watcher, if decide (wt_name w = name) then cancel_watcher w else w).
      assert (∀ w, wt_inv w → wt_inv (f w)) as Hf1.
      { intros w Hw. unfold f. case_decide; [|done]. destruct Hw as [? ? ? ? Hpc]. split; try done. }
      assert (∀ w, owes (f w) = owes w ∧ view (f w) = view w ∧ wt_name (f w) = wt_name w) as Hf2.
      { intros w. unfold f. by case_decide. }
      split_and!.
      + apply Forall_fmap. eapply Forall_impl; [exact Hws|]. exact Hf1.
      + unfold owing. clear -Hf2. induction ws as [|w ws IH]; [done|]. rewrite fmap_cons, !filter_cons.
        destruct (Hf2 w) as [-> _]. case_decide; cbn; by rewrite IH.
      + unfold views. f_equal. rewrite <-list_fmap_compose. apply list_fmap_ext. intros i w _. by apply Hf2.
      + intros w (w' & -> & Hw')%list_elem_of_fmap Ho. exists w'. destruct (Hf2 w') as (E & _ & ->). by rewrite <-E. }
  destruct (IH (run_action ws a) H1) as (H1' & H2' & H3' & H4'). split_and!; [done|congruence|congruence|].
  intros w Hw Ho. destruct (H4' w Hw Ho) as (w1 & Hw1 & Ho1 & <-). by apply H4.
Qed.

(** Always: [run] is a client of [Client.v], and the callbacks still to come are
    accounted for. *)
Record sys_inv (initial : list string) (s : system) : Prop := {
  si_client : client_reachable initial (sy_client s);
  si_watchers : Forall wt_inv (sy_watchers s);
  si_owing : (owing (sy_watchers s) ≤ cl_waiting (sy_client s))%nat;
  si_room : sy_room s = S (length initial);
  si_closed : sy_closed s = true → cl_phase (sy_client s) = PStopped;
}.

(** What all of it, posted so far, amounts to. *)
Definition told_all (c : client) : list string := concat (cl_reported c) ++ concat (cl_emitted c).

(** While nothing was given up and watchers are started in order. *)
Record sys_view (c : client) (ws : list watcher) : Prop := {
  sv_told : apply_changes ∅ (told_all c) = Some (views ws);
  sv_news : ∀ w x, w ∈ ws → owes w = true → x ∈ told_all c → ¬ about (wt_name w) x;
}.

Section System.
Context (range : counts → list portKey) (range_spec : ∀ cs, range cs ≡ₚ elements (dom cs)).

Lemma owing_init (names : list string) : owing (newContainerWatcher true <$> names) = length names.
Proof. induction names as [|n names IH]; [done|]. change (owing ([] ++ newContainerWatcher true n :: map (newContainerWatcher true) names) = S (length names)). rewrite owing_middle. cbn. by f_equal. Qed.

Lemma sys_inv_init entries : sys_inv (scanDir entries) (sys_init entries).
Proof.
  unfold sys_init. split; cbn [sy_client sy_watchers sy_room cl_waiting client_init]; [apply rtc_refl| |by rewrite owing_init|done|done].
  apply Forall_fmap, Forall_true. intros name.
  split; cbn; try done; [by intros ? ? ?%elem_of_nil|apply counting_empty].
Qed.

Lemma sys_step_inv initial s s' : sys_step range s s' → sys_inv initial s → sys_inv initial s'.
Proof.
  intros Hs [Hc Hws Ho Hr Hcl].
  destruct Hs as [i w w' c ws room Hi Hw|i w ports q c ws room Hi Hq Hroom|i w chs q c ws room Hi Hq Hroom|i w chs q c ws room Hi Hq Hk
    |c c' ws room Hrun|order entries c ws room Hord Hp|c ws room|c ws room Hp He]; cbn [sy_client sy_watchers sy_room] in *.
  1-4: apply update_split in Hi as (l1 & l2 & -> & _ & ->); pose proof Hws as [H1 [Hwi H2]%Forall_cons]%Forall_app;
    rewrite owing_middle in Ho.
  - destruct (watcher_step_inv range range_spec _ _ _ Hw Hwi) as (Hwi' & _ & _ & _ & _ & Hown).
    split; cbn [sy_client sy_watchers sy_room cl_waiting call_back emit Kill do_scan]; [done|by apply Forall_app; split; [|constructor]| |done|done]. rewrite owing_middle.
    destruct (owes w'); [rewrite Hown in Ho by done; lia|destruct (owes w); lia].
  - destruct (posted_inv w _ _ Hwi Hq) as (Hwi' & _ & Ho' & Hown & _). rewrite Hown in Ho. cbn in Ho.
    split; cbn [sy_client sy_watchers sy_room cl_waiting call_back emit Kill do_scan]; [apply (rtc_r _ _ _ Hc), cs_call_back; lia|by apply Forall_app; split; [|constructor]| |done|done].
    rewrite owing_middle, Ho'. lia.
  - destruct (posted_inv w _ _ Hwi Hq) as (Hwi' & _ & Ho' & Hown & _). rewrite Hown in Ho. cbn in Ho.
    split; cbn [sy_client sy_watchers sy_room cl_waiting call_back emit Kill do_scan]; [by apply (rtc_r _ _ _ Hc), cs_emit|by apply Forall_app; split; [|constructor]| |done|done].
    rewrite owing_middle, Ho'. lia.
  - destruct (posted_inv w _ _ Hwi Hq) as (Hwi' & _ & Ho' & Hown & _). rewrite Hown in Ho. cbn in Ho.
    split; cbn [sy_client sy_watchers sy_room cl_waiting call_back emit Kill do_scan]; [done|by apply Forall_app; split; [|constructor]| |done|done]. rewrite owing_middle, Ho'. lia.
  - destruct Hrun as (Hst & Hrep & _). split; cbn [sy_client sy_watchers sy_room cl_waiting call_back emit Kill do_scan]; [exact (rtc_r _ _ _ Hc Hst)|done| |done|done].
    pose proof (client_reachable_inv _ _ Hc) as [Hw _ _].
    pose proof (client_reachable_inv _ _ (rtc_r _ _ _ Hc Hst)) as [Hw' _ _]. rewrite Hrep in Hw'. lia.
  - destruct (run_actions (scan order entries (cl_containers c)).2 ws Hws) as (H1 & H2 & _).
    split; cbn [sy_client sy_watchers sy_room cl_waiting call_back emit Kill do_scan]; [by apply (rtc_r _ _ _ Hc), cs_scan|done|by rewrite H2|done|done].
  - split; cbn [sy_client sy_watchers sy_room cl_waiting call_back emit Kill do_scan]; [apply (rtc_r _ _ _ Hc), cs_kill|done..].
  - by split.
Qed.

(** ** What the consumer is told *)

Lemma others_apart l1 w l2 x :
  orderly (l1 ++ w :: l2) → Forall wt_inv (l1 ++ l2) → wt_pc w ≠ WEnded → is_id (wt_name w) x → x ∉ views (l1 ++ l2).
Proof.
  intros Ho Hws Hne Hx (w' & Hw' & Hx')%elem_of_views. rewrite Forall_forall in Hws. pose proof (Hws w' Hw') as Hi.
  pose proof (view_ids w' x Hi Hx') as Hid.
  assert (wt_pc w' = WEnded) as He by (apply (orderly_others l1 w l2); [done..|by eapply is_id_inj|done]).
  rewrite view_ended in Hx' by done. by apply elem_of_empty in Hx'.
Qed.

(** A watcher that owes its callback has no other one of its container beside it,
    as long as that one is at work. *)
Lemma owing_alone l1 w l2 w' x :
  orderly (l1 ++ w :: l2) → Forall wt_inv (l1 ++ l2) → wt_pc w ≠ WEnded → w' ∈ l1 ++ l2 → owes w' = true →
  about (wt_name w) x → ¬ about (wt_name w') x.
Proof.
  intros Ho Hws Hne Hw' How Hx Hx'. assert (wt_pc w' = WEnded) as He.
  { apply (orderly_others l1 w l2); [done..|by eapply is_id_inj|done]. }
  rewrite Forall_forall in Hws. pose proof (wi_pc w' (Hws w' Hw')) as Hq. rewrite He in Hq.
  unfold owes, callback_left in How. by rewrite He, Hq in How.
Qed.

Lemma startup_view l1 w l2 c ports q :
  orderly (l1 ++ w :: l2) → wt_inv w → Forall wt_inv (l1 ++ l2) → wt_queue w = Startup ports :: q →
  sys_view c (l1 ++ w :: l2) → sys_view (call_back ports c) (l1 ++ posted w (Startup ports) q :: l2).
Proof.
  intros Ho Hw Hws Hq [Ht Hn]. destruct (posted_inv w _ _ Hw Hq) as (Hw' & Hne & Ho' & Hown & Hp & Hab & Happ).
  cbn [is_emit negb output_changes] in *. specialize (Hp eq_refl).
  assert (w ∈ l1 ++ w :: l2) as Hin by (apply elem_of_app; right; left).
  assert (view w = ∅) as Hv by (unfold view; by rewrite Hp). rewrite Hv in Happ.
  unfold told_all in *. destruct (apply_changes_prefix _ _ _ _ Ht) as (R & HR & HV).
  rewrite views_middle, Hv, union_empty_l_L in HV. split.
  - unfold told_all. cbn [cl_reported cl_emitted call_back]. rewrite concat_app. cbn [concat]. rewrite app_nil_r, <-app_assoc.
    rewrite apply_changes_app, HR. cbn [mbind option_bind]. rewrite apply_changes_app.
    replace R with (∅ ∪ R) by apply union_empty_l_L. rewrite apply_changes_frame, Happ.
    + cbn [fmap option_fmap option_map mbind option_bind]. rewrite union_comm_L, apply_changes_frame, HV.
      * cbn. by rewrite views_middle, union_comm_L.
      * intros x Hx HP. apply (Hn w x Hin Hown); [apply elem_of_app; by right|].
        destruct (apply_changes_id _ _ _ _ Happ HP) as [?%elem_of_empty|(c' & Hc' & E)]; [done|].
        unfold about. rewrite <-E. by apply Hab.
    + intros x Hx HP. destruct (apply_changes_id _ _ _ _ HR HP) as [?%elem_of_empty|(c' & Hc' & E)]; [done|].
      apply (Hn w c' Hin Hown); [apply elem_of_app; by left|]. unfold about. rewrite E. by apply Hab.
  - intros w1 x Hw1 Hw1o Hx.
    assert (w1 ∈ l1 ++ l2) as Hw1'.
    { revert Hw1. rewrite !elem_of_app, elem_of_cons. intros [?|[->|?]]; [tauto|congruence|tauto]. }
    assert (x ∈ concat (cl_reported c) ++ concat (cl_emitted c) ∨ x ∈ ports) as [Hx'|Hx'].
    { revert Hx. unfold told_all. cbn [cl_reported cl_emitted call_back]. rewrite concat_app, !elem_of_app. cbn [concat].
      rewrite app_nil_r. tauto. }
    + apply Hn; [|done..]. revert Hw1'. rewrite !elem_of_app, elem_of_cons. tauto.
    + apply (owing_alone l1 w l2); try done. by apply Hab.
Qed.

Lemma emit_view l1 w l2 c chs q :
  orderly (l1 ++ w :: l2) → wt_inv w → Forall wt_inv (l1 ++ l2) → wt_queue w = Emit chs :: q →
  sys_view c (l1 ++ w :: l2) → sys_view (emit chs c) (l1 ++ posted w (Emit chs) q :: l2).
Proof.
  intros Ho Hw Hws Hq [Ht Hn]. destruct (posted_inv w _ _ Hw Hq) as (Hw' & Hne & Ho' & Hown & _ & Hab & Happ).
  cbn [is_emit negb output_changes] in *.
  assert (told_all (emit chs c) = told_all c ++ chs) as Hall.
  { unfold told_all. cbn [cl_reported cl_emitted emit]. rewrite concat_app. cbn [concat]. by rewrite app_nil_r, app_assoc. }
  split.
  - rewrite Hall, apply_changes_app, Ht. cbn [mbind option_bind]. rewrite !views_middle, apply_changes_frame, Happ; [done|].
    intros x Hx. apply (others_apart l1 w l2); try done. by apply Hab.
  - intros w1 x Hw1 Hw1o Hx.
    assert (w1 ∈ l1 ++ l2) as Hw1'.
    { revert Hw1. rewrite !elem_of_app, elem_of_cons. intros [?|[->|?]]; [tauto|congruence|tauto]. }
    rewrite Hall in Hx. apply elem_of_app in Hx as [Hx|Hx].
    + apply Hn; [|done..]. revert Hw1'. rewrite !elem_of_app, elem_of_cons. tauto.
    + apply (owing_alone l1 w l2); try done. by apply Hab.
Qed.

Lemma sys_step_view initial s s' :
  sys_step range s s' → sys_inv initial s → orderly (sy_watchers s) →
  cl_killed (sy_client s') = false → sys_view (sy_client s) (sy_watchers s) → sys_view (sy_client s') (sy_watchers s').
Proof.
  intros Hs [_ Hws _ _ _] Ho Hk Hv.
  destruct Hs as [i w w' c ws room Hi Hw|i w ports q c ws room Hi Hq Hroom|i w chs q c ws room Hi Hq Hroom|i w chs q c ws room Hi Hq Hk'
    |c c' ws room Hrun|order entries c ws room Hord Hp|c ws room|c ws room Hp He]; cbn [sy_client sy_watchers] in *; try congruence.
  1-3: apply update_split in Hi as (l1 & l2 & -> & _ & ->); pose proof Hws as [H1 [Hwi H2]%Forall_cons]%Forall_app;
    assert (Forall wt_inv (l1 ++ l2)) as H12 by by apply Forall_app.
  - destruct (watcher_step_inv range range_spec _ _ _ Hw Hwi) as (_ & Hn & Hpo & _ & _ & Hown). destruct Hv as [Ht Hnews]. split.
    + rewrite Ht, !views_middle. unfold view. by rewrite Hpo.
    + intros w1 x. rewrite elem_of_app, elem_of_cons. intros [Hw1|[->|Hw1]] How; [| |].
      * apply Hnews; [apply elem_of_app; by left|done].
      * rewrite Hn. apply Hnews; [apply elem_of_app; right; left|by apply Hown].
      * apply Hnews; [apply elem_of_app; right; by right|done].
  - by apply startup_view.
  - by apply emit_view.
  - destruct Hrun as (_ & Hr & He & _). destruct Hv as [Ht Hn]. unfold told_all in *. split; unfold told_all; by rewrite Hr, He.
  - destruct (run_actions (scan order entries (cl_containers c)).2 ws Hws) as (_ & _ & HV & Hown). destruct Hv as [Ht Hn]. split.
    + by rewrite HV.
    + intros w x Hw How. destruct (Hown w Hw How) as (w' & Hw' & How' & <-). by apply Hn.
  - discriminate Hk.
Qed.


Lemma sys_reachable_inv entries s : sys_reachable range entries s → sys_inv (scanDir entries) s.
Proof. intros H. eapply rtc_invariant; [intros x y; apply sys_step_inv|done|apply sys_inv_init]. Qed.

Lemma killed_step s s' : sys_step range s s' → cl_killed (sy_client s) = true → cl_killed (sy_client s') = true.
Proof. intros []; cbn; try done. destruct H as (_ & _ & _ & _ & ->). done. Qed.

Lemma orderly_init names : NoDup names → orderly (newContainerWatcher true <$> names).
Proof.
  intros Hnd i j w w' Hij Hi Hj E. rewrite list_lookup_fmap in Hi, Hj.
  destruct (names !! i) as [n|] eqn:Ei; [|done]. destruct (names !! j) as [n'|] eqn:Ej; [|done].
  injection Hi as <-. injection Hj as <-. cbn in E. subst n'. pose proof (NoDup_lookup names i j n Hnd Ei Ej). lia.
Qed.

Lemma view_init names : sys_view (client_init names) (newContainerWatcher true <$> names).
Proof.
  split; [|by intros w x _ _ ?%elem_of_nil]. cbn. f_equal. symmetry. unfold views. induction names as [|n names IH]; [done|].
  rewrite !fmap_cons. cbn [union_list foldr]. rewrite IH. by rewrite union_empty_r_L.
Qed.

Lemma orderly_reachable_view entries s :
  NoDup (scanDir entries) → orderly_reachable range entries s →
  sys_reachable range entries s ∧ orderly (sy_watchers s) ∧
  (cl_killed (sy_client s) = false → sys_view (sy_client s) (sy_watchers s)).
Proof.
  intros Hnd Hs. apply (rtc_invariant (orderly_step range) (λ s, sys_reachable range entries s ∧ orderly (sy_watchers s) ∧
    (cl_killed (sy_client s) = false → sys_view (sy_client s) (sy_watchers s))) (sys_init entries) s); [|exact Hs|].
  - intros x y [Hxy Hoy] (Hr & Ho & Hv). split_and!; [exact (rtc_r _ _ _ Hr Hxy)|done|]. intros Hk.
    apply (sys_step_view (scanDir entries) x y); [done|by apply sys_reachable_inv|done..|]. apply Hv.
    destruct (cl_killed (sy_client x)) eqn:E; [|done]. rewrite (killed_step x y Hxy E) in Hk. done.
  - split_and!; [apply rtc_refl|by apply orderly_init|intros _; apply view_init].
Qed.
End System.

(** ** Progress *)

Section Progress.
Context (range : counts → list portKey).

(** The watchers are where they were. *)
Definition stays (w w' : watcher) : Prop :=
  wt_name w' = wt_name w ∧ wt_pc w' = wt_pc w ∧ wt_listens w' = wt_listens w ∧ wt_cancelled w' = wt_cancelled w.
Definition settle_step (s s' : system) : Prop :=
  sys_step range s s' ∧ Forall2 stays (sy_watchers s) (sy_watchers s').

#[export] Instance stays_preorder : PreOrder stays.
Proof. split; [done|]. intros w1 w2 w3 (? & ? & ? & ?) (? & ? & ? & ?). repeat split; congruence. Qed.

Lemma settle_sys s s' : rtc settle_step s s' → rtc (sys_step range) s s'.
Proof. apply rtc_subrel. by intros x y []. Qed.
Lemma settle_stays s s' : rtc settle_step s s' → Forall2 stays (sy_watchers s) (sy_watchers s').
Proof. induction 1 as [|s s1 s' [_ H] _ IH]; [reflexivity|]. by etrans. Qed.

Lemma run_steps_sys ws room c c' :
  rtc run_step c c' → rtc settle_step (mkSystem c ws room false) (mkSystem c' ws room false).
Proof. induction 1 as [|c c1 c' Hs _ IH]; [done|]. eapply rtc_l; [split; [by apply sys_run|cbn; reflexivity]|done]. Qed.

(** What becomes of a client that only forwards. *)
Definition forwards (c c' : client) : Prop :=
  cl_killed c' = cl_killed c ∧ cl_timedOut c' = cl_timedOut c ∧ (cl_changes c ≠ [] → cl_changes c' ≠ []).

#[export] Instance forwards_preorder : PreOrder forwards.
Proof. split; [done|]. intros c1 c2 c3 (? & ? & ?) (? & ? & ?). split_and!; [congruence..|auto]. Qed.

Lemma forwards_send p ev q c : forwards c (with_phase p (send ev (with_outCh q c))).
Proof. split_and!; [done..|]. intros _. cbn. by destruct (cl_changes c). Qed.

(** [run] takes all of [outCh] and comes back to its [select]. *)
Lemma run_takes q c :
  cl_phase c = PRun → cl_outCh c = q → ∃ c', rtc run_step c c' ∧ cl_phase c' = PRun ∧ cl_outCh c' = [] ∧ forwards c c'.
Proof.
  revert c. induction q as [|ev q IH]; intros c Hp Hq; [by exists c|].
  set (c1 := with_phase (PForward ev) (with_outCh q c)). set (c2 := with_phase PRun (send ev c1)).
  destruct (IH c2) as (c' & Hs & H1 & H2 & H3); [done..|]. exists c'. split_and!; [|done..|].
  - eapply rtc_l; [split; [by apply (cs_take ev q)|done]|]. eapply rtc_l; [|exact Hs]. split; [by apply (cs_forward ev)|done].
  - etrans; [|exact H3]. apply (forwards_send PRun ev q).
Qed.

Lemma run_flushes pend c :
  cl_phase c = PFlush pend → ∃ c', rtc run_step c c' ∧ cl_phase c' = PRun ∧ forwards c c'.
Proof.
  revert c. induction pend as [|ev pend IH]; intros c Hp.
  - exists (with_phase PRun c). split; [|done]. apply rtc_once. split; [by apply cs_flushed|done].
  - destruct (IH (with_phase (PFlush pend) (send ev c))) as (c' & Hs & H & Hf); [done|]. exists c'. split_and!; [|done|].
    + eapply rtc_l; [|exact Hs]. split; [by apply cs_flush|done].
    + etrans; [|exact Hf]. apply (forwards_send _ ev (cl_outCh c)).
Qed.

Lemma run_settles c :
  cl_changes c ≠ [] → (∃ taken n, match cl_phase c with
    | PStart _ _ _ | PSend _ _ => cl_changes c = [] | PStopped => False | _ => sent_snapshot c n taken end) →
  ∃ c', rtc run_step c c' ∧ cl_phase c' = PRun ∧ cl_outCh c' = [] ∧ forwards c c'.
Proof.
  intros Hne (taken & n & Hp). assert (∃ c1, rtc run_step c c1 ∧ cl_phase c1 = PRun ∧ forwards c c1) as (c1 & Hs1 & Hp1 & Hf1).
  { destruct (cl_phase c) as [r sn pend|sn pend|pend| |ev|] eqn:E; [done|done|by eapply run_flushes|by exists c| |done].
    exists (with_phase PRun (send ev c)). split_and!; [|done|apply (forwards_send PRun ev (cl_outCh c))].
    apply rtc_once. split; [by apply cs_forward|done]. }
  destruct (run_takes _ c1 Hp1 eq_refl) as (c2 & Hs2 & Hp2 & Hq2 & Hf2). exists c2. split_and!; [by etrans|done|done|by etrans].
Qed.

(** What is left to post. *)
Definition backlog (ws : list watcher) : nat := length (ws ≫= wt_queue).

Lemma backlog_middle l1 w l2 : backlog (l1 ++ w :: l2) = (length (wt_queue w) + backlog (l1 ++ l2))%nat.
Proof. unfold backlog. rewrite !bind_app, bind_cons, !length_app. lia. Qed.

Lemma backlog_zero ws : backlog ws = 0%nat → Forall (λ w, wt_queue w = []) ws.
Proof.
  unfold backlog. intros H%length_zero_iff_nil. apply Forall_forall. intros w Hw. destruct (wt_queue w) as [|o q] eqn:E; [done|].
  exfalso. assert (o ∈ ws ≫= wt_queue) as Ho by (apply list_elem_of_bind; exists w; rewrite E; split; [left|done]).
  rewrite H in Ho. by apply elem_of_nil in Ho.
Qed.

Lemma backlog_pick ws n : backlog ws = S n → ∃ i w o q, ws !! i = Some w ∧ wt_queue w = o :: q.
Proof.
  unfold backlog. destruct (ws ≫= wt_queue) as [|o rest] eqn:E; [done|]. intros _.
  assert (o ∈ ws ≫= wt_queue) as Ho by (rewrite E; left). apply list_elem_of_bind in Ho as (w & Ho & Hw).
  apply list_elem_of_lookup in Hw as [i Hi]. destruct (wt_queue w) as [|o' q] eqn:Eq; [by apply elem_of_nil in Ho|]. eauto 10.
Qed.

Lemma open_posted l1 w l2 o q c c' room b b' :
  open_ports (mkSystem c (l1 ++ posted w o q :: l2) room b) = open_ports (mkSystem c' (l1 ++ w :: l2) room b').
Proof. unfold open_ports. cbn [sy_watchers]. by rewrite !fmap_app, !fmap_cons. Qed.

Lemma room_left initial c : client_reachable initial c → (length (cl_startupCh c) < S (length initial))%nat.
Proof.
  intros [Hw _ (taken & Hr & _)]%client_reachable_inv. rewrite Hr, length_app in Hw. lia.
Qed.

Context (range_spec : ∀ cs, range cs ≡ₚ elements (dom cs)).

Lemma posts_settle n initial c ws room :
  backlog ws = n → cl_phase c = PRun → cl_outCh c = [] → sys_inv initial (mkSystem c ws room false) →
  ∃ c' ws', rtc settle_step (mkSystem c ws room false) (mkSystem c' ws' room false) ∧ quiet (mkSystem c' ws' room false) ∧
    open_ports (mkSystem c' ws' room false) = open_ports (mkSystem c ws room false) ∧ forwards c c'.
Proof.
  revert c ws. induction n as [|n IH]; intros c ws Hn Hp Hq Hinv.
  { exists c, ws. split_and!; [done| |done|done]. split_and!; [done..|]. by apply backlog_zero. }
  assert (∃ i w o q, ws !! i = Some w ∧ wt_queue w = o :: q) as (i & w & o & q & Hi & Hw).
  { by eapply backlog_pick. }
  pose proof Hi as Hi'. apply update_split in Hi as (l1 & l2 & -> & _ & Hup). rewrite backlog_middle, Hw in Hn. cbn in Hn.
  pose proof (si_room _ _ Hinv) as Hr. cbn in Hr. subst room. pose proof (room_left _ _ (si_client _ _ Hinv)) as Hroom.
  assert (backlog (l1 ++ posted w o q :: l2) = n) as Hn' by (rewrite backlog_middle; cbn; lia).
  assert (∃ c1, sys_step range (mkSystem c (l1 ++ w :: l2) (S (length initial)) false)
      (mkSystem c1 (l1 ++ posted w o q :: l2) (S (length initial)) false) ∧ cl_phase c1 = PRun ∧ forwards c c1) as (c1 & Hs & Hp1 & Hf1).
  { destruct o as [ports|chs].
    - exists (call_back ports c). split; [|done]. rewrite <-(Hup (posted w (Startup ports) q)). by eapply sys_call_back.
    - exists (emit chs c). split; [|done]. rewrite <-(Hup (posted w (Emit chs) q)). eapply sys_emit; [done..|]. rewrite Hq. unfold outBuf. cbn. lia. }
  destruct (run_takes _ c1 Hp1 eq_refl) as (c2 & Hs2 & Hp2 & Hq2 & Hf2). apply (run_steps_sys (l1 ++ posted w o q :: l2) (S (length initial))) in Hs2.
  assert (sys_inv initial (mkSystem c2 (l1 ++ posted w o q :: l2) (S (length initial)) false)) as Hinv2.
  { apply (rtc_invariant (sys_step range) (sys_inv initial) _ _ (λ x y, sys_step_inv range range_spec initial x y) (settle_sys _ _ Hs2)).
    by apply (sys_step_inv range range_spec initial _ _ Hs). }
  destruct (IH c2 _ Hn' Hp2 Hq2 Hinv2) as (c' & ws' & Hs' & Hquiet & Hopen & Hf'). exists c', ws'. split_and!; [|done| |].
  - apply rtc_l with (mkSystem c1 (l1 ++ posted w o q :: l2) (S (length initial)) false); [|by etrans].
    split; [exact Hs|]. apply Forall2_app; [reflexivity|]. by constructor.
  - rewrite Hopen. apply open_posted.
  - etrans; [exact Hf1|]. by etrans.
Qed.

(** After the startup snapshot everything that is posted or to be posted can be
    forwarded. *)
Lemma settles initial c ws room :
  sys_inv initial (mkSystem c ws room false) → cl_changes c ≠ [] → cl_phase c ≠ PStopped →
  ∃ c' ws', rtc settle_step (mkSystem c ws room false) (mkSystem c' ws' room false) ∧ quiet (mkSystem c' ws' room false) ∧
    open_ports (mkSystem c' ws' room false) = open_ports (mkSystem c ws room false) ∧ forwards c c'.
Proof.
  intros Hinv Hne Hph. pose proof (client_reachable_inv _ _ (si_client _ _ Hinv)) as [_ _ (taken & _ & Hs)]. cbn [sy_client] in Hs.
  destruct (run_settles c Hne) as (c1 & Hs1 & Hp1 & Hq1 & Hf1).
  { exists taken, (length initial). destruct (cl_phase c); try done; by destruct Hs. }
  apply (run_steps_sys ws room) in Hs1.
  destruct (posts_settle (backlog ws) initial c1 ws room eq_refl Hp1 Hq1) as (c' & ws' & Hs' & Hquiet & Hopen & Hf').
  { exact (rtc_invariant (sys_step range) (sys_inv initial) _ _ (λ x y, sys_step_inv range range_spec initial x y) (settle_sys _ _ Hs1) Hinv). }
  exists c', ws'. split_and!; [by etrans|done|by rewrite Hopen|by etrans].
Qed.

(** ** Stopping *)

Lemma run_stops c :
  cl_killed c = true →
  ∃ c', rtc run_step c c' ∧ cl_phase c' = PStopped ∧ cl_killed c' = true ∧ cl_changes c' = cl_changes c.
Proof.
  intros Hk. assert (∀ c, cl_killed c = true → may_stop (cl_phase c) = true → rtc run_step c (with_phase PStopped c)) as Hstop.
  { intros c1 Hk1 Hm. apply rtc_once. split; [by apply cs_stop|done]. }
  destruct (cl_phase c) as [[|r] sn pend|sn pend|[|ev pend]| |ev|] eqn:E;
    try (exists (with_phase PStopped c); split; [apply Hstop; by rewrite ?E|done]).
  - exists (with_phase PStopped (with_phase (PSend sn pend) c)). split; [|done].
    eapply rtc_l; [split; [by apply cs_collected|done]|]. by apply Hstop.
  - exists (with_phase PStopped (with_phase PRun c)). split; [|done].
    eapply rtc_l; [split; [by apply cs_flushed|done]|]. by apply Hstop.
  - by exists c.
Qed.

(** After [Kill] nothing is sent on [Changes] while the watchers end. *)
Definition kept (c c' : client) : Prop :=
  cl_killed c' = cl_killed c ∧ cl_phase c' = cl_phase c ∧ cl_changes c' = cl_changes c.

(** A watcher gets to [P] by itself. *)
Definition gets (l1 l2 : list watcher) (room : nat) (P : watcher → Prop) (c : client) (w : watcher) : Prop :=
  ∃ c' w', rtc (sys_step range) (mkSystem c (l1 ++ w :: l2) room false) (mkSystem c' (l1 ++ w' :: l2) room false) ∧
    kept c c' ∧ P w'.

Lemma gets_step l1 l2 room P c w c1 w1 :
  sys_step range (mkSystem c (l1 ++ w :: l2) room false) (mkSystem c1 (l1 ++ w1 :: l2) room false) → kept c c1 →
  gets l1 l2 room P c1 w1 → gets l1 l2 room P c w.
Proof.
  intros Hs (H1 & H2 & H3) (c' & w' & Hr & (H1' & H2' & H3') & HP). exists c', w'.
  split_and!; [by eapply rtc_l|split_and!; congruence|done].
Qed.

Lemma insert_middle {A} (l1 l2 : list A) x y : <[length l1 := y]> (l1 ++ x :: l2) = l1 ++ y :: l2.
Proof. rewrite insert_app_r_alt by lia. by rewrite Nat.sub_diag. Qed.

Lemma gets_watcher l1 l2 room P c w w1 :
  watcher_step range true w w1 → cl_killed c = true → gets l1 l2 room P c w1 → gets l1 l2 room P c w.
Proof.
  intros Hs Hk. apply gets_step; [|done]. rewrite <-(insert_middle l1 l2 w w1).
  apply (sys_watcher range (length l1) w w1); [by apply list_lookup_middle|]. by rewrite Hk, orb_true_r.
Qed.

Lemma gets_drained l1 l2 initial P c w :
  cl_killed c = true → sys_inv initial (mkSystem c (l1 ++ w :: l2) (S (length initial)) false) →
  (∀ c' w', cl_killed c' = true → sys_inv initial (mkSystem c' (l1 ++ w' :: l2) (S (length initial)) false) →
     wt_queue w' = [] → wt_pc w' = wt_pc w → gets l1 l2 (S (length initial)) P c' w') →
  gets l1 l2 (S (length initial)) P c w.
Proof.
  intros Hk Hinv Hnext. remember (wt_queue w) as q eqn:Hq. symmetry in Hq. revert c w Hq Hk Hinv Hnext.
  induction q as [|o q IH]; intros c w Hq Hk Hinv Hnext; [by apply Hnext|].
  assert (∃ c1, sys_step range (mkSystem c (l1 ++ w :: l2) (S (length initial)) false)
    (mkSystem c1 (l1 ++ posted w o q :: l2) (S (length initial)) false) ∧ kept c c1) as (c1 & Hs & Hc1).
  { rewrite <-(insert_middle l1 l2 w (posted w o q)). destruct o as [ports|chs].
    - exists (call_back ports c). split; [|done]. apply sys_call_back; [by apply list_lookup_middle|done|].
      apply room_left, (si_client _ _ Hinv).
    - exists c. split; [|done]. apply sys_give_up; [by apply list_lookup_middle|done..]. }
  apply (gets_step _ _ _ _ _ _ c1 (posted w o q)); [done..|]. apply IH; [done| | |done].
  - by rewrite (proj1 Hc1).
  - by apply (sys_step_inv range range_spec initial _ _ Hs).
Qed.

Lemma gets_ended l1 l2 initial c w :
  cl_killed c = true → sys_inv initial (mkSystem c (l1 ++ w :: l2) (S (length initial)) false) →
  gets l1 l2 (S (length initial)) (λ w', wt_pc w' = WEnded) c w.
Proof.
  set (P := λ w', wt_pc w' = WEnded). intros Hk Hinv.
  assert (∀ c w w1, cl_killed c = true → sys_inv initial (mkSystem c (l1 ++ w :: l2) (S (length initial)) false) →
    watcher_step range true w w1 → sys_inv initial (mkSystem c (l1 ++ w1 :: l2) (S (length initial)) false)) as Hstep.
  { intros c0 w0 w1 Hk0 Hi0 Hs0. eapply (sys_step_inv range range_spec initial); [|exact Hi0]. rewrite <-(insert_middle l1 l2 w0 w1).
    apply (sys_watcher range (length l1) w0 w1); [by apply list_lookup_middle|]. by rewrite Hk0, orb_true_r. }
  assert (∀ c w, cl_killed c = true → sys_inv initial (mkSystem c (l1 ++ w :: l2) (S (length initial)) false) → wt_pc w = WClosing →
    gets l1 l2 (S (length initial)) P c w) as Hclosing.
  { intros c0 w0 Hk0 Hi0 Hp0. apply gets_drained; [done..|]. intros c1 [name cb pc cs q can past ls] Hk1 Hi1 Hq1 Hp1. cbn in *.
    rewrite Hp0 in Hp1. subst. eapply gets_watcher; [apply wt_end|done|]. eexists _, _. by split_and!. }
  assert (∀ c w, cl_killed c = true → sys_inv initial (mkSystem c (l1 ++ w :: l2) (S (length initial)) false) → wt_pc w = WLoop →
    gets l1 l2 (S (length initial)) P c w) as Hloop.
  { intros c0 w0 Hk0 Hi0 Hp0. apply gets_drained; [done..|]. intros c1 [name cb pc cs q can past ls] Hk1 Hi1 Hq1 Hp1. cbn in *.
    rewrite Hp0 in Hp1. subst. eapply gets_watcher; [by apply wt_return|done|]. apply Hclosing; [done| |done].
    eapply Hstep; [done|exact Hi1|]. by apply wt_return. }
  destruct (wt_pc w) as [|x| |] eqn:Ep; [by apply Hloop| |by apply Hclosing|exists c, w; by split_and!].
  apply gets_drained; [done..|]. intros c1 [name cb pc cs q can past ls] Hk1 Hi1 Hq1 Hp1. cbn in *.
  rewrite Ep in Hp1. subst. eapply gets_watcher; [apply wt_eof|done|]. apply Hloop; [done| |done].
  eapply Hstep; [done|exact Hi1|]. apply wt_eof.
Qed.

Lemma all_end initial ended todo c :
  cl_killed c = true → sys_inv initial (mkSystem c (ended ++ todo) (S (length initial)) false) →
  Forall (λ w, wt_pc w = WEnded) ended →
  ∃ c' ws', rtc (sys_step range) (mkSystem c (ended ++ todo) (S (length initial)) false) (mkSystem c' ws' (S (length initial)) false) ∧
    kept c c' ∧ Forall (λ w, wt_pc w = WEnded) ws'.
Proof.
  revert ended c. induction todo as [|w todo IH]; intros ended c Hk Hinv He.
  { exists c, ended. rewrite app_nil_r. by split_and!. }
  destruct (gets_ended ended todo initial c w Hk Hinv) as (c1 & w1 & Hs1 & (Hk1 & Hp1 & Hc1) & Hw1).
  destruct (IH (ended ++ [w1]) c1) as (c2 & ws2 & Hs2 & (Hk2 & Hp2 & Hc2) & Hw2).
  - congruence.
  - rewrite <-app_assoc. by apply (rtc_invariant (sys_step range) (sys_inv initial) _ _ (λ x y, sys_step_inv range range_spec initial x y) Hs1).
  - apply Forall_app. by split; [|constructor].
  - exists c2, ws2. rewrite <-app_assoc in Hs2. split_and!; [by etrans|split_and!; congruence|done].
Qed.
End Progress.

(** What a consumer knows who has applied the batches. *)
Lemma consumer_view range entries s :
  (∀ cs, range cs ≡ₚ elements (dom cs)) → NoDup (scanDir entries) →
  orderly_reachable range entries s → cl_killed (sy_client s) = false → cl_timedOut (sy_client s) = false →
  ∃ v, apply_changes ∅ (concat (cl_changes (sy_client s))) = Some v ∧ (quiet s → v = open_ports s).
Proof.
  intros Hra Hnd Hr Hk Ht. destruct (orderly_reachable_view range Hra entries s Hnd Hr) as (Hr' & Ho & Hv).
  destruct (Hv Hk) as [Htold _]. pose proof (sys_reachable_inv range Hra entries s Hr') as Hinv.
  pose proof Hinv as [Hc Hws _ Hroom Hcl].
  pose proof (client_reachable_inv _ _ Hc) as [Hwait (lost & Hb & Hl) (taken & Hrep & Hs)].
  assert (cl_changes (sy_client s) = [] ∧ cl_phase (sy_client s) ≠ PRun ∨ sent_snapshot (sy_client s) (length (scanDir entries)) taken) as Hcase.
  { destruct (cl_phase (sy_client s)); try tauto; [left; by destruct Hs..|]. destruct Hs; [by left|by right]. }
  destruct Hcase as [[-> Hp]|(snapshot & sent & E & -> & Hm)].
  - exists ∅. split; [done|]. by intros [? _].
  - specialize (Hm Ht). assert (cl_startupCh (sy_client s) = []) as Hsc.
    { destruct (cl_startupCh (sy_client s)); [done|]. rewrite Hrep, length_app in Hwait. cbn in Hwait. lia. }
    rewrite Hsc, app_nil_r in Hrep. unfold told_all in Htold. rewrite E in Hb |- *. cbn [tail] in Hb. cbn [concat].
    rewrite Hrep, Hb, concat_app, app_assoc in Htold. destruct (apply_changes_prefix _ _ _ _ Htold) as (v & -> & Hrest).
    exists v. split; [done|]. intros (Hp & Hq & Hall). rewrite Hp, Hq, Hl in Hrest by by rewrite Hp. cbn in Hrest.
    injection Hrest as ->. unfold views, open_ports. f_equal. apply list_fmap_ext. intros i w Hi.
    rewrite Forall_lookup in Hws, Hall. by apply view_drained; [eapply Hws|eapply Hall].
Qed.

(** ** Theorems *)

(** C6. The channel of changes mirrors all containers.  Whatever the containers
    send, however their watchers, the scans and [run] are interleaved, and
    however slowly the consumer reads: as long as the client runs, no container
    missed the startup deadline and no watcher is started while the last one of
    its container is still ending, a consumer who applies the batches in order
    opens only closed ports and closes only open ones; once nothing is on its
    way it knows exactly the ports all watchers count; and after the startup
    snapshot that point can always be reached by forwarding what there is. *)
Theorem changes_mirror range entries s :
  (∀ cs, range cs ≡ₚ elements (dom cs)) → NoDup (scanDir entries) →
  orderly_reachable range entries s → cl_killed (sy_client s) = false → cl_timedOut (sy_client s) = false →
  ∃ v, apply_changes ∅ (concat (cl_changes (sy_client s))) = Some v ∧ (quiet s → v = open_ports s) ∧
    (cl_changes (sy_client s) ≠ [] → cl_phase (sy_client s) ≠ PStopped →
     ∃ s', rtc (sys_step range) s s' ∧ quiet s' ∧ open_ports s' = open_ports s).
Proof.
  intros Hra Hnd Hr Hk Ht. destruct (consumer_view range entries s Hra Hnd Hr Hk Ht) as (v & Hv1 & Hv2).
  destruct (orderly_reachable_view range Hra entries s Hnd Hr) as (Hr' & _). pose proof (sys_reachable_inv range Hra entries s Hr') as Hinv.
  exists v. split_and!; [done..|]. intros Hne Hph.
  destruct s as [c ws room []]; cbn [sy_client sy_watchers sy_room sy_closed] in *; [by destruct Hph, (si_closed _ _ Hinv)|].
  destruct (settles range Hra (scanDir entries) c ws room Hinv Hne Hph) as (c' & ws' & Hsteps & Hquiet & Hopen & _).
  exists (mkSystem c' ws' room false). split_and!; [by apply settle_sys|done|done].
Qed.

(** C16. A client that is killed can always come to its end, and needs nobody for
    it.  From every state in which [Kill] was called, whatever [run] and the
    watchers are blocked on (a full channel of changes that nobody reads, a full
    internal channel, a callback, a container that does not answer), the
    remaining steps are there: [run] leaves its loop, every watcher gives up its
    posts and ends, the channel is closed, [Wait] returns, and nothing more is
    sent meanwhile.  Nothing happens after it is closed; and a startup callback
    never blocks. *)
Theorem kill_completes range entries s :
  (∀ cs, range cs ≡ₚ elements (dom cs)) → sys_reachable range entries s →
  (length (cl_startupCh (sy_client s)) < sy_room s)%nat ∧
  (cl_killed (sy_client s) = true →
   ∃ s', rtc (sys_step range) s s' ∧ Wait s' = true ∧ cl_changes (sy_client s') = cl_changes (sy_client s)) ∧
  (Wait s = true → ∀ s', ¬ sys_step range s s').
Proof.
  intros Hra Hr. pose proof (sys_reachable_inv range Hra entries s Hr) as Hinv. split_and!.
  - rewrite (si_room _ _ Hinv). apply room_left, (si_client _ _ Hinv).
  - intros Hk. destruct s as [c ws room []]; [by eexists|].
    pose proof (si_room _ _ Hinv) as Hroom. cbn [sy_client sy_room] in Hk, Hroom. subst room.
    destruct (run_stops c Hk) as (c1 & Hs1 & Hp1 & Hk1 & Hc1). apply (run_steps_sys range ws (S (length (scanDir entries)))), settle_sys in Hs1.
    destruct (all_end range Hra (scanDir entries) [] ws c1 Hk1) as (c2 & ws2 & Hs2 & (_ & Hp2 & Hc2) & He); [|done|].
    { exact (rtc_invariant (sys_step range) (sys_inv (scanDir entries)) _ _ (λ x y, sys_step_inv range Hra _ x y) Hs1 Hinv). }
    eexists (mkSystem c2 ws2 _ true). split_and!; [|done|cbn; congruence].
    etrans; [exact Hs1|]. eapply rtc_r; [exact Hs2|]. apply sys_close; [congruence|done].
  - intros Hw s' Hs. destruct Hs; discriminate Hw.
Qed.

(** ** Evaluating schedules *)

Section Schedule.
Context (range : counts → list portKey) (order : gset string → list string).
Context (order_spec : ∀ names, order names ≡ₚ elements names).

(** Evaluating a condition on where the turns lead. *)
Definition quietb (s : system) : bool :=
  match cl_phase (sy_client s), cl_outCh (sy_client s) with PRun, [] => forallb (λ w, match wt_queue w with [] => true | _ => false end) (sy_watchers s) | _, _ => false end.

Lemma quietb_quiet s : quietb s = true → quiet s.
Proof.
  unfold quietb, quiet. destruct (cl_phase (sy_client s)), (cl_outCh (sy_client s)); try done. intros H. split_and!; [done..|].
  apply Forall_forall. intros w Hw. rewrite forallb_forall in H. specialize (H w (proj1 (list_elem_of_In _ _) Hw)). by destruct (wt_queue w).
Qed.

Lemma turns_lead ts s (P : system → bool) :
  match take_turns range order ts s with Some s' => P s' | None => false end = true → ∃ s', take_turns range order ts s = Some s' ∧ P s' = true.
Proof. destruct (take_turns range order ts s) as [s'|]; [by exists s'|done]. Qed.

(** With one watcher at most every state is orderly. *)
Lemma orderly_single ws : (length ws ≤ 1)%nat → orderly ws.
Proof. intros H i j w w' Hij _ Hj. apply lookup_lt_Some in Hj. lia. Qed.

Fixpoint turns_single (ts : list turn) (s : system) : bool :=
  match ts with
  | [] => true
  | t :: ts => match take_turn range order t s with
               | Some s' => bool_decide (length (sy_watchers s') ≤ 1)%nat && turns_single ts s'
               | None => false
               end
  end.

Lemma take_turns_orderly ts s s' :
  take_turns range order ts s = Some s' → turns_single ts s = true → rtc (orderly_step range) s s'.
Proof.
  revert s. induction ts as [|t ts IH]; intros s; cbn; [by intros [= ->]|].
  destruct (take_turn range order t s) as [s1|] eqn:E; [|done]. intros H [Hl%bool_decide_eq_true Ht]%andb_true_iff.
  eapply rtc_l; [split; [by eapply take_turn_step|by apply orderly_single]|by apply IH].
Qed.
End Schedule.

(** ** A run *)

Definition web80 : Listen := mkListen V4 TCP "127.0.0.1" 80.
Definition web_dir : option (list dir_entry) := Some [("web", false)].

(** The container cannot be reached at first; then it shows a port. *)
Definition sample_turns : list turn :=
  [TUnreachable 0; TPost 0; TRun; TRun; TRun; TRun; TConnect 0; TLine 0 (Some (ev_add web80)); TLine 0 (Some ev_sync); TPost 0; TRun; TRun].

Lemma changes_mirror_witness :
  ∃ s, take_turns by_keys elements sample_turns (sys_init web_dir) = Some s ∧ quiet s ∧ apply_changes ∅ (concat (cl_changes (sy_client s))) = Some (open_ports s) ∧
    open_ports s = {["ipv4:web:80"]}.
Proof.
  destruct (turns_lead by_keys elements sample_turns (sys_init web_dir) (λ s, negb (cl_killed (sy_client s)) &&
    negb (cl_timedOut (sy_client s)) && quietb s && bool_decide (open_ports s = {["ipv4:web:80"]}))) as (s & Hs & H); [vm_compute; reflexivity|].
  apply andb_true_iff in H as [[[Hk%negb_true_iff Ht%negb_true_iff]%andb_true_iff Hq%quietb_quiet]%andb_true_iff Ho%bool_decide_eq_true].
  exists s. split_and!; [exact Hs|exact Hq| |exact Ho].
  destruct (changes_mirror by_keys web_dir s) as (v & Hv & Hquiet & _).
  - reflexivity.
  - apply (bool_decide_unpack _). vm_compute. exact I.
  - apply (take_turns_orderly by_keys elements ltac:(reflexivity) sample_turns); [exact Hs|vm_compute; reflexivity].
  - exact Hk.
  - exact Ht.
  - rewrite (Hquiet Hq) in Hv. exact Hv.
Defined.

(** Killed with a change posted that nobody has taken, and another one to post. *)
Definition kill_turns : list turn :=
  [TUnreachable 0; TPost 0; TRun; TRun; TRun; TRun; TConnect 0; TLine 0 (Some (ev_add web80)); TLine 0 (Some ev_sync); TPost 0;
   TLine 0 (Some (ev_remove web80)); TKill].

Lemma kill_completes_witness :
  ∃ s s', take_turns by_keys elements kill_turns (sys_init web_dir) = Some s ∧
    rtc (sys_step by_keys) s s' ∧ Wait s' = true ∧ cl_changes (sy_client s') = [[]].
Proof.
  destruct (turns_lead by_keys elements kill_turns (sys_init web_dir) (λ s, cl_killed (sy_client s) &&
    bool_decide (cl_changes (sy_client s) = [[]]))) as (s & Hs & [Hk Hc%bool_decide_eq_true]%andb_true_iff); [vm_compute; reflexivity|].
  destruct (kill_completes by_keys web_dir s) as (_ & Hend & _).
  - reflexivity.
  - apply (take_turns_steps by_keys elements ltac:(reflexivity) kill_turns). exact Hs.
  - destruct (Hend Hk) as (s' & H1 & H2 & H3). exists s, s'. split_and!; [exact Hs|exact H1|exact H2|]. rewrite H3. exact Hc.
Defined.

(** Nothing orders the end of a container's watcher and the start of the next one:
    when the file of the socket goes and comes back between scans, the second
    watcher can report a port before the first one has closed it.  The consumer
    is told that an open port opens; and, when the first watcher ends, that a
    port closes which is open. *)
Definition restart_turns : list turn :=
  sample_turns ++ [TScan (Some []); TScan web_dir; TConnect 1; TLine 1 (Some (ev_add web80)); TLine 1 (Some ev_sync); TPost 1; TRun; TRun;
    TEof 0; TReturn 0; TPost 0; TRun; TRun; TEnd 0].

Lemma restart_confuses :
  ∃ s, rtc (sys_step by_keys) (sys_init web_dir) s ∧ quiet s ∧ open_ports s = {["ipv4:web:80"]} ∧
    cl_changes (sy_client s) = [[]; ["open:ipv4:web:80"]; ["open:ipv4:web:80"]; ["close:ipv4:web:80"]].
Proof.
  destruct (turns_lead by_keys elements restart_turns (sys_init web_dir) (λ s, quietb s && bool_decide (open_ports s = {["ipv4:web:80"]}) &&
    bool_decide (cl_changes (sy_client s) = [[]; ["open:ipv4:web:80"]; ["open:ipv4:web:80"]; ["close:ipv4:web:80"]])))
    as (s & Hs & [[Hq%quietb_quiet Ho%bool_decide_eq_true]%andb_true_iff Hc%bool_decide_eq_true]%andb_true_iff); [vm_compute; reflexivity|].
  exists s. split_and!; [|done..]. by apply (take_turns_steps by_keys elements ltac:(reflexivity) restart_turns).
Qed.
