(* ===== verification/LoTcp.v ===== *)
(** * internal/lo: accepting local connections

    [acceptLoop] of [proxy.go], and what it and [udpLoop] let through: a proxy
    bound to every interface forwards local traffic only. *)

From S2P Require Import Prelude GoStrings GoNet LoTypes LoPeer LoUdp LoConnect LoPipe.

(** What [Accept] returns and what [dialConnect] meets for it: the remote address,
    whether the peer's socket can be dialled and written to, and what the peer
    answers. *)
Record accepted := mkAccepted { ac_remote : string; ac_dialled : bool; ac_sent : bool; ac_answer : string }.

(** A connection is closed at once, closed for want of a tunnel, or piped to the
    tunnel, from which [first] is read before what arrives later. *)
Inductive accept_outcome :=
  | Rejected
  | NoTunnel (e : connect_error)
  | Piped (first : string).

(** One turn of the loop with the goroutine it starts: the connection to the
    peer's socket is returned too, if one was made. *)
Definition accept_one (p : Proxy) (a : accepted) : accept_outcome * option peer_conn :=
  if rejectsRemote p (ac_remote a) then (Rejected, None)
  else
    let '(tunnel, conn) := dialConnect (ac_dialled a) (ac_sent a) (ac_answer a) (px_listen p) in
    match tunnel with
    | Err e => (NoTunnel e, conn)
    | Ok first => (Piped first, conn)
    end.

(** The connections accepted until [Accept] fails. *)
Definition acceptLoop (p : Proxy) (conns : list accepted) : list (accept_outcome * option peer_conn) := accept_one p <$> conns.

(** ** Facts *)

Lemma last_colon_app h p : lacks ":" p → last_colon (h +:+ ":" +:+ p) = Some (h, p).
Proof.
  intros Hp. assert (last_colon p = None) as Hn.
  { induction p as [|c p IH]; [done|]. apply lacks_cons in Hp as [Hc Hp]. cbn [last_colon]. by rewrite IH, decide_False. }
  induction h as [|c h IH].
  - rewrite sapp_nil. change (":" +:+ p) with (String ":" p). cbn [last_colon]. by rewrite Hn, decide_True.
  - rewrite sapp_cons. cbn [last_colon]. by rewrite IH.
Qed.

Lemma dotted_lacks ip4 c : is_decimal c = false → c ≠ "."%char → lacks c (dotted ip4).
Proof.
  intros Hc Hdot. unfold dotted. induction ip4 as [|b ip4 IH]; [done|].
  assert (lacks c (strconv_Itoa (byte_Z b))) as Hb by (apply Itoa_lacks; [done|pose proof (byte_Z_range b); lia]).
  destruct ip4 as [|b' ip4]; [done|]. change (map _ (b :: b' :: ip4)) with
    (strconv_Itoa (byte_Z b) :: map (λ b, strconv_Itoa (byte_Z b)) (b' :: ip4)).
  rewrite Join_cons by done. apply lacks_app. split; [done|]. apply lacks_app. split; [|done].
  apply lacks_cons. by split.
Qed.

(** The address of an IPv4 remote end. *)
Definition remote4 (ip4 : IP) (port : Z) : string := dotted ip4 +:+ ":" +:+ strconv_Itoa port.

Lemma SplitHostPort_remote4 ip4 port :
  length ip4 = 4%nat → 0 ≤ port → net_SplitHostPort (remote4 ip4 port) = Some (dotted ip4, strconv_Itoa port).
Proof.
  intros Hl Hp. assert (∀ c, is_decimal c = false → c ≠ "."%char → lacks c (dotted ip4)) as Hd by (intros; by apply dotted_lacks).
  assert (∀ c, is_decimal c = false → lacks c (strconv_Itoa port)) as Hi by (intros; by apply Itoa_lacks).
  assert (∀ c, is_decimal c = false → c ≠ "."%char → c ≠ ":"%char → lacks c (remote4 ip4 port)) as Hr.
  { intros c H1 H2 H3. apply lacks_app. split; [by apply Hd|]. apply lacks_app. split; [|by apply Hi].
    by apply lacks_cons. }
  unfold net_SplitHostPort. unfold remote4 at 1. rewrite last_colon_app by by apply Hi.
  pose proof (Hr "["%char eq_refl ltac:(done) ltac:(done)) as H1. pose proof (Hr "]"%char eq_refl ltac:(done) ltac:(done)) as H2.
  pose proof (Hd ":"%char eq_refl ltac:(done)) as H3.
  assert (match remote4 ip4 port with String "[" _ => false | _ => true end = true) as Hhead.
  { destruct (remote4 ip4 port) as [|c r]; [done|]. apply lacks_cons in H1 as [Hc _].
    destruct c as [[] [] [] [] [] [] [] []]; done. }
  unfold lacks in H1, H2, H3. rewrite H1, H2, H3. cbn [orb].
  destruct (remote4 ip4 port) as [|c r]; [done|].
  destruct c as [[] [] [] [] [] [] [] []]; done.
Qed.

(** An IPv4 remote end is local if it is in [127.0.0.0/8] or unspecified. *)
Definition local4 (ip4 : IP) : Prop := head ip4 = Some x7f ∨ ip4 = replicate 4 x00.
#[export] Instance local4_dec ip4 : Decision (local4 ip4).
Proof. unfold local4. apply _. Defined.

Lemma isLocalPeer_remote4 ip4 port :
  length ip4 = 4%nat → 0 ≤ port → isLocalPeer (remote4 ip4 port) = bool_decide (local4 ip4).
Proof.
  intros Hl Hp. unfold isLocalPeer. rewrite SplitHostPort_remote4 by done. rewrite ParseIP_dotted by done.
  fold (lo_or_unspec (v4InV6Prefix ++ ip4)). apply eq_true_iff_eq. rewrite lo_or_unspec_inv, bool_decide_eq_true, IP_To4_mapped by done.
  unfold local4. split; [intros [(? & [= <-] & H)|[H|H]]; [done|exfalso..]|by left; eexists].
  - apply (f_equal (take 12)) in H. rewrite take_app_length' in H by done. done.
  - apply (f_equal (take 12)) in H. rewrite take_app_length' in H by done. done.
Qed.

(** ** Properties *)

(** C26. A proxy bound to an unspecified address never relays for the network: a
    TCP connection from an IPv4 address outside [127.0.0.0/8] is closed without
    the peer being contacted, and a datagram from one changes nothing; while a
    connection from a loopback address is handed to the peer's /connect as if
    the proxy were bound to that address. *)
Theorem no_open_relay p ip4 port a data now dialled u :
  isUnspecified (l_addr (px_listen p)) = true → length ip4 = 4%nat → 0 ≤ port → ac_remote a = remote4 ip4 port →
  (¬ local4 ip4 → accept_one p a = (Rejected, None) ∧ receive_datagram p (remote4 ip4 port) data now dialled u = u) ∧
  (local4 ip4 →
    accept_one p a =
      match dialConnect (ac_dialled a) (ac_sent a) (ac_answer a) (px_listen p) with
      | (Ok first, conn) => (Piped first, conn)
      | (Err e, conn) => (NoTunnel e, conn)
      end ∧
    (dialled = true → u_log (receive_datagram p (remote4 ip4 port) data now dialled u) = u_log u ++ [(remote4 ip4 port, data)])).
Proof.
  intros Hu Hl Hp Ha. assert (rejectsRemote p (remote4 ip4 port) = bool_decide (¬ local4 ip4)) as Hr.
  { unfold rejectsRemote. rewrite Hu, isLocalPeer_remote4 by done. cbn [andb]. by rewrite bool_decide_not. }
  unfold accept_one, receive_datagram. rewrite Ha, Hr. split; intros Hn.
  - by rewrite bool_decide_true.
  - rewrite bool_decide_false by tauto. split; [by destruct (dialConnect _ _ _ _) as [[first|e] conn]|].
    intros ->. by destruct (u_sessions u !! remote4 ip4 port).
Qed.

Definition wildcard_proxy : Proxy := mkProxy (mkListen V4 TCP "0.0.0.0" 8080) (Some 0%nat) None 0.

Lemma no_open_relay_witness :
  accept_one wildcard_proxy (mkAccepted "203.0.113.9:4444" true true (response_200 +:+ "secret")) = (Rejected, None).
Proof.
  apply (no_open_relay wildcard_proxy [xcb; x00; x71; x09] 4444
    (mkAccepted "203.0.113.9:4444" true true (response_200 +:+ "secret")) [] 0 true udp_init).
  - by vm_compute.
  - done.
  - lia.
  - by vm_compute.
  - by apply (bool_decide_unpack _); vm_compute.
Defined.

Example local_accepted :
  (accept_one wildcard_proxy (mkAccepted "127.0.0.1:4444" true true (response_200 +:+ "hello"))).1 = Piped "hello".
Proof. vm_compute. reflexivity. Qed.
