(* ===== verification/LoTunnel.v ===== *)
(** * internal/lo: a connection from one container to another

    [acceptLoop] and [dialConnect] on the proxy's side, [handleConnect] on the
    owner's, and a [pipeTCP] on each: two pipes in series, whose inner ends are
    the two ends of one stream over the peer's socket.  [bufferedConn] of
    [pipe.go] hands the bytes that came with the response to the pipe. *)

From S2P Require Import Prelude GoStrings LoTypes LoPeer LoConnect LoPipe LoTcp.

(** ** The tunnel's first bytes *)

(** [bufferedConn.Read]: what the reader [r] of the handshake holds back comes
    first, then the connection; [avail] is what is there to be read, [n] how much
    the call takes. *)
Record bufferedConn := mkBuffered { bc_r : payload; bc_conn : payload }.
Definition bufferedConn_Read (n : nat) (c : bufferedConn) : payload * bufferedConn :=
  match bc_r c with
  | [] => (take n (bc_conn c), mkBuffered [] (drop n (bc_conn c)))
  | r => (take n r, mkBuffered (drop n r) (bc_conn c))
  end.

Fixpoint bufferedConn_Reads (ns : list nat) (c : bufferedConn) : payload :=
  match ns with
  | [] => []
  | n :: ns => let '(p, c') := bufferedConn_Read n c in p ++ bufferedConn_Reads ns c'
  end.

(** However the calls are sized, they yield the buffered bytes and then the
    connection's, in order. *)
Lemma bufferedConn_order ns c : bufferedConn_Reads ns c `prefix_of` bc_r c ++ bc_conn c.
Proof.
  revert c. induction ns as [|n ns IH]; intros c; [apply prefix_nil|]. cbn [bufferedConn_Reads].
  destruct c as [r s]. unfold bufferedConn_Read. cbn [bc_r bc_conn]. destruct r as [|b r].
  - specialize (IH (mkBuffered [] (drop n s))). cbn [bc_r bc_conn app] in *.
    revert IH. generalize (bufferedConn_Reads ns (mkBuffered [] (drop n s))). intros x IH.
    rewrite <-(take_drop n s) at 2. by apply prefix_app.
  - specialize (IH (mkBuffered (drop n (b :: r)) s)). cbn [bc_r bc_conn] in IH.
    revert IH. generalize (bufferedConn_Reads ns (mkBuffered (drop n (b :: r)) s)). intros x IH.
    rewrite <-(take_drop n (b :: r)) at 2. rewrite <-app_assoc. by apply prefix_app.
Qed.

(** ** Two pipes in series *)

(** The proxy's pipe has the local connection at [false] and the tunnel at
    [true]; the owner's has the tunnel at [false] and the target at [true]. *)
Record chain := mkChain { ch_proxy : pipe; ch_owner : pipe }.

Definition chain_init : chain := mkChain pipe_init pipe_init.

(** Bytes and ends reach end [d] of a pipe. *)
Definition arrive (d : bool) (data : payload) (eof : bool) (p : pipe) : pipe :=
  mkPipe (<[d := on_arrive data eof (pp_conn p d)]> (pp_conn p)) (pp_pc p).

(** What a pipe does by itself: any step but an arrival. *)
Inductive copy_step (p p' : pipe) : Prop :=
  | copy_goes : pipe_step p p' → (∀ d, received p' d = received p d ∧ cn_eof (pp_conn p' d) = cn_eof (pp_conn p d)) → copy_step p p'.

(** The outer ends hear from the local client and from the target, anything at any
    time.  The inner ends hear what the other pipe wrote to its own inner end, as
    it was written, and that it ended only once that end is closed and everything
    has arrived. *)
Inductive chain_step : chain → chain → Prop :=
  | chain_proxy p p' o : copy_step p p' → chain_step (mkChain p o) (mkChain p' o)
  | chain_owner p o o' : copy_step o o' → chain_step (mkChain p o) (mkChain p o')
  | chain_client p o data eof :
      cn_eof (pp_conn p false) = false → chain_step (mkChain p o) (mkChain (arrive false data eof p) o)
  | chain_target p o data eof :
      cn_eof (pp_conn o true) = false → chain_step (mkChain p o) (mkChain p (arrive true data eof o))
  | chain_forth p o data rest eof :
      cn_eof (pp_conn o false) = false →
      cn_written (pp_conn p true) = received o false ++ data ++ rest →
      (eof = true → cn_closed (pp_conn p true) = true ∧ rest = []) →
      chain_step (mkChain p o) (mkChain p (arrive false data eof o))
  | chain_back p o data rest eof :
      cn_eof (pp_conn p true) = false →
      cn_written (pp_conn o false) = received p true ++ data ++ rest →
      (eof = true → cn_closed (pp_conn o false) = true ∧ rest = []) →
      chain_step (mkChain p o) (mkChain (arrive true data eof p) o).

Definition chain_reachable : chain → Prop := rtc chain_step chain_init.

(** ** Facts *)

Create Rewrite HintDb pipe_ends.
#[local] Hint Rewrite @insert_d @insert_other @insert_negb negb_involutive : pipe_ends.

Lemma pipe_written_grows p p' : pipe_step p p' → ∀ d, cn_written (pp_conn p d) `prefix_of` cn_written (pp_conn p' d).
Proof.
  intros Hs e. destruct Hs as [d p chunk rest Hpc Hop Hne Harr|d p Hpc Heof Harr|d p Hpc|d p chunk Hpc Hop|d p part rest Hpc|d p data eof Heof];
    cbn [pp_conn]; unfold closeBoth; cbn [cn_written on_close]; try done;
    (destruct (end_cases d e) as [-> | ->]; autorewrite with pipe_ends; try done; cbn; by apply prefix_app_r).
Qed.

Lemma pipe_closed_stays p p' : pipe_step p p' → ∀ d, cn_closed (pp_conn p d) = true → cn_closed (pp_conn p' d) = true.
Proof.
  intros Hs e. destruct Hs as [d p chunk rest Hpc Hop Hne Harr|d p Hpc Heof Harr|d p Hpc|d p chunk Hpc Hop|d p part rest Hpc|d p data eof Heof];
    cbn [pp_conn]; unfold closeBoth; cbn [cn_closed on_close]; try done;
    (destruct (end_cases d e) as [-> | ->]; by autorewrite with pipe_ends).
Qed.

Lemma arrive_step d data eof p : cn_eof (pp_conn p d) = false → pipe_step p (arrive d data eof p).
Proof. apply pipe_arrive. Qed.

Lemma received_arrive d data eof p : received (arrive d data eof p) d = received p d ++ data.
Proof. unfold received, arrive. cbn [pp_conn]. rewrite insert_d. cbn. by rewrite app_assoc. Qed.
Lemma received_arrive_other d e data eof p : e = negb d → received (arrive d data eof p) e = received p e.
Proof. intros ->. unfold received, arrive. cbn [pp_conn]. by rewrite insert_other. Qed.
Lemma written_arrive d e data eof p : cn_written (pp_conn (arrive d data eof p) e) = cn_written (pp_conn p e).
Proof. unfold arrive. cbn [pp_conn]. destruct (end_cases d e) as [-> | ->]; by autorewrite with pipe_ends. Qed.

(** The inner ends are two ends of one stream. *)
Record chain_inv (c : chain) : Prop := {
  ci_proxy : pipe_reachable (ch_proxy c);
  ci_owner : pipe_reachable (ch_owner c);
  ci_forth : received (ch_owner c) false `prefix_of` cn_written (pp_conn (ch_proxy c) true);
  ci_back : received (ch_proxy c) true `prefix_of` cn_written (pp_conn (ch_owner c) false);
  ci_end_forth : cn_eof (pp_conn (ch_owner c) false) = true → cn_closed (pp_conn (ch_proxy c) true) = true;
  ci_end_back : cn_eof (pp_conn (ch_proxy c) true) = true → cn_closed (pp_conn (ch_owner c) false) = true;
}.

Lemma eof_arrive d data eof p : cn_eof (pp_conn (arrive d data eof p) d) = eof.
Proof. unfold arrive. cbn [pp_conn]. by rewrite insert_d. Qed.

Lemma chain_step_inv c c' : chain_step c c' → chain_inv c → chain_inv c'.
Proof.
  intros Hs [Hp Ho Hf Hb Ef Eb].
  destruct Hs as [p p' o [Hst Hr]|p o o' [Hst Hr]|p o data eof He|p o data eof He|p o data rest eof He Hw Hend|p o data rest eof He Hw Hend];
    cbn [ch_proxy ch_owner] in *; split; cbn [ch_proxy ch_owner]; try done.
  all: try exact (rtc_r _ _ _ Hp Hst); try exact (rtc_r _ _ _ Ho Hst).
  all: try exact (rtc_r _ _ _ Hp (arrive_step _ _ _ _ He)); try exact (rtc_r _ _ _ Ho (arrive_step _ _ _ _ He)).
  all: try (rewrite eof_arrive; intros ->; by apply Hend).
  - etrans; [exact Hf|]. by apply pipe_written_grows.
  - by rewrite (proj1 (Hr true)).
  - intros He. apply (pipe_closed_stays _ _ Hst). by apply Ef.
  - rewrite (proj2 (Hr true)). done.
  - by rewrite (proj1 (Hr false)).
  - etrans; [exact Hb|]. by apply pipe_written_grows.
  - rewrite (proj2 (Hr false)). done.
  - intros He. apply (pipe_closed_stays _ _ Hst). by apply Eb.
  - rewrite received_arrive, Hw, app_assoc. by apply prefix_app_r.
  - rewrite received_arrive, Hw, app_assoc. by apply prefix_app_r.
Qed.

Lemma chain_reachable_inv c : chain_reachable c → chain_inv c.
Proof.
  intros Hr. apply (rtc_invariant chain_step chain_inv chain_init c); [exact chain_step_inv|exact Hr|].
  split; try apply rtc_refl; try apply prefix_nil; done.
Qed.

(** ** Delivery *)

(** Nothing has ended in this pipe. *)
Definition running (p : pipe) : Prop := ∀ d, pp_pc p d ≠ CDone.

Lemma running_open p : pipe_reachable p → running p → ∀ e, cn_closed (pp_conn p e) = false.
Proof. intros Hr%pipe_reachable_inv Hrun. destruct (pi_open p Hr) as [[d Hd]|H]; [by destruct (Hrun d)|done]. Qed.

Lemma copy_write p d chunk :
  pipe_reachable p → running p → pp_pc p d = CWrite chunk →
  ∃ p', copy_step p p' ∧ running p' ∧ pp_pc p' d = CRead ∧ cn_arrived (pp_conn p' d) = cn_arrived (pp_conn p d).
Proof.
  intros Hr Hrun Hpc. pose proof (pipe_write d p chunk Hpc (running_open p Hr Hrun (negb d))) as Hst.
  eexists. split_and!; [split; [exact Hst|]|..].
  - intros e. unfold received. cbn [pp_conn]. destruct (end_cases d e) as [-> | ->]; by autorewrite with pipe_ends.
  - intros e. cbn [pp_pc]. destruct (end_cases d e) as [-> | ->]; autorewrite with pipe_ends; [done|apply Hrun].
  - cbn [pp_pc]. by autorewrite with pipe_ends.
  - cbn [pp_conn]. by autorewrite with pipe_ends.
Qed.

Lemma copy_read p d :
  pipe_reachable p → running p → pp_pc p d = CRead → cn_arrived (pp_conn p d) ≠ [] →
  ∃ p', copy_step p p' ∧ running p' ∧ (∃ chunk, pp_pc p' d = CWrite chunk) ∧ cn_arrived (pp_conn p' d) = [].
Proof.
  intros Hr Hrun Hpc Hne.
  pose proof (pipe_read d p (cn_arrived (pp_conn p d)) [] Hpc (running_open p Hr Hrun d) Hne (eq_sym (app_nil_r _))) as Hst.
  eexists. split_and!; [split; [exact Hst|]|..].
  - intros e. unfold received. cbn [pp_conn]. destruct (end_cases d e) as [-> | ->]; autorewrite with pipe_ends; [|done].
    cbn. by rewrite app_nil_r.
  - intros e. cbn [pp_pc]. destruct (end_cases d e) as [-> | ->]; autorewrite with pipe_ends; [done|apply Hrun].
  - cbn [pp_pc]. autorewrite with pipe_ends. by eexists.
  - cbn [pp_conn]. by autorewrite with pipe_ends.
Qed.

Lemma copy_reachable p p' : pipe_reachable p → copy_step p p' → pipe_reachable p'.
Proof. intros Hr [Hs _]. exact (rtc_r _ _ _ Hr Hs). Qed.

Lemma copy_steps p p' :
  pipe_reachable p → rtc copy_step p p' →
  pipe_reachable p' ∧ ∀ d, received p' d = received p d ∧ cn_eof (pp_conn p' d) = cn_eof (pp_conn p d).
Proof.
  intros Hr Hs. revert Hr. induction Hs as [p|p p1 p' Hst _ IH]; intros Hr; [done|].
  destruct (IH (copy_reachable p p1 Hr Hst)) as [H1 H2]. split; [done|]. intros d.
  destruct Hst as [_ Hst]. destruct (H2 d) as [-> ->]. apply Hst.
Qed.

(** A pipe in which nothing has ended can pass on all that has arrived. *)
Lemma pipe_delivers p d :
  pipe_reachable p → running p →
  ∃ p', rtc copy_step p p' ∧ running p' ∧ cn_written (pp_conn p' (negb d)) = received p d.
Proof.
  intros Hr Hrun.
  assert (∃ p1, rtc copy_step p p1 ∧ running p1 ∧ pp_pc p1 d = CRead) as (p1 & Hs1 & Hrun1 & Hpc1).
  { destruct (pp_pc p d) as [|chunk|] eqn:Hpc; [by exists p| |by destruct (Hrun d)].
    destruct (copy_write p d chunk Hr Hrun Hpc) as (p1 & Hs & ? & ? & _). exists p1. split; [by apply rtc_once|done]. }
  destruct (copy_steps p p1 Hr Hs1) as [Hr1 _].
  assert (∃ p2, rtc copy_step p1 p2 ∧ running p2 ∧ pp_pc p2 d = CRead ∧ cn_arrived (pp_conn p2 d) = []) as (p2 & Hs2 & Hrun2 & Hpc2 & Ha2).
  { destruct (decide (cn_arrived (pp_conn p1 d) = [])) as [He|He]; [by exists p1|].
    destruct (copy_read p1 d Hr1 Hrun1 Hpc1 He) as (p2 & Hst2 & Hrun2 & (chunk & Hpc2) & Ha2).
    destruct (copy_write p2 d chunk (copy_reachable _ _ Hr1 Hst2) Hrun2 Hpc2) as (p3 & Hst3 & ? & ? & Ha3).
    exists p3. split; [eapply rtc_l; [exact Hst2|by apply rtc_once]|]. by rewrite Ha3. }
  exists p2. assert (rtc copy_step p p2) as Hs by by etrans. split_and!; [done..|].
  destruct (copy_steps p p2 Hr Hs) as [Hr2 Hrec]. destruct (Hrec d) as [<- _]. unfold received.
  pose proof (pi_copied p2 (pipe_reachable_inv _ Hr2) d (Hrun2 d)) as Hc. unfold held in Hc. rewrite Hpc2 in Hc.
  rewrite Ha2, Hc. by rewrite !app_nil_r.
Qed.

Lemma chain_proxy_steps p p' o : rtc copy_step p p' → rtc chain_step (mkChain p o) (mkChain p' o).
Proof. apply (rtc_congruence (λ p, mkChain p o)). intros x y. apply chain_proxy. Qed.
Lemma chain_owner_steps p o o' : rtc copy_step o o' → rtc chain_step (mkChain p o) (mkChain p o').
Proof. apply (rtc_congruence (mkChain p)). intros x y. apply chain_owner. Qed.

Lemma running_arrive d data eof p : running p → running (arrive d data eof p).
Proof. done. Qed.

(** The inner ends have not heard of an end that has not come. *)
Lemma chain_no_eof p o :
  chain_reachable (mkChain p o) → running p → running o →
  cn_eof (pp_conn o false) = false ∧ cn_eof (pp_conn p true) = false.
Proof.
  intros [Hp Ho _ _ Ef Eb]%chain_reachable_inv Hrp Hro. cbn in *.
  split; apply not_true_is_false; [intros H%Ef|intros H%Eb]; by rewrite running_open in H.
Qed.

(** What the local client, or the target, has sent so far can reach the other. *)
Lemma chain_delivers_forth p o :
  chain_reachable (mkChain p o) → running p → running o →
  ∃ c', rtc chain_step (mkChain p o) c' ∧ running (ch_proxy c') ∧ running (ch_owner c') ∧
    cn_written (pp_conn (ch_owner c') true) = received p false.
Proof.
  intros Hr Hp Ho. destruct (chain_no_eof p o Hr Hp Ho) as [Heof _]. pose proof (chain_reachable_inv _ Hr) as [Hrp Hro _ _ _ _]. cbn in *.
  destruct (pipe_delivers p false Hrp Hp) as (p1 & Hs1 & Hp1 & Hw1).
  assert (chain_reachable (mkChain p1 o)) as Hr1 by exact (transitivity Hr (chain_proxy_steps p p1 o Hs1)).
  destruct (ci_forth _ (chain_reachable_inv _ Hr1)) as [data Hf]. cbn in Hf, Hw1.
  assert (chain_step (mkChain p1 o) (mkChain p1 (arrive false data false o))) as Hst.
  { apply (chain_forth p1 o data []); [done|by rewrite app_nil_r|done]. }
  destruct (pipe_delivers (arrive false data false o) false) as (o2 & Hs2 & Ho2 & Hw2);
    [exact (rtc_r _ _ _ Hro (arrive_step _ _ _ _ Heof))|done|].
  exists (mkChain p1 o2). split_and!; [|done|done|].
  - etrans; [exact (chain_proxy_steps p p1 o Hs1)|]. eapply rtc_l; [exact Hst|]. by apply chain_owner_steps.
  - cbn. cbn in Hw2. by rewrite Hw2, received_arrive, <-Hf, Hw1.
Qed.

Lemma chain_delivers_back p o :
  chain_reachable (mkChain p o) → running p → running o →
  ∃ c', rtc chain_step (mkChain p o) c' ∧ running (ch_proxy c') ∧ running (ch_owner c') ∧
    cn_written (pp_conn (ch_proxy c') false) = received o true.
Proof.
  intros Hr Hp Ho. destruct (chain_no_eof p o Hr Hp Ho) as [_ Heof]. pose proof (chain_reachable_inv _ Hr) as [Hrp Hro _ _ _ _]. cbn in *.
  destruct (pipe_delivers o true Hro Ho) as (o1 & Hs1 & Ho1 & Hw1).
  assert (chain_reachable (mkChain p o1)) as Hr1 by exact (transitivity Hr (chain_owner_steps p o o1 Hs1)).
  destruct (ci_back _ (chain_reachable_inv _ Hr1)) as [data Hf]. cbn in Hf, Hw1.
  assert (chain_step (mkChain p o1) (mkChain (arrive true data false p) o1)) as Hst.
  { apply (chain_back p o1 data []); [done|by rewrite app_nil_r|done]. }
  destruct (pipe_delivers (arrive true data false p) true) as (p2 & Hs2 & Hp2 & Hw2);
    [exact (rtc_r _ _ _ Hrp (arrive_step _ _ _ _ Heof))|done|].
  exists (mkChain p2 o1). split_and!; [|done|done|].
  - etrans; [exact (chain_owner_steps p o o1 Hs1)|]. eapply rtc_l; [exact Hst|]. by apply chain_proxy_steps.
  - cbn. cbn in Hw2. by rewrite Hw2, received_arrive, <-Hf, Hw1.
Qed.

(** Nothing is lost on the way. *)
Lemma chain_conserves d p q :
  pipe_reachable p → pipe_reachable q → running p → running q →
  received q d `prefix_of` cn_written (pp_conn p (negb d)) →
  ∃ flight, cn_written (pp_conn p (negb d)) = received q d ++ flight ∧
    received p d = cn_written (pp_conn q (negb d)) ++ held q d ++ cn_arrived (pp_conn q d) ++ flight ++
      held p d ++ cn_arrived (pp_conn p d).
Proof.
  intros Hp%pipe_reachable_inv Hq%pipe_reachable_inv Hrp Hrq [flight Hf]. exists flight. split; [done|].
  unfold received in *. rewrite (pi_copied p Hp d), Hf, (pi_copied q Hq d) by done. by rewrite <-!app_assoc.
Qed.

(** ** Theorem *)

(** C13. A TCP connection through two containers, from the client of the proxy to
    the process that listens, is one reliable stream in each direction.  At every
    moment the target has been written an exact prefix of what the client sent,
    and the client of what the target sent.  While nothing has ended, every byte
    that is missing is accounted for, in order, in the two pipes or between
    them, and all that either side has sent so far can still be delivered without
    anything more being sent.  When both pipes have returned, all four
    connections are closed. *)
Theorem chain_faithful p o :
  chain_reachable (mkChain p o) →
  cn_written (pp_conn o true) `prefix_of` received p false ∧
  cn_written (pp_conn p false) `prefix_of` received o true ∧
  (running p → running o →
    (∃ flight, received p false = cn_written (pp_conn o true) ++ held o false ++ cn_arrived (pp_conn o false) ++ flight ++
      held p false ++ cn_arrived (pp_conn p false)) ∧
    (∃ flight, received o true = cn_written (pp_conn p false) ++ held p true ++ cn_arrived (pp_conn p true) ++ flight ++
      held o true ++ cn_arrived (pp_conn o true)) ∧
    (∃ c', rtc chain_step (mkChain p o) c' ∧ cn_written (pp_conn (ch_owner c') true) = received p false) ∧
    (∃ c', rtc chain_step (mkChain p o) c' ∧ cn_written (pp_conn (ch_proxy c') false) = received o true)) ∧
  (pipe_returned p → pipe_returned o → ∀ e, cn_closed (pp_conn p e) = true ∧ cn_closed (pp_conn o e) = true).
Proof.
  intros Hr. pose proof (chain_reachable_inv _ Hr) as [Hp Ho Hf Hb _ _]. cbn in *.
  pose proof (pipe_reachable_inv _ Hp) as Ip. pose proof (pipe_reachable_inv _ Ho) as Io. split_and!.
  - etrans; [apply (pi_prefix o Io false)|]. etrans; [|apply prefix_app_r, (pi_prefix p Ip false)].
    etrans; [|exact Hf]. by apply prefix_app_r.
  - etrans; [apply (pi_prefix p Ip true)|]. etrans; [|apply prefix_app_r, (pi_prefix o Io true)].
    etrans; [|exact Hb]. by apply prefix_app_r.
  - intros Hrp Hro. split_and!.
    + destruct (chain_conserves false p o Hp Ho Hrp Hro Hf) as (flight & _ & H). by exists flight.
    + destruct (chain_conserves true o p Ho Hp Hro Hrp Hb) as (flight & _ & H). by exists flight.
    + destruct (chain_delivers_forth p o Hr Hrp Hro) as (c' & H1 & _ & _ & H2). by exists c'.
    + destruct (chain_delivers_back p o Hr Hrp Hro) as (c' & H1 & _ & _ & H2). by exists c'.
  - intros H1 H2 e. split; [by apply (pi_closed p Ip true)|by apply (pi_closed o Io true)].
Qed.

(** The client has sent "A", which the proxy has read. *)
Definition sample_chain : chain := mkChain sample_pipe_read pipe_init.

Lemma sample_chain_reachable : chain_reachable sample_chain.
Proof.
  eapply rtc_l; [by apply (chain_client pipe_init pipe_init [x41] true)|].
  apply rtc_once, chain_proxy. split; [by apply (pipe_read false sample_pipe_data [x41] [])|]. by intros [].
Qed.

Lemma chain_faithful_witness :
  cn_written (pp_conn (ch_owner sample_chain) true) `prefix_of` [x41] ∧
  ∃ c', rtc chain_step sample_chain c' ∧ cn_written (pp_conn (ch_owner c') true) = [x41].
Proof.
  destruct (chain_faithful sample_pipe_read pipe_init sample_chain_reachable) as (H1 & _ & H3 & _).
  split; [exact H1|]. destruct (H3 ltac:(by intros []) ltac:(done)) as (_ & _ & H & _). exact H.
Defined.
