(* ===== verification/GoJSON.v ===== *)
(** * Go's [encoding/json]

    The documents the source reads and writes: [Unmarshal]'s grammar (a lexer
    and a parser with an explicit stack, as the package's scanner has, each
    structural on its input), and the output of [Marshal], [Encoder.Encode] and
    [MarshalIndent], with the escaping of strings.  Strings are byte sequences;
    what is not UTF-8 becomes U+FFFD both ways, as in Go. *)

From S2P Require Import Prelude GoStrings.

(** ** UTF-8 *)

Definition in_range (c : ascii) (lo hi : N) : bool := bool_decide (lo ≤ N_of_ascii c ≤ hi)%N.
Definition continuation (c : ascii) : bool := in_range c 128 191.

(** The size of the rune of more than one byte that [s] starts with, [O] when
    [utf8.DecodeRune] answers [RuneError]. *)
Definition utf8_len (s : string) : nat :=
  match s with
  | String a (String b s2) =>
      if in_range a 194 223 then (if continuation b then 2 else 0)
      else match s2 with
      | String c s3 =>
          let second := in_range a 224 224 && in_range b 160 191 || in_range a 225 236 && continuation b ||
                        in_range a 237 237 && in_range b 128 159 || in_range a 238 239 && continuation b in
          if second then (if continuation c then 3 else 0)
          else match s3 with
          | String d _ =>
              let second := in_range a 240 240 && in_range b 144 191 || in_range a 241 243 && continuation b ||
                            in_range a 244 244 && in_range b 128 143 in
              if second && continuation c && continuation d then 4 else 0
          | "" => 0
          end
      | "" => 0
      end
  | _ => 0
  end%nat.

Definition byte_char (z : Z) : ascii := ascii_of_N (Z.to_N z).

(** [utf8.AppendRune] for a code point that is no surrogate. *)
Definition utf8_rune (r : Z) : string :=
  if r <? 0x80 then String (byte_char r) ""
  else if r <? 0x800 then String (byte_char (0xC0 + r / 64)) (String (byte_char (0x80 + r mod 64)) "")
  else if r <? 0x10000 then
    String (byte_char (0xE0 + r / 4096)) (String (byte_char (0x80 + r / 64 mod 64)) (String (byte_char (0x80 + r mod 64)) ""))
  else
    String (byte_char (0xF0 + r / 262144)) (String (byte_char (0x80 + r / 4096 mod 64))
      (String (byte_char (0x80 + r / 64 mod 64)) (String (byte_char (0x80 + r mod 64)) ""))).

(** U+FFFD. *)
Definition replacement : string := utf8_rune 0xFFFD.

(** ** Values and tokens *)

Inductive json :=
  | JNull
  | JBool (b : bool)
  | JNum (lit : string)
  | JStr (s : string)
  | JArr (vs : list json)
  | JObj (ms : list (string * json)).

Inductive token :=
  | TLBrace | TRBrace | TLBracket | TRBracket | TColon | TComma
  | TStr (s : string)
  | TNum (lit : string)
  | TNull
  | TBool (b : bool).

Definition dquote : ascii := "034".
Definition backslash : ascii := "092".

(** ** Numbers *)

Definition is_digit (c : ascii) : bool := in_range c 48 57.

(** The scanner's states within a number: nothing yet, after the sign, after a
    leading zero, in the integer, after the point, in the fraction, after the
    [e], after its sign, in the exponent. *)
Inductive num_state := NStart | NNeg | NZero | NInt | NDot | NFrac | NE | NESign | NExp.

Definition num_step (st : num_state) (c : ascii) : option num_state :=
  let e := bool_decide (c = "e"%char ∨ c = "E"%char) in
  match st with
  | NStart => if decide (c = "-"%char) then Some NNeg else if decide (c = "0"%char) then Some NZero
              else if is_digit c then Some NInt else None
  | NNeg => if decide (c = "0"%char) then Some NZero else if is_digit c then Some NInt else None
  | NZero => if decide (c = "."%char) then Some NDot else if e then Some NE else None
  | NInt => if is_digit c then Some NInt else if decide (c = "."%char) then Some NDot else if e then Some NE else None
  | NDot => if is_digit c then Some NFrac else None
  | NFrac => if is_digit c then Some NFrac else if e then Some NE else None
  | NE => if decide (c = "+"%char ∨ c = "-"%char) then Some NESign else if is_digit c then Some NExp else None
  | NESign => if is_digit c then Some NExp else None
  | NExp => if is_digit c then Some NExp else None
  end.

Fixpoint num_run (st : num_state) (s : string) : bool :=
  match s with
  | "" => match st with NZero | NInt | NFrac | NExp => true | _ => false end
  | String c s' => match num_step st c with Some st' => num_run st' s' | None => false end
  end.
Definition valid_number (s : string) : bool := num_run NStart s.

(** The bytes a number is made of: the lexer takes the longest run of them. *)
Definition num_char (c : ascii) : bool :=
  is_digit c || bool_decide (c ∈ ["+"; "-"; "."; "e"; "E"]%char).

(** ** Lexer *)

Definition json_space (c : ascii) : bool := bool_decide (c ∈ [" "; "009"; "010"; "013"]%char).

(** A simple escape: what follows the backslash. *)
Definition unescape (e : ascii) : option ascii :=
  if decide (e ∈ [dquote; backslash; "/"%char]) then Some e
  else if decide (e = "b"%char) then Some "008"%char
  else if decide (e = "f"%char) then Some "012"%char
  else if decide (e = "n"%char) then Some "010"%char
  else if decide (e = "r"%char) then Some "013"%char
  else if decide (e = "t"%char) then Some "009"%char
  else None.

Definition hex4 (a b c d : ascii) : option Z :=
  x ← hex_digit a; y ← hex_digit b; z ← hex_digit c; w ← hex_digit d;
  Some (((x * 16 + y) * 16 + z) * 16 + w).

Definition is_surrogate (r : Z) : bool := (0xD800 <=? r) && (r <? 0xE000).

(** [acc] with the surrogate [hi] that waits for its other half, if any, given up. *)
Definition flush (acc : string) (hi : option Z) : string :=
  match hi with Some _ => acc +:+ replacement | None => acc end.

(** A [\u] escape of [r] after [acc] and [hi]. *)
Definition add_rune (acc : string) (hi : option Z) (r : Z) : string * option Z :=
  match hi with
  | Some h =>
      if (h <? 0xDC00) && (0xDC00 <=? r) && (r <? 0xE000) then
        (acc +:+ utf8_rune ((h - 0xD800) * 1024 + (r - 0xDC00) + 0x10000), None)
      else if is_surrogate r then (acc +:+ replacement, Some r)
      else (acc +:+ replacement +:+ utf8_rune r, None)
  | None => if is_surrogate r then (acc, Some r) else (acc +:+ utf8_rune r, None)
  end.

(** Between tokens, in a string ([copy] bytes of a rune are still to be copied)
    or in a number. *)
Inductive lstate :=
  | LNormal
  | LStr (acc : string) (hi : option Z) (copy : nat)
  | LNum (lit : string).

Definition punctuation (c : ascii) : option token :=
  if decide (c = "{"%char) then Some TLBrace else if decide (c = "}"%char) then Some TRBrace
  else if decide (c = "["%char) then Some TLBracket else if decide (c = "]"%char) then Some TRBracket
  else if decide (c = ":"%char) then Some TColon else if decide (c = ","%char) then Some TComma
  else None.

Fixpoint lex (st : lstate) (s : string) : option (list token) :=
  match s with
  | "" =>
      match st with
      | LNormal => Some []
      | LNum lit => if valid_number lit then Some [TNum lit] else None
      | LStr _ _ _ => None
      end
  | String c s' =>
      let normal (_ : unit) :=
        if json_space c then lex LNormal s'
        else match punctuation c with
        | Some t => cons t <$> lex LNormal s'
        | None =>
            if decide (c = dquote) then lex (LStr "" None 0) s'
            else if is_digit c || bool_decide (c = "-"%char) then lex (LNum (String c "")) s'
            else match s' with
            | String x (String y (String z r)) =>
                let w := String c (String x (String y (String z ""))) in
                if decide (w = "true") then cons (TBool true) <$> lex LNormal r
                else if decide (w = "null") then cons TNull <$> lex LNormal r
                else match r with
                | String u r' =>
                    if decide (w = "fals" ∧ u = "e"%char) then cons (TBool false) <$> lex LNormal r' else None
                | "" => None
                end
            | _ => None
            end
        end in
      match st with
      | LNormal => normal tt
      | LNum lit =>
          if num_char c then lex (LNum (lit +:+ String c "")) s'
          else if valid_number lit then cons (TNum lit) <$> normal tt else None
      | LStr acc hi (S copy) => lex (LStr (acc +:+ String c "") hi copy) s'
      | LStr acc hi O =>
          if decide (c = dquote) then cons (TStr (flush acc hi)) <$> lex LNormal s'
          else if decide (c = backslash) then
            match s' with
            | String e s'' =>
                if decide (e = "u"%char) then
                  match s'' with
                  | String x (String y (String z (String w r))) =>
                      match hex4 x y z w with
                      | Some u => let '(acc', hi') := add_rune acc hi u in lex (LStr acc' hi' 0) r
                      | None => None
                      end
                  | _ => None
                  end
                else match unescape e with
                | Some x => lex (LStr (flush acc hi +:+ String x "") None 0) s''
                | None => None
                end
            | "" => None
            end
          else if in_range c 0 31 then None
          else if in_range c 32 127 then lex (LStr (flush acc hi +:+ String c "") None 0) s'
          else match utf8_len s with
          | O => lex (LStr (flush acc hi +:+ replacement) None 0) s'
          | S k => lex (LStr (flush acc hi +:+ String c "") None k) s'
          end
      end
  end.

(** ** Parser *)

(** The arrays and objects that are open: what they hold so far, and the key of
    the member that is being read. *)
Inductive frame :=
  | FArr (vs : list json)
  | FObj (ms : list (string * json)) (key : string).

(** What comes next: a value ([first]: or the end of an array), a key ([first]: or
    the end of an object), a colon, or what follows the value [v]. *)
Inductive pstate :=
  | PValue (first : bool)
  | PKey (first : bool)
  | PColon
  | PAfter (v : json).

Definition maxNestingDepth : nat := 100 * 100.

Fixpoint parse (st : pstate) (stack : list frame) (ts : list token) : option json :=
  match ts with
  | [] => match st, stack with PAfter v, [] => Some v | _, _ => None end
  | t :: ts =>
      match st with
      | PValue first =>
          match t with
          | TStr s => parse (PAfter (JStr s)) stack ts
          | TNum lit => parse (PAfter (JNum lit)) stack ts
          | TNull => parse (PAfter JNull) stack ts
          | TBool b => parse (PAfter (JBool b)) stack ts
          | TLBracket => if decide (length stack < maxNestingDepth)%nat then parse (PValue true) (FArr [] :: stack) ts else None
          | TLBrace => if decide (length stack < maxNestingDepth)%nat then parse (PKey true) (FObj [] "" :: stack) ts else None
          | TRBracket =>
              match first, stack with
              | true, FArr vs :: stack => parse (PAfter (JArr vs)) stack ts
              | _, _ => None
              end
          | _ => None
          end
      | PKey first =>
          match t, stack with
          | TStr k, FObj ms _ :: stack => parse PColon (FObj ms k :: stack) ts
          | TRBrace, FObj ms _ :: stack => if first : bool then parse (PAfter (JObj ms)) stack ts else None
          | _, _ => None
          end
      | PColon => match t with TColon => parse (PValue false) stack ts | _ => None end
      | PAfter v =>
          match stack, t with
          | FArr vs :: stack, TComma => parse (PValue false) (FArr (vs ++ [v]) :: stack) ts
          | FArr vs :: stack, TRBracket => parse (PAfter (JArr (vs ++ [v]))) stack ts
          | FObj ms k :: stack, TComma => parse (PKey false) (FObj (ms ++ [(k, v)]) "" :: stack) ts
          | FObj ms k :: stack, TRBrace => parse (PAfter (JObj (ms ++ [(k, v)]))) stack ts
          | _, _ => None
          end
      end
  end.

(** The value of a whole document; [None] for a syntax error. *)
Definition json_parse (s : string) : option json := lex LNormal s ≫= parse (PValue false) [].

(** ** Printing *)

Definition hex_lower (d : N) : ascii := ascii_of_N (if decide (d < 10)%N then 48 + d else 87 + d).

(** How [appendString] writes a byte below 0x80 that it does not copy. *)
Definition escape (c : ascii) : string :=
  if decide (c = dquote ∨ c = backslash) then String backslash (String c "")
  else if decide (c = "008"%char) then String backslash "b"
  else if decide (c = "012"%char) then String backslash "f"
  else if decide (c = "010"%char) then String backslash "n"
  else if decide (c = "013"%char) then String backslash "r"
  else if decide (c = "009"%char) then String backslash "t"
  else String backslash (String "u" (String "0" (String "0"
    (String (hex_lower (N_of_ascii c / 16)) (String (hex_lower (N_of_ascii c mod 16)) ""))))).

(** [htmlSafeSet]. *)
Definition html_safe (c : ascii) : bool :=
  in_range c 32 127 && bool_decide (c ∉ [dquote; backslash; "<"; ">"; "&"]%char).

(** U+2028 or U+2029 at the head of [s]: its last byte. *)
Definition line_separator (s : string) : option ascii :=
  match s with
  | String a (String b (String c _)) =>
      if in_range a 226 226 && in_range b 128 128 && in_range c 168 169 then Some c else None
  | _ => None
  end.

(** The inside of a quoted string; [skip] bytes of a rune are still to be copied
    ([true]) or were written as an escape ([false]). *)
Fixpoint quote_from (skip : nat * bool) (s : string) : string :=
  match s with
  | "" => ""
  | String c s' =>
      match skip with
      | (S k, true) => String c (quote_from (k, true) s')
      | (S k, false) => quote_from (k, false) s'
      | (O, _) =>
          if html_safe c then String c (quote_from (O, true) s')
          else if in_range c 0 127 then escape c +:+ quote_from (O, true) s'
          else match utf8_len s with
          | O => String backslash "ufffd" +:+ quote_from (O, true) s'
          | S k =>
              match line_separator s with
              | Some d => String backslash "u202" +:+ String (hex_lower (N_of_ascii d mod 16)) (quote_from (k, false) s')
              | None => String c (quote_from (k, true) s')
              end
          end
      end
  end.

Definition quote (s : string) : string := String dquote (quote_from (O, true) s +:+ String dquote "").

(** A document laid out with [sep d] before what is at depth [d] and [colon]
    between a key and its value. *)
Section Render.
Context (sep : nat → string) (colon : string).

Fixpoint render (d : nat) (v : json) : string :=
  match v with
  | JNull => "null"
  | JBool b => if b then "true" else "false"
  | JNum lit => lit
  | JStr s => quote s
  | JArr [] => "[]"
  | JArr vs => "[" +:+ sep (S d) +:+ strings_Join (map (render (S d)) vs) ("," +:+ sep (S d)) +:+ sep d +:+ "]"
  | JObj [] => "{}"
  | JObj ms =>
      "{" +:+ sep (S d) +:+
      strings_Join (map (λ m, quote m.1 +:+ colon +:+ render (S d) m.2) ms) ("," +:+ sep (S d)) +:+ sep d +:+ "}"
  end.
End Render.

(** [json.Marshal]. *)
Definition json_Marshal (v : json) : string := render (λ _, "") ":" 0 v.

Fixpoint srepeat (n : nat) (s : string) : string := match n with O => "" | S n => s +:+ srepeat n s end.

(** [json.MarshalIndent] with no prefix. *)
Definition json_MarshalIndent (indent : string) (v : json) : string :=
  render (λ d, String LF (srepeat d indent)) ": " 0 v.

(** [Encoder.Encode]: a document and a newline. *)
Definition json_Encode (v : json) : string := json_Marshal v +:+ String LF "".

(** ** Decoding into Go values

    [None] for an [UnmarshalTypeError]: the source never looks at what was
    decoded before one.  [null] leaves a value as it is, except that it makes a
    slice nil. *)

Definition decode_string (v : json) (cur : string) : option string :=
  match v with
  | JStr s => Some s
  | JNull => Some cur
  | _ => None
  end.

Definition decode_uint (bits : Z) (v : json) (cur : Z) : option Z :=
  match v with
  | JNum lit => match strconv_ParseUint lit 10 bits with Ok n => Some n | Err _ => None end
  | JNull => Some cur
  | _ => None
  end.

(** The elements of a slice of strings, decoded over those it has. *)
Fixpoint decode_elems (vs : list json) (cur : list string) : option (list string) :=
  match vs with
  | [] => Some []
  | v :: vs =>
      s ← decode_string v (hd "" cur);
      cons s <$> decode_elems vs (tl cur)
  end.

Definition decode_strings (v : json) (cur : option (list string)) : option (option (list string)) :=
  match v with
  | JArr vs => Some <$> decode_elems vs (default [] cur)
  | JNull => Some None
  | _ => None
  end.

(** [foldName], as far as it can make a key equal to a name of ASCII letters:
    lower-case letters are folded, and so are U+017F and U+212A. *)
Definition fold_char (c : ascii) : ascii := if in_range c 97 122 then ascii_of_N (N_of_ascii c - 32) else c.
Fixpoint fold_name (s : string) : string :=
  match s with
  | "" => ""
  | String c s' =>
      match s' with
      | String d s2 =>
          if decide (c = "197"%char ∧ d = "191"%char) then String "S" (fold_name s2)
          else match s2 with
          | String e s3 =>
              if decide (c = "226"%char ∧ d = "132"%char ∧ e = "170"%char) then String "K" (fold_name s3)
              else String (fold_char c) (fold_name s')
          | "" => String (fold_char c) (fold_name s')
          end
      | "" => String (fold_char c) (fold_name s')
      end
  end.

(** The first element that satisfies [f]. *)
Fixpoint find_first {A} (f : A → bool) (l : list A) : option A :=
  match l with
  | [] => None
  | x :: l => if f x then Some x else find_first f l
  end.

(** A struct is given by its fields: their names and how to decode one. *)
Section Struct.
Context {R : Type}.
Notation field := (string * (json → R → option R))%type.

(** The field a key names: exactly, or else by folding. *)
Definition find_field (fields : list field) (key : string) : option field :=
  match find_first (λ f, bool_decide (f.1 = key)) fields with
  | Some f => Some f
  | None => find_first (λ f, bool_decide (fold_name f.1 = fold_name key)) fields
  end.

Definition decode_member (fields : list field) (acc : option R) (m : string * json) : option R :=
  r ← acc;
  match find_field fields m.1 with
  | Some f => f.2 m.2 r
  | None => Some r
  end.

Definition decode_struct (fields : list field) (v : json) (r : R) : option R :=
  match v with
  | JObj ms => foldl (decode_member fields) (Some r) ms
  | JNull => Some r
  | _ => None
  end.

(** A field holding an [A]. *)
Definition field_of {A} (name : string) (dec : json → A → option A) (get : R → A) (set : A → R → R) : field :=
  (name, λ v r, (λ a, set a r) <$> dec v (get r)).

(** [json.Unmarshal] of [data] into [r]. *)
Definition json_Unmarshal (fields : list field) (data : string) (r : R) : option R :=
  json_parse data ≫= λ v, decode_struct fields v r.
End Struct.

Definition dq (s : string) : string := String dquote (s +:+ String dquote "").
Example marshal1 :
  json_Marshal (JObj [("a", JArr [JNum "1"; JStr "x<"; JNull]); ("b", JObj [])]) =
  "{" +:+ dq "a" +:+ ":[1," +:+ dq ("x" +:+ String backslash "u003c") +:+ ",null]," +:+ dq "b" +:+ ":{}}".
Proof. reflexivity. Qed.
Example json_parse1 :
  json_parse (" { " +:+ dq "a" +:+ " : [ -1.5e3 , true, " +:+ dq (String backslash "ud83d" +:+ String backslash "ude00") +:+ "] } ") =
  Some (JObj [("a", JArr [JNum "-1.5e3"; JBool true; JStr (utf8_rune 0x1F600)])]).
Proof. vm_compute. reflexivity. Qed.
Example json_parse_bad :
  map json_parse ["01"; "[1,]"; "{,}"; "1 2"; "truefalse"; ""; "[1"; dq (String "001" "")] = replicate 8 None.
Proof. vm_compute. reflexivity. Qed.
