(* ===== verification/GoJSONFacts.v ===== *)
(** * Reading back what [encoding/json] wrote

    Any document printed by [GoJSON.render], compact or indented, whose
    strings are UTF-8 and whose numbers are well formed is parsed to the value
    it was printed from, when it is not nested too deeply; and an object whose
    closing brace is missing is not parsed at all. *)

From S2P Require Import Prelude GoStrings GoJSON.

(** ** UTF-8 *)

(** [s] is UTF-8, after [skip] bytes of a rune. *)
Fixpoint utf8_from (skip : nat) (s : string) : bool :=
  match s with
  | "" => bool_decide (skip = O)
  | String c s' =>
      match skip with
      | S k => utf8_from k s'
      | O =>
          if in_range c 0 127 then utf8_from O s'
          else match utf8_len s with
          | O => false
          | S k => utf8_from k s'
          end
      end
  end.
Definition utf8_valid (s : string) : Prop := utf8_from 0 s = true.
#[export] Instance utf8_valid_dec s : Decision (utf8_valid s).
Proof. unfold utf8_valid. apply _. Defined.

Lemma utf8_from_app p t : utf8_from (String.length p) (p +:+ t) = utf8_from 0 t.
Proof. induction p as [|c p IH]; [done|]. rewrite sapp_cons. cbn [String.length utf8_from]. apply IH. Qed.

(** A rune is recognised by its own bytes. *)
Lemma utf8_len_rune c s k :
  utf8_len (String c s) = S k → ∃ p t, s = p +:+ t ∧ String.length p = k ∧ ∀ t', utf8_len (String c (p +:+ t')) = S k.
Proof.
  destruct s as [|b s2]; [done|]. intros H. unfold utf8_len in H.
  destruct (in_range c 194 223) eqn:E1.
  { destruct (continuation b) eqn:Eb; [|done]. injection H as <-. exists (String b ""), s2. split_and!; [done..|].
    intros t'. unfold utf8_len. rewrite sapp_cons. by rewrite E1, Eb. }
  destruct s2 as [|d s3]; [done|].
  destruct (in_range c 224 224 && _ || _ || _ || _) eqn:E2.
  { destruct (continuation d) eqn:Ed; [|done]. injection H as <-. exists (String b (String d "")), s3. split_and!; [done..|].
    intros t'. unfold utf8_len. rewrite !sapp_cons. by rewrite E1, E2, Ed. }
  destruct s3 as [|e s4]; [done|]. destruct (_ && continuation d && _) eqn:E3; [|done].
  injection H as <-. exists (String b (String d (String e ""))), s4. split_and!; [done..|].
  intros t'. unfold utf8_len. rewrite !sapp_cons. by rewrite E1, E2, E3.
Qed.

(** A non-empty UTF-8 string starts with an ASCII byte or with a longer rune. *)
Lemma utf8_cases s :
  utf8_valid s → s = "" ∨
  (∃ c s', s = String c s' ∧ in_range c 0 127 = true ∧ utf8_valid s') ∨
  (∃ c p t, s = String c (p +:+ t) ∧ in_range c 0 127 = false ∧ utf8_valid t ∧
    ∀ t', utf8_len (String c (p +:+ t')) = S (String.length p)).
Proof.
  unfold utf8_valid. destruct s as [|c s]; [by left|]. intros H. right. cbn [utf8_from] in H.
  destruct (in_range c 0 127) eqn:Ec; [left; by eauto|]. right.
  destruct (utf8_len (String c s)) as [|k] eqn:Ek; [done|].
  destruct (utf8_len_rune c s k Ek) as (p & t & -> & <- & Hl). rewrite utf8_from_app in H.
  by exists c, p, t.
Qed.

(** ASCII is UTF-8. *)
Definition ascii_only (s : string) : Prop := forallb (λ c, in_range c 0 127) (String.list_ascii_of_string s) = true.

Lemma ascii_only_app s t : ascii_only (s +:+ t) ↔ ascii_only s ∧ ascii_only t.
Proof.
  unfold ascii_only. induction s as [|c s IH]; [by rewrite sapp_nil; split; [split|intros []]|].
  rewrite sapp_cons. cbn [String.list_ascii_of_string forallb]. rewrite !andb_true_iff, IH. tauto.
Qed.

Lemma ascii_only_utf8 s : ascii_only s → utf8_valid s.
Proof.
  unfold ascii_only, utf8_valid. induction s as [|c s IH]; [done|]. cbn [String.list_ascii_of_string forallb utf8_from].
  intros [Hc Hs]%andb_true_iff. rewrite Hc. by apply IH.
Qed.

(** ** Strings *)

(** What one byte below 0x80 is written as is read back as that byte. *)
Lemma lex_byte c acc X :
  in_range c 0 127 = true →
  lex (LStr acc None 0) ((if html_safe c then String c "" else escape c) +:+ X) = lex (LStr (acc +:+ String c "") None 0) X.
Proof. destruct c as [[] [] [] [] [] [] [] []]; first [discriminate|reflexivity]. Qed.

Lemma lex_copy p acc hi X :
  lex (LStr acc hi (String.length p)) (p +:+ X) = lex (LStr (acc +:+ p) hi 0) X.
Proof.
  revert acc. induction p as [|c p IH]; intros acc; [by rewrite sapp_nil_r|].
  rewrite sapp_cons. cbn [String.length lex]. rewrite IH. by rewrite sapp_assoc.
Qed.

Lemma quote_copy p t : quote_from (String.length p, true) (p +:+ t) = p +:+ quote_from (0%nat, true) t.
Proof. induction p as [|c p IH]; [done|]. rewrite !sapp_cons. cbn [String.length quote_from]. by rewrite IH. Qed.

Lemma quote_drop p t : quote_from (String.length p, false) (p +:+ t) = quote_from (0%nat, true) t.
Proof. induction p as [|c p IH]; [by destruct t|]. rewrite !sapp_cons. cbn [String.length quote_from]. by rewrite IH. Qed.

(** The two separators that are escaped. *)
Lemma line_separator_rune c p t d :
  line_separator (String c (p +:+ t)) = Some d → (∀ t', utf8_len (String c (p +:+ t')) = S (String.length p)) →
  c = "226"%char ∧ (d = "168"%char ∨ d = "169"%char) ∧ p = String "128" (String d "").
Proof.
  intros H Hl. pose proof (Hl t) as Hl0.
  assert (∀ a n, in_range a n n = true → a = ascii_of_N n) as Hone.
  { intros a n ?%bool_decide_eq_true. rewrite <-(ascii_N_embedding a). f_equal. lia. }
  destruct (p +:+ t) as [|b [|e r]] eqn:E; [done..|]. cbn [line_separator] in H.
  destruct (in_range c 226 226 && in_range b 128 128 && in_range e 168 169) eqn:Er; [|done].
  injection H as ->. bool_to_prop.
  assert (c = "226"%char) as -> by by apply (Hone c 226%N). assert (b = "128"%char) as -> by by apply (Hone b 128%N).
  assert (d = "168"%char ∨ d = "169"%char) as Hd.
  { match goal with H : in_range d _ _ = true |- _ => apply bool_decide_eq_true in H as Hd end.
    assert (N_of_ascii d = 168 ∨ N_of_ascii d = 169)%N as [E1|E1] by lia; [left|right];
      rewrite <-(ascii_N_embedding d), E1; done. }
  assert (String.length p = 2%nat) as Hp by (destruct Hd as [-> | ->]; vm_compute in Hl0; by injection Hl0).
  split_and!; [done|done|]. destruct p as [|x [|y [|z p]]]; try done. rewrite !sapp_cons in E. cbn in E. by simplify_eq.
Qed.

Lemma quote_from_ascii c s :
  in_range c 0 127 = true →
  quote_from (0%nat, true) (String c s) = (if html_safe c then String c "" else escape c) +:+ quote_from (0%nat, true) s.
Proof. intros Hc. cbn [quote_from]. rewrite Hc. by destruct (html_safe c). Qed.

Lemma not_ascii c : in_range c 0 127 = false → html_safe c = false ∧ c ≠ dquote ∧ c ≠ backslash ∧
  in_range c 0 31 = false ∧ in_range c 32 127 = false.
Proof.
  intros H. apply bool_decide_eq_false in H.
  assert (in_range c 0 31 = false ∧ in_range c 32 127 = false) as [H1 H2] by (split; apply bool_decide_eq_false; lia).
  split_and!; [unfold html_safe; by rewrite H2|by intros ->; cbn in H; lia..|done|done].
Qed.

Lemma quote_from_rune c p t :
  in_range c 0 127 = false → (∀ t', utf8_len (String c (p +:+ t')) = S (String.length p)) →
  quote_from (0%nat, true) (String c (p +:+ t)) =
  match line_separator (String c (p +:+ t)) with
  | Some d => String backslash "u202" +:+ String (hex_lower (N_of_ascii d mod 16)) (quote_from (0%nat, true) t)
  | None => String c (p +:+ quote_from (0%nat, true) t)
  end.
Proof.
  intros Hc Hl. destruct (not_ascii c Hc) as (Hh & _). cbn [quote_from]. rewrite Hh, Hc, Hl.
  by rewrite quote_drop, quote_copy.
Qed.

Lemma lex_quote_from s acc rest :
  utf8_valid s →
  lex (LStr acc None 0) (quote_from (0%nat, true) s +:+ String dquote rest) = cons (TStr (acc +:+ s)) <$> lex LNormal rest.
Proof.
  revert acc. induction s as [s IH] using (induction_ltof1 _ String.length). unfold ltof in IH. intros acc Hs.
  destruct (utf8_cases s Hs) as [->|[(c & s' & -> & Hc & Hs')|(c & p & t & -> & Hc & Ht & Hl)]].
  - cbn. by rewrite sapp_nil_r.
  - rewrite quote_from_ascii, sapp_assoc, lex_byte by done. rewrite IH by (done || cbn; lia). by rewrite sapp_assoc.
  - assert (String.length t < String.length (String c (p +:+ t)))%nat as Hlt.
    { cbn [String.length]. rewrite sapp_length. lia. }
    rewrite quote_from_rune by done. destruct (line_separator (String c (p +:+ t))) as [d|] eqn:Ed.
    + destruct (line_separator_rune c p t d Ed Hl) as (-> & Hd & ->).
      transitivity (lex (LStr (acc +:+ String "226" (String "128" (String d ""))) None 0)
        (quote_from (0%nat, true) t +:+ String dquote rest)); [by destruct Hd as [-> | ->]|].
      rewrite IH by done. by rewrite sapp_assoc.
    + rewrite sapp_cons, sapp_assoc. destruct (not_ascii c Hc) as (_ & Hq & Hb & H31 & H127).
      cbn [lex]. rewrite !decide_False by done. rewrite H31, H127, Hl. cbn [flush].
      rewrite lex_copy, IH by done. by rewrite !sapp_assoc.
Qed.

Lemma lex_quote s rest : utf8_valid s → lex LNormal (quote s +:+ rest) = cons (TStr s) <$> lex LNormal rest.
Proof.
  intros Hs. unfold quote. rewrite sapp_cons, sapp_assoc. change (String dquote "" +:+ rest) with (String dquote rest).
  transitivity (lex (LStr "" None 0) (quote_from (0%nat, true) s +:+ String dquote rest)); [reflexivity|].
  by rewrite lex_quote_from.
Qed.

(** ** Tokens of a value *)

Fixpoint tjoin (l : list (list token)) : list token :=
  match l with
  | [] => []
  | [ts] => ts
  | ts :: l => ts ++ TComma :: tjoin l
  end.

Fixpoint tokens (v : json) : list token :=
  match v with
  | JNull => [TNull]
  | JBool b => [TBool b]
  | JNum lit => [TNum lit]
  | JStr s => [TStr s]
  | JArr vs => TLBracket :: tjoin (map tokens vs) ++ [TRBracket]
  | JObj ms => TLBrace :: tjoin (map (λ m, TStr m.1 :: TColon :: tokens m.2) ms) ++ [TRBrace]
  end.

Fixpoint depth (v : json) : nat :=
  match v with
  | JArr vs => S (foldr (λ v n, depth v `max` n) 0 vs)
  | JObj ms => S (foldr (λ m n, depth m.2 `max` n) 0 ms)
  | _ => 0
  end%nat.

(** Strings are UTF-8 and numbers well formed. *)
Fixpoint json_ok (v : json) : Prop :=
  match v with
  | JNum lit => valid_number lit = true
  | JStr s => utf8_valid s
  | JArr vs => foldr (λ v P, json_ok v ∧ P) True vs
  | JObj ms => foldr (λ m P, utf8_valid m.1 ∧ json_ok m.2 ∧ P) True ms
  | _ => True
  end.

(** Induction over a value and what it holds. *)
Lemma json_nested (P : json → Prop) :
  P JNull → (∀ b, P (JBool b)) → (∀ lit, P (JNum lit)) → (∀ s, P (JStr s)) →
  (∀ vs, Forall P vs → P (JArr vs)) → (∀ ms, Forall (λ m, P m.2) ms → P (JObj ms)) → ∀ v, P v.
Proof.
  intros Hnull Hbool Hnum Hstr Harr Hobj. refine (fix go v : P v := _).
  destruct v as [|b|lit|s|vs|ms]; [done..| |].
  - apply Harr. induction vs as [|v vs IH]; constructor; [apply go|apply IH].
  - apply Hobj. induction ms as [|[k v] ms IH]; constructor; [apply go|apply IH].
Qed.

(** ** Parsing the tokens of a value *)

Definition parses (v : json) : Prop :=
  ∀ first stack ts, (depth v + length stack ≤ maxNestingDepth)%nat →
    parse (PValue first) stack (tokens v ++ ts) = parse (PAfter v) stack ts.

Lemma parse_elems vs first acc stack ts :
  vs ≠ [] → Forall parses vs → (S (foldr (λ v n, depth v `max` n) 0 vs) + length stack ≤ maxNestingDepth)%nat →
  parse (PValue first) (FArr acc :: stack) (tjoin (map tokens vs) ++ TRBracket :: ts) = parse (PAfter (JArr (acc ++ vs))) stack ts.
Proof.
  intros Hne H. revert first acc Hne. induction H as [|v vs Hv _ IH]; intros first acc Hne Hd; [done|]. cbn [foldr] in Hd.
  destruct (decide (vs = [])) as [->|Hvs].
  - cbn [map tjoin]. rewrite Hv by (cbn [length]; lia). done.
  - assert (tjoin (map tokens (v :: vs)) = tokens v ++ TComma :: tjoin (map tokens vs)) as -> by by destruct vs.
    rewrite <-app_assoc. rewrite Hv by (cbn [length]; lia). cbn [app parse].
    rewrite IH by (done || lia). by rewrite <-app_assoc.
Qed.

Lemma parse_members ms first acc key stack ts :
  ms ≠ [] → Forall (λ m, parses m.2) ms → (S (foldr (λ m n, depth m.2 `max` n) 0 ms) + length stack ≤ maxNestingDepth)%nat →
  parse (PKey first) (FObj acc key :: stack) (tjoin (map (λ m, TStr m.1 :: TColon :: tokens m.2) ms) ++ TRBrace :: ts) =
  parse (PAfter (JObj (acc ++ ms))) stack ts.
Proof.
  intros Hne H. revert first acc key Hne. induction H as [|[k v] ms Hv _ IH]; intros first acc key Hne Hd; [done|].
  cbn [foldr snd] in Hd, Hv.
  destruct (decide (ms = [])) as [->|Hms].
  - cbn [map tjoin fst snd app parse]. rewrite Hv by (cbn [length]; lia). done.
  - set (f := λ m : string * json, TStr m.1 :: TColon :: tokens m.2) in *.
    assert (tjoin (map f ((k, v) :: ms)) = TStr k :: TColon :: tokens v ++ TComma :: tjoin (map f ms)) as -> by by destruct ms.
    cbn [app parse]. rewrite <-app_assoc. rewrite Hv by (cbn [length]; lia). cbn [app parse].
    rewrite IH by (done || lia). by rewrite <-app_assoc.
Qed.

Lemma parse_tokens v : parses v.
Proof.
  induction v as [|b|lit|s|vs IH|ms IH] using json_nested; intros first stack ts Hd; [done..| |].
  - cbn [depth] in Hd. cbn [tokens app parse]. rewrite decide_True by lia. rewrite <-app_assoc. cbn [app].
    destruct (decide (vs = [])) as [->|Hne]; [done|]. by rewrite parse_elems.
  - cbn [depth] in Hd. cbn [tokens app parse]. rewrite decide_True by lia. rewrite <-app_assoc. cbn [app].
    destruct (decide (ms = [])) as [->|Hne]; [done|]. by rewrite parse_members.
Qed.

(** ** Lexing what was rendered *)

Definition spaces (w : string) : Prop := forallb json_space (String.list_ascii_of_string w) = true.

Lemma lex_spaces w X : spaces w → lex LNormal (w +:+ X) = lex LNormal X.
Proof.
  unfold spaces. induction w as [|c w IH]; [done|]. cbn [String.list_ascii_of_string forallb].
  intros [Hc Hw]%andb_true_iff. rewrite sapp_cons. cbn [lex]. rewrite Hc. by apply IH.
Qed.

(** What may follow a number. *)
Definition ends (s : string) : Prop := match s with String c _ => num_char c = false | "" => True end.

Lemma space_ends c : json_space c = true → num_char c = false.
Proof. destruct c as [[] [] [] [] [] [] [] []]; first [discriminate|reflexivity]. Qed.

Lemma ends_spaces w X : spaces w → ends X → ends (w +:+ X).
Proof.
  unfold spaces. destruct w as [|c w]; [done|]. cbn. intros [Hc _]%andb_true_iff _. by apply space_ends.
Qed.

Lemma num_step_char st c st' : num_step st c = Some st' → num_char c = true.
Proof. destruct st; destruct c as [[] [] [] [] [] [] [] []]; first [discriminate|reflexivity]. Qed.

Lemma num_run_chars st s : num_run st s = true → forallb num_char (String.list_ascii_of_string s) = true.
Proof.
  revert st. induction s as [|c s IH]; intros st; [done|]. cbn [num_run String.list_ascii_of_string forallb].
  destruct (num_step st c) as [st'|] eqn:E; [|done]. intros H. by rewrite (num_step_char _ _ _ E), (IH st').
Qed.

Lemma lex_num_chars s acc X :
  forallb num_char (String.list_ascii_of_string s) = true → lex (LNum acc) (s +:+ X) = lex (LNum (acc +:+ s)) X.
Proof.
  revert acc. induction s as [|c s IH]; intros acc; [by rewrite sapp_nil_r|].
  cbn [String.list_ascii_of_string forallb]. intros [Hc Hs]%andb_true_iff. rewrite sapp_cons. cbn [lex]. rewrite Hc.
  rewrite IH by done. by rewrite sapp_assoc.
Qed.

Lemma lex_num_start c X st :
  num_step NStart c = Some st → lex LNormal (String c X) = lex (LNum (String c "")) X.
Proof. destruct c as [[] [] [] [] [] [] [] []]; first [discriminate|reflexivity]. Qed.

Lemma lex_number lit X :
  valid_number lit = true → ends X → lex LNormal (lit +:+ X) = cons (TNum lit) <$> lex LNormal X.
Proof.
  intros Hv HX. destruct lit as [|c s]; [done|]. pose proof Hv as Hv0. unfold valid_number in Hv. cbn [num_run] in Hv.
  destruct (num_step NStart c) as [st|] eqn:E; [|done].
  rewrite sapp_cons, (lex_num_start c _ st E), lex_num_chars by by eapply num_run_chars.
  change (String c "" +:+ s) with (String c s).
  destruct X as [|d X]; cbn [lex]; [by rewrite Hv0|]. cbn in HX. by rewrite HX, Hv0.
Qed.

Lemma fmap_app_app (ts1 ts2 : list token) (o : option (list token)) :
  app ts1 <$> (app ts2 <$> o) = app (ts1 ++ ts2) <$> o.
Proof. destruct o; cbn; [by rewrite app_assoc|done]. Qed.

(** [s] is lexed as [ts] wherever a value may stand. *)
Definition lexes (s : string) (ts : list token) : Prop :=
  ∀ X, ends X → lex LNormal (s +:+ X) = app ts <$> lex LNormal X.

Lemma lexes_join (items : list (string * list token)) w :
  spaces w → Forall (λ i, lexes i.1 i.2) items →
  lexes (strings_Join (map fst items) ("," +:+ w)) (tjoin (map snd items)).
Proof.
  intros Hw H. induction H as [|[s ts] items Hs _ IH].
  { intros X _. rewrite sapp_nil. by destruct (lex LNormal X). }
  cbn [fst snd] in Hs. destruct (decide (items = [])) as [->|Hne]; [exact Hs|]. intros X HX.
  assert (map fst items ≠ []) as Hm by by destruct items.
  cbn [map fst snd]. rewrite Join_cons by done. rewrite !sapp_assoc. rewrite Hs by done.
  assert (tjoin (ts :: map snd items) = ts ++ TComma :: tjoin (map snd items)) as -> by by destruct items.
  rewrite <-fmap_app_app. f_equal.
  transitivity (cons TComma <$> lex LNormal (w +:+ strings_Join (map fst items) ("," +:+ w) +:+ X)); [reflexivity|].
  rewrite lex_spaces, IH by done. by destruct (lex LNormal X).
Qed.

Section Layout.
Context (sep : nat → string) (colon : string) (colon_spaces : string).
Context (Hsep : ∀ d, spaces (sep d)) (Hcolon : colon = ":" +:+ colon_spaces) (Hspaces : spaces colon_spaces).

Lemma lex_colon X : lex LNormal (colon +:+ X) = cons TColon <$> lex LNormal X.
Proof. rewrite Hcolon, sapp_assoc, <-(lex_spaces colon_spaces X) by done. reflexivity. Qed.

(** A bracketed, laid out list. *)
Lemma lexes_brackets (l r : ascii) tl tr body ts d :
  punctuation l = Some tl → json_space l = false → punctuation r = Some tr → json_space r = false → num_char r = false →
  lexes body ts →
  lexes (String l "" +:+ sep (S d) +:+ body +:+ sep d +:+ String r "") (tl :: ts ++ [tr]).
Proof.
  intros Hl Hl' Hr Hr' Hrn Hb X HX. rewrite !sapp_assoc.
  change (String l "" +:+ ?t) with (String l t). cbn [lex]. rewrite Hl', Hl.
  rewrite lex_spaces by done. rewrite Hb.
  - rewrite lex_spaces by done. change (String r "" +:+ X) with (String r X). cbn [lex]. rewrite Hr', Hr.
    destruct (lex LNormal X); [|done]. cbn. by rewrite <-app_assoc.
  - apply ends_spaces; [done|]. exact Hrn.
Qed.

Lemma lexes_empty (l r : ascii) tl tr :
  punctuation l = Some tl → json_space l = false → punctuation r = Some tr → json_space r = false →
  lexes (String l (String r "")) [tl; tr].
Proof.
  intros Hl Hl' Hr Hr' X _. rewrite !sapp_cons, sapp_nil. cbn [lex]. rewrite Hl', Hl, Hr', Hr.
  by destruct (lex LNormal X).
Qed.

Lemma lexes_quote s : utf8_valid s → lexes (quote s) [TStr s].
Proof. intros Hs X _. by apply lex_quote. Qed.

Lemma render_lexes v d : json_ok v → lexes (render sep colon d v) (tokens v).
Proof.
  revert d. induction v as [|b|lit|s|vs IH|ms IH] using json_nested; intros d Hok.
  - intros X _. reflexivity.
  - intros X _. by destruct b.
  - intros X HX. by apply lex_number.
  - by apply lexes_quote.
  - destruct (decide (vs = [])) as [->|Hne]; [by apply (lexes_empty "[" "]")|].
    assert (lexes (strings_Join (map (render sep colon (S d)) vs) ("," +:+ sep (S d))) (tjoin (map tokens vs))) as Hb.
    { assert (Forall (λ v, lexes (render sep colon (S d) v) (tokens v)) vs) as HF.
      { clear Hne. induction IH as [|v vs Hv _ IHvs]; constructor; [by apply Hv, Hok|by apply IHvs, Hok]. }
      pose proof (lexes_join (map (λ v, (render sep colon (S d) v, tokens v)) vs) (sep (S d)) (Hsep _)) as HJ.
      rewrite !map_map in HJ. cbn in HJ. apply HJ. by rewrite Forall_map. }
    cbn [tokens]. replace (render sep colon d (JArr vs)) with
      (String "[" "" +:+ sep (S d) +:+ strings_Join (map (render sep colon (S d)) vs) ("," +:+ sep (S d)) +:+ sep d +:+ String "]" "")
      by by destruct vs.
    by apply lexes_brackets.
  - destruct (decide (ms = [])) as [->|Hne]; [by apply (lexes_empty "{" "}")|].
    set (member := λ m : string * json, quote m.1 +:+ colon +:+ render sep colon (S d) m.2).
    set (mtokens := λ m : string * json, TStr m.1 :: TColon :: tokens m.2).
    assert (lexes (strings_Join (map member ms) ("," +:+ sep (S d))) (tjoin (map mtokens ms))) as Hb.
    { assert (Forall (λ m, lexes (member m) (mtokens m)) ms) as HF.
      { clear Hne. induction IH as [|[k v] ms Hv _ IHms]; constructor; [|by apply IHms, Hok].
        destruct Hok as (Hk & Hv' & _). intros X HX. unfold member, mtokens. cbn [fst snd] in *.
        rewrite !sapp_assoc, lex_quote, lex_colon, Hv by done. by destruct (lex LNormal X). }
      pose proof (lexes_join (map (λ m, (member m, mtokens m)) ms) (sep (S d)) (Hsep _)) as HJ.
      rewrite !map_map in HJ. cbn in HJ. apply HJ. by rewrite Forall_map. }
    cbn [tokens]. replace (render sep colon d (JObj ms)) with
      (String "{" "" +:+ sep (S d) +:+ strings_Join (map member ms) ("," +:+ sep (S d)) +:+ sep d +:+ String "}" "")
      by by destruct ms.
    by apply lexes_brackets.
Qed.

(** A rendered document, with white space after it, is parsed to its value. *)
Lemma parse_render v w :
  json_ok v → (depth v ≤ maxNestingDepth)%nat → spaces w → json_parse (render sep colon 0 v +:+ w) = Some v.
Proof.
  intros Hok Hd Hw. unfold json_parse. rewrite render_lexes; [|done|].
  - replace (lex LNormal w) with (Some ([] : list token)).
    + cbn [fmap option_fmap option_map mbind option_bind]. by rewrite (parse_tokens v false [] []) by by rewrite Nat.add_0_r.
    + pose proof (lex_spaces w "" Hw) as E. rewrite sapp_nil_r in E. by rewrite E.
  - rewrite <-(sapp_nil_r w). by apply ends_spaces.
Qed.
End Layout.

Lemma srepeat_spaces n w : spaces w → spaces (srepeat n w).
Proof.
  unfold spaces. intros Hw. induction n as [|n IH]; [done|]. cbn [srepeat].
  assert (∀ a b, forallb json_space (String.list_ascii_of_string (a +:+ b)) =
    forallb json_space (String.list_ascii_of_string a) && forallb json_space (String.list_ascii_of_string b)) as E.
  { intros a b. induction a as [|c a IHa]; [done|]. rewrite sapp_cons. cbn. by rewrite IHa, andb_assoc. }
  by rewrite E, Hw, IH.
Qed.

Lemma parse_Marshal v : json_ok v → (depth v ≤ maxNestingDepth)%nat → json_parse (json_Marshal v) = Some v.
Proof.
  intros. unfold json_Marshal. rewrite <-(sapp_nil_r (render _ _ _ _)). by apply (parse_render _ _ "").
Qed.

Lemma parse_Encode v : json_ok v → (depth v ≤ maxNestingDepth)%nat → json_parse (json_Encode v) = Some v.
Proof. intros. by apply (parse_render (λ _, "") ":" ""). Qed.

Lemma parse_MarshalIndent indent v :
  spaces indent → json_ok v → (depth v ≤ maxNestingDepth)%nat → json_parse (json_MarshalIndent indent v) = Some v.
Proof.
  intros. unfold json_MarshalIndent. rewrite <-(sapp_nil_r (render _ _ _ _)). apply (parse_render _ _ " "); try done.
  intros d. change (spaces (String LF (srepeat d indent))) with (spaces (srepeat d indent)). by apply srepeat_spaces.
Qed.

(** ** What is written *)

Definition printable (s : string) : Prop := forallb (λ c, negb (in_range c 0 31)) (String.list_ascii_of_string s) = true.

Lemma printable_app s t : printable (s +:+ t) ↔ printable s ∧ printable t.
Proof.
  unfold printable. induction s as [|c s IH]; [by rewrite sapp_nil; split; [split|intros []]|].
  rewrite sapp_cons. cbn [String.list_ascii_of_string forallb]. rewrite !andb_true_iff, IH. tauto.
Qed.

Lemma printable_lacks c s : printable s → in_range c 0 31 = true → lacks c s.
Proof.
  unfold printable. intros Hs Hc. induction s as [|d s IH]; [apply lacks_nil|].
  cbn in Hs. apply andb_true_iff in Hs as [Hd Hs]. apply lacks_cons. split; [|by apply IH].
  intros ->. by rewrite Hc in Hd.
Qed.

Lemma high_printable c lo hi : (128 ≤ lo)%N → in_range c lo hi = true → in_range c 0 31 = false.
Proof. intros Hlo Hc%bool_decide_eq_true. apply bool_decide_eq_false. lia. Qed.

(** The bytes of a rune after its first are no control characters. *)
Lemma utf8_len_printable c p t :
  utf8_len (String c (p +:+ t)) = S (String.length p) → printable p.
Proof.
  unfold printable. destruct p as [|b [|d [|e [|x p]]]]; [done|..]; rewrite ?sapp_cons, ?sapp_nil; intros H; unfold utf8_len in H;
    repeat (case_match; try done); bool_to_prop; cbn [String.length] in H; try discriminate;
    cbn [String.list_ascii_of_string forallb]; rewrite ?andb_true_r.
  all: repeat match goal with H : _ || _ = true |- _ => apply orb_true_iff in H as [H|H] end; bool_to_prop;
    unfold continuation in *;
    repeat match goal with H : in_range ?x ?lo ?hi = true |- context [in_range ?x 0 31] =>
      rewrite (high_printable x lo hi) by (done || lia) end; done.
Qed.

Lemma escape_printable c : in_range c 0 127 = true → printable (if html_safe c then String c "" else escape c).
Proof. destruct c as [[] [] [] [] [] [] [] []]; first [discriminate|reflexivity]. Qed.

Lemma quote_from_printable s : utf8_valid s → printable (quote_from (0%nat, true) s).
Proof.
  induction s as [s IH] using (induction_ltof1 _ String.length). unfold ltof in IH. intros Hs.
  destruct (utf8_cases s Hs) as [->|[(c & s' & -> & Hc & Hs')|(c & p & t & -> & Hc & Ht & Hl)]]; [done|..].
  - rewrite quote_from_ascii by done. apply printable_app. split; [by apply escape_printable|]. apply IH; [cbn; lia|done].
  - assert (String.length t < String.length (String c (p +:+ t)))%nat as Hlt by (cbn [String.length]; rewrite sapp_length; lia).
    specialize (IH t Hlt Ht). rewrite quote_from_rune by done. destruct (line_separator (String c (p +:+ t))) as [d|] eqn:Ed.
    + destruct (line_separator_rune c p t d Ed Hl) as (-> & Hd & ->). by destruct Hd as [-> | ->].
    + pose proof (utf8_len_printable c p t (Hl t)) as Hp. destruct (not_ascii c Hc) as (_ & _ & _ & H31 & _).
      change (printable (String c "" +:+ p +:+ quote_from (0%nat, true) t)). rewrite !printable_app. split_and!; [|done..].
      unfold printable. cbn. by rewrite H31.
Qed.

Lemma quote_printable s : utf8_valid s → printable (quote s).
Proof.
  intros Hs. change (printable (String dquote "" +:+ quote_from (0%nat, true) s +:+ String dquote "")).
  rewrite !printable_app. split_and!; [done|by apply quote_from_printable|done].
Qed.

Lemma num_char_printable c : num_char c = true → in_range c 0 31 = false.
Proof. destruct c as [[] [] [] [] [] [] [] []]; first [discriminate|reflexivity]. Qed.

Lemma number_printable lit : valid_number lit = true → printable lit.
Proof.
  intros H%num_run_chars. unfold printable. induction lit as [|c s IH]; [done|]. cbn in *.
  apply andb_true_iff in H as [Hc%num_char_printable Hs]. by rewrite Hc, IH.
Qed.

Lemma printable_join l sep : printable sep → Forall printable l → printable (strings_Join l sep).
Proof.
  intros Hsep. induction 1 as [|w l Hw _ IH]; [done|]. destruct (decide (l = [])) as [->|]; [done|].
  rewrite Join_cons by done. by rewrite !printable_app.
Qed.

(** Compact output has no control characters: it is one line. *)
Lemma render_printable v d : json_ok v → printable (render (λ _, "") ":" d v).
Proof.
  revert d. induction v as [|b|lit|s|vs IH|ms IH] using json_nested; intros d Hok.
  - done.
  - by destruct b.
  - by apply number_printable.
  - by apply quote_printable.
  - destruct vs as [|v0 vs0]; [done|]. set (vs := v0 :: vs0) in *.
    change (printable ("[" +:+ "" +:+ strings_Join (map (render (λ _, "") ":" (S d)) vs) ("," +:+ "") +:+ "" +:+ "]")).
    rewrite !printable_app. split_and!; try done. apply printable_join; [done|]. clearbody vs.
    induction IH as [|v vs Hv _ IHvs]; constructor; [by apply Hv, Hok|by apply IHvs, Hok].
  - destruct ms as [|m0 ms0]; [done|]. set (ms := m0 :: ms0) in *.
    change (printable ("{" +:+ "" +:+ strings_Join (map (λ m, quote m.1 +:+ ":" +:+ render (λ _, "") ":" (S d) m.2) ms) ("," +:+ "") +:+ "" +:+ "}")).
    rewrite !printable_app. split_and!; try done. apply printable_join; [done|]. clearbody ms.
    induction IH as [|[k v] ms Hv _ IHms]; constructor; [|by apply IHms, Hok].
    destruct Hok as (Hk & Hv' & _). cbn [fst snd] in *. rewrite !printable_app. split_and!; [by apply quote_printable|done|by apply Hv].
Qed.

Lemma dropCR_printable s : printable s → dropCR s = s.
Proof.
  induction s as [|c s IH]; [done|]. change (String c s) with (String c "" +:+ s) at 1.
  intros [Hc Hs]%printable_app. cbn [dropCR]. rewrite decide_False; [by rewrite IH|]. by intros [-> _].
Qed.

Lemma Marshal_plain v :
  json_ok v → Z.of_nat (String.length (json_Marshal v)) < MaxScanTokenSize → plain_line (json_Marshal v).
Proof.
  intros Hok Hlen. pose proof (render_printable v 0 Hok) as Hp.
  split_and!; [by apply printable_lacks|by apply dropCR_printable|done].
Qed.

(** ** Documents that are cut off *)

Definition rbrace : ascii := "}".

Lemma punctuation_brace c : punctuation c = Some TRBrace → c = rbrace.
Proof. unfold punctuation. repeat case_decide; by intros. Qed.

(** Without a closing brace there is no token of one. *)
Lemma lex_no_brace n s st ts :
  (String.length s ≤ n)%nat → lacks rbrace s → lex st s = Some ts → TRBrace ∉ ts.
Proof.
  revert s st ts. induction n as [|n IH]; intros [|c s] st ts Hn Hs; try (cbn in Hn; lia).
  1,2: destruct st as [|acc hi copy|lit]; cbn; [intros [= <-]; by apply not_elem_of_nil|done|];
    destruct (valid_number lit); [|done]; intros [= <-]; by intros ?%list_elem_of_singleton.
  apply lacks_cons in Hs as [Hc Hs]. cbn [String.length] in Hn.
  assert (∀ st ts, lex st s = Some ts → TRBrace ∉ ts) as IHs by (intros st' ts'; apply IH; [lia|done]).
  assert (∀ t (o : option (list token)) ts, t ≠ TRBrace → (∀ ts, o = Some ts → TRBrace ∉ ts) → cons t <$> o = Some ts → TRBrace ∉ ts) as Hcons.
  { intros t [l|] ts' Ht Ho; [|done]. intros [= <-] [?|?]%elem_of_cons; [done|by eapply Ho]. }
  assert (∀ p r st ts, s = p +:+ r → lex st r = Some ts → TRBrace ∉ ts) as IHr.
  { intros p r st' ts' ->. apply lacks_app in Hs as [_ Hs]. rewrite sapp_length in Hn. apply IH; [lia|done]. }
  clear IH Hn. assert (∀ ts, lex LNormal (String c s) = Some ts → TRBrace ∉ ts) as Hnormal.
  { intros ts'. cbn [lex]. destruct (json_space c); [apply IHs|]. destruct (punctuation c) as [t|] eqn:Et.
    - apply Hcons; [|apply IHs]. intros ->. by apply punctuation_brace in Et.
    - destruct (decide (c = dquote)); [apply IHs|]. destruct (is_digit c || _); [apply IHs|].
      destruct s as [|x [|y [|z r]]]; try done.
      destruct (decide _); [apply Hcons; [done|]; intros ts''; by apply (IHr (String x (String y (String z ""))))|].
      destruct (decide _); [apply Hcons; [done|]; intros ts''; by apply (IHr (String x (String y (String z ""))))|].
      destruct r as [|u r]; [done|]. destruct (decide _); [|done].
      apply Hcons; [done|]. intros ts''. by apply (IHr (String x (String y (String z (String u ""))))). }
  destruct st as [|acc hi [|copy]|lit]; [apply Hnormal| |apply IHs|].
  2: { change (lex (LNum lit) (String c s)) with (if num_char c then lex (LNum (lit +:+ String c "")) s
         else if valid_number lit then cons (TNum lit) <$> lex LNormal (String c s) else None).
       destruct (num_char c); [apply IHs|]. destruct (valid_number lit); [|done]. by apply Hcons. }
  cbn [lex]. destruct (decide (c = dquote)); [apply Hcons; [done|apply IHs]|].
  destruct (decide (c = backslash)).
  - destruct s as [|d s]; [done|]. destruct (decide (d = "u"%char)).
    + destruct s as [|x [|y [|z [|w r]]]]; try done. destruct (hex4 x y z w) as [u|]; [|done].
      destruct (add_rune acc hi u). by apply (IHr (String d (String x (String y (String z (String w "")))))).
    + destruct (unescape d); [|done]. by apply (IHr (String d "")).
  - destruct (in_range c 0 31); [done|]. destruct (in_range c 32 127); [apply IHs|]. destruct (utf8_len _); apply IHs.
Qed.

(** An object that is open stays open. *)
Lemma parse_no_brace ts st stack ms k fs :
  TRBrace ∉ ts → stack = fs ++ [FObj ms k] → parse st stack ts = None.
Proof.
  revert st stack ms k fs. induction ts as [|t ts IH]; intros st stack ms k fs Hts ->.
  { cbn. destruct st; [done..|]. by destruct fs. }
  apply not_elem_of_cons in Hts as [Ht Hts].
  assert (∀ st stack fs ms k, stack = fs ++ [FObj ms k] → parse st stack ts = None) as IH' by (intros; by eapply IH).
  cbn [parse]. destruct st as [first|first| |v].
  - destruct t; try done; try by eapply IH'.
    + destruct (decide _); [|done]. by apply (IH' _ _ (FObj [] "" :: fs) ms k).
    + destruct (decide _); [|done]. by apply (IH' _ _ (FArr [] :: fs) ms k).
    + destruct first; [|done]. destruct fs as [|[vs|ms' k'] fs]; try done. by eapply IH'.
  - destruct t; try done; destruct fs as [|[vs|ms' k'] fs]; try done; cbn.
    + by apply (IH' _ _ []  ms s).
    + by apply (IH' _ _ (FObj ms' s :: fs) ms k).
  - destruct t; try done. by eapply IH'.
  - destruct fs as [|[vs|ms' k'] fs]; cbn; destruct t; try done.
    + by apply (IH' _ _ [] (ms ++ [(k, v)]) "").
    + by apply (IH' _ _ fs ms k).
    + by apply (IH' _ _ (FArr (vs ++ [v]) :: fs) ms k).
    + by apply (IH' _ _ (FObj (ms' ++ [(k', v)]) "" :: fs) ms k).
Qed.

Lemma json_parse_open s : lacks rbrace s → json_parse (String "{" s) = None.
Proof.
  intros Hs. unfold json_parse. change (lex LNormal (String "{" s)) with (cons TLBrace <$> lex LNormal s).
  destruct (lex LNormal s) as [ts|] eqn:E; [|done]. cbn [fmap option_fmap option_map mbind option_bind parse].
  destruct (decide _); [|done]. apply (parse_no_brace _ _ _ [] "" []); [|done]. by eapply lex_no_brace.
Qed.

(** ** Decimal numbers *)

Lemma is_digit_char d : 0 ≤ d < 10 → is_digit (digit_char d) = true ∧ (digit_char d = "0"%char → d = 0).
Proof.
  intros Hd. assert (d = 0 ∨ d = 1 ∨ d = 2 ∨ d = 3 ∨ d = 4 ∨ d = 5 ∨ d = 6 ∨ d = 7 ∨ d = 8 ∨ d = 9) by lia.
  destruct_or!; subst; done.
Qed.

Lemma valid_number_itoa_from fuel n acc :
  0 ≤ n < 10 ^ Z.of_nat fuel → (n = 0 → acc = "") → num_run NInt acc = true → fuel ≠ O →
  valid_number (itoa_from fuel n acc) = true.
Proof.
  revert n acc. induction fuel as [|fuel IH]; intros n acc Hn Hz Hacc Hf; [done|].
  rewrite Nat2Z.inj_succ, Z.pow_succ_r in Hn by lia. cbn [itoa_from].
  pose proof (Z.mod_pos_bound n 10 ltac:(lia)) as Hm. destruct (is_digit_char (n `mod` 10) Hm) as [Hdig H0].
  assert (num_run NInt (String (digit_char (n `mod` 10)) acc) = true) as Hr by (cbn [num_run num_step]; by rewrite Hdig).
  destruct (Z.ltb_spec n 10).
  - rewrite (Z.mod_small n 10) in * by lia. unfold valid_number. cbn [num_run num_step].
    destruct (decide (n = 0)) as [->|Hne]; [by rewrite Hz|].
    rewrite decide_False by (intros E; rewrite E in Hdig; done). rewrite decide_False by auto. by rewrite Hdig.
  - apply IH; [split; [apply Z.div_pos|apply Z.div_lt_upper_bound]; lia| |done|].
    + intros Hd. apply Z.div_small_iff in Hd; lia.
    + intros ->. cbn in Hn. lia.
Qed.

Lemma valid_number_Itoa n : 0 ≤ n < 2 ^ 64 → valid_number (strconv_Itoa n) = true.
Proof.
  intros Hn. apply valid_number_itoa_from; try done. change (10 ^ Z.of_nat 20) with 100000000000000000000. lia.
Qed.
