(* ===== verification/GoTime.v ===== *)
(** * Go's [time]: timestamps in JSON

    [Time.MarshalJSON] and [Time.UnmarshalJSON], that is RFC 3339 with a
    fraction of a second, on a civil date and time.  The state file's
    [unpacked_at] is one. *)

From S2P Require Import Prelude GoStrings.

(** A date and time as it is written; the zone is UTC ([None]) or an offset: its
    sign, hours and minutes. *)
Record Time := mkTime {
  tm_year : Z; tm_month : Z; tm_day : Z; tm_hour : Z; tm_min : Z; tm_sec : Z; tm_nsec : Z;
  tm_zone : option (bool * Z * Z);
}.

#[export] Instance Time_eq_dec : EqDecision Time.
Proof. solve_decision. Defined.

(** The zero [Time]: January 1 of year 1, UTC. *)
Definition Time_zero : Time := mkTime 1 1 1 0 0 0 0 None.

Definition isLeap (year : Z) : bool := (year mod 4 =? 0) && (negb (year mod 100 =? 0) || (year mod 400 =? 0)).
Definition daysIn (month year : Z) : Z :=
  if month =? 2 then (if isLeap year then 29 else 28)
  else if bool_decide (month ∈ [4; 6; 9; 11]) then 30 else 31.

Fixpoint stake (n : nat) (s : string) : string :=
  match n, s with
  | S n, String c s => String c (stake n s)
  | _, _ => ""
  end.

(** ** Formatting *)

(** The [n] lowest decimal digits of [x]. *)
Fixpoint digits (n : nat) (x : Z) : string :=
  match n with
  | O => ""
  | S n => digits n (x / 10) +:+ String (digit_char (x mod 10)) ""
  end.

(** The digits after the point, without trailing zeros. *)
Fixpoint fraction (n : nat) (x : Z) : string :=
  match n with
  | O => ""
  | S n' => if x mod 10 =? 0 then fraction n' (x / 10) else digits n x
  end.

Definition format_zone (z : option (bool * Z * Z)) : string :=
  match z with
  | None => "Z"
  | Some (neg, h, m) => (if neg : bool then "-" else "+") +:+ digits 2 h +:+ ":" +:+ digits 2 m
  end.

(** [Format(RFC3339Nano)] of a year of four digits. *)
Definition time_format (t : Time) : string :=
  digits 4 (tm_year t) +:+ "-" +:+ digits 2 (tm_month t) +:+ "-" +:+ digits 2 (tm_day t) +:+ "T" +:+
  digits 2 (tm_hour t) +:+ ":" +:+ digits 2 (tm_min t) +:+ ":" +:+ digits 2 (tm_sec t) +:+
  (match fraction 9 (tm_nsec t) with "" => "" | f => "." +:+ f end) +:+ format_zone (tm_zone t).

(** [MarshalJSON] fails on other years. *)
Definition time_marshal (t : Time) : option string :=
  if decide (0 ≤ tm_year t ≤ 9999) then Some (time_format t) else None.

(** ** Parsing *)

(** [parseUint(s, lo, hi)]. *)
Definition parse_range (s : string) (lo hi : Z) : option Z :=
  x ← digits_from s 10 0;
  if decide (lo ≤ x ≤ hi) then Some x else None.

(** The digits [s] starts with, and the rest. *)
Fixpoint span_digits (s : string) : string * string :=
  match s with
  | String c s' =>
      if bool_decide (48 ≤ N_of_ascii c ≤ 57)%N then let '(d, r) := span_digits s' in (String c d, r) else ("", s)
  | "" => ("", "")
  end.

(** [parseNanoseconds] of the digits after the point. *)
Definition parse_nanoseconds (ds : string) : Z :=
  let ds := stake 9 ds in
  default 0 (digits_from ds 10 0) * 10 ^ (9 - Z.of_nat (String.length ds)).

Definition parse_zone (s : string) : option (option (bool * Z * Z)) :=
  if decide (s = "Z") then Some None
  else match s with
  | String sign (String h1 (String h2 (String c (String m1 (String m2 ""))))) =>
      h ← parse_range (String h1 (String h2 "")) 0 23;
      m ← parse_range (String m1 (String m2 "")) 0 59;
      if decide ((sign = "-"%char ∨ sign = "+"%char) ∧ c = ":"%char) then Some (Some (bool_decide (sign = "-"%char), h, m)) else None
  | _ => None
  end.

(** [parseRFC3339]; [parseStrictRFC3339] accepts nothing more. *)
Definition time_parse (s : string) : option Time :=
  match s with
  | String y1 (String y2 (String y3 (String y4 (String c1 (String o1 (String o2 (String c2 (String d1 (String d2
      (String c3 (String h1 (String h2 (String c4 (String m1 (String m2 (String c5 (String s1 (String s2 rest)))))))))))))))))) =>
      year ← parse_range (String y1 (String y2 (String y3 (String y4 "")))) 0 9999;
      month ← parse_range (String o1 (String o2 "")) 1 12;
      day ← parse_range (String d1 (String d2 "")) 1 (daysIn month year);
      hour ← parse_range (String h1 (String h2 "")) 0 23;
      min ← parse_range (String m1 (String m2 "")) 0 59;
      sec ← parse_range (String s1 (String s2 "")) 0 59;
      if decide (c1 = "-" ∧ c2 = "-" ∧ c3 = "T" ∧ c4 = ":" ∧ c5 = ":")%char then
        let '(nsec, rest) :=
          match rest with
          | String "." r => let '(ds, r') := span_digits r in if decide (ds = "") then (0, rest) else (parse_nanoseconds ds, r')
          | _ => (0, rest)
          end in
        (λ z, mkTime year month day hour min sec nsec z) <$> parse_zone rest
      else None
  | _ => None
  end.

Example time1 : time_parse "2026-02-28T23:59:59.05Z" = Some (mkTime 2026 2 28 23 59 59 50000000 None).
Proof. reflexivity. Qed.
Example time2 : time_format (mkTime 2026 2 28 23 59 59 50000000 (Some (true, 3, 30))) = "2026-02-28T23:59:59.05-03:30".
Proof. reflexivity. Qed.
Example time3 : map time_parse ["2026-02-29T23:59:59Z"; "2026-1-28T23:59:59Z"; "2026-01-28T23:59:59"; "2026-01-28T23:59:59.Z"]
  = replicate 4 None.
Proof. reflexivity. Qed.

(** ** Round trip *)

Definition time_ok (t : Time) : Prop :=
  0 ≤ tm_year t ≤ 9999 ∧ 1 ≤ tm_month t ≤ 12 ∧ 1 ≤ tm_day t ≤ daysIn (tm_month t) (tm_year t) ∧
  0 ≤ tm_hour t ≤ 23 ∧ 0 ≤ tm_min t ≤ 59 ∧ 0 ≤ tm_sec t ≤ 59 ∧ 0 ≤ tm_nsec t < 1000000000 ∧
  match tm_zone t with Some (_, h, m) => 0 ≤ h ≤ 23 ∧ 0 ≤ m ≤ 59 | None => True end.

#[export] Instance time_ok_dec t : Decision (time_ok t).
Proof. unfold time_ok. repeat apply and_dec; try apply _. destruct (tm_zone t) as [[[] ]|]; apply _. Defined.

Lemma digits_length n x : String.length (digits n x) = n.
Proof. revert x. induction n as [|n IH]; intros x; [done|]. cbn [digits]. rewrite sapp_length, IH. cbn. lia. Qed.

Lemma digits_value n x m :
  0 ≤ x < 10 ^ Z.of_nat n → digits_from (digits n x) 10 m = Some (m * 10 ^ Z.of_nat n + x).
Proof.
  revert x m. induction n as [|n IH]; intros x m Hx.
  { cbn in *. f_equal. lia. }
  rewrite Nat2Z.inj_succ, Z.pow_succ_r in * by lia. cbn [digits]. rewrite digits_from_app, IH.
  - cbn [mbind option_bind digits_from]. pose proof (Z.mod_pos_bound x 10 ltac:(lia)).
    rewrite digit_val_char by lia. destruct (Z.leb_spec 10 (x mod 10)); [lia|]. f_equal.
    pose proof (Z.div_mod x 10 ltac:(lia)). lia.
  - split; [apply Z.div_pos|apply Z.div_lt_upper_bound]; lia.
Qed.

Lemma parse_digits n x lo hi :
  0 ≤ x < 10 ^ Z.of_nat n → lo ≤ x ≤ hi → parse_range (digits n x) lo hi = Some x.
Proof. intros Hx Hr. unfold parse_range. rewrite digits_value by done. cbn. by rewrite decide_True by lia. Qed.

Definition all_digits (s : string) : Prop :=
  forallb (λ c, bool_decide (48 ≤ N_of_ascii c ≤ 57)%N) (String.list_ascii_of_string s) = true.

Lemma all_digits_app s t : all_digits (s +:+ t) ↔ all_digits s ∧ all_digits t.
Proof.
  unfold all_digits. induction s as [|c s IH]; [by rewrite sapp_nil; split; [split|intros []]|].
  rewrite sapp_cons. cbn [String.list_ascii_of_string forallb]. rewrite !andb_true_iff, IH. tauto.
Qed.

Lemma digits_all n x : all_digits (digits n x).
Proof.
  revert x. induction n as [|n IH]; intros x; [done|]. cbn [digits]. apply all_digits_app. split; [apply IH|].
  pose proof (Z.mod_pos_bound x 10 ltac:(lia)) as Hd. revert Hd. generalize (x mod 10). intros d Hd.
  assert (d = 0 ∨ d = 1 ∨ d = 2 ∨ d = 3 ∨ d = 4 ∨ d = 5 ∨ d = 6 ∨ d = 7 ∨ d = 8 ∨ d = 9) by lia.
  destruct_or!; subst; done.
Qed.

(** The fraction is the number without its trailing zeros. *)
Lemma fraction_spec n x :
  0 ≤ x < 10 ^ Z.of_nat n →
  all_digits (fraction n x) ∧ (String.length (fraction n x) ≤ n)%nat ∧
  ∃ v, digits_from (fraction n x) 10 0 = Some v ∧ v * 10 ^ (Z.of_nat n - Z.of_nat (String.length (fraction n x))) = x.
Proof.
  revert x. induction n as [|n IH]; intros x Hx.
  { cbn in Hx. split_and!; [done..|]. exists 0. split; [done|]. lia. }
  cbn [fraction]. destruct (Z.eqb_spec (x mod 10) 0) as [E|E].
  - pose proof (Z.div_mod x 10 ltac:(lia)) as Hdm.
    rewrite Nat2Z.inj_succ, Z.pow_succ_r in Hx by lia.
    destruct (IH (x / 10)) as (Ha & Hl & v & Hv & Hs); [split; [apply Z.div_pos|apply Z.div_lt_upper_bound]; lia|].
    split_and!; [done|lia|]. exists v. split; [done|].
    replace (Z.of_nat (S n) - _) with (Z.succ (Z.of_nat n - Z.of_nat (String.length (fraction n (x / 10))))) by lia.
    rewrite Z.pow_succ_r by lia. rewrite Z.mul_assoc, (Z.mul_comm v 10), <-Z.mul_assoc, Hs. lia.
  - rewrite digits_length. split_and!; [apply digits_all|done|]. exists x. rewrite digits_value by done.
    split; [done|]. rewrite Z.sub_diag. lia.
Qed.

Lemma stake_all n s : (String.length s ≤ n)%nat → stake n s = s.
Proof. revert s. induction n as [|n IH]; intros [|c s] Hl; cbn in *; [done|lia|done|]. by rewrite IH by lia. Qed.

Lemma span_digits_app ds c r :
  all_digits ds → bool_decide (48 ≤ N_of_ascii c ≤ 57)%N = false → span_digits (ds +:+ String c r) = (ds, String c r).
Proof.
  unfold all_digits. intros Hd Hc. induction ds as [|d ds IH].
  - rewrite sapp_nil. cbn [span_digits]. by rewrite Hc.
  - cbn [String.list_ascii_of_string forallb] in Hd. apply andb_true_iff in Hd as [H1 H2].
    rewrite sapp_cons. cbn [span_digits]. by rewrite H1, IH.
Qed.

(** The fraction and the zone, read back. *)
Definition parse_rest (rest : string) : Z * string :=
  match rest with
  | String "." r => let '(ds, r') := span_digits r in if decide (ds = "") then (0, rest) else (parse_nanoseconds ds, r')
  | _ => (0, rest)
  end.

Definition format_fraction (nsec : Z) : string := match fraction 9 nsec with "" => "" | f => "." +:+ f end.

Lemma format_zone_head z : ∃ c r, format_zone z = String c r ∧ c ≠ "."%char ∧ bool_decide (48 ≤ N_of_ascii c ≤ 57)%N = false.
Proof. destruct z as [[[[] h] m]|]; by eexists _, _. Qed.

Lemma parse_rest_format nsec z :
  0 ≤ nsec < 1000000000 → parse_rest (format_fraction nsec +:+ format_zone z) = (nsec, format_zone z).
Proof.
  intros Hn. destruct (format_zone_head z) as (c & r & -> & Hdot & Hc).
  destruct (fraction_spec 9 nsec) as (Ha & Hl & v & Hv & Hs); [done|]. unfold format_fraction.
  destruct (fraction 9 nsec) as [|d f] eqn:E.
  - cbn in Hv. injection Hv as <-. rewrite sapp_nil. unfold parse_rest.
    replace nsec with 0 by lia. destruct c as [[] [] [] [] [] [] [] []]; done.
  - rewrite <-E in *. change ("." +:+ ?t) with (String "." t). rewrite sapp_cons. unfold parse_rest.
    rewrite span_digits_app by done. rewrite decide_False by by rewrite E.
    unfold parse_nanoseconds. rewrite stake_all, Hv by done. change (Z.of_nat 9) with 9 in Hs. by rewrite <-Hs at 2.
Qed.

Lemma parse_zone_format z :
  match z with Some (_, h, m) => 0 ≤ h ≤ 23 ∧ 0 ≤ m ≤ 59 | None => True end → parse_zone (format_zone z) = Some z.
Proof.
  destruct z as [[[neg h] m]|]; [|done]. intros [Hh Hm].
  transitivity (h' ← parse_range (digits 2 h) 0 23; m' ← parse_range (digits 2 m) 0 59; Some (Some (neg, h', m'))).
  { unfold parse_zone. rewrite decide_False by by destruct neg.
    by destruct neg. }
  rewrite !parse_digits by lia. done.
Qed.

Lemma time_parse_format t : time_ok t → time_parse (time_format t) = Some t.
Proof.
  destruct t as [year month day hour min sec nsec zone]. intros (Hy & Hmo & Hd & Hh & Hmi & Hs & Hn & Hz). cbn in *.
  transitivity (
    year ← parse_range (digits 4 year) 0 9999; month ← parse_range (digits 2 month) 1 12;
    day ← parse_range (digits 2 day) 1 (daysIn month year); hour ← parse_range (digits 2 hour) 0 23;
    min ← parse_range (digits 2 min) 0 59; sec ← parse_range (digits 2 sec) 0 59;
    let '(nsec, rest) := parse_rest (format_fraction nsec +:+ format_zone zone) in
    (λ z, mkTime year month day hour min sec nsec z) <$> parse_zone rest).
  { reflexivity. }
  assert (day < 10 ^ Z.of_nat 2) as Hd2.
  { unfold daysIn in Hd. repeat case_match; cbn; lia. }
  rewrite !parse_digits by (done || cbn; lia). cbn [mbind option_bind].
  rewrite !parse_digits by (done || cbn; lia). cbn [mbind option_bind].
  rewrite parse_rest_format by done. by rewrite parse_zone_format.
Qed.

(** A fraction of any number is made of digits. *)
Lemma fraction_digits n x : all_digits (fraction n x).
Proof.
  revert x. induction n as [|n IH]; intros x; [done|]. cbn [fraction].
  destruct (x mod 10 =? 0); [apply IH|apply digits_all].
Qed.
