(* ===== verification/LoWire.v ===== *)
(** * internal/lo: the events of /watch on the wire

    [handleWatch] writes the snapshot, the sync marker and the subscriber's
    events as JSON, one per line; [watchOnce] of a peer and of the client scan
    the lines and decode them ([types.go] has the struct tags). *)

From S2P Require Import Prelude GoStrings GoJSON GoJSONFacts LoTypes LoWatcher ClientWatcher.

(** ** The struct [Event], with [Listen] embedded *)

Definition Event_json (ev : Event) : json :=
  let l := ev_listen ev in
  JObj [("op", JStr (ev_op ev)); ("stack", JStr (l_stack l)); ("proto", JStr (l_proto l));
        ("addr", JStr (l_addr l)); ("port", JNum (strconv_Itoa (l_port l)))].

Definition with_listen (f : Listen → Listen) (ev : Event) : Event := mkEvent (ev_op ev) (f (ev_listen ev)).

Definition Event_fields : list (string * (json → Event → option Event)) :=
  [ field_of "op" decode_string ev_op (λ op ev, mkEvent op (ev_listen ev));
    field_of "stack" decode_string (λ ev, l_stack (ev_listen ev))
      (λ v, with_listen (λ l, mkListen v (l_proto l) (l_addr l) (l_port l)));
    field_of "proto" decode_string (λ ev, l_proto (ev_listen ev))
      (λ v, with_listen (λ l, mkListen (l_stack l) v (l_addr l) (l_port l)));
    field_of "addr" decode_string (λ ev, l_addr (ev_listen ev))
      (λ v, with_listen (λ l, mkListen (l_stack l) (l_proto l) v (l_port l)));
    field_of "port" (decode_uint 16) (λ ev, l_port (ev_listen ev))
      (λ v, with_listen (λ l, mkListen (l_stack l) (l_proto l) (l_addr l) v)) ].

Definition Event_zero : Event := mkEvent "" Listen_zero.

(** [var ev Event; json.Unmarshal(line, &ev)]. *)
Definition Event_Unmarshal (line : string) : option Event := json_Unmarshal Event_fields line Event_zero.

(** ** handleWatch *)

(** Events encoded one after the other. *)
Definition encode_all (evs : list Event) : string := foldr (λ ev rest, json_Encode (Event_json ev) +:+ rest) "" evs.

(** What the handler writes for a snapshot and the events it then receives. *)
Definition watch_body (snapshot : list Listen) (events : list Event) : string :=
  encode_all ((ev_add <$> snapshot) ++ [ev_sync] ++ events).

(** The lines of a body, decoded: what [watchOnce] loops over. *)
Definition watch_lines (body : string) : list (option Event) := Event_Unmarshal <$> (ScanLines body).1.

(** ** Round trip *)

Definition Event_ok (ev : Event) : Prop :=
  let l := ev_listen ev in
  utf8_valid (ev_op ev) ∧ utf8_valid (l_stack l) ∧ utf8_valid (l_proto l) ∧ utf8_valid (l_addr l) ∧ 0 ≤ l_port l < 2 ^ 16.

Lemma Event_json_ok ev : Event_ok ev → json_ok (Event_json ev).
Proof. intros (? & ? & ? & ? & ?). cbn. split_and!; try done. apply valid_number_Itoa. lia. Qed.

Lemma Event_decode ev : 0 ≤ l_port (ev_listen ev) < 2 ^ 16 → decode_struct Event_fields (Event_json ev) Event_zero = Some ev.
Proof.
  intros Hp. destruct ev as [op [stack proto addr port]]. cbn in Hp. unfold Event_json. cbn [ev_op ev_listen l_stack l_proto l_addr l_port].
  pose proof (ParseUint_Itoa port 16 ltac:(lia) Hp) as E. revert E. generalize (strconv_Itoa port). intros lit E.
  transitivity (r ← decode_uint 16 (JNum lit) 0; Some (mkEvent op (mkListen stack proto addr r))).
  - reflexivity.
  - cbn. by rewrite E.
Qed.

Lemma Event_Unmarshal_Marshal ev : Event_ok ev → Event_Unmarshal (json_Marshal (Event_json ev)) = Some ev.
Proof.
  intros Hok. unfold Event_Unmarshal, json_Unmarshal. rewrite parse_Marshal; [|by apply Event_json_ok|].
  - apply Event_decode. apply Hok.
  - cbn. unfold maxNestingDepth. lia.
Qed.

(** An event as the wire carries it: its line fits the reader's buffer. *)
Definition wire_ok (ev : Event) : Prop :=
  Event_ok ev ∧ Z.of_nat (String.length (json_Marshal (Event_json ev))) < MaxScanTokenSize.

Lemma encode_all_app evs evs' : encode_all (evs ++ evs') = encode_all evs +:+ encode_all evs'.
Proof. unfold encode_all. induction evs as [|ev evs IH]; [done|]. cbn. by rewrite IH, sapp_assoc. Qed.

Lemma body_lines evs : encode_all evs = file_of_lines ((λ ev, json_Marshal (Event_json ev)) <$> evs).
Proof.
  induction evs as [|ev evs IH]; [done|]. rewrite fmap_cons. cbn [encode_all foldr]. fold (encode_all evs). rewrite IH.
  unfold json_Encode. rewrite sapp_assoc. reflexivity.
Qed.

(** What was encoded is what is decoded. *)
Lemma watch_lines_all evs : Forall wire_ok evs → watch_lines (encode_all evs) = Some <$> evs.
Proof.
  intros Hall. unfold watch_lines. rewrite body_lines, ScanLines_file.
  - cbn [fst]. rewrite <-list_fmap_compose. induction Hall as [|ev evs [Hok _] _ IH]; [done|].
    rewrite !fmap_cons, IH. f_equal. by apply Event_Unmarshal_Marshal.
  - rewrite Forall_fmap. eapply Forall_impl; [exact Hall|]. intros ev [Hok Hlen].
    apply Marshal_plain; [by apply Event_json_ok|done].
Qed.

Lemma watch_lines_body snapshot events :
  Forall wire_ok ((ev_add <$> snapshot) ++ events) →
  watch_lines (watch_body snapshot events) = Some <$> ((ev_add <$> snapshot) ++ [ev_sync] ++ events).
Proof.
  intros [H1 H2]%Forall_app. apply watch_lines_all, Forall_app. split; [done|]. by constructor.
Qed.

(** ** What the client makes of the stream *)

Lemma announced_events S evs : announced S (Some <$> evs) = apply_events S evs.
Proof.
  revert S. induction evs as [|ev evs IH]; intros S; [done|]. rewrite fmap_cons.
  transitivity (announced (apply_event S ev) (Some <$> evs)); [|apply IH].
  cbn [announced]. unfold apply_event. by repeat case_decide.
Qed.

Lemma announced_app S ls ls' : announced S (ls ++ ls') = announced (announced S ls) ls'.
Proof. revert S. induction ls as [|[ev|] ls IH]; intros S; cbn [announced app]; [done| |apply IH]. repeat case_decide; apply IH. Qed.

Lemma apply_adds S ls : apply_events S (ev_add <$> ls) = S ∪ list_to_set ls.
Proof.
  revert S. induction ls as [|l ls IH]; intros S; [cbn; by rewrite union_empty_r_L|]. rewrite fmap_cons.
  unfold apply_events in *. cbn [foldl]. rewrite IH. cbn [list_to_set].
  change (apply_event S (ev_add l)) with ({[l]} ∪ S). by rewrite (union_comm_L {[l]} S), union_assoc_L.
Qed.

Lemma honest_adds S ls lines :
  Forall (λ l, (l_stack l = V4 ∨ l_stack l = V6) ∧ 0 ≤ l_port l < 2 ^ 16) ls →
  honest false (S ∪ list_to_set ls) lines → honest false S ((Some <$> (ev_add <$> ls)) ++ lines).
Proof.
  intros H. revert S. induction H as [|l ls [Hs Hp] _ IH]; intros S Hh; [cbn in *; by rewrite union_empty_r_L in Hh|].
  rewrite !fmap_cons. cbn [app]. rewrite honest_add. split_and!; [done|lia|lia|done|].
  apply IH. by rewrite (union_comm_L {[l]} S), <-union_assoc_L.
Qed.

(** ** Theorem *)

(** From a container's watcher to a client's consumer, through the bytes of
    /watch: when the handler streams a snapshot and then events that are
    consistent with it (as a subscriber's are), the client's watcher ends up
    counting exactly the ports of the listens the container then advertises, and
    a consumer of what it emitted has exactly those open. *)
Theorem watch_end_to_end name range cb snapshot events :
  (∀ cs, range cs ≡ₚ elements (dom cs)) →
  Forall wire_ok ((ev_add <$> snapshot) ++ events) →
  Forall (λ l, l_stack l = V4 ∨ l_stack l = V6) snapshot →
  honest true (list_to_set snapshot) (Some <$> events) →
  let r := watchOnce name range cb (Some (watch_lines (watch_body snapshot events))) ∅ in
  dom r.1 = set_map key_of (apply_events (list_to_set snapshot) events) ∧
  consume ∅ r.2 = Some (ids name (dom r.1)).
Proof.
  intros Hr Hw Hs He. cbn zeta. rewrite watch_lines_body by done.
  set (lines := Some <$> _). set (r := watchOnce _ _ _ _ _).
  assert (honest false ∅ lines) as Hh.
  { unfold lines. rewrite fmap_app. apply honest_adds.
    - apply Forall_app in Hw as [Hw _]. rewrite Forall_fmap in Hw. rewrite Forall_forall in *. intros l Hl.
      split; [by apply Hs|]. destruct (Hw l Hl) as [(_ & _ & _ & _ & Hp) _]. exact Hp.
    - rewrite union_empty_l_L, fmap_app. cbn [app fmap list_fmap]. rewrite honest_sync. by split. }
  destruct (watchOnce_tells name range Hr cb (Some lines) ∅ r.1 r.2) as (_ & Ht & Hd).
  - done.
  - apply counting_empty.
  - done.
  - apply surjective_pairing.
  - split; [|exact Ht]. rewrite (Hd lines eq_refl).
    + f_equal. unfold lines. rewrite announced_events. unfold apply_events. rewrite !foldl_app.
      fold (apply_events ∅ (ev_add <$> snapshot)). rewrite apply_adds, union_empty_l_L. reflexivity.
    + unfold lines. rewrite fmap_app. unfold has_sync. rewrite existsb_app. by rewrite orb_true_r.
Qed.

Definition l53 : Listen := mkListen V4 UDP "127.0.0.1" 53.

Lemma watch_end_to_end_witness :
  let body := watch_body [l80; l53] [ev_remove l80] in
  let r := watchOnce "web" by_keys false (Some (watch_lines body)) ∅ in
  dom r.1 = set_map key_of (apply_events (list_to_set [l80; l53]) [ev_remove l80]) ∧
  consume ∅ r.2 = Some (ids "web" (dom r.1)).
Proof.
  apply (watch_end_to_end "web" by_keys false [l80; l53] [ev_remove l80]).
  - done.
  - by apply (bool_decide_unpack _).
  - repeat constructor; by left.
  - cbn [fmap list_fmap]. rewrite honest_remove. split; [|done]. intros _. apply elem_of_list_to_set. left.
Defined.
