(* ===== verification/LoListens.v ===== *)
(** * internal/lo: what a listen is

    The promise of [types.go] on every [Listen] the package tracks, established
    where listens are born ([proc.go]) and in the form the wire needs: an event
    about such a listen is a line any reader of /watch decodes. *)

From S2P Require Import Prelude GoStrings GoNet GoJSON GoJSONFacts LoTypes LoProc LoTcp LoWatcher LoWire.

(** ** The type *)

(** A family, a protocol, a 16-bit port, and the text of a loopback or unspecified
    address. *)
Record Listen_typed (l : Listen) : Prop := {
  lt_stack : l_stack l = V4 ∨ l_stack l = V6;
  lt_proto : l_proto l = TCP ∨ l_proto l = UDP;
  lt_port : 0 ≤ l_port l < 2 ^ 16;
  lt_addr : ∃ ip, lo_or_unspec ip = true ∧ l_addr l = IP_String ip;
}.

(** What a watcher publishes. *)
Definition change_typed (ev : Event) : Prop := (ev_op ev = "add" ∨ ev_op ev = "remove") ∧ Listen_typed (ev_listen ev).
(** What a handler writes. *)
Definition Event_typed (ev : Event) : Prop := ev = ev_sync ∨ change_typed ev.

Lemma procNetFiles_typed path proto stack :
  (path, proto, stack) ∈ procNetFiles → (stack = V4 ∨ stack = V6) ∧ (proto = TCP ∨ proto = UDP).
Proof. rewrite list_elem_of_In. cbn. intros H. destruct_or?; simplify_eq; auto. Qed.

(** Whatever the tables hold. *)
Lemma scanProcNet_typed fs raw l : scanProcNet fs = Some raw → l ∈ raw → Listen_typed l.
Proof.
  intros Hs Hl. apply (elem_of_scan_files _ _ _ _ Hs) in Hl as [[]%not_elem_of_empty|(path & proto & stack & ls & line & Hf & _ & _ & Hp)].
  apply procNetFiles_typed in Hf as [Hst Hpr]. apply parseProcNetLine_Some in Hp as (ip & <- & <- & Ha & Hlo & Hport).
  split; [done..|]. by exists ip.
Qed.

(** ** Its text *)

(** The text is copied by [quote], byte for byte. *)
Fixpoint html_text (s : string) : bool :=
  match s with
  | "" => true
  | String c s' => html_safe c && html_text s'
  end.

Lemma html_text_lacks s : (∀ c, html_safe c = false → lacks c s) → html_text s = true.
Proof.
  induction s as [|d s IH]; intros H; [done|]. cbn [html_text]. apply andb_true_iff. split.
  - apply not_false_iff_true. intros Hd. by apply H, lacks_cons in Hd as [? _].
  - apply IH. intros c Hc. by apply H, lacks_cons in Hc as [_ ?].
Qed.

Lemma html_text_quote s : html_text s = true → quote s = dq s.
Proof.
  intros H. unfold quote, dq. do 2 f_equal. induction s as [|c s IH]; [done|].
  cbn in H. apply andb_true_iff in H as [Hc Hs]. cbn [quote_from]. by rewrite Hc, IH.
Qed.

Lemma html_text_utf8 s : html_text s = true → utf8_valid s.
Proof.
  intros H. apply ascii_only_utf8. unfold ascii_only. induction s as [|c s IH]; [done|].
  cbn in H |- *. apply andb_true_iff in H as [Hc Hs]. rewrite IH, andb_true_r by done.
  unfold html_safe, in_range in Hc |- *. apply andb_true_iff in Hc as [Hc _].
  apply bool_decide_eq_true in Hc. apply bool_decide_eq_true. lia.
Qed.

Lemma itoa_from_length fuel n acc : (String.length (itoa_from fuel n acc) ≤ fuel + String.length acc)%nat.
Proof.
  revert n acc. induction fuel as [|fuel IH]; intros n acc; [done|]. cbn [itoa_from].
  destruct (n <? 10); [cbn; lia|]. specialize (IH (n `div` 10) (String (digit_char (n `mod` 10)) acc)). cbn in IH. lia.
Qed.
Lemma Itoa_length n : (String.length (strconv_Itoa n) ≤ 20)%nat.
Proof. pose proof (itoa_from_length 20 n ""). unfold strconv_Itoa. cbn [String.length] in *. lia. Qed.

Lemma Join_length_le ws sep k :
  Forall (λ w, (String.length w ≤ k)%nat) ws →
  (String.length (strings_Join ws sep) ≤ length ws * (k + String.length sep))%nat.
Proof.
  induction 1 as [|w ws Hw _ IH]; [done|]. destruct (decide (ws = [])) as [->|]; [cbn; lia|].
  rewrite Join_cons by done. rewrite !sapp_length. cbn [length]. lia.
Qed.

Lemma decimal_html_safe c : is_decimal c = true → html_safe c = true.
Proof. destruct c as [[] [] [] [] [] [] [] []]; by vm_compute. Qed.

(** The text of a loopback or unspecified address: a dotted quad, [::1] or [::]. *)
Lemma lo_text ip :
  lo_or_unspec ip = true → html_text (IP_String ip) = true ∧ (String.length (IP_String ip) ≤ 84)%nat.
Proof.
  intros [(ip4 & H4 & _)|[-> | ->]]%lo_or_unspec_inv; [|vm_compute; split; [done|lia]..].
  pose proof (IP_To4_length _ _ H4) as Hl. rewrite (IP_String_To4 _ _ H4). split.
  - apply html_text_lacks. intros c Hc. apply dotted_lacks; [|by intros ->].
    apply not_true_iff_false. intros Hd%decimal_html_safe. congruence.
  - unfold dotted. etrans; [apply (Join_length_le _ _ 20)|].
    + rewrite Forall_fmap. apply Forall_true. intros; apply Itoa_length.
    + rewrite length_map, Hl. cbn. lia.
Qed.

Lemma Listen_typed_addr l :
  Listen_typed l → html_text (l_addr l) = true ∧ (String.length (l_addr l) ≤ 84)%nat ∧ isLoopbackOrUnspecified (l_addr l) = true.
Proof.
  intros [_ _ _ (ip & Hlo & ->)]. destruct (lo_text ip Hlo) as [? ?]. split_and!; [done..|].
  apply lo_or_unspec_inv in Hlo as Hi. destruct Hi as [(ip4 & H4 & Hh)|[-> | ->]]; [|by vm_compute..].
  rewrite (isLoopbackOrUnspecified_v4 _ _ H4). apply lo_or_unspec_inv. left. exists ip4.
  split; [unfold IP_To4; by rewrite decide_True by eauto using IP_To4_length|done].
Qed.

(** ** On the wire *)

Lemma dq_length s : String.length (dq s) = (2 + String.length s)%nat.
Proof. unfold dq. cbn [String.length]. rewrite sapp_length. cbn. lia. Qed.

(** An event whose strings are copied as they are. *)
Lemma Event_line ev :
  html_text (ev_op ev) = true → html_text (l_stack (ev_listen ev)) = true →
  html_text (l_proto (ev_listen ev)) = true → html_text (l_addr (ev_listen ev)) = true →
  json_Marshal (Event_json ev) =
    "{" +:+ dq "op" +:+ ":" +:+ dq (ev_op ev) +:+ "," +:+ dq "stack" +:+ ":" +:+ dq (l_stack (ev_listen ev)) +:+ "," +:+
    dq "proto" +:+ ":" +:+ dq (l_proto (ev_listen ev)) +:+ "," +:+ dq "addr" +:+ ":" +:+ dq (l_addr (ev_listen ev)) +:+ "," +:+
    dq "port" +:+ ":" +:+ strconv_Itoa (l_port (ev_listen ev)) +:+ "}".
Proof.
  intros H1 H2 H3 H4. unfold json_Marshal, Event_json. cbn [render map fst snd].
  rewrite !html_text_quote by done. cbn [strings_Join]. rewrite !sapp_assoc. reflexivity.
Qed.

Lemma html_wire_ok ev :
  html_text (ev_op ev) = true → html_text (l_stack (ev_listen ev)) = true →
  html_text (l_proto (ev_listen ev)) = true → html_text (l_addr (ev_listen ev)) = true →
  0 ≤ l_port (ev_listen ev) < 2 ^ 16 →
  (String.length (ev_op ev) + String.length (l_stack (ev_listen ev)) + String.length (l_proto (ev_listen ev)) +
    String.length (l_addr (ev_listen ev)) ≤ 1000)%nat →
  wire_ok ev.
Proof.
  intros H1 H2 H3 H4 Hp Hl. split; [unfold Event_ok; split_and!; (by apply html_text_utf8) || lia|].
  rewrite Event_line by done. rewrite !sapp_length, !dq_length. cbn [String.length].
  pose proof (Itoa_length (l_port (ev_listen ev))). unfold MaxScanTokenSize. lia.
Qed.

Lemma Event_typed_wire ev : Event_typed ev → wire_ok ev.
Proof.
  intros [->|[Hop Hl]]; [apply html_wire_ok; cbn; done || lia|].
  destruct (Listen_typed_addr _ Hl) as (Ht & Hlen & _). destruct Hl as [Hs Hp Hport _].
  destruct ev as [op [stack proto addr port]]. cbn in *.
  apply html_wire_ok; cbn; destruct Hop as [-> | ->], Hs as [-> | ->], Hp as [-> | ->]; cbn; done || lia.
Qed.
