(* ===== verification/LoServer.v ===== *)
(** * internal/lo: serving /watch

    [handleWatch] of [server.go] as a process: every connection has a handler
    that subscribes, encodes, flushes and selects, in steps interleaved with
    those of the other handlers and of the watcher, which scans the tables of
    [proc.go].  What a peer's manager and a client make of what was flushed is
    compared with what the container listens on. *)

From stdpp Require Import sorting.
From S2P Require Import Prelude GoStrings GoJSON LoTypes ClientWatcher LoProc LoWatcher LoWire LoListens LoPeer.

(** ** The handler *)

(** Where it is: with events to encode before the next [Flush] (the snapshot and
    the marker, or one event), in the [select], or returned. *)
Inductive handler_pc :=
  | Encoding (todo : list Event)
  | Selecting
  | Returned.

#[export] Instance handler_pc_eq_dec : EqDecision handler_pc.
Proof. solve_decision. Defined.

(** Its channel, what it has encoded, and how much of it was flushed: the other
    side has received at least [hd_flushed] and at most [hd_written]. *)
Record watch_handler := mkHandler {
  hd_ch : nat;
  hd_pc : handler_pc;
  hd_written : string;
  hd_flushed : string;
}.

(** Up to the loop over the snapshot.  [flusher]: the response writer is an
    [http.Flusher]; [Err] is the status of [http.Error]. *)
Definition handleWatch_open (flusher : bool) (w : Watcher) : res Z watch_handler * Watcher :=
  if negb flusher then (Err 500, w)
  else
    let '(ch, snapshot, w) := Subscribe w in
    (Ok (mkHandler ch (Encoding ((ev_add <$> snapshot) ++ [ev_sync])) "" ""), w).

(** [enc.Encode] of the next event, and [flusher.Flush] after the last. *)
Definition handler_encode (h : watch_handler) : option watch_handler :=
  match hd_pc h with
  | Encoding (ev :: todo) =>
      let written := hd_written h +:+ json_Encode (Event_json ev) in
      Some (match todo with
            | [] => mkHandler (hd_ch h) Selecting written written
            | _ => mkHandler (hd_ch h) (Encoding todo) written (hd_flushed h)
            end)
  | _ => None
  end.

(** A [return]: the deferred [cancel] runs. *)
Definition handler_return (written : string) (h : watch_handler) (w : Watcher) : watch_handler * Watcher :=
  (mkHandler (hd_ch h) Returned written (hd_flushed h), cancel (hd_ch h) w).

(** [enc.Encode] fails, after it has written [part] of the line. *)
Definition handler_encode_error (part : string) (h : watch_handler) (w : Watcher) : option (watch_handler * Watcher) :=
  match hd_pc h with
  | Encoding (ev :: _) =>
      if String.prefix part (json_Encode (Event_json ev)) then Some (handler_return (hd_written h +:+ part) h w) else None
  | _ => None
  end.

(** The first case of the [select]; [None] where it blocks. *)
Definition handler_event (h : watch_handler) (w : Watcher) : option (watch_handler * Watcher) :=
  match hd_pc h with
  | Selecting =>
      match receive (hd_ch h) w with
      | Some (ev, w') => Some (mkHandler (hd_ch h) (Encoding [ev]) (hd_written h) (hd_flushed h), w')
      | None =>
          match w_chans w !! hd_ch h with
          | Some (mkChan _ true) => Some (handler_return (hd_written h) h w)
          | _ => None
          end
      end
  | _ => None
  end.

(** The second case: the request's context is done. *)
Definition handler_gone (h : watch_handler) (w : Watcher) : option (watch_handler * Watcher) :=
  match hd_pc h with
  | Selecting => Some (handler_return (hd_written h) h w)
  | _ => None
  end.

(** ** The server *)

(** The watcher and the handlers by connection. *)
Record server := mkServer {
  sv_watcher : Watcher;
  sv_handlers : gmap nat watch_handler;
}.

(** The steps of the handler of connection [i]. *)
Inductive serve_step (i : nat) : server → server → Prop :=
  | serve_encode w hs h h' :
      hs !! i = Some h → handler_encode h = Some h' →
      serve_step i (mkServer w hs) (mkServer w (<[i := h']> hs))
  | serve_encode_error w hs h part h' w' :
      hs !! i = Some h → handler_encode_error part h w = Some (h', w') →
      serve_step i (mkServer w hs) (mkServer w' (<[i := h']> hs))
  | serve_event w hs h h' w' :
      hs !! i = Some h → handler_event h w = Some (h', w') →
      serve_step i (mkServer w hs) (mkServer w' (<[i := h']> hs))
  | serve_gone w hs h h' w' :
      hs !! i = Some h → handler_gone h w = Some (h', w') →
      serve_step i (mkServer w hs) (mkServer w' (<[i := h']> hs)).

(** [fs] is what the tables hold when a scan reads them. *)
Inductive server_step : server → server → Prop :=
  | server_scan w hs fs next_order current_order :
      (∀ r, scanProcNet fs = Some r → next_order ≡ₚ elements (scan_next w r)) →
      current_order ≡ₚ elements (w_current w) →
      server_step (mkServer w hs) (mkServer (scanOnce_in next_order current_order (scanProcNet fs) w) hs)
  | server_exclude w hs l : server_step (mkServer w hs) (mkServer (Exclude l w) hs)
  | server_unexclude w hs l : server_step (mkServer w hs) (mkServer (Unexclude l w) hs)
  | server_open w hs i h w' :
      hs !! i = None → handleWatch_open true w = (Ok h, w') →
      server_step (mkServer w hs) (mkServer w' (<[i := h]> hs))
  | server_serve i s s' : serve_step i s s' → server_step s s'.

Definition server_reachable : server → Prop := rtc server_step (mkServer NewWatcher ∅).

(** ** The readers *)

(** The lines of a stream as a peer's manager sees them, where binding [l] succeeds
    if [bind l]. *)
Definition peer_lines (bind : Listen → bool) (body : string) : list watch_line :=
  (λ o : option Event, match o with None => Malformed | Some ev => Decoded ev (bind (ev_listen ev)) end) <$> watch_lines body.

(** The handler waits in the [select] and nothing is queued for it. *)
Definition idle (s : server) (i : nat) (h : watch_handler) : Prop :=
  sv_handlers s !! i = Some h ∧ hd_pc h = Selecting ∧ w_chans (sv_watcher s) !! hd_ch h = Some (mkChan [] false).

(** ** Queues hold real changes *)

(** [ev] changes [S]. *)
Definition changes (S : gset Listen) (ev : Event) : Prop :=
  (ev = ev_add (ev_listen ev) ∧ ev_listen ev ∉ S) ∨ (ev = ev_remove (ev_listen ev) ∧ ev_listen ev ∈ S).

Fixpoint consistent (S : gset Listen) (evs : list Event) : Prop :=
  match evs with
  | [] => True
  | ev :: evs => changes S ev ∧ consistent (apply_event S ev) evs
  end.

Lemma consistent_app S evs evs' : consistent S (evs ++ evs') ↔ consistent S evs ∧ consistent (apply_events S evs) evs'.
Proof. revert S. induction evs as [|ev evs IH]; intros S; cbn; [tauto|]. rewrite IH. unfold apply_events. tauto. Qed.

(** Every queue, whether its subscriber was dropped or not. *)
Definition steady (w : Watcher) (vs : gmap nat (gset Listen)) : Prop :=
  ∀ ch c v, w_chans w !! ch = Some c → vs !! ch = Some v → consistent v (ch_buf c).

Definition watched (S : gset Listen) (w : Watcher) (vs : gmap nat (gset Listen)) : Prop := tracks S w vs ∧ steady w vs.

Lemma watched_publish S w vs ev : changes S ev → watched S w vs → watched (apply_event S ev) (publish ev w) vs.
Proof.
  intros Hev [Ht Hs]. split; [by apply tracks_publish|]. intros ch c' v. unfold publish.
  rewrite publish_in_chans by apply NoDup_elements. case_decide as Hin; [|by apply Hs].
  intros (c & Ec & ->)%fmap_Some Ev. specialize (Hs ch c v Ec Ev). unfold deliver. case_decide; [done|].
  cbn. apply consistent_app. split; [done|]. apply elem_of_elements in Hin.
  destruct (proj1 Ht ch Hin) as (c0 & v0 & ? & ? & Hv). simplify_eq. by split.
Qed.

Lemma watched_added order w vs S :
  NoDup order → (∀ l, l ∈ order → l ∉ w_current w → l ∉ S) → w_current w ⊆ S →
  watched S w vs → watched (S ∪ list_to_set order) (publish_added order w) vs.
Proof.
  unfold publish_added. intros Hnd. revert w S. induction Hnd as [|l order Hl _ IH]; intros w S Hnew Hsub H; cbn.
  { by rewrite union_empty_r_L. }
  rewrite union_assoc_L. case_decide as Hc.
  - assert (S ∪ {[l]} = S) as -> by (apply set_eq; intros x; rewrite elem_of_union, elem_of_singleton; split; [intros [?| ->]; auto|auto]).
    apply IH; [|done..]. intros x Hx. apply Hnew. by right.
  - assert (apply_event S (ev_add l) = S ∪ {[l]}) as Ea by (unfold apply_event; simpl; apply union_comm_L).
    rewrite <-Ea. destruct (publish_static (ev_add l) w) as [Ecur _].
    apply IH; rewrite ?Ecur, ?Ea.
    + intros x Hx Hn. rewrite elem_of_union, elem_of_singleton. intros [?| ->]; [|done].
      eapply Hnew; [by right|exact Hn|done].
    + etrans; [exact Hsub|]. apply union_subseteq_l.
    + rewrite <-Ea. apply watched_publish; [|done]. left. split; [done|]. apply Hnew; [by left|done].
Qed.

Lemma watched_removed next order w vs S :
  NoDup order → (∀ l, l ∈ order → l ∈ S) →
  watched S w vs → watched (S ∖ (list_to_set order ∖ next)) (publish_removed next order w) vs.
Proof.
  unfold publish_removed. intros Hnd. revert w S. induction Hnd as [|l order Hl _ IH]; intros w S Hin H; cbn.
  { replace (S ∖ (∅ ∖ next)) with S by set_solver. done. }
  assert (∀ x, x ∈ order → x ∈ S) as Hin' by (intros; apply Hin; by right).
  case_decide as Hc.
  - assert (({[l]} ∪ list_to_set order) ∖ next = list_to_set order ∖ next) as -> by set_solver. by apply IH.
  - assert (S ∖ (({[l]} ∪ list_to_set order) ∖ next) = apply_event S (ev_remove l) ∖ (list_to_set order ∖ next)) as ->.
    { unfold apply_event; simpl. apply set_eq. intros x.
      rewrite !elem_of_difference, elem_of_union, !elem_of_singleton. destruct (decide (x = l)) as [->|]; tauto. }
    apply IH; [|apply watched_publish; [|done]].
    + intros x Hx. unfold apply_event; simpl. apply elem_of_difference. split; [by apply Hin'|].
      rewrite elem_of_singleton. by intros ->.
    + right. split; [done|]. apply Hin. by left.
Qed.

Lemma order_NoDup (s : gset Listen) order : order ≡ₚ elements s → NoDup order.
Proof. intros ->. apply NoDup_elements. Qed.

Lemma watched_scan no co r w vs :
  no ≡ₚ elements (scan_next w r) → co ≡ₚ elements (w_current w) →
  watched (w_current w) w vs → steady (scanOnce_in no co (Some r) w) vs.
Proof.
  intros Hno Hco H. apply (watched_added no) in H; [|by eapply order_NoDup|done|done].
  apply (watched_removed (scan_next w r) co) in H; [|by eapply order_NoDup|].
  - destruct H as [_ Hs]. exact Hs.
  - intros l. rewrite Hco, elem_of_elements. intros. by apply elem_of_union_l.
Qed.

Lemma steady_cancel ch w vs : steady w vs → steady (cancel ch w) vs.
Proof.
  unfold cancel. intros H. case_decide; [|done]. intros ch' c v. cbn [w_chans]. rewrite lookup_alter.
  case_decide; [|by apply H]. subst. intros (c0 & Ec & ->)%fmap_Some Ev. cbn. by eapply H.
Qed.

(** Along the steps of [LoWatcher.step]. *)
Lemma steady_step wd wd' :
  LoWatcher.step wd wd' → world_inv wd → steady (wd_watcher wd) (wd_views wd) → steady (wd_watcher wd') (wd_views wd').
Proof.
  destruct 1 as [w vs [r|] no co Hn Hc|w vs ch sn w' Hsub|w vs ch|w vs l|w vs l|w vs ch ev w' v Hr Hv];
    unfold world_inv; cbn [wd_watcher wd_views]; intros Hw Hs; try done.
  - apply watched_scan; [by apply Hn|done|by split].
  - injection Hsub as <- <- <-. intros ch c v. cbn [w_chans]. rewrite !lookup_insert.
    case_decide; [by intros [= <-]|by apply Hs].
  - by apply steady_cancel.
  - unfold Unexclude. by destruct (_ <=? _).
  - unfold receive in Hr. destruct (w_chans w !! ch) as [[[|e buf] closed]|] eqn:Ec; [done| |done].
    injection Hr as <- <-. intros ch' c v'. cbn [w_chans]. rewrite !lookup_insert.
    case_decide; [|by apply Hs]. subst ch'. intros [= <-] [= <-]. cbn.
    by destruct (Hs ch _ v Ec Hv) as [_ H].
Qed.

(** ** Listens are typed *)

Definition queued (P : Event → Prop) (w : Watcher) : Prop := ∀ ch c, w_chans w !! ch = Some c → Forall P (ch_buf c).

Lemma queued_publish P ev w : P ev → queued P w → queued P (publish ev w).
Proof.
  intros Hev Hq ch c'. unfold publish. rewrite publish_in_chans by apply NoDup_elements. case_decide; [|by apply Hq].
  intros (c & Ec & ->)%fmap_Some. apply Hq in Ec. unfold deliver. case_decide; [done|].
  cbn. apply Forall_app. by split; [|constructor].
Qed.

Lemma queued_loop P (skip : Watcher → Listen → Prop) `{∀ w l, Decision (skip w l)} (ev : Listen → Event) order w :
  (∀ l, l ∈ order → P (ev l)) → queued P w → queued P (foldl (λ w l, if decide (skip w l) then w else publish (ev l) w) w order).
Proof.
  revert w. induction order as [|l order IH]; intros w Hev Hq; [done|]. cbn.
  assert (∀ x, x ∈ order → P (ev x)) as Hev' by (intros; apply Hev; by right).
  case_decide; apply IH; try done. apply queued_publish; [|done]. apply Hev. by left.
Qed.

Definition watcher_typed (w : Watcher) : Prop := (∀ l, l ∈ w_current w → Listen_typed l) ∧ queued change_typed w.

Lemma scan_typed no co fs w :
  (∀ r, scanProcNet fs = Some r → no ≡ₚ elements (scan_next w r)) → co ≡ₚ elements (w_current w) →
  watcher_typed w → watcher_typed (scanOnce_in no co (scanProcNet fs) w).
Proof.
  intros Hno Hco [Hc Hq]. destruct (scanProcNet fs) as [raw|] eqn:Er; [|done]. specialize (Hno raw eq_refl).
  assert (∀ l, l ∈ scan_next w raw → Listen_typed l) as Hn.
  { intros l [_ Hl]%elem_of_filter. by eapply scanProcNet_typed. }
  split; [exact Hn|].
  apply (queued_loop _ (λ _ l, l ∈ scan_next w raw)); [|apply (queued_loop _ (λ w l, l ∈ w_current w)); [|done]].
  - intros l. rewrite Hco, elem_of_elements. intros Hl. split; [by right|by apply Hc].
  - intros l. rewrite Hno, elem_of_elements. intros Hl. split; [by left|by apply Hn].
Qed.

(** ** Simulation: the server is a [LoWatcher.world] *)

Definition todo_of (h : watch_handler) : list Event := match hd_pc h with Encoding todo => todo | _ => [] end.

(** A handler that has not returned took [snapshot] from [Subscribe], has received
    [events] since, and has encoded [sent] of all this; its subscriber's view is
    what it has received. *)
Record streams (vs : gmap nat (gset Listen)) (h : watch_handler) (snapshot : list Listen) (events sent : list Event) : Prop := {
  st_all : sent ++ todo_of h = (ev_add <$> snapshot) ++ [ev_sync] ++ events;
  st_todo : ∀ todo, hd_pc h = Encoding todo → todo ≠ [];
  st_written : hd_written h = encode_all sent;
  st_flushed : hd_pc h = Selecting → hd_flushed h = hd_written h;
  st_view : vs !! hd_ch h = Some (apply_events (list_to_set snapshot) events);
  st_consistent : consistent (list_to_set snapshot) events;
  st_snapshot : Forall Listen_typed snapshot;
  st_events : Forall change_typed events;
}.

Definition handler_ok (w : Watcher) (vs : gmap nat (gset Listen)) (h : watch_handler) : Prop :=
  is_Some (w_chans w !! hd_ch h) ∧
  (if decide (hd_pc h = Returned) then hd_ch h ∉ w_subs w else ∃ snapshot events sent, streams vs h snapshot events sent).

(** The server is a world of the watcher, whose views are those of its handlers. *)
Record server_inv (s : server) (vs : gmap nat (gset Listen)) : Prop := {
  sv_world : reachable (mkWorld (sv_watcher s) vs);
  sv_steady : steady (sv_watcher s) vs;
  sv_typed : watcher_typed (sv_watcher s);
  sv_ok i h : sv_handlers s !! i = Some h → handler_ok (sv_watcher s) vs h;
  sv_distinct i j h k : sv_handlers s !! i = Some h → sv_handlers s !! j = Some k → hd_ch h = hd_ch k → i = j;
  sv_owned ch : ch ∈ w_subs (sv_watcher s) → ∃ i h, sv_handlers s !! i = Some h ∧ hd_ch h = ch;
}.

(** A step of the watcher that is also one of the world, and leaves the handlers
    and the views alone. *)
Lemma inv_world w w' hs vs vs' :
  LoWatcher.step (mkWorld w vs) (mkWorld w' vs') → server_inv (mkServer w hs) vs → watcher_typed w' →
  (∀ i h, hs !! i = Some h → handler_ok w' vs' h) →
  (∀ ch, ch ∈ w_subs w' → ch ∈ w_subs w) →
  server_inv (mkServer w' hs) vs'.
Proof.
  intros Hst [Hr Hs Ht Hok Hd Hown] Ht' Hok' Hsub. split; cbn [sv_watcher sv_handlers] in *; try done.
  - by eapply rtc_r.
  - eapply (steady_step _ _ Hst); [by apply reachable_inv|done].
  - intros ch Hch. by apply Hown, Hsub.
Qed.

(** Handlers mind only channels being made and subscribers being added. *)
Lemma handler_ok_mono w w' vs h :
  (∀ ch, is_Some (w_chans w !! ch) → is_Some (w_chans w' !! ch)) → (∀ ch, ch ∈ w_subs w' → ch ∈ w_subs w) →
  handler_ok w vs h → handler_ok w' vs h.
Proof. intros Hc Hs [H1 H2]. split; [by apply Hc|]. case_decide; [|done]. intros ?%Hs. done. Qed.

(** What a scan does to the subscribers. *)
Lemma publish_mono ev w :
  (∀ ch, is_Some (w_chans w !! ch) → is_Some (w_chans (publish ev w) !! ch)) ∧
  (∀ ch, ch ∈ w_subs (publish ev w) → ch ∈ w_subs w).
Proof.
  unfold publish. split; intros ch.
  - rewrite publish_in_chans by apply NoDup_elements. case_decide; [|done]. by rewrite fmap_is_Some.
  - rewrite publish_in_subs by apply NoDup_elements. by intros [].
Qed.

Lemma publish_loop_mono (skip : Watcher → Listen → Prop) `{∀ w l, Decision (skip w l)} (ev : Listen → Event) order w :
  let w' := foldl (λ w l, if decide (skip w l) then w else publish (ev l) w) w order in
  (∀ ch, is_Some (w_chans w !! ch) → is_Some (w_chans w' !! ch)) ∧ (∀ ch, ch ∈ w_subs w' → ch ∈ w_subs w).
Proof.
  revert w. induction order as [|l order IH]; intros w; [done|]. cbn. case_decide; [apply IH|].
  destruct (IH (publish (ev l) w)) as [H1 H2], (publish_mono (ev l) w) as [H3 H4]. cbn in *. split; auto.
Qed.

Lemma scan_mono no co raw w :
  (∀ ch, is_Some (w_chans w !! ch) → is_Some (w_chans (scanOnce_in no co raw w) !! ch)) ∧
  (∀ ch, ch ∈ w_subs (scanOnce_in no co raw w) → ch ∈ w_subs w).
Proof.
  destruct raw as [raw|]; [|done]. cbn [scanOnce_in w_chans w_subs].
  destruct (@publish_loop_mono (λ w l, l ∈ w_current w) (λ w l, decide (l ∈ w_current w)) ev_add no w) as [H1 H2].
  destruct (@publish_loop_mono (λ _ l, l ∈ scan_next w raw) (λ _ l, decide (l ∈ scan_next w raw)) ev_remove co (publish_added no w)) as [H3 H4].
  cbn in *. unfold publish_removed, publish_added in *. split; auto.
Qed.

Lemma cancel_chans ch w ch' : is_Some (w_chans (cancel ch w) !! ch') ↔ is_Some (w_chans w !! ch').
Proof.
  unfold cancel. case_decide; [|done]. cbn [w_chans]. rewrite lookup_alter. case_decide; [|done].
  subst. by rewrite fmap_is_Some.
Qed.
Lemma cancel_subs ch w ch' : ch' ∈ w_subs (cancel ch w) ↔ ch' ∈ w_subs w ∧ ch' ≠ ch.
Proof.
  unfold cancel. case_decide as Hch; cbn [w_subs]; [by rewrite elem_of_difference, elem_of_singleton|].
  split; [|by intros []]. intros H. split; [done|]. by intros ->.
Qed.
Lemma cancel_typed ch w : watcher_typed w → watcher_typed (cancel ch w).
Proof.
  unfold cancel. intros [Hc Hq]. case_decide; [|done]. split; [done|]. intros ch' c. cbn [w_chans]. rewrite lookup_alter.
  case_decide; [|by apply Hq]. intros (c0 & Ec & ->)%fmap_Some. by apply Hq in Ec.
Qed.
Lemma cancel_current ch w : w_current (cancel ch w) = w_current w.
Proof. unfold cancel. by case_decide. Qed.

Lemma steady_steps wd wd' :
  rtc LoWatcher.step wd wd' → world_inv wd → steady (wd_watcher wd) (wd_views wd) → steady (wd_watcher wd') (wd_views wd').
Proof.
  intros Hr Hw Hs. set (Inv := λ wd, world_inv wd ∧ steady (wd_watcher wd) (wd_views wd)).
  assert (Inv wd') as [_ H]; [|exact H]. apply (rtc_invariant LoWatcher.step Inv wd wd'); [|done|by split].
  intros x y Hst [H1 H2]. split; [by eapply step_inv|by eapply steady_step].
Qed.

(** A step of the handler of one connection. *)
Lemma inv_handler i w w' hs vs vs' h h' :
  rtc LoWatcher.step (mkWorld w vs) (mkWorld w' vs') → server_inv (mkServer w hs) vs →
  hs !! i = Some h → hd_ch h' = hd_ch h → watcher_typed w' → handler_ok w' vs' h' →
  (∀ k, hd_ch k ≠ hd_ch h → handler_ok w vs k → handler_ok w' vs' k) →
  (∀ ch, ch ∈ w_subs w' → ch ∈ w_subs w) →
  server_inv (mkServer w' (<[i := h']> hs)) vs'.
Proof.
  intros Hst [Hr Hs Ht Hok Hd Hown] Hi Hch Ht' Hok' Hoth Hsub. split; cbn [sv_watcher sv_handlers] in *; try done.
  - exact (transitivity Hr Hst).
  - apply (steady_steps _ _ Hst); [by apply reachable_inv|done].
  - intros j k. rewrite lookup_insert_Some. intros [[<- <-]|[Hne Hj]]; [done|].
    apply Hoth; [|by eapply Hok]. intros He. apply Hne. by eapply Hd.
  - intros j1 j2 k1 k2. rewrite !lookup_insert_Some.
    intros [[<- <-]|[Hn1 H1]] [[<- <-]|[Hn2 H2]]; rewrite ?Hch; intros He; [done|by eapply Hd..].
  - intros ch Hc. destruct (Hown ch (Hsub ch Hc)) as (j & k & Hj & Hk).
    destruct (decide (i = j)) as [<-|Hne]; [exists i, h'|exists j, k].
    + rewrite lookup_insert_eq. split; [done|]. rewrite Hch. by simplify_eq.
    + by rewrite lookup_insert_ne.
Qed.

Lemma inv_return i w hs vs h written :
  server_inv (mkServer w hs) vs → hs !! i = Some h →
  let '(h', w') := handler_return written h w in server_inv (mkServer w' (<[i := h']> hs)) vs.
Proof.
  intros Hinv Hi. cbn. eapply inv_handler; [apply rtc_once, step_cancel|exact Hinv|exact Hi|done|..].
  - apply cancel_typed, Hinv.
  - split; cbn [hd_ch hd_pc]; [by apply cancel_chans, (sv_ok _ _ Hinv i)|].
    rewrite decide_True by done. rewrite cancel_subs. by intros [_ []].
  - intros k _. apply handler_ok_mono; [intros ch; by rewrite cancel_chans|]. intros ch. by rewrite cancel_subs; intros [].
  - intros ch. rewrite cancel_subs. by intros [].
Qed.

Lemma inv_encode i w hs vs h h' :
  server_inv (mkServer w hs) vs → hs !! i = Some h → handler_encode h = Some h' →
  server_inv (mkServer w (<[i := h']> hs)) vs.
Proof.
  intros Hinv Hi He. destruct (sv_ok _ _ Hinv i h Hi) as [Hc Hok]. unfold handler_encode in He.
  destruct (hd_pc h) as [[|ev todo]| |] eqn:Epc; [done| |done..]. injection He as He.
  assert (hd_ch h' = hd_ch h ∧ hd_pc h' = (if todo then Selecting else Encoding todo) ∧
    hd_written h' = hd_written h +:+ json_Encode (Event_json ev) ∧ (todo = [] → hd_flushed h' = hd_written h')) as (E1 & E2 & E3 & E4)
    by (subst h'; by destruct todo).
  rewrite decide_False in Hok by done. destruct Hok as (snapshot & events & sent & [H1 H2 H3 H4 H5 H6 H7 H8]).
  eapply inv_handler; [reflexivity|exact Hinv|exact Hi|done|apply Hinv| |done|done].
  split; [by rewrite E1|]. rewrite decide_False by (rewrite E2; by destruct todo).
  exists snapshot, events, (sent ++ [ev]). split; try done.
  - rewrite <-H1. unfold todo_of. rewrite Epc, E2, <-app_assoc. by destruct todo.
  - intros todo'. rewrite E2. destruct todo; [done|]. by intros [= <-].
  - rewrite E3, H3, encode_all_app. cbn. by rewrite sapp_nil_r.
  - rewrite E2. destruct todo; [|done]. intros _. by apply E4.
  - by rewrite E1.
Qed.

Lemma apply_events_app S evs evs' : apply_events S (evs ++ evs') = apply_events (apply_events S evs) evs'.
Proof. apply foldl_app. Qed.

Lemma inv_event i w hs vs h h' w' :
  server_inv (mkServer w hs) vs → hs !! i = Some h → handler_event h w = Some (h', w') →
  ∃ vs', server_inv (mkServer w' (<[i := h']> hs)) vs'.
Proof.
  intros Hinv Hi He. destruct (sv_ok _ _ Hinv i h Hi) as [Hc Hok]. unfold handler_event in He.
  destruct (hd_pc h) eqn:Epc; [done| |done]. destruct (receive (hd_ch h) w) as [[ev w1]|] eqn:Er.
  2: { exists vs. pose proof (inv_return i w hs vs h (hd_written h) Hinv Hi) as H.
       destruct (w_chans w !! hd_ch h) as [[buf []]|]; [|done..]. injection He as <- <-. exact H. }
  injection He as <- <-. rewrite decide_False in Hok by done.
  destruct Hok as (snapshot & events & sent & [H1 H2 H3 H4 H5 H6 H7 H8]).
  exists (<[hd_ch h := apply_event (apply_events (list_to_set snapshot) events) ev]> vs).
  unfold receive in Er. destruct (w_chans w !! hd_ch h) as [[[|ev0 buf] closed]|] eqn:Ec; [done| |done].
  injection Er as -> <-.
  pose proof (proj2 (sv_typed _ _ Hinv) _ _ Ec) as Hev. apply Forall_cons in Hev as [Hev Hbuf].
  destruct (sv_steady _ _ Hinv _ _ _ Ec H5) as [Hch _].
  eapply inv_handler; [|exact Hinv|exact Hi|done|..].
  - apply rtc_once. eapply step_receive; [|exact H5]. unfold receive. by rewrite Ec.
  - split; [apply Hinv|]. intros ch c. cbn [w_chans]. rewrite lookup_insert. case_decide; [by intros [= <-]|apply Hinv].
  - split; cbn [hd_ch hd_pc w_chans]; [by rewrite lookup_insert_eq|]. rewrite decide_False by done.
    exists snapshot, (events ++ [ev]), sent. split; cbn [hd_pc hd_ch hd_written hd_flushed todo_of].
    + unfold todo_of in H1. rewrite Epc, app_nil_r in H1. by rewrite H1, <-!app_assoc.
    + by intros ? [= <-].
    + done.
    + done.
    + rewrite lookup_insert_eq. by rewrite apply_events_app.
    + apply consistent_app. by split; [|split].
    + done.
    + apply Forall_app. by split; [|constructor].
  - intros k Hne [Hk1 Hk2]. split; cbn [w_chans]; [by rewrite lookup_insert_ne|].
    destruct (decide (hd_pc k = Returned)); [done|]. destruct Hk2 as (sn & es & se & [K1 K2 K3 K4 K5 K6 K7 K8]).
    exists sn, es, se. split; try done. by rewrite lookup_insert_ne.
  - done.
Qed.

Lemma inv_open i w hs vs h w' :
  server_inv (mkServer w hs) vs → hs !! i = None → handleWatch_open true w = (Ok h, w') →
  ∃ vs', server_inv (mkServer w' (<[i := h]> hs)) vs'.
Proof.
  intros [Hr Hs Ht Hok Hd Hown] Hi Ho. cbn [sv_watcher sv_handlers] in *. unfold handleWatch_open in Ho. cbn [negb] in Ho.
  destruct (Subscribe w) as [[ch snapshot] w1] eqn:Esub. injection Ho as <- <-.
  pose proof (step_subscribe w vs ch snapshot w1 Esub) as Hst.
  pose proof (steady_step _ _ Hst (reachable_inv _ Hr) Hs) as Hs'. cbn [wd_watcher wd_views] in Hs'.
  unfold Subscribe in Esub. injection Esub as Ech Esn <-.
  assert (w_chans w !! ch = None) as Hfresh by (subst ch; apply not_elem_of_dom, is_fresh). rewrite Ech in *.
  assert (∀ j k, hs !! j = Some k → hd_ch k ≠ ch) as Hne.
  { intros j k Hj Hk. destruct (Hok j k Hj) as [[c Hc] _]. congruence. }
  exists (<[ch := list_to_set snapshot]> vs). split; cbn [sv_watcher sv_handlers]; try done.
  - by eapply rtc_r.
  - destruct Ht as [Hc Hq]. split; [done|]. intros c0 c. cbn [w_chans]. rewrite lookup_insert.
    case_decide; [by intros [= <-]|by apply Hq].
  - intros j k. rewrite lookup_insert_Some. intros [[<- <-]|[_ Hj]].
    + split; cbn [hd_ch hd_pc w_chans w_subs]; [by rewrite lookup_insert_eq|]. rewrite decide_False by done.
      exists snapshot, [], []. split; cbn [hd_pc hd_ch hd_written hd_flushed todo_of]; try done.
      * intros ? [= <-] [_ ?]%app_nil. done.
      * by rewrite lookup_insert_eq.
      * apply Forall_forall. intros l Hl. apply Ht. rewrite <-Esn, merge_sort_Permutation in Hl. by apply elem_of_elements.
    + specialize (Hne j k Hj). destruct (Hok j k Hj) as [K1 K2]. split; cbn [w_chans w_subs]; [by rewrite lookup_insert_ne|].
      destruct (decide (hd_pc k = Returned)); [by rewrite elem_of_union, elem_of_singleton; intros [?|?]|].
      destruct K2 as (sn & es & se & []). exists sn, es, se. split; try done. by rewrite lookup_insert_ne.
  - intros j1 j2 k1 k2. rewrite !lookup_insert_Some.
    intros [[<- <-]|[Hn1 H1]] [[<- <-]|[Hn2 H2]]; cbn [hd_ch]; intros He; [done| | |by eapply Hd].
    + exfalso. by eapply Hne.
    + exfalso. by eapply Hne.
  - intros c [->%elem_of_singleton|Hc]%elem_of_union.
    + exists i. eexists. by rewrite lookup_insert_eq.
    + destruct (Hown c Hc) as (j & k & Hj & Hk). exists j, k. by rewrite lookup_insert_ne by congruence.
Qed.

Lemma server_step_inv s s' : server_step s s' → (∃ vs, server_inv s vs) → ∃ vs, server_inv s' vs.
Proof.
  intros Hst [vs Hinv]. destruct Hst as [w hs fs no co Hno Hco|w hs l|w hs l|w hs i h w' Hi Ho|i s s' Hsv].
  - exists vs. destruct (scan_mono no co (scanProcNet fs) w) as [M1 M2].
    apply (inv_world w _ hs vs vs); [by apply step_scan|done|by apply scan_typed; [..|apply Hinv]| |done].
    intros i h Hi. eapply handler_ok_mono; [done|done|]. by apply (sv_ok _ _ Hinv i).
  - exists vs. apply (inv_world w _ hs vs vs); [apply step_exclude|done|apply Hinv|apply Hinv|done].
  - exists vs. apply (inv_world w _ hs vs vs); [apply step_unexclude|done|..]; unfold Unexclude; destruct (_ <=? _); by try apply Hinv.
  - by eapply inv_open.
  - destruct Hsv as [w hs h h' Hi He|w hs h part h' w' Hi He|w hs h h' w' Hi He|w hs h h' w' Hi He].
    + exists vs. by eapply inv_encode.
    + exists vs. unfold handler_encode_error in He. destruct (hd_pc h) as [[|ev todo]| |]; [done| |done..].
      destruct (String.prefix _ _); [|done].
      pose proof (inv_return i w hs vs h (hd_written h +:+ part) Hinv Hi) as H. injection He as <- <-. exact H.
    + by eapply inv_event.
    + exists vs. unfold handler_gone in He. destruct (hd_pc h); [done| |done].
      pose proof (inv_return i w hs vs h (hd_written h) Hinv Hi) as H. injection He as <- <-. exact H.
Qed.

Lemma server_reachable_inv s : server_reachable s → ∃ vs, server_inv s vs.
Proof.
  intros Hr. eapply (rtc_invariant server_step (λ s, ∃ vs, server_inv s vs)); [exact server_step_inv|exact Hr|].
  exists ∅. split; cbn; try done.
  apply rtc_refl.
Qed.

(** ** What is on the wire *)

Lemma typed_adds snapshot : Forall Listen_typed snapshot → Forall Event_typed (ev_add <$> snapshot).
Proof. rewrite Forall_fmap. intros H. eapply Forall_impl; [exact H|]. intros l Hl. right. split; [by left|done]. Qed.

Lemma typed_stream snapshot events :
  Forall Listen_typed snapshot → Forall change_typed events →
  Forall Event_typed ((ev_add <$> snapshot) ++ [ev_sync] ++ events).
Proof.
  intros Hs He. apply Forall_app. split; [by apply typed_adds|]. apply Forall_app. split; [by repeat constructor|].
  eapply Forall_impl; [exact He|]. by right.
Qed.

Lemma live_stream s i h :
  server_reachable s → sv_handlers s !! i = Some h → hd_pc h ≠ Returned →
  ∃ sent, hd_written h = encode_all sent ∧ Forall Event_typed (sent ++ todo_of h).
Proof.
  intros (vs & Hinv)%server_reachable_inv Hi Hpc. destruct (sv_ok _ _ Hinv i h Hi) as [_ Hok].
  rewrite decide_False in Hok by done. destruct Hok as (sn & es & se & []). exists se. split; [done|].
  rewrite st_all0. by apply typed_stream.
Qed.

(** An idle handler has flushed everything there is to know. *)
Lemma idle_stream s i h :
  server_reachable s → idle s i h →
  ∃ snapshot events, hd_flushed h = watch_body snapshot events ∧
    Forall Listen_typed snapshot ∧ Forall change_typed events ∧ consistent (list_to_set snapshot) events ∧
    apply_events (list_to_set snapshot) events = w_current (sv_watcher s).
Proof.
  intros (vs & Hinv)%server_reachable_inv (Hi & Hpc & Hc). destruct (sv_ok _ _ Hinv i h Hi) as [_ Hok].
  rewrite decide_False in Hok by (by rewrite Hpc). destruct Hok as (sn & es & se & [H1 _ H3 H4 H5 H6 H7 H8]).
  exists sn, es. unfold todo_of in H1. rewrite Hpc, app_nil_r in H1. split_and!; try done.
  - by rewrite H4, H3, H1.
  - destruct (reachable_inv _ (sv_world _ _ Hinv)) as [Ht1 Ht2]. cbn in *.
    destruct (Ht2 _ _ Hc) as [_ Hs]. destruct (Ht1 (hd_ch h)) as (c & v & ? & ? & E); [by apply Hs|].
    simplify_eq. exact E.
Qed.

(** ** Draining *)

Lemma drain_encoding i todo w hs h :
  hs !! i = Some h → hd_pc h = Encoding todo → todo ≠ [] →
  ∃ h', rtc (serve_step i) (mkServer w hs) (mkServer w (<[i := h']> hs)) ∧ hd_pc h' = Selecting ∧ hd_ch h' = hd_ch h.
Proof.
  revert hs h. induction todo as [|ev todo IH]; intros hs h Hi Hpc Hne; [done|].
  assert (∃ h', handler_encode h = Some h' ∧ hd_ch h' = hd_ch h ∧
    hd_pc h' = match todo with [] => Selecting | _ => Encoding todo end) as (h1 & He & Hch & Hpc1).
  { unfold handler_encode. rewrite Hpc. eexists. split; [done|]. by destruct todo. }
  pose proof (serve_encode i w hs h h1 Hi He) as Hst.
  destruct (decide (todo = [])) as [->|Ht].
  - exists h1. split; [by apply rtc_once|done].
  - destruct (IH (<[i := h1]> hs) h1) as (h2 & Hr & Hpc2 & Hch2); [apply lookup_insert_eq|by destruct todo|done|].
    rewrite insert_insert_eq in Hr. exists h2. split; [by eapply rtc_l|]. by rewrite Hch2.
Qed.

Lemma drain_queue i buf w hs h :
  hs !! i = Some h → hd_pc h = Selecting → w_chans w !! hd_ch h = Some (mkChan buf false) →
  ∃ s' h', rtc (serve_step i) (mkServer w hs) s' ∧ idle s' i h' ∧ w_current (sv_watcher s') = w_current w ∧
    (buf = [] → s' = mkServer w hs ∧ h' = h).
Proof.
  revert w hs h. induction buf as [|ev buf IH]; intros w hs h Hi Hpc Hc.
  { exists (mkServer w hs), h. by split_and!. }
  set (w1 := mkWatcher (w_current w) (w_excluded w) (w_subs w) (<[hd_ch h := mkChan buf false]> (w_chans w))).
  set (h1 := mkHandler (hd_ch h) (Encoding [ev]) (hd_written h) (hd_flushed h)).
  assert (serve_step i (mkServer w hs) (mkServer w1 (<[i := h1]> hs))) as Hst.
  { apply (serve_event i w hs h); [done|]. unfold handler_event, receive. by rewrite Hpc, Hc. }
  destruct (drain_encoding i [ev] w1 (<[i := h1]> hs) h1) as (h2 & Hr2 & Hpc2 & Hch2); [apply lookup_insert_eq|done|done|].
  rewrite insert_insert_eq in Hr2.
  destruct (IH w1 (<[i := h2]> hs) h2) as (s3 & h3 & Hr3 & Hid & Hcur & _).
  { apply lookup_insert_eq. } { done. } { rewrite Hch2. apply lookup_insert_eq. }
  exists s3, h3. split_and!; [|done|done|done]. eapply rtc_l; [exact Hst|]. by etrans.
Qed.

Lemma drain s i h :
  server_reachable s → sv_handlers s !! i = Some h → hd_ch h ∈ w_subs (sv_watcher s) →
  ∃ s' h', rtc (serve_step i) s s' ∧ idle s' i h' ∧ w_current (sv_watcher s') = w_current (sv_watcher s) ∧
    (idle s i h → s' = s ∧ h' = h).
Proof.
  intros (vs & Hinv)%server_reachable_inv Hi Hsub. destruct (sv_ok _ _ Hinv i h Hi) as [_ Hok].
  destruct (reachable_inv _ (sv_world _ _ Hinv)) as [Ht1 Ht2]. cbn in *.
  destruct (Ht1 _ Hsub) as ([buf cl] & v & Hc & _). destruct (Ht2 _ _ Hc) as [_ Hcl]. cbn in Hcl.
  destruct cl; [apply Hcl in Hsub; done|]. destruct s as [w hs]; cbn in *.
  destruct (hd_pc h) as [todo| |] eqn:Hpc.
  - rewrite decide_False in Hok by done. destruct Hok as (sn & es & se & [_ Htodo _ _ _ _ _ _]).
    destruct (drain_encoding i todo w hs h) as (h1 & Hr1 & Hpc1 & Hch1); [done|done|by apply Htodo|].
    destruct (drain_queue i buf w (<[i := h1]> hs) h1) as (s2 & h2 & Hr2 & Hid & Hcur & _);
      [apply lookup_insert_eq|done|by rewrite Hch1|].
    exists s2, h2. split_and!; [by etrans|done|done|]. intros (_ & Hpc' & _). congruence.
  - destruct (drain_queue i buf w hs h) as (s2 & h2 & Hr2 & Hid & Hcur & He); [done..|].
    exists s2, h2. split_and!; [done..|]. intros (_ & _ & Hb). apply He. cbn in Hb. congruence.
  - by rewrite decide_True in Hok.
Qed.

Lemma serve_reachable i s s' : server_reachable s → rtc (serve_step i) s s' → server_reachable s'.
Proof.
  intros Hr Hs. refine (transitivity Hr _). eapply rtc_subrel; [|exact Hs]. intros x y. apply server_serve.
Qed.

(** ** What the readers make of it *)

Section Peer.
Context {W : Type} `{Registry W}.

(** What a manager in state [st] proxies once it has read [body]. *)
Definition peer_holds (bind : Listen → bool) (body : string) (st : host W * gmap Listen Proxy) : gset Listen :=
  dom (watchOnce (peer_lines bind body) st).2.

Lemma peer_lines_decoded bind (evs : list Event) :
  omap decoded ((λ o : option Event, match o with None => Malformed | Some ev => Decoded ev (bind (ev_listen ev)) end) <$> (Some <$> evs)) =
  (λ ev, (ev, bind (ev_listen ev))) <$> evs.
Proof. induction evs as [|ev evs IH]; [done|]. rewrite !fmap_cons. cbn [omap list_omap decoded]. by f_equal. Qed.

Lemma idle_peer bind s i h (st : host W * gmap Listen Proxy) :
  server_reachable s → idle s i h →
  peer_holds bind (hd_flushed h) st ⊆ w_current (sv_watcher s) ∧
  ((∀ l, bind l = true) → peer_holds bind (hd_flushed h) st = w_current (sv_watcher s)).
Proof.
  intros Hr Hid. destruct (idle_stream s i h Hr Hid) as (sn & es & -> & Hs & He & _ & <-).
  pose proof (typed_stream sn es Hs He) as Ht. unfold peer_holds.
  assert (omap decoded (peer_lines bind (watch_body sn es)) =
    (λ ev, (ev, bind (ev_listen ev))) <$> ((ev_add <$> sn) ++ [ev_sync] ++ es)) as El.
  { unfold peer_lines, watch_body. rewrite watch_lines_all; [apply peer_lines_decoded|].
    eapply Forall_impl; [exact Ht|]. apply Event_typed_wire. }
  destruct (watchOnce_follows (peer_lines bind (watch_body sn es)) st sn es) as [H1 H2].
  - rewrite El, <-list_fmap_compose. apply list_fmap_id.
  - eapply Forall_impl; [exact He|]. by intros ev [[-> | ->] _].
  - split; [exact H1|]. intros Hb. apply H2. rewrite El, Forall_fmap. eapply Forall_impl; [exact Ht|].
    intros ev Hev Hadd. split; [apply Hb|]. destruct Hev as [->|[_ Hl]]; [done|]. apply Hl.
Qed.
End Peer.

Lemma consistent_honest S evs : consistent S evs → Forall change_typed evs → honest true S (Some <$> evs).
Proof.
  intros Hc H. revert S Hc. induction H as [|ev evs [_ Hl] _ IH]; intros S Hc; [done|]. destruct Hc as [Hch Hc].
  rewrite fmap_cons. destruct ev as [op l]. cbn [ev_listen] in *. destruct Hch as [[[= ->] Hn]|[[= ->] Hn]].
  - change (mkEvent "add" l) with (ev_add l). rewrite honest_add. destruct Hl as [Hs _ Hp _]. split_and!; [done|lia|lia|by intros _|]. by apply IH.
  - change (mkEvent "remove" l) with (ev_remove l). rewrite honest_remove. split; [by intros _|]. by apply IH.
Qed.

(** What a client's watcher counts, and what the consumer of its changes holds. *)
Lemma idle_client name range cb s i h :
  (∀ cs, range cs ≡ₚ elements (dom cs)) → server_reachable s → idle s i h →
  let r := ClientWatcher.watchOnce name range cb (Some (watch_lines (hd_flushed h))) ∅ in
  dom r.1 = set_map key_of (w_current (sv_watcher s)) ∧ consume ∅ r.2 = Some (ids name (dom r.1)).
Proof.
  intros Hra Hr Hid. destruct (idle_stream s i h Hr Hid) as (sn & es & -> & Hs & He & Hc & <-).
  apply watch_end_to_end; [done| | |by apply consistent_honest].
  - apply Forall_app. split; [|by eapply Forall_impl; [exact He|]; intros ev Hev; apply Event_typed_wire; right].
    eapply Forall_impl; [by apply typed_adds|]. apply Event_typed_wire.
  - eapply Forall_impl; [exact Hs|]. intros l Hl. apply Hl.
Qed.

(** ** Theorems *)

(** C8. Everything the watcher and the handlers of /watch hold is what [types.go]
    says a listen is.  In every reachable state, whatever the tables of /proc/net
    held, garbage included, and however scans, connections and their ends were
    interleaved: each listen advertised and each change queued names a family, a
    protocol, a 16-bit port and a loopback or unspecified address; and what a
    handler has written for its connection decodes, line by line and without a
    malformed one, to events of this type. *)
Theorem served_typed s :
  server_reachable s →
  (∀ l, l ∈ w_current (sv_watcher s) → Listen_typed l) ∧
  (∀ ch c, w_chans (sv_watcher s) !! ch = Some c → Forall change_typed (ch_buf c)) ∧
  (∀ i h, sv_handlers s !! i = Some h → hd_pc h ≠ Returned →
    ∃ evs, watch_lines (hd_written h) = Some <$> evs ∧ Forall Event_typed evs).
Proof.
  intros Hr. destruct (server_reachable_inv s Hr) as (vs & Hinv).
  split_and!; [apply Hinv|apply Hinv|]. intros i h Hi Hpc.
  destruct (live_stream s i h Hr Hi Hpc) as (sent & -> & [Hs _]%Forall_app). exists sent. split; [|done].
  apply watch_lines_all. eapply Forall_impl; [exact Hs|]. apply Event_typed_wire.
Qed.

(** No subscription leaks, and no connection is served without one: the
    subscribers are handlers that have not returned. *)
Lemma subscribers_served s ch :
  server_reachable s → ch ∈ w_subs (sv_watcher s) →
  ∃ i h, sv_handlers s !! i = Some h ∧ hd_ch h = ch ∧ hd_pc h ≠ Returned.
Proof.
  intros (vs & Hinv)%server_reachable_inv Hch. destruct (sv_owned _ _ Hinv ch Hch) as (i & h & Hi & <-).
  exists i, h. split_and!; [done..|]. intros Hpc. destruct (sv_ok _ _ Hinv i h Hi) as [_ Hok].
  by rewrite decide_True in Hok.
Qed.

(** C5. A container that shares its listeners and a peer that proxies them: from
    every reachable state, a connection to /watch whose subscriber was not
    dropped is brought up to date by steps of its handler alone (at once, if it
    is idle), and then a manager that has read what was flushed, whatever it
    proxied before, proxies nothing but what the container now advertises, and
    all of it if no bind fails. *)
Theorem peer_mirrors {W} `{Registry W} bind s i h (st : host W * gmap Listen Proxy) :
  server_reachable s → sv_handlers s !! i = Some h → hd_ch h ∈ w_subs (sv_watcher s) →
  ∃ s' h', rtc (serve_step i) s s' ∧ idle s' i h' ∧ (idle s i h → s' = s ∧ h' = h) ∧
    w_current (sv_watcher s') = w_current (sv_watcher s) ∧
    peer_holds bind (hd_flushed h') st ⊆ w_current (sv_watcher s) ∧
    ((∀ l, bind l = true) → peer_holds bind (hd_flushed h') st = w_current (sv_watcher s)).
Proof.
  intros Hr Hi Hch. destruct (drain s i h Hr Hi Hch) as (s' & h' & Hs & Hid & Hc & He).
  exists s', h'. destruct (idle_peer bind s' i h' st) as [H1 H2]; [by eapply serve_reachable|done|].
  rewrite Hc in H1, H2. by split_and!.
Qed.

(** The same for a client: once the handler is idle, the client's watcher of
    this container counts exactly the ports of the listens it advertises, and a
    consumer of the changes it emitted has exactly those open. *)
Theorem client_mirrors name range cb s i h :
  (∀ cs, range cs ≡ₚ elements (dom cs)) →
  server_reachable s → sv_handlers s !! i = Some h → hd_ch h ∈ w_subs (sv_watcher s) →
  ∃ s' h', rtc (serve_step i) s s' ∧ idle s' i h' ∧ (idle s i h → s' = s ∧ h' = h) ∧
    let r := ClientWatcher.watchOnce name range cb (Some (watch_lines (hd_flushed h'))) ∅ in
    dom r.1 = set_map key_of (w_current (sv_watcher s)) ∧ consume ∅ r.2 = Some (ids name (dom r.1)).
Proof.
  intros Hra Hr Hi Hch. destruct (drain s i h Hr Hi Hch) as (s' & h' & Hs & Hid & Hc & He).
  exists s', h'. split_and!; [done..|]. rewrite <-Hc. apply (idle_client name range cb s' i h'); [done| |done].
  by eapply serve_reachable.
Qed.

(** ** A run: a connection is opened, then a scan finds a listener. *)

Definition sample_table (path : string) : file :=
  if decide (path = "/proc/net/tcp") then
    FileData ("header" +:+ String LF "0: 0100007F:0050 00000000:0000 0A 0") false
  else FileNotExist.

Lemma sample_table_scan : scanProcNet sample_table = Some {[l80]}.
Proof. apply (bool_decide_unpack _). vm_compute. exact I. Qed.

Definition sample_opened : server := mkServer (handleWatch_open true NewWatcher).2
  {[7%nat := mkHandler O (Encoding [ev_sync]) "" ""]}.
Definition sample_served : server :=
  mkServer (scanOnce_in [l80] [] (Some {[l80]}) (sv_watcher sample_opened)) (sv_handlers sample_opened).

Lemma sample_served_reachable : server_reachable sample_served.
Proof.
  eapply rtc_l; [apply (server_open NewWatcher ∅ 7 (mkHandler O (Encoding [ev_sync]) "" "") (handleWatch_open true NewWatcher).2);
    [reflexivity|vm_compute; reflexivity]|].
  apply rtc_once. unfold sample_served. rewrite <-sample_table_scan.
  apply (server_scan (sv_watcher sample_opened) (sv_handlers sample_opened) sample_table [l80] []).
  - intros r Hr. rewrite sample_table_scan in Hr. injection Hr as <-. exact sample_next.
  - change (w_current (sv_watcher sample_opened)) with (∅ : gset Listen). by rewrite elements_empty.
Qed.

Lemma sample_served_handler : sv_handlers sample_served !! 7%nat = Some (mkHandler O (Encoding [ev_sync]) "" "").
Proof. reflexivity. Qed.
Lemma sample_served_subs : O ∈ w_subs (sv_watcher sample_served).
Proof. apply (bool_decide_unpack _). vm_compute. exact I. Qed.

Lemma served_typed_witness :
  l80 ∈ w_current (sv_watcher sample_served) ∧ Listen_typed l80 ∧
  ∃ evs, watch_lines "" = Some <$> evs ∧ Forall Event_typed evs.
Proof.
  assert (l80 ∈ w_current (sv_watcher sample_served)) as Hl by (apply (bool_decide_unpack _); vm_compute; exact I).
  destruct (served_typed sample_served sample_served_reachable) as (H1 & _ & H3).
  split_and!; [exact Hl|exact (H1 l80 Hl)|].
  apply (H3 7%nat (mkHandler O (Encoding [ev_sync]) "" "") sample_served_handler). discriminate.
Defined.

Lemma peer_mirrors_witness :
  ∃ s' h', rtc (serve_step 7) sample_served s' ∧ idle s' 7 h' ∧
    peer_holds (λ _, true) (hd_flushed h') (mkHost NewWatcher ∅ ∅, ∅) = w_current (sv_watcher sample_served).
Proof.
  destruct (peer_mirrors (W := Watcher) (λ _, true) sample_served 7 _ (mkHost NewWatcher ∅ ∅, ∅)
    sample_served_reachable sample_served_handler sample_served_subs) as (s' & h' & H1 & H2 & _ & _ & _ & H3).
  exists s', h'. split_and!; [exact H1|exact H2|]. apply H3. reflexivity.
Defined.

Lemma client_mirrors_witness :
  ∃ s' h', rtc (serve_step 7) sample_served s' ∧ idle s' 7 h' ∧
    dom (ClientWatcher.watchOnce "web" by_keys true (Some (watch_lines (hd_flushed h'))) ∅).1 =
      set_map key_of (w_current (sv_watcher sample_served)).
Proof.
  destruct (client_mirrors "web" by_keys true sample_served 7 _ ltac:(done)
    sample_served_reachable sample_served_handler sample_served_subs) as (s' & h' & H1 & H2 & _ & H3 & _).
  exists s', h'. split_and!; [exact H1|exact H2|exact H3].
Defined.
