(* ===== verification/LoStream.v ===== *)
(** * internal/lo: the stream of /watch as it arrives

    The bytes of a stream reach a reader little by little and may break off
    anywhere, in the middle of a line too: what [bufio.Scanner] makes of the
    part that has arrived, and what [json.Unmarshal] makes of half a line.  The
    files that follow a stream from the handler of [server.go] to the loop of
    [watchOnce] use these facts. *)

From S2P Require Import Prelude GoStrings GoNet GoJSON GoJSONFacts LoTypes LoTcp ClientWatcher LoWatcher LoWire LoListens LoServer.

(** ** Whole lines *)

(** [p] is what [s] begins with. *)
Definition starts (p s : string) : Prop := ∃ t, s = p +:+ t.

#[export] Instance starts_preorder : PreOrder starts.
Proof.
  split; [intros s; exists ""; by rewrite sapp_nil_r|].
  intros s t u [x ->] [y ->]. exists (x +:+ y). by rewrite sapp_assoc.
Qed.

(** [s] up to its last newline. *)
Fixpoint complete (s : string) : string :=
  match s with
  | "" => ""
  | String c s' => let r := complete s' in if decide (c = LF ∨ r ≠ "") then String c r else ""
  end.

Lemma complete_starts s : starts (complete s) s.
Proof.
  induction s as [|c s [t IH]]; [by exists ""|]. cbn [complete]. case_decide; [|by exists (String c s)].
  exists t. by rewrite sapp_cons, <-IH.
Qed.

Lemma complete_app s t : starts (complete s) (complete (s +:+ t)).
Proof.
  induction s as [|c s [u IH]]; [by exists (complete t)|]. rewrite sapp_cons. cbn [complete].
  destruct (decide (c = LF ∨ complete s ≠ "")) as [H|H]; [|by eexists].
  rewrite decide_True.
  - exists u. by rewrite sapp_cons, <-IH.
  - destruct H as [H|H]; [by left|right]. rewrite IH. by destruct (complete s).
Qed.

Lemma complete_line s t : complete (s +:+ String LF t) = s +:+ String LF (complete t).
Proof.
  induction s as [|c s IH]; [by rewrite !sapp_nil|]. rewrite !sapp_cons. cbn [complete]. rewrite IH.
  apply decide_True. right. by destruct s.
Qed.

Lemma complete_lacks s : lacks LF s → complete s = "".
Proof. induction s as [|c s IH]; [done|]. intros [Hc Hs]%lacks_cons. cbn [complete]. rewrite IH by done. rewrite decide_False; naive_solver. Qed.

Lemma complete_lines ls : complete (file_of_lines ls) = file_of_lines ls.
Proof.
  induction ls as [|l ls IH]; [done|]. unfold file_of_lines in *. cbn [foldr]. by rewrite complete_line, IH.
Qed.

(** What arrives later does not change the lines that are complete. *)
Lemma scan_complete s t cur n :
  complete s ≠ "" ∨ cur = "" → (scan_from (complete s) cur n).1 `prefix_of` (scan_from (s +:+ t) cur n).1.
Proof.
  revert cur n. induction s as [|c s IH]; intros cur n H.
  - destruct H as [[]| ->]; [done|]. apply prefix_nil.
  - rewrite sapp_cons. cbn [complete] in H |- *. destruct (decide (c = LF ∨ complete s ≠ "")) as [Hc|Hc].
    + cbn [scan_from]. destruct (decide (c = LF)) as [->|Hn].
      * specialize (IH "" 0 (or_intror eq_refl)).
        destruct (scan_from (complete s) "" 0), (scan_from (s +:+ t) "" 0). by apply prefix_cons.
      * destruct (MaxScanTokenSize <=? n + 1); [done|]. apply IH. left. by destruct Hc.
    + destruct H as [[]| ->]; [done|]. apply prefix_nil.
Qed.

Lemma watch_lines_complete s t : watch_lines (complete s) `prefix_of` watch_lines (s +:+ t).
Proof.
  unfold watch_lines, ScanLines. destruct (scan_complete s t "" 0 (or_intror eq_refl)) as [r ->].
  rewrite fmap_app. by apply prefix_app_r.
Qed.

Lemma complete_idem s : complete (complete s) = complete s.
Proof.
  induction s as [|c s IH]; [done|]. cbn [complete]. case_decide as H; [|done]. cbn [complete]. rewrite IH. by rewrite decide_True.
Qed.

Lemma watch_lines_starts p s : starts p s → watch_lines (complete p) `prefix_of` watch_lines (complete s).
Proof.
  intros [t ->]. destruct (complete_app p t) as [u ->]. rewrite <-(complete_idem p) at 1. apply watch_lines_complete.
Qed.

(** ** Half a line *)

(** The line of an event closes its brace at the end. *)
Lemma Event_line_brace ev :
  Event_typed ev → ∃ body, json_Marshal (Event_json ev) = String "{" (body +:+ String rbrace "") ∧ lacks rbrace body.
Proof.
  intros Hev. assert (html_text (ev_op ev) = true ∧ html_text (l_stack (ev_listen ev)) = true ∧
    html_text (l_proto (ev_listen ev)) = true ∧ html_text (l_addr (ev_listen ev)) = true ∧ 0 ≤ l_port (ev_listen ev) ∧
    lacks rbrace (ev_op ev) ∧ lacks rbrace (l_stack (ev_listen ev)) ∧ lacks rbrace (l_proto (ev_listen ev)) ∧
    lacks rbrace (l_addr (ev_listen ev))) as (H1 & H2 & H3 & H4 & Hp & L1 & L2 & L3 & L4).
  { destruct Hev as [->|[Hop Hl]]; [done|]. destruct (Listen_typed_addr _ Hl) as (Ht & _). destruct Hl as [Hs Hp Hport (ip & Hip & Ha)].
    assert (lacks rbrace (l_addr (ev_listen ev))) as Hlk.
    { rewrite Ha. apply lo_or_unspec_inv in Hip as [(ip4 & H4 & _)|[-> | ->]]; [|done..].
      rewrite (IP_String_To4 _ _ H4). by apply dotted_lacks. }
    destruct Hop as [-> | ->], Hs as [-> | ->], Hp as [-> | ->]; split_and!; done || lia. }
  rewrite Event_line by done.
  exists (dq "op" +:+ ":" +:+ dq (ev_op ev) +:+ "," +:+ dq "stack" +:+ ":" +:+ dq (l_stack (ev_listen ev)) +:+ "," +:+
    dq "proto" +:+ ":" +:+ dq (l_proto (ev_listen ev)) +:+ "," +:+ dq "addr" +:+ ":" +:+ dq (l_addr (ev_listen ev)) +:+ "," +:+
    dq "port" +:+ ":" +:+ strconv_Itoa (l_port (ev_listen ev))). split.
  - rewrite !sapp_assoc. reflexivity.
  - unfold dq. rewrite !lacks_app. split_and!; try done; [..|by apply Itoa_lacks]; by rewrite lacks_cons, lacks_app.
Qed.

Lemma starts_app p a b : starts p (a +:+ b) → starts p a ∨ ∃ q, p = a +:+ q ∧ starts q b.
Proof.
  revert p. induction a as [|c a IH]; intros p [t E]; [right; exists p; split; [done|by exists t]|].
  destruct p as [|d p]; [left; by exists (String c a)|]. rewrite !sapp_cons in E. injection E as -> E.
  destruct (IH p) as [[u ->]|(q & -> & Hq)]; [by exists t|left; by exists u|right; by exists q].
Qed.

(** Half of it is no document. *)
Lemma half_line ev p t :
  Event_typed ev → json_Marshal (Event_json ev) = p +:+ t → t ≠ "" → Event_Unmarshal p = None.
Proof.
  intros Hev Hm Ht. destruct (Event_line_brace ev Hev) as (body & Hb & Hl). rewrite Hb in Hm.
  destruct p as [|c p]; [done|]. rewrite sapp_cons in Hm. injection Hm as <- Hm.
  unfold Event_Unmarshal, json_Unmarshal. rewrite json_parse_open; [done|].
  destruct (starts_app p body (String rbrace "")) as [[u ->]|(q & -> & Hq)]; [by exists t|by apply lacks_app in Hl as [? _]|].
  destruct q as [|c q]; [by rewrite sapp_nil_r|]. destruct Hq as [u Hq]. rewrite sapp_cons in Hq. injection Hq as <- Hq.
  assert (q = "") as -> by (by destruct q). exfalso. apply Ht. clear -Hm. induction body as [|c body IH].
  - rewrite !sapp_nil, sapp_cons, sapp_nil in Hm. by injection Hm.
  - rewrite !sapp_cons in Hm. injection Hm as Hm. by apply IH.
Qed.

Lemma dropCR_lacks s : lacks CR s → dropCR s = s.
Proof.
  induction s as [|c s IH]; [done|]. intros [Hc Hs]%lacks_cons. cbn [dropCR]. rewrite decide_False; [by rewrite IH|]. by intros [? _].
Qed.

Lemma scan_from_last l cur n :
  lacks LF l → n + Z.of_nat (String.length l) < MaxScanTokenSize → cur +:+ l ≠ "" →
  scan_from l cur n = ([dropCR (cur +:+ l)], false).
Proof.
  revert cur n. induction l as [|c l IH]; intros cur n Hl Hn Hne.
  - rewrite sapp_nil_r in *. cbn [scan_from]. by rewrite decide_False.
  - apply lacks_cons in Hl as [Hc Hl]. cbn [scan_from String.length] in *. rewrite decide_False by done.
    destruct (Z.leb_spec MaxScanTokenSize (n + 1)); [lia|]. rewrite IH; [by rewrite sapp_assoc|done|lia|]. by destruct cur.
Qed.

Lemma watch_lines_last l :
  lacks LF l → lacks CR l → Z.of_nat (String.length l) < MaxScanTokenSize → l ≠ "" → watch_lines l = [Event_Unmarshal l].
Proof.
  intros. unfold watch_lines, ScanLines. rewrite scan_from_last by (done || lia). by rewrite sapp_nil, dropCR_lacks.
Qed.

Lemma watch_lines_cons l t :
  lacks LF l → lacks CR l → Z.of_nat (String.length l) < MaxScanTokenSize →
  watch_lines (l +:+ String LF t) = Event_Unmarshal l :: watch_lines t.
Proof.
  intros. unfold watch_lines, ScanLines. rewrite scan_from_line by (done || lia). destruct (scan_from t "" 0) as [ls e].
  by rewrite sapp_nil, dropCR_lacks.
Qed.

(** Of what has arrived of a stream, the reader sees the first events of it, and
    perhaps a malformed line at the end. *)
Lemma watch_lines_cut evs p :
  Forall Event_typed evs → starts p (encode_all evs) →
  ∃ evs', evs' `prefix_of` evs ∧ (watch_lines p = Some <$> evs' ∨ watch_lines p = (Some <$> evs') ++ [None]).
Proof.
  intros Hall. revert p. induction Hall as [|ev evs Hev _ IH]; intros p Hp.
  { exists []. split; [done|]. left. destruct Hp as [t Hp]. by destruct p. }
  destruct (Event_typed_wire ev Hev) as [Hok Hlen]. pose proof (Marshal_plain _ (Event_json_ok _ Hok) Hlen) as (HLF & _ & _).
  pose proof (printable_lacks CR _ (render_printable (Event_json ev) 0 (Event_json_ok _ Hok)) eq_refl) as HCR.
  fold (json_Marshal (Event_json ev)) in HCR. pose proof (Event_Unmarshal_Marshal ev Hok) as Hrt.
  unfold encode_all in Hp. cbn [foldr] in Hp. fold (encode_all evs) in Hp. unfold json_Encode in Hp. rewrite sapp_assoc in Hp.
  set (line := json_Marshal (Event_json ev)) in *. destruct (starts_app p line _ Hp) as [[u Hu]|(q & -> & Hq)].
  - destruct (decide (p = "")) as [->|Hne]; [exists []; split; [apply prefix_nil|by left]|].
    rewrite Hu in HLF, HCR, Hlen. apply lacks_app in HLF as [HLF _], HCR as [HCR _]. rewrite sapp_length in Hlen.
    rewrite watch_lines_last by (done || lia).
    destruct (decide (u = "")) as [->|Hu0].
    + rewrite sapp_nil_r in Hu. rewrite <-Hu, Hrt. exists [ev]. split; [apply prefix_cons, prefix_nil|by left].
    + rewrite (half_line ev p u) by done. exists []. split; [apply prefix_nil|by right].
  - destruct q as [|c q].
    { rewrite sapp_nil_r. exists [ev]. split; [apply prefix_cons, prefix_nil|]. left.
      rewrite watch_lines_last, Hrt; [done..|]. intros E. by rewrite E in Hrt. }
    destruct Hq as [t Hq]. rewrite !sapp_cons in Hq. injection Hq as <- Hq.
    destruct (IH q) as (evs' & Hpre & Hlines); [by exists t|].
    rewrite watch_lines_cons, Hrt by done. exists (ev :: evs'). split; [by apply prefix_cons|]. destruct Hlines as [-> | ->]; [by left|by right].
Qed.

(** ** Honest streams *)

Lemma honest_app synced S l l' :
  honest synced S (l ++ l') ↔ honest synced S l ∧ honest (synced || has_sync l) (announced S l) l'.
Proof.
  revert synced S. induction l as [|[ev|] l IH]; intros synced S; cbn [app honest announced has_sync existsb].
  - rewrite orb_false_r. tauto.
  - destruct ev as [op x]. cbn [ev_op ev_listen]. destruct (decide (op = "add")) as [->|]; [|destruct (decide (op = "remove")) as [->|]].
    + rewrite IH. cbn [orb]. rewrite bool_decide_false by done. tauto.
    + rewrite IH. rewrite bool_decide_false by done. cbn [orb]. tauto.
    + destruct (decide (op = "sync")) as [->|]; [rewrite bool_decide_true by done|rewrite bool_decide_false by done].
      * rewrite IH. cbn [orb]. rewrite orb_true_r. tauto.
      * apply IH.
  - apply IH.
Qed.

Lemma honest_prefix synced S l l' : l `prefix_of` l' → honest synced S l' → honest synced S l.
Proof. intros [k ->]. rewrite honest_app. tauto. Qed.

Lemma has_sync_app l l' : has_sync (l ++ l') = has_sync l || has_sync l'.
Proof. apply existsb_app. Qed.

(** What a handler has to say is. *)
Lemma honest_stream snapshot events :
  Forall Listen_typed snapshot → Forall change_typed events → consistent (list_to_set snapshot) events →
  honest false ∅ (Some <$> ((ev_add <$> snapshot) ++ [ev_sync] ++ events)).
Proof.
  intros Hs He Hc. rewrite fmap_app. apply honest_adds.
  - eapply Forall_impl; [exact Hs|]. by intros l [? _ ? _].
  - rewrite union_empty_l_L, fmap_app. cbn [app fmap list_fmap]. rewrite honest_sync. split; [done|]. by apply consistent_honest.
Qed.

Lemma announced_stream snapshot events :
  announced ∅ (Some <$> ((ev_add <$> snapshot) ++ [ev_sync] ++ events)) = apply_events (list_to_set snapshot) events.
Proof.
  rewrite announced_events. unfold apply_events. rewrite !foldl_app. fold (apply_events ∅ (ev_add <$> snapshot)).
  by rewrite apply_adds, union_empty_l_L.
Qed.

Lemma sync_stream snapshot events : has_sync (Some <$> ((ev_add <$> snapshot) ++ [ev_sync] ++ events)) = true.
Proof. rewrite fmap_app, has_sync_app. apply orb_true_r. Qed.

(** However much of it has arrived, and wherever it broke off. *)
Lemma honest_cut snapshot events p :
  Forall Listen_typed snapshot → Forall change_typed events → consistent (list_to_set snapshot) events →
  starts p (watch_body snapshot events) → honest false ∅ (watch_lines p).
Proof.
  intros Hs He Hc Hp. destruct (watch_lines_cut _ p (typed_stream snapshot events Hs He) Hp) as (evs & [r Hevs] & Hlines).
  pose proof (honest_stream snapshot events Hs He Hc) as Hh. rewrite Hevs, fmap_app in Hh. apply honest_app in Hh as [Hh _].
  destruct Hlines as [-> | ->]; [done|]. apply honest_app. by split.
Qed.

(** ** What handlers write *)

(** The handler has written what a stream of real changes begins with. *)
Definition written_ok (h : watch_handler) : Prop :=
  ∃ snapshot events, Forall Listen_typed snapshot ∧ Forall change_typed events ∧
    consistent (list_to_set snapshot) events ∧ starts (hd_written h) (watch_body snapshot events).

Lemma encode_all_starts evs evs' : starts (encode_all evs) (encode_all (evs ++ evs')).
Proof. rewrite encode_all_app. by eexists. Qed.

Lemma streams_written vs h snapshot events sent : streams vs h snapshot events sent → written_ok h.
Proof.
  intros [H1 _ H3 _ _ H6 H7 H8]. exists snapshot, events. split_and!; [done..|]. rewrite H3. unfold watch_body. rewrite <-H1.
  apply encode_all_starts.
Qed.

Lemma live_written s i h : server_reachable s → sv_handlers s !! i = Some h → hd_pc h ≠ Returned → written_ok h.
Proof.
  intros (vs & Hinv)%server_reachable_inv Hi Hpc. destruct (sv_ok _ _ Hinv i h Hi) as [_ Hok].
  rewrite decide_False in Hok by done. destruct Hok as (sn & es & se & Hst). by eapply streams_written.
Qed.

Lemma prefix_starts p s : String.prefix p s = true → starts p s.
Proof.
  revert s. induction p as [|c p IH]; intros s; [by exists s|]. destruct s as [|d s]; [done|]. cbn.
  destruct (ascii_dec c d) as [->|]; [|done]. intros [t ->]%IH. by exists t.
Qed.

Lemma error_written s i h part h' w' :
  server_reachable s → sv_handlers s !! i = Some h → handler_encode_error part h (sv_watcher s) = Some (h', w') →
  written_ok h'.
Proof.
  intros (vs & Hinv)%server_reachable_inv Hi He. unfold handler_encode_error in He.
  destruct (hd_pc h) as [[|ev todo]| |] eqn:Epc; try done. destruct (String.prefix part _) eqn:Ep; [|done]. injection He as <- _.
  destruct (sv_ok _ _ Hinv i h Hi) as [_ Hok]. rewrite decide_False in Hok by by rewrite Epc.
  destruct Hok as (sn & es & se & [H1 _ H3 _ _ H6 H7 H8]). exists sn, es. split_and!; [done..|]. cbn [hd_written].
  unfold watch_body. rewrite <-H1, H3, encode_all_app. unfold todo_of. rewrite Epc. cbn [encode_all foldr].
  destruct (prefix_starts _ _ Ep) as [t ->]. exists (t +:+ encode_all todo). by rewrite !sapp_assoc.
Qed.

(** A step of the server, as far as what was written on a connection goes. *)
Lemma step_written s s' i h :
  server_step s s' → sv_handlers s !! i = Some h → ∃ h', sv_handlers s' !! i = Some h' ∧ starts (hd_written h) (hd_written h').
Proof.
  assert (∀ j (hs : gmap nat watch_handler) k k', hs !! i = Some h → hs !! j = Some k → starts (hd_written k) (hd_written k') →
    ∃ h', <[j := k']> hs !! i = Some h' ∧ starts (hd_written h) (hd_written h')) as Hins.
  { intros j hs k k' Hi Hj Hst. rewrite lookup_insert. case_decide; [subst; exists k'; by simplify_eq|by exists h]. }
  intros Hs Hi. destruct Hs as [w hs fs no co Hn Hc|w hs l|w hs l|w hs j k w' Hj Ho|j s s' Hs]; cbn [sv_handlers] in *; try by exists h.
  - exists h. rewrite lookup_insert_ne; [done|]. intros ->. congruence.
  - destruct Hs as [w hs k k' Hk He|w hs k part k' w' Hk He|w hs k k' w' Hk He|w hs k k' w' Hk He]; cbn [sv_handlers] in *;
      apply (Hins j hs k k'); try done.
    + unfold handler_encode in He. destruct (hd_pc k) as [[|ev todo]| |]; try done. injection He as <-.
      destruct todo; by eexists.
    + unfold handler_encode_error in He. destruct (hd_pc k) as [[|ev todo]| |]; try done. destruct (String.prefix _ _); [|done].
      injection He as <- _. by eexists.
    + unfold handler_event in He. destruct (hd_pc k) as [| |]; try done. destruct (receive _ w) as [[ev w1]|]; [by injection He as <- _|].
      destruct (w_chans w !! hd_ch k) as [[buf []]|]; try done. by injection He as <- _.
    + unfold handler_gone in He. destruct (hd_pc k); try done. by injection He as <- _.
Qed.

(** Returned or not. *)
Lemma step_handlers_written s s' :
  server_step s s' → server_reachable s → (∀ i h, sv_handlers s !! i = Some h → written_ok h) →
  ∀ i h, sv_handlers s' !! i = Some h → written_ok h.
Proof.
  intros Hs Hr IH i h Hi. assert (server_reachable s') as Hr' by exact (rtc_r _ _ _ Hr Hs).
  destruct (decide (hd_pc h = Returned)) as [Hpc|]; [|by eapply live_written].
  assert (∀ j (hs : gmap nat watch_handler) k', <[j := k']> hs !! i = Some h → (i = j ∧ k' = h) ∨ hs !! i = Some h) as Hins.
  { intros j hs k' [[-> ->]|[_ ?]]%lookup_insert_Some; auto. }
  destruct Hs as [w hs fs no co Hn Hc|w hs l|w hs l|w hs j k w' Hj Ho|j s s' Hs]; cbn [sv_handlers] in *; try by eapply IH.
  - apply Hins in Hi as [[-> ->]|Hi]; [|by eapply IH]. unfold handleWatch_open in Ho. cbn in Ho. by injection Ho as <- _.
  - destruct Hs as [w hs k k' Hk He|w hs k part k' w' Hk He|w hs k k' w' Hk He|w hs k k' w' Hk He]; cbn [sv_handlers] in *;
      (apply Hins in Hi as [[-> ->]|Hi]; [|by eapply IH]).
    + unfold handler_encode in He. destruct (hd_pc k) as [[|ev todo]| |]; try done. injection He as <-. by destruct todo.
    + by apply (error_written (mkServer w hs) j k part h w').
    + unfold handler_event in He. destruct (hd_pc k) as [| |]; try done. destruct (receive _ w) as [[ev w1]|]; [by injection He as <- _|].
      destruct (w_chans w !! hd_ch k) as [[buf []]|]; try done. injection He as <- _. by apply (IH j k).
    + unfold handler_gone in He. destruct (hd_pc k); try done. injection He as <- _. by apply (IH j k).
Qed.

Lemma handlers_written s i h : server_reachable s → sv_handlers s !! i = Some h → written_ok h.
Proof.
  intros Hr. revert i h. apply (rtc_invariant server_step (λ s, server_reachable s ∧ ∀ i h, sv_handlers s !! i = Some h → written_ok h)
    (mkServer NewWatcher ∅) s); [|exact Hr|by split; [apply rtc_refl|]].
  intros x y Hs [Hx IH]. split; [exact (rtc_r _ _ _ Hx Hs)|by eapply step_handlers_written].
Qed.

(** Idle, it has written all there is to know. *)
Lemma idle_lines s i h :
  server_reachable s → idle s i h →
  complete (hd_written h) = hd_written h ∧ announced ∅ (watch_lines (hd_written h)) = w_current (sv_watcher s) ∧
  has_sync (watch_lines (hd_written h)) = true ∧ hd_flushed h = hd_written h.
Proof.
  intros Hr Hid. pose proof Hid as (Hi & Hpc & _). destruct (idle_stream s i h Hr Hid) as (sn & es & Hf & Hs & He & _ & Hcur).
  assert (hd_flushed h = hd_written h) as E.
  { destruct (server_reachable_inv s Hr) as (vs & Hinv). destruct (sv_ok _ _ Hinv i h Hi) as [_ Hok].
    rewrite decide_False in Hok by by rewrite Hpc. destruct Hok as (? & ? & ? & Hst). by apply (st_flushed _ _ _ _ _ Hst). }
  rewrite <-E, Hf. unfold watch_body. rewrite body_lines at 1 2. rewrite complete_lines.
  rewrite watch_lines_all by (eapply Forall_impl; [by apply typed_stream|apply Event_typed_wire]).
  rewrite <-body_lines, announced_stream, sync_stream. done.
Qed.
