(* ===== verification/ClientServers.v ===== *)
(** * client and internal/lo together: containers, their sockets and a client

    The client of [ClientSystem.v] connected to servers of [LoServer.v]: every
    container's peel runs a server on the file of its socket, a watcher of the
    client connects to the file of its container, the bytes the handler of the
    connection writes arrive little by little, and the watcher reads the lines
    among them.  Peel may be stopped and started again, a connection may break off
    in the middle of a line, and the client gets no word of either but the end of
    the stream. *)

From S2P Require Import Prelude GoStrings LoTypes LoWatcher LoWire LoListens LoServer LoStream ClientWatcher Client ClientSystem ClientSystemFacts.

(** ** Connections *)

(** A connection of a watcher: the server at its other end and its number there,
    the bytes that have arrived, whether no more will, and how many lines
    [sc.Scan] has returned. *)
Record conn := mkConn {
  cn_server : nat;
  cn_id : nat;
  cn_received : string;
  cn_cut : bool;
  cn_read : nat;
}.

(** The lines [sc.Scan] can return: those that are complete, and at the end of the
    stream what is left as well. *)
Definition cn_lines (k : conn) : list (option Event) :=
  watch_lines (if cn_cut k then cn_received k else complete (cn_received k)).

Definition with_received (r : string) (k : conn) : conn := mkConn (cn_server k) (cn_id k) r (cn_cut k) (cn_read k).
Definition cut (k : conn) : conn := mkConn (cn_server k) (cn_id k) (cn_received k) true (cn_read k).
Definition next_line (k : conn) : conn := mkConn (cn_server k) (cn_id k) (cn_received k) (cn_cut k) (S (cn_read k)).

(** ** The client and the containers *)

(** Every server that was ever started with the name of its container, the server
    that listens on the file of a name, and the connections by watcher. *)
Record fleet := mkFleet {
  fl_client : system;
  fl_servers : gmap nat (string * server);
  fl_sockets : gmap string nat;
  fl_conns : gmap nat conn;
}.

Definition fleet_init (entries : option (list dir_entry)) : fleet := mkFleet (sys_init entries) ∅ ∅ ∅.

(** A watcher that has got its response. *)
Definition connected (w : watcher) : watcher :=
  mkWatcher (wt_name w) (wt_cb w) (WConn (mkWatch (wt_counts w) ∅ false false [])) (wt_counts w) (wt_queue w) (wt_cancelled w)
    (wt_posted w) ∅.

(** Where the watchers are, as far as their streams go. *)
Definition same_stream (w w' : watcher) : Prop :=
  wt_name w' = wt_name w ∧ wt_pc w' = wt_pc w ∧ wt_listens w' = wt_listens w.
Definition keeps_streams (s s' : system) : Prop :=
  ∀ i w, sy_watchers s !! i = Some w → ∃ w', sy_watchers s' !! i = Some w' ∧ same_stream w w'.

Section Fleet.
Context (range : counts → list portKey).

(** A watcher that has read a line. *)
Definition read_line (x : watch) (line : option Event) (w : watcher) : watcher :=
  let x' := watch_line (wt_name w) range (wt_cb w) x line in
  mkWatcher (wt_name w) (wt_cb w) (WConn (rest x')) (wt_counts w) (ws_out x') (wt_cancelled w) (wt_posted w)
    (announced (wt_listens w) [line]).

(** Peel starts or stops in a container; a server does something; a watcher connects,
    which opens a handler; bytes arrive; a connection breaks off; a watcher reads a
    line; it fails to connect, leaves its connection, returns or ends; and what the
    client does besides. *)
Inductive fleet_step : fleet → fleet → Prop :=
  | fleet_start name n s svs socks cns :
      svs !! n = None →
      fleet_step (mkFleet s svs socks cns)
        (mkFleet s (<[n := (name, mkServer NewWatcher ∅)]> svs) (<[name := n]> socks) cns)
  | fleet_stop name s svs socks cns :
      fleet_step (mkFleet s svs socks cns) (mkFleet s svs (delete name socks) cns)
  | fleet_serve n name sv sv' s svs socks cns :
      svs !! n = Some (name, sv) → server_step sv sv' →
      fleet_step (mkFleet s svs socks cns) (mkFleet s (<[n := (name, sv')]> svs) socks cns)
  | fleet_connect i w n sv id h lw c ws room svs socks cns :
      ws !! i = Some w → wt_pc w = WLoop → wt_queue w = [] → wt_cancelled w || cl_killed c = false →
      socks !! wt_name w = Some n → svs !! n = Some (wt_name w, sv) →
      sv_handlers sv !! id = None → handleWatch_open true (sv_watcher sv) = (Ok h, lw) →
      fleet_step (mkFleet (mkSystem c ws room false) svs socks cns)
        (mkFleet (mkSystem c (<[i := connected w]> ws) room false)
          (<[n := (wt_name w, mkServer lw (<[id := h]> (sv_handlers sv)))]> svs) socks (<[i := mkConn n id "" false 0]> cns))
  | fleet_receive i k name sv h r s svs socks cns :
      cns !! i = Some k → cn_cut k = false → svs !! cn_server k = Some (name, sv) → sv_handlers sv !! cn_id k = Some h →
      starts (cn_received k) r → starts r (hd_written h) →
      fleet_step (mkFleet s svs socks cns) (mkFleet s svs socks (<[i := with_received r k]> cns))
  | fleet_cut i k s svs socks cns :
      cns !! i = Some k → fleet_step (mkFleet s svs socks cns) (mkFleet s svs socks (<[i := cut k]> cns))
  | fleet_read i w x k line c ws room svs socks cns :
      ws !! i = Some w → wt_pc w = WConn x → wt_queue w = [] → cns !! i = Some k → cn_lines k !! cn_read k = Some line →
      fleet_step (mkFleet (mkSystem c ws room false) svs socks cns)
        (mkFleet (mkSystem c (<[i := read_line x line w]> ws) room false) svs socks (<[i := next_line k]> cns))
  | fleet_watcher i w w' c ws room svs socks cns :
      ws !! i = Some w → watcher_step range (wt_cancelled w || cl_killed c) w w' → (∀ x, wt_pc w' ≠ WConn x) →
      fleet_step (mkFleet (mkSystem c ws room false) svs socks cns)
        (mkFleet (mkSystem c (<[i := w']> ws) room false) svs socks (delete i cns))
  | fleet_client s s' svs socks cns :
      sys_step range s s' → keeps_streams s s' →
      fleet_step (mkFleet s svs socks cns) (mkFleet s' svs socks cns).

Definition fleet_reachable (entries : option (list dir_entry)) : fleet → Prop := rtc fleet_step (fleet_init entries).

(** As in [ClientSystemFacts.v]. *)
Definition orderly_fleet_step (F F' : fleet) : Prop := fleet_step F F' ∧ orderly (sy_watchers (fl_client F')).
Definition orderly_fleet (entries : option (list dir_entry)) : fleet → Prop := rtc orderly_fleet_step (fleet_init entries).
End Fleet.

(** ** What containers advertise *)

(** What the server on a container's socket advertises. *)
Definition advertised (F : fleet) (name : string) : gset Listen :=
  match fl_sockets F !! name ≫= λ n, fl_servers F !! n with
  | Some (_, sv) => w_current (sv_watcher sv)
  | None => ∅
  end.

Definition ended (w : watcher) : bool := match wt_pc w with WEnded => true | _ => false end.

(** The ports of the listens that the containers the client watches advertise, as
    the changes name them. *)
Definition container_ports (F : fleet) : gset string :=
  ⋃ ((λ w, ids (wt_name w) (set_map key_of (advertised F (wt_name w)))) <$> filter (λ w, ended w = false) (sy_watchers (fl_client F))).

(** ** Refinement: containers are honest *)

(** A connection follows the handler at its other end, and the watcher has followed
    the connection. *)
Definition conn_ok (F : fleet) (i : nat) (k : conn) : Prop :=
  ∃ w x sv h, sy_watchers (fl_client F) !! i = Some w ∧ wt_pc w = WConn x ∧
    fl_servers F !! cn_server k = Some (wt_name w, sv) ∧ sv_handlers sv !! cn_id k = Some h ∧
    starts (cn_received k) (hd_written h) ∧ (cn_read k ≤ length (cn_lines k))%nat ∧
    wt_listens w = announced ∅ (take (cn_read k) (cn_lines k)) ∧ ws_synced x = has_sync (take (cn_read k) (cn_lines k)).

Record fleet_inv (F : fleet) : Prop := {
  fi_servers n name sv : fl_servers F !! n = Some (name, sv) → server_reachable sv;
  fi_sockets name n : fl_sockets F !! name = Some n → ∃ sv, fl_servers F !! n = Some (name, sv);
  fi_conns i k : fl_conns F !! i = Some k → conn_ok F i k;
}.

Lemma keeps_refl s : keeps_streams s s.
Proof. intros i w Hi. by exists w. Qed.

(** More of a server's past. *)
Definition later (o o' : string * server) : Prop :=
  o'.1 = o.1 ∧ ∀ id h, sv_handlers o.2 !! id = Some h → ∃ h', sv_handlers o'.2 !! id = Some h' ∧ starts (hd_written h) (hd_written h').

Lemma later_refl o : later o o.
Proof. split; [done|]. intros id h Hi. by exists h. Qed.

Lemma later_insert (svs : gmap nat (string * server)) n o o' :
  svs !! n = Some o → later o o' → ∀ m p, svs !! m = Some p → ∃ p', <[n := o']> svs !! m = Some p' ∧ later p p'.
Proof.
  intros Hn Ho m p Hm. rewrite lookup_insert. case_decide; [exists o'; by simplify_eq|]. exists p. split; [done|apply later_refl].
Qed.

Lemma conn_ok_mono F F' i k :
  conn_ok F i k →
  (∀ w, sy_watchers (fl_client F) !! i = Some w → ∃ w', sy_watchers (fl_client F') !! i = Some w' ∧ same_stream w w') →
  (∀ n o, fl_servers F !! n = Some o → ∃ o', fl_servers F' !! n = Some o' ∧ later o o') →
  conn_ok F' i k.
Proof.
  intros (w & x & sv & h & H1 & H2 & H3 & H4 & H5 & H6 & H7 & H8) Hw Hs.
  destruct (Hw w H1) as (w' & H1' & En & Ep & El). destruct (Hs _ _ H3) as ([name sv'] & H3' & E & Hh). cbn in E, Hh. subst name.
  destruct (Hh _ _ H4) as (h' & H4' & Hst). exists w', x, sv', h'. rewrite En, Ep, El. split_and!; try done. by etrans.
Qed.

(** Nothing that was read is different later. *)
Lemma conn_ok_lines F F' i k k' :
  conn_ok F i k →
  (∀ w, sy_watchers (fl_client F) !! i = Some w → sy_watchers (fl_client F') !! i = Some w) →
  fl_servers F' = fl_servers F → cn_server k' = cn_server k → cn_id k' = cn_id k → cn_read k' = cn_read k →
  (∀ name sv h, fl_servers F !! cn_server k = Some (name, sv) → sv_handlers sv !! cn_id k = Some h →
    starts (cn_received k) (hd_written h) → starts (cn_received k') (hd_written h)) →
  cn_lines k `prefix_of` cn_lines k' → conn_ok F' i k'.
Proof.
  intros (w & x & sv & h & H1 & H2 & H3 & H4 & H5 & H6 & H7 & H8) Hw Es En Ei Er Hrec [r Hr].
  assert (take (cn_read k) (cn_lines k') = take (cn_read k) (cn_lines k)) as Et by (rewrite Hr; by apply take_app_le).
  exists w, x, sv, h. rewrite Es, En, Ei, Er, Et. split_and!; try done; [by apply Hw|by eapply Hrec|]. rewrite Hr, length_app. lia.
Qed.

(** What has arrived comes from an honest container. *)
Lemma conn_honest F i k : fleet_inv F → fl_conns F !! i = Some k → honest false ∅ (cn_lines k).
Proof.
  intros [Hsv _ Hcn] Hi. destruct (Hcn i k Hi) as (w & x & sv & h & _ & _ & H3 & H4 & H5 & _).
  destruct (handlers_written sv (cn_id k) h (Hsv _ _ _ H3) H4) as (sn & es & Hs & He & Hc & Hst).
  assert (honest false ∅ (watch_lines (cn_received k))) as Hh by (apply (honest_cut sn es); try done; by etrans).
  unfold cn_lines. destruct (cn_cut k); [done|]. eapply honest_prefix; [|exact Hh].
  rewrite <-(sapp_nil_r (cn_received k)) at 2. apply watch_lines_complete.
Qed.

Lemma next_honest F i k w x line :
  fleet_inv F → fl_conns F !! i = Some k → sy_watchers (fl_client F) !! i = Some w → wt_pc w = WConn x →
  cn_lines k !! cn_read k = Some line → honest (ws_synced x) (wt_listens w) [line].
Proof.
  intros Hinv Hi Hw Hx Hl. pose proof (conn_honest F i k Hinv Hi) as Hh. destruct (fi_conns F Hinv i k Hi) as (w' & x' & sv & h & H1 & H2 & _ & _ & _ & _ & H7 & H8).
  assert (w' = w) as -> by congruence. assert (x' = x) as -> by congruence. rewrite H7, H8. rewrite <-(take_drop_middle _ _ _ Hl), honest_app in Hh. destruct Hh as [_ Hh].
  eapply honest_prefix; [|exact Hh]. by eexists.
Qed.

Section Refines.
Context (range : counts → list portKey).

Lemma read_line_step stopped w x line :
  wt_pc w = WConn x → wt_queue w = [] → honest (ws_synced x) (wt_listens w) [line] →
  watcher_step range stopped w (read_line range x line w).
Proof. destruct w as [name cb pc cs q can past ls]. cbn. intros -> ->. apply wt_line. Qed.

Lemma connected_step w : wt_pc w = WLoop → wt_queue w = [] → watcher_step range false w (connected w).
Proof. destruct w as [name cb pc cs q can past ls]. cbn. intros -> ->. by apply wt_connected. Qed.

(** A step of the client is one of [ClientSystem.v], where a container is taken to be
    honest. *)
Lemma fleet_step_client F F' :
  fleet_step range F F' → fleet_inv F → fl_client F' = fl_client F ∨ sys_step range (fl_client F) (fl_client F').
Proof.
  intros Hs Hinv. destruct Hs; cbn [fl_client]; try (by left); right; [| | |done].
  - eapply sys_watcher; [done|]. match goal with H : _ || _ = false |- _ => rewrite H end. by apply connected_step.
  - eapply sys_watcher; [done|]. apply read_line_step; [done..|]. by eapply (next_honest (mkFleet (mkSystem c ws room false) svs socks cns) i k).
  - by eapply sys_watcher.
Qed.

Lemma cut_lines k : cn_lines k `prefix_of` cn_lines (cut k).
Proof.
  unfold cn_lines. cbn [cut cn_cut cn_received]. destruct (cn_cut k); [done|].
  rewrite <-(sapp_nil_r (cn_received k)) at 2. apply watch_lines_complete.
Qed.

Lemma received_lines r k : cn_cut k = false → starts (cn_received k) r → cn_lines k `prefix_of` cn_lines (with_received r k).
Proof. unfold cn_lines. cbn [with_received cn_cut cn_received]. intros ->. apply watch_lines_starts. Qed.

(** Others are not touched. *)
Lemma other_watcher (ws : list watcher) i j w' :
  j ≠ i → ∀ w, ws !! j = Some w → ∃ w1, <[i := w']> ws !! j = Some w1 ∧ same_stream w w1.
Proof. intros Hne w Hj. exists w. by rewrite list_lookup_insert_ne. Qed.

Lemma all_servers (svs : gmap nat (string * server)) n o : svs !! n = Some o → ∃ o', svs !! n = Some o' ∧ later o o'.
Proof. intros H. exists o. split; [done|apply later_refl]. Qed.

Lemma later_step name sv sv' : server_step sv sv' → later (name, sv) (name, sv').
Proof. intros Hs. split; [done|]. intros id h Hi. by apply (step_written sv sv' id h). Qed.

Lemma open_later name sv id h lw :
  sv_handlers sv !! id = None → later (name, sv) (name, mkServer lw (<[id := h]> (sv_handlers sv))).
Proof.
  intros Hid. split; [done|]. intros id' h' Hi. cbn [snd sv_handlers] in *. exists h'.
  rewrite lookup_insert_ne; [done|]. intros ->. congruence.
Qed.

Lemma open_step sv id h lw :
  sv_handlers sv !! id = None → handleWatch_open true (sv_watcher sv) = (Ok h, lw) →
  server_step sv (mkServer lw (<[id := h]> (sv_handlers sv))).
Proof. destruct sv as [w hs]. apply server_open. Qed.

Lemma inv_servers_insert (svs : gmap nat (string * server)) n name sv' :
  (∀ m nm sv, svs !! m = Some (nm, sv) → server_reachable sv) → server_reachable sv' →
  ∀ m nm sv, <[n := (name, sv')]> svs !! m = Some (nm, sv) → server_reachable sv.
Proof. intros H Hr m nm sv [[-> [= <- <-]]|[_ Hm]]%lookup_insert_Some; [done|by eapply H]. Qed.

Lemma inv_sockets_later (svs svs' : gmap nat (string * server)) (socks : gmap string nat) :
  (∀ n o, svs !! n = Some o → ∃ o', svs' !! n = Some o' ∧ later o o') →
  (∀ name n, socks !! name = Some n → ∃ sv, svs !! n = Some (name, sv)) →
  ∀ name n, socks !! name = Some n → ∃ sv, svs' !! n = Some (name, sv).
Proof.
  intros Hl H name n Hn. destruct (H name n Hn) as [sv Hsv]. destruct (Hl _ _ Hsv) as ([name' sv'] & Hsv' & E & _). cbn in E. subst. eauto.
Qed.

(** What keeps the servers and the streams keeps what holds of the connections. *)
Lemma conns_later s s' (svs svs' : gmap nat (string * server)) socks socks' cns :
  fleet_inv (mkFleet s svs socks cns) → keeps_streams s s' →
  (∀ n o, svs !! n = Some o → ∃ o', svs' !! n = Some o' ∧ later o o') →
  ∀ i k, cns !! i = Some k → conn_ok (mkFleet s' svs' socks' cns) i k.
Proof. intros [_ _ Hcn] Hk Hl i k Hi. apply (conn_ok_mono (mkFleet s svs socks cns) _ i k (Hcn i k Hi)); [apply Hk|exact Hl]. Qed.

(** One connection is another, whose lines start with what was read of the first. *)
Lemma conns_lines s svs socks cns i k k' :
  fleet_inv (mkFleet s svs socks cns) → cns !! i = Some k →
  cn_server k' = cn_server k → cn_id k' = cn_id k → cn_read k' = cn_read k →
  (∀ name sv h, svs !! cn_server k = Some (name, sv) → sv_handlers sv !! cn_id k = Some h →
    starts (cn_received k) (hd_written h) → starts (cn_received k') (hd_written h)) →
  cn_lines k `prefix_of` cn_lines k' → fleet_inv (mkFleet s svs socks (<[i := k']> cns)).
Proof.
  intros Hinv Hi E1 E2 E3 Hrec Hp. pose proof Hinv as [Hsv Hso Hcn]. split; cbn [fl_servers fl_sockets fl_conns] in *; [done..|].
  intros j k2 [[<- <-]|[_ Hj]]%lookup_insert_Some; [|by apply Hcn]. by apply (conn_ok_lines _ _ i k _ (Hcn i k Hi)).
Qed.

(** A server takes a step. *)
Lemma serve_inv n name sv sv' s svs socks cns :
  svs !! n = Some (name, sv) → server_step sv sv' → fleet_inv (mkFleet s svs socks cns) →
  fleet_inv (mkFleet s (<[n := (name, sv')]> svs) socks cns).
Proof.
  intros Hn Hst Hinv. pose proof Hinv as [Hsv Hso _]. pose proof (later_insert svs n _ _ Hn (later_step name sv sv' Hst)) as Hl.
  split; cbn [fl_servers fl_sockets fl_conns] in *.
  - apply inv_servers_insert; [done|]. exact (rtc_r _ _ _ (Hsv _ _ _ Hn) Hst).
  - by apply (inv_sockets_later svs).
  - exact (conns_later _ _ _ _ _ _ _ Hinv (keeps_refl s) Hl).
Qed.

(** A watcher gets its response. *)
Lemma connect_inv i w n sv id h lw c ws room svs socks cns :
  ws !! i = Some w → svs !! n = Some (wt_name w, sv) → sv_handlers sv !! id = None →
  handleWatch_open true (sv_watcher sv) = (Ok h, lw) → fleet_inv (mkFleet (mkSystem c ws room false) svs socks cns) →
  fleet_inv (mkFleet (mkSystem c (<[i := connected w]> ws) room false)
    (<[n := (wt_name w, mkServer lw (<[id := h]> (sv_handlers sv)))]> svs) socks (<[i := mkConn n id "" false 0]> cns)).
Proof.
  intros Hi Hn Hid Ho Hinv.
  pose proof (serve_inv n _ _ _ _ _ _ _ Hn (open_step sv id h lw Hid Ho) Hinv) as [Hsv Hso Hcn].
  split; cbn [fl_servers fl_sockets fl_conns] in *; [done..|]. intros j k [[<- <-]|[Hne Hj]]%lookup_insert_Some.
  - exists (connected w), (mkWatch (wt_counts w) ∅ false false []), (mkServer lw (<[id := h]> (sv_handlers sv))), h.
    split_and!; try done; cbn [fl_client sy_watchers fl_servers cn_server cn_id cn_received cn_read sv_handlers connected wt_name].
    + by apply list_lookup_insert_eq, lookup_lt_is_Some_1; eexists.
    + apply lookup_insert_eq.
    + apply lookup_insert_eq.
    + by eexists.
  - apply (conn_ok_mono _ _ j k (Hcn j k Hj)); [by apply other_watcher|apply all_servers].
Qed.

(** The scanner returns a line. *)
Lemma read_inv i w x k line c ws room svs socks cns :
  ws !! i = Some w → wt_pc w = WConn x → cns !! i = Some k → cn_lines k !! cn_read k = Some line →
  fleet_inv (mkFleet (mkSystem c ws room false) svs socks cns) →
  fleet_inv (mkFleet (mkSystem c (<[i := read_line range x line w]> ws) room false) svs socks (<[i := next_line k]> cns)).
Proof.
  intros Hi Hpc Hk Hl [Hsv Hso Hcn]. split; cbn [fl_servers fl_sockets fl_conns] in *; [done..|].
  intros j k' [[<- <-]|[Hne Hj]]%lookup_insert_Some.
  2: { apply (conn_ok_mono _ _ j k' (Hcn j k' Hj)); [by apply other_watcher|apply all_servers]. }
  destruct (Hcn i k Hk) as (w1 & x1 & sv & h & H1 & H2 & H3 & H4 & H5 & H6 & H7 & H8). cbn [fl_client sy_watchers fl_servers] in *.
  assert (w1 = w) as -> by congruence. assert (x1 = x) as -> by congruence.
  assert (take (S (cn_read k)) (cn_lines k) = take (cn_read k) (cn_lines k) ++ [line]) as Et by by apply take_S_r.
  eexists (read_line range x line w), _, sv, h. change (cn_lines (next_line k)) with (cn_lines k). cbn [next_line cn_server cn_id cn_received cn_read].
  rewrite Et, announced_app, has_sync_app, <-H7, <-H8. split_and!; try done.
  - by apply list_lookup_insert_eq, lookup_lt_is_Some_1; eexists.
  - by apply lookup_lt_Some in Hl.
  - cbn [rest ws_synced]. destruct line as [ev|]; cbn [watch_line has_sync existsb]; [by rewrite watch_event_synced, orb_false_r|by rewrite orb_false_r].
Qed.

Lemma fleet_step_inv F F' : fleet_step range F F' → fleet_inv F → fleet_inv F'.
Proof.
  destruct 1 as [name n s svs socks cns Hn|name s svs socks cns| | |i k name sv h r s svs socks cns Hi Hcut Hn Hid Hr Hw|i k s svs socks cns Hi
    | |i w w' c ws room svs socks cns Hi Hst Hnc|s s' svs socks cns Hst Hkeep]; intros Hinv; pose proof Hinv as [Hsv Hso Hcn].
  - assert (∀ m o, svs !! m = Some o → ∃ o', <[n := (name, mkServer NewWatcher ∅)]> svs !! m = Some o' ∧ later o o') as Hl.
    { intros m o Hm. exists o. split; [|apply later_refl]. rewrite lookup_insert_ne; [done|]. intros ->. congruence. }
    split; cbn [fl_servers fl_sockets fl_conns] in *.
    + apply inv_servers_insert; [done|apply rtc_refl].
    + intros name' m [[<- <-]|[_ Hm]]%lookup_insert_Some; [eexists; apply lookup_insert_eq|]. by apply (inv_sockets_later svs _ socks).
    + exact (conns_later _ _ _ _ _ _ _ Hinv (keeps_refl s) Hl).
  - split; cbn [fl_servers fl_sockets fl_conns] in *; [done| |done]. intros name' m [_ Hm]%lookup_delete_Some. by apply Hso.
  - by eapply serve_inv.
  - by apply connect_inv.
  - apply (conns_lines s svs socks cns i k); try done; [|by apply received_lines]. intros name' sv' h' Hn' Hid' _. simplify_eq. done.
  - apply (conns_lines s svs socks cns i k); try done. apply cut_lines.
  - by apply read_inv.
  - split; cbn [fl_servers fl_sockets fl_conns] in *; [done..|]. intros j k [Hne Hj]%lookup_delete_Some.
    apply (conn_ok_mono _ _ j k (Hcn j k Hj)); [by apply other_watcher|apply all_servers].
  - split; cbn [fl_servers fl_sockets fl_conns] in *; [done..|].
    exact (conns_later _ _ _ _ _ _ _ Hinv Hkeep (all_servers svs)).
Qed.

Lemma fleet_init_inv entries : fleet_inv (fleet_init entries).
Proof. by split. Qed.
End Refines.

(** ** Being up to date *)

(** The handler at the other end is idle, and all it has written was read. *)
Definition up_to_date (F : fleet) (i : nat) (w : watcher) : Prop :=
  ∃ k sv h, fl_conns F !! i = Some k ∧ fl_sockets F !! wt_name w = Some (cn_server k) ∧
    fl_servers F !! cn_server k = Some (wt_name w, sv) ∧ idle sv (cn_id k) h ∧
    cn_received k = hd_written h ∧ cn_read k = length (cn_lines k).

Lemma up_to_date_ports F initial i w :
  fleet_inv F → sys_inv initial (fl_client F) → sy_watchers (fl_client F) !! i = Some w → up_to_date F i w →
  dom (current w) = set_map key_of (advertised F (wt_name w)).
Proof.
  intros Hinv Hsys Hi (k & sv & h & Hk & Hso & Hsv & Hid & Hrec & Hread).
  destruct (fi_conns F Hinv i k Hk) as (w1 & x & sv1 & h1 & H1 & H2 & H3 & H4 & _ & _ & H7 & H8).
  assert (w1 = w) as -> by congruence. assert (sv1 = sv) as -> by congruence.
  assert (h1 = h) as -> by (destruct Hid as [? _]; congruence).
  destruct (idle_lines sv (cn_id k) h (fi_servers F Hinv _ _ _ Hsv) Hid) as (Hc & Ha & Hs & _).
  assert (cn_lines k = watch_lines (hd_written h)) as El by (unfold cn_lines; rewrite Hrec, Hc; by destruct (cn_cut k)).
  rewrite Hread, firstn_all, El in H7, H8. rewrite Ha in H7. rewrite Hs in H8.
  pose proof (si_watchers _ _ Hsys) as Hws. rewrite Forall_lookup in Hws. pose proof (wi_pc w (Hws i w Hi)) as Hpc.
  rewrite H2 in Hpc. destruct Hpc as [[_ _ Hf] _]. rewrite H8 in Hf. destruct Hf as [Hf _].
  unfold current, advertised. rewrite H2, Hso. cbn [mbind option_bind]. rewrite Hsv, <-H7. by apply ClientWatcher.tracks_dom.
Qed.

Lemma open_container_ports F initial :
  fleet_inv F → sys_inv initial (fl_client F) →
  (∀ i w, sy_watchers (fl_client F) !! i = Some w → ended w = false → up_to_date F i w) →
  open_ports (fl_client F) = container_ports F.
Proof.
  intros Hinv Hsys Hall. unfold open_ports, container_ports. apply set_eq. intros p. rewrite !elem_of_union_list. split.
  - intros (V & (w & -> & Hw)%list_elem_of_fmap & Hp). apply list_elem_of_lookup in Hw as [i Hi].
    assert (ended w = false) as He by (unfold ended, current in *; by destruct (wt_pc w)).
    exists (ids (wt_name w) (dom (current w))). split; [|done].
    apply list_elem_of_fmap. exists w. split; [by rewrite (up_to_date_ports F initial i w) by (try done; by apply Hall)|]. apply list_elem_of_filter. split; [done|]. by apply list_elem_of_lookup; exists i.
  - intros (V & (w & -> & [He Hw]%list_elem_of_filter)%list_elem_of_fmap & Hp). apply list_elem_of_lookup in Hw as [i Hi].
    exists (ids (wt_name w) (dom (current w))). split; [apply list_elem_of_fmap; exists w; split; [done|]; by apply list_elem_of_lookup; exists i|].
    by rewrite (up_to_date_ports F initial i w) by (try done; by apply Hall).
Qed.

(** ** Catching up *)

(** The connection leads to the server on the container's socket, which has not
    dropped the subscriber. *)
Definition linked (F : fleet) (i : nat) (w : watcher) : Prop :=
  ∃ k sv h, fl_conns F !! i = Some k ∧ fl_sockets F !! wt_name w = Some (cn_server k) ∧
    fl_servers F !! cn_server k = Some (wt_name w, sv) ∧ sv_handlers sv !! cn_id k = Some h ∧
    hd_ch h ∈ w_subs (sv_watcher sv) ∧ cn_cut k = false.

(** The container is up, and the watcher has not been told to end. *)
Definition reaches (F : fleet) (w : watcher) : Prop :=
  is_Some (fl_sockets F !! wt_name w) ∧ wt_cancelled w = false ∧ wt_pc w ≠ WClosing ∧ wt_pc w ≠ WEnded.

(** What watcher [i], of the container [nm], leaves alone while it catches up. *)
Record others (i : nat) (nm : string) (F F' : fleet) : Prop := {
  ot_sockets : fl_sockets F' = fl_sockets F;
  ot_advertised name : advertised F' name = advertised F name;
  ot_servers n name sv : name ≠ nm → fl_servers F !! n = Some (name, sv) → fl_servers F' !! n = Some (name, sv);
  ot_conns j : j ≠ i → fl_conns F' !! j = fl_conns F !! j;
  ot_watchers j : j ≠ i → option_Forall2 stays (sy_watchers (fl_client F) !! j) (sy_watchers (fl_client F') !! j);
  ot_forwards : forwards (sy_client (fl_client F)) (sy_client (fl_client F'));
}.

#[export] Instance others_preorder i nm : PreOrder (others i nm).
Proof.
  split.
  - by intros F.
  - intros F1 F2 F3 [A1 A2 A3 A4 A5 A6] [B1 B2 B3 B4 B5 B6]. split; [congruence|congruence|auto|..].
    + intros j Hj. by rewrite B4, A4.
    + intros j Hj. by etrans; [apply A5|apply B5].
    + by etrans.
Qed.

(** A client past its startup, and before its end. *)
Record running (initial : list string) (F : fleet) : Prop := {
  ru_inv : fleet_inv F;
  ru_sys : sys_inv initial (fl_client F);
  ru_orderly : orderly (sy_watchers (fl_client F));
  ru_changes : cl_changes (sy_client (fl_client F)) ≠ [];
  ru_phase : cl_phase (sy_client (fl_client F)) ≠ PStopped;
}.

Lemma still_open initial F : running initial F → ∃ c ws room, fl_client F = mkSystem c ws room false.
Proof.
  intros [_ [_ _ _ _ Hcl] _ _ Hp]. destruct (fl_client F) as [c ws room []]; [by destruct Hp, Hcl|by eexists _, _, _].
Qed.

Lemma orderly_stays ws ws' : Forall2 stays ws ws' → orderly ws → orderly ws'.
Proof.
  intros Hs Ho i j w w' Hij Hi Hj En.
  destruct (Forall2_lookup_r _ _ _ _ _ Hs Hi) as (v & Hv & E1 & E2 & _), (Forall2_lookup_r _ _ _ _ _ Hs Hj) as (v' & Hv' & E3 & _).
  rewrite E2. apply (Ho i j v v'); [done..|congruence].
Qed.

Lemma orderly_update ws i w w' :
  orderly ws → ws !! i = Some w → wt_pc w ≠ WEnded → wt_name w' = wt_name w → orderly (<[i := w']> ws).
Proof.
  intros Ho Hi Hpc En a b v v' Hab Ha Hb E. pose proof (lookup_lt_Some _ _ _ Hi) as Hlt.
  rewrite list_lookup_insert in Ha, Hb.
  destruct (decide (i = a ∧ _)) as [[? _]|Ha'], (decide (i = b ∧ _)) as [[? _]|Hb'].
  - lia.
  - injection Ha as <-. destruct Hpc. subst a. apply (Ho i b w v'); [done..|congruence].
  - injection Hb as <-. subst b. apply (Ho a i v w); [done..|congruence].
  - by apply (Ho a b v v').
Qed.

Section CatchUp.
Context (range : counts → list portKey) (range_spec : ∀ cs, range cs ≡ₚ elements (dom cs)).

Lemma running_step initial F F' :
  orderly_fleet_step range F F' → running initial F → forwards (sy_client (fl_client F)) (sy_client (fl_client F')) →
  cl_phase (sy_client (fl_client F')) ≠ PStopped → running initial F'.
Proof.
  intros [Hs Ho] [Hinv Hsys _ Hc _] (_ & _ & Hf) Hp. split; [by eapply fleet_step_inv| |done|by apply Hf|done].
  destruct (fleet_step_client range F F' Hs Hinv) as [->|Hst]; [done|]. by apply (sys_step_inv range range_spec initial _ _ Hst).
Qed.

(** The client on its own. *)
Lemma settle_fleet s s' svs socks cns :
  rtc (settle_step range) s s' → orderly (sy_watchers s) →
  rtc (orderly_fleet_step range) (mkFleet s svs socks cns) (mkFleet s' svs socks cns).
Proof.
  intros Hs Ho. induction Hs as [|s s1 s' [Hst Hstay] _ IH]; [done|].
  pose proof (orderly_stays _ _ Hstay Ho) as Ho1. eapply rtc_l; [|by apply IH]. split; [|done].
  apply fleet_client; [done|]. intros i w Hi. destruct (Forall2_lookup_l _ _ _ _ _ Hstay Hi) as (w' & Hi' & ? & ? & ? & _). by exists w'.
Qed.

Lemma fleet_settles initial F :
  running initial F →
  ∃ s', let F' := mkFleet s' (fl_servers F) (fl_sockets F) (fl_conns F) in
    rtc (orderly_fleet_step range) F F' ∧ running initial F' ∧ quiet s' ∧ (∀ i nm, others i nm F F') ∧
    Forall2 stays (sy_watchers (fl_client F)) (sy_watchers s').
Proof.
  intros Hr. destruct (still_open _ _ Hr) as (c & ws & room & E). destruct F as [s svs socks cns]. cbn in E. subst s. cbn [fl_client fl_servers fl_sockets fl_conns].
  destruct (settles range range_spec initial c ws room) as (c' & ws' & Hs & Hq & _ & Hf); [apply Hr..|].
  pose proof (settle_stays range _ _ Hs) as Hstay. cbn [sy_watchers] in Hstay.
  exists (mkSystem c' ws' room false). assert (∀ i nm, others i nm (mkFleet (mkSystem c ws room false) svs socks cns) (mkFleet (mkSystem c' ws' room false) svs socks cns)) as Ho.
  { intros i nm. split; try done. intros j _. cbn. by apply Forall2_lookup. }
  pose proof (settle_fleet _ _ svs socks cns Hs (ru_orderly _ _ Hr)) as Hsteps. split_and!; [done| |done|done|done].
  split.
  - apply (rtc_invariant (orderly_fleet_step range) fleet_inv _ _ (λ x y H, fleet_step_inv range x y (proj1 H)) Hsteps), Hr.
  - apply (rtc_invariant (sys_step range) (sys_inv initial) _ _ (λ x y, sys_step_inv range range_spec initial x y) (settle_sys range _ _ Hs)), Hr.
  - eapply orderly_stays; [exact Hstay|apply Hr].
  - apply Hf, (ru_changes _ _ Hr).
  - destruct Hq as [Hp _]. cbn in Hp |- *. by rewrite Hp.
Qed.

Lemma quiet_idle s i w : quiet s → sy_watchers s !! i = Some w → wt_queue w = [].
Proof. intros (_ & _ & H) Hi. rewrite Forall_lookup in H. by eapply H. Qed.
(** A watcher's move and what it posts then. *)
Lemma move initial F i w w' F1 :
  running initial F → quiet (fl_client F) → sy_watchers (fl_client F) !! i = Some w → wt_pc w ≠ WEnded →
  wt_name w' = wt_name w → fleet_step range F F1 → others i (wt_name w) F F1 →
  sy_client (fl_client F1) = sy_client (fl_client F) → sy_watchers (fl_client F1) = <[i := w']> (sy_watchers (fl_client F)) →
  ∃ F' w2, rtc (orderly_fleet_step range) F F' ∧ running initial F' ∧ quiet (fl_client F') ∧ others i (wt_name w) F F' ∧
    fl_servers F' = fl_servers F1 ∧ fl_conns F' = fl_conns F1 ∧ sy_watchers (fl_client F') !! i = Some w2 ∧ stays w' w2.
Proof.
  intros Hr Hq Hi Hpc En Hs Ho Ec Ew.
  assert (orderly_fleet_step range F F1) as Hs1.
  { split; [done|]. rewrite Ew. by eapply orderly_update; [apply Hr|..]. }
  assert (running initial F1) as Hr1.
  { eapply running_step; [exact Hs1|done|by rewrite Ec|]. rewrite Ec. apply Hr. }
  destruct (fleet_settles initial F1 Hr1) as (s' & Hsteps & Hr' & Hq' & Ho' & Hstay).
  assert (sy_watchers (fl_client F1) !! i = Some w') as Hi1.
  { rewrite Ew. apply list_lookup_insert_eq, lookup_lt_is_Some_1. by eexists. }
  destruct (Forall2_lookup_l _ _ _ _ _ Hstay Hi1) as (w2 & Hi2 & Hst2).
  eexists _, w2. split_and!; [by eapply rtc_l|exact Hr'|exact Hq'|by etrans|done|done|done|done].
Qed.

(** It reads all there is to read. *)
Lemma reads_all initial n F i w x k :
  (length (cn_lines k) - cn_read k)%nat = n → running initial F → quiet (fl_client F) →
  sy_watchers (fl_client F) !! i = Some w → wt_pc w = WConn x → fl_conns F !! i = Some k →
  ∃ F' w' x', rtc (orderly_fleet_step range) F F' ∧ running initial F' ∧ quiet (fl_client F') ∧ others i (wt_name w) F F' ∧
    sy_watchers (fl_client F') !! i = Some w' ∧ wt_name w' = wt_name w ∧ wt_pc w' = WConn x' ∧ wt_cancelled w' = wt_cancelled w ∧
    fl_servers F' = fl_servers F ∧
    fl_conns F' !! i = Some (mkConn (cn_server k) (cn_id k) (cn_received k) (cn_cut k) (length (cn_lines k))).
Proof.
  revert F w x k. induction n as [|n IH]; intros F w x k Hn Hr Hq Hi Hx Hk.
  { exists F, w, x. split_and!; try done. rewrite Hk. f_equal.
    destruct (fi_conns F (ru_inv _ _ Hr) i k Hk) as (? & ? & ? & ? & _ & _ & _ & _ & _ & H6 & _).
    destruct k as [sv id rec ct rd]. cbn [cn_server cn_id cn_received cn_cut cn_read] in *. f_equal. lia. }
  destruct (cn_lines k !! cn_read k) as [line|] eqn:El; [|apply lookup_ge_None in El; lia].
  destruct (still_open _ _ Hr) as (c & ws & room & E). destruct F as [s svs socks cns]. cbn in E. subst s. cbn [fl_client fl_servers fl_sockets fl_conns sy_watchers] in *.
  pose proof (quiet_idle _ i w Hq Hi) as Hqi.
  pose proof (fleet_read range i w x k line c ws room svs socks cns Hi Hx Hqi Hk El) as Hst.
  set (F1 := mkFleet _ _ _ _) in Hst at 2.
  destruct (move initial _ i w (read_line range x line w) F1 Hr Hq Hi) as (F2 & w2 & Hs2 & Hr2 & Hq2 & Ho2 & Esv & Ecn & Hi2 & E1 & E2 & _ & E4); try done.
  { by rewrite Hx. }
  { split; try done; intros j Hj; unfold F1; cbn; [by rewrite lookup_insert_ne|]. by rewrite list_lookup_insert_ne. }
  cbn [fl_servers fl_conns F1] in Esv, Ecn.
  destruct (IH F2 w2 (rest (watch_line (wt_name w) range (wt_cb w) x line)) (next_line k)) as (F3 & w3 & x3 & Hs3 & Hr3 & Hq3 & Ho3 & Hi3 & En3 & Hx3 & Ec3 & Esv3 & Hk3).
  - change (cn_lines (next_line k)) with (cn_lines k). cbn [cn_read next_line]. lia.
  - done.
  - done.
  - done.
  - by rewrite E2.
  - rewrite Ecn. apply lookup_insert_eq.
  - rewrite E1 in *. cbn [wt_name read_line] in *. exists F3, w3, x3. split_and!; try done; [by etrans|by etrans|by rewrite Ec3, E4|by rewrite Esv3].
Qed.
(** The handler at the other end does what it has to do. *)
Lemma serve_fleet id sv sv' n name s svs socks cns :
  rtc (serve_step id) sv sv' → svs !! n = Some (name, sv) → orderly (sy_watchers s) →
  rtc (orderly_fleet_step range) (mkFleet s svs socks cns) (mkFleet s (<[n := (name, sv')]> svs) socks cns).
Proof.
  intros Hs. revert svs. induction Hs as [sv|sv sv1 sv' Hst _ IH]; intros svs Hn Ho; [by rewrite insert_id|].
  eapply rtc_l; [split; [by eapply fleet_serve; [|by apply (server_serve id)]|done]|].
  rewrite <-(insert_insert_eq svs n (name, sv') (name, sv1)). apply IH; [apply lookup_insert_eq|done].
Qed.

Lemma advertised_later F n name sv sv' s cns :
  fl_servers F !! n = Some (name, sv) → w_current (sv_watcher sv') = w_current (sv_watcher sv) →
  ∀ m, advertised (mkFleet s (<[n := (name, sv')]> (fl_servers F)) (fl_sockets F) cns) m = advertised F m.
Proof.
  intros Hn Hc m. unfold advertised. cbn [fl_sockets fl_servers]. destruct (fl_sockets F !! m) as [n'|]; [|done].
  cbn [mbind option_bind]. rewrite lookup_insert. case_decide; [subst; by rewrite Hn|done].
Qed.

Lemma others_server F i nm n sv sv' s cns :
  fl_servers F !! n = Some (nm, sv) → w_current (sv_watcher sv') = w_current (sv_watcher sv) →
  (∀ j, j ≠ i → cns !! j = fl_conns F !! j) →
  (∀ j, j ≠ i → option_Forall2 stays (sy_watchers (fl_client F) !! j) (sy_watchers s !! j)) →
  forwards (sy_client (fl_client F)) (sy_client s) →
  others i nm F (mkFleet s (<[n := (nm, sv')]> (fl_servers F)) (fl_sockets F) cns).
Proof.
  intros Hn Hc Hcn Hw Hf. split; try done; [by eapply advertised_later|].
  intros m name sv1 Hne Hm. cbn. rewrite lookup_insert_ne; [done|]. intros ->. congruence.
Qed.

Lemma linked_catches initial F i w :
  running initial F → quiet (fl_client F) → sy_watchers (fl_client F) !! i = Some w → linked F i w →
  ∃ F' w', rtc (orderly_fleet_step range) F F' ∧ running initial F' ∧ quiet (fl_client F') ∧ others i (wt_name w) F F' ∧
    sy_watchers (fl_client F') !! i = Some w' ∧ wt_name w' = wt_name w ∧ up_to_date F' i w'.
Proof.
  intros Hr Hq Hi (k & sv & h & Hk & Hso & Hn & Hid & Hsub & Hcut). pose proof (ru_inv _ _ Hr) as Hinv.
  destruct (drain sv (cn_id k) h (fi_servers F Hinv _ _ _ Hn) Hid Hsub) as (sv' & h' & Hdr & Hidle & Hcur & _).
  destruct F as [s svs socks cns]. cbn [fl_client fl_servers fl_sockets fl_conns] in *.
  set (F1 := mkFleet s (<[cn_server k := (wt_name w, sv')]> svs) socks cns).
  assert (rtc (orderly_fleet_step range) (mkFleet s svs socks cns) F1) as Hs1 by (eapply serve_fleet; [done|done|apply Hr]).
  assert (fleet_inv F1) as Hinv1 by exact (rtc_invariant (orderly_fleet_step range) fleet_inv _ _ (λ x y H, fleet_step_inv range x y (proj1 H)) Hs1 Hinv).
  assert (others i (wt_name w) (mkFleet s svs socks cns) F1) as Ho1.
  { apply (others_server (mkFleet s svs socks cns) i (wt_name w) (cn_server k) sv sv' s cns); try done. }
  assert (running initial F1) as Hr1 by (destruct Hr; by split).
  destruct (fi_conns F1 Hinv1 i k Hk) as (w1 & x & sv1 & h1 & H1 & Hx & H3 & H4 & H5 & _). cbn [fl_client fl_servers F1] in H1, H3.
  assert (w1 = w) as -> by congruence. rewrite lookup_insert_eq in H3. injection H3 as <-.
  assert (h1 = h') as -> by (destruct Hidle as [? _]; congruence).
  set (k2 := with_received (hd_written h') k). set (F2 := mkFleet s (fl_servers F1) socks (<[i := k2]> cns)).
  assert (orderly_fleet_step range F1 F2) as Hs2.
  { split; [|apply Hr]. apply (fleet_receive range i k (wt_name w) sv' h'); try done. cbn. apply lookup_insert_eq. }
  assert (others i (wt_name w) F1 F2) as Ho2.
  { split; try done. intros j Hj. cbn. by rewrite lookup_insert_ne. }
  assert (running initial F2) as Hr2 by (eapply running_step; [exact Hs2|done|done|apply Hr]).
  destruct (reads_all initial _ F2 i w x k2 eq_refl Hr2 Hq Hi Hx (lookup_insert_eq _ _ _))
    as (F3 & w3 & x3 & Hs3 & Hr3 & Hq3 & Ho3 & Hi3 & En3 & _ & _ & Esv & Hk3).
  exists F3, w3. split_and!; [etrans; [exact Hs1|]; by eapply rtc_l|done|done|etrans; [exact Ho1|]; by etrans|done|done|].
  eexists _, sv', h'. rewrite En3, (ot_sockets _ _ _ _ Ho3), Esv. split_and!; [exact Hk3|done|cbn; apply lookup_insert_eq|done..].
Qed.

(** A watcher can get itself a connection. *)
Lemma reaches_linked initial F i w :
  running initial F → quiet (fl_client F) → cl_killed (sy_client (fl_client F)) = false →
  sy_watchers (fl_client F) !! i = Some w → reaches F w →
  ∃ F' w', rtc (orderly_fleet_step range) F F' ∧ running initial F' ∧ quiet (fl_client F') ∧ others i (wt_name w) F F' ∧
    sy_watchers (fl_client F') !! i = Some w' ∧ wt_name w' = wt_name w ∧ linked F' i w'.
Proof.
  intros Hr Hq Hk Hi ([n Hn] & Hcan & Hncl & Hnend).
  (* leave the connection, if there is one *)
  assert (∃ F1 w1, rtc (orderly_fleet_step range) F F1 ∧ running initial F1 ∧ quiet (fl_client F1) ∧ others i (wt_name w) F F1 ∧
    sy_watchers (fl_client F1) !! i = Some w1 ∧ wt_name w1 = wt_name w ∧ wt_pc w1 = WLoop ∧ wt_cancelled w1 = false)
    as (F1 & w1 & Hs1 & Hr1 & Hq1 & Ho1 & Hi1 & En1 & Hp1 & Hc1).
  { destruct (wt_pc w) as [|x| |] eqn:Hpc; try done; [by exists F, w|].
    pose proof (quiet_idle _ i w Hq Hi) as Hqi. destruct (still_open _ _ Hr) as (c & ws & room & E).
    destruct F as [s svs socks cns]. cbn in E. subst s. cbn [fl_client sy_watchers] in *.
    destruct w as [name cb pc cs q can past ls]. cbn [wt_pc wt_queue wt_cancelled wt_name] in *. subst pc q can.
    pose proof (wt_eof range (false || cl_killed c) name cb x cs false past ls) as Hst. set (w' := mkWatcher _ _ _ _ _ _ _ _) in Hst at 2.
    destruct (move initial _ i _ w' _ Hr Hq Hi ltac:(done) eq_refl (fleet_watcher range i _ w' c ws room svs socks cns Hi Hst ltac:(done)))
      as (F2 & w2 & Hs2 & Hr2 & Hq2 & Ho2 & _ & _ & Hi2 & E1 & E2 & _ & E4); try done.
    { split; try done; intros j Hj; cbn; [by rewrite lookup_delete_ne|]. by rewrite list_lookup_insert_ne. }
    by exists F2, w2. }
  (* connect *)
  pose proof (quiet_idle _ i w1 Hq1 Hi1) as Hqi. destruct (still_open _ _ Hr1) as (c & ws & room & E).
  pose proof (ot_sockets _ _ _ _ Ho1) as Eso. pose proof (ot_forwards _ _ _ _ Ho1) as (Ek & _). rewrite Hk in Ek.
  destruct (fi_sockets F1 (ru_inv _ _ Hr1) (wt_name w1) n) as [sv Hsv]; [by rewrite Eso, En1|].
  destruct F1 as [s svs socks cns]. cbn in E. subst s. cbn [fl_client fl_sockets fl_servers fl_conns sy_watchers sy_client] in *.
  set (id := fresh (dom (sv_handlers sv))).
  assert (sv_handlers sv !! id = None) as Hid by (apply not_elem_of_dom, is_fresh).
  destruct (handleWatch_open true (sv_watcher sv)) as [[h|] lw] eqn:Ho; [|done].
  assert (w_current lw = w_current (sv_watcher sv) ∧ hd_ch h ∈ w_subs lw) as [Hcur Hsub].
  { unfold handleWatch_open in Ho. cbn [negb] in Ho. unfold Subscribe in Ho. injection Ho as <- <-. cbn. split; [done|]. set_solver. }
  rewrite <-Eso, <-En1 in Hn.
  pose proof (fleet_connect range i w1 n sv id h lw c ws room svs socks cns Hi1 Hp1 Hqi ltac:(by rewrite Hc1) Hn Hsv Hid Ho) as Hst.
  set (F2 := mkFleet _ _ _ _) in Hst at 2.
  destruct (move initial _ i w1 (connected w1) F2 Hr1 Hq1 Hi1) as (F3 & w3 & Hs3 & Hr3 & Hq3 & Ho3 & Esv3 & Ecn3 & Hi3 & E3 & _); try done.
  { by rewrite Hp1. }
  { apply (others_server (mkFleet (mkSystem c ws room false) svs socks cns) i (wt_name w1) n sv); try done; intros j Hj; cbn.
    - by rewrite lookup_insert_ne.
    - by rewrite list_lookup_insert_ne. }
  exists F3, w3. rewrite En1 in *. split_and!; [by etrans|done|done|by etrans|done|by rewrite E3|].
  eexists (mkConn n id "" false 0), _, h. rewrite Esv3, Ecn3, E3, (ot_sockets _ _ _ _ Ho3). cbn [connected wt_name cn_server cn_id cn_cut fl_servers fl_conns fl_sockets F2].
  rewrite En1. split_and!; [apply lookup_insert_eq|done|apply lookup_insert_eq|apply lookup_insert_eq|done|done].
Qed.
(** A watcher that is connected, or can be. *)
Definition can_follow (F : fleet) (i : nat) (w : watcher) : Prop := linked F i w ∨ reaches F w.

Lemma catch_up_one initial F i w :
  running initial F → quiet (fl_client F) → cl_killed (sy_client (fl_client F)) = false →
  sy_watchers (fl_client F) !! i = Some w → can_follow F i w →
  ∃ F' w', rtc (orderly_fleet_step range) F F' ∧ running initial F' ∧ quiet (fl_client F') ∧ others i (wt_name w) F F' ∧
    sy_watchers (fl_client F') !! i = Some w' ∧ wt_name w' = wt_name w ∧ up_to_date F' i w'.
Proof.
  intros Hr Hq Hk Hi [Hl|Hre]; [by eapply linked_catches|].
  destruct (reaches_linked initial F i w Hr Hq Hk Hi Hre) as (F1 & w1 & Hs1 & Hr1 & Hq1 & Ho1 & Hi1 & En1 & Hl1).
  destruct (linked_catches initial F1 i w1 Hr1 Hq1 Hi1 Hl1) as (F2 & w2 & Hs2 & Hr2 & Hq2 & Ho2 & Hi2 & En2 & Hu).
  rewrite En1 in *. exists F2, w2. split_and!; [by etrans|done|done|by etrans|done|done|done].
Qed.

Lemma ended_live w : ended w = false ↔ wt_pc w ≠ WEnded.
Proof. unfold ended. by destruct (wt_pc w). Qed.

Lemma up_to_date_live F i w : fleet_inv F → sy_watchers (fl_client F) !! i = Some w → up_to_date F i w → ended w = false.
Proof.
  intros Hinv Hi (k & _ & _ & Hk & _). destruct (fi_conns F Hinv i k Hk) as (w1 & x & _ & _ & H1 & H2 & _).
  assert (w1 = w) as -> by congruence. unfold ended. by rewrite H2.
Qed.

(** What one watcher does is nothing to the others. *)
Lemma others_up_to_date i nm F F' j w w' :
  others i nm F F' → j ≠ i → wt_name w ≠ nm → stays w w' → up_to_date F j w → up_to_date F' j w'.
Proof.
  intros Ho Hj Hn (En & _) (k & sv & h & H1 & H2 & H3 & H4). exists k, sv, h.
  rewrite En, (ot_conns _ _ _ _ Ho), (ot_sockets _ _ _ _ Ho) by done. split_and!; try done; [|by apply H4..]. by apply (ot_servers _ _ _ _ Ho).
Qed.

Lemma others_can_follow i nm F F' j w w' :
  others i nm F F' → j ≠ i → wt_name w ≠ nm → stays w w' → can_follow F j w → can_follow F' j w'.
Proof.
  intros Ho Hj Hn (En & Ep & _ & Ec) [(k & sv & h & H1 & H2 & H3 & H4)|(H1 & H2 & H3 & H4)]; [left|right].
  - exists k, sv, h. rewrite En, (ot_conns _ _ _ _ Ho), (ot_sockets _ _ _ _ Ho) by done. split_and!; try done; [|by apply H4..]. by apply (ot_servers _ _ _ _ Ho).
  - unfold reaches. by rewrite En, Ep, Ec, (ot_sockets _ _ _ _ Ho).
Qed.

Lemma same_can_follow F F' i w w' :
  fl_servers F' = fl_servers F → fl_sockets F' = fl_sockets F → fl_conns F' = fl_conns F → stays w w' →
  can_follow F i w → can_follow F' i w'.
Proof. intros E1 E2 E3 (E4 & E5 & _ & E6). unfold can_follow, linked, reaches. by rewrite E1, E2, E3, E4, E5, E6. Qed.

Lemma orderly_names ws i j w w' :
  orderly ws → i ≠ j → ws !! i = Some w → ws !! j = Some w' → ended w = false → ended w' = false → wt_name w ≠ wt_name w'.
Proof.
  rewrite !ended_live. intros Ho Hij Hi Hj H H' E. destruct (decide (i < j)%nat); [by apply H, (Ho i j w w')|].
  apply H', (Ho j i w' w); [lia|done..].
Qed.

(** The same watchers, as far as their names and ends go. *)
Definition same_watcher (w w' : watcher) : Prop := wt_name w' = wt_name w ∧ ended w' = ended w.
#[export] Instance same_watcher_preorder : PreOrder same_watcher.
Proof. split; [done|]. intros ? ? ? [] []. split; congruence. Qed.

Lemma others_same i F F' w w' :
  others i (wt_name w) F F' → sy_watchers (fl_client F) !! i = Some w → sy_watchers (fl_client F') !! i = Some w' →
  wt_name w' = wt_name w → ended w = false → ended w' = false →
  ∀ j, option_Forall2 same_watcher (sy_watchers (fl_client F) !! j) (sy_watchers (fl_client F') !! j).
Proof.
  intros Ho Hi Hi' En He He' j. destruct (decide (j = i)) as [->|Hj].
  - rewrite Hi, Hi'. constructor. split; congruence.
  - destruct (ot_watchers _ _ _ _ Ho j Hj) as [v v' (E1 & E2 & _)|]; constructor. split; [done|]. unfold ended. by rewrite E2.
Qed.

(** One watcher after the other. *)
Lemma catch_up_upto initial m F :
  running initial F → quiet (fl_client F) → cl_killed (sy_client (fl_client F)) = false →
  (∀ i w, sy_watchers (fl_client F) !! i = Some w → ended w = false → can_follow F i w) →
  ∃ F', rtc (orderly_fleet_step range) F F' ∧ running initial F' ∧ quiet (fl_client F') ∧
    (∀ name, advertised F' name = advertised F name) ∧ forwards (sy_client (fl_client F)) (sy_client (fl_client F')) ∧
    (∀ j, option_Forall2 same_watcher (sy_watchers (fl_client F) !! j) (sy_watchers (fl_client F') !! j)) ∧
    (∀ i w, sy_watchers (fl_client F') !! i = Some w → ended w = false → if decide (i < m)%nat then up_to_date F' i w else can_follow F' i w).
Proof.
  intros Hr Hq Hk Hall. induction m as [|m (F1 & Hs1 & Hr1 & Hq1 & Had1 & Hf1 & Hsame1 & Hall1)].
  { by exists F. }
  assert (∀ F2, (∀ i w, i ≠ m → sy_watchers (fl_client F2) !! i = Some w → ended w = false →
    if decide (i < m)%nat then up_to_date F2 i w else can_follow F2 i w) → (∀ w, sy_watchers (fl_client F2) !! m = Some w → ended w = false → up_to_date F2 m w) →
    ∀ i w, sy_watchers (fl_client F2) !! i = Some w → ended w = false → if decide (i < S m)%nat then up_to_date F2 i w else can_follow F2 i w) as Hnext.
  { intros F2 H1 H2 i w Hi He. destruct (decide (i = m)) as [->|Hne]; [rewrite decide_True by lia; by apply H2|].
    specialize (H1 i w Hne Hi He). destruct (decide (i < m)%nat); [by rewrite decide_True by lia|by rewrite decide_False by lia]. }
  destruct (sy_watchers (fl_client F1) !! m) as [w|] eqn:Hm; [destruct (ended w) eqn:He|].
  1,3: exists F1; split_and!; try done; apply Hnext; [intros i v _; apply Hall1|intros v Hv Hve; congruence].
  destruct (catch_up_one initial F1 m w Hr1 Hq1) as (F2 & w2 & Hs2 & Hr2 & Hq2 & Ho2 & Hi2 & En2 & Hu2).
  { destruct Hf1 as [-> _]. done. }
  { done. }
  { specialize (Hall1 m w Hm He). by rewrite decide_False in Hall1 by lia. }
  pose proof (up_to_date_live F2 m w2 (ru_inv _ _ Hr2) Hi2 Hu2) as He2.
  exists F2. split_and!; [by etrans|done|done| | | |].
  - intros name. by rewrite (ot_advertised _ _ _ _ Ho2), Had1.
  - etrans; [exact Hf1|apply Ho2].
  - intros j. etrans; [apply Hsame1|]. by apply (others_same m F1 F2 w w2).
  - apply Hnext; [|intros v Hv _; congruence]. intros i v Hne Hv Hve.
    pose proof (ot_watchers _ _ _ _ Ho2 i Hne) as Hst. rewrite Hv in Hst. inversion Hst as [u v' Hst' Hu|]; subst v'.
    assert (ended u = false) as Hue by (destruct Hst' as (_ & E & _); unfold ended in *; by rewrite <-E).
    specialize (Hall1 i u (eq_sym Hu) Hue).
    assert (wt_name u ≠ wt_name w) by (apply (orderly_names (sy_watchers (fl_client F1)) i m u w); try done; apply Hr1).
    destruct (decide (i < m)%nat); [by eapply others_up_to_date|by eapply others_can_follow].
Qed.

Lemma same_container_ports F F' :
  (∀ name, advertised F' name = advertised F name) →
  (∀ j, option_Forall2 same_watcher (sy_watchers (fl_client F) !! j) (sy_watchers (fl_client F') !! j)) →
  container_ports F' = container_ports F.
Proof.
  intros Ha Hs. unfold container_ports. f_equal. apply Forall2_lookup in Hs. induction Hs as [|w w' ws ws' [E1 E2] _ IH]; [done|].
  rewrite !filter_cons, E2. case_decide; [|done]. rewrite !fmap_cons, E1, Ha. by f_equal.
Qed.

Lemma orderly_fleet_client entries F :
  orderly_fleet range entries F → fleet_inv F ∧ orderly_reachable range entries (fl_client F).
Proof.
  intros Hs. apply (rtc_invariant (orderly_fleet_step range) (λ F, fleet_inv F ∧ orderly_reachable range entries (fl_client F))
    (fleet_init entries) F); [|exact Hs|split; [apply fleet_init_inv|apply rtc_refl]].
  intros F1 F2 [Hst Ho] [Hinv Hr]. split; [by eapply fleet_step_inv|].
  destruct (fleet_step_client range F1 F2 Hst Hinv) as [->|Hc]; [done|]. exact (rtc_r _ _ _ Hr (conj Hc Ho)).
Qed.
End CatchUp.

(** ** Theorems *)

(** C10. Containers are honest, and a client among them is the client of
    [ClientSystem.v].  However peels start and stop, their watchers scan, handlers
    write, bytes arrive and connections break off in the middle of a line: the
    lines a watcher can read announce a listen only when it is not announced, and
    withdraw it only when it is; and every state the client gets into is one it
    gets into by the steps of [ClientSystem.v], where this was assumed. *)
Theorem fleet_refines range entries F :
  fleet_reachable range entries F →
  sys_reachable range entries (fl_client F) ∧ (∀ i k, fl_conns F !! i = Some k → honest false ∅ (cn_lines k)).
Proof.
  intros Hs. assert (fleet_inv F ∧ sys_reachable range entries (fl_client F)) as [Hinv Hr].
  { apply (rtc_invariant (fleet_step range) (λ F, fleet_inv F ∧ sys_reachable range entries (fl_client F))
      (fleet_init entries) F); [|exact Hs|split; [apply fleet_init_inv|apply rtc_refl]].
    intros F1 F2 Hst [Hinv Hr]. split; [by eapply fleet_step_inv|].
    destruct (fleet_step_client range F1 F2 Hst Hinv) as [->|Hc]; [done|]. exact (rtc_r _ _ _ Hr Hc). }
  split; [done|]. intros i k. by apply conn_honest.
Qed.

(** C9. The consumer of a client's changes knows what all containers listen on,
    as long as the client has not been killed, no container missed the startup
    deadline ([cl_timedOut]; [late_startup_lost] is what happens else), and no
    watcher was started while the last one of its container was still ending
    ([orderly_fleet]; else [restart_confuses]).  When nothing is on its way and
    every watcher is up to date with its container's handler, the batches, applied
    in order, open exactly the ports of the listens the containers advertise.  And
    after the startup snapshot, until the client stops, this can always be
    reached: if every watcher that has not ended is connected to its container or
    can connect to it, then by steps of handlers, watchers and [run] alone, with no
    container listening on anything else meanwhile, a state is reached where the
    consumer knows exactly these ports. *)
Theorem consumer_knows_containers range entries F :
  (∀ cs, range cs ≡ₚ elements (dom cs)) → NoDup (scanDir entries) →
  orderly_fleet range entries F →
  cl_killed (sy_client (fl_client F)) = false → cl_timedOut (sy_client (fl_client F)) = false →
  (quiet (fl_client F) →
   (∀ i w, sy_watchers (fl_client F) !! i = Some w → ended w = false → up_to_date F i w) →
   apply_changes ∅ (concat (cl_changes (sy_client (fl_client F)))) = Some (container_ports F)) ∧
  (cl_changes (sy_client (fl_client F)) ≠ [] → cl_phase (sy_client (fl_client F)) ≠ PStopped →
   (∀ i w, sy_watchers (fl_client F) !! i = Some w → ended w = false → can_follow F i w) →
   ∃ F', rtc (fleet_step range) F F' ∧ (∀ name, advertised F' name = advertised F name) ∧
     apply_changes ∅ (concat (cl_changes (sy_client (fl_client F')))) = Some (container_ports F)).
Proof.
  intros Hra Hnd Hs Hk Ht.
  assert (∀ F, orderly_fleet range entries F → cl_killed (sy_client (fl_client F)) = false → cl_timedOut (sy_client (fl_client F)) = false →
    quiet (fl_client F) → (∀ i w, sy_watchers (fl_client F) !! i = Some w → ended w = false → up_to_date F i w) →
    apply_changes ∅ (concat (cl_changes (sy_client (fl_client F)))) = Some (container_ports F)) as Hrest.
  { clear F Hs Hk Ht. intros F Hs Hk Ht Hq Hall. destruct (orderly_fleet_client range entries F Hs) as [Hinv Hr].
    destruct (consumer_view range entries (fl_client F) Hra Hnd Hr Hk Ht) as (v & -> & Hv). f_equal. rewrite (Hv Hq).
    apply (open_container_ports F (scanDir entries)); [done| |done].
    by apply (sys_reachable_inv range Hra), (orderly_reachable_view range Hra entries _ Hnd Hr). }
  split; [by apply Hrest|]. intros Hne Hph Hall. destruct (orderly_fleet_client range entries F Hs) as [Hinv Hr].
  destruct (orderly_reachable_view range Hra entries _ Hnd Hr) as (Hr' & Ho & _).
  assert (running (scanDir entries) F) as Hrun by (split; try done; by apply (sys_reachable_inv range Hra)).
  destruct (fleet_settles range Hra _ F Hrun) as (s1 & Hs1 & Hr1 & Hq1 & Ho1 & Hstay).
  set (F1 := mkFleet s1 _ _ _) in *.
  destruct (catch_up_upto range Hra _ (length (sy_watchers s1)) F1 Hr1 Hq1) as (F2 & Hs2 & Hr2 & Hq2 & Had2 & Hf2 & Hsame2 & Hall2).
  { by destruct (ot_forwards _ _ _ _ (Ho1 O "")) as [-> _]. }
  { intros i w Hi He. destruct (Forall2_lookup_r _ _ _ _ _ Hstay Hi) as (v & Hv & Hst).
    apply (same_can_follow F F1 i v w); [done..|]. apply Hall; [done|]. destruct Hst as (_ & E & _). unfold ended in *. by rewrite <-E. }
  pose proof (transitivity Hs1 Hs2) as Hs12.
  exists F2. split_and!.
  - eapply rtc_subrel; [|exact Hs12]. by intros x y [].
  - intros name. rewrite Had2. by apply (ot_advertised _ _ _ _ (Ho1 O "")).
  - assert (container_ports F2 = container_ports F) as <-.
    { rewrite (same_container_ports F1 F2) by done. apply same_container_ports; [by apply (ot_advertised _ _ _ _ (Ho1 O ""))|].
      apply Forall2_lookup. eapply Forall2_impl; [exact Hstay|]. intros v v' (E1 & E2 & _). split; [done|]. unfold ended. by rewrite E2. }
    destruct (ot_forwards _ _ _ _ (Ho1 O "")) as (Ek1 & Et1 & _), Hf2 as (Ek2 & Et2 & _).
    apply Hrest; [exact (transitivity Hs Hs12)|congruence|congruence|done|].
    intros i w Hi He. specialize (Hall2 i w Hi He). rewrite decide_True in Hall2; [done|].
    apply lookup_lt_Some in Hi. apply Forall2_lookup, Forall2_length in Hsame2. cbn in Hsame2. by rewrite Hsame2.
Qed.

(** ** A run *)

(** A client of an empty directory, whose first scan finds a container. *)
Definition sample_client : system :=
  default (sys_init None) (take_turns by_keys elements [TRun; TRun; TRun; TScan web_dir] (sys_init (Some []))).

(** Turns of a client that watches nothing yet. *)
Fixpoint turns_bare (ts : list turn) (s : system) : bool :=
  match ts with
  | [] => true
  | t :: ts => match sy_watchers s, take_turn by_keys elements t s with
               | [], Some s' => bool_decide (length (sy_watchers s') ≤ 1)%nat && turns_bare ts s'
               | _, _ => false
               end
  end.

Lemma bare_steps ts s s' svs socks cns :
  take_turns by_keys elements ts s = Some s' → turns_bare ts s = true →
  rtc (orderly_fleet_step by_keys) (mkFleet s svs socks cns) (mkFleet s' svs socks cns).
Proof.
  revert s. induction ts as [|t ts IH]; intros s; cbn [take_turns turns_bare]; [by intros [= ->]|].
  destruct (take_turn by_keys elements t s) as [s1|] eqn:E; [|by destruct (sy_watchers s)].
  destruct (sy_watchers s) eqn:Ews; [|done]. intros H [Hl%bool_decide_eq_true Ht]%andb_true_iff.
  eapply rtc_l; [|by apply IH]. split; [|by apply orderly_single].
  apply fleet_client; [by eapply take_turn_step|]. intros i w Hi. by rewrite Ews in Hi.
Qed.

Definition sample_sv : server := mkServer (scanOnce_in [l80] [] (Some {[l80]}) NewWatcher) ∅.
Definition sample_fleet : fleet := mkFleet sample_client {[0%nat := ("web", sample_sv)]} {["web" := 0%nat]} ∅.

Lemma sample_sv_step : server_step (mkServer NewWatcher ∅) sample_sv.
Proof.
  unfold sample_sv. rewrite <-sample_table_scan. apply (server_scan NewWatcher ∅ sample_table [l80] []).
  - intros r Hr. rewrite sample_table_scan in Hr. injection Hr as <-. exact sample_next.
  - change (w_current NewWatcher) with (∅ : gset Listen). by rewrite elements_empty.
Qed.

(** Peel starts in the container and scans; the client starts and finds it. *)
Lemma sample_fleet_reachable : orderly_fleet by_keys (Some []) sample_fleet.
Proof.
  assert (orderly (sy_watchers (sys_init (Some [])))) as Ho by (apply orderly_single; cbn; lia).
  eapply rtc_l; [split; [apply (fleet_start by_keys "web" 0)|exact Ho]; reflexivity|].
  eapply rtc_l; [split; [apply (fleet_serve by_keys 0 "web" (mkServer NewWatcher ∅) sample_sv); [reflexivity|exact sample_sv_step]|exact Ho]|].
  rewrite insert_insert_eq. apply (bare_steps [TRun; TRun; TRun; TScan web_dir]); vm_compute; reflexivity.
Qed.

Lemma consumer_knows_containers_witness :
  ∃ F', rtc (fleet_step by_keys) sample_fleet F' ∧
    apply_changes ∅ (concat (cl_changes (sy_client (fl_client F')))) = Some {["ipv4:web:80"]}.
Proof.
  destruct (consumer_knows_containers by_keys (Some []) sample_fleet) as [_ H].
  - reflexivity.
  - apply NoDup_nil_2.
  - exact sample_fleet_reachable.
  - vm_compute; reflexivity.
  - vm_compute; reflexivity.
  - destruct H as (F' & H1 & _ & H2).
    + vm_compute. discriminate.
    + vm_compute. discriminate.
    + intros [|i] w Hi He; vm_compute in Hi; [|discriminate Hi]. right. injection Hi as <-.
      unfold reaches. split_and!; [by exists 0%nat|reflexivity|discriminate|discriminate].
    + exists F'. split; [exact H1|].
      assert (container_ports sample_fleet = {["ipv4:web:80"]}) as <- by (apply (bool_decide_unpack _); vm_compute; exact I). exact H2.
Defined.

(** The watcher connects, the handler writes the first event, half of the line
    arrives, and the connection breaks off. *)
Definition half : string := String.substring 0 9 (encode_all [ev_add l80]).
Definition sample_handler : watch_handler := mkHandler 0 (Encoding [ev_sync]) (encode_all [ev_add l80]) "".
Definition sample_opened_sv : server := mkServer (handleWatch_open true (sv_watcher sample_sv)).2 {[7%nat := sample_handler]}.
Definition sample_conn : conn := mkConn 0 7 half true 0.
Definition sample_cut : fleet :=
  mkFleet (mkSystem (sy_client sample_client) (connected <$> sy_watchers sample_client) (sy_room sample_client) false)
    {[0%nat := ("web", sample_opened_sv)]} {["web" := 0%nat]} {[0%nat := sample_conn]}.

Lemma sample_cut_reachable : fleet_reachable by_keys (Some []) sample_cut.
Proof.
  pose proof sample_fleet_reachable as Hs. refine (transitivity (y := sample_fleet) _ _).
  { eapply rtc_subrel; [|exact Hs]. by intros x y []. }
  clear Hs. assert (∃ c w room, sample_client = mkSystem c [w] room false ∧ wt_name w = "web" ∧ wt_pc w = WLoop ∧ wt_queue w = [] ∧
    wt_cancelled w || cl_killed c = false) as (c & w & room & E & En & Hp & Hq & Hc).
  { eexists _, _, _. split; [vm_compute; reflexivity|]. by split_and!. }
  unfold sample_fleet, sample_cut. rewrite E. cbn [sy_client sy_watchers sy_room].
  set (h0 := mkHandler 0 (Encoding [ev_add l80; ev_sync]) "" "").
  assert (handleWatch_open true (sv_watcher sample_sv) = (Ok h0, (handleWatch_open true (sv_watcher sample_sv)).2)) as Ho by (vm_compute; reflexivity).
  set (lw := (handleWatch_open true (sv_watcher sample_sv)).2) in *.
  eapply rtc_l; [by apply (fleet_connect by_keys 0 w 0 sample_sv 7 h0 lw c [w] room); rewrite ?En|]. rewrite En.
  eapply rtc_l.
  { eapply (fleet_serve by_keys 0 "web" _ (mkServer lw (<[7%nat := sample_handler]> (<[7%nat := h0]> (sv_handlers sample_sv))))); [reflexivity|].
    apply (server_serve 7). apply (serve_encode 7 lw _ h0 sample_handler); [apply lookup_insert_eq|vm_compute; reflexivity]. }
  rewrite insert_insert_eq. change (mkServer lw _) with sample_opened_sv.
  eapply rtc_l; [by eapply (fleet_receive by_keys 0 (mkConn 0 7 "" false 0) "web" sample_opened_sv sample_handler half);
    [reflexivity..|exists half|eexists; vm_compute; reflexivity]|].
  eapply rtc_l; [by eapply (fleet_cut by_keys 0 (mkConn 0 7 half false 0))|].
  apply (reflexivity (R := rtc _)).
Qed.

Lemma fleet_refines_witness :
  sys_reachable by_keys (Some []) (fl_client sample_cut) ∧ cn_lines sample_conn = [None] ∧ honest false ∅ (cn_lines sample_conn).
Proof.
  destruct (fleet_refines by_keys (Some []) sample_cut sample_cut_reachable) as [H1 H2].
  split; [exact H1|]. split; [vm_compute; reflexivity|]. apply (H2 0%nat sample_conn). reflexivity.
Defined.
