(* ===== verification/State.v ===== *)
(** * The state file: [internal/state/state.go]

    [State] with its JSON form, [Load] and [Save] over the file system model:
    saving then loading gives the state back, and a process killed anywhere
    inside [Save] leaves the old state or the new one. *)

From S2P Require Import Prelude Platform GoStrings GoPath GoJSON GoJSONFacts GoTime FS FSFacts Config.

Record State := mkState {
  st_Reference : string;
  st_Digest : string;
  st_Runtime : Runtime;
  st_UnpackedAt : Time;
}.

Definition Runtime_zero : Runtime := mkRuntime [] [] [] "" "".
Definition State_zero : State := mkState "" "" Runtime_zero Time_zero.

Definition DefaultPath : string := "/peel/state.json".

(** ** JSON *)

(** Fields with [omitempty]. *)
Definition omit_list (name : string) (l : list string) : list (string * json) :=
  match l with [] => [] | _ => [(name, JArr (map JStr l))] end.
Definition omit_string (name s : string) : list (string * json) :=
  if decide (s = "") then [] else [(name, JStr s)].

Definition Runtime_json (rt : Runtime) : json := JObj (
  omit_list "entrypoint" (rt_Entrypoint rt) ++ omit_list "cmd" (rt_Cmd rt) ++ omit_list "env" (rt_Env rt) ++
  omit_string "working_dir" (rt_WorkingDir rt) ++ omit_string "user" (rt_User rt)).

Definition State_json (at_ : string) (st : State) : json := JObj
  [("reference", JStr (st_Reference st)); ("digest", JStr (st_Digest st));
   ("runtime", Runtime_json (st_Runtime st)); ("unpacked_at", JStr at_)].

(** [json.MarshalIndent(s, "", "  ")]. *)
Definition State_Marshal (st : State) : option string :=
  (λ at_, json_MarshalIndent "  " (State_json at_ st)) <$> time_marshal (st_UnpackedAt st).

Definition decode_list (v : json) (cur : list string) : option (list string) :=
  default [] <$> decode_strings v (Some cur).

Definition Runtime_fields : list (string * (json → Runtime → option Runtime)) :=
  [ field_of "entrypoint" decode_list rt_Entrypoint (λ x r, mkRuntime x (rt_Cmd r) (rt_Env r) (rt_WorkingDir r) (rt_User r));
    field_of "cmd" decode_list rt_Cmd (λ x r, mkRuntime (rt_Entrypoint r) x (rt_Env r) (rt_WorkingDir r) (rt_User r));
    field_of "env" decode_list rt_Env (λ x r, mkRuntime (rt_Entrypoint r) (rt_Cmd r) x (rt_WorkingDir r) (rt_User r));
    field_of "working_dir" decode_string rt_WorkingDir (λ x r, mkRuntime (rt_Entrypoint r) (rt_Cmd r) (rt_Env r) x (rt_User r));
    field_of "user" decode_string rt_User (λ x r, mkRuntime (rt_Entrypoint r) (rt_Cmd r) (rt_Env r) (rt_WorkingDir r) x) ].

(** [Time.UnmarshalJSON]. *)
Definition decode_time (v : json) (cur : Time) : option Time :=
  match v with
  | JStr s => time_parse s
  | JNull => Some cur
  | _ => None
  end.

Definition State_fields : list (string * (json → State → option State)) :=
  [ field_of "reference" decode_string st_Reference (λ x s, mkState x (st_Digest s) (st_Runtime s) (st_UnpackedAt s));
    field_of "digest" decode_string st_Digest (λ x s, mkState (st_Reference s) x (st_Runtime s) (st_UnpackedAt s));
    field_of "runtime" (decode_struct Runtime_fields) st_Runtime
      (λ x s, mkState (st_Reference s) (st_Digest s) x (st_UnpackedAt s));
    field_of "unpacked_at" decode_time st_UnpackedAt (λ x s, mkState (st_Reference s) (st_Digest s) (st_Runtime s) x) ].

(** ** Load and Save *)

Inductive state_error :=
  | EReading (e : errno)
  | EMarshaling
  | ECreating (e : errno)
  | EWriting (e : errno)
  | ERenaming (e : errno).

(** A missing or corrupt file is no error. *)
Definition Load (p : string) : io state_error (option State) :=
  let! b := io_try (os_ReadFile p) in
  match b with
  | Err ENOENT => io_ret None
  | Err e => io_err (EReading e)
  | Ok b => io_ret (json_Unmarshal State_fields b State_zero)
  end.

Definition tmp_path (p : string) : string := p +:+ ".tmp".

Definition Save (p : string) (st : State) : io state_error unit :=
  match State_Marshal st with
  | None => io_err EMarshaling
  | Some b =>
      io_wrap ECreating (os_MkdirAll (path_Dir p) o755) ;!
      io_wrap EWriting (os_WriteFile (tmp_path p) b o600) ;!
      io_wrap ERenaming (os_Rename (tmp_path p) p)
  end.

(** The file systems a process may leave that is killed in [Save]: between two
    system calls, or with part of the data written. *)
Inductive saving (p : string) (b : string) (s : fs) : fs → Prop :=
  | saving_start : saving p b s s
  | saving_made s1 : os_MkdirAll (path_Dir p) o755 s = (Ok tt, s1) → saving p b s s1
  | saving_opened s1 n s2 :
      os_MkdirAll (path_Dir p) o755 s = (Ok tt, s1) → os_OpenFile (tmp_path p) o600 s1 = (Ok n, s2) → saving p b s s2
  | saving_written s1 n s2 part rest s3 :
      os_MkdirAll (path_Dir p) o755 s = (Ok tt, s1) → os_OpenFile (tmp_path p) o600 s1 = (Ok n, s2) →
      b = part +:+ rest → write n part s2 = (Ok tt, s3) → saving p b s s3
  | saving_renamed s1 n s2 s3 s4 :
      os_MkdirAll (path_Dir p) o755 s = (Ok tt, s1) → os_OpenFile (tmp_path p) o600 s1 = (Ok n, s2) →
      write n b s2 = (Ok tt, s3) → os_Rename (tmp_path p) p s3 = (Ok tt, s4) → saving p b s s4.

(** ** The codec *)

Definition strings_ok (l : list string) : Prop := Forall utf8_valid l.
Definition State_ok (st : State) : Prop :=
  let rt := st_Runtime st in
  utf8_valid (st_Reference st) ∧ utf8_valid (st_Digest st) ∧ time_ok (st_UnpackedAt st) ∧
  strings_ok (rt_Entrypoint rt) ∧ strings_ok (rt_Cmd rt) ∧ strings_ok (rt_Env rt) ∧
  utf8_valid (rt_WorkingDir rt) ∧ utf8_valid (rt_User rt).

#[export] Instance State_ok_dec st : Decision (State_ok st).
Proof. unfold State_ok, strings_ok. apply _. Defined.

Lemma decode_elems_strings l cur : decode_elems (map JStr l) cur = Some l.
Proof. revert cur. induction l as [|s l IH]; intros cur; [done|]. cbn. by rewrite IH. Qed.

Lemma decode_list_strings l cur : decode_list (JArr (map JStr l)) cur = Some l.
Proof. unfold decode_list, decode_strings. cbn [default]. by rewrite decode_elems_strings. Qed.

(** A field with [omitempty] is decoded to what it was, whether written or not. *)
Lemma decode_omit_list {R} (fields : list (string * (json → R → option R))) name set cur (r : R) l :
  (∀ v, decode_member fields (Some r) (name, v) = (λ x, set x r) <$> decode_list v cur) → set [] r = r →
  foldl (decode_member fields) (Some r) (omit_list name l) = Some (set l r).
Proof.
  intros Hf Hz. destruct l as [|s l]; [cbn; by rewrite Hz|]. unfold omit_list. cbn [foldl].
  by rewrite Hf, decode_list_strings.
Qed.

Lemma decode_omit_string {R} (fields : list (string * (json → R → option R))) name set cur (r : R) s :
  (∀ v, decode_member fields (Some r) (name, v) = (λ x, set x r) <$> decode_string v cur) → set "" r = r →
  foldl (decode_member fields) (Some r) (omit_string name s) = Some (set s r).
Proof.
  intros Hf Hz. unfold omit_string. destruct (decide (s = "")) as [->|]; [cbn; by rewrite Hz|]. cbn [foldl].
  by rewrite Hf.
Qed.

Lemma Runtime_decode rt : decode_struct Runtime_fields (Runtime_json rt) Runtime_zero = Some rt.
Proof.
  destruct rt as [e c n w u]. unfold Runtime_json, decode_struct. cbn [rt_Entrypoint rt_Cmd rt_Env rt_WorkingDir rt_User].
  rewrite !foldl_app. unfold Runtime_zero.
  rewrite (decode_omit_list _ _ (λ x r, mkRuntime x (rt_Cmd r) (rt_Env r) (rt_WorkingDir r) (rt_User r)) []) by (intros; reflexivity).
  rewrite (decode_omit_list _ _ (λ x r, mkRuntime (rt_Entrypoint r) x (rt_Env r) (rt_WorkingDir r) (rt_User r)) []) by (intros; reflexivity).
  rewrite (decode_omit_list _ _ (λ x r, mkRuntime (rt_Entrypoint r) (rt_Cmd r) x (rt_WorkingDir r) (rt_User r)) []) by (intros; reflexivity).
  rewrite (decode_omit_string _ _ (λ x r, mkRuntime (rt_Entrypoint r) (rt_Cmd r) (rt_Env r) x (rt_User r)) "") by (intros; reflexivity).
  by rewrite (decode_omit_string _ _ (λ x r, mkRuntime (rt_Entrypoint r) (rt_Cmd r) (rt_Env r) (rt_WorkingDir r) x) "") by (intros; reflexivity).
Qed.

Lemma State_decode at_ st t :
  time_parse at_ = Some t → decode_struct State_fields (State_json at_ st) State_zero =
    Some (mkState (st_Reference st) (st_Digest st) (st_Runtime st) t).
Proof.
  intros Ht. transitivity (
    rt ← decode_struct Runtime_fields (Runtime_json (st_Runtime st)) Runtime_zero;
    t ← time_parse at_; Some (mkState (st_Reference st) (st_Digest st) rt t)).
  - unfold State_json. generalize (Runtime_json (st_Runtime st)). intros j.
    transitivity (r ← (λ x, mkState (st_Reference st) (st_Digest st) x Time_zero) <$> decode_struct Runtime_fields j Runtime_zero;
      (λ t, mkState (st_Reference r) (st_Digest r) (st_Runtime r) t) <$> time_parse at_); [reflexivity|].
    by destruct (decode_struct Runtime_fields j Runtime_zero), (time_parse at_).
  - rewrite Runtime_decode, Ht. done.
Qed.

Lemma omit_list_ok name l : utf8_valid name → strings_ok l → foldr (λ m P, utf8_valid m.1 ∧ json_ok m.2 ∧ P) True (omit_list name l).
Proof.
  intros Hn Hl. destruct l as [|s l]; [done|]. unfold omit_list. cbn [foldr fst snd]. split_and!; [done| |done].
  induction Hl; cbn; [done|]. by split.
Qed.

Lemma omit_string_ok name s : utf8_valid name → utf8_valid s → foldr (λ m P, utf8_valid m.1 ∧ json_ok m.2 ∧ P) True (omit_string name s).
Proof. intros. unfold omit_string. by case_decide. Qed.

Lemma members_app (ms ms' : list (string * json)) :
  foldr (λ m P, utf8_valid m.1 ∧ json_ok m.2 ∧ P) True (ms ++ ms') ↔
  foldr (λ m P, utf8_valid m.1 ∧ json_ok m.2 ∧ P) True ms ∧ foldr (λ m P, utf8_valid m.1 ∧ json_ok m.2 ∧ P) True ms'.
Proof. induction ms as [|m ms IH]; cbn; [tauto|]. rewrite IH. tauto. Qed.

Lemma all_digits_ascii s : all_digits s → ascii_only s.
Proof.
  unfold all_digits, ascii_only. induction s as [|c s IH]; [done|]. cbn. intros [Hc%bool_decide_eq_true Hs]%andb_true_iff.
  rewrite IH by done. unfold in_range. by rewrite bool_decide_true by lia.
Qed.

Lemma time_format_ascii t : ascii_only (time_format t).
Proof.
  assert (∀ n x, ascii_only (digits n x)) as Hd by (intros; apply all_digits_ascii, digits_all).
  assert (∀ f, all_digits f → ascii_only (match f with "" => "" | f => "." +:+ f end)) as Hf.
  { intros [|c f] Hf; [done|]. change (ascii_only ("." +:+ String c f)). apply ascii_only_app. split; [done|by apply all_digits_ascii]. }
  unfold time_format. rewrite !ascii_only_app. split_and!; try done.
  - pose proof (Hf _ (fraction_digits 9 (tm_nsec t))) as H. by destruct (fraction 9 (tm_nsec t)).
  - destruct (tm_zone t) as [[[neg h] m]|]; [|done]. unfold format_zone. rewrite !ascii_only_app. by destruct neg.
Qed.

(** How deep the members of an object nest. *)
Definition members_depth (ms : list (string * json)) : nat := foldr (λ m n, depth m.2 `max` n)%nat 0%nat ms.

Lemma members_depth_app ms ms' : members_depth (ms ++ ms') = (members_depth ms `max` members_depth ms')%nat.
Proof. unfold members_depth. induction ms as [|m ms IH]; [done|]. cbn [app foldr]. rewrite IH. lia. Qed.

Lemma omit_list_depth name l : (members_depth (omit_list name l) ≤ 1)%nat.
Proof.
  destruct l as [|s l]; [cbn; lia|]. unfold omit_list, members_depth. cbn [foldr snd depth].
  assert (∀ k, foldr (λ v n, depth v `max` n)%nat 0%nat (map JStr k) = 0%nat) as -> by (induction k as [|x k IH]; [done|]; cbn; by rewrite IH).
  lia.
Qed.

Lemma omit_string_depth name s : members_depth (omit_string name s) = 0%nat.
Proof. unfold omit_string. by case_decide. Qed.

Lemma State_depth at_ st : (depth (State_json at_ st) ≤ 3)%nat.
Proof.
  assert (depth (Runtime_json (st_Runtime st)) ≤ 2)%nat as H; [|unfold State_json; cbn [depth foldr snd]; lia].
  unfold Runtime_json. cbn [depth]. match goal with |- context [foldr _ _ ?ms] => change (S (members_depth ms) ≤ 2)%nat end.
  rewrite !members_depth_app, !omit_string_depth.
  pose proof (omit_list_depth "entrypoint" (rt_Entrypoint (st_Runtime st))).
  pose proof (omit_list_depth "cmd" (rt_Cmd (st_Runtime st))).
  pose proof (omit_list_depth "env" (rt_Env (st_Runtime st))). lia.
Qed.

(** What [Save] writes is read back by [Load]. *)
Lemma State_Unmarshal_Marshal st :
  State_ok st → ∃ b, State_Marshal st = Some b ∧ json_Unmarshal State_fields b State_zero = Some st.
Proof.
  intros (Hr & Hd & Ht & He & Hc & Hn & Hw & Hu). pose proof Ht as (Hy & _). unfold State_Marshal, time_marshal.
  rewrite decide_True by done. eexists. split; [reflexivity|]. unfold json_Unmarshal.
  rewrite parse_MarshalIndent; [|done| |].
  - cbn [mbind option_bind]. rewrite (State_decode _ _ _ (time_parse_format _ Ht)). by destruct st.
  - unfold State_json. cbn [json_ok foldr fst snd]. split_and!; try done; [|by apply ascii_only_utf8, time_format_ascii].
    unfold Runtime_json. cbn [json_ok]. rewrite !members_app.
    split_and!; first [by apply omit_list_ok|by apply omit_string_ok].
  - etrans; [apply State_depth|]. unfold maxNestingDepth. lia.
Qed.

(** ** Where the state is kept

    The state file and its [.tmp] are entries of an existing directory [d],
    absent or regular files, and no other name leads to the latter. *)
Definition slot (s : fs) (q : path) : Prop :=
  match fs_names s !! q with
  | None => True
  | Some n => ∃ i data, fs_inodes s !! n = Some i ∧ i_node i = File data
  end.

Section Place.
Context (s : fs) (d : path) (c : string).
Let p : path := d ++ [c].
Let t : path := d ++ [tmp_path c].
Context (Hwf : wf s) (Hd : is_dir s d = true) (Hp : Forall comp p) (Ht : comp (tmp_path c)).
Context (Hslot : slot s p) (Htmp : slot s t) (Hown : ∀ q n, fs_names s !! t = Some n → fs_names s !! q = Some n → q = t).

Lemma tmp_path_abs : tmp_path (abs p) = abs t.
Proof.
  unfold tmp_path, abs, p, t. rewrite sapp_assoc. f_equal.
  clear. induction d as [|e l IH]; [done|]. cbn [app]. rewrite !Join_cons by (by destruct l). by rewrite <-IH, !sapp_assoc.
Qed.

Lemma tmp_ne : t ≠ p.
Proof.
  unfold t, p. intros [_ E]%app_inj_tail. apply (f_equal String.length) in E. unfold tmp_path in E.
  rewrite sapp_length in E. cbn in E. lia.
Qed.

Lemma tmp_comps : Forall comp t.
Proof. unfold t. apply Forall_app. split; [by apply Forall_app in Hp as [? _]|by constructor]. Qed.

Lemma slot_not_dir q : slot s q → is_dir s q = false ∧ is_symlink s q = false.
Proof.
  unfold slot, is_dir, is_symlink, lookup_path. destruct (fs_names s !! q) as [n|]; [|done].
  intros (i & data & Hi & Hn). cbn. by rewrite Hi, Hn.
Qed.

(** The file system [s] but for a regular file at [t], holding [part]. *)
Definition tmp_holds (part : string) (s' : fs) : Prop := ∃ n i,
  fs_names s' = <[t := n]> (fs_names s) ∧ fs_inodes s' = <[n := i]> (fs_inodes s) ∧ i_node i = File part ∧
  (fs_names s !! t = Some n ∨ fs_names s !! t = None ∧ fs_inodes s !! n = None).

Lemma opened_holds perm : ∃ n s',
  os_OpenFile (abs t) perm s = (Ok n, s') ∧ tmp_holds "" s' ∧ fs_names s' !! t = Some n.
Proof.
  unfold os_OpenFile. rewrite namei_real; [|apply tmp_comps|by apply wf_real_dir|by apply wf_root|intros _; by apply slot_not_dir].
  unfold slot in Htmp. destruct (fs_names s !! t) as [m|] eqn:E.
  - destruct Htmp as (i & data & Hi & Hn). rewrite Hi. cbn. rewrite Hn. do 2 eexists. split; [done|]. split; [|done].
    eexists m, _. split_and!; [by rewrite insert_id|apply map_eq; intros k| |by left].
    + cbn. destruct (decide (k = m)) as [->|].
      * rewrite lookup_alter_eq, Hi, lookup_insert_eq. reflexivity.
      * by rewrite lookup_alter_ne, lookup_insert_ne.
    + done.
  - do 2 eexists. split; [done|]. split; [|cbn; by rewrite lookup_insert_eq].
    eexists _, _. split_and!; [done|done|done|]. right. split; [done|].
    apply not_elem_of_dom, is_fresh.
Qed.

Lemma written_holds n old part s1 s2 :
  tmp_holds old s1 → fs_names s1 !! t = Some n → write n part s1 = (Ok tt, s2) → tmp_holds (old +:+ part) s2.
Proof.
  intros (m & i & Hn & Hi & Hf & Hm) E. rewrite Hn, lookup_insert_eq in E. simplify_eq.
  unfold write. intros [= <-]. eexists n, _. split_and!; [done| | |done].
  - cbn. rewrite Hi, alter_insert_eq. reflexivity.
  - by rewrite Hf.
Qed.

(** The inode of [t] is nobody else's. *)
Definition fresh_or_own (n : nat) : Prop := fs_names s !! t = Some n ∨ fs_names s !! t = None ∧ fs_inodes s !! n = None.

Lemma fresh_or_own_ne n q : fresh_or_own n → q ≠ t → fs_names s !! q ≠ Some n.
Proof.
  intros [Hn|[Hn Hi]] Hq E; [by apply Hq, (Hown q n)|]. apply (wf_inode _ Hwf) in E as [? ?]. congruence.
Qed.

Lemma holds_elsewhere part s' q : tmp_holds part s' → q ≠ t → lookup_path s' q = lookup_path s q.
Proof.
  intros (n & i & Hn & Hi & _ & Hm) Hq. unfold lookup_path. rewrite Hn, Hi, lookup_insert_ne by done.
  pose proof (fresh_or_own_ne n q Hm Hq) as Hne.
  destruct (fs_names s !! q) as [m|] eqn:E; [|done]. cbn. apply lookup_insert_ne. congruence.
Qed.

Lemma holds_dir part s' q : tmp_holds part s' → is_dir s q = true → is_dir s' q = true.
Proof.
  intros H Hq. pose proof (slot_not_dir t Htmp) as [Hnd _]. unfold is_dir.
  rewrite (holds_elsewhere _ _ _ H); [done|congruence].
Qed.

(** What [Load] finds at [p]: its file, read as JSON. *)
Definition loaded (o : option inode) : option State :=
  match i_node <$> o with
  | Some (File data) => json_Unmarshal State_fields data State_zero
  | _ => None
  end.

(** [Load] only looks at the file, as long as the directories are there. *)
Lemma Load_file s' :
  (∀ q, is_dir s q = true → is_dir s' q = true) →
  (lookup_path s' p = None ∨ ∃ i data, lookup_path s' p = Some i ∧ i_node i = File data) →
  Load (abs p) s' = (Ok (loaded (lookup_path s' p)), s').
Proof.
  intros Hdirs Hfile. unfold Load, io_bind, io_try, os_ReadFile, io_read, stat.
  rewrite namei_real; [|done| | |].
  - cbn [res_bind]. destruct Hfile as [E|(i & data & E & Hn)]; rewrite E; cbn; [done|]. by rewrite Hn.
  - intros q e r E. apply Hdirs. pose proof (wf_real_dir s d c Hwf Hd) as Hr. by apply (Hr q e r).
  - apply Hdirs, (wf_root _ Hwf).
  - intros _. unfold is_symlink. destruct Hfile as [->|(i & data & -> & ->)]; done.
Qed.

Lemma slot_file : lookup_path s p = None ∨ ∃ i data, lookup_path s p = Some i ∧ i_node i = File data.
Proof.
  unfold slot, lookup_path in *. destruct (fs_names s !! p) as [n|]; [right|by left].
  destruct Hslot as (i & data & Hi & Hn). exists i, data. by rewrite <-Hi.
Qed.

Lemma Load_before : Load (abs p) s = (Ok (loaded (lookup_path s p)), s).
Proof. apply Load_file; [done|apply slot_file]. Qed.

(** Until the rename, [Load] returns what it returned before. *)
Lemma Load_during part s' : tmp_holds part s' → (Load (abs p) s').1 = (Load (abs p) s).1.
Proof.
  intros H. pose proof (holds_elsewhere _ _ p H (not_eq_sym tmp_ne)) as E.
  rewrite Load_before, Load_file; [by rewrite E|intros q; by apply (holds_dir _ _ _ H)|rewrite E; apply slot_file].
Qed.

(** The file system [s] with the text [b] at [p] and nothing at [t]. *)
Definition saved (b : string) (s4 : fs) : Prop := ∃ n i,
  fs_names s4 = <[p := n]> (delete t (fs_names s)) ∧ fs_inodes s4 = <[n := i]> (fs_inodes s) ∧
  i_node i = File b ∧ fresh_or_own n.

Lemma renamed_saved b s' : tmp_holds b s' → ∃ s4, os_Rename (abs t) (abs p) s' = (Ok tt, s4) ∧ saved b s4.
Proof.
  intros H. pose proof (λ q, holds_dir _ _ q H) as Hdirs. pose proof H as (n & i & Hn & Hi & Hf & Hm).
  assert (lookup_path s' t = Some i) as Ht'.
  { unfold lookup_path. rewrite Hn, lookup_insert_eq. cbn. by rewrite Hi, lookup_insert_eq. }
  assert (fs_names s' !! p = fs_names s !! p) as Hp' by (rewrite Hn; apply lookup_insert_ne, tmp_ne).
  assert (∀ e, Forall comp (d ++ [e]) → namei false (abs (d ++ [e])) s' = Ok (d ++ [e])) as Hnamei.
  { intros e He. apply namei_real; [done| |apply Hdirs, (wf_root _ Hwf)|done].
    intros q f r E. apply Hdirs. by apply (wf_real_dir s d e Hwf Hd q f r). }
  unfold os_Rename. rewrite (Hnamei (tmp_path c) tmp_comps : namei false (abs t) s' = Ok t), (Hnamei c Hp : namei false (abs p) s' = Ok p).
  assert (fs_names s' !! t = Some n) as -> by (rewrite Hn; apply lookup_insert_eq).
  rewrite decide_False by (rewrite Hp'; by apply fresh_or_own_ne, not_eq_sym, tmp_ne).
  assert (is_dir s' p = false) as ->.
  { unfold is_dir. rewrite (holds_elsewhere _ _ p H) by apply not_eq_sym, tmp_ne. by apply (slot_not_dir p). }
  assert (is_dir s' t = false) as -> by (unfold is_dir; by rewrite Ht', Hf).
  eexists. split; [reflexivity|]. exists n, i. split_and!; [|done..]. cbn. by rewrite Hn, delete_insert_eq.
Qed.

Lemma saved_lookup b s4 q : saved b s4 →
  (q = p → ∃ i, lookup_path s4 q = Some i ∧ i_node i = File b) ∧
  (q = t → fs_names s4 !! q = None) ∧
  (q ≠ p → q ≠ t → fs_names s4 !! q = fs_names s !! q ∧ lookup_path s4 q = lookup_path s q).
Proof.
  intros (n & i & Hn & Hi & Hf & Hm). unfold lookup_path. rewrite Hn, Hi. split_and!.
  - intros ->. exists i. rewrite lookup_insert_eq. cbn. by rewrite lookup_insert_eq.
  - intros ->. rewrite lookup_insert_ne by apply not_eq_sym, tmp_ne. apply lookup_delete_eq.
  - intros Hq1 Hq2. rewrite lookup_insert_ne, lookup_delete_ne by done. split; [done|].
    pose proof (fresh_or_own_ne n q Hm Hq2) as Hne.
    destruct (fs_names s !! q) as [m|]; [|done]. cbn. apply lookup_insert_ne. congruence.
Qed.

Lemma saved_dir b s4 q : saved b s4 → is_dir s4 q = is_dir s q.
Proof.
  intros H. destruct (saved_lookup b s4 q H) as (H1 & H2 & H3). unfold is_dir.
  destruct (decide (q = p)) as [->|Hq1].
  { destruct (H1 eq_refl) as (i & -> & ->). symmetry. by apply (slot_not_dir p). }
  destruct (decide (q = t)) as [->|Hq2].
  - specialize (H2 eq_refl). unfold lookup_path at 1. rewrite H2. symmetry. by apply (slot_not_dir t).
  - by destruct H3 as [_ ->].
Qed.

(** [Load] reads what was written. *)
Lemma saved_Load b s4 : saved b s4 → Load (abs p) s4 = (Ok (json_Unmarshal State_fields b State_zero), s4).
Proof.
  intros H. destruct (proj1 (saved_lookup b s4 p H) eq_refl) as (i & Hi & Hf). rewrite Load_file.
  - rewrite Hi. unfold loaded. cbn. by rewrite Hf.
  - intros q. by rewrite (saved_dir b s4).
  - right. eauto.
Qed.

Lemma saved_wf b s4 : saved b s4 → wf s4.
Proof.
  intros H. pose proof (λ q, saved_dir b s4 q H) as Hdirs. pose proof H as (n & i & Hn & Hi & Hf & Hm).
  pose proof Hwf as [H0 Hpar Hc Hin].
  assert (∀ q m, fs_names s4 !! q = Some m → q = p ∨ fs_names s !! q = Some m) as Hnames.
  { intros q m. rewrite Hn. intros [[-> _]|[_ [_ E]%lookup_delete_Some]]%lookup_insert_Some; [by left|by right]. }
  split; [by rewrite Hdirs| | |].
  - intros q e [m [E|E]%Hnames]; rewrite Hdirs; [|by apply (Hpar q e)].
    unfold p in E. by apply app_inj_tail in E as [-> _].
  - intros q [m [->|E]%Hnames]; [done|by apply Hc].
  - intros q m. rewrite Hn, Hi. intros [[_ ->]|[_ [_ E]%lookup_delete_Some]]%lookup_insert_Some.
    + by rewrite lookup_insert_eq.
    + rewrite lookup_insert_is_Some'. right. by apply (Hin q).
Qed.

Lemma MkdirAll_exists perm : os_MkdirAll (path_Dir (abs p)) perm s = (Ok tt, s).
Proof.
  unfold p. rewrite Dir_abs by done. apply Forall_app in Hp as [Hcd _].
  unfold os_MkdirAll. rewrite rooted_comps_abs by done. rewrite MkdirAll_rev_eq, rev_involutive.
  destruct (Stat_dir s d) as (i & Hi & Hdir); [done|apply wf_real; [done|by apply is_dir_name]|apply (wf_root _ Hwf)|done|].
  unfold io_bind, io_try. rewrite Hi. by rewrite Hdir.
Qed.
End Place.

(** The place is fit for [Save]. *)
Record place_ok (s : fs) (d : path) (c : string) : Prop := {
  pl_wf : wf s;
  pl_dir : is_dir s d = true;
  pl_comps : Forall comp (d ++ [c]);
  pl_tmp_comp : comp (tmp_path c);
  pl_slot : slot s (d ++ [c]);
  pl_tmp : slot s (d ++ [tmp_path c]);
  pl_own : ∀ q n, fs_names s !! (d ++ [tmp_path c]) = Some n → fs_names s !! q = Some n → q = d ++ [tmp_path c];
}.

(** It still is after the file was replaced. *)
Lemma saved_place s d c b s4 : place_ok s d c → saved s d c b s4 → place_ok s4 d c.
Proof.
  intros [Hwf Hd Hp Htc Hslot Htmp Hown] Hs.
  assert (∀ q, is_dir s4 q = is_dir s q) as Hdirs by (intros; by eapply (saved_dir s d c)).
  assert (fs_names s4 !! (d ++ [tmp_path c]) = None) as Ht by (by eapply (saved_lookup s d c)).
  split; [by eapply (saved_wf s d c)|by rewrite Hdirs|done|done| |by unfold slot; rewrite Ht|intros q n E; congruence].
  destruct Hs as (n & i & Hn & Hi & Hf & _). unfold slot. rewrite Hn, lookup_insert_eq, Hi. exists i, b.
  by rewrite lookup_insert_eq.
Qed.

(** [Save] either fails before it touches anything or replaces the file. *)
Lemma Save_effect s d c st : place_ok s d c →
  match State_Marshal st with
  | None => Save (abs (d ++ [c])) st s = (Err EMarshaling, s)
  | Some b => ∃ s4, Save (abs (d ++ [c])) st s = (Ok tt, s4) ∧ saved s d c b s4
  end.
Proof.
  intros [Hwf Hd Hp Ht Hslot Htmp Hown]. unfold Save. destruct (State_Marshal st) as [b|]; [|done].
  unfold io_bind, io_wrap. rewrite MkdirAll_exists, tmp_path_abs by done. cbn [res_map_err]. unfold os_WriteFile.
  destruct (opened_holds s d c) with (perm := o600) as (n & s2 & Ho & H2 & Hn2); [done..|].
  rewrite (io_bind_ok _ _ _ _ _ Ho).
  assert (∃ s3, write n b s2 = (Ok tt, s3)) as [s3 Hw] by by eexists.
  destruct (renamed_saved s d c) with (b := b) (s' := s3) as (s4 & Hr & HL); [done..|by eapply (written_holds s d c n "")|].
  rewrite Hw. cbn [res_map_err]. rewrite Hr. by exists s4.
Qed.

(** A [Save] that succeeds went through all of its steps. *)
Lemma Save_saving p st b s s4 : State_Marshal st = Some b → Save p st s = (Ok tt, s4) → saving p b s s4.
Proof.
  intros Hb. unfold Save. rewrite Hb. unfold os_WriteFile, io_bind, io_wrap.
  destruct (os_MkdirAll (path_Dir p) o755 s) as [[[]|e] s1] eqn:E1; cbn [res_map_err]; [|done].
  destruct (os_OpenFile (tmp_path p) o600 s1) as [[n|e] s2] eqn:E2; cbn [res_map_err]; [|done].
  destruct (write n b s2) as [[[]|e] s3] eqn:E3; cbn [res_map_err]; [|done].
  destruct (os_Rename (tmp_path p) p s3) as [[[]|e] s5] eqn:E4; cbn [res_map_err]; [|done].
  intros [= <-]. by eapply saving_renamed.
Qed.

(** ** Concrete states *)

Definition hello_state : State := mkState "docker.io/library/hello:1" "sha256:0123"
  (mkRuntime ["/hello"] [] ["PATH=/bin"] "/srv" "") (mkTime 2026 2 28 23 59 58 70000000 (Some (true, 3, 30))).

(** [/peel] with an older state file and what a killed [Save] left. *)
Definition peel_fs : fs := mkFs
  (list_to_map [([], 0%nat); (["peel"], 1%nat); (["peel"; "state.json"], 2%nat); (["peel"; "state.json.tmp"], 3%nat)])
  (list_to_map [(0%nat, mkInode Dir o755 0 0 ∅ None); (1%nat, mkInode Dir o755 0 0 ∅ None);
    (2%nat, mkInode (File "{}") o600 0 0 ∅ None); (3%nat, mkInode (File "{") o600 0 0 ∅ None)])
  0 (λ _ _, None) Amd64.

Lemma peel_fs_place : place_ok peel_fs ["peel"] "state.json".
Proof.
  split; [apply wf_b_sound; by vm_compute|reflexivity|by apply (bool_decide_unpack _); vm_compute|
    by apply (bool_decide_unpack _); vm_compute|do 2 eexists; split; reflexivity|do 2 eexists; split; reflexivity|].
  intros q n [= <-] Hq. assert (Forall (λ kv : path * nat, kv.2 = 3%nat → kv.1 = ["peel"; "state.json.tmp"]) (map_to_list (fs_names peel_fs))) as H
    by (by apply (bool_decide_unpack _); vm_compute).
  rewrite Forall_forall in H. apply (H (q, 3%nat)); [by apply elem_of_map_to_list|done].
Qed.

(** ** Properties *)

(** C17. What [Save] writes, [Load] reads back: at an existing directory, with
    the state file and its [.tmp] absent or regular files of their own,
    [state.Save] succeeds for every state of UTF-8 strings whose time fits
    RFC 3339, and [state.Load] then returns that same state, empty
    [omitempty] fields and the time zone included. *)
Theorem Save_Load s d c st :
  place_ok s d c → State_ok st →
  ∃ s', Save (abs (d ++ [c])) st s = (Ok tt, s') ∧ (Load (abs (d ++ [c])) s').1 = Ok (Some st).
Proof.
  intros Hpl Hst. destruct (State_Unmarshal_Marshal st Hst) as (b & Hb & Hback).
  pose proof (Save_effect s d c st Hpl) as H. rewrite Hb in H. destruct H as (s4 & HS & Hsaved). exists s4. split; [done|].
  destruct Hpl. by erewrite (saved_Load s d c), Hback.
Qed.

Lemma Save_Load_witness :
  ∃ s', Save (abs ["peel"; "state.json"]) hello_state peel_fs = (Ok tt, s') ∧
    (Load (abs ["peel"; "state.json"]) s').1 = Ok (Some hello_state).
Proof. apply (Save_Load peel_fs ["peel"] "state.json" hello_state); [apply peel_fs_place|by apply (bool_decide_unpack _); vm_compute]. Defined.

(** C7. [state.Save] replaces the file atomically: a process killed anywhere
    inside it (between system calls, or with any prefix of the data written)
    leaves a file system in which [state.Load] returns either what it
    returned before the call or the state being saved, and the file system
    [Save] itself leaves when it is not killed is the last of these. *)
Theorem Save_atomic s d c st b :
  place_ok s d c → State_ok st → State_Marshal st = Some b →
  saving (abs (d ++ [c])) b s (Save (abs (d ++ [c])) st s).2 ∧
  ∀ s', saving (abs (d ++ [c])) b s s' →
    (Load (abs (d ++ [c])) s').1 = (Load (abs (d ++ [c])) s).1 ∨ (Load (abs (d ++ [c])) s').1 = Ok (Some st).
Proof.
  intros Hpl Hst Hb. split.
  { pose proof (Save_effect s d c st Hpl) as H. rewrite Hb in H. destruct H as (s4 & HS & _).
    rewrite HS. cbn [snd]. by apply (Save_saving _ st). }
  intros s' Hsaving. destruct Hpl as [Hwf Hd Hp Ht Hslot Htmp Hown].
  destruct (State_Unmarshal_Marshal st Hst) as (b' & Hb' & Hback). simplify_eq.
  assert (∀ perm s1, os_MkdirAll (path_Dir (abs (d ++ [c]))) perm s = (Ok tt, s1) → s1 = s) as Hmk.
  { intros perm s1. rewrite MkdirAll_exists by done. by intros [= <-]. }
  destruct (opened_holds s d c) with (perm := o600) as (n & s2 & Ho & H2 & Hn2); [done..|].
  assert (∀ m s3, os_OpenFile (tmp_path (abs (d ++ [c]))) o600 s = (Ok m, s3) → m = n ∧ s3 = s2) as Hopen.
  { intros m s3. rewrite tmp_path_abs, Ho. by intros [= <- <-]. }
  destruct Hsaving as [|s1 Hm%Hmk|s1 m s3 Hm%Hmk Ho'|s1 m s3 part rest s4 Hm%Hmk Ho' Eb Hw|s1 m s3 s4 s5 Hm%Hmk Ho' Hw Hr];
    [by left|subst; by left|subst; apply Hopen in Ho' as [-> ->]; left..|subst; apply Hopen in Ho' as [-> ->]; right].
  - eapply Load_during; done.
  - eapply Load_during; [done..|]. eapply written_holds; done.
  - destruct (renamed_saved s d c) with (b := b) (s' := s4) as (s6 & Hr' & HL); [done..|by eapply (written_holds s d c n "")|].
    rewrite tmp_path_abs, Hr' in Hr. simplify_eq. by erewrite (saved_Load s d c), Hback.
Qed.

(** Killed with a part of the text in [state.json.tmp]. *)
Definition hello_text : string := default "" (State_Marshal hello_state).
Definition opened_fs : fs := (os_OpenFile (tmp_path DefaultPath) o600 peel_fs).2.
Definition killed_fs : fs := (write 3 (String.substring 0 40 hello_text) opened_fs).2.

Lemma Save_atomic_witness :
  (Load DefaultPath killed_fs).1 = (Load DefaultPath peel_fs).1 ∨ (Load DefaultPath killed_fs).1 = Ok (Some hello_state).
Proof.
  destruct (Save_atomic peel_fs ["peel"] "state.json" hello_state hello_text) as [_ H].
  - apply peel_fs_place.
  - by apply (bool_decide_unpack _); vm_compute.
  - by vm_compute.
  - apply (H killed_fs).
    apply (saving_written _ _ _ peel_fs 3 opened_fs (String.substring 0 40 hello_text) (String.substring 40 1000 hello_text));
      by vm_compute.
Defined.
