(* ===== verification/ConfigLoad.v ===== *)
(** * Reading the configuration: [config.Load] of [internal/config/config.go]

    The file is read, decoded into a [wireConfig] and converted; the cases of
    [internal/config/config_test.go] are evaluated at the end. *)

From S2P Require Import Prelude Platform GoStrings GoPath GoJSON FS Config.

Definition DefaultPath : string := "/peel/config.json".

Definition wire_zero : wireConfig := mkWireConfig "" "" "" "" "" "" "" "" "" "" None None None.

(** One field of [wireConfig] replaced. *)
Definition w_set_strings (i : nat) (x : string) (w : wireConfig) : wireConfig :=
  let f k old := if decide (i = k) then x else old in
  mkWireConfig (f 0%nat (w_Image w)) (f 1%nat (w_Platform w)) (f 2%nat (w_Insecure w)) (f 3%nat (w_Username w))
    (f 4%nat (w_Password w)) (f 5%nat (w_Auth w)) (f 6%nat (w_IdentityToken w)) (f 7%nat (w_RegistryToken w))
    (f 8%nat (w_WorkingDir w)) (f 9%nat (w_User w)) (w_Entrypoint w) (w_Cmd w) (w_Env w).
Definition w_set_lists (i : nat) (x : option (list string)) (w : wireConfig) : wireConfig :=
  let f k old := if decide (i = k) then x else old in
  mkWireConfig (w_Image w) (w_Platform w) (w_Insecure w) (w_Username w) (w_Password w) (w_Auth w) (w_IdentityToken w)
    (w_RegistryToken w) (w_WorkingDir w) (w_User w) (f 0%nat (w_Entrypoint w)) (f 1%nat (w_Cmd w)) (f 2%nat (w_Env w)).

(** The fields and their [json] tags. *)
Definition wire_fields : list (string * (json → wireConfig → option wireConfig)) :=
  [ field_of "image" decode_string w_Image (w_set_strings 0);
    field_of "platform" decode_string w_Platform (w_set_strings 1);
    field_of "insecure" decode_string w_Insecure (w_set_strings 2);
    field_of "username" decode_string w_Username (w_set_strings 3);
    field_of "password" decode_string w_Password (w_set_strings 4);
    field_of "auth" decode_string w_Auth (w_set_strings 5);
    field_of "identity_token" decode_string w_IdentityToken (w_set_strings 6);
    field_of "registry_token" decode_string w_RegistryToken (w_set_strings 7);
    field_of "working_dir" decode_string w_WorkingDir (w_set_strings 8);
    field_of "user" decode_string w_User (w_set_strings 9);
    field_of "entrypoint" decode_strings w_Entrypoint (w_set_lists 0);
    field_of "cmd" decode_strings w_Cmd (w_set_lists 1);
    field_of "env" decode_strings w_Env (w_set_lists 2) ].

Inductive config_error :=
  | EReading (e : errno)
  | EParsing
  | ENoImage.

Definition Load (p : string) : io config_error Config :=
  let! b := io_wrap EReading (os_ReadFile p) in
  match json_Unmarshal wire_fields b wire_zero with
  | None => io_err EParsing
  | Some w =>
      match from_wire w with
      | None => io_err ENoImage
      | Some cfg => io_ret cfg
      end
  end.

(** ** The template's document *)

(** The members of [image/templates/config.tpl], in its order. *)
Definition list_json (l : option (list string)) : json :=
  match l with None => JNull | Some l => JArr (map JStr l) end.
Definition wire_json (w : wireConfig) : json := JObj
  [("image", JStr (w_Image w)); ("platform", JStr (w_Platform w)); ("insecure", JStr (w_Insecure w));
   ("username", JStr (w_Username w)); ("password", JStr (w_Password w)); ("auth", JStr (w_Auth w));
   ("identity_token", JStr (w_IdentityToken w)); ("registry_token", JStr (w_RegistryToken w));
   ("working_dir", JStr (w_WorkingDir w)); ("user", JStr (w_User w));
   ("entrypoint", list_json (w_Entrypoint w)); ("cmd", list_json (w_Cmd w)); ("env", list_json (w_Env w))].

Lemma decode_elems_map l cur : decode_elems (map JStr l) cur = Some l.
Proof. revert cur. induction l as [|s l IH]; intros cur; [done|]. cbn. by rewrite IH. Qed.

Lemma decode_list_json l : decode_strings (list_json l) None = Some l.
Proof. destruct l as [l|]; [|done]. unfold decode_strings, list_json. by rewrite decode_elems_map. Qed.

Lemma wire_decode w : decode_struct wire_fields (wire_json w) wire_zero = Some w.
Proof.
  destruct w as [i p n u pw a it rt wd us e c v]. transitivity (
    e ← decode_strings (list_json e) None; c ← decode_strings (list_json c) None; v ← decode_strings (list_json v) None;
    Some (mkWireConfig i p n u pw a it rt wd us e c v)).
  - unfold wire_json. cbn [w_Image w_Platform w_Insecure w_Username w_Password w_Auth w_IdentityToken w_RegistryToken
      w_WorkingDir w_User w_Entrypoint w_Cmd w_Env].
    generalize (list_json e) as je, (list_json c) as jc, (list_json v) as jv. intros.
    transitivity (
      (((λ x, mkWireConfig i p n u pw a it rt wd us x None None) <$> decode_strings je None) ≫=
        λ r, (λ x, w_set_lists 1 x r) <$> decode_strings jc (w_Cmd r)) ≫=
        λ r, (λ x, w_set_lists 2 x r) <$> decode_strings jv (w_Env r)); [reflexivity|].
    destruct (decode_strings je None) as [e'|]; [|done]. cbn [fmap option_fmap option_map mbind option_bind w_Cmd w_Env].
    destruct (decode_strings jc None) as [c'|]; [|done]. cbn [fmap option_fmap option_map mbind option_bind]. change (w_Env (w_set_lists 1 c' _)) with (@None (list string)).
    by destruct (decode_strings jv None).
  - by rewrite !decode_list_json.
Qed.

(** The override lists an absent, null or empty array gives. *)
Lemma orNil_elems l : orNil l = None ∨ orNil l = l ∧ ∃ x xs, l = Some (x :: xs).
Proof. destruct l as [[|x xs]|]; eauto 10. Qed.

(** ** Properties *)

(** C21. [config.Load] of a file that is a JSON text, of any layout and escaping,
    for the document of [config.tpl]: an empty image is an error, otherwise
    every setting arrives in the [Config] unchanged, except that "insecure" is
    true exactly for true, 1 and yes up to case and surrounding space, and that
    an empty array of overrides is the same as none. The file itself is left
    as it was. *)
Theorem Load_document s p data w :
  os_ReadFile p s = (Ok data, s) → json_parse data = Some (wire_json w) →
  (w_Image w = "" → Load p s = (Err ENoImage, s)) ∧
  (w_Image w ≠ "" → ∃ cfg, Load p s = (Ok cfg, s) ∧
    (cfg_Image cfg, cfg_Platform cfg, cfg_Username cfg, cfg_Password cfg, cfg_Auth cfg) =
      (w_Image w, w_Platform w, w_Username w, w_Password w, w_Auth w) ∧
    (cfg_IdentityToken cfg, cfg_RegistryToken cfg, cfg_WorkingDir cfg, cfg_User cfg) =
      (w_IdentityToken w, w_RegistryToken w, w_WorkingDir w, w_User w) ∧
    (cfg_Insecure cfg = true ↔ strings_ToLower (strings_TrimSpace (w_Insecure w)) ∈ ["true"; "1"; "yes"]) ∧
    (∀ get wget, (get, wget) ∈ [(cfg_Entrypoint, w_Entrypoint); (cfg_Cmd, w_Cmd); (cfg_Env, w_Env)] →
      get cfg ≠ Some [] ∧ elems (get cfg) = elems (wget w))).
Proof.
  intros Hread Hparse. unfold Load, io_bind, io_wrap. rewrite Hread. cbn [res_map_err].
  unfold json_Unmarshal. rewrite Hparse. cbn [mbind option_bind]. rewrite wire_decode. unfold from_wire.
  split; intros Hi; [by rewrite decide_True|]. rewrite decide_False by done. eexists. split; [reflexivity|].
  split_and!; [done|done| |].
  - cbn [cfg_Insecure]. unfold parseBool. rewrite bool_decide_eq_true, !elem_of_cons, elem_of_nil. tauto.
  - intros get wget. rewrite !elem_of_cons, elem_of_nil.
    assert (∀ l, orNil l ≠ Some [] ∧ elems (orNil l) = elems l) as H by by intros [[|x l]|].
    intros [[= -> ->]|[[= -> ->]|[[= -> ->]|[]]]]; apply H.
Qed.

(** A root holding one configuration file. *)
Definition with_config (data : string) : fs := mkFs
  (list_to_map [([], 0%nat); (["peel"], 1%nat); (["peel"; "config.json"], 2%nat)])
  (list_to_map [(0%nat, mkInode Dir o755 0 0 ∅ None); (1%nat, mkInode Dir o755 0 0 ∅ None);
    (2%nat, mkInode (File data) o644 0 0 ∅ None)]) 0 (λ _ _, None) Amd64.

Definition sample_wire : wireConfig :=
  mkWireConfig "example.com/app:latest" "linux/arm64" " True" "alice" "s3cret" "" "" "" "/srv" "1000:1000"
    (Some ["/bin/app"]) (Some []) None.

Definition sample_text : string := json_MarshalIndent "  " (wire_json sample_wire).
Definition sample_config : Config :=
  mkConfig "example.com/app:latest" "linux/arm64" true "alice" "s3cret" "" "" "" (Some ["/bin/app"]) None None "/srv" "1000:1000".

Lemma Load_document_witness :
  Load DefaultPath (with_config sample_text) = (Ok sample_config, with_config sample_text) ∧
  ∃ cfg, Load DefaultPath (with_config sample_text) = (Ok cfg, with_config sample_text) ∧ cfg_Insecure cfg = true.
Proof.
  split; [by vm_compute|].
  destruct (Load_document (with_config sample_text) DefaultPath sample_text sample_wire) as [_ H]; [by vm_compute..|].
  destruct (H ltac:(discriminate)) as (cfg & HL & _ & _ & Hb & _). exists cfg. split; [exact HL|].
  apply Hb. by apply (bool_decide_unpack _); vm_compute.
Defined.

(** The cases of [config_test.go]. *)
Definition q (s : string) : string := String dquote (s +:+ String dquote "").
Definition load_text (text : string) : res config_error Config := (Load DefaultPath (with_config text)).1.

Example TestLoadRequiresImage : load_text ("{" +:+ q "image" +:+ ":" +:+ q "" +:+ "}") = Err ENoImage.
Proof. vm_compute. reflexivity. Qed.
Example TestLoadMissingFile : (Load "/peel/does-not-exist.json" (with_config "{}")).1 = Err (EReading ENOENT).
Proof. vm_compute. reflexivity. Qed.
Example TestLoadDefaults :
  load_text ("{" +:+ q "image" +:+ ":" +:+ q "example.com/app:latest" +:+ "}") =
  Ok (mkConfig "example.com/app:latest" "" false "" "" "" "" "" None None None "" "").
Proof. vm_compute. reflexivity. Qed.
Example TestLoadEmptyArrayOverridesAreNil :
  load_text ("{" +:+ q "image" +:+ ":" +:+ q "a" +:+ "," +:+ q "cmd" +:+ ":[]}") =
  Ok (mkConfig "a" "" false "" "" "" "" "" None None None "" "").
Proof. vm_compute. reflexivity. Qed.
Example TestLoadRejectsInvalidJSON : load_text "{not json" = Err EParsing.
Proof. vm_compute. reflexivity. Qed.
