(* ===== verification/Pull.v ===== *)
(** * Fetching the image: [internal/pull/pull.go], [internal/certs/certs.go]

    What the registry client is asked for: the reference, the platform, the
    credentials and the trust roots.  Parsing a reference, reading the embedded
    bundle and talking to the registry are other packages: arguments of
    [Image]. *)

From S2P Require Import Prelude GoStrings GoPath Config.

Definition UserAgent : string := "peel/0 (+https://github.com/canonical/peel)".

(** [v1.Platform], as far as the code fills it. *)
Record Platform := mkPlatform { pf_OS : string; pf_Architecture : string; pf_Variant : string }.

(** [authn.Authenticator]: the three the code makes. *)
Inductive Authenticator :=
  | Basic (Username Password : string)
  | FromConfig (Auth IdentityToken RegistryToken : string)
  | Anonymous.

Inductive name_Option := WeakValidation | Insecure.

Inductive pull_error (E : Type) :=
  | EParsingReference (err : E)
  | EInvalidPlatform (s : string)
  | ENoCertificates
  | EPulling (err : E).
Arguments EParsingReference {E} err.
Arguments EInvalidPlatform {E} s.
Arguments ENoCertificates {E}.
Arguments EPulling {E} err.

Definition authenticator (cfg : Config) : Authenticator :=
  if decide (cfg_Username cfg ≠ "" ∨ cfg_Password cfg ≠ "") then Basic (cfg_Username cfg) (cfg_Password cfg)
  else if decide (cfg_Auth cfg ≠ "" ∨ cfg_IdentityToken cfg ≠ "" ∨ cfg_RegistryToken cfg ≠ "") then
    FromConfig (cfg_Auth cfg) (cfg_IdentityToken cfg) (cfg_RegistryToken cfg)
  else Anonymous.

(** [goarch] is [runtime.GOARCH]. *)
Definition resolvePlatform {E} (goarch s : string) : res (pull_error E) Platform :=
  if decide (s = "") then Ok (mkPlatform "linux" goarch "")
  else match path_split s with
       | [os; arch] => Ok (mkPlatform os arch "")
       | [os; arch; variant] => Ok (mkPlatform os arch variant)
       | _ => Err (EInvalidPlatform s)
       end.

Section Image.
(** The packages the code calls: [name.Reference], [x509.CertPool],
    [v1.Image] and their errors. *)
Context {Reference Pool Img E : Type}.

(** What [remote.Image] is called with. *)
Record request := mkRequest {
  rq_ref : Reference;
  rq_auth : Authenticator;
  rq_platform : Platform;
  rq_userAgent : string;
  rq_roots : Pool;
}.

Context (ParseReference : list name_Option → string → res E Reference).
Context (AppendCertsFromPEM : option Pool) (* of the embedded bundle: the pool, or [false] *).
Context (remote_Image : request → res E Img).
Context (goarch : string).

(** [certs.Pool]. *)
Definition certs_Pool : res (pull_error E) Pool :=
  match AppendCertsFromPEM with Some pool => Ok pool | None => Err ENoCertificates end.

(** [httpTransport]: a transport is its [RootCAs]. *)
Definition httpTransport : res (pull_error E) Pool := certs_Pool.

Definition name_options (cfg : Config) : list name_Option :=
  [WeakValidation] ++ (if cfg_Insecure cfg then [Insecure] else []).

(** [Image] up to its call of the registry. *)
Definition image_request (cfg : Config) : res (pull_error E) request :=
  let? ref := res_map_err EParsingReference (ParseReference (name_options cfg) (cfg_Image cfg)) in
  let? platform := resolvePlatform goarch (cfg_Platform cfg) in
  let? transport := httpTransport in
  Ok (mkRequest ref (authenticator cfg) platform UserAgent transport).

Definition Image (cfg : Config) : res (pull_error E) Img :=
  let? rq := image_request cfg in
  res_map_err EPulling (remote_Image rq).
End Image.

Arguments request : clear implicits.

(** ** Facts *)

Definition no_slash (s : string) : Prop := lacks slash s.

Lemma path_split_iff s cs : cs ≠ [] → path_split s = cs ↔ s = strings_Join cs "/" ∧ Forall no_slash cs.
Proof.
  intros Hne. split.
  - intros <-. split; [symmetry; apply Join_Split|apply Split_lacks].
  - intros [-> H]. by apply path_Split_Join.
Qed.

(** ** Properties *)

(** A platform is accepted exactly in the forms [os/arch] and
    [os/arch/variant], whose parts hold no slash and are taken as they are;
    nothing configured means linux on the architecture peel was built for; any
    other text is an error that quotes it. *)
Theorem resolvePlatform_forms {E} goarch s :
  (∀ p, resolvePlatform (E := E) goarch s = Ok p ↔
    s = "" ∧ p = mkPlatform "linux" goarch "" ∨
    s ≠ "" ∧ no_slash (pf_OS p) ∧ no_slash (pf_Architecture p) ∧
      (pf_Variant p = "" ∧ s = pf_OS p +:+ "/" +:+ pf_Architecture p ∨
       no_slash (pf_Variant p) ∧ s = pf_OS p +:+ "/" +:+ pf_Architecture p +:+ "/" +:+ pf_Variant p)) ∧
  (∀ e, resolvePlatform goarch s = Err e → e = EInvalidPlatform (E := E) s).
Proof.
  unfold resolvePlatform. destruct (decide (s = "")) as [->|Hs].
  { split; [|done]. intros p. split; [intros [= <-]; by left|]. intros [[_ ->]|[? _]]; done. }
  split.
  2: { intros e. by destruct (path_split s) as [|a [|b [|c [|d l]]]]; intros [= <-]. }
  intros p. split.
  - intros H. right. split; [done|].
    destruct (path_split s) as [|a [|b [|c [|d l]]]] eqn:Es; try done; injection H as <-; cbn [pf_OS pf_Architecture pf_Variant];
      apply path_split_iff in Es as [-> Hl]; try done; rewrite !Forall_cons in Hl; naive_solver.
  - intros [[? _]|(_ & Ho & Ha & Hv)]; [done|]. destruct p as [o a v]. cbn [pf_OS pf_Architecture pf_Variant] in *.
    destruct Hv as [[-> ->]|[Hv ->]].
    + assert (path_split (o +:+ "/" +:+ a) = [o; a]) as -> by (apply path_split_iff; [done|]; split; [done|by repeat constructor]). done.
    + assert (path_split (o +:+ "/" +:+ a +:+ "/" +:+ v) = [o; a; v]) as -> by (apply path_split_iff; [done|]; split; [done|by repeat constructor]).
      done.
Qed.

Example platform_arm : resolvePlatform (E := unit) "amd64" "linux/arm/v7" = Ok (mkPlatform "linux" "arm" "v7").
Proof. reflexivity. Qed.
Example platform_bad : resolvePlatform (E := unit) "amd64" "linux" = Err (EInvalidPlatform "linux").
Proof. reflexivity. Qed.
