(* ===== verification/NetLinks.v ===== *)
(** * Bringing the network up: the rest of [internal/network/network.go]

    [Configure] over all links, [configureLink], the DHCPv4 and DHCPv6
    handshakes and the wait for a usable link-local address.  What netlink and
    the DHCP clients answer is an argument; what is asked of netlink is
    recorded as a list of calls. *)

From stdpp Require Import sorting.
From S2P Require Import Prelude Platform GoStrings GoPath GoNet FS FSFacts Network.

Record Link := mkLink { l_Name : string; l_Index : Z }.
#[export] Instance Link_eq_dec : EqDecision Link.
Proof. solve_decision. Defined.

(** [net.IPMask.String] is only logged; a mask is its bytes. *)
Notation IPMask := (list byte).
Definition CIDRMask4 (ones : nat) : IPMask := replicate ones xff ++ replicate (4 - ones) x00.

(** [net.IP.DefaultMask]. *)
Definition IP_DefaultMask (ip : IP) : IPMask :=
  match IP_To4 ip with
  | Some (b :: _) =>
      if decide (byte_Z b < 0x80) then CIDRMask4 1
      else if decide (byte_Z b < 0xC0) then CIDRMask4 2
      else CIDRMask4 3
  | _ => []
  end.

(** [net.IP.IsLinkLocalUnicast]. *)
Definition IP_IsLinkLocalUnicast (ip : IP) : bool :=
  match IP_To4 ip with
  | Some ip4 => bool_decide (take 2 ip4 = [xa9; xfe])
  | None =>
      match ip with
      | a :: b :: _ => bool_decide (length ip = 16%nat) && bool_decide (a = xfe) && bool_decide (Z.land (byte_Z b) 0xc0 = 0x80)
      | _ => false
      end
  end.

(** What the code reads of a lease's ACK: a missing mask is empty. *)
Record Ack := mkAck { ack_YourIPAddr : IP; ack_SubnetMask : IPMask; ack_Router : list IP; ack_DNS : list IP }.

Record LinkAddr := mkLinkAddr { la_IP : IP; la_Flags : Z }.
Definition IFA_F_TENTATIVE : Z := 0x40.

(** The changes asked of netlink. *)
Inductive netcall :=
  | LinkSetUp (link : Link)
  | AddrReplace (link : Link) (ip : IP) (mask : IPMask)
  | RouteReplace (index : Z) (gw : IP).

Inductive link_error (E : Type) :=
  | ECreatingClient (e : E)
  | ERequest (e : E)
  | ESettingAddress (e : E)
  | EWaiting (e : option E) (* [None]: [ctx.Err()] *)
  | EBuilding (e : E).
Arguments ECreatingClient {E} e.
Arguments ERequest {E} e.
Arguments ESettingAddress {E} e.
Arguments EWaiting {E} e.
Arguments EBuilding {E} e.

Section Links.
Context {E : Type}.

(** What the packages and the servers answer during one boot. *)
Context (netlink : netcall → option E) (* the error of a change *).
Context (nclient4_New nclient6_New : string → option E).
Context (Request4 : string → res E Ack).
Context (NewMessage : option E).
Context (SendAndRead6 : string → res E (list IP)) (* the name servers of the reply *).
Context (AddrList : Link → list (res E (list LinkAddr))) (* each poll before [ctx] is done *).

(** The loop over [ack.Router()]. *)
Fixpoint default_route (link : Link) (gws : list IP) : list netcall :=
  match gws with
  | [] => []
  | gw :: gws =>
      RouteReplace (l_Index link) gw ::
      match netlink (RouteReplace (l_Index link) gw) with
      | Some _ => default_route link gws
      | None => []
      end
  end.

Definition configureLinkV4 (link : Link) : list netcall * res (link_error E) (list IP) :=
  let name := l_Name link in
  match nclient4_New name with
  | Some err => ([], Err (ECreatingClient err))
  | None =>
      match Request4 name with
      | Err err => ([], Err (ERequest err))
      | Ok ack =>
          let mask := match ack_SubnetMask ack with [] => IP_DefaultMask (ack_YourIPAddr ack) | mask => mask end in
          let set := AddrReplace link (ack_YourIPAddr ack) mask in
          match netlink set with
          | Some err => ([set], Err (ESettingAddress err))
          | None => (set :: default_route link (ack_Router ack), Ok (ack_DNS ack))
          end
      end
  end.

Definition usable (a : LinkAddr) : bool :=
  IP_IsLinkLocalUnicast (la_IP a) && bool_decide (Z.land (la_Flags a) IFA_F_TENTATIVE = 0).

(** One answer of [AddrList] per turn of the loop; [ctx] is done after the last. *)
Fixpoint wait_polls (polls : list (res E (list LinkAddr))) : res (option E) unit :=
  match polls with
  | [] => Err None
  | Err err :: _ => Err (Some err)
  | Ok addrs :: polls => if existsb usable addrs then Ok tt else wait_polls polls
  end.
Definition waitForUsableLinkLocal (link : Link) : res (option E) unit := wait_polls (AddrList link).

Definition configureLinkV6 (link : Link) : res (link_error E) (list IP) :=
  let? _ := res_map_err EWaiting (waitForUsableLinkLocal link) in
  match nclient6_New (l_Name link) with
  | Some err => Err (ECreatingClient err)
  | None =>
      match NewMessage with
      | Some err => Err (EBuilding err)
      | None => res_map_err ERequest (SendAndRead6 (l_Name link))
      end
  end.

(** What a protocol that failed adds to the name servers. *)
Definition found {F} (r : res F (list IP)) : list IP := match r with Ok dns => dns | Err _ => [] end.

(** [v4first]: which of the two goroutines appended first. *)
Definition configureLink (v4first : bool) (link : Link) : list netcall * list IP :=
  match netlink (LinkSetUp link) with
  | Some _ => ([LinkSetUp link], [])
  | None =>
      let '(calls, v4) := configureLinkV4 link in
      let v6 := configureLinkV6 link in
      (LinkSetUp link :: calls, if v4first then found v4 ++ found v6 else found v6 ++ found v4)
  end.

(** The links [Configure] starts a goroutine for. *)
Definition configurable (links : list Link) : list Link := filter (λ l, l_Name l ≠ "lo") links.

(** [Configure], when the goroutines append their name servers in the order
    [finished]. *)
Definition NetConfigure (root : string) (LinkList : res E (list Link)) (finished : list Link → list Link)
    (v4first : Link → bool) : io errno (list IP) :=
  match LinkList with
  | Err _ => io_ret []
  | Ok links =>
      Configure root ((λ link, (configureLink (v4first link) link).2) <$> finished (configurable links))
  end.

(** ** Facts *)

(** What one link yields, whatever the order of its protocols. *)
Definition yields (link : Link) (ip : IP) : Prop :=
  netlink (LinkSetUp link) = None ∧
  ((∃ dns, (configureLinkV4 link).2 = Ok dns ∧ ip ∈ dns) ∨ (∃ dns, configureLinkV6 link = Ok dns ∧ ip ∈ dns)).

Lemma configureLink_yields b link ip : ip ∈ (configureLink b link).2 ↔ yields link ip.
Proof.
  unfold configureLink, yields. destruct (netlink (LinkSetUp link)); [cbn; set_solver|].
  destruct (configureLinkV4 link) as [calls v4]. cbn [snd].
  assert (∀ F (r : res F (list IP)), ip ∈ found r ↔ ∃ dns, r = Ok dns ∧ ip ∈ dns) as Hf.
  { intros F [dns|e]; cbn; [naive_solver|]. rewrite elem_of_nil. naive_solver. }
  destruct b; rewrite elem_of_app, !Hf; naive_solver.
Qed.

(** The gateways that became the default route. *)
Definition routes (calls : list netcall) : list IP :=
  omap (λ c, match c with RouteReplace _ gw => match netlink c with None => Some gw | Some _ => None end | _ => None end) calls.

Definition accepted (link : Link) (gw : IP) : Prop := netlink (RouteReplace (l_Index link) gw) = None.

Lemma default_route_spec link gws :
  (∃ pre gw post, gws = pre ++ gw :: post ∧ Forall (λ g, ¬ accepted link g) pre ∧ accepted link gw ∧
     default_route link gws = (RouteReplace (l_Index link) <$> pre ++ [gw]) ∧ routes (default_route link gws) = [gw]) ∨
  Forall (λ g, ¬ accepted link g) gws ∧ default_route link gws = (RouteReplace (l_Index link) <$> gws) ∧
    routes (default_route link gws) = [].
Proof.
  induction gws as [|g gws IH]; [right; by split_and!|]. cbn [default_route].
  destruct (netlink (RouteReplace (l_Index link) g)) as [e|] eqn:Hg.
  - assert (¬ accepted link g) as Hn by (unfold accepted; congruence).
    destruct IH as [(pre & gw & post & -> & Hpre & Hgw & Hd & Hr)|(Hall & Hd & Hr)].
    + left. exists (g :: pre), gw, post. split_and!; [done|by constructor|done|by rewrite Hd|].
      unfold routes in *. cbn [omap list_omap]. by rewrite Hg.
    + right. split_and!; [by constructor|by rewrite Hd|]. unfold routes in *. cbn [omap list_omap]. by rewrite Hg.
  - left. exists [], g, gws. split_and!; [done|constructor|done|done|]. unfold routes. cbn. by rewrite Hg.
Qed.

Lemma NetConfigure_names finished v4first links :
  (∀ l, finished l ≡ₚ l) →
  ∀ x, x ∈ IP_String <$> concat ((λ link, (configureLink (v4first link) link).2) <$> finished (configurable links)) ↔
    ∃ link ip, link ∈ links ∧ l_Name link ≠ "lo" ∧ yields link ip ∧ x = IP_String ip.
Proof.
  intros Hf x. rewrite list_elem_of_fmap. split.
  - intros (ip & -> & Hip). apply list_elem_of_In, in_concat in Hip as (l & Hl & Hip).
    apply list_elem_of_In, list_elem_of_fmap in Hl as (link & -> & Hlink). rewrite Hf in Hlink.
    apply list_elem_of_filter in Hlink as [Hn Hlink]. apply list_elem_of_In, configureLink_yields in Hip. by exists link, ip.
  - intros (link & ip & Hlink & Hn & Hy & ->). exists ip. split; [done|]. apply list_elem_of_In, in_concat.
    exists (configureLink (v4first link) link).2. rewrite <-!list_elem_of_In. split; [|by apply configureLink_yields].
    apply list_elem_of_fmap. exists link. split; [done|]. rewrite Hf. by apply list_elem_of_filter.
Qed.

(** ** Properties *)

(** C11. [network.Configure] is best-effort and deterministic: whatever the order
    in which the links and their protocols finish, it returns (each once,
    sorted) exactly the name servers that some link other than lo, once up,
    obtained by a DHCP exchange that succeeded, failures of other links and
    protocols notwithstanding; and [resolv.conf] and everything else in the
    file system come out the same. *)
Theorem configure_best_effort root links finished v4first finished' v4first' s :
  (∀ l, finished l ≡ₚ l) → (∀ l, finished' l ≡ₚ l) →
  ∃ dns dns' s',
    NetConfigure root (Ok links) finished v4first s = (Ok dns, s') ∧
    NetConfigure root (Ok links) finished' v4first' s = (Ok dns', s') ∧
    IP_String <$> dns = IP_String <$> dns' ∧
    Sorted string_le (IP_String <$> dns) ∧ NoDup (IP_String <$> dns) ∧
    ∀ x, x ∈ IP_String <$> dns ↔
      ∃ link ip, link ∈ links ∧ l_Name link ≠ "lo" ∧ yields link ip ∧ x = IP_String ip.
Proof.
  intros Hf Hf'. unfold NetConfigure, Configure.
  pose proof (NetConfigure_names finished v4first links Hf) as Hx.
  pose proof (NetConfigure_names finished' v4first' links Hf') as Hx'.
  revert Hx Hx'. generalize (concat ((λ link, (configureLink (v4first link) link).2) <$> finished (configurable links))) as l.
  generalize (concat ((λ link, (configureLink (v4first' link) link).2) <$> finished' (configurable links))) as l'.
  intros l' l Hx Hx'.
  assert (IP_String <$> dedup l = IP_String <$> dedup l') as Es by (apply dedup_set; intros x; by rewrite Hx, Hx').
  assert (WriteResolvConf root (dedup l) s = WriteResolvConf root (dedup l') s) as Ew.
  { unfold WriteResolvConf. rewrite (resolv_conf_strings _ _ Es). revert Es.
    destruct (dedup l), (dedup l'); by intros [=]. }
  exists (dedup l), (dedup l'), (WriteResolvConf root (dedup l') s).2.
  unfold io_bind, io_try. rewrite Ew. destruct (WriteResolvConf root (dedup l') s) as [r s']. cbn.
  split_and!; [done..|apply dedup_sorted|apply NoDup_dedup|]. intros x. by rewrite elem_of_dedup.
Qed.

(** A link gets at most one default route: the gateways of its lease are
    tried in order after its address is set, each refused one is passed over,
    and none is tried after the first that is accepted; a link that does not
    come up, has no lease or cannot take its address gets none. *)
Theorem one_default_route b link :
  routes (configureLink b link).1 = [] ∨
  ∃ ack pre gw post, Request4 (l_Name link) = Ok ack ∧ ack_Router ack = pre ++ gw :: post ∧
    Forall (λ g, ¬ accepted link g) pre ∧ accepted link gw ∧
    routes (configureLink b link).1 = [gw] ∧
    ∃ mask, netlink (AddrReplace link (ack_YourIPAddr ack) mask) = None ∧
      (configureLink b link).1 =
        LinkSetUp link :: AddrReplace link (ack_YourIPAddr ack) mask :: (RouteReplace (l_Index link) <$> pre ++ [gw]).
Proof.
  unfold configureLink. destruct (netlink (LinkSetUp link)); [by left|].
  unfold configureLinkV4. destruct (nclient4_New (l_Name link)); [by left|].
  destruct (Request4 (l_Name link)) as [ack|] eqn:Ha; [|by left].
  set (mask := match ack_SubnetMask ack with [] => _ | m => m end).
  destruct (netlink (AddrReplace link (ack_YourIPAddr ack) mask)) eqn:Hm; [by left|].
  cbn [fst]. destruct (default_route_spec link (ack_Router ack)) as [(pre & gw & post & Hr & Hpre & Hgw & Hd & Hro)|(_ & _ & Hro)].
  - right. exists ack, pre, gw, post. split_and!; [done..|by rewrite <-Hro|]. exists mask. by rewrite Hd.
  - left. by rewrite <-Hro.
Qed.
End Links.

(** Two links and lo: eth0 has a lease with a refused and an accepted gateway
    but no IPv6, eth1 finds no DHCPv4 server but has IPv6. *)
Definition demo_netlink (c : netcall) : option unit :=
  match c with RouteReplace _ [x0a; x00; x00; xfe] => Some tt | _ => None end.
Definition demo_request (name : string) : res unit Ack :=
  if decide (name = "eth0")
  then Ok (mkAck [x0a; x00; x00; x05] [] [[x0a; x00; x00; xfe]; [x0a; x00; x00; x01]; [x0a; x00; x00; x02]] [[x0a; x00; x00; x01]])
  else Err tt.
Definition demo_polls (link : Link) : list (res unit (list LinkAddr)) :=
  let a flags := mkLinkAddr ([xfe; x80] ++ replicate 13 x00 ++ [x01]) flags in
  if decide (l_Name link = "eth1") then [Ok []; Ok [a IFA_F_TENTATIVE]; Ok [a 0]] else [Ok []].
Definition demo_links : list Link := [mkLink "lo" 1; mkLink "eth0" 2; mkLink "eth1" 3].
Definition demo_configure (finished : list Link → list Link) : io errno (list IP) :=
  NetConfigure demo_netlink (λ _, None) (λ _, None) demo_request None (λ _, Ok [[x01; x01; x01; x01]]) demo_polls
    "/" (Ok demo_links) finished (λ _, true).

Definition bare_root : fs := mkFs (list_to_map [([], 0%nat)]) (list_to_map [(0%nat, mkInode Dir o755 0 0 ∅ None)]) 0 (λ _ _, None) Amd64.

Lemma configure_best_effort_witness :
  match (demo_configure id bare_root).1 with Ok l => map IP_String l | Err _ => [] end = ["1.1.1.1"; "10.0.0.1"] ∧
  (demo_configure id bare_root).2 = (demo_configure reverse bare_root).2.
Proof.
  split; [by vm_compute|].
  destruct (configure_best_effort demo_netlink (λ _, None) (λ _, None) demo_request None (λ _, Ok [[x01; x01; x01; x01]]) demo_polls
    "/" demo_links id (λ _, true) reverse (λ _, true) bare_root) as (dns & dns' & s' & H & H' & _).
  - done.
  - intros l. by rewrite reverse_Permutation.
  - unfold demo_configure. by rewrite H, H'.
Defined.

Example eth0_calls :
  (configureLink demo_netlink (λ _, None) (λ _, None) demo_request None (λ _, Ok []) demo_polls true (mkLink "eth0" 2)).1 =
  [LinkSetUp (mkLink "eth0" 2); AddrReplace (mkLink "eth0" 2) [x0a; x00; x00; x05] [xff; x00; x00; x00];
   RouteReplace 2 [x0a; x00; x00; xfe]; RouteReplace 2 [x0a; x00; x00; x01]].
Proof. vm_compute. reflexivity. Qed.
