(* ===== verification/LoRun.v ===== *)
(** * Starting the share: [internal/lo/run.go], [runDiscovery]

    [RunDir] up to what it leaves running, over the file system model, and the
    life of [runDiscovery] as the sequence of its scans. *)

From S2P Require Import Prelude Platform GoStrings GoPath FS FSFacts LoTypes LoShare.

Definition DefaultDir : string := "/peel/lo".

(** Go's literal [0o666]. *)
Definition o666 : Z := 0x1b6.

(** What runs in the background once [RunDir] has returned: the server on its
    socket, and discovery in the directory for everybody but [sh_self]. *)
Record sharing := mkSharing { sh_sockPath : string; sh_dir : string; sh_self : string }.

Inductive run_error (E : Type) :=
  | EStatDir (e : errno)
  | EHostname (e : E)
  | ERemovingStale (sockPath : string) (e : errno)
  | EListening (sockPath : string) (e : errno).
Arguments EStatDir {E} e.
Arguments EHostname {E} e.
Arguments ERemovingStale {E} sockPath e.
Arguments EListening {E} sockPath e.

Section Run.
Context {E : Type} (os_Hostname : res E string).

Definition RunDir (dir : string) : io (run_error E) (option sharing) :=
  let! err := io_try (os_Stat dir) in
  match err with
  | Err ENOENT => io_ret None
  | Err e => io_err (EStatDir e)
  | Ok _ =>
      match os_Hostname with
      | Err e => io_err (EHostname e)
      | Ok hostname =>
          let sockPath := path_Join [dir; hostname] in
          let! err := io_try (os_Remove sockPath) in
          match err with
          | Ok _ | Err ENOENT =>
              io_wrap (EListening sockPath) (net_ListenUnix sockPath) ;!
              io_try (os_Chmod sockPath o666) ;!
              io_ret (Some (mkSharing sockPath dir hostname))
          | Err e => io_err (ERemovingStale sockPath e)
          end
      end
  end.

Definition Run : io (run_error E) (option sharing) := RunDir DefaultDir.
End Run.

(** ** Discovery over time *)

Definition new_discovery (self : string) : discovery := mkDiscovery self ∅ ∅.

(** [runDiscovery]: a scan at once and one at every tick, [scans] being what
    [os.ReadDir] returned each time; then the context is done. *)
Fixpoint scan_all (scans : list (option (list dir_entry))) (order : gset string → list string) (d : discovery)
    : discovery * list action :=
  match scans with
  | [] => (d, [])
  | es :: scans =>
      let '(d1, acts) := scan_dir es order d in
      let '(d2, acts') := scan_all scans order d1 in (d2, acts ++ acts')
  end.

Definition runDiscovery (self : string) (scans : list (option (list dir_entry))) (order : gset string → list string)
    : list action :=
  let '(d, acts) := scan_all scans order (new_discovery self) in
  acts ++ (CancelPeer <$> order (d_cancels d)).

(** ** Facts *)

Lemma lookup_path_delete s q p : lookup_path (set_names (delete q) s) p = if decide (p = q) then None else lookup_path s p.
Proof.
  unfold lookup_path. cbn. case_decide as H; [subst; by rewrite lookup_delete_eq|]. by rewrite lookup_delete_ne.
Qed.

(** A name that is not a directory can go. *)
Lemma wf_delete s q : wf s → q ≠ [] → is_dir s q = false → wf (set_names (delete q) s).
Proof.
  intros [H0 Hp Hc Hi] Hq Hnd.
  assert (∀ p, is_dir s p = true → is_dir (set_names (delete q) s) p = true) as Hdirs.
  { intros p Hd. unfold is_dir. rewrite lookup_path_delete, decide_False; [done|]. intros ->. congruence. }
  split; [by apply Hdirs| | |].
  - intros p c [n Hn]. cbn in Hn. apply lookup_delete_Some in Hn as [_ Hn]. by apply Hdirs, (Hp p c).
  - intros p [n Hn]. cbn in Hn. apply lookup_delete_Some in Hn as [_ Hn]. by apply Hc.
  - intros p n Hn. cbn in *. apply lookup_delete_Some in Hn as [_ Hn]. by apply (Hi p).
Qed.

Lemma Remove_entry s cs c :
  Forall comp (cs ++ [c]) → wf s → is_dir s cs = true → is_dir s (cs ++ [c]) = false →
  os_Remove (abs (cs ++ [c])) s =
    match fs_names s !! (cs ++ [c]) with
    | None => (Err ENOENT, s)
    | Some _ => (Ok tt, set_names (delete (cs ++ [c])) s)
    end.
Proof.
  intros Hc Hwf Hd Hnd. unfold os_Remove. rewrite namei_real by (first [done|by apply wf_real_dir|by apply wf_root]).
  destruct (fs_names s !! (cs ++ [c])); [|done]. rewrite decide_False by (by destruct cs).
  rewrite decide_False; [done|]. rewrite Hnd. by intros [? _].
Qed.

(** A socket listened on at a free entry of a directory, and its mode set. *)
Lemma Listen_entry {F} s cs c :
  Forall comp (cs ++ [c]) → wf s → is_dir s cs = true → fs_names s !! (cs ++ [c]) = None →
  (String.length (abs (cs ++ [c])) ≤ 107)%nat →
  ∃ i s1 s2, net_ListenUnix (abs (cs ++ [c])) s = (Ok tt, s1) ∧
    io_try (F := F) (os_Chmod (abs (cs ++ [c])) o666) s1 = (Ok (Ok tt), s2) ∧
    i_node i = Socket ∧ i_mode i = o666 ∧
    ∀ p, lookup_path s2 p = if decide (p = cs ++ [c]) then Some i else lookup_path s p.
Proof.
  intros Hc Hwf Hd Hn Hlen. set (q := cs ++ [c]) in *.
  set (i := new_inode Socket o777 s). pose proof (create_at s q i Hc (wf_real_dir s cs c Hwf Hd) (wf_root _ Hwf) Hn (wf_inode _ Hwf)) as Hat.
  exists (set_mode i o666), (create q i s), (set_inodes <[fresh (dom (fs_inodes s)) := set_mode i o666]> (create q i s)).
  split_and!; [| |done|done|].
  - unfold net_ListenUnix. rewrite decide_False by lia. unfold create_excl.
    rewrite namei_real by (first [done|by apply wf_real_dir|by apply wf_root]). by rewrite Hn.
  - unfold io_try, os_Chmod. rewrite (set_attr_at _ _ _ _ _ _ Hat) by done. reflexivity.
  - intros p. rewrite lookup_path_set_inode. destruct (decide (p = q)) as [->|Hne].
    + rewrite decide_True; [done|]. unfold create. cbn. by rewrite lookup_insert_eq.
    + rewrite decide_False.
      * rewrite lookup_path_create by apply Hwf. by rewrite decide_False.
      * unfold create. cbn. rewrite lookup_insert_ne by done. intros H%(wf_inode _ Hwf).
        apply elem_of_dom in H. by apply is_fresh in H.
Qed.

(** Started minus cancelled managers of a peer. *)
Definition delta (x : string) (a : action) : Z :=
  match a with
  | StartPeer n => if decide (n = x) then 1 else 0
  | CancelPeer n => if decide (n = x) then -1 else 0
  end.
Definition balance (x : string) (acts : list action) : Z := foldr (λ a n, delta x a + n) 0 acts.

Lemma balance_app x a b : balance x (a ++ b) = balance x a + balance x b.
Proof. unfold balance. induction a as [|d a IH]; [done|]. cbn [app foldr]. rewrite IH. lia. Qed.

Definition present (x : string) (ps : gset string) : Z := if decide (x ∈ ps) then 1 else 0.

(** A list without repetition holds [x] once or not at all. *)
Lemma balance_starts x l : NoDup l → balance x (StartPeer <$> l) = if decide (x ∈ l) then 1 else 0.
Proof.
  induction 1 as [|y l Hy _ IH]; [done|]. rewrite fmap_cons. unfold balance in *. cbn [foldr]. rewrite IH. cbn [delta].
  destruct (decide (y = x)) as [->|Hne].
  - rewrite decide_False by done. rewrite decide_True by (by left). lia.
  - destruct (decide (x ∈ l)); [rewrite decide_True by (by right)|rewrite decide_False; [|by rewrite elem_of_cons; intros [<-|]]]; lia.
Qed.

Lemma balance_cancels x l : NoDup l → balance x (CancelPeer <$> l) = if decide (x ∈ l) then -1 else 0.
Proof.
  intros H. pose proof (balance_starts x l H) as Hs.
  assert (balance x (CancelPeer <$> l) = - balance x (StartPeer <$> l)) as ->.
  { clear. unfold balance. induction l as [|y l IH]; [done|]. rewrite !fmap_cons. cbn [foldr delta]. rewrite IH. case_decide; lia. }
  rewrite Hs. case_decide; lia.
Qed.

(** A scan starts and cancels just what changes. *)
Lemma scan_balance es order d x :
  d_peers d = d_cancels d → (∀ s, order s ≡ₚ elements s) →
  d_peers (scan_dir es order d).1 = d_cancels (scan_dir es order d).1 ∧ d_self (scan_dir es order d).1 = d_self d ∧
  balance x (scan_dir es order d).2 = present x (d_peers (scan_dir es order d).1) - present x (d_peers d).
Proof.
  intros Hd Ho. destruct es as [es|]; [|cbn; split_and!; [done|done|lia]].
  pose proof (scan_dir_tracks es order d Hd Ho) as H. destruct (scan_dir (Some es) order d) as [d' acts]. cbn [fst snd].
  destruct H as (Hp & Hc & Hs & started & cancelled & -> & Hn1 & Hn2 & H1 & H2). split_and!; [done|done|].
  rewrite balance_app, balance_starts, balance_cancels by done. rewrite Hp. unfold present.
  specialize (H1 x). specialize (H2 x).
  destruct (decide (x ∈ started)), (decide (x ∈ cancelled)), (decide (x ∈ listed (d_self d) es)), (decide (x ∈ d_peers d));
    first [lia|exfalso; tauto].
Qed.

Lemma scan_all_balance scans order d x :
  d_peers d = d_cancels d → (∀ s, order s ≡ₚ elements s) →
  d_peers (scan_all scans order d).1 = d_cancels (scan_all scans order d).1 ∧
  balance x (scan_all scans order d).2 = present x (d_peers (scan_all scans order d).1) - present x (d_peers d).
Proof.
  intros Hd Ho. revert d Hd. induction scans as [|es scans IH]; intros d Hd; [cbn; split; [done|lia]|].
  cbn [scan_all]. pose proof (scan_balance es order d x Hd Ho) as (H1 & _ & H2).
  destruct (scan_dir es order d) as [d1 acts]. cbn [fst snd] in *. specialize (IH d1 H1) as [H3 H4].
  destruct (scan_all scans order d1) as [d2 acts']. cbn [fst snd] in *. split; [done|]. rewrite balance_app. lia.
Qed.

(** The managers that [runDiscovery] starts at any time are told apart: never two
    at once for a peer. *)
Lemma scan_all_app scans scans' order d :
  scan_all (scans ++ scans') order d =
    let '(d1, acts) := scan_all scans order d in let '(d2, acts') := scan_all scans' order d1 in (d2, acts ++ acts').
Proof.
  revert d. induction scans as [|es scans IH]; intros d; [cbn; by destruct (scan_all scans' order d)|].
  cbn [app scan_all]. destruct (scan_dir es order d) as [d0 a0]. rewrite IH.
  destruct (scan_all scans order d0) as [d1 a1]. destruct (scan_all scans' order d1) as [d2 a2]. by rewrite app_assoc.
Qed.

Lemma RunDir_effect {E} s cs hostname :
  wf s → is_dir s cs = true → Forall comp (cs ++ [hostname]) → is_dir s (cs ++ [hostname]) = false →
  (String.length (abs (cs ++ [hostname])) ≤ 107)%nat →
  ∃ i s', RunDir (E := E) (Ok hostname) (abs cs) s = (Ok (Some (mkSharing (abs (cs ++ [hostname])) (abs cs) hostname)), s') ∧
    i_node i = Socket ∧ i_mode i = o666 ∧
    ∀ p, lookup_path s' p = if decide (p = cs ++ [hostname]) then Some i else lookup_path s p.
Proof.
  intros Hwf Hd Hc Hnd Hlen. pose proof Hc as [Hcs _]%Forall_app.
  destruct (Stat_dir s cs) as (j & Hj & Hdir); [done|by apply wf_real, is_dir_name|by apply wf_root|done|].
  unfold RunDir, io_bind at 1, io_try at 1. rewrite Hj. cbv zeta. rewrite Join_abs by done.
  unfold io_bind at 1, io_try at 1. rewrite Remove_entry by done.
  destruct (fs_names s !! (cs ++ [hostname])) as [n|] eqn:En.
  - destruct (Listen_entry (F := run_error E) (set_names (delete (cs ++ [hostname])) s) cs hostname) as (i & s1 & s2 & H1 & H2 & Hi & Hm & H3);
      [done|apply wf_delete; [done|by destruct cs|done]| |cbn; by rewrite lookup_delete_eq|done|].
    { unfold is_dir. rewrite lookup_path_delete, decide_False; [done|]. intros E'. by rewrite <-E', Hd in Hnd. }
    exists i, s2. split_and!; [|done|done|].
    + unfold io_bind, io_wrap. rewrite H1. cbn [res_map_err]. by rewrite H2.
    + intros p. rewrite H3. case_decide as Hp; [done|]. by rewrite lookup_path_delete, decide_False.
  - destruct (Listen_entry (F := run_error E) s cs hostname) as (i & s1 & s2 & H1 & H2 & Hi & Hm & H3); [done..|].
    exists i, s2. split_and!; [|done|done|done].
    unfold io_bind, io_wrap. rewrite H1. cbn [res_map_err]. by rewrite H2.
Qed.

Lemma RunDir_absent {E} os_Hostname s cs c :
  Forall comp (cs ++ [c]) → wf s → is_dir s cs = true → lookup_path s (cs ++ [c]) = None →
  RunDir (E := E) os_Hostname (abs (cs ++ [c])) s = (Ok None, s).
Proof.
  intros Hc Hwf Hd Hl. unfold RunDir, io_bind, io_try, os_Stat, io_read, stat.
  rewrite namei_real; [cbn; by rewrite Hl|done|by apply wf_real_dir|by apply wf_root|].
  intros _. unfold is_symlink. by rewrite Hl.
Qed.

(** ** Properties *)

(** [lo.RunDir] on a directory that exists: whatever a previous boot left at
    its own name, a socket or any other file that is no directory, is replaced
    by the socket it listens on, which every peer may connect to whatever the
    umask; no other file changes, and the name it uses is the one discovery
    leaves out of the peers. *)
Theorem RunDir_listens {E} s cs hostname :
  wf s → is_dir s cs = true → Forall comp (cs ++ [hostname]) → is_dir s (cs ++ [hostname]) = false →
  (String.length (abs (cs ++ [hostname])) ≤ 107)%nat →
  ∃ i s', RunDir (E := E) (Ok hostname) (abs cs) s = (Ok (Some (mkSharing (abs (cs ++ [hostname])) (abs cs) hostname)), s') ∧
    i_node i = Socket ∧ i_mode i = o666 ∧
    (∀ p, lookup_path s' p = if decide (p = cs ++ [hostname]) then Some i else lookup_path s p) ∧
    ∀ es, hostname ∉ listed hostname es.
Proof.
  intros Hwf Hd Hc Hnd Hlen. destruct (RunDir_effect (E := E) s cs hostname) as (i & s' & H1 & H2 & H3 & H4); [done..|].
  exists i, s'. split_and!; [done..|]. intros es. unfold listed. rewrite elem_of_list_to_set, list_elem_of_fmap.
  intros (e & -> & He). apply list_elem_of_filter in He. tauto.
Qed.

(** C22. However the directory of sockets changes, every manager that discovery
    starts for a peer is cancelled again, once, by the time the context is done,
    and at no moment does a peer have two: after any number of scans the
    managers started and not cancelled are exactly those of the peers known. *)
Theorem discovery_balanced self scans later order x :
  (∀ s, order s ≡ₚ elements s) →
  balance x (runDiscovery self (scans ++ later) order) = 0 ∧
  0 ≤ balance x (scan_all scans order (new_discovery self)).2 ≤ 1 ∧
  (balance x (scan_all scans order (new_discovery self)).2 = 1 ↔ x ∈ d_peers (scan_all scans order (new_discovery self)).1).
Proof.
  intros Ho.
  assert (∀ scans, d_peers (scan_all scans order (new_discovery self)).1 = d_cancels (scan_all scans order (new_discovery self)).1 ∧
    balance x (scan_all scans order (new_discovery self)).2 = present x (d_peers (scan_all scans order (new_discovery self)).1)) as H.
  { intros k. destruct (scan_all_balance k order (new_discovery self) x eq_refl Ho) as [H1 H2]. split; [done|].
    rewrite H2. assert (present x (d_peers (new_discovery self)) = 0) as -> by done. lia. }
  split.
  - unfold runDiscovery. destruct (H (scans ++ later)) as [H1 H2].
    destruct (scan_all (scans ++ later) order _) as [d acts]. cbn [fst snd] in *.
    assert (NoDup (order (d_cancels d))) by (rewrite Ho; apply NoDup_elements).
    rewrite balance_app, balance_cancels, H2, <-H1 by done. unfold present.
    rewrite (decide_ext (x ∈ order (d_peers d)) (x ∈ d_peers d)) by (by rewrite Ho, elem_of_elements). case_decide; lia.
  - destruct (H scans) as [_ ->]. unfold present. case_decide; split; try lia; done.
Qed.

(** A directory with a stale socket. *)
Definition lo_root : fs := mkFs
  (list_to_map [([], 0%nat); (["lo"], 1%nat); (["lo"; "web"], 2%nat)])
  (list_to_map [(0%nat, mkInode Dir o755 0 0 ∅ None); (1%nat, mkInode Dir o755 0 0 ∅ None); (2%nat, mkInode Socket o755 0 0 ∅ None)])
  0x12 (λ _ _, None) Amd64.

Lemma RunDir_listens_witness :
  ∃ i s', RunDir (E := unit) (Ok "web") "/lo" lo_root = (Ok (Some (mkSharing "/lo/web" "/lo" "web")), s') ∧
    i_node i = Socket ∧ lookup_path s' ["lo"; "web"] = Some i.
Proof.
  destruct (RunDir_listens (E := unit) lo_root ["lo"] "web") as (i & s' & H & Hi & _ & Hl & _).
  - apply wf_b_sound. by vm_compute.
  - by vm_compute.
  - by apply (bool_decide_unpack _); vm_compute.
  - by vm_compute.
  - apply Nat.leb_le. reflexivity.
  - exists i, s'. split_and!; [exact H|done|]. by rewrite (Hl ["lo"; "web"]).
Defined.

Lemma discovery_balanced_witness :
  balance "db" (runDiscovery "web" [Some [("db", false); ("web", false)]; None; Some []] elements) = 0 ∧
  runDiscovery "web" [Some [("db", false); ("web", false)]; None; Some []] elements = [StartPeer "db"; CancelPeer "db"].
Proof.
  split; [|by vm_compute].
  apply (discovery_balanced "web" [Some [("db", false); ("web", false)]] [None; Some []] elements "db"). done.
Defined.
