(* ===== verification/Main.v ===== *)
(** * A boot: [cmd/peel/main.go]

    [run] and [ensureUnpacked] over the components they call.  The image comes
    from a registry: what [pull.Image] returns is an argument, and so are the
    name servers the network answered and the clock. *)

From S2P Require Import Prelude Platform GoStrings GoPath GoJSON GoTime GoNet FS FSFacts Rootfs RootfsSafety Config State ConfigLoad Entrypoint Network Pull LoShare LoRun.

(** ** Images

    [v1.Image] and [v1.Layer], as far as the code calls them: each operation
    with what it answers. *)

(** [v1.Config]: the fields the code copies. *)
Record ConfigFile := mkConfigFile {
  cf_Entrypoint : list string;
  cf_Cmd : list string;
  cf_Env : list string;
  cf_WorkingDir : string;
  cf_User : string;
}.

Record layer (E : Type) := mkLayer {
  ly_Uncompressed : res E (list tar_item);
  ly_Close : option E; (* of the reader [Uncompressed] returned *)
}.
Arguments mkLayer {E} _ _.
Arguments ly_Uncompressed {E} _.
Arguments ly_Close {E} _.

Record image (E : Type) := mkImage {
  im_Digest : res E string;
  im_ConfigFile : res E ConfigFile;
  im_Layers : res E (list (layer E));
}.
Arguments mkImage {E} _ _ _.
Arguments im_Digest {E} _.
Arguments im_ConfigFile {E} _.
Arguments im_Layers {E} _.

(** Every way a boot fails, by the place that reports it. *)
Inductive boot_error (E : Type) :=
  | EConfig (e : config_error)
  | EState (e : state_error)
  | EPull (e : pull_error E)
  | EDigest (e : E)
  | EImageConfig (e : E)
  | ELayers (e : E)
  | EReadingLayer (i : nat) (e : E)
  | EUnpacking (i : nat) (e : rootfs_error)
  | EClosing (i : nat) (e : E)
  | EResolve (e : entry_error).
Arguments EConfig {E} e.
Arguments EState {E} e.
Arguments EPull {E} e.
Arguments EDigest {E} e.
Arguments EImageConfig {E} e.
Arguments ELayers {E} e.
Arguments EReadingLayer {E} i e.
Arguments EUnpacking {E} i e.
Arguments EClosing {E} i e.
Arguments EResolve {E} e.

Section Boot.
Context {E : Type}.

(** ** ensureUnpacked *)

(** The [i]th layer, from 1. *)
Definition unpack_layer (root : string) (i : nat) (l : layer E) : io (boot_error E) unit :=
  match ly_Uncompressed l with
  | Err e => io_err (EReadingLayer i e)
  | Ok rc =>
      let! err := io_try (ApplyLayer root rc) in
      match err, ly_Close l with
      | Err e, _ => io_err (EUnpacking i e)
      | Ok _, Some e => io_err (EClosing i e)
      | Ok _, None => io_ret tt
      end
  end.

Fixpoint unpack_layers (root : string) (i : nat) (ls : list (layer E)) : io (boot_error E) unit :=
  match ls with
  | [] => io_ret tt
  | l :: ls => unpack_layer root i l ;! unpack_layers root (S i) ls
  end.

Definition io_res {F A} (r : res F A) : io F A := λ s, (r, s).

(** What is recorded of an image: [cfg]'s overrides are merged in. *)
Definition newState (cfg : Config) (digest : string) (cf : ConfigFile) (now : Time) : State :=
  mkState (cfg_Image cfg) digest
    (Merge (mkRuntime (cf_Entrypoint cf) (cf_Cmd cf) (cf_Env cf) (cf_WorkingDir cf) (cf_User cf)) cfg) now.

(** [pull] is what [pull.Image] returns and [now] what [time.Now] does; the result
    is the state to record. *)
Definition unpack_image (root : string) (cfg : Config) (now : Time) (pull : res (pull_error E) (image E))
    : io (boot_error E) State :=
  let! img := io_wrap EPull (io_res pull) in
  let! digest := io_wrap EDigest (io_res (im_Digest img)) in
  let! cf := io_wrap EImageConfig (io_res (im_ConfigFile img)) in
  let! layers := io_wrap ELayers (io_res (im_Layers img)) in
  unpack_layers root 1 layers ;!
  io_ret (newState cfg digest cf now).

Definition ensureUnpacked (root statePath : string) (cfg : Config) (now : Time) (pull : res (pull_error E) (image E))
    : io (boot_error E) Runtime :=
  let! st := io_wrap EState (State.Load statePath) in
  let pulling :=
    let! newState := unpack_image root cfg now pull in
    io_wrap EState (Save statePath newState) ;!
    io_ret (st_Runtime newState) in
  match st with
  | Some st => if decide (st_Reference st = cfg_Image cfg) then io_ret (st_Runtime st) else pulling
  | None => pulling
  end.

(** ** run *)

Inductive outcome :=
  | Resolved (spec : Spec) (* pull-only: logged, and peel exits *)
  | Supervising (spec : Spec) (share : option sharing). (* [supervisor.Run] *)

(** What the world answers during one boot: the name servers of each link (or the
    list of links could not be had), the clock, the registry and the host name. *)
Record world := mkWorld {
  wd_answers : option (list (list IP));
  wd_now : Time;
  wd_pull : Config → res (pull_error E) (image E);
  wd_hostname : res E string;
}.

(** The call of [network.Configure]. *)
Definition nameservers_of (w : world) (root : string) : io (boot_error E) (list IP) :=
  match wd_answers w with
  | None => io_ret []
  | Some answers =>
      let! r := io_try (Configure root answers) in
      io_ret (match r with Ok nameservers => nameservers | Err _ => [] end)
  end.

Definition run (w : world) (root configPath statePath : string) (pullOnly : bool) : io (boot_error E) outcome :=
  let! cfg := io_wrap EConfig (ConfigLoad.Load configPath) in
  let! nameservers := nameservers_of w root in
  let! rt := ensureUnpacked root statePath cfg (wd_now w) (wd_pull w cfg) in
  (if pullOnly then io_ret tt else io_try (os_Remove configPath) ;! io_ret tt) ;!
  io_try (WriteResolvConf root nameservers) ;!
  let! spec := io_wrap EResolve (io_read (λ s, Resolve s root rt)) in
  if pullOnly then io_ret (Resolved spec)
  else
    let! share := io_try (Run (wd_hostname w)) in
    io_ret (Supervising spec (match share with Ok share => share | Err _ => None end)).
End Boot.

(** ** The specification

    What is recorded about the root (the state of the image that was last unpacked
    completely, if any), and the files on it. *)

Definition state_name : string := "state.json".
Definition DefaultStatePath : string := abs ["peel"; state_name].
Definition state_files : list path := [["peel"; state_name]; ["peel"; tmp_path state_name]].

(** The same files, but for those of the record. *)
Definition but_for_state (s s' : fs) : Prop :=
  ∀ q, q ∉ state_files → fs_names s' !! q = fs_names s !! q ∧ lookup_path s' q = lookup_path s q.

Section Spec.
Context {E : Type}.

(** What a boot brings to [ensureUnpacked]. *)
Record boot := mkBoot { bt_cfg : Config; bt_now : Time; bt_pull : res (pull_error E) (image E) }.

(** The state of the image of a boot, when the registry has it. *)
Definition image_state (b : boot) : option State :=
  match bt_pull b with
  | Ok img =>
      match im_Digest img, im_ConfigFile img with
      | Ok digest, Ok cf => Some (newState (bt_cfg b) digest cf (bt_now b))
      | _, _ => None
      end
  | Err _ => None
  end.

(** With its layers, when they can be listed. *)
Definition image_of (b : boot) : option (State * list (layer E)) :=
  match image_state b, bt_pull b with
  | Some st, Ok img => match im_Layers img with Ok ls => Some (st, ls) | Err _ => None end
  | _, _ => None
  end.

(** [ls] were all read, applied and closed, in this order. *)
Inductive applied : list (layer E) → fs → fs → Prop :=
  | applied_nil s : applied [] s s
  | applied_cons l rc ls s s1 s2 :
      ly_Uncompressed l = Ok rc → ApplyLayer "/" rc s = (Ok tt, s1) → ly_Close l = None →
      applied ls s1 s2 → applied (l :: ls) s s2.

(** [l] cannot be read, or not applied, or not closed, and leaves the files so. *)
Inductive broken (l : layer E) : fs → fs → Prop :=
  | broken_read e s : ly_Uncompressed l = Err e → broken l s s
  | broken_apply rc e s s1 : ly_Uncompressed l = Ok rc → ApplyLayer "/" rc s = (Err e, s1) → broken l s s1
  | broken_close rc e s s1 :
      ly_Uncompressed l = Ok rc → ApplyLayer "/" rc s = (Ok tt, s1) → ly_Close l = Some e → broken l s s1.

(** The layer a boot error names, counted from one. *)
Definition layer_of (e : boot_error E) : option nat :=
  match e with EReadingLayer i _ | EUnpacking i _ | EClosing i _ => Some i | _ => None end.

Definition names_image (recorded : option State) (b : boot) : Prop :=
  match recorded with Some st => st_Reference st = cfg_Image (bt_cfg b) | None => False end.

(** An image that is recorded is taken as it is.  Another one is recorded once all
    its layers have been applied; if the registry does not have it nothing changes,
    and if one of its layers fails the root is left as that layer left it, and the
    record as it was. *)
Inductive spec_step (b : boot) : option State * fs → res (boot_error E) Runtime → option State * fs → Prop :=
  | spec_skip st s : names_image (Some st) b → spec_step b (Some st, s) (Ok (st_Runtime st)) (Some st, s)
  | spec_unpack recorded st ls s s1 s2 :
      ¬ names_image recorded b → image_of b = Some (st, ls) → applied ls s s1 → but_for_state s1 s2 →
      spec_step b (recorded, s) (Ok (st_Runtime st)) (Some st, s2)
  | spec_no_image recorded e s :
      ¬ names_image recorded b → image_of b = None → layer_of e = None → spec_step b (recorded, s) (Err e) (recorded, s)
  | spec_broken recorded st pre l post e s s1 s2 :
      ¬ names_image recorded b → image_of b = Some (st, pre ++ l :: post) → applied pre s s1 → broken l s1 s2 →
      layer_of e = Some (S (length pre)) → spec_step b (recorded, s) (Err e) (recorded, s2).

Inductive spec_run : list boot → option State * fs → list (res (boot_error E) Runtime) → option State * fs → Prop :=
  | spec_nil st : spec_run [] st [] st
  | spec_cons b bs st r st1 rs st2 : spec_step b st r st1 → spec_run bs st1 rs st2 → spec_run (b :: bs) st (r :: rs) st2.

(** The boots of a container, one after the other. *)
Fixpoint boots (root statePath : string) (bs : list boot) (s : fs) : list (res (boot_error E) Runtime) * fs :=
  match bs with
  | [] => ([], s)
  | b :: bs =>
      let '(r, s1) := ensureUnpacked root statePath (bt_cfg b) (bt_now b) (bt_pull b) s in
      let '(rs, s2) := boots root statePath bs s1 in (r :: rs, s2)
  end.
End Spec.
Arguments boot : clear implicits.

(** ** Facts *)

Lemma DefaultStatePath_eq : DefaultStatePath = State.DefaultPath.
Proof. reflexivity. Qed.

Lemma Load_keeps_fs p s : (State.Load p s).2 = s.
Proof.
  unfold State.Load, io_bind, io_try, os_ReadFile, io_read. destruct (let? i := stat true p s in _) as [b|e]; [done|by destruct e].
Qed.

Section Safe.
Context {E : Type}.
Notation place s := (place_ok s ["peel"] state_name).

(** A root peel is installed on, ready for its state. *)
Definition ready (s : fs) : Prop := installed s ∧ place s.

(** No layer has links to peel or degenerate whiteouts. *)
Definition tame_layer (l : layer E) : bool := match ly_Uncompressed l with Ok r => forallb tame_item r | Err _ => true end.
Definition tame_image (img : image E) : bool := match im_Layers img with Ok ls => forallb tame_layer ls | Err _ => true end.
Definition tame_pull (pull : res (pull_error E) (image E)) : bool := match pull with Ok img => tame_image img | Err _ => true end.

Lemma keeps_res {F A} s0 (r : res F A) : keeps s0 (io_res r).
Proof. by intros s. Qed.

Lemma keeps_res_bind {F A B} s0 (f : F → boot_error E) (r : res F A) (k : A → io (boot_error E) B) :
  (∀ a, r = Ok a → keeps s0 (k a)) → keeps s0 (io_bind (io_wrap f (io_res r)) k).
Proof. intros Hk s Hs. unfold io_bind, io_wrap, io_res. destruct r as [a|e]; [by apply Hk|done]. Qed.

Lemma keeps_unpack_layer s0 i l : tame_layer l = true → keeps s0 (unpack_layer "/" i l).
Proof.
  intros Hl. unfold unpack_layer, tame_layer in *. destruct (ly_Uncompressed l); [|apply keeps_err].
  apply keeps_bind; [by apply keeps_try, keeps_ApplyLayer|].
  intros [?|?]; [destruct (ly_Close l)|]; (apply keeps_err || apply keeps_ret).
Qed.

Lemma keeps_unpack_layers s0 i ls : forallb tame_layer ls = true → keeps s0 (unpack_layers "/" i ls).
Proof.
  revert i. induction ls as [|l ls IH]; intros i; cbn; [intros _; apply keeps_ret|].
  intros [Hl Hls]%andb_true_iff. apply keeps_bind; [by apply keeps_unpack_layer|intros _; by apply IH].
Qed.

(** Unpacking leaves peel's own files alone, on success and on failure. *)
Lemma keeps_unpack_image s0 cfg now pull : tame_pull pull = true → keeps s0 (unpack_image "/" cfg now pull).
Proof.
  intros Hp. unfold unpack_image. apply keeps_res_bind. intros img ->. cbn [tame_pull] in Hp. unfold tame_image in Hp.
  apply keeps_res_bind. intros digest _. apply keeps_res_bind. intros cf _. cbv zeta. apply keeps_res_bind. intros ls Hls.
  rewrite Hls in Hp. apply keeps_bind; [by apply keeps_unpack_layers|intros _; apply keeps_ret].
Qed.

(** What peel wrote under [/peel] survives with it. *)
Lemma slot_lookup s q : wf s → slot s q ↔ match lookup_path s q with None => True | Some i => ∃ data, i_node i = File data end.
Proof.
  intros Hwf. unfold slot, lookup_path. destruct (fs_names s !! q) as [n|] eqn:En; [|done]. cbn.
  destruct (wf_inode s Hwf q n En) as [i Hi]. rewrite Hi. naive_solver.
Qed.

Lemma guards_place s0 s : place s0 → guards s0 s → place s.
Proof.
  intros [Hwf Hd Hp Htc Hslot Htmp Hown] [Hin Hsame]. pose proof (in_wf s Hin) as Hwf'.
  split; [done| |done|done| | |].
  - unfold is_dir in *. by destruct (Hsame ["peel"] eq_refl) as [_ ->].
  - apply slot_lookup; [done|]. destruct (Hsame (["peel"] ++ [state_name]) eq_refl) as [_ ->]. by apply slot_lookup.
  - apply slot_lookup; [done|]. destruct (Hsame (["peel"] ++ [tmp_path state_name]) eq_refl) as [_ ->]. by apply slot_lookup.
  - intros q n Ht Hq. assert (guarded q = true) as Hg by (by eapply (in_alias s Hin (["peel"] ++ [tmp_path state_name]))).
    apply (Hown q n); [|by rewrite <-(proj1 (Hsame q Hg))].
    by rewrite <-(proj1 (Hsame (["peel"] ++ [tmp_path state_name]) eq_refl)).
Qed.

(** Saving the state leaves peel installed. *)
Lemma saved_installed s b s4 : ready s → saved s ["peel"] state_name b s4 → ready s4.
Proof.
  intros [Hin Hpl] Hs. pose proof Hpl as [Hwf Hd Hp Htc Hslot Htmp Hown].
  assert (∀ q, is_dir s4 q = is_dir s q) as Hdirs by (intros; by eapply (saved_dir s ["peel"] state_name)).
  assert (∀ q, guarded q = false → fs_names s4 !! q = fs_names s !! q ∧ lookup_path s4 q = lookup_path s q) as Hout.
  { intros q Hq. eapply (saved_lookup s ["peel"] state_name); [done..|by intros ->|by intros ->]. }
  split; [split|by eapply (saved_place s)].
  - by eapply (saved_wf s ["peel"] state_name).
  - rewrite Hdirs. apply Hin.
  - assert (lookup_path s4 ["sbin"; "init"] = lookup_path s ["sbin"; "init"]) as ->; [|apply Hin].
    eapply (saved_lookup s ["peel"] state_name); done.
  - intros q i t Hq. destruct (Hout q Hq) as [_ ->]. by apply (in_tame s Hin).
  - intros q r n Hq Eq Er. destruct (guarded r) eqn:Hr; [done|]. exfalso. destruct (Hout r Hr) as [Er' _].
    rewrite Er' in Er. destruct Hs as (m & i & Hn & Hi & Hf & Hm). rewrite Hn in Eq.
    apply lookup_insert_Some in Eq as [[<- ->]|[Hne [Hne' Eq]%lookup_delete_Some]].
    + eapply (fresh_or_own_ne s ["peel"] state_name); [done..| |exact Er]. by intros ->.
    + by rewrite (in_alias s Hin q r n Hq Eq Er) in Hr.
Qed.

(** What [Load] makes of the state file. *)
Definition recorded (s : fs) : option State :=
  match (State.Load DefaultStatePath s).1 with Ok r => r | Err _ => None end.

Lemma Load_recorded s : ready s → State.Load DefaultStatePath s = (Ok (recorded s), s).
Proof.
  intros [_ [Hwf Hd Hp _ Hslot _ _]]. pose proof (Load_before s ["peel"] state_name Hwf Hd Hp Hslot) as H.
  unfold recorded. change DefaultStatePath with (abs (["peel"] ++ [state_name])). by rewrite H.
Qed.

Lemma guards_ready s s' : ready s → guards s s' → ready s' ∧ recorded s' = recorded s.
Proof.
  intros [Hin Hpl] Hg. pose proof (guards_place s s' Hpl Hg) as Hpl'. split; [by split; [apply Hg|]|].
  unfold recorded. change DefaultStatePath with (abs (["peel"] ++ [state_name])).
  destruct Hpl as [Hwf Hd Hp _ Hslot _ _], Hpl' as [Hwf' Hd' _ _ Hslot' _ _].
  rewrite !Load_before by done. cbn [fst]. destruct Hg as [_ Hsame]. by destruct (Hsame (["peel"] ++ [state_name]) eq_refl) as [_ ->].
Qed.

(** The layers spare peel, and what would be recorded can be written down. *)
Definition boot_ok (b : boot E) : Prop :=
  tame_pull (bt_pull b) = true ∧ match image_state b with Some st => State_ok st | None => True end.

(** *** Layers *)

Lemma unpack_layer_Ok i (l : layer E) s s' :
  unpack_layer "/" i l s = (Ok tt, s') ↔ ∃ rc, ly_Uncompressed l = Ok rc ∧ ApplyLayer "/" rc s = (Ok tt, s') ∧ ly_Close l = None.
Proof.
  unfold unpack_layer, io_bind, io_try, io_err, io_ret. destruct (ly_Uncompressed l) as [rc|e]; [|by split; [|intros (? & ? & _)]].
  destruct (ApplyLayer "/" rc s) as [[[]|e] s1] eqn:Ea; [destruct (ly_Close l) as [e|]|]; split; try done.
  - by intros (rc' & _ & _ & ?).
  - intros [= <-]. by exists rc.
  - by intros (rc' & [= <-] & [= <-]%(eq_trans (eq_sym Ea)) & _).
  - by intros (rc' & [= <-] & ?%(eq_trans (eq_sym Ea)) & _).
Qed.

Lemma unpack_layer_Err i (l : layer E) s e s' :
  unpack_layer "/" i l s = (Err e, s') → broken l s s' ∧ layer_of e = Some i.
Proof.
  unfold unpack_layer, io_bind, io_try, io_err, io_ret. destruct (ly_Uncompressed l) as [rc|err] eqn:El.
  - destruct (ApplyLayer "/" rc s) as [[[]|err] s1] eqn:Ea; [destruct (ly_Close l) as [err|] eqn:Ec|]; intros [= <- <-];
      (split; [|done]); [by eapply broken_close|by eapply broken_apply].
  - intros [= <- <-]. split; [by eapply broken_read|done].
Qed.

Lemma unpack_layers_Ok i (ls : list (layer E)) s s' : unpack_layers "/" i ls s = (Ok tt, s') ↔ applied ls s s'.
Proof.
  revert i s. induction ls as [|l ls IH]; intros i s; cbn [unpack_layers]; unfold io_bind, io_ret.
  - split; [intros [= <-]; constructor|]. intros H. by inversion H.
  - destruct (unpack_layer "/" i l s) as [[[]|e] s1] eqn:El.
    + rewrite IH. apply unpack_layer_Ok in El as (rc & H1 & H2 & H3). split; [by econstructor|].
      intros H. inversion H as [|? rc' ? ? s2 ? E1 E2 E3 E4]; subst. assert (rc' = rc) as -> by congruence.
      by assert (s2 = s1) as -> by congruence.
    + split; [done|]. intros H. inversion H as [|? rc ? ? s2 ? H1 H2 H3 H4]; subst.
      assert (unpack_layer "/" i l s = (Ok tt, s2)) as E2 by (apply unpack_layer_Ok; eauto). congruence.
Qed.

Lemma unpack_layers_failure root (ls : list (layer E)) i s e s' :
  unpack_layers root i ls s = (Err e, s') ↔
  ∃ pre l post s0, ls = pre ++ l :: post ∧ unpack_layers root i pre s = (Ok tt, s0) ∧
    unpack_layer root (i + length pre) l s0 = (Err e, s').
Proof.
  revert i s. induction ls as [|l ls IH]; intros i s.
  { cbn. split; [done|]. by intros ([|] & ? & ? & ? & ? & _). }
  cbn [unpack_layers]. unfold io_bind. destruct (unpack_layer root i l s) as [[[]|e1] s1] eqn:E1.
  - rewrite IH. split.
    + intros (pre & k & post & s0 & -> & Hpre & Hk). exists (l :: pre), k, post, s0. split_and!; [done| |].
      * cbn [unpack_layers]. unfold io_bind. by rewrite E1.
      * cbn [length]. by rewrite <-Nat.add_succ_comm.
    + intros ([|l' pre] & k & post & s0 & [= -> ->] & Hpre & Hk).
      * cbn in Hpre. injection Hpre as <-. rewrite Nat.add_0_r in Hk. congruence.
      * cbn [unpack_layers] in Hpre. unfold io_bind in Hpre. rewrite E1 in Hpre. exists pre, k, post, s0.
        split_and!; [done..|]. cbn [length] in Hk. by rewrite <-Nat.add_succ_comm in Hk.
  - split.
    + intros [= -> ->]. exists [], l, ls, s. split_and!; [done..|]. by rewrite Nat.add_0_r.
    + intros ([|l' pre] & k & post & s0 & [= -> ->] & Hpre & Hk).
      * cbn in Hpre. injection Hpre as <-. rewrite Nat.add_0_r in Hk. congruence.
      * cbn [unpack_layers] in Hpre. unfold io_bind in Hpre. by rewrite E1 in Hpre.
Qed.

(** What [unpack_image] does, by the image. *)
Lemma unpack_image_cases (b : boot E) s :
  match unpack_image "/" (bt_cfg b) (bt_now b) (bt_pull b) s with
  | (Ok st, s') => image_state b = Some st ∧ ∃ ls, image_of b = Some (st, ls) ∧ applied ls s s'
  | (Err e, s') =>
      (image_of b = None ∧ layer_of e = None ∧ s' = s) ∨
      ∃ st pre l post s1, image_of b = Some (st, pre ++ l :: post) ∧ applied pre s s1 ∧ broken l s1 s' ∧
        layer_of e = Some (S (length pre))
  end.
Proof.
  unfold unpack_image, image_of, image_state, io_bind, io_wrap, io_res.
  destruct (bt_pull b) as [img|e]; [|by left]. cbn [res_map_err]. destruct (im_Digest img) as [dg|e]; [|by left]. cbn [res_map_err].
  destruct (im_ConfigFile img) as [cf|e]; [|by left]. cbn [res_map_err]. destruct (im_Layers img) as [ls|e]; [|by left]. cbn [res_map_err].
  destruct (unpack_layers "/" 1 ls s) as [[[]|e] s1] eqn:Eu.
  - cbn. split; [done|]. exists ls. split; [done|]. by apply unpack_layers_Ok in Eu.
  - apply unpack_layers_failure in Eu as (pre & l & post & s0 & -> & Hpre & [Hb Hl]%unpack_layer_Err).
    right. do 5 eexists. split_and!; [done|by apply (unpack_layers_Ok 1)|done|done].
Qed.

(** The part of [ensureUnpacked] after the test. *)
Lemma pulling_simulates (b : boot E) s :
  ready s → boot_ok b → ¬ names_image (recorded s) b →
  let '(r, s') := (let! newState := unpack_image "/" (bt_cfg b) (bt_now b) (bt_pull b) in
                   io_wrap EState (Save DefaultStatePath newState) ;! io_ret (st_Runtime newState)) s in
  spec_step b (recorded s, s) r (recorded s', s') ∧ ready s' ∧
  ∀ q, guarded q = true → q ∉ state_files → fs_names s' !! q = fs_names s !! q ∧ lookup_path s' q = lookup_path s q.
Proof.
  intros Hr [Ht Hok] Hn. assert (guards s s) as Hg by (by split; [apply Hr|]).
  pose proof (keeps_unpack_image s (bt_cfg b) (bt_now b) _ Ht s Hg) as Hg1. pose proof (unpack_image_cases b s) as Hcase.
  unfold io_bind at 1. destruct (unpack_image "/" (bt_cfg b) (bt_now b) (bt_pull b) s) as [[st|e] s1] eqn:Eu;
    cbn [snd] in Hg1; destruct (guards_ready s s1 Hr Hg1) as [Hr1 Hrec1].
  2: { split_and!; [rewrite Hrec1|done|intros q Hq _; by apply Hg1].
    destruct Hcase as [(Hi & Hl & ->)|(st & pre & l & post & s0 & Hi & Hpre & Hb & Hl)]; [by apply spec_no_image|by eapply spec_broken]. }
  destruct Hcase as (Hst & ls & Hi & Ha). rewrite Hst in Hok. destruct (State_Unmarshal_Marshal st Hok) as (text & Ht' & Hback).
  pose proof (Save_effect s1 ["peel"] state_name st (proj2 Hr1)) as HS. rewrite Ht' in HS.
  destruct HS as (s4 & HS & Hsaved). change DefaultStatePath with (abs (["peel"] ++ [state_name])).
  unfold io_bind, io_wrap. rewrite HS. cbn [res_map_err io_ret].
  pose proof (saved_installed s1 _ _ Hr1 Hsaved) as Hr4. destruct (proj2 Hr1) as [Hwf Hd Hp Htc Hslot Htmp Hown].
  assert (recorded s4 = Some st) as ->.
  { unfold recorded. change DefaultStatePath with (abs (["peel"] ++ [state_name])).
    erewrite (saved_Load s1 ["peel"] state_name); [|done..]. exact Hback. }
  assert (but_for_state s1 s4) as Hbut.
  { intros q Hq. unfold state_files in Hq. rewrite !not_elem_of_cons in Hq.
    edestruct (saved_lookup s1 ["peel"] state_name) as (_ & _ & Hl); [done..|]. exact (Hl (proj1 Hq) (proj1 (proj2 Hq))). }
  split_and!; [by eapply spec_unpack|done|]. intros q Hq Hq'. destruct (Hbut q Hq') as [-> ->]. by apply Hg1.
Qed.

Lemma ensure_simulates (b : boot E) s :
  ready s → boot_ok b →
  let '(r, s') := ensureUnpacked "/" DefaultStatePath (bt_cfg b) (bt_now b) (bt_pull b) s in
  spec_step b (recorded s, s) r (recorded s', s') ∧ ready s' ∧
  ∀ q, guarded q = true → q ∉ state_files → fs_names s' !! q = fs_names s !! q ∧ lookup_path s' q = lookup_path s q.
Proof.
  intros Hr Hok. unfold ensureUnpacked. unfold io_bind at 1, io_wrap at 1. rewrite Load_recorded by done. cbn [res_map_err].
  pose proof (pulling_simulates b s Hr Hok) as Hp. destruct (recorded s) as [st|] eqn:Es.
  - case_decide as Heq; [|by apply Hp]. unfold io_ret. split_and!; [|done|done]. rewrite Es. by apply spec_skip.
  - apply Hp. by intros [].
Qed.

Lemma boots_simulate bs s :
  ready s → Forall boot_ok bs →
  let '(rs, s') := boots "/" DefaultStatePath bs s in
  spec_run bs (recorded s, s) rs (recorded s', s') ∧ ready s' ∧
  ∀ q, guarded q = true → q ∉ state_files → fs_names s' !! q = fs_names s !! q ∧ lookup_path s' q = lookup_path s q.
Proof.
  intros Hr H. revert s Hr. induction H as [|b bs Hb _ IH]; intros s Hr; [cbn; split_and!; [constructor|done|done]|].
  cbn [boots]. pose proof (ensure_simulates b s Hr Hb) as Hs.
  destruct (ensureUnpacked _ _ _ _ _ s) as [r s1]. destruct Hs as (Hs & Hr1 & Hsame). specialize (IH s1 Hr1).
  destruct (boots _ _ bs s1) as [rs s2]. destruct IH as (IH & Hr2 & Hsame'). split_and!; [by econstructor|done|].
  intros q Hq Hq'. destruct (Hsame' q Hq Hq') as [-> ->]. by apply Hsame.
Qed.

(** *** The rest of [run] *)

Definition config_path : path := ["peel"; "config.json"].
Definition own_files : list path := [["peel"; state_name]; ["peel"; tmp_path state_name]; config_path].

(** peel is still installed, and of its files only those of its own making have
    changed. *)
Definition calm (s s' : fs) : Prop :=
  installed s' ∧ ∀ q, guarded q = true → q ∉ own_files → fs_names s' !! q = fs_names s !! q ∧ lookup_path s' q = lookup_path s q.

Lemma calm_trans s1 s2 s3 : calm s1 s2 → calm s2 s3 → calm s1 s3.
Proof.
  intros [_ H1] [Hi H2]. split; [done|]. intros q Hq Ho. destruct (H2 q Hq Ho) as [-> ->]. by apply H1.
Qed.

Lemma guards_calm s s' : guards s s' → calm s s'.
Proof. intros [Hi H]. split; [done|]. intros q Hq _. by apply H. Qed.

Lemma config_Load_fs p s : (ConfigLoad.Load p s).2 = s.
Proof.
  unfold ConfigLoad.Load, io_bind, io_wrap, os_ReadFile, io_read. destruct (let? i := stat true p s in _) as [b|e]; [|done].
  cbn [res_map_err]. destruct (json_Unmarshal _ _ _) as [x|]; [|done]. by destruct (from_wire x).
Qed.

Lemma keeps_WriteResolvConf s0 ns : keeps s0 (WriteResolvConf "/" ns).
Proof.
  destruct ns as [|n ns]; [apply keeps_ret|]. unfold WriteResolvConf.
  change (path_Join ["/"; "etc"; "resolv.conf"]) with (abs ["etc"; "resolv.conf"]).
  assert (Forall comp ["etc"; "resolv.conf"]) as Hc by (by apply (bool_decide_unpack _); vm_compute).
  apply keeps_bind; [|intros _].
  - change (path_Dir (abs ["etc"; "resolv.conf"])) with (abs ["etc"]). apply keeps_MkdirAll; [|done].
    by apply (bool_decide_unpack _); vm_compute.
  - intros s Hs. pose proof (keeps_OpenFile s0 ["etc"; "resolv.conf"] o644 (resolv_conf (n :: ns)) (io_ret tt)) as H.
    specialize (H Hc eq_refl ltac:(done) (keeps_ret s0 tt) s Hs). revert H.
    unfold os_WriteFile, io_bind, io_wrap. destruct (os_OpenFile _ _ s) as [[m|e] s1]; cbn [res_map_err]; [|done].
    destruct (write m _ s1) as [[[]|e] s2]; done.
Qed.

Lemma keeps_Configure s0 answers : keeps s0 (Configure "/" answers).
Proof.
  unfold Configure. cbv zeta. apply keeps_bind; [|intros _; apply keeps_ret]. apply keeps_try, keeps_WriteResolvConf.
Qed.

(** Deleting the configuration. *)
Lemma delete_config s : installed s → is_dir s config_path = false → calm s (set_names (delete config_path) s).
Proof.
  intros Hin Hnd. pose proof Hin as [Hwf Hsb Hi Ht Ha].
  assert (∀ q, q ≠ config_path → lookup_path (set_names (delete config_path) s) q = lookup_path s q) as Hl.
  { intros q Hq. by rewrite lookup_path_delete, decide_False. }
  split; [split|].
  - by apply wf_delete.
  - unfold is_dir. by rewrite Hl.
  - by rewrite Hl.
  - intros q i t Hq. rewrite Hl by (by intros ->). by apply Ht.
  - intros q r n Hq Eq Er. cbn in Eq, Er. apply lookup_delete_Some in Eq as [_ Eq], Er as [_ Er]. by apply (Ha q r n).
  - intros q Hq Ho. unfold own_files in Ho. rewrite !not_elem_of_cons in Ho. destruct Ho as (_ & _ & Ho & _). split; [|by apply Hl].
    by apply lookup_delete_ne.
Qed.

Lemma remove_config s : installed s → is_dir s ["peel"] = true → is_dir s config_path = false →
  let s' := (os_Remove ConfigLoad.DefaultPath s).2 in calm s s' ∧ fs_names s' !! config_path = None.
Proof.
  intros Hin Hd Hnd. change ConfigLoad.DefaultPath with (abs (["peel"] ++ ["config.json"])).
  rewrite Remove_entry; [|by apply (bool_decide_unpack _); vm_compute|apply Hin|done|done].
  change (["peel"] ++ ["config.json"]) with config_path.
  destruct (fs_names s !! config_path) as [n|] eqn:En; cbn [snd].
  - split; [by apply delete_config|]. cbn. apply lookup_delete_eq.
  - split; [|done]. by split.
Qed.

(** What [run] does between unpacking and resolving the command: the configuration
    is removed, and the name servers are written. *)
Definition before_start (nameservers : list IP) (s : fs) : fs :=
  (WriteResolvConf "/" nameservers (os_Remove ConfigLoad.DefaultPath s).2).2.

(** The share is off, or the socket's directory is ready. *)
Definition lo_ok (s : fs) (hostname : res E string) : Prop :=
  lookup_path s ["peel"; "lo"] = None ∨
  ∃ h, hostname = Ok h ∧ is_dir s ["peel"; "lo"] = true ∧ Forall comp (["peel"; "lo"] ++ [h]) ∧
    is_dir s (["peel"; "lo"] ++ [h]) = false ∧ (String.length (abs (["peel"; "lo"] ++ [h])) ≤ 107)%nat.

Lemma Run_effect s hostname : installed s → is_dir s ["peel"] = true → lo_ok s hostname →
  ∃ share s', io_try (F := boot_error E) (Run hostname) s = (Ok (Ok share), s') ∧
    ∀ q, (∀ h, q ≠ ["peel"; "lo"; h]) → lookup_path s' q = lookup_path s q.
Proof.
  intros Hin Hd [Hl|(h & -> & Hl & Hc & Hnd & Hlen)]; unfold io_try, Run; change DefaultDir with (abs (["peel"] ++ ["lo"])).
  - rewrite RunDir_absent; [|by apply (bool_decide_unpack _); vm_compute|apply Hin|done|done]. by exists None, s.
  - destruct (RunDir_effect (E := E) s (["peel"] ++ ["lo"]) h) as (i & s' & -> & _ & _ & H4); [apply Hin|done..|].
    eexists _, s'. split; [reflexivity|]. intros q Hq. rewrite H4, decide_False; [done|]. apply Hq.
Qed.

Lemma calm_dir s s' q : calm s s' → guarded q = true → q ∉ own_files → is_dir s' q = is_dir s q.
Proof. intros [_ H] Hq Ho. unfold is_dir. by destruct (H q Hq Ho) as [_ ->]. Qed.

Lemma calm_lo s s' hostname : calm s s' → lo_ok s hostname → lo_ok s' hostname.
Proof.
  intros Hc [Hl|(h & -> & Hl & Hcs & Hnd & Hlen)].
  - left. destruct Hc as [_ H]. by destruct (H ["peel"; "lo"] eq_refl) as [_ ->]; [apply (bool_decide_unpack _); vm_compute|].
  - right. exists h. rewrite !(calm_dir s s') by (done || (unfold own_files; rewrite !not_elem_of_cons; split_and!; try done; apply not_elem_of_nil)). done.
Qed.

(** The network comes up. *)
Lemma nameservers_guards (w : world (E := E)) s : ready s → ∃ ns s1, nameservers_of w "/" s = (Ok ns, s1) ∧ guards s s1.
Proof.
  intros Hr. assert (guards s s) as Hg by (by split; [apply Hr|]). unfold nameservers_of.
  destruct (wd_answers w) as [answers|]; [|by exists [], s].
  pose proof (keeps_Configure s answers s Hg) as Hk. unfold io_bind, io_try. destruct (Configure "/" answers s) as [r s2]. by do 2 eexists.
Qed.

Lemma before_start_calm s s2 ns :
  ready s2 → calm s s2 → is_dir s2 config_path = false →
  calm s (before_start ns s2) ∧ fs_names (before_start ns s2) !! config_path = None.
Proof.
  intros Hr Hc Hnd. assert (is_dir s2 ["peel"] = true) as Hp by apply Hr.
  destruct (remove_config s2 (proj1 Hr) Hp Hnd) as [Hc2 Hgone]. unfold before_start. set (s3 := (os_Remove _ s2).2) in *.
  assert (guards s3 s3) as Hg by (by split; [apply Hc2|]). pose proof (keeps_WriteResolvConf s3 ns s3 Hg) as Hg4. split.
  - eapply calm_trans; [exact Hc|]. eapply calm_trans; [exact Hc2|by apply guards_calm].
  - by rewrite (proj1 (proj2 Hg4 config_path eq_refl)).
Qed.

(** A boot, up to the start of the share: the files after the network came up
    ([s1]), after unpacking ([s2]), and when the command was resolved. *)
Lemma boot_calm (w : world (E := E)) cfg s s1 out s' :
  ready s → is_dir s config_path = false →
  boot_ok (mkBoot cfg (wd_now w) (wd_pull w cfg)) → lo_ok s (wd_hostname w) →
  ConfigLoad.Load ConfigLoad.DefaultPath s = (Ok cfg, s1) →
  run w "/" ConfigLoad.DefaultPath DefaultStatePath false s = (Ok out, s') →
  ∃ spec share ns s1 rt s2, out = Supervising spec share ∧ nameservers_of w "/" s = (Ok ns, s1) ∧
    spec_step (mkBoot cfg (wd_now w) (wd_pull w cfg)) (recorded s, s1) (Ok rt) (recorded s2, s2) ∧
    let s3 := before_start ns s2 in
    Resolve s3 "/" rt = Ok spec ∧ calm s s3 ∧ fs_names s3 !! config_path = None ∧
    ∀ q, (∀ h, q ≠ ["peel"; "lo"; h]) → lookup_path s' q = lookup_path s3 q.
Proof.
  intros Hr Hnd Hok Hlo Hcfg. pose proof (config_Load_fs ConfigLoad.DefaultPath s) as E1. rewrite Hcfg in E1. cbn in E1. subst s1.
  unfold run. unfold io_bind at 1, io_wrap at 1. rewrite Hcfg. cbn [res_map_err].
  destruct (nameservers_guards w s Hr) as (ns & s1 & Hnet & Hg).
  rewrite (io_bind_ok _ _ _ _ _ Hnet). destruct (guards_ready s s1 Hr Hg) as [Hr1 Hrec].
  pose proof (ensure_simulates _ s1 Hr1 Hok) as He. cbn [bt_cfg bt_now bt_pull] in He. unfold io_bind at 1.
  destruct (ensureUnpacked "/" DefaultStatePath cfg (wd_now w) (wd_pull w cfg) s1) as [[rt|e] s2]; [|done].
  destruct He as (Hspec & Hr2 & Hsame). rewrite Hrec in Hspec.
  assert (calm s s2) as Hc2.
  { eapply calm_trans; [by apply guards_calm|]. split; [apply Hr2|]. intros q Hq Ho. apply Hsame; [done|].
    unfold own_files in Ho. unfold state_files. rewrite !not_elem_of_cons in *. tauto. }
  assert (is_dir s2 config_path = false) as Hnd2.
  { unfold is_dir. destruct (Hsame config_path eq_refl) as [_ ->]; [by apply (bool_decide_unpack _); vm_compute|].
    destruct Hg as [_ Hg]. destruct (Hg config_path eq_refl) as [_ ->]. done. }
  destruct (before_start_calm s s2 ns Hr2 Hc2 Hnd2) as [Hc3 Hgone]. unfold before_start in Hc3, Hgone.
  unfold io_bind at 1, io_bind at 1, io_try at 1. destruct (os_Remove ConfigLoad.DefaultPath s2) as [r3 s3] eqn:E3.
  unfold io_ret at 1. unfold io_bind at 1, io_try at 1. cbn [snd] in *.
  destruct (WriteResolvConf "/" ns s3) as [r4 s4] eqn:E4. cbn [snd] in *.
  unfold io_bind at 1, io_wrap, io_read. destruct (Resolve s4 "/" rt) as [spec|e] eqn:HRes; cbn [res_map_err]; [|done].
  assert (is_dir s4 ["peel"] = true) as Hp.
  { rewrite (calm_dir s s4 ["peel"] Hc3) by (done || by apply (bool_decide_unpack _); vm_compute). apply Hr. }
  destruct (Run_effect s4 (wd_hostname w)) as (share & s6 & HR & Hsame6); [apply Hc3|done|by eapply calm_lo|].
  rewrite (io_bind_ok _ _ _ _ _ HR). unfold io_ret. intros [= <- <-].
  exists spec, share, ns, s1, rt, s2. unfold before_start. rewrite E3. cbn [snd]. rewrite E4. by split_and!.
Qed.
End Safe.

(** ** Concrete boots *)

Definition hello_config (img : string) : Config := mkConfig img "" false "bob" "s3cret" "" "" "" None None None "" "".
Definition clock : Time := mkTime 2026 1 2 3 4 5 0 None.

(** An image of one layer with [/bin/hello] and [/etc/motd]; the second layer of
    the other image cannot be read. *)
Definition hello_layer (motd : string) : list tar_item :=
  [TarEntry (mkHeader TypeReg "bin/hello" "" o755 0 0 0 0 [] None) "#!" false;
   TarEntry (mkHeader TypeReg "etc/motd" "" o644 0 0 0 0 [] None) motd false].
Definition hello_image (motd : string) (more : list (layer unit)) : image unit :=
  mkImage (Ok "sha256:01") (Ok (mkConfigFile ["hello"] [] ["PATH=/bin"] "" "")) (Ok (mkLayer (Ok (hello_layer motd)) None :: more)).
Definition hello_boot (img motd : string) (more : list (layer unit)) : boot unit :=
  mkBoot (hello_config img) clock (Ok (hello_image motd more)).

(** Before the first boot: peel and its configuration. *)
Definition config_text (img : string) : string := json_Marshal (JObj [("image", JStr img); ("username", JStr "bob"); ("password", JStr "s3cret")]).
Definition new_root (config : string) : fs := mkFs
  (list_to_map [([], 0%nat); (["sbin"], 1%nat); (["sbin"; "init"], 2%nat); (["peel"], 3%nat); (["peel"; "config.json"], 4%nat)])
  (list_to_map [(0%nat, mkInode Dir o755 0 0 ∅ None); (1%nat, mkInode Dir o755 0 0 ∅ None); (2%nat, mkInode (File "ELF") o755 0 0 ∅ None);
    (3%nat, mkInode Dir o755 0 0 ∅ None); (4%nat, mkInode (File config) o600 0 0 ∅ None)]) 0 (λ _ _, None) Amd64.

Lemma new_root_ready config : ready (new_root config).
Proof.
  split; [apply installed_b_sound; by vm_compute|].
  split; [apply wf_b_sound; by vm_compute|reflexivity|by apply (bool_decide_unpack _); vm_compute|
    by apply (bool_decide_unpack _); vm_compute|exact I|exact I|discriminate].
Qed.

(** ** Properties *)

(** C3. Boots implement the specification.  On a root on which peel is installed,
    and for images whose layers hold no links to peel and no degenerate whiteouts
    ([boot_ok]): whatever images are configured from one boot to the next and
    however unpacking fails, each boot either finds its image recorded and runs it
    as recorded, whatever the registry would answer, touching nothing; or applies
    every layer of it to the root, in order, and only then records exactly that
    image with its merged configuration; or fails, because the registry does not
    have the image, with nothing touched, or because of the layer its error names,
    with the layers before that one applied, and leaves the record as it was.  And
    /sbin/init is what it was before. *)
Theorem boots_refine {E} (bs : list (boot E)) s :
  ready s → Forall boot_ok bs →
  let '(rs, s') := boots "/" DefaultStatePath bs s in
  spec_run bs (recorded s, s) rs (recorded s', s') ∧ ready s' ∧
  lookup_path s' ["sbin"; "init"] = lookup_path s ["sbin"; "init"].
Proof.
  intros Hr Hok. pose proof (boots_simulate bs s Hr Hok) as H. destruct (boots _ _ bs s) as [rs s'].
  destruct H as (H1 & H2 & H3). split_and!; [done|done|]. apply H3; [done|]. by apply (bool_decide_unpack _); vm_compute.
Qed.

(** Unpack A, fail to unpack B, go back to A. *)
Definition A_B_A : list (boot unit) :=
  [hello_boot "a" "this is A" []; hello_boot "b" "this is B" [mkLayer (Err tt) None]; hello_boot "a" "this is A" []].

Lemma boots_refine_witness :
  let '(rs, s') := boots "/" DefaultStatePath A_B_A (new_root "{}") in
  spec_run A_B_A (recorded (new_root "{}"), new_root "{}") rs (recorded s', s') ∧ ready s' ∧
  lookup_path s' ["sbin"; "init"] = lookup_path (new_root "{}") ["sbin"; "init"].
Proof.
  apply (boots_refine A_B_A (new_root "{}")); [apply new_root_ready|].
  repeat constructor; by apply (bool_decide_unpack _); vm_compute.
Defined.

(** C19. The record does not say what is on the root.  When the root was unpacked
    from one image (which is recorded) and unpacking another one over it fails at
    some layer, the error names that layer, the root is left with the layers before
    it applied, whatever they replaced or deleted, and with what the failing one
    did; the record still names the first image; and a later boot that configures
    the first image again runs it as recorded on that very root: it succeeds,
    asks the registry for nothing, and repairs nothing. *)
Theorem interrupted_switch {E} (b a : boot E) s st e s1 :
  ready s → boot_ok b → recorded s = Some st → names_image (Some st) a → ¬ names_image (Some st) b →
  ensureUnpacked "/" DefaultStatePath (bt_cfg b) (bt_now b) (bt_pull b) s = (Err e, s1) → layer_of e ≠ None →
  recorded s1 = Some st ∧
  (∃ st' pre l post s0, image_of b = Some (st', pre ++ l :: post) ∧ applied pre s s0 ∧ broken l s0 s1 ∧
    layer_of e = Some (S (length pre))) ∧
  ensureUnpacked "/" DefaultStatePath (bt_cfg a) (bt_now a) (bt_pull a) s1 = (Ok (st_Runtime st), s1).
Proof.
  intros Hr Hok Hs Ha Hb Hu Hl. pose proof (ensure_simulates b s Hr Hok) as H. rewrite Hu, Hs in H.
  destruct H as (Hspec & Hr1 & _). assert (recorded s1 = Some st) as Hs1 by by inversion Hspec.
  split_and!; [done| |].
  - inversion Hspec; subst; [done|]. by do 5 eexists.
  - unfold ensureUnpacked, io_bind, io_wrap. rewrite Load_recorded, Hs1 by done. cbn [res_map_err]. by rewrite decide_True.
Qed.

(** Image A is on the root; image B replaces its /etc/motd, and has a layer that
    cannot be read. *)
Definition root_A : fs := (boots "/" DefaultStatePath [hello_boot "a" "this is A" []] (new_root "{}")).2.
Definition boot_B : boot unit := hello_boot "b" "this is B" [mkLayer (Err tt) None].
Definition root_B : fs := (boots "/" DefaultStatePath [boot_B] root_A).2.

Lemma interrupted_switch_witness :
  ensureUnpacked "/" DefaultStatePath (hello_config "a") clock (Ok (hello_image "this is A" [])) root_B =
    (Ok (mkRuntime ["hello"] [] ["PATH=/bin"] "" ""), root_B) ∧
  i_node <$> lookup_path root_A ["etc"; "motd"] = Some (File "this is A") ∧
  i_node <$> lookup_path root_B ["etc"; "motd"] = Some (File "this is B").
Proof.
  split; [|split; vm_compute; reflexivity].
  set (st := mkState "a" "sha256:01" (mkRuntime ["hello"] [] ["PATH=/bin"] "" "") clock).
  destruct (interrupted_switch boot_B (hello_boot "a" "this is A" []) root_A st (EReadingLayer 2 tt) root_B) as (_ & _ & H).
  - pose proof (boots_simulate [hello_boot "a" "this is A" []] (new_root "{}") (new_root_ready _)) as H.
    unfold root_A. destruct (boots _ _ _ _) as [rs s']. apply H. repeat constructor; by apply (bool_decide_unpack _); vm_compute.
  - repeat constructor; by apply (bool_decide_unpack _); vm_compute.
  - vm_compute. reflexivity.
  - reflexivity.
  - by intros [=].
  - vm_compute. reflexivity.
  - done.
  - exact H.
Defined.

(** A boot that gets as far as starting the supervisor has deleted the
    configuration with its credentials and left [/sbin/init] alone, whether the
    image was unpacked now or before, and whether or not the network and the
    loopback share came up. *)
Theorem boot_cleans {E} (w : world) cfg s out s' :
  ready s → is_dir s config_path = false →
  boot_ok (E := E) (mkBoot cfg (wd_now w) (wd_pull w cfg)) → lo_ok s (wd_hostname w) →
  ConfigLoad.Load ConfigLoad.DefaultPath s = (Ok cfg, s) →
  run w "/" ConfigLoad.DefaultPath DefaultStatePath false s = (Ok out, s') →
  lookup_path s' config_path = None ∧ lookup_path s' ["sbin"; "init"] = lookup_path s ["sbin"; "init"] ∧
  ∃ spec share, out = Supervising spec share.
Proof.
  intros Hr Hnd Hok Hlo Hcfg Hrun.
  destruct (boot_calm w cfg s s out s' Hr Hnd Hok Hlo Hcfg Hrun) as (spec & share & ns & s1 & rt & s2 & -> & _ & _ & _ & [_ Hc] & Hgone & Hs).
  rewrite !Hs by done. split_and!; [|by apply Hc; [|apply (bool_decide_unpack _); vm_compute]|by exists spec, share].
  unfold lookup_path. by rewrite Hgone.
Qed.

(** C18. Unpacking stops at the first layer that fails: the error names that layer
    (counted from one) and what failed there, every layer before it has been
    applied in order, none after it has been read, and an extraction error
    is reported rather than one of closing the layer. *)
Theorem unpack_first_failure {E} root (ls : list (layer E)) s e s' :
  unpack_layers root 1 ls s = (Err e, s') ↔
  ∃ pre l post s0, ls = pre ++ l :: post ∧ unpack_layers root 1 pre s = (Ok tt, s0) ∧
    layer_of e = Some (S (length pre)) ∧
    match ly_Uncompressed l with
    | Err err => e = EReadingLayer (S (length pre)) err ∧ s' = s0
    | Ok rc =>
        (ApplyLayer root rc s0).2 = s' ∧
        match (ApplyLayer root rc s0).1, ly_Close l with
        | Err err, _ => e = EUnpacking (S (length pre)) err
        | Ok _, Some err => e = EClosing (S (length pre)) err
        | Ok _, None => False
        end
    end.
Proof.
  rewrite unpack_layers_failure. split; intros (pre & l & post & s0 & Hls & Hpre & H); exists pre, l, post, s0.
  - unfold unpack_layer, io_bind, io_try in H. cbn [Nat.add] in H. destruct (ly_Uncompressed l) as [rc|err].
    + destruct (ApplyLayer root rc s0) as [[[]|err] s1]; cbn [fst snd]; [destruct (ly_Close l) as [err|]|];
        unfold io_err, io_ret in H; by simplify_eq.
    + unfold io_err in H. by simplify_eq.
  - destruct H as [_ H]. split_and!; [done..|]. unfold unpack_layer, io_bind, io_try. cbn [Nat.add].
    destruct (ly_Uncompressed l) as [rc|err]; [|by destruct H as [-> ->]].
    destruct (ApplyLayer root rc s0) as [[[]|err] s1]; cbn [fst snd] in H; [destruct (ly_Close l) as [err|]|];
      [by destruct H as [-> ->]|by destruct H|by destruct H as [-> ->]].
Qed.

Definition hello_world : world := mkWorld (E := unit) (Some [[[x0a; x00; x00; x01]]]) clock (λ _, Ok (hello_image "hi" [])) (Err tt).
Definition hello_root : fs := new_root (config_text "a").
Notation hello_run := (run hello_world "/" ConfigLoad.DefaultPath DefaultStatePath false hello_root).
Definition hello_spec : Spec := mkSpec "/bin/hello" ["hello"] ["PATH=/bin"] "/" 0 0 [].

Lemma pair_fst {A B} (p : A * B) a : p.1 = a → p = (a, p.2).
Proof. destruct p. by intros <-. Qed.

Lemma boot_cleans_witness :
  hello_run.1 = Ok (Supervising hello_spec None) ∧ lookup_path hello_run.2 config_path = None.
Proof.
  assert (hello_run.1 = Ok (Supervising hello_spec None)) as H by (by vm_compute). split; [exact H|].
  apply (boot_cleans hello_world (hello_config "a") hello_root (Supervising hello_spec None) hello_run.2).
  - apply new_root_ready.
  - by vm_compute.
  - split; [by vm_compute|]. by apply (bool_decide_unpack _); vm_compute.
  - left. by vm_compute.
  - by vm_compute.
  - exact (pair_fst hello_run _ H).
Defined.

(** What the hypothesis on layers excludes: with [etc/resolv.conf] a symbolic
    link to peel, peel overwrites itself with the name servers. *)
Lemma resolv_conf_detour :
  let layer := [TarEntry (mkHeader TypeSymlink "etc/resolv.conf" "../sbin/init" 0 0 0 0 0 [] None) "" false] in
  let w := mkWorld (E := unit) (Some [[[x0a; x00; x00; x01]]]) clock (λ _, Ok (hello_image "hi" [mkLayer (Ok layer) None])) (Err tt) in
  i_node <$> lookup_path (run w "/" ConfigLoad.DefaultPath DefaultStatePath false hello_root).2 ["sbin"; "init"] =
  Some (File ("# written by peel" +:+ String LF ("nameserver 10.0.0.1" +:+ String LF ""))).
Proof. vm_compute. reflexivity. Qed.
