(* ===== verification/MainFlags.v ===== *)
(** * The whole of [cmd/peel/main.go]: from the command line to PID 1's loop

    [main]: the flags (package [flag] is modelled as far as its grammar), [run]
    of [Main], and, where [run] ends in [supervisor.Run], the start of the
    entrypoint.  [log.Fatalf] exits with status 1. *)

From S2P Require Import Prelude GoStrings FS FSFacts Rootfs RootfsSafety Config State ConfigLoad Entrypoint LoRun Main SupervisorStart.

(** ** Package flag *)

Inductive flag_error :=
  | ErrHelp
  | BadSyntax (arg : string)
  | NotDefined (name : string)
  | InvalidBool (value name : string)
  | NeedsArgument (name : string).
#[export] Instance flag_error_eq_dec : EqDecision flag_error.
Proof. solve_decision. Defined.

(** The values of the flags [main] defines. *)
Record Flags := mkFlags { fl_rootfs : string; fl_config : string; fl_state : string; fl_pull_only : bool }.

Definition Flags_default : Flags := mkFlags "/" ConfigLoad.DefaultPath State.DefaultPath false.

Inductive flag :=
  | StringFlag (set : string → Flags → Flags)
  | BoolFlag (set : bool → Flags → Flags).

(** [flag.String] and [flag.Bool] in [main]. *)
Definition formal (name : string) : option flag :=
  if decide (name = "rootfs") then Some (StringFlag (λ v fl, mkFlags v (fl_config fl) (fl_state fl) (fl_pull_only fl)))
  else if decide (name = "config") then Some (StringFlag (λ v fl, mkFlags (fl_rootfs fl) v (fl_state fl) (fl_pull_only fl)))
  else if decide (name = "state") then Some (StringFlag (λ v fl, mkFlags (fl_rootfs fl) (fl_config fl) v (fl_pull_only fl)))
  else if decide (name = "pull-only") then Some (BoolFlag (λ b fl, mkFlags (fl_rootfs fl) (fl_config fl) (fl_state fl) b))
  else None.

(** [strconv.ParseBool]. *)
Definition ParseBool (s : string) : option bool :=
  if decide (s ∈ ["1"; "t"; "T"; "true"; "TRUE"; "True"]) then Some true
  else if decide (s ∈ ["0"; "f"; "F"; "false"; "FALSE"; "False"]) then Some false
  else None.

Definition dash : ascii := "-".

(** An argument that is a flag: what follows its one or two dashes.  [None]: it is
    no flag, and parsing stops there; [Some None]: it is [--], which is taken. *)
Definition flag_text (arg : string) : option (option string) :=
  match arg with
  | String c (String d rest) =>
      if decide (c = dash) then
        if decide (d = dash) then Some (if decide (rest = "") then None else Some rest)
        else Some (Some (String d rest))
      else None
  | _ => None
  end.

(** [FlagSet.Parse]: the flags set and the arguments left. *)
Fixpoint flag_Parse (args : list string) (fl : Flags) : res flag_error (Flags * list string) :=
  match args with
  | [] => Ok (fl, [])
  | arg :: args' =>
      match flag_text arg with
      | None => Ok (fl, arg :: args')
      | Some None => Ok (fl, args')
      | Some (Some text) =>
          match text with
          | "" => Err (BadSyntax arg)
          | String c _ =>
              if decide (c = dash ∨ c = equals) then Err (BadSyntax arg)
              else
                let '(name, value, hasValue) := strings_Cut text equals in
                match formal name with
                | None => Err (if decide (name = "help" ∨ name = "h") then ErrHelp else NotDefined name)
                | Some (BoolFlag set) =>
                    if (hasValue : bool) then
                      match ParseBool value with
                      | None => Err (InvalidBool value name)
                      | Some b => flag_Parse args' (set b fl)
                      end
                    else flag_Parse args' (set true fl)
                | Some (StringFlag set) =>
                    if hasValue then flag_Parse args' (set value fl)
                    else
                      match args' with
                      | [] => Err (NeedsArgument name)
                      | v :: args'' => flag_Parse args'' (set v fl)
                      end
                end
          end
      end
  end.

(** ** main *)

(** How [main] ends: the process exits, or PID 1 is in its loop, waiting for
    [mainPID] in this world. *)
Inductive ending :=
  | Exit (code : Z)
  | Loop (mainPID : positive) (w : Supervisor.world).

Section MainFn.
Context {E F : Type} (parent_env : list string) (forkExec : process → res F positive).

Definition main (args : list string) (w : Main.world (E := E)) (s : fs) : ending * fs :=
  match flag_Parse args Flags_default with
  | Err e => (Exit (match e with ErrHelp => 0 | _ => 2 end), s)
  | Ok (fl, _) =>
      match run w (fl_rootfs fl) (fl_config fl) (fl_state fl) (fl_pull_only fl) s with
      | (Err _, s') => (Exit 1, s')
      | (Ok (Resolved _), s') => (Exit 0, s')
      | (Ok (Supervising spec _), s') =>
          match Run_start parent_env forkExec spec with
          | Err _ => (Exit 1, s')
          | Ok (mainPID, w0) => (Loop mainPID w0, s')
          end
      end
  end.
End MainFn.

Example flags_none : flag_Parse [] Flags_default = Ok (Flags_default, []). Proof. reflexivity. Qed.
Example flags_some : flag_Parse ["-pull-only"; "--rootfs"; "/mnt"; "-state=x=y"; "--"; "-config"] Flags_default =
  Ok (mkFlags "/mnt" ConfigLoad.DefaultPath "x=y" true, ["-config"]). Proof. reflexivity. Qed.
Example flags_bad : map (λ a, flag_Parse [a] Flags_default) ["-"; "---x"; "-=x"; "-h"; "-nope"; "-rootfs"; "-pull-only=yes"] =
  [Ok (Flags_default, ["-"]); Err (BadSyntax "---x"); Err (BadSyntax "-=x"); Err ErrHelp; Err (NotDefined "nope");
   Err (NeedsArgument "rootfs"); Err (InvalidBool "yes" "pull-only")]. Proof. reflexivity. Qed.

(** ** Facts *)

(** An option as a user may write it. *)
Inductive spelling := OneDash | TwoDashes | TwoArguments.
Inductive option_given :=
  | GiveString (name value : string) (sp : spelling)
  | GivePullOnly (b : bool) (sp : spelling).

Definition option_ok (o : option_given) : Prop :=
  match o with GiveString name _ _ => name = "rootfs" ∨ name = "config" ∨ name = "state" | GivePullOnly _ _ => True end.

Definition bool_text (b : bool) : string := if b then "true" else "false".

Definition render_option (o : option_given) : list string :=
  match o with
  | GiveString name value OneDash => ["-" +:+ name +:+ "=" +:+ value]
  | GiveString name value TwoDashes => ["--" +:+ name +:+ "=" +:+ value]
  | GiveString name value TwoArguments => ["-" +:+ name; value]
  | GivePullOnly b OneDash => ["-pull-only=" +:+ bool_text b]
  | GivePullOnly b TwoDashes => ["--pull-only=" +:+ bool_text b]
  | GivePullOnly b TwoArguments => if b then ["-pull-only"] else ["-pull-only=false"]
  end.

Definition set_option (fl : Flags) (o : option_given) : Flags :=
  match o with
  | GiveString name value _ =>
      if decide (name = "rootfs") then mkFlags value (fl_config fl) (fl_state fl) (fl_pull_only fl)
      else if decide (name = "config") then mkFlags (fl_rootfs fl) value (fl_state fl) (fl_pull_only fl)
      else mkFlags (fl_rootfs fl) (fl_config fl) value (fl_pull_only fl)
  | GivePullOnly b _ => mkFlags (fl_rootfs fl) (fl_config fl) (fl_state fl) b
  end.

Lemma flag_Parse_option o tail fl :
  option_ok o → flag_Parse (render_option o ++ tail) fl = flag_Parse tail (set_option fl o).
Proof. destruct o as [name value []|[] []]; cbn [option_ok]; intros H; destruct_or?; subst; reflexivity. Qed.

Lemma flag_Parse_options os fl :
  Forall option_ok os → flag_Parse (concat (render_option <$> os)) fl = Ok (foldl set_option fl os, []).
Proof.
  intros H. revert fl. induction H as [|o os Ho _ IH]; intros fl; [done|]. rewrite fmap_cons. cbn [concat foldl].
  by rewrite flag_Parse_option.
Qed.

(** ** Theorems *)

(** C4. peel as LXD starts it, without arguments, from the command line to PID 1's
    loop.  Suppose peel is installed on the root, the configuration can be read,
    the layers of its image hold no links to peel and no degenerate whiteouts
    ([boot_ok]), and the share is off or its directory is ready ([lo_ok]).  If
    [main] gets to the loop, then: the network came up first; the image's runtime
    configuration is what the specification of a boot says, the recorded one if
    the configured image is the one recorded, or else that of the image all of
    whose layers were just applied to the root and which is now recorded; the one
    process started is what this configuration describes on the root with the
    configuration file removed and the name servers written; the supervisor waits
    for that very process; nothing but the share's socket has changed since; and
    the configuration with its credentials is gone and [/sbin/init] is what it was. *)
Theorem main_boots {E F} parent_env (forkExec : process → res F positive) (w : Main.world (E := E)) cfg s mainPID w0 s' :
  ready s → is_dir s config_path = false →
  boot_ok (mkBoot cfg (wd_now w) (wd_pull w cfg)) → lo_ok s (wd_hostname w) →
  ConfigLoad.Load ConfigLoad.DefaultPath s = (Ok cfg, s) →
  main parent_env forkExec [] w s = (Loop mainPID w0, s') →
  w0 = Supervisor.world_init mainPID ∧
  lookup_path s' config_path = None ∧ lookup_path s' ["sbin"; "init"] = lookup_path s ["sbin"; "init"] ∧
  ∃ ns s1 rt s2 pr,
    nameservers_of w "/" s = (Ok ns, s1) ∧
    spec_step (mkBoot cfg (wd_now w) (wd_pull w cfg)) (recorded s, s1) (Ok rt) (recorded s2, s2) ∧
    (∀ q, (∀ h, q ≠ ["peel"; "lo"; h]) → lookup_path s' q = lookup_path (before_start ns s2) q) ∧
    forkExec pr = Ok mainPID ∧ describes (before_start ns s2) "/" rt pr.
Proof.
  intros Hr Hnd Hok Hlo Hcfg. unfold main. cbn [flag_Parse Flags_default fl_rootfs fl_config fl_state fl_pull_only].
  destruct (run w "/" ConfigLoad.DefaultPath State.DefaultPath false s) as [[[spec|spec share]|e] s1] eqn:Hrun; [done| |done].
  rewrite <-DefaultStatePath_eq in Hrun.
  destruct (boot_calm w cfg s s _ s1 Hr Hnd Hok Hlo Hcfg Hrun)
    as (spec' & share' & ns & s2 & rt & s3 & [= <- <-] & Hnet & Hst & HR & [_ Hc] & Hgone & Hs).
  unfold Run_start. destruct (start parent_env forkExec spec) as [[cmd pid]|e] eqn:Hstart; [|done]. cbn [res_bind].
  intros [= <- <- <-]. destruct (started parent_env forkExec _ "/" rt spec cmd pid HR Hstart) as (pr & Hf & Hd).
  rewrite !Hs by done. split_and!; [done| | |].
  - unfold lookup_path. by rewrite Hgone.
  - by apply Hc; [|apply (bool_decide_unpack _); vm_compute].
  - exists ns, s2, rt, s3, pr. by split_and!.
Qed.

Definition init_pid2 : positive := 2%positive.
Definition hello_fork (pr : process) : res unit positive :=
  if decide (pr_path pr = "/bin/hello") then Ok init_pid2 else Err tt.
Notation hello_main := (main ["PATH=/sbin"] hello_fork [] hello_world hello_root).

Lemma main_boots_witness :
  hello_main.1 = Loop init_pid2 (Supervisor.world_init init_pid2) ∧
  lookup_path hello_main.2 config_path = None ∧
  ∃ pr, hello_fork pr = Ok init_pid2 ∧ cr_Groups (pr_credential pr) = [].
Proof.
  assert (hello_main.1 = Loop init_pid2 (Supervisor.world_init init_pid2)) as H by (vm_compute; reflexivity).
  destruct (main_boots ["PATH=/sbin"] hello_fork hello_world (hello_config "a") hello_root init_pid2
    (Supervisor.world_init init_pid2) hello_main.2) as (_ & Hg & _ & ns & s1 & rt & s2 & pr & _ & _ & _ & Hf & _ & _ & _ & _ & _ & Hgr & _).
  - apply new_root_ready.
  - by vm_compute.
  - split; [by vm_compute|]. by apply (bool_decide_unpack _); vm_compute.
  - left. by vm_compute.
  - by vm_compute.
  - exact (pair_fst hello_main _ H).
  - split; [exact H|]. split; [exact Hg|]. exists pr. split; [exact Hf|exact Hgr].
Defined.

(** The command line means what it says: options in any of the spellings of
    package flag, in any order and number, set each flag to the last value it
    is given and leave the others at their defaults; and a command line that is
    no such thing ends peel with status 2 (0 when it asks for help) before
    anything is read or written. *)
Theorem flags_last_win {E F} parent_env (forkExec : process → res F positive) os args (w : Main.world (E := E)) s e :
  Forall option_ok os →
  flag_Parse (concat (render_option <$> os)) Flags_default = Ok (foldl set_option Flags_default os, []) ∧
  (flag_Parse args Flags_default = Err e →
   main parent_env forkExec args w s = (Exit (if decide (e = ErrHelp) then 0 else 2), s)).
Proof.
  intros Hos. split; [by apply flag_Parse_options|]. unfold main. intros ->. by destruct e.
Qed.
